(* ===== verification/_CoqProject ===== *)
-Q . S2P
Prelude.v
Utf8.v
Frame.v
Reader.v
Stream.v
ReaderSim.v
Messages.v
ReaderProps.v
Fuzz.v
Base64.v
Str.v
Http.v
Ip.v
Url.v
Handshake.v
UrlFacts.v
HandshakeFacts.v
HandshakeProps.v
Head.v
Prog.v
Events.v
Link.v
LinkInv.v
LinkSafe.v
Conn.v
Dial.v
Client.v
LinkProps.v
LinkFun.v
Flush.v
Replies.v
Delivery.v
Closing.v
LinkWitness.v
Wait.v
Transport.v
Wiring.v
Hub.v
HubLink.v
ClientProps.v
Serve.v
Session.v
Admission.v
Listener.v
Pem.v
Float.v
Native.v
NativeProps.v
Process.v
Handoff.v
Args.v
Build.v
