(* ===== verification/Prelude.v ===== *)
(** * Verification of the [ws] WebSocket library

    The program is a WebSocket (RFC 6455) client and server in Rust, with a
    binding for Lua.  This library models its Rust code as Rocq definitions and
    proves the properties that make it correct.  The properties are numbered
    C1 to C40; each is announced in the comment before its theorem.

    ** The program and its parts

    A peer's bytes go through the frame reader, which yields messages; the
    connection turns messages into events for the hub, answers pings and closes,
    and queues frames, which the writer hands to the transport.  A connection
    begins as a client's ([connect]: URL, resolver, dialling, TLS, HTTP upgrade)
    or as a server's ([accept]: admission, HTTP upgrade, the application's
    decision).  The hub is the one queue from which the application takes
    events; for Lua, the native library keeps a registry of hubs, connections,
    servers and pending decisions behind integers.

    ** The files

    Bytes and text.
    - [Prelude]: outcomes and results, machine integers, byte order, notation,
      tactics and the hint database [ws].
    - [Utf8]: [std::str::from_utf8] and its error, against the encodings of
      scalar values.  [Str]: the [&str] operations the code uses.
    Protocol (core/src/proto/).
    - [Frame]: frame.rs (encoding, masking by words, close codes).
    - [Reader]: reader.rs.  [Stream] is its contract, the meaning of a byte
      stream without buffers; [ReaderSim] proves that the reader implements it;
      [Messages] relates streams and messages; [ReaderProps] has C1 to C7;
      [Fuzz] is the closure of fuzz/targets/reader.rs.
    - [Base64]: base64.rs, C8.  [Http]: http.rs.  [Ip]: the address parsers of
      std.  [Url]: url.rs; [UrlFacts]: C9.
    - [Handshake]: handshake.rs and handshake/request.rs; [HandshakeFacts] and
      [HandshakeProps]: C10 to C13.  [Head]: [Stream::read_head] of
      net/stream.rs, C14.
    Connections (core/src/net/link/, event.rs, queue.rs, hub.rs).
    - [Prog]: programs of atomic sections, all their interleavings, and a
      rely-guarantee rule.  [Events]: event.rs and the sending side of queue.rs.
    - [Link]: every method and loop of a connection as such a program; one
      section is one critical section or one atomic access of the source.
    - [LinkInv]: the invariants and the order [mono] that no step undoes;
      [LinkSafe]: every method keeps them.  [Conn]: the handles of hub.rs.
    - [LinkProps]: C15 to C19, for every interleaving.  [LinkFun], [Flush],
      [Replies]: C20, C22 and C23, what single calls do.  Two connections
      of opposite roles: [Delivery], from one application to the other, C21, and
      [Closing], the closing handshake, C26.  The witnesses of all of these are
      in [LinkWitness].
    - [Hub]: the hub's queue and its drop against emitting connections, C40;
      [HubLink]: the method [emit] of [Link] does what its phases there say.
    Sessions (core/src/net/).
    - [Wait]: signal.rs, C34, and timer.rs.  [Transport]: activity.rs and
      tls_stream.rs.  [Wiring]: transport.rs, the [Stream] of stream.rs and
      runtime.rs.  [Pem]: tls.rs, C24.
    - [Dial]: dns.rs (with the slots of its lookups) and dial.rs, C33.
      [Client]: client.rs and options.rs; [ClientProps]: what [connect] accepts,
      and C30.  [Serve]: serve.rs, server.rs, reply.rs.  [Session]: both ends
      together, C27 and C28, and that a request is decided once.  [Admission]:
      accept.rs and the permits of queue.rs, C31 and C32.  [Listener]:
      [Server::close] against the accept task.
    Native library (native/).
    - [Float]: the [f64] operations of std that timeouts and heartbeats meet.
    - [Native]: src/ffi.rs, hub.rs, conn.rs, server.rs, event.rs, with
      [Hub::connect], [Hub::listen] and [next_id] of core; [NativeProps]: C35
      and C38, and that every call returns.  [Process]: the critical sections
      of all threads' calls on the one registry, interleaved, C36 and C39.
      [Handoff]: the strings of ffi.rs with their pointers, and the C functions
      of values.c and calls.c that copy them into Lua, C29 and C37.  [Args]: how
      those functions and ws.c's read and check their arguments, and what Rust
      makes of them, C25.  [Build]: build.rs.

    ** What the theorems show

    - Reading (C1-C7): decoding does not depend on how the bytes are cut, it
      inverts encoding and fragmenting, everything it accepts is valid, it
      always returns, and it keeps a bounded amount in memory.
    - Text formats (C8-C14): base64 accepts exactly the canonical encodings; a
      parsed URL is fit for the request line and the host header; client and
      server accept each other's heads, and the server exactly the upgrade
      requests; a head is read whole from any sequence of reads, with the end of
      the stream, errors and the limit; rejections are reported as sent.
    - One connection under every interleaving of calls, reader, writer, client
      worker and hub (C15-C19): one final event, legal bytes on the wire, an
      exact byte count, monotone states, a closing phase with a deadline and with
      the close frame on its way.
    - Single operations (C20, C22-C24): the outcome of sends, heartbeats and
      the writer's batches, a deferred pong included; keys given as text stay
      out of messages and are never file names.
    - Two connections (C21, C26): what one application sends, the other
      receives, and the closing handshake ends both with the same code.
    - Sessions (C27, C28, C30-C34): both ends agree on what was negotiated and
      no byte is lost between the handshake and the connection; every socket
      gets at most one answer; every outcome is reported once; the admission
      counters refine bounded semaphores and follow the strong counts of the
      shared permits; dialling is exhaustive; a cancellation is never lost.
    - The native library and the hub (C25, C29, C35-C40): arguments are refused
      or mean what they say, strings are given back exactly once whatever Lua
      does and arrive unchanged, the registry stays consistent under the calls
      of all threads, a shutdown forgets exactly one hub, requests survive
      packing, closed identifiers stay closed, and no connection outlives its
      hub unnoticed.

    ** Conventions, bounds and fuel

    Bytes are integers from 0 to 255 in lists; machine integers are integers
    with their wrap-around or saturation written out ([usize] has 64 bits);
    durations and instants are nanoseconds.  Code that can panic returns
    [outcome]; [Result] is [result].

    - [message] and [dispatch] run with fuel computed from the buffer
      ([message_fuel], one more than its length), each turn consuming at least a
      header; C5 and the refinement in [ReaderSim] show that it is enough.
    - The connection's endless loops ([write_pending], [read_run],
      [flush_wait]) take a number of iterations; the theorems about
      interleavings hold for every such number, so for every prefix of a run.
      The loops inside one batch of the writer ([write_items], [write_out]) run
      with fuel from the number of items and of bytes; C23 shows that it is
      enough: one batch empties the queue, a second one sends the pong that was
      deferred.  C21 and C26 say how many iterations
      of the reader suffice: one more than the chunks that arrive.
    - [to_dec] prints with 20 digits of fuel, enough for 64 bits.
    - [dial_loop], [read_head] and [drain_loop] recurse on the list of what the
      environment reports; C33 says which reports suffice.

    ** What is taken from elsewhere

    Code of other packages is a parameter with the documented behaviour the
    proofs need, and has concrete instances in the witnesses: SHA-1 (ring) is a
    function; rustls and the file system are the classes [Tls], [Rustls],
    [TlsStream] and [Sessions]; sockets are [Sockets], the global allocator is
    [Allocator], Lua is any program of [Handoff.lua] and its conversions of
    numbers are [LuaApi]; tokio's [Notify], wakers and [Sleep] are [Notify],
    [Wakers] and [Sleeps]; transports are [AsyncIo]; the byte order of the target is
    [Target].  In [Link] the clock, random masks and the transport are answers
    of an environment; in [Client] and [Serve] the network is a record of what
    the worker meets.

    ** Not modelled

    - Starting tokio and its scheduler, and the TLS handshake itself: calls into
      tokio and rustls, which [Wiring] takes as functions.
    - Memory orderings weaker than sequential consistency: the relaxed atomics
      are counters read under the same locks or on their own.
    - The Lua entry point of ws.c and lib.rs with its tests of the Lua runtime,
      the owner table of [l_hub], the binding to Lua's API in luaapi.c, and the
      Lua modules: they only move values between Lua and the functions above.
    - A hub used by two threads at once: [Process] lets the calls of different
      hubs overlap, and those of one hub follow each other, as they do in one
      Lua state.
    - The second that [Server::close] waits at most: in [Listener] the timeout
      may happen at any time.

    Later work: the closing handshake of C26 under every fair schedule instead
    of the one it describes, and [HubLink] for calls of [emit] that other
    threads of the connection interrupt. *)

From stdpp Require Export base numbers list strings gmap.
From Stdlib Require Export ZArith Lia.
#[export] Set Default Goal Selector "!".
#[global] Open Scope Z_scope.

(** ** Outcomes

    Rust code either returns, panics (an index out of range, an arithmetic
    overflow, [unreachable!()]), or, in the fuelled loops of this model, has
    not finished yet.  [OutOfFuel] exists only so that termination is a
    theorem about the model and not an assumption of it. *)
Inductive outcome (A : Type) : Type :=
  | Ret (a : A)
  | Panic
  | OutOfFuel.
Arguments Ret {A} a.
Arguments Panic {A}.
Arguments OutOfFuel {A}.

#[export] Instance outcome_ret : MRet outcome := @Ret.
#[export] Instance outcome_bind : MBind outcome := λ A B f m,
  match m with Ret a => f a | Panic => Panic | OutOfFuel => OutOfFuel end.

(** [Result<A, E>]. *)
Inductive result (A E : Type) : Type :=
  | Ok (a : A)
  | Err (e : E).
Arguments Ok {A E} a.
Arguments Err {A E} e.

#[export] Instance result_ret {E} : MRet (λ A, result A E) := λ A, @Ok A E.
#[export] Instance result_eq_dec `{EqDecision A, EqDecision E} : EqDecision (result A E).
Proof. solve_decision. Defined.
#[export] Instance outcome_eq_dec `{EqDecision A} : EqDecision (outcome A).
Proof. solve_decision. Defined.

(** The [?] operator of Rust on [Result] and on [Option]. *)
Declare Scope ws_scope.
Delimit Scope ws_scope with ws.
Notation "'let?' x := m 'in' k" :=
  (match m with Ok x => k | Err e => Err e end)
  (at level 10, x pattern, m at level 100, k at level 200) : ws_scope.
Notation "'let!' x := m 'orelse' e 'in' k" :=
  (match m with Some x => k | None => e end)
  (at level 10, x pattern, m at level 100, e at level 100, k at level 200) : ws_scope.
#[global] Open Scope ws_scope.

(** ** Machine integers

    [usize] is 64 bits wide.  Values are kept in [Z]; wrap-around and
    saturation are written out where the source relies on them. *)
Definition u8 (x : Z) : Z := x mod 2 ^ 8.
Definition u16 (x : Z) : Z := x mod 2 ^ 16.
Definition u32 (x : Z) : Z := x mod 2 ^ 32.
Definition u64 (x : Z) : Z := x mod 2 ^ 64.
Definition USIZE_MAX : Z := 2 ^ 64 - 1.
Definition U64_MAX : Z := 2 ^ 64 - 1.
(** [saturating_add] on [usize] and [u64]. *)
Definition sat_add (x y : Z) : Z := Z.min (x + y) U64_MAX.

Definition is_byte (b : Z) : Prop := 0 <= b < 256.
#[export] Instance is_byte_dec b : Decision (is_byte b).
Proof. unfold is_byte. apply _. Defined.
Abbreviation bytes_ok := (Forall is_byte).

Abbreviation bytes := (list Z).
Definition zlen {A} (l : list A) : Z := Z.of_nat (length l).

(** A string literal of the source, as its bytes. *)
Definition bs (s : string) : bytes :=
  map (λ a, Z.of_N (Ascii.N_of_ascii a)) (String.list_ascii_of_string s).
Arguments bs : simpl never.
Definition CRLF : bytes := [13; 10].

(** ** Slices and indexing, with the panics of out-of-range accesses *)
Definition index {A} (l : list A) (i : nat) : outcome A :=
  match l !! i with Some x => Ret x | None => Panic end.
(** [&l[i..]] *)
Definition slice_from {A} (l : list A) (i : nat) : outcome (list A) :=
  if decide (i <= length l)%nat then Ret (drop i l) else Panic.
(** [&l[..i]] *)
Definition slice_to {A} (l : list A) (i : nat) : outcome (list A) :=
  if decide (i <= length l)%nat then Ret (take i l) else Panic.
(** [&l[i..j]] *)
Definition slice {A} (l : list A) (i j : nat) : outcome (list A) :=
  if decide (i <= j <= length l)%nat then Ret (take (j - i) (drop i l)) else Panic.
(** [usize] subtraction: an underflow panics. *)
Definition usub (a b : nat) : outcome nat :=
  if decide (b <= a)%nat then Ret (a - b)%nat else Panic.

(** ** Byte orders *)
Fixpoint le_combine (l : bytes) : Z :=
  match l with [] => 0 | b :: r => b + 256 * le_combine r end.
Fixpoint le_split (n : nat) (x : Z) : bytes :=
  match n with O => [] | S n => x mod 256 :: le_split n (x / 256) end.
(** [from_be_bytes] and [to_be_bytes]. *)
Definition be_combine (l : bytes) : Z := le_combine (rev l).
Definition be_split (n : nat) (x : Z) : bytes := rev (le_split n x).

(** The byte order of the target, which [from_ne_bytes] and [to_ne_bytes]
    depend on.  Every theorem holds for both. *)
Inductive endian := LittleEndian | BigEndian.
Class Target := target_endian : endian.
Definition ne_combine `{Target} (l : bytes) : Z :=
  match target_endian with LittleEndian => le_combine l | BigEndian => be_combine l end.
Definition ne_split `{Target} (n : nat) (x : Z) : bytes :=
  match target_endian with LittleEndian => le_split n x | BigEndian => be_split n x end.

(** ** Automation *)
Create HintDb ws.

(** Case analysis on the scrutinee of the first [match] or [if] of the goal
    or of a hypothesis, remembering the equation. *)
Ltac case_step :=
  match goal with
  | |- context [match ?x with _ => _ end] =>
      lazymatch x with context [match _ with _ => _ end] => fail | _ => destruct x eqn:? end
  | H : context [match ?x with _ => _ end] |- _ =>
      lazymatch x with context [match _ with _ => _ end] => fail | _ => destruct x eqn:? end
  end.

(** [Forall] of an explicit list. *)
Ltac forall_done := repeat first [apply Forall_nil_2 | apply Forall_cons_2; [by auto with ws|]].

(** A decidable closed statement, by evaluation. *)
Ltac by_decide := refine (bool_decide_unpack _ _); vm_compute; exact I.

(** A statement about one byte, by evaluation on the 256 of them. *)
Definition all_bytes (P : Z → bool) : bool := forallb P (seqZ 0 256).
Lemma all_bytes_spec (P : Z → bool) :
  all_bytes P = true → ∀ b, is_byte b → P b = true.
Proof.
  unfold all_bytes. intros H b Hb. rewrite forallb_forall in H. apply H.
  apply list_elem_of_In, elem_of_seqZ. unfold is_byte in Hb. lia.
Qed.

(** ** Lists *)
Lemma zlen_app {A} (l k : list A) : zlen (l ++ k) = zlen l + zlen k.
Proof. unfold zlen. rewrite length_app. lia. Qed.
Lemma zlen_nonneg {A} (l : list A) : 0 <= zlen l.
Proof. unfold zlen. lia. Qed.
#[export] Hint Resolve zlen_nonneg : ws.

Lemma slice_from_ok {A} (l : list A) i :
  (i <= length l)%nat → slice_from l i = Ret (drop i l).
Proof. intros. unfold slice_from. by rewrite decide_True. Qed.
Lemma slice_ok {A} (l : list A) i j :
  (i <= j <= length l)%nat → slice l i j = Ret (take (j - i) (drop i l)).
Proof. intros. unfold slice. by rewrite decide_True. Qed.
Lemma usub_ok a b : (b <= a)%nat → usub a b = Ret (a - b)%nat.
Proof. intros. unfold usub. by rewrite decide_True. Qed.
Lemma index_ok {A} (l : list A) i x : l !! i = Some x → index l i = Ret x.
Proof. unfold index. by intros ->. Qed.

(** ** Induction on lists, several elements at a time *)
Lemma list_ind3 {A} (P : list A → Prop) :
  P [] → (∀ a, P [a]) → (∀ a b, P [a; b]) →
  (∀ a b c l, P l → P (a :: b :: c :: l)) → ∀ l, P l.
Proof.
  intros H0 H1 H2 H3 l. assert (∀ n l, (length l <= n)%nat → P l) as H; [|by eapply H].
  clear l. induction n as [|n IH]; intros [|a [|b [|c l]]] Hl; simpl in Hl; auto; try lia.
  apply H3, IH. lia.
Qed.

(** Induction four elements at a time. *)
Lemma list_ind4 {A} (P : list A → Prop) :
  (∀ l, (length l < 4)%nat → P l) →
  (∀ a b c d l, P l → P (a :: b :: c :: d :: l)) → ∀ l, P l.
Proof.
  intros H0 H4 l. assert (∀ n l, (length l <= n)%nat → P l) as H; [|by eapply H].
  clear l. induction n as [|n IH]; intros l Hl.
  - apply H0. lia.
  - destruct l as [|a [|b [|c [|d l]]]]; try (apply H0; simpl; lia).
    apply H4, IH. simpl in Hl. lia.
Qed.
Lemma bytes_length_ind (P : bytes → Prop) :
  (∀ l, (∀ k, (length k < length l)%nat → P k) → P l) → ∀ l, P l.
Proof.
  intros H l. remember (length l) as n eqn:Hn. revert l Hn.
  induction n as [n IH] using lt_wf_ind. intros l ->. apply H. intros k Hk. by eapply IH.
Qed.

(** ** Byte orders: the conversions are inverse to each other *)
Lemma length_le_split n x : length (le_split n x) = n.
Proof. revert x. induction n; intros; simpl; auto. Qed.
Lemma le_split_combine l :
  bytes_ok l → le_split (length l) (le_combine l) = l.
Proof.
  induction 1 as [|b l Hb Hl IH]; simpl; [done|]. unfold is_byte in Hb.
  rewrite (Z.mul_comm 256), Z.mod_add, Z.div_add, Z.mod_small, Z.div_small by lia.
  by rewrite Z.add_0_l, IH.
Qed.
Lemma le_combine_split n x : le_combine (le_split n x) = x mod 256 ^ Z.of_nat n.
Proof.
  revert x. induction n as [|n IH]; intros x; simpl.
  - by rewrite Z.pow_0_r, Z.mod_1_r.
  - rewrite IH, Nat2Z.inj_succ, Z.pow_succ_r, Z.rem_mul_r by lia. lia.
Qed.
Lemma le_split_bytes n x : bytes_ok (le_split n x).
Proof.
  revert x. induction n; intros; simpl; constructor; auto.
  apply Z.mod_pos_bound. lia.
Qed.
Lemma le_combine_bound l :
  bytes_ok l → 0 <= le_combine l < 256 ^ Z.of_nat (length l).
Proof.
  induction 1 as [|b l Hb Hl IH]; simpl; [lia|]. unfold is_byte in Hb.
  rewrite Nat2Z.inj_succ, Z.pow_succ_r by lia. lia.
Qed.

Lemma length_be_split n x : length (be_split n x) = n.
Proof. unfold be_split. by rewrite length_rev, length_le_split. Qed.
Lemma be_split_bytes n x : bytes_ok (be_split n x).
Proof. unfold be_split. apply Forall_rev, le_split_bytes. Qed.
Lemma be_combine_split n x : be_combine (be_split n x) = x mod 256 ^ Z.of_nat n.
Proof. unfold be_combine, be_split. by rewrite rev_involutive, le_combine_split. Qed.
Lemma be_split_combine l : bytes_ok l → be_split (length l) (be_combine l) = l.
Proof.
  intros H. unfold be_combine, be_split.
  rewrite <-(length_rev l), le_split_combine by by apply Forall_rev.
  apply rev_involutive.
Qed.
Lemma be_combine_bound l :
  bytes_ok l → 0 <= be_combine l < 256 ^ Z.of_nat (length l).
Proof.
  intros H. unfold be_combine. rewrite <-(length_rev l). by apply le_combine_bound, Forall_rev.
Qed.
#[export] Hint Resolve be_split_bytes le_split_bytes : ws.

(** ** Bit operations as arithmetic *)
Lemma u8_byte x : is_byte (u8 x).
Proof. unfold is_byte, u8. apply Z.mod_pos_bound. lia. Qed.
#[export] Hint Resolve u8_byte : ws.
Lemma lor_shiftl_add n k v : 0 <= k → 0 <= v < 2 ^ k → Z.lor (Z.shiftl n k) v = n * 2 ^ k + v.
Proof.
  intros Hk Hv.
  assert (Z.land (Z.shiftl n k) v = 0) as Hl.
  { apply Z.bits_inj'. intros i Hi. rewrite Z.land_spec, Z.bits_0.
    destruct (Z.lt_ge_cases i k).
    - by rewrite Z.shiftl_spec_low by lia.
    - assert (Z.testbit v i = false) as ->; [|by rewrite andb_false_r].
      destruct (Z.eq_dec v 0) as [->|]; [apply Z.bits_0|]. apply Z.bits_above_log2; [lia|].
      apply Z.log2_lt_pow2; [lia|]. pose proof (Z.pow_le_mono_r 2 k i). lia. }
  rewrite <-Z.shiftl_mul_pow2 by done. rewrite Z.add_nocarry_lxor by done. by rewrite Z.lxor_lor.
Qed.
Lemma land_low n k : 0 <= k → Z.land n (2 ^ k - 1) = n mod 2 ^ k.
Proof. intros. by rewrite <-Z.land_ones, Z.ones_equiv, Z.sub_1_r by done. Qed.
