(* ===== verification/Utf8.v ===== *)
(** * UTF-8 validation

    The part of the Rust standard library that the reader, the HTTP parser
    and the public API depend on: [std::str::from_utf8] with the two fields
    of its error, [valid_up_to] and [error_len].  The validator is the
    byte-by-byte automaton of the library; the specification is the set of
    encodings of Unicode scalar values.  The lemmas at the end are what makes
    an incremental use of the validator correct. *)

From S2P Require Import Prelude.

(** [Utf8Error]: bytes known to be valid, and the length of the invalid
    sequence ([None] when the input stops inside a sequence that more input
    could complete). *)
Record Utf8Error := { valid_up_to : nat; error_len : option nat }.

Definition is_cont (b : Z) : bool := (0x80 <=? b) && (b <=? 0xBF).
(** The second byte of a three-byte and of a four-byte sequence. *)
Definition second3 (first b : Z) : bool :=
  if first =? 0xE0 then (0xA0 <=? b) && (b <=? 0xBF)
  else if first =? 0xED then (0x80 <=? b) && (b <=? 0x9F)
  else is_cont b.
Definition second4 (first b : Z) : bool :=
  if first =? 0xF0 then (0x90 <=? b) && (b <=? 0xBF)
  else if first =? 0xF4 then (0x80 <=? b) && (b <=? 0x8F)
  else is_cont b.

Definition utf8_width (first : Z) : nat :=
  if first <? 0x80 then 1
  else if first <? 0xC2 then 0
  else if first <? 0xE0 then 2
  else if first <? 0xF0 then 3
  else if first <? 0xF5 then 4
  else 0.

(** Validates [l]; [off] counts the bytes already accepted. *)
Fixpoint utf8_from (off : nat) (l : bytes) : result unit Utf8Error :=
  let bad n := Err {| valid_up_to := off; error_len := Some n |} in
  let more := Err {| valid_up_to := off; error_len := None |} in
  match l with
  | [] => Ok tt
  | b :: r =>
      match utf8_width b with
      | 1%nat => utf8_from (off + 1) r
      | 2%nat =>
          match r with
          | [] => more
          | c :: r => if is_cont c then utf8_from (off + 2) r else bad 1%nat
          end
      | 3%nat =>
          match r with
          | [] => more
          | c :: r =>
              if second3 b c then
                match r with
                | [] => more
                | d :: r => if is_cont d then utf8_from (off + 3) r else bad 2%nat
                end
              else bad 1%nat
          end
      | 4%nat =>
          match r with
          | [] => more
          | c :: r =>
              if second4 b c then
                match r with
                | [] => more
                | d :: r =>
                    if is_cont d then
                      match r with
                      | [] => more
                      | e :: r => if is_cont e then utf8_from (off + 4) r else bad 3%nat
                      end
                    else bad 2%nat
                end
              else bad 1%nat
          end
      | _ => bad 1%nat
      end
  end.

Definition from_utf8 (l : bytes) : result unit Utf8Error := utf8_from 0 l.
Definition is_utf8 (l : bytes) : bool :=
  match from_utf8 l with Ok _ => true | Err _ => false end.

(** ** Specification: encodings of Unicode scalar values *)
Definition is_scalar (c : Z) : Prop := 0 <= c < 0xD800 ∨ 0xE000 <= c < 0x110000.
#[export] Instance is_scalar_dec c : Decision (is_scalar c).
Proof. unfold is_scalar. apply _. Defined.
Definition utf8_encode (c : Z) : bytes :=
  if c <? 0x80 then [c]
  else if c <? 0x800 then [0xC0 + c / 64; 0x80 + c mod 64]
  else if c <? 0x10000 then [0xE0 + c / 4096; 0x80 + c / 64 mod 64; 0x80 + c mod 64]
  else [0xF0 + c / 262144; 0x80 + c / 4096 mod 64; 0x80 + c / 64 mod 64; 0x80 + c mod 64].
Definition utf8_text (l : bytes) : Prop :=
  ∃ cs, Forall is_scalar cs ∧ l = concat (map utf8_encode cs).

(** ** Offsets *)
Definition shift (n : nat) (r : result unit Utf8Error) : result unit Utf8Error :=
  match r with
  | Ok _ => Ok tt
  | Err e => Err {| valid_up_to := n + valid_up_to e; error_len := error_len e |}
  end.
Lemma shift_shift n m r : shift n (shift m r) = shift (n + m) r.
Proof. destruct r; simpl; [done|]. do 2 f_equal. lia. Qed.
Lemma shift_0 r : shift 0 r = r.
Proof. by destruct r as [[]|[]]. Qed.

(** ** One step of the validator

    What the validator does at the front of its input: nothing left, a
    complete sequence of [n] bytes, an invalid one, or an unfinished one. *)
Inductive head := HDone | HSeq (n : nat) | HBad (n : nat) | HMore.

Definition tail_head (n : nat) (oks : list (Z → bool)) (r : bytes) : head :=
  (fix go (i : nat) (oks : list (Z → bool)) (r : bytes) : head :=
     match oks, r with
     | [], _ => HSeq n
     | _, [] => HMore
     | ok :: oks, c :: r => if ok c then go (S i) oks r else HBad i
     end) 1%nat oks r.
Definition utf8_head (l : bytes) : head :=
  match l with
  | [] => HDone
  | b :: r =>
      match utf8_width b with
      | 1%nat => HSeq 1
      | 2%nat => tail_head 2 [is_cont] r
      | 3%nat => tail_head 3 [second3 b; is_cont] r
      | 4%nat => tail_head 4 [second4 b; is_cont; is_cont] r
      | _ => HBad 1
      end
  end.

Lemma utf8_from_head off l :
  utf8_from off l =
  match utf8_head l with
  | HDone => Ok tt
  | HSeq n => utf8_from (off + n) (drop n l)
  | HBad n => Err {| valid_up_to := off; error_len := Some n |}
  | HMore => Err {| valid_up_to := off; error_len := None |}
  end.
Proof.
  destruct l as [|b r]; [done|]. cbn [utf8_from utf8_head].
  destruct (utf8_width b) as [|[|[|[|[|]]]]]; try done;
    repeat (cbn; case_match; simplify_eq; try done).
Qed.

Lemma utf8_head_seq_length l n :
  utf8_head l = HSeq n → (1 <= n <= length l)%nat.
Proof.
  destruct l as [|b r]; [done|]. cbn [utf8_head].
  destruct (utf8_width b) as [|[|[|[|[|]]]]]; try done;
    repeat (cbn; case_match; simplify_eq; try done); intros; simplify_eq; cbn; lia.
Qed.

Lemma utf8_head_done l : utf8_head l = HDone → l = [].
Proof.
  destruct l as [|b r]; [done|]. cbn [utf8_head].
  destruct (utf8_width b) as [|[|[|[|[|]]]]]; try done;
    destruct r as [|? [|? [|? ?]]]; cbn; repeat case_match; done.
Qed.

Lemma utf8_head_take l n : utf8_head l = HSeq n → utf8_head (take n l) = HSeq n.
Proof.
  destruct l as [|b r]; [done|]. cbn [utf8_head].
  destruct (utf8_width b) as [|[|[|[|[|]]]]] eqn:E; try done; intros H;
    destruct r as [|? [|? [|? ?]]]; cbn in H; repeat case_match;
    simplify_eq; cbn [take utf8_head]; rewrite E; cbn; by repeat case_match.
Qed.

(** More input does not change what was already decided. *)
Lemma utf8_head_app a b :
  utf8_head a ≠ HDone → utf8_head a ≠ HMore → utf8_head (a ++ b) = utf8_head a.
Proof.
  destruct a as [|x r]; [done|]. cbn [utf8_head app].
  destruct (utf8_width x) as [|[|[|[|[|]]]]]; try done;
    destruct r as [|? [|? [|? ?]]]; cbn; repeat case_match; done.
Qed.

Lemma utf8_from_shift off l : utf8_from off l = shift off (from_utf8 l).
Proof.
  unfold from_utf8. revert off. induction l as [l IH] using bytes_length_ind. intros off.
  rewrite (utf8_from_head off), (utf8_from_head 0).
  destruct (utf8_head l) as [|n|n|] eqn:E; try (simpl; do 2 f_equal; lia).
  apply utf8_head_seq_length in E.
  assert (length (drop n l) < length l)%nat by (rewrite length_drop; lia).
  rewrite (IH (drop n l)) by done. rewrite (IH (drop n l) ltac:(done) (0 + n)%nat).
  by rewrite shift_shift.
Qed.

Lemma from_utf8_head l :
  from_utf8 l =
  match utf8_head l with
  | HDone => Ok tt
  | HSeq n => shift n (from_utf8 (drop n l))
  | HBad n => Err {| valid_up_to := 0; error_len := Some n |}
  | HMore => Err {| valid_up_to := 0; error_len := None |}
  end.
Proof.
  unfold from_utf8 at 1. rewrite utf8_from_head. destruct (utf8_head l); try done.
  by rewrite utf8_from_shift.
Qed.

(** ** Incremental validation

    What validating [a] says about validating [a ++ b], in the three cases
    the caller distinguishes. *)
Lemma from_utf8_app_ok a b :
  from_utf8 a = Ok tt → from_utf8 (a ++ b) = shift (length a) (from_utf8 b).
Proof.
  induction a as [a IH] using bytes_length_ind. rewrite from_utf8_head.
  destruct (utf8_head a) as [|n|n|] eqn:E; intros H; try done.
  { apply utf8_head_done in E as ->. simpl. by rewrite shift_0. }
  pose proof (utf8_head_seq_length _ _ E) as Hn.
  rewrite (from_utf8_head (a ++ b)), utf8_head_app by (rewrite E; done). rewrite E.
  rewrite drop_app_le by lia. rewrite IH.
  - rewrite shift_shift, length_drop. f_equal. lia.
  - rewrite length_drop. lia.
  - by destruct (from_utf8 (drop n a)) as [[]|].
Qed.

Lemma from_utf8_app_bad a b v n :
  from_utf8 a = Err {| valid_up_to := v; error_len := Some n |} →
  from_utf8 (a ++ b) = Err {| valid_up_to := v; error_len := Some n |}.
Proof.
  revert v. induction a as [a IH] using bytes_length_ind. intros v. rewrite from_utf8_head.
  destruct (utf8_head a) as [|m|m|] eqn:E; intros H; try done.
  - pose proof (utf8_head_seq_length _ _ E) as Hm.
    rewrite (from_utf8_head (a ++ b)), utf8_head_app by (rewrite E; done). rewrite E.
    destruct (from_utf8 (drop m a)) as [[]|[v' n']] eqn:E'; simpl in H; simplify_eq.
    rewrite drop_app_le by lia. rewrite (IH (drop m a) ltac:(rewrite length_drop; lia) v'); done.
  - rewrite (from_utf8_head (a ++ b)), utf8_head_app by (rewrite E; done). by rewrite E.
Qed.

Lemma from_utf8_more a v :
  from_utf8 a = Err {| valid_up_to := v; error_len := None |} →
  (v <= length a)%nat ∧ from_utf8 (take v a) = Ok tt ∧ utf8_head (drop v a) = HMore.
Proof.
  revert v. induction a as [a IH] using bytes_length_ind. intros v. rewrite from_utf8_head.
  destruct (utf8_head a) as [|m|m|] eqn:E; intros H; try done; simplify_eq.
  - pose proof (utf8_head_seq_length _ _ E) as Hm.
    destruct (from_utf8 (drop m a)) as [[]|[v' n']] eqn:E'; simpl in H; simplify_eq.
    destruct (IH (drop m a) ltac:(rewrite length_drop; lia) v' E') as (H1 & H2 & H3).
    rewrite length_drop in H1. rewrite drop_drop in H3. split; [lia|]. split; [|done].
    rewrite <-take_take_drop.
    rewrite from_utf8_app_ok, H2; [done|].
    rewrite from_utf8_head, (utf8_head_take _ _ E).
    by rewrite drop_ge by (rewrite length_take; lia).
  - rewrite drop_0. split; [lia|]. by split.
Qed.

Lemma from_utf8_app_more a b v :
  from_utf8 a = Err {| valid_up_to := v; error_len := None |} →
  from_utf8 (a ++ b) = shift v (from_utf8 (drop v a ++ b)).
Proof.
  intros (Hv & Hok & _)%from_utf8_more. rewrite <-(take_drop v a) at 1.
  rewrite <-app_assoc, from_utf8_app_ok by done. by rewrite length_take_le by lia.
Qed.

(** ** The validator decides the specification *)
Ltac zb := repeat match goal with
  | H : andb _ _ = true |- _ => apply andb_true_iff in H; destruct H
  | H : (_ <=? _) = true |- _ => apply Z.leb_le in H
  | H : (_ <? _) = true |- _ => apply Z.ltb_lt in H
  | H : (_ <? _) = false |- _ => apply Z.ltb_ge in H
  | H : (_ =? _) = true |- _ => apply Z.eqb_eq in H; subst
  | H : (_ =? _) = false |- _ => apply Z.eqb_neq in H
  end.

Lemma utf8_width_spec b n :
  utf8_width b = n → (0 < n)%nat →
  (n = 1%nat ∧ b < 0x80) ∨ (n = 2%nat ∧ 0xC2 <= b < 0xE0) ∨
  (n = 3%nat ∧ 0xE0 <= b < 0xF0) ∨ (n = 4%nat ∧ 0xF0 <= b < 0xF5).
Proof. unfold utf8_width. intros <-. repeat case_match; zb; lia. Qed.

Lemma utf8_head_scalar l n :
  bytes_ok l → utf8_head l = HSeq n → ∃ c, is_scalar c ∧ take n l = utf8_encode c.
Proof.
  intros Hl H. destruct l as [|b r]; [done|]. inv Hl. cbn [utf8_head] in H.
  assert (0 < utf8_width b)%nat by (destruct (utf8_width b); [done|lia]).
  destruct (utf8_width_spec b _ eq_refl ltac:(done)) as [[E Hb]|[[E Hb]|[[E Hb]|[E Hb]]]];
    rewrite E in H; cbn in H; unfold is_byte in *; repeat case_match; simplify_eq;
    unfold second3, second4, is_cont in *; repeat case_match; zb;
    repeat match goal with H : Forall _ (_ :: _) |- _ => inv H end; cbn [take]; rewrite ?take_0.
  all: try (exists b; split; [left; lia|]; unfold utf8_encode; case_match; zb; [done|lia]).
  all: match goal with
    | |- ∃ _, _ ∧ [?a; ?b] = _ => exists ((a - 0xC0) * 64 + (b - 0x80))
    | |- ∃ _, _ ∧ [?a; ?b; ?c] = _ => exists ((a - 0xE0) * 4096 + (b - 0x80) * 64 + (c - 0x80))
    | |- ∃ _, _ ∧ [?a; ?b; ?c; ?d] = _ =>
        exists ((a - 0xF0) * 262144 + (b - 0x80) * 4096 + (c - 0x80) * 64 + (d - 0x80))
    | _ => idtac
    end.
  all: split; [unfold is_scalar; lia|].
  all: unfold utf8_encode; repeat case_match; zb; try (exfalso; lia).
  all: repeat (apply (f_equal2 cons); [|try reflexivity]).
  all: try lia; Z.to_euclidean_division_equations; lia.
Qed.

Lemma utf8_head_encode c r :
  is_scalar c →
  utf8_head (utf8_encode c ++ r) = HSeq (length (utf8_encode c)).
Proof.
  intros Hc. unfold is_scalar in Hc. unfold utf8_encode.
  destruct (c <? 0x80) eqn:E1; [|destruct (c <? 0x800) eqn:E2; [|destruct (c <? 0x10000) eqn:E3]];
    zb; cbn [app utf8_head length]; unfold utf8_width; repeat case_match; zb; try lia; cbn.
  all: unfold second3, second4, is_cont; repeat case_match; zb; try done;
       repeat match goal with
       | H : andb _ _ = false |- _ => apply andb_false_iff in H as [?|?]
       | H : (_ <=? _) = false |- _ => apply Z.leb_gt in H end; Z.to_euclidean_division_equations; lia.
Qed.

Lemma length_utf8_encode c : (0 < length (utf8_encode c))%nat.
Proof. unfold utf8_encode. repeat case_match; simpl; lia. Qed.

(** [from_utf8] accepts exactly the encodings of sequences of scalar values. *)
Lemma from_utf8_correct l : bytes_ok l → from_utf8 l = Ok tt ↔ utf8_text l.
Proof.
  intros Hl. split.
  - revert Hl. induction l as [l IH] using bytes_length_ind. intros Hl.
    rewrite from_utf8_head. destruct (utf8_head l) as [|n|n|] eqn:E; try done.
    { intros _. apply utf8_head_done in E as ->. exists []. done. }
    intros H. pose proof (utf8_head_seq_length _ _ E).
    destruct (utf8_head_scalar _ _ Hl E) as (c & Hc & Ht).
    destruct (IH (drop n l)) as (cs & Hcs & Hd).
    + rewrite length_drop. lia.
    + by apply Forall_drop.
    + by destruct (from_utf8 (drop n l)) as [[]|].
    + exists (c :: cs). split; [by constructor|]. simpl. rewrite <-Ht, <-Hd. by rewrite take_drop.
  - intros (cs & Hcs & ->). clear Hl. induction Hcs as [|c cs Hc Hcs IH]; [done|]. simpl.
    rewrite from_utf8_head, utf8_head_encode, drop_app_length by done. by rewrite IH.
Qed.

(** ASCII text is valid. *)
Lemma from_utf8_ascii l : Forall (λ b, 0 <= b < 0x80) l → from_utf8 l = Ok tt.
Proof.
  induction 1 as [|b l Hb Hl IH]; [done|]. rewrite from_utf8_head. cbn [utf8_head].
  unfold utf8_width. destruct (Z.ltb_spec b 0x80); [|lia].
  change (drop 1 (b :: l)) with (drop 0 l). by rewrite drop_0, IH.
Qed.
