(* ===== verification/Frame.v ===== *)
(** * Frame encoding (core/src/proto/frame.rs)

    The opcodes, the encoder, the word-at-a-time masking loop, close payloads
    and the message and failure types shared with the reader. *)

From S2P Require Import Prelude.

Definition TEXT : Z := 0x1.
Definition BINARY : Z := 0x2.
Definition CLOSE : Z := 0x8.
Definition PING : Z := 0x9.
Definition PONG : Z := 0xA.
Definition CONTINUATION : Z := 0x0.

(** [usize]: the additions to [len] saturate. *)
Definition encoded_len (len : Z) (masked : bool) : Z :=
  let extended :=
    if len <=? 125 then 0 else if len <=? 0xFFFF then 2 else 8 in
  sat_add len (2 + extended + if masked then 4 else 0).

(** [[u8; 4]] *)
Definition key4 : Type := Z * Z * Z * Z.
Definition key_bytes (k : key4) : bytes := let '(a, b, c, d) := k in [a; b; c; d].
Definition key_ok (k : key4) : Prop := bytes_ok (key_bytes k).

Section Mask.
Context `{Target}.

(** The loop over [as_chunks_mut::<4>], then the loop over the rest. *)
Fixpoint mask_chunks (word : Z) (key : key4) (data : bytes) : bytes :=
  match data with
  | a :: b :: c :: d :: r =>
      ne_split 4 (Z.lxor (ne_combine [a; b; c; d]) word) ++ mask_chunks word key r
  | rest => zip_with Z.lxor rest (key_bytes key)
  end.
Definition apply_mask (data : bytes) (key : key4) : bytes :=
  mask_chunks (ne_combine (key_bytes key)) key data.

(** Appends one frame to [out]; the last step masks [out[start..]] in place. *)
Definition encode_into (out : bytes) (op : Z) (payload : bytes) (mask : option key4) : bytes :=
  let len := zlen payload in
  let out := out ++ [Z.lor 0x80 op] in
  let bit := match mask with Some _ => 0x80 | None => 0 end in
  let out :=
    if len <=? 125 then out ++ [Z.lor bit (u8 len)]
    else if len <=? 0xFFFF then (out ++ [Z.lor bit 126]) ++ be_split 2 (u16 len)
    else (out ++ [Z.lor bit 127]) ++ be_split 8 (u64 len) in
  let start := (length out + match mask with Some _ => 4 | None => 0 end)%nat in
  let out := match mask with Some key => out ++ key_bytes key | None => out end in
  let out := out ++ payload in
  match mask with
  | Some key => take start out ++ apply_mask (drop start out) key
  | None => out
  end.

Definition encode (op : Z) (payload : bytes) (mask : option key4) : bytes :=
  encode_into [] op payload mask.

End Mask.

Definition close_payload (code : Z) (reason : bytes) : bytes := be_split 2 code ++ reason.

Definition valid_close_code (code : Z) : bool :=
  ((1000 <=? code) && (code <=? 1003)) || ((1007 <=? code) && (code <=? 1014))
  || ((3000 <=? code) && (code <=? 4999)).

Inductive Msg :=
  | Text (data : bytes)
  | Binary (data : bytes)
  | Ping (data : bytes)
  | Pong (data : bytes)
  | Close (status : option (Z * bytes)).
#[export] Instance Msg_eq_dec : EqDecision Msg.
Proof. solve_decision. Defined.

(** The close code to send and a description. *)
Record Fail_ := Fail { fail_code : Z; fail_why : bytes }.
#[export] Instance Fail_eq_dec : EqDecision Fail_.
Proof. solve_decision. Defined.

(** ** Masking: the word loop is the byte-wise cyclic exclusive or *)

(** RFC 6455 section 5.3: byte [i] is combined with key byte [i mod 4]. *)
Definition key_at (k : key4) (i : nat) : Z := nth (i mod 4) (key_bytes k) 0.
Definition mask_spec (data : bytes) (key : key4) : bytes :=
  imap (λ i b, Z.lxor b (key_at key i)) data.

Lemma lxor_mod_256 a b : Z.lxor a b mod 256 = Z.lxor (a mod 256) (b mod 256).
Proof.
  change 256 with (2 ^ 8). rewrite <-!Z.land_ones by lia.
  apply Z.bits_inj'. intros i Hi. rewrite !Z.land_spec, !Z.lxor_spec, !Z.land_spec.
  by destruct (Z.testbit a i), (Z.testbit b i), (Z.testbit (Z.ones 8) i).
Qed.
Lemma lxor_div_256 a b : Z.lxor a b / 256 = Z.lxor (a / 256) (b / 256).
Proof. change 256 with (2 ^ 8). rewrite <-!Z.shiftr_div_pow2 by lia. apply Z.shiftr_lxor. Qed.
Lemma lxor_byte a b : is_byte a → is_byte b → is_byte (Z.lxor a b).
Proof.
  unfold is_byte. intros Ha Hb. rewrite <-(Z.mod_small a 256), <-(Z.mod_small b 256) by lia.
  rewrite <-lxor_mod_256. apply Z.mod_pos_bound. lia.
Qed.

Lemma le_split_lxor n a b :
  le_split n (Z.lxor a b) = zip_with Z.lxor (le_split n a) (le_split n b).
Proof.
  revert a b. induction n as [|n IH]; intros a b; simpl; [done|].
  by rewrite lxor_mod_256, lxor_div_256, IH.
Qed.

Lemma zip_with_rev {A B C} (f : A → B → C) l k :
  length l = length k → zip_with f (rev l) (rev k) = rev (zip_with f l k).
Proof.
  revert k. induction l as [|x l IH]; intros [|y k] Hl; simpl in *; try done.
  rewrite zip_with_app by (rewrite !length_rev; lia). by rewrite IH by lia.
Qed.

Lemma ne_split_lxor `{Target} l k :
  bytes_ok l → bytes_ok k → length l = 4%nat → length k = 4%nat →
  ne_split 4 (Z.lxor (ne_combine l) (ne_combine k)) = zip_with Z.lxor l k.
Proof.
  intros Hl Hk El Ek. unfold ne_split, ne_combine, be_split, be_combine.
  destruct target_endian; rewrite le_split_lxor.
  - rewrite <-El at 1. rewrite <-Ek. by rewrite !le_split_combine.
  - replace 4%nat with (length (rev l)) at 1 by (by rewrite length_rev).
    replace 4%nat with (length (rev k)) by (by rewrite length_rev).
    rewrite !le_split_combine by by apply Forall_rev.
    rewrite <-zip_with_rev by (rewrite !length_rev; lia). by rewrite !rev_involutive.
Qed.

Lemma key_at_add4 k i : key_at k (4 + i) = key_at k i.
Proof. unfold key_at. by rewrite Nat.add_comm, (Nat.Div0.mod_add i 1 4 : (i + 4) mod 4 = _)%nat. Qed.

Lemma apply_mask_correct `{Target} data key :
  bytes_ok data → key_ok key → apply_mask data key = mask_spec data key.
Proof.
  intros Hd Hk. unfold apply_mask, mask_spec. revert Hd.
  induction data as [l Hl|a b c d l IH] using list_ind4; intros Hd.
  - destruct key as [[[??]?]?]. by destruct l as [|? [|? [|? [|? ?]]]]; simpl in Hl; try lia.
  - repeat match goal with H : Forall _ (_ :: _) |- _ => inv H end.
    cbn [mask_chunks]. rewrite ne_split_lxor, IH by first [done | by destruct key as [[[??]?]?] | by repeat apply Forall_cons_2].
    destruct key as [[[??]?]?]. simpl. do 4 f_equal. apply imap_ext. intros i x _. simpl.
    f_equal. symmetry. apply (key_at_add4 (z, z0, z1, z2)).
Qed.

Lemma mask_spec_involutive data key : mask_spec (mask_spec data key) key = data.
Proof.
  apply list_eq. intros i. unfold mask_spec. rewrite !list_lookup_imap.
  destruct (data !! i); simpl; [|done].
  by rewrite Z.lxor_assoc, Z.lxor_nilpotent, Z.lxor_0_r.
Qed.
Lemma key_at_byte key i : key_ok key → is_byte (key_at key i).
Proof.
  unfold key_ok, key_at. intros Hk. apply Forall_nth; [done|].
  pose proof (Nat.mod_upper_bound i 4). by destruct key as [[[??]?]?]; simpl; lia.
Qed.
Lemma mask_spec_bytes data key : bytes_ok data → key_ok key → bytes_ok (mask_spec data key).
Proof.
  intros Hd Hk. apply Forall_lookup. intros i x. unfold mask_spec. rewrite list_lookup_imap.
  intros (b & Hb & ->)%fmap_Some. rewrite Forall_lookup in Hd.
  apply lxor_byte; [by eapply Hd|by apply key_at_byte].
Qed.

Lemma length_ne_split `{Target} n x : length (ne_split n x) = n.
Proof. unfold ne_split. destruct target_endian; [apply length_le_split|apply length_be_split]. Qed.
Lemma length_apply_mask `{Target} data key : length (apply_mask data key) = length data.
Proof.
  unfold apply_mask. induction data as [l Hl|a b c d l IH] using list_ind4.
  - destruct key as [[[??]?]?]. by destruct l as [|? [|? [|? [|? ?]]]]; simpl in Hl; try lia.
  - cbn [mask_chunks]. by rewrite length_app, length_ne_split, IH.
Qed.
Lemma apply_mask_bytes `{Target} data key :
  bytes_ok data → key_ok key → bytes_ok (apply_mask data key).
Proof. intros. rewrite apply_mask_correct by done. by apply mask_spec_bytes. Qed.
Lemma apply_mask_involutive `{Target} data key :
  bytes_ok data → key_ok key → apply_mask (apply_mask data key) key = data.
Proof.
  intros. rewrite !apply_mask_correct by (done || by apply apply_mask_bytes).
  apply mask_spec_involutive.
Qed.
#[export] Hint Resolve apply_mask_bytes : ws.

(** ** The shape of an encoded frame *)
Definition mask_bit (mask : option key4) : Z := match mask with Some _ => 0x80 | None => 0 end.
Definition len_field (bit len : Z) : bytes :=
  if len <=? 125 then [Z.lor bit (u8 len)]
  else if len <=? 0xFFFF then Z.lor bit 126 :: be_split 2 (u16 len)
  else Z.lor bit 127 :: be_split 8 (u64 len).
Definition mask_field (mask : option key4) : bytes :=
  match mask with Some k => key_bytes k | None => [] end.
Definition payload_field `{Target} (payload : bytes) (mask : option key4) : bytes :=
  match mask with Some k => apply_mask payload k | None => payload end.

Lemma encode_into_shape `{Target} out op payload mask :
  encode_into out op payload mask =
  out ++ Z.lor 0x80 op :: len_field (mask_bit mask) (zlen payload) ++ mask_field mask
      ++ payload_field payload mask.
Proof.
  unfold encode_into, len_field, mask_field, payload_field.
  set (L := if zlen payload <=? 125 then _ else _).
  assert (L = (out ++ [Z.lor 0x80 op]) ++ len_field (mask_bit mask) (zlen payload)) as ->.
  { unfold L, len_field, mask_bit. repeat case_match; by rewrite <-?app_assoc. }
  destruct mask as [k|]; [|by rewrite <-!app_assoc].
  set (h := _ ++ len_field _ _).
  rewrite take_app_length', drop_app_length'
    by (rewrite length_app; destruct k as [[[??]?]?]; simpl; lia).
  unfold h. rewrite <-!app_assoc. done.
Qed.

(** Appending a frame leaves what [out] already holds untouched. *)
Lemma encode_into_app `{Target} out op payload mask :
  encode_into out op payload mask = out ++ encode op payload mask.
Proof. unfold encode. by rewrite !encode_into_shape. Qed.

Lemma encoded_len_small len masked :
  0 <= len < 2 ^ 63 →
  encoded_len len masked =
  len + 2 + (if len <=? 125 then 0 else if len <=? 0xFFFF then 2 else 8) + if masked then 4 else 0.
Proof.
  intros. unfold encoded_len, sat_add, U64_MAX. repeat case_match; lia.
Qed.
Lemma encode_length `{Target} op payload mask :
  zlen payload < 2 ^ 63 →
  zlen (encode op payload mask) = encoded_len (zlen payload) (bool_decide (is_Some mask)).
Proof.
  intros Hl. pose proof (zlen_nonneg payload).
  unfold encode. rewrite encode_into_shape, encoded_len_small by done.
  unfold zlen at 1. simpl. rewrite !length_app.
  assert (length (payload_field payload mask) = length payload) as ->.
  { destruct mask; simpl; [|done]. by rewrite length_apply_mask. }
  unfold len_field, zlen in *. destruct mask as [[[[??]?]?]|]; simpl;
    repeat case_match; simpl; rewrite ?length_be_split; lia.
Qed.
