(* ===== verification/Reader.v ===== *)
(** * The frame reader (core/src/proto/reader.rs)

    An incremental parser: it owns a buffer with a read position, validates
    one frame at a time, unmasks payloads in place and assembles fragmented
    messages.  Slices, indices and subtractions that could panic are modelled
    with [outcome], so that the absence of panics is a theorem. *)

From S2P Require Import Prelude Utf8 Frame.

Record Frame_ := { fin : bool; op : Z; payload : nat * nat }.
Record Partial := { p_op : Z; p_data : bytes; p_checked : nat }.
Record Reader := {
  buf : bytes;
  pos : nat;
  server : bool;
  max : Z;
  partial : option Partial
}.
#[export] Instance Partial_eq_dec : EqDecision Partial.
Proof. solve_decision. Defined.

Definition set_buf_pos (r : Reader) (b : bytes) (p : nat) : Reader :=
  {| buf := b; pos := p; server := server r; max := max r; partial := partial r |}.
Definition set_partial (r : Reader) (p : option Partial) : Reader :=
  {| buf := buf r; pos := pos r; server := server r; max := max r; partial := p |}.

(** [Reader::new] *)
Definition new (server : bool) (max : Z) : Reader :=
  {| buf := []; pos := 0; server := server; max := max; partial := None |}.

(** [Reader::input]: compacts, and hands out the buffer itself. *)
Definition input (r : Reader) : outcome Reader :=
  if decide (0 < pos r)%nat then
    b ← slice_from (buf r) (pos r);
    Ret (set_buf_pos r b 0)
  else Ret r.

(** [Reader::push] *)
Definition push (r : Reader) (data : bytes) : outcome Reader :=
  r ← input r;
  Ret (set_buf_pos r (buf r ++ data) (pos r)).

(** The length and the size of the header before the mask, [None] when the
    extended length has not arrived. *)
Definition frame_len (b : bytes) (b1 : Z) : outcome (option (Z * nat)) :=
  let n := Z.land b1 0x7F in
  if n =? 126 then
    if decide (4 <= length b)%nat then
      b2 ← index b 2; b3 ← index b 3; Ret (Some (be_combine [b2; b3], 4%nat))
    else Ret None
  else if n =? 127 then
    if decide (10 <= length b)%nat then
      s ← slice b 2 10; Ret (Some (be_combine s, 10%nat))
    else Ret None
  else Ret (Some (n, 2%nat)).

Definition known_op (op : Z) : bool :=
  (op =? CONTINUATION) || (op =? TEXT) || (op =? BINARY) || (op =? CLOSE) || (op =? PING) || (op =? PONG).

(** Bytes of the unfinished message. *)
Definition pending (p : option Partial) : Z :=
  match p with Some p => zlen (p_data p) | None => 0 end.

(** The last part of [Reader::frame], once the header was accepted: the mask,
    the payload, the new position. *)
Definition frame_body `{Target} (r : Reader) (b : bytes) (fi : bool) (o : Z) (masked : bool)
    (len : Z) (at_ : nat) : outcome (Reader * result (option Frame_) Fail_) :=
  if masked && bool_decide (length b < at_ + 4)%nat then Ret (r, Ok None) else
  let body := if masked then (at_ + 4)%nat else at_ in
  mask ← (if masked then
            k0 ← index b (body - 4); k1 ← index b (body - 3);
            k2 ← index b (body - 2); k3 ← index b (body - 1);
            Ret (Some (k0, k1, k2, k3))
          else Ret None);
  avail ← usub (length b) body;
  if Z.of_nat avail <? len then Ret (r, Ok None) else
  let start := (pos r + body)%nat in
  let end_ := (start + Z.to_nat len)%nat in
  buf' ← match mask with
         | Some key =>
             s ← slice (buf r) start end_;
             Ret (take start (buf r) ++ apply_mask s key ++ drop end_ (buf r))
         | None => Ret (buf r)
         end;
  Ret (set_buf_pos r buf' end_, Ok (Some {| fin := fi; op := o; payload := (start, end_) |})).

(** [Reader::frame] *)
Definition frame `{Target} (r : Reader) : outcome (Reader * result (option Frame_) Fail_) :=
  let fail code why := Ret (r, Err (Fail code (bs why))) in
  b ← slice_from (buf r) (pos r);
  if decide (length b < 2)%nat then Ret (r, Ok None) else
  b0 ← index b 0;
  b1 ← index b 1;
  let fin := negb (Z.land b0 0x80 =? 0) in
  let op := Z.land b0 0x0F in
  let masked := negb (Z.land b1 0x80 =? 0) in
  if negb (Z.land b0 0x70 =? 0) then fail 1002 "reserved bits set" else
  if negb (known_op op) then fail 1002 "unknown opcode" else
  if negb (eqb masked (server r)) then
    fail 1002 (if server r then "unmasked client frame" else "masked server frame") else
  let mid := match partial r with Some _ => true | None => false end in
  if (op <? CLOSE) && (op =? CONTINUATION) && negb mid then
    fail 1002 "unexpected continuation frame" else
  if (op <? CLOSE) && ((op =? TEXT) || (op =? BINARY)) && mid then
    fail 1002 "expected continuation frame" else
  hdr ← frame_len b b1;
  match hdr with
  | None => Ret (r, Ok None)
  | Some (len, at_) =>
  if ((at_ =? 4)%nat && (len <? 126)) ||
     ((at_ =? 10)%nat && ((len <? 65536) || negb (Z.shiftr len 63 =? 0))) then
    fail 1002 "invalid payload length encoding" else
  if (CLOSE <=? op) && (negb fin || (125 <? len)) then fail 1002 "invalid control frame" else
  if (op <? CLOSE) && (max r <? sat_add len (pending (partial r))) then fail 1009 "message too big" else
  frame_body r b fin op masked len at_
  end.

(** [fn close] *)
Definition close (payload : bytes) : result Msg Fail_ :=
  match payload with
  | [] => Ok (Close None)
  | [_] => Err (Fail 1002 (bs "invalid close frame"))
  | a :: b :: reason =>
      let code := be_combine [a; b] in
      if negb (valid_close_code code) then Err (Fail 1002 (bs "invalid close code")) else
      match from_utf8 reason with
      | Ok _ => Ok (Close (Some (code, reason)))
      | Err _ => Err (Fail 1007 (bs "invalid UTF-8 in close reason"))
      end
  end.

(** The UTF-8 bookkeeping of a text message after a fragment was appended. *)
Definition check_text (fin : bool) (p : Partial) : outcome (result Partial Fail_) :=
  tail ← slice_from (p_data p) (p_checked p);
  match from_utf8 tail with
  | Ok _ => Ret (Ok {| p_op := p_op p; p_data := p_data p; p_checked := length (p_data p) |})
  | Err e =>
      if bool_decide (error_len e = None) && negb fin then
        Ret (Ok {| p_op := p_op p; p_data := p_data p; p_checked := p_checked p + valid_up_to e |})
      else Ret (Err (Fail 1007 (bs "invalid UTF-8 in text message")))
  end.

(** [Reader::assemble] *)
Definition assemble (r : Reader) (f : Frame_) : outcome (Reader * result (option Msg) Fail_) :=
  payload ← slice (buf r) (payload f).1 (payload f).2;
  if op f =? PING then Ret (r, Ok (Some (Ping payload))) else
  if op f =? PONG then Ret (r, Ok (Some (Pong payload))) else
  if op f =? CLOSE then
    Ret (r, match close payload with Ok m => Ok (Some m) | Err e => Err e end) else
  let p := match partial r with
           | Some p => {| p_op := p_op p; p_data := p_data p ++ payload; p_checked := p_checked p |}
           | None => {| p_op := op f; p_data := payload; p_checked := 0 |}
           end in
  checked ← (if p_op p =? TEXT then check_text (fin f) p else Ret (Ok p));
  match checked with
  | Err e => Ret (set_partial r (Some p), Err e)
  | Ok p =>
      if negb (fin f) then Ret (set_partial r (Some p), Ok None)
      else Ret (set_partial r None,
                Ok (Some (if p_op p =? TEXT then Text (p_data p) else Binary (p_data p))))
  end.

(** [Reader::message], with a bound on the number of frames it looks at. *)
Fixpoint message_fuel `{Target} (fuel : nat) (r : Reader)
    : outcome (Reader * result (option Msg) Fail_) :=
  match fuel with
  | O => OutOfFuel
  | S fuel =>
      '(r, f) ← frame r;
      match f with
      | Err e => Ret (r, Err e)
      | Ok None => Ret (r, Ok None)
      | Ok (Some f) =>
          '(r, m) ← assemble r f;
          match m with
          | Err e => Ret (r, Err e)
          | Ok (Some m) => Ret (r, Ok (Some m))
          | Ok None => message_fuel fuel r
          end
      end
  end.
(** A frame is at least two bytes long, so this bound is never reached. *)
Definition message `{Target} (r : Reader) := message_fuel (S (length (buf r))) r.

(** The loop [while let Some(msg) = reader.message()? { out.push(msg) }]. *)
Fixpoint drain_fuel `{Target} (fuel : nat) (r : Reader) (out : list Msg)
    : outcome (Reader * result (list Msg) Fail_) :=
  match fuel with
  | O => OutOfFuel
  | S fuel =>
      '(r, m) ← message r;
      match m with
      | Err e => Ret (r, Err e)
      | Ok None => Ret (r, Ok out)
      | Ok (Some m) => drain_fuel fuel r (out ++ [m])
      end
  end.
Fixpoint decode_chunks `{Target} (r : Reader) (out : list Msg) (chunks : list bytes)
    : outcome (result (list Msg) Fail_) :=
  match chunks with
  | [] => Ret (Ok out)
  | chunk :: chunks =>
      r ← push r chunk;
      '(r, x) ← drain_fuel (S (length (buf r))) r out;
      match x with
      | Err e => Ret (Err e)
      | Ok out => decode_chunks r out chunks
      end
  end.
(** [decode] of the reader's fuzz target, for any message limit. *)
Definition decode `{Target} (server : bool) (max : Z) (chunks : list bytes) :=
  decode_chunks (new server max) [] chunks.
