(* ===== verification/Stream.v ===== *)
(** * The meaning of a byte stream

    The contract of the reader (core/src/proto/reader.rs), stated without
    buffers, positions or fuel: [frame_view] reads one frame off the front of
    a stream, [absorb] says what the frame does to the message being
    assembled, [stream_step] puts the two together and [runs] decodes a whole
    stream.  The facts proved here (a verdict is final, a frame makes
    progress, decoding composes) are what makes the reader incremental. *)

From S2P Require Import Prelude Utf8 Frame Reader.

(** ** The contract: what a byte stream means

    [frame_view] reads one frame off the front of a stream: not enough
    bytes, a violation, or a frame with its unmasked payload and the bytes
    after it. *)
Inductive view :=
  | Need
  | Bad (f : Fail_)
  | Got (fin : bool) (op : Z) (payload rest : bytes).

(** The extended length: its value, the bytes after it, and whether it is
    the shortest encoding. *)
Definition ext_len (b1 : Z) (r : bytes) : option (Z * bytes * bool) :=
  let n := Z.land b1 0x7F in
  if n =? 126 then
    if decide (2 <= length r)%nat then
      let len := be_combine (take 2 r) in Some (len, drop 2 r, 126 <=? len)
    else None
  else if n =? 127 then
    if decide (8 <= length r)%nat then
      let len := be_combine (take 8 r) in
      Some (len, drop 8 r, (65536 <=? len) && (Z.shiftr len 63 =? 0))
    else None
  else Some (n, r, true).
Definition take_key (masked : bool) (r : bytes) : option (option key4 * bytes) :=
  if masked then
    match r with
    | k0 :: k1 :: k2 :: k3 :: r => Some (Some (k0, k1, k2, k3), r)
    | _ => None
    end
  else Some (None, r).

Definition frame_view `{Target} (server : bool) (max : Z) (p : option Partial) (b : bytes) : view :=
  match b with
  | b0 :: b1 :: r =>
      let fin := negb (Z.land b0 0x80 =? 0) in
      let op := Z.land b0 0x0F in
      let masked := negb (Z.land b1 0x80 =? 0) in
      if negb (Z.land b0 0x70 =? 0) then Bad (Fail 1002 (bs "reserved bits set")) else
      if negb (known_op op) then Bad (Fail 1002 (bs "unknown opcode")) else
      if negb (eqb masked server) then
        Bad (Fail 1002 (bs (if server then "unmasked client frame" else "masked server frame"))) else
      if (op =? CONTINUATION) && negb (bool_decide (is_Some p)) then
        Bad (Fail 1002 (bs "unexpected continuation frame")) else
      if ((op =? TEXT) || (op =? BINARY)) && bool_decide (is_Some p) then
        Bad (Fail 1002 (bs "expected continuation frame")) else
      match ext_len b1 r with
      | None => Need
      | Some (len, r, shortest) =>
          if negb shortest then Bad (Fail 1002 (bs "invalid payload length encoding")) else
          if (CLOSE <=? op) && (negb fin || (125 <? len)) then
            Bad (Fail 1002 (bs "invalid control frame")) else
          if (op <? CLOSE) && (max <? sat_add len (pending p)) then
            Bad (Fail 1009 (bs "message too big")) else
          match take_key masked r with
          | None => Need
          | Some (key, r) =>
              if zlen r <? len then Need else
              Got fin op (payload_field (take (Z.to_nat len) r) key) (drop (Z.to_nat len) r)
          end
      end
  | _ => Need
  end.

(** What a frame does to the message being assembled. *)
Definition absorb (fin : bool) (op : Z) (payload : bytes) (p : option Partial)
    : result (option Msg * option Partial) Fail_ :=
  if op =? PING then Ok (Some (Ping payload), p) else
  if op =? PONG then Ok (Some (Pong payload), p) else
  if op =? CLOSE then
    match close payload with Ok m => Ok (Some m, p) | Err e => Err e end else
  let q := match p with
           | Some p => {| p_op := p_op p; p_data := p_data p ++ payload; p_checked := p_checked p |}
           | None => {| p_op := op; p_data := payload; p_checked := 0 |}
           end in
  let finish q :=
    if negb fin then Ok (None, Some q)
    else Ok (Some (if p_op q =? TEXT then Text (p_data q) else Binary (p_data q)), None) in
  if p_op q =? TEXT then
    match from_utf8 (drop (p_checked q) (p_data q)) with
    | Ok _ => finish {| p_op := p_op q; p_data := p_data q; p_checked := length (p_data q) |}
    | Err e =>
        if bool_decide (error_len e = None) && negb fin then
          finish {| p_op := p_op q; p_data := p_data q; p_checked := p_checked q + valid_up_to e |}
        else Err (Fail 1007 (bs "invalid UTF-8 in text message"))
    end
  else finish q.

Inductive step :=
  | SNeed
  | SFail (f : Fail_)
  | SNext (m : option Msg) (p : option Partial) (rest : bytes).
Definition stream_step `{Target} (server : bool) (max : Z) (p : option Partial) (b : bytes) : step :=
  match frame_view server max p b with
  | Need => SNeed
  | Bad f => SFail f
  | Got fin op payload rest =>
      match absorb fin op payload p with
      | Ok (m, p) => SNext m p rest
      | Err f => SFail f
      end
  end.

(** Everything a stream decodes to: the messages, and the violation that
    ended it or the unfinished message and bytes that are left. *)
Inductive runs `{Target} (server : bool) (max : Z) :
    option Partial → bytes → list Msg → result (option Partial * bytes) Fail_ → Prop :=
  | runs_need p b :
      stream_step server max p b = SNeed → runs server max p b [] (Ok (p, b))
  | runs_fail p b f :
      stream_step server max p b = SFail f → runs server max p b [] (Err f)
  | runs_next p b m p' b' ms x :
      stream_step server max p b = SNext m p' b' → runs server max p' b' ms x →
      runs server max p b (option_list m ++ ms) x.

(** ** Facts about the contract *)
Section Stream.
Context `{Target} (sv : bool) (mx : Z).

(** A verdict is final: bytes that arrive later cannot change it. *)
Lemma frame_view_app p b c :
  match frame_view sv mx p b with
  | Need => True
  | Bad f => frame_view sv mx p (b ++ c) = Bad f
  | Got fin op payload rest => frame_view sv mx p (b ++ c) = Got fin op payload (rest ++ c)
  end.
Proof.
  destruct b as [|b0 [|b1 r]]; [done..|]. cbn [frame_view app].
  do 5 (case_step; [done|]).
  assert (∀ len r' sh, ext_len b1 r = Some (len, r', sh) → ext_len b1 (r ++ c) = Some (len, r' ++ c, sh)) as He.
  { unfold ext_len. intros len r' sh. rewrite length_app.
    repeat case_decide; repeat case_match; intros; simplify_eq; try lia;
      rewrite ?take_app_le, ?drop_app_le by lia; done. }
  destruct (ext_len b1 r) as [[[len r'] sh]|] eqn:E; [|done]. rewrite (He _ _ _ eq_refl).
  do 3 (case_step; [done|]).
  assert (∀ masked k r2, take_key masked r' = Some (k, r2) → take_key masked (r' ++ c) = Some (k, r2 ++ c)) as Hk.
  { unfold take_key. intros [] k r2; [|by intros [= <- <-]].
    destruct r' as [|? [|? [|? [|? ?]]]]; try done. simpl. by intros [= <- <-]. }
  destruct (take_key _ r') as [[k r2]|] eqn:Ek; [|done]. rewrite (Hk _ _ _ Ek).
  destruct (Z.ltb_spec (zlen r2) len) as [|Hlen]; [done|].
  rewrite zlen_app. destruct (Z.ltb_spec (zlen r2 + zlen c) len).
  { pose proof (zlen_nonneg c). lia. }
  unfold zlen in *. by rewrite take_app_le, drop_app_le by lia.
Qed.

Lemma stream_step_fail_app p b c f :
  stream_step sv mx p b = SFail f → stream_step sv mx p (b ++ c) = SFail f.
Proof.
  unfold stream_step. pose proof (frame_view_app p b c) as Hv.
  destruct (frame_view sv mx p b) as [|g|fi o pl rest]; [done|by rewrite Hv|].
  rewrite Hv. by destruct (absorb fi o pl p) as [[??]|].
Qed.
Lemma stream_step_next_app p b c m p' rest :
  stream_step sv mx p b = SNext m p' rest → stream_step sv mx p (b ++ c) = SNext m p' (rest ++ c).
Proof.
  unfold stream_step. pose proof (frame_view_app p b c) as Hv.
  destruct (frame_view sv mx p b) as [|g|fi o pl r]; [done..|].
  rewrite Hv. destruct (absorb fi o pl p) as [[??]|]; [|done]. by intros [= -> -> ->].
Qed.

(** A frame takes at least two bytes. *)
Lemma frame_view_progress p b fi o pl rest :
  frame_view sv mx p b = Got fi o pl rest → (length rest + 2 <= length b)%nat.
Proof.
  destruct b as [|b0 [|b1 r]]; [done..|]. cbn [frame_view]. do 5 (case_step; [done|]).
  destruct (ext_len b1 r) as [[[len r'] sh]|] eqn:E; [|done].
  do 3 (case_step; [done|]).
  destruct (take_key _ r') as [[k r2]|] eqn:Ek; [|done].
  case_step; [done|]. intros [= <- <- <- <-].
  assert (length r' <= length r)%nat.
  { unfold ext_len in E. repeat case_match; simplify_eq; rewrite ?length_drop; lia. }
  assert (length r2 <= length r')%nat.
  { unfold take_key in Ek. repeat case_match; simplify_eq/=; lia. }
  rewrite length_drop. simpl. lia.
Qed.
Lemma stream_step_progress p b m p' rest :
  stream_step sv mx p b = SNext m p' rest → (length rest + 2 <= length b)%nat.
Proof.
  unfold stream_step. destruct (frame_view sv mx p b) as [|g|fi o pl r] eqn:E; [done..|].
  apply frame_view_progress in E. destruct (absorb fi o pl p) as [[??]|]; [|done].
  by intros [= -> -> ->].
Qed.

Lemma runs_total p b : ∃ ms x, runs sv mx p b ms x.
Proof.
  revert p. induction b as [b IH] using bytes_length_ind. intros p.
  destruct (stream_step sv mx p b) as [|f|m p' b'] eqn:E; [by eauto using runs..|].
  destruct (IH b' ltac:(apply stream_step_progress in E; lia) p') as (ms & x & Hr).
  eauto using runs.
Qed.
Lemma runs_det p b ms x ms' x' :
  runs sv mx p b ms x → runs sv mx p b ms' x' → ms = ms' ∧ x = x'.
Proof.
  intros Hr. revert ms' x'.
  induction Hr as [p b E|p b f E|p b m p' b' ms x E Hr IH]; intros ms' x' Hr';
    inv Hr'; try congruence; try (split; congruence).
  assert (m = m0 ∧ p' = p'0 ∧ b' = b'0) as (-> & -> & ->) by (split; [|split]; congruence).
  edestruct IH as [-> ->]; done.
Qed.

(** Decoding [a ++ b] is decoding [a] and going on from what it left. *)
Lemma runs_app p a b ms p' a' ms' x :
  runs sv mx p a ms (Ok (p', a')) → runs sv mx p' (a' ++ b) ms' x →
  runs sv mx p (a ++ b) (ms ++ ms') x.
Proof.
  intros Hr Hr'. remember (Ok (p', a')) as y eqn:Ey.
  induction Hr as [p a E|p a f E|p a m q c ms z E Hr IH]; simplify_eq; [done|].
  rewrite <-app_assoc. eapply runs_next; [by apply stream_step_next_app|]. by apply IH.
Qed.
Lemma runs_app_fail p a b ms f :
  runs sv mx p a ms (Err f) → runs sv mx p (a ++ b) ms (Err f).
Proof.
  intros Hr. remember (Err f) as y eqn:Ey.
  induction Hr as [p a E|p a g E|p a m q c ms z E Hr IH]; simplify_eq.
  - apply runs_fail. by apply stream_step_fail_app.
  - eapply runs_next; [by apply stream_step_next_app|]. by apply IH.
Qed.
Lemma runs_left p b ms p' b' :
  runs sv mx p b ms (Ok (p', b')) → stream_step sv mx p' b' = SNeed.
Proof.
  intros Hr. remember (Ok (p', b')) as y eqn:Ey.
  by induction Hr; simplify_eq; auto.
Qed.

(** One chunk at a time: the bytes left over are put in front of the next. *)
Inductive runs_chunks : option Partial → bytes → list bytes → list Msg →
    result (option Partial * bytes) Fail_ → Prop :=
  | rc_nil p b : runs_chunks p b [] [] (Ok (p, b))
  | rc_fail p b c cs ms f :
      runs sv mx p (b ++ c) ms (Err f) → runs_chunks p b (c :: cs) ms (Err f)
  | rc_cons p b c cs ms p' b' ms' x :
      runs sv mx p (b ++ c) ms (Ok (p', b')) → runs_chunks p' b' cs ms' x →
      runs_chunks p b (c :: cs) (ms ++ ms') x.

Lemma runs_chunks_runs p b cs ms x :
  stream_step sv mx p b = SNeed → runs_chunks p b cs ms x → runs sv mx p (b ++ concat cs) ms x.
Proof.
  intros Hn Hc. revert Hn. induction Hc as [p b|p b c cs ms f Hr|p b c cs ms p' b' ms' x Hr Hc IH];
    intros Hn; simpl.
  - rewrite app_nil_r. by apply runs_need.
  - rewrite app_assoc. by apply runs_app_fail.
  - rewrite app_assoc. eapply runs_app; [done|]. apply IH. by eapply runs_left.
Qed.
End Stream.
