(* ===== verification/ReaderSim.v ===== *)
(** * The reader implements the stream semantics

    Refinement lemmas: [frame] computes [frame_view] of the unread bytes,
    [assemble] computes [absorb], [message] the next message and [decode] the
    meaning of the concatenated chunks.  The absence of panics and the
    sufficiency of the fuel are part of each statement. *)

From S2P Require Import Prelude Utf8 Frame Reader Stream.

(** ** The reader implements the contract *)
Definition rest (r : Reader) : bytes := drop (pos r) (buf r).
Definition partial_wf (p : option Partial) : Prop :=
  match p with Some p => (p_checked p <= length (p_data p))%nat | None => True end.
Definition reader_wf (r : Reader) : Prop :=
  (pos r <= length (buf r))%nat ∧ partial_wf (partial r).

Lemma frame_len_ext b0 b1 r :
  frame_len (b0 :: b1 :: r) b1 =
  match ext_len b1 r with
  | None => Ret None
  | Some (len, r', _) => Ret (Some (len, (length r - length r' + 2)%nat))
  end.
Proof.
  unfold frame_len, ext_len. simpl length.
  destruct (Z.land b1 0x7F =? 126); [|destruct (Z.land b1 0x7F =? 127)].
  - destruct r as [|x [|y r]]; [done..|]. simpl. do 2 f_equal. rewrite drop_0. f_equal. lia.
  - destruct (decide (8 <= length r)%nat); [rewrite !decide_True by lia|by rewrite !decide_False by lia].
    rewrite slice_ok by (simpl; lia). simpl. do 3 f_equal. rewrite length_drop. lia.
  - do 3 f_equal. lia.
Qed.
Lemma ext_len_suffix b1 r len r' sh :
  ext_len b1 r = Some (len, r', sh) → ∃ k, r' = drop k r ∧ (k <= length r)%nat.
Proof.
  unfold ext_len. intros E. repeat case_match; simplify_eq.
  1, 2: eauto.
  exists 0%nat. split; [by rewrite drop_0|lia].
Qed.
Lemma ext_len_shortest b1 r len r' sh :
  ext_len b1 r = Some (len, r', sh) →
  let at_ := (length r - length r' + 2)%nat in
  ((at_ =? 4)%nat && (len <? 126)) ||
  ((at_ =? 10)%nat && ((len <? 65536) || negb (Z.shiftr len 63 =? 0))) = negb sh.
Proof.
  unfold ext_len. intros E. cbv zeta. repeat case_match; simplify_eq; rewrite ?length_drop.
  - replace (_ =? 4)%nat with true by (symmetry; apply Nat.eqb_eq; lia).
    replace (_ =? 10)%nat with false by (symmetry; apply Nat.eqb_neq; lia).
    rewrite Z.leb_antisym. cbn [andb orb]. by destruct (_ <? _).
  - replace (_ =? 4)%nat with false by (symmetry; apply Nat.eqb_neq; lia).
    replace (_ =? 10)%nat with true by (symmetry; apply Nat.eqb_eq; lia).
    rewrite Z.leb_antisym. cbn [andb orb]. by destruct (_ <? _), (_ =? _).
  - replace (_ =? 4)%nat with false by (symmetry; apply Nat.eqb_neq; lia).
    by replace (_ =? 10)%nat with false by (symmetry; apply Nat.eqb_neq; lia).
Qed.

Definition got `{Target} (r : Reader) (x : outcome (Reader * result (option Frame_) Fail_)) (v : view) : Prop :=
  match v with
  | Need => x = Ret (r, Ok None)
  | Bad f => x = Ret (r, Err f)
  | Got fi o pl rest' => ∃ b' s e,
      x = Ret (set_buf_pos r b' e, Ok (Some {| fin := fi; op := o; payload := (s, e) |})) ∧
      slice b' s e = Ret pl ∧ drop e b' = rest' ∧ (e <= length b')%nat
  end.

(** The payload is unmasked in place: the bytes around it keep their place. *)
Lemma unmask_in_place `{Target} (l : bytes) s e key :
  (s <= e <= length l)%nat →
  let l' := take s l ++ apply_mask (take (e - s) (drop s l)) key ++ drop e l in
  length l' = length l ∧ slice l' s e = Ret (apply_mask (take (e - s) (drop s l)) key) ∧
  drop e l' = drop e l.
Proof.
  intros Hs l'. set (m := apply_mask _ key) in *.
  assert (length m = e - s)%nat as Hm.
  { unfold m. rewrite length_apply_mask, length_take, length_drop. lia. }
  assert (length (take s l) = s) as Ht by (rewrite length_take; lia).
  assert (length l' = length l) as Hl'.
  { unfold l'. rewrite !length_app, length_drop. lia. }
  split; [done|]. rewrite slice_ok by lia. unfold l'. split.
  - rewrite drop_app_length' by done. by rewrite take_app_length' by done.
  - rewrite app_assoc. rewrite drop_app_length'; [done|]. rewrite length_app. lia.
Qed.

Lemma frame_body_refines `{Target} r fi o masked len k :
  (pos r <= length (buf r))%nat → (k <= length (rest r))%nat → 0 <= len →
  got r (frame_body r (rest r) fi o masked len k)
    match take_key masked (drop k (rest r)) with
    | None => Need
    | Some (key, t) =>
        if zlen t <? len then Need else
        Got fi o (payload_field (take (Z.to_nat len) t) key) (drop (Z.to_nat len) t)
    end.
Proof.
  intros Hpos Hk Hlen. unfold frame_body, take_key.
  assert (length (rest r) = length (buf r) - pos r)%nat as Hb by (unfold rest; apply length_drop).
  destruct masked; cbn [andb].
  - case_bool_decide as Hk4.
    { assert (length (drop k (rest r)) < 4)%nat by (rewrite length_drop; lia).
      by destruct (drop k (rest r)) as [|? [|? [|? [|? ?]]]]; simpl in *; try lia. }
    destruct (drop k (rest r)) as [|k0 [|k1 [|k2 [|k3 t]]]] eqn:Ed;
      try (apply (f_equal length) in Ed; rewrite length_drop in Ed; simpl in Ed; lia).
    assert (∀ i, rest r !! (k + i)%nat = (k0 :: k1 :: k2 :: k3 :: t) !! i) as Hi.
    { intros i. by rewrite <-lookup_drop, Ed. }
    assert (t = drop (k + 4) (rest r)) as Ht by (by rewrite <-drop_drop, Ed).
    rewrite (index_ok _ (k + 4 - 4) k0) by (replace (k + 4 - 4)%nat with (k + 0)%nat by lia; by rewrite Hi).
    rewrite (index_ok _ (k + 4 - 3) k1) by (replace (k + 4 - 3)%nat with (k + 1)%nat by lia; by rewrite Hi).
    rewrite (index_ok _ (k + 4 - 2) k2) by (replace (k + 4 - 2)%nat with (k + 2)%nat by lia; by rewrite Hi).
    rewrite (index_ok _ (k + 4 - 1) k3) by (replace (k + 4 - 1)%nat with (k + 3)%nat by lia; by rewrite Hi).
    cbn. rewrite usub_ok by lia. cbn.
    assert (zlen t = Z.of_nat (length (rest r) - (k + 4))) as Hz by (unfold zlen; rewrite Ht, length_drop; lia).
    rewrite Hz. destruct (Z.ltb_spec (Z.of_nat (length (rest r) - (k + 4))) len) as [|Hl]; [done|].
    set (s := (pos r + (k + 4))%nat). set (e := (s + Z.to_nat len)%nat).
    rewrite slice_ok by lia. cbn.
    destruct (unmask_in_place (buf r) s e (k0, k1, k2, k3)) as (H1 & H2 & H3); [lia|].
    assert (take (e - s) (drop s (buf r)) = take (Z.to_nat len) t) as Et.
    { unfold e. rewrite Nat.add_comm, Nat.add_sub, Ht. unfold rest, s. by rewrite drop_drop. }
    rewrite Et in *. eexists _, s, e. split; [done|]. split; [done|]. split; [|lia].
    rewrite H3. unfold e, s, rest in *. rewrite Ht, !drop_drop. f_equal; lia.
  - cbn. rewrite usub_ok by lia. cbn.
    assert (zlen (drop k (rest r)) = Z.of_nat (length (rest r) - k)) as -> by (unfold zlen; by rewrite length_drop).
    destruct (Z.ltb_spec (Z.of_nat (length (rest r) - k)) len) as [|Hl]; [done|].
    eexists _, _, _. split; [done|]. rewrite slice_ok by lia. unfold rest. rewrite !drop_drop.
    split; [|split; [f_equal; lia|lia]]. do 2 f_equal. lia.
Qed.

Lemma ext_len_nonneg b1 r len r' : ext_len b1 r = Some (len, r', true) → 0 <= len.
Proof.
  unfold ext_len. intros E. repeat case_match; simplify_eq.
  - lia.
  - lia.
  - apply Z.land_nonneg. right. lia.
Qed.

Lemma op_cont o : (o <? CLOSE) && (o =? CONTINUATION) = (o =? CONTINUATION).
Proof. unfold CLOSE, CONTINUATION. lia. Qed.
Lemma op_data o : (o <? CLOSE) && ((o =? TEXT) || (o =? BINARY)) = (o =? TEXT) || (o =? BINARY).
Proof. unfold CLOSE, TEXT, BINARY. lia. Qed.

Lemma frame_refines `{Target} r :
  (pos r <= length (buf r))%nat →
  got r (frame r) (frame_view (server r) (max r) (partial r) (rest r)).
Proof.
  intros Hpos. unfold frame. rewrite slice_from_ok by done. cbn.
  fold (rest r). destruct (rest r) as [|b0 [|b1 t]] eqn:Eb; [done..|]. rewrite <-Eb.
  rewrite decide_False by (rewrite Eb; simpl; lia).
  rewrite (index_ok _ 0 b0), (index_ok _ 1 b1) by (by rewrite Eb). cbn. rewrite Eb. cbn [frame_view].
  case_step; [done|]. case_step; [done|]. case_step; [by destruct (server r)|].
  rewrite op_cont.
  replace (negb (match partial r with Some _ => true | None => false end))
    with (negb (bool_decide (is_Some (partial r)))) by (by destruct (partial r)).
  case_step; [done|].
  rewrite op_data.
  replace (match partial r with Some _ => true | None => false end)
    with (bool_decide (is_Some (partial r))) by (by destruct (partial r)).
  case_step; [done|].
  rewrite frame_len_ext. destruct (ext_len b1 t) as [[[len t'] sh]|] eqn:Ee; [|done]. cbn.
  rewrite (ext_len_shortest _ _ _ _ _ Ee). destruct sh; cbn [negb]; [|done].
  case_step; [done|]. case_step; [done|].
  destruct (ext_len_suffix _ _ _ _ _ Ee) as (k & -> & Hk).
  rewrite length_drop, <-Eb.
  replace (length t - (length t - k) + 2)%nat with (k + 2)%nat by lia.
  replace (drop k t) with (drop (k + 2) (rest r)) by (rewrite Eb, Nat.add_comm; by rewrite <-drop_drop).
  apply frame_body_refines; [done|rewrite Eb; simpl; lia|by eapply ext_len_nonneg].
Qed.

Lemma set_partial_same r : set_partial r (partial r) = r.
Proof. by destruct r. Qed.

Lemma assemble_refines r fi o s e pl :
  slice (buf r) s e = Ret pl → partial_wf (partial r) →
  ∃ q, assemble r {| fin := fi; op := o; payload := (s, e) |} =
    match absorb fi o pl (partial r) with
    | Ok (m, p) => Ret (set_partial r p, Ok m)
    | Err f => Ret (set_partial r q, Err f)
    end.
Proof.
  intros Hs Hp. unfold assemble, absorb. cbn -[check_text]. rewrite Hs. cbn -[check_text].
  destruct (o =? PING); [exists None; by rewrite set_partial_same|].
  destruct (o =? PONG); [exists None; by rewrite set_partial_same|].
  destruct (o =? CLOSE).
  { exists (partial r). destruct (close pl); by rewrite set_partial_same. }
  set (q := match partial r with Some p => _ | None => _ end).
  assert (p_checked q <= length (p_data q))%nat as Hq.
  { unfold q. destruct (partial r) as [p|]; simpl in *; rewrite ?length_app; lia. }
  clearbody q. exists (Some q). destruct (p_op q =? TEXT) eqn:Et; cbn -[check_text].
  - unfold check_text. rewrite slice_from_ok by done. cbn.
    destruct (from_utf8 _) as [[]|er]; cbn; [by destruct fi; cbn; rewrite ?Et|].
    destruct (bool_decide (error_len er = None)), fi; cbn; rewrite ?Et; done.
  - destruct fi; cbn; by rewrite ?Et.
Qed.

Lemma absorb_wf fi o pl p m p' :
  partial_wf p → absorb fi o pl p = Ok (m, p') → partial_wf p'.
Proof.
  intros Hp. unfold absorb.
  destruct (o =? PING); [by intros [= <- <-]|]. destruct (o =? PONG); [by intros [= <- <-]|].
  destruct (o =? CLOSE). { destruct (close pl); [|done]. by intros [= <- <-]. }
  set (q := match p with Some p => _ | None => _ end).
  assert (p_checked q <= length (p_data q))%nat as Hq.
  { unfold q. destruct p as [p|]; simpl in *; rewrite ?length_app; lia. }
  clearbody q. destruct (p_op q =? TEXT).
  - destruct (from_utf8 _) as [[]|[v n]] eqn:Eu.
    { destruct fi; intros [= <- <-]; simpl; lia. }
    case_bool_decide as He; [|done]. destruct fi; [done|]. cbn in *. subst n.
    apply from_utf8_more in Eu as (Hv & _). rewrite length_drop in Hv.
    intros [= <- <-]. simpl. lia.
  - destruct fi; intros [= <- <-]; simpl; lia.
Qed.

(** [message] returns, without a panic, the next message the contract says. *)
Inductive next_msg `{Target} (sv : bool) (mx : Z) :
    option Partial → bytes → result (option Msg * option Partial * bytes) Fail_ → Prop :=
  | nm_need p b : stream_step sv mx p b = SNeed → next_msg sv mx p b (Ok (None, p, b))
  | nm_fail p b f : stream_step sv mx p b = SFail f → next_msg sv mx p b (Err f)
  | nm_msg p b m p' b' :
      stream_step sv mx p b = SNext (Some m) p' b' → next_msg sv mx p b (Ok (Some m, p', b'))
  | nm_skip p b p' b' x :
      stream_step sv mx p b = SNext None p' b' → next_msg sv mx p' b' x → next_msg sv mx p b x.

Section Refinement.
Context `{Target}.

(** The reader's state shows [p] and [b] and is well formed. *)
Definition shows (sv : bool) (mx : Z) (r : Reader) (p : option Partial) (b : bytes) : Prop :=
  reader_wf r ∧ server r = sv ∧ max r = mx ∧ partial r = p ∧ rest r = b.

Definition message_post (sv : bool) (mx : Z) (r' : Reader) (y : result (option Msg) Fail_)
    (x : result (option Msg * option Partial * bytes) Fail_) : Prop :=
  match x with
  | Ok (m, p, b) => y = Ok m ∧ shows sv mx r' p b
  | Err f => y = Err f
  end.

Lemma message_step sv mx r p b :
  shows sv mx r p b →
  match stream_step sv mx p b with
  | SNeed => frame r = Ret (r, Ok None)
  | SFail f => (frame r = Ret (r, Err f)) ∨
      ∃ r1 fr r2, frame r = Ret (r1, Ok (Some fr)) ∧ assemble r1 fr = Ret (r2, Err f)
  | SNext m p' b' => ∃ r1 fr r2,
      frame r = Ret (r1, Ok (Some fr)) ∧ assemble r1 fr = Ret (r2, Ok m) ∧ shows sv mx r2 p' b' ∧
      length (buf r2) = length (buf r1)
  end.
Proof.
  intros ((Hpos & Hp) & <- & <- & <- & <-).
  pose proof (frame_refines r Hpos) as Hf. unfold stream_step.
  destruct (frame_view _ _ _ _) as [|f|fi o pl t]; simpl in Hf; [done|by left|].
  destruct Hf as (b' & s & e & Hf & Hs & Hd & He).
  edestruct (assemble_refines (set_buf_pos r b' e) fi o s e pl) as (q & Ha); [done..|].
  simpl in Ha. destruct (absorb fi o pl (partial r)) as [[m p']|f] eqn:Ea.
  - eexists _, _, _. split; [done|]. split; [done|]. split; [|done].
    split; [|done]. split; [done|]. by eapply absorb_wf.
  - right. eauto 6.
Qed.

Lemma message_fuel_refines sv mx p b x :
  next_msg sv mx p b x → ∀ fuel r, shows sv mx r p b → (length b < fuel)%nat →
  ∃ r' y, message_fuel fuel r = Ret (r', y) ∧ message_post sv mx r' y x.
Proof.
  induction 1 as [p b E|p b f E|p b m p' b' E|p b p' b' x E Hn IH]; intros [|fuel] r Hr Hl; try lia;
    pose proof (message_step _ _ _ _ _ Hr) as Hm; rewrite E in Hm; cbn [message_fuel].
  - rewrite Hm. cbn. by eexists _, _.
  - destruct Hm as [Hm|(r1 & fr & r2 & Hf & Ha)].
    + rewrite Hm. cbn. by eexists _, _.
    + rewrite Hf. cbn -[assemble]. rewrite Ha. cbn. by eexists _, _.
  - destruct Hm as (r1 & fr & r2 & Hf & Ha & Hs & _). rewrite Hf. cbn -[assemble]. rewrite Ha. cbn.
    by eexists _, _.
  - destruct Hm as (r1 & fr & r2 & Hf & Ha & Hs & _). rewrite Hf. cbn -[assemble]. rewrite Ha. cbn.
    apply IH; [done|]. apply stream_step_progress in E. lia.
Qed.
Lemma message_refines sv mx r p b x :
  next_msg sv mx p b x → shows sv mx r p b →
  ∃ r' y, message r = Ret (r', y) ∧ message_post sv mx r' y x.
Proof.
  intros Hn Hr. eapply message_fuel_refines; [done..|]. destruct Hr as (_ & _ & _ & _ & <-).
  unfold rest. rewrite length_drop. lia.
Qed.

Lemma next_msg_total sv mx p b : ∃ x, next_msg sv mx p b x.
Proof.
  revert p. induction b as [b IH] using bytes_length_ind. intros p.
  destruct (stream_step sv mx p b) as [|f|[m|] p' b'] eqn:E; [by eauto using next_msg..|].
  destruct (IH b' ltac:(apply stream_step_progress in E; lia) p') as (x & Hx).
  eauto using next_msg.
Qed.

(** The stream semantics is iterated [next_msg]. *)
Lemma next_msg_runs sv mx p b y :
  next_msg sv mx p b y →
  match y with
  | Ok (None, p', b') => runs sv mx p b [] (Ok (p', b'))
  | Err f => runs sv mx p b [] (Err f)
  | Ok (Some m, p', b') => (length b' < length b)%nat ∧
      ∀ ms x, runs sv mx p' b' ms x → runs sv mx p b (m :: ms) x
  end.
Proof.
  induction 1 as [p b E|p b f E|p b m p' b' E|p b p' b' x E Hn IH].
  - by apply runs_need.
  - by apply runs_fail.
  - split; [apply stream_step_progress in E; lia|]. intros ms x Hr. by eapply (runs_next _ _ _ _ (Some m)).
  - pose proof (stream_step_progress _ _ _ _ _ _ _ E).
    destruct x as [[[[m|] q] c]|f].
    + destruct IH as [? IH]. split; [lia|]. intros ms x Hr. eapply (runs_next _ _ _ _ None); eauto.
    + by eapply (runs_next _ _ _ _ None).
    + by eapply (runs_next _ _ _ _ None).
Qed.

Definition outcome_of {A} (out ms : list Msg) (x : result A Fail_) : result (list Msg) Fail_ :=
  match x with Ok _ => Ok (out ++ ms) | Err f => Err f end.

Lemma drain_refines sv mx b : ∀ p ms x fuel r out,
  runs sv mx p b ms x → shows sv mx r p b → (length b < fuel)%nat →
  ∃ r', drain_fuel fuel r out = Ret (r', outcome_of out ms x) ∧
    ∀ p' b', x = Ok (p', b') → shows sv mx r' p' b'.
Proof.
  induction b as [b IH] using bytes_length_ind. intros p ms x [|fuel] r out Hr Hs Hl; [lia|].
  destruct (next_msg_total sv mx p b) as (y & Hy).
  destruct (message_refines _ _ _ _ _ _ Hy Hs) as (r1 & z & Hm & Hpost).
  pose proof (next_msg_runs _ _ _ _ _ Hy) as Hruns.
  cbn [drain_fuel]. rewrite Hm. cbn -[message].
  destruct y as [[[[m|] p'] b']|f]; simpl in Hpost.
  - destruct Hpost as [-> Hs1]. destruct Hruns as [Hlt Hruns].
    destruct (runs_total sv mx p' b') as (ms' & x' & Hr').
    destruct (runs_det _ _ _ _ _ _ _ _ Hr (Hruns _ _ Hr')) as [-> ->].
    destruct (IH b' Hlt p' ms' x' fuel r1 (out ++ [m]) Hr' Hs1) as (r2 & Hd & H2); [lia|].
    exists r2. rewrite Hd. split; [|done]. destruct x'; simpl; [|done]. by rewrite <-app_assoc.
  - destruct Hpost as [-> Hs1]. destruct (runs_det _ _ _ _ _ _ _ _ Hr Hruns) as [-> ->].
    exists r1. simpl. rewrite app_nil_r. split; [done|]. by intros ?? [= <- <-].
  - subst z. destruct (runs_det _ _ _ _ _ _ _ _ Hr Hruns) as [-> ->].
    by exists r1.
Qed.

Lemma push_refines sv mx r p b data :
  shows sv mx r p b → ∃ r', push r data = Ret r' ∧ shows sv mx r' p (b ++ data) ∧
    (length (rest r') = length (buf r'))%nat.
Proof.
  intros ((Hpos & Hp) & <- & <- & <- & <-). unfold push, input.
  case_decide as Hd.
  - rewrite slice_from_ok by done. cbn. eexists. split; [done|].
    split; [|done]. split; [|done]. split; [simpl; lia|done].
  - assert (pos r = 0%nat) as E by lia. cbn. eexists. split; [done|].
    unfold shows, reader_wf, rest. simpl. rewrite E, !drop_0.
    repeat split; [lia|done].
Qed.

Lemma runs_chunks_total sv mx p b cs : ∃ ms x, runs_chunks sv mx p b cs ms x.
Proof.
  revert p b. induction cs as [|c cs IH]; intros p b; [eauto using runs_chunks|].
  destruct (runs_total sv mx p (b ++ c)) as (ms & [[p' b']|f] & Hr); [|eauto using runs_chunks].
  destruct (IH p' b') as (ms' & x & Hc). eauto using runs_chunks.
Qed.

Lemma decode_chunks_refines sv mx p b cs ms x :
  runs_chunks sv mx p b cs ms x → ∀ r out, shows sv mx r p b →
  decode_chunks r out cs = Ret (outcome_of out ms x).
Proof.
  induction 1 as [p b|p b c cs ms f Hr|p b c cs ms p' b' ms' x Hr Hc IH]; intros r out Hs;
    cbn [decode_chunks].
  - simpl. by rewrite app_nil_r.
  - destruct (push_refines _ _ _ _ _ c Hs) as (r1 & -> & Hs1 & Hl1). cbn [mbind outcome_bind].
    edestruct (drain_refines sv mx (b ++ c)) as (r2 & -> & _); [done..|
      destruct Hs1 as (_ & _ & _ & _ & <-); lia|]. done.
  - destruct (push_refines _ _ _ _ _ c Hs) as (r1 & -> & Hs1 & Hl1). cbn [mbind outcome_bind].
    edestruct (drain_refines sv mx (b ++ c)) as (r2 & -> & H2); [done..|
      destruct Hs1 as (_ & _ & _ & _ & <-); lia|]. cbn [mbind outcome_bind outcome_of].
    rewrite IH by by apply H2. destruct x; simpl; [|done]. by rewrite app_assoc.
Qed.

Lemma shows_new sv mx : shows sv mx (new sv mx) None [].
Proof. repeat split; simpl; lia. Qed.

(** [decode] computes the meaning of the concatenated bytes. *)
Lemma decode_correct sv mx cs ms x :
  runs sv mx None (concat cs) ms x → decode sv mx cs = Ret (outcome_of [] ms x).
Proof.
  intros Hr. destruct (runs_chunks_total sv mx None [] cs) as (ms' & x' & Hc).
  unfold decode. rewrite (decode_chunks_refines _ _ _ _ _ _ _ Hc) by apply shows_new.
  apply runs_chunks_runs in Hc; [|done].
  by destruct (runs_det _ _ _ _ _ _ _ _ Hr Hc) as [-> ->].
Qed.
End Refinement.
