(* ===== verification/Messages.v ===== *)
(** * Messages on the wire

    What peers send (one frame per message, or fragments with control frames
    between them), that it decodes to what was sent, and what is known about
    anything that decodes at all. *)

From S2P Require Import Prelude Utf8 Frame Reader Stream ReaderSim.

(** ** Sending and receiving *)

(** What a peer sends for a message: one final frame. *)
Definition encode_msg `{Target} (m : Msg) (key : option key4) : bytes :=
  match m with
  | Text d => encode TEXT d key
  | Binary d => encode BINARY d key
  | Ping d => encode PING d key
  | Pong d => encode PONG d key
  | Close None => encode CLOSE [] key
  | Close (Some (code, reason)) => encode CLOSE (close_payload code reason) key
  end.
(** Messages within the limits of the protocol and of the receiver. *)
Definition msg_ok (mx : Z) (m : Msg) : Prop :=
  match m with
  | Text d => bytes_ok d ∧ zlen d <= mx ∧ zlen d < 2 ^ 63 ∧ from_utf8 d = Ok tt
  | Binary d => bytes_ok d ∧ zlen d <= mx ∧ zlen d < 2 ^ 63
  | Ping d | Pong d => bytes_ok d ∧ zlen d <= 125
  | Close None => True
  | Close (Some (code, reason)) =>
      bytes_ok reason ∧ valid_close_code code = true ∧ zlen reason <= 123 ∧ from_utf8 reason = Ok tt
  end.
(** Clients mask, servers do not. *)
Definition key_for (sv : bool) (key : option key4) : Prop :=
  match key with Some k => sv = true ∧ key_ok k | None => sv = false end.

Definition low_bits (n : Z) : bool :=
  (127 <? n) ||
  ((Z.land (Z.lor 128 n) 128 =? 128) && (Z.land (Z.lor 128 n) 127 =? n) &&
   (Z.land (Z.lor 0 n) 128 =? 0) && (Z.land (Z.lor 0 n) 127 =? n)).
Lemma low_bits_all n : 0 <= n <= 127 →
  Z.land (Z.lor 128 n) 128 = 128 ∧ Z.land (Z.lor 128 n) 127 = n ∧
  Z.land (Z.lor 0 n) 128 = 0 ∧ Z.land (Z.lor 0 n) 127 = n.
Proof.
  intros Hn. assert (low_bits n = true) as Hb.
  { apply (all_bytes_spec low_bits); [by vm_compute|unfold is_byte; lia]. }
  unfold low_bits in Hb. lia.
Qed.

(** The length field decodes to the length, in its shortest form. *)
Lemma len_field_ext key len t :
  0 <= len < 2 ^ 63 →
  ∃ b1 r, len_field (mask_bit key) len ++ t = b1 :: r ∧ ext_len b1 r = Some (len, t, true) ∧
    negb (Z.land b1 0x80 =? 0) = bool_decide (is_Some key).
Proof.
  intros Hl. unfold len_field.
  assert (∀ n, 0 <= n <= 127 →
    Z.land (Z.lor (mask_bit key) n) 127 = n ∧
    negb (Z.land (Z.lor (mask_bit key) n) 128 =? 0) = bool_decide (is_Some key)) as Hb.
  { intros n Hn. destruct (low_bits_all n Hn) as (H1 & H2 & H3 & H4).
    destruct key; simpl; [by rewrite H1, H2|by rewrite H3, H4]. }
  destruct (Z.leb_spec len 125); [|destruct (Z.leb_spec len 0xFFFF)].
  - destruct (Hb (u8 len)) as [H1 H2]; [unfold u8; rewrite Z.mod_small; lia|].
    eexists _, _. split; [done|]. split; [|done]. unfold ext_len. rewrite H1. unfold u8.
    rewrite Z.mod_small by lia. destruct (Z.eqb_spec len 126); [lia|]. by destruct (Z.eqb_spec len 127); [lia|].
  - destruct (Hb 126) as [H1 H2]; [lia|]. eexists _, (be_split 2 (u16 len) ++ t). split; [done|]. split; [|done].
    unfold ext_len. rewrite H1. change (126 =? 126) with true. cbv beta iota zeta.
    rewrite decide_True by (rewrite length_app, length_be_split; lia).
    rewrite take_app_length', drop_app_length', be_combine_split by (by rewrite length_be_split).
    change (256 ^ Z.of_nat 2) with (2 ^ 16). unfold u16. rewrite Z.mod_mod, Z.mod_small by lia. by destruct (Z.leb_spec 126 len); [|lia].
  - destruct (Hb 127) as [H1 H2]; [lia|]. eexists _, (be_split 8 (u64 len) ++ t). split; [done|]. split; [|done].
    unfold ext_len. rewrite H1. change (127 =? 126) with false. change (127 =? 127) with true.
    cbv beta iota zeta.
    rewrite decide_True by (rewrite length_app, length_be_split; lia).
    rewrite take_app_length', drop_app_length', be_combine_split by (by rewrite length_be_split).
    change (256 ^ Z.of_nat 8) with (2 ^ 64). unfold u64. rewrite Z.mod_mod, Z.mod_small by lia. destruct (Z.leb_spec 65536 len); [|lia].
    rewrite Z.shiftr_div_pow2, Z.div_small by lia. done.
Qed.

(** A frame as any peer may write it: [encode] writes final frames only. *)
Definition raw_frame `{Target} (fi : bool) (o : Z) (d : bytes) (key : option key4) : bytes :=
  Z.lor (if fi then 0x80 else 0) o ::
  len_field (mask_bit key) (zlen d) ++ mask_field key ++ payload_field d key.
Lemma encode_raw `{Target} o d key : encode o d key = raw_frame true o d key.
Proof. unfold encode. by rewrite encode_into_shape. Qed.

Definition known_bits (o : Z) : bool :=
  negb (known_op o) ||
  ((Z.land (Z.lor 0x80 o) 0x80 =? 0x80) && (Z.land (Z.lor 0 o) 0x80 =? 0) &&
   (Z.land (Z.lor 0x80 o) 0x0F =? o) && (Z.land (Z.lor 0 o) 0x0F =? o) &&
   (Z.land (Z.lor 0x80 o) 0x70 =? 0) && (Z.land (Z.lor 0 o) 0x70 =? 0)).
Lemma op_bits (fi : bool) o : known_op o = true →
  negb (Z.land (Z.lor (if fi then 0x80 else 0) o) 0x80 =? 0) = fi ∧
  Z.land (Z.lor (if fi then 0x80 else 0) o) 0x0F = o ∧
  Z.land (Z.lor (if fi then 0x80 else 0) o) 0x70 = 0.
Proof.
  intros Hk. assert (known_bits o = true) as Hb.
  { apply (all_bytes_spec known_bits); [by vm_compute|].
    unfold known_op, CONTINUATION, TEXT, BINARY, CLOSE, PING, PONG, is_byte in *. lia. }
  unfold known_bits in Hb. rewrite Hk in Hb. destruct fi; lia.
Qed.

(** The conditions under which a frame is legal at this point of a stream. *)
Definition frame_legal (mx : Z) (p : option Partial) (fi : bool) (o : Z) (d : bytes) : Prop :=
  known_op o = true ∧ zlen d < 2 ^ 63 ∧
  (o = CONTINUATION → is_Some p) ∧ (o = TEXT ∨ o = BINARY → p = None) ∧
  (o < CLOSE → pending p + zlen d <= mx) ∧ (CLOSE <= o → fi = true ∧ zlen d <= 125).

(** A legal frame is seen as it was written. *)
Lemma frame_view_raw `{Target} sv mx p fi o d key t :
  bytes_ok d → key_for sv key → frame_legal mx p fi o d →
  frame_view sv mx p (raw_frame fi o d key ++ t) = Got fi o d t.
Proof.
  intros Hd Hk (Ho & Hl & Hcont & Hdata & Hmx & Hctl). pose proof (zlen_nonneg d) as Hn.
  unfold raw_frame. cbn [app]. rewrite <-!app_assoc.
  destruct (len_field_ext key (zlen d) (mask_field key ++ payload_field d key ++ t))
    as (b1 & r & -> & He & Hm); [lia|].
  destruct (op_bits fi o Ho) as (B1 & B2 & B3).
  cbn [frame_view]. rewrite B1, B2, B3, Ho, Hm, He. cbn [negb andb Z.eqb].
  assert (bool_decide (is_Some key) = sv) as Hsv.
  { destruct key; simpl in Hk; [by destruct Hk as [-> _]|by subst]. }
  rewrite Hsv, eqb_reflx. cbn [negb].
  replace ((o =? CONTINUATION) && negb (bool_decide (is_Some p))) with false.
  2: { destruct (Z.eqb_spec o CONTINUATION); [|done]. by rewrite bool_decide_eq_true_2 by auto. }
  replace (((o =? TEXT) || (o =? BINARY)) && bool_decide (is_Some p)) with false.
  2: { destruct (Z.eqb_spec o TEXT); [by rewrite Hdata by auto|].
       destruct (Z.eqb_spec o BINARY); [by rewrite Hdata by auto|done]. }
  replace ((CLOSE <=? o) && (negb fi || (125 <? zlen d))) with false.
  2: { destruct (Z.leb_spec CLOSE o) as [Hge|]; [|done]. destruct (Hctl Hge) as [-> ?]. cbn. lia. }
  replace ((o <? CLOSE) && (mx <? sat_add (zlen d) (pending p))) with false.
  2: { destruct (Z.ltb_spec o CLOSE) as [Hlt|]; [|done]. specialize (Hmx Hlt).
       unfold sat_add, U64_MAX. lia. }
  assert (take_key sv (mask_field key ++ payload_field d key ++ t) = Some (key, payload_field d key ++ t)) as ->.
  { destruct key as [[[[??]?]?]|]; simpl in Hk; [by destruct Hk as [-> _]|by subst]. }
  assert (length (payload_field d key) = length d) as Hpl.
  { destruct key; simpl; [apply length_apply_mask|done]. }
  rewrite zlen_app. destruct (Z.ltb_spec (zlen (payload_field d key) + zlen t) (zlen d)) as [Hc|].
  { pose proof (zlen_nonneg t). unfold zlen in *. lia. }
  rewrite take_app_length', drop_app_length' by (unfold zlen; lia).
  f_equal. destruct key as [k|]; [|done]. simpl. apply apply_mask_involutive; [done|]. by destruct Hk.
Qed.

Lemma close_payload_roundtrip code reason :
  valid_close_code code = true → from_utf8 reason = Ok tt →
  close (close_payload code reason) = Ok (Close (Some (code, reason))).
Proof.
  intros Hc Hr. assert (0 <= code < 2 ^ 16) as Hb by (unfold valid_close_code in Hc; lia).
  unfold close_payload, close, be_split. cbn [le_split rev app].
  assert (be_combine [code / 256 mod 256; code mod 256] = code) as ->.
  { pose proof (be_combine_split 2 code) as E. unfold be_split in E. cbn [le_split rev app] in E.
    change (256 ^ Z.of_nat 2) with (2 ^ 16) in E. by rewrite E, Z.mod_small by lia. }
  by rewrite Hc, Hr.
Qed.
Lemma close_payload_bytes code reason : bytes_ok reason → bytes_ok (close_payload code reason).
Proof. intros. apply Forall_app. split; [apply be_split_bytes|done]. Qed.

Lemma zlen_close_payload code reason : zlen (close_payload code reason) = 2 + zlen reason.
Proof. unfold close_payload. rewrite zlen_app. unfold zlen at 1. by rewrite length_be_split. Qed.

(** One encoded message is one step of the stream.  Control messages leave a
    message being assembled alone. *)
Definition is_data (m : Msg) : bool :=
  match m with Text _ | Binary _ => true | _ => false end.
Lemma frame_view_encode `{Target} sv mx p o d key t :
  bytes_ok d → key_for sv key → frame_legal mx p true o d →
  frame_view sv mx p (encode o d key ++ t) = Got true o d t.
Proof. rewrite encode_raw. apply frame_view_raw. Qed.
Ltac solve_legal :=
  unfold frame_legal, CONTINUATION, TEXT, BINARY, CLOSE, PING, PONG;
  rewrite ?zlen_close_payload; split; [done|]; simpl pending;
  repeat split; intros; first [done | lia].
Lemma stream_step_encode `{Target} sv mx p m key t :
  msg_ok mx m → key_for sv key → (is_data m = true → p = None) →
  stream_step sv mx p (encode_msg m key ++ t) = SNext (Some m) p t.
Proof.
  intros Hm Hk Hp. unfold stream_step, encode_msg. unfold msg_ok in Hm. simpl in Hp.
  destruct m as [d|d|d|d|[[code reason]|]]; destruct_and?; try rewrite (Hp eq_refl);
    (rewrite frame_view_encode; [|first [done | by apply close_payload_bytes | solve_legal]..]); try done.
  - unfold absorb. cbn -[from_utf8 bs]. rewrite drop_0.
    by match goal with E : from_utf8 d = _ |- _ => rewrite E end.
  - unfold absorb. cbn -[close close_payload]. by rewrite close_payload_roundtrip.
Qed.

Lemma runs_encode `{Target} sv mx l :
  Forall (λ mk, msg_ok mx mk.1 ∧ key_for sv mk.2) l →
  runs sv mx None (concat (map (λ mk, encode_msg mk.1 mk.2) l)) (map fst l) (Ok (None, [])).
Proof.
  induction 1 as [|[m k] l [Hm Hk] Hl IH]; [by apply runs_need|]. simpl in *.
  by eapply (runs_next sv mx _ _ (Some m)); [apply stream_step_encode|].
Qed.

(** ** The message being assembled *)
Definition partial_ok (mx : Z) (p : option Partial) : Prop :=
  match p with
  | None => True
  | Some p => (p_op p = TEXT ∨ p_op p = BINARY) ∧ zlen (p_data p) <= mx ∧
      (p_checked p <= length (p_data p))%nat ∧
      (p_op p = TEXT → from_utf8 (take (p_checked p) (p_data p)) = Ok tt)
  end.

(** What the code's bookkeeping amounts to: a verdict on all of the text
    received so far. *)
Definition data_verdict (fin : bool) (o : Z) (data : bytes) : result (option Msg) Fail_ :=
  if o =? TEXT then
    match from_utf8 data with
    | Ok _ => Ok (if fin then Some (Text data) else None)
    | Err e => if bool_decide (error_len e = None) && negb fin then Ok None
               else Err (Fail 1007 (bs "invalid UTF-8 in text message"))
    end
  else Ok (if fin then Some (Binary data) else None).
Definition message_op (o : Z) (p : option Partial) : Z :=
  match p with Some p => p_op p | None => o end.
Definition message_data (p : option Partial) : bytes :=
  match p with Some p => p_data p | None => [] end.
Lemma absorb_data fin o pl mx p :
  o < CLOSE → partial_ok mx p →
  match absorb fin o pl p with
  | Ok (m, _) => data_verdict fin (message_op o p) (message_data p ++ pl) = Ok m
  | Err f => data_verdict fin (message_op o p) (message_data p ++ pl) = Err f
  end.
Proof.
  intros Ho Hp. unfold absorb, data_verdict.
  replace (o =? PING) with false by (unfold PING, CLOSE in *; lia).
  replace (o =? PONG) with false by (unfold PONG, CLOSE in *; lia).
  replace (o =? CLOSE) with false by (unfold CLOSE in *; lia).
  set (q := match p with Some p => _ | None => _ end).
  assert (p_op q = message_op o p) as Hop by (by destruct p).
  assert (p_data q = message_data p ++ pl) as Hda by (by destruct p).
  assert (p_op q = TEXT → from_utf8 (p_data q) = shift (p_checked q) (from_utf8 (drop (p_checked q) (p_data q)))) as Hu.
  { unfold q. destruct p as [p|]; simpl; [|by rewrite drop_0, shift_0].
    destruct Hp as (_ & _ & Hc & Ht). intros E. rewrite drop_app_le by done.
    rewrite <-(take_drop (p_checked p) (p_data p)) at 1. rewrite <-app_assoc, from_utf8_app_ok by auto.
    by rewrite length_take_le. }
  clearbody q. rewrite <-Hop, <-Hda. destruct (Z.eqb_spec (p_op q) TEXT) as [E|E].
  - rewrite (Hu E). destruct (from_utf8 (drop _ _)) as [[]|e]; cbn.
    + rewrite E. by destruct fin.
    + destruct (bool_decide (error_len e = None)), fin; done.
  - destruct fin; cbn; [|done]. by destruct (Z.eqb_spec (p_op q) TEXT).
Qed.

(** What [absorb] leaves behind. *)
Lemma absorb_partial fin o pl mx p m p' :
  o = TEXT ∨ o = BINARY ∨ o = CONTINUATION → (o = CONTINUATION → is_Some p) →
  partial_ok mx p → pending p + zlen pl <= mx →
  absorb fin o pl p = Ok (m, p') → partial_ok mx p'.
Proof.
  intros Ho Hc Hp Hlen. unfold absorb.
  replace (o =? PING) with false by (unfold PING, TEXT, BINARY, CONTINUATION in *; lia).
  replace (o =? PONG) with false by (unfold PONG, TEXT, BINARY, CONTINUATION in *; lia).
  replace (o =? CLOSE) with false by (unfold CLOSE, TEXT, BINARY, CONTINUATION in *; lia).
  set (q := match p with Some p => _ | None => _ end).
  assert (partial_ok mx (Some q)) as (Hop & Hq & Hck & Hu).
  { unfold q. destruct p as [p|]; simpl in *.
    - destruct Hp as (H1 & H2 & H3 & H4). rewrite zlen_app, length_app.
      split; [done|]. split; [lia|]. split; [lia|]. intros E. rewrite take_app_le by done. auto.
    - split; [destruct Ho as [?|[?|?]]; [auto..|]; by destruct (Hc H) |]. split; [lia|]. by split; [lia|]. }
  clearbody q. destruct (Z.eqb_spec (p_op q) TEXT) as [E|E].
  - pose proof (take_drop (p_checked q) (p_data q)) as Etd.
    destruct (from_utf8 (drop _ _)) as [[]|[v n]] eqn:Eu.
    + destruct fin; intros [= <- <-]; [done|]. simpl. split; [done|]. split; [done|]. split; [lia|].
      intros _. rewrite firstn_all. rewrite <-Etd, from_utf8_app_ok, Eu by auto. done.
    + cbn. case_bool_decide as Hn; [|done]. destruct fin; [done|]. subst n.
      apply from_utf8_more in Eu as (Hv & Hok & _). rewrite length_drop in Hv.
      intros [= <- <-]. simpl. split; [done|]. split; [done|]. split; [lia|]. intros _.
      rewrite <-take_take_drop. rewrite from_utf8_app_ok, Hok by auto. done.
  - by destruct fin; intros [= <- <-].
Qed.

(** What a decoded message satisfies. *)
Definition msg_valid (mx : Z) (m : Msg) : Prop :=
  match m with
  | Text d => zlen d <= mx ∧ from_utf8 d = Ok tt
  | Binary d => zlen d <= mx
  | Ping d | Pong d => zlen d <= 125
  | Close None => True
  | Close (Some (code, reason)) =>
      valid_close_code code = true ∧ zlen reason <= 123 ∧ from_utf8 reason = Ok tt
  end.

Lemma known_op_cases o : known_op o = true →
  (o = TEXT ∨ o = BINARY ∨ o = CONTINUATION) ∧ o < CLOSE ∨ (o = PING ∨ o = PONG ∨ o = CLOSE) ∧ CLOSE <= o.
Proof. unfold known_op, TEXT, BINARY, CONTINUATION, PING, PONG, CLOSE. lia. Qed.

(** What the header checks guarantee about an accepted frame. *)
Lemma frame_view_got `{Target} sv mx p b fi o pl t :
  mx < U64_MAX → frame_view sv mx p b = Got fi o pl t →
  (o = TEXT ∨ o = BINARY ∨ o = CONTINUATION) ∧ o < CLOSE ∧
    (o = CONTINUATION → is_Some p) ∧ ((o = TEXT ∨ o = BINARY) → p = None) ∧ pending p + zlen pl <= mx
  ∨ (o = PING ∨ o = PONG ∨ o = CLOSE) ∧ CLOSE <= o ∧ fi = true ∧ zlen pl <= 125.
Proof.
  intros Hmx. destruct b as [|b0 [|b1 r]]; [done..|]. cbn [frame_view].
  case_step; [done|]. destruct (known_op _) eqn:Hk; [cbn [negb]|done].
  case_step; [done|].
  destruct (_ && negb _) eqn:Hc; [done|]. destruct (_ && bool_decide _) eqn:Hd; [done|].
  destruct (ext_len b1 r) as [[[len r'] sh]|] eqn:Ee; [|done].
  destruct sh; cbn [negb]; [|done]. apply ext_len_nonneg in Ee.
  destruct ((CLOSE <=? _) && _) eqn:Hctl; [done|]. destruct ((_ <? CLOSE) && _) eqn:Hbig; [done|].
  destruct (take_key _ r') as [[k r2]|]; [|done]. destruct (Z.ltb_spec (zlen r2) len); [done|].
  intros [= <- <- <- <-].
  assert (zlen (payload_field (take (Z.to_nat len) r2) k) = len) as ->.
  { unfold zlen in *. destruct k; simpl; rewrite ?length_apply_mask, length_take; lia. }
  destruct (known_op_cases _ Hk) as [[Ho Hlt]|[Ho Hge]].
  - left. split; [done|]. split; [done|]. split; [|split].
    + intros E. rewrite E in Hc. by destruct p.
    + intros [E|E]; rewrite E in Hd; by destruct p.
    + apply andb_false_iff in Hbig as [|Hbig]; [lia|]. unfold sat_add in Hbig. lia.
  - right. split; [done|]. split; [done|]. destruct (negb (_ =? 0)); [split; [done|]|]; cbn in *; lia.
Qed.

Lemma close_valid pl m : zlen pl <= 125 → close pl = Ok m → msg_valid 0 m ∧ is_data m = false.
Proof.
  intros Hl. unfold close. destruct pl as [|a [|b reason]]; [by intros [= <-]|done|].
  destruct (valid_close_code _) eqn:Ev; [|done]. cbn [negb].
  destruct (from_utf8 reason) as [[]|] eqn:Eu; [|done]. intros [= <-]. simpl.
  unfold zlen in *. simpl in Hl. repeat split; [done|lia|done].
Qed.
Lemma msg_valid_control mx m : is_data m = false → msg_valid 0 m → msg_valid mx m.
Proof. by destruct m as [| | | |[[]|]]. Qed.

Lemma absorb_valid fin o pl mx p m p' :
  (o = TEXT ∨ o = BINARY ∨ o = CONTINUATION) → o < CLOSE → partial_ok mx p →
  pending p + zlen pl <= mx → absorb fin o pl p = Ok (Some m, p') → msg_valid mx m.
Proof.
  intros Ho Hlt Hp Hl Ha. pose proof (absorb_data fin o pl mx p Hlt Hp) as Hv. rewrite Ha in Hv.
  unfold data_verdict in Hv.
  assert (zlen (message_data p ++ pl) <= mx) by (rewrite zlen_app; by destruct p).
  destruct (_ =? TEXT).
  - destruct (from_utf8 _) as [[]|e] eqn:Eu.
    + destruct fin; simplify_eq. done.
    + by destruct (_ && _).
  - destruct fin; simplify_eq. done.
Qed.

Lemma stream_step_valid `{Target} sv mx p b m p' b' :
  mx < U64_MAX → partial_ok mx p → stream_step sv mx p b = SNext m p' b' →
  partial_ok mx p' ∧ from_option (msg_valid mx) True m.
Proof.
  intros Hmx Hp. unfold stream_step.
  destruct (frame_view sv mx p b) as [|g|fi o pl t] eqn:Ef; [done..|].
  destruct (absorb fi o pl p) as [[m1 p1]|] eqn:Ea; [|done]. intros [= -> -> ->].
  destruct (frame_view_got _ _ _ _ _ _ _ _ Hmx Ef) as [(Ho & Hlt & Hc & _ & Hl)|(Ho & Hge & -> & Hl)].
  - split; [by eapply absorb_partial|]. destruct m as [m|]; [|done]. by eapply absorb_valid.
  - unfold absorb in Ea. destruct Ho as [->|[->| ->]]; cbn -[close] in Ea; simplify_eq; try done.
    destruct (close pl) as [m1|] eqn:Ecl; simplify_eq. split; [done|]. simpl.
    destruct (close_valid _ _ Hl Ecl). by apply msg_valid_control.
Qed.

Lemma runs_valid `{Target} sv mx p b ms x :
  mx < U64_MAX → runs sv mx p b ms x → partial_ok mx p →
  Forall (msg_valid mx) ms ∧ ∀ p' b', x = Ok (p', b') → partial_ok mx p'.
Proof.
  intros Hmx. induction 1 as [p b E|p b f E|p b m p' b' ms x E Hr IH]; intros Hp.
  - split; [done|]. by intros ?? [= <- <-].
  - by split.
  - destruct (stream_step_valid _ _ _ _ _ _ _ Hmx Hp E) as [Hp' Hm].
    destruct (IH Hp') as [Hms Hx]. split; [|done]. apply Forall_app. split; [|done].
    destruct m; simpl in *; auto.
Qed.

(** While more input is needed, less than one frame is buffered. *)
Lemma stream_step_need_bound `{Target} sv mx p b :
  125 <= mx < U64_MAX → stream_step sv mx p b = SNeed → zlen b < mx + 14.
Proof.
  intros Hmx. unfold stream_step.
  destruct (frame_view sv mx p b) as [|g|fi o pl t] eqn:Ef; [|done|by destruct (absorb fi o pl p) as [[]|]].
  intros _. revert Ef. destruct b as [|b0 [|b1 r]]; [unfold zlen; simpl; lia..|]. cbn [frame_view].
  case_step; [done|]. destruct (known_op _) eqn:Hk; [cbn [negb]|done]. do 3 (case_step; [done|]).
  assert (zlen (b0 :: b1 :: r) = 2 + zlen r) as -> by (unfold zlen; simpl; lia).
  destruct (ext_len b1 r) as [[[len r'] sh]|] eqn:Ee.
  2: { intros _. unfold ext_len in Ee. repeat case_match; simplify_eq; unfold zlen; lia. }
  assert (zlen r <= 8 + zlen r').
  { unfold ext_len in Ee. unfold zlen. repeat case_match; simplify_eq; rewrite ?length_drop; lia. }
  destruct sh; cbn [negb]; [|done]. apply ext_len_nonneg in Ee.
  destruct ((CLOSE <=? _) && _) eqn:Hctl; [done|]. destruct ((_ <? CLOSE) && _) eqn:Hbig; [done|].
  assert (len <= mx).
  { destruct (known_op_cases _ Hk) as [[Ho Hlt]|[Ho Hge]].
    - apply andb_false_iff in Hbig as [|Hbig]; [lia|]. unfold sat_add in Hbig.
      assert (0 <= pending p) by (destruct p; simpl; auto with ws; lia). lia.
    - destruct (negb (negb _)); cbn in *; lia. }
  destruct (take_key _ r') as [[k r2]|] eqn:Ek.
  - destruct (Z.ltb_spec (zlen r2) len); [|done]. intros _.
    assert (zlen r' <= 4 + zlen r2); [|lia].
    unfold take_key in Ek. unfold zlen. repeat case_match; simplify_eq/=; lia.
  - intros _. unfold take_key in Ek. assert (zlen r' < 4); [|lia].
    unfold zlen. repeat case_match; simplify_eq/=; lia.
Qed.

(** ** Fragmented messages *)
Lemma absorb_data_partial fin o pl p m p' :
  o < CLOSE → absorb fin o pl p = Ok (m, p') →
  if fin then p' = None
  else ∃ q, p' = Some q ∧ p_op q = message_op o p ∧ p_data q = message_data p ++ pl.
Proof.
  intros Ho. unfold absorb.
  replace (o =? PING) with false by (unfold PING, CLOSE in *; lia).
  replace (o =? PONG) with false by (unfold PONG, CLOSE in *; lia).
  replace (o =? CLOSE) with false by (unfold CLOSE in *; lia).
  set (q := match p with Some p => _ | None => _ end).
  assert (p_op q = message_op o p) as Hop by (by destruct p).
  assert (p_data q = message_data p ++ pl) as Hda by (by destruct p).
  clearbody q. rewrite <-Hop, <-Hda.
  destruct (_ =? TEXT); [|by destruct fin; intros [= <- <-]; eauto].
  destruct (from_utf8 _) as [[]|e]; [by destruct fin; intros [= <- <-]; eauto|].
  cbn. case_bool_decide; [|done]. destruct fin; [done|]. intros [= <- <-]. eauto.
Qed.

(** A fragment with its key, after the control messages sent before it. *)
Record fragment := {
  f_controls : list (Msg * option key4);
  f_data : bytes;
  f_key : option key4
}.
Definition controls_bytes `{Target} (cs : list (Msg * option key4)) : bytes :=
  concat (map (λ mk, encode_msg mk.1 mk.2) cs).
Fixpoint fragment_bytes `{Target} (o : Z) (fs : list fragment) : bytes :=
  match fs with
  | [] => []
  | f :: fs =>
      controls_bytes (f_controls f) ++
      raw_frame (bool_decide (fs = [])) o (f_data f) (f_key f) ++ fragment_bytes CONTINUATION fs
  end.
Definition fragments_data (fs : list fragment) : bytes := concat (map f_data fs).
Definition fragments_controls (fs : list fragment) : list Msg :=
  concat (map (λ f, map fst (f_controls f)) fs).
Definition fragment_ok (sv : bool) (mx : Z) (f : fragment) : Prop :=
  Forall (λ mk, msg_ok mx mk.1 ∧ is_data mk.1 = false ∧ key_for sv mk.2) (f_controls f) ∧
  bytes_ok (f_data f) ∧ key_for sv (f_key f).
(** The message as a whole is acceptable. *)
Definition whole_ok (mx : Z) (o : Z) (data : bytes) : Prop :=
  zlen data <= mx ∧ zlen data < 2 ^ 63 ∧ (o = TEXT → from_utf8 data = Ok tt).
Definition data_msg (o : Z) (data : bytes) : Msg := if o =? TEXT then Text data else Binary data.

Lemma runs_controls `{Target} sv mx p cs t ms x :
  Forall (λ mk, msg_ok mx mk.1 ∧ is_data mk.1 = false ∧ key_for sv mk.2) cs →
  runs sv mx p t ms x → runs sv mx p (controls_bytes cs ++ t) (map fst cs ++ ms) x.
Proof.
  unfold controls_bytes. induction 1 as [|[m k] cs (Hm & Hd & Hk) Hcs IH]; intros Hr; [done|]. simpl in *.
  rewrite <-app_assoc. eapply (runs_next sv mx _ _ (Some m)); [apply stream_step_encode; [done..|congruence]|].
  by apply IH.
Qed.

Lemma verdict_prefix fin o a b :
  (o = TEXT → from_utf8 (a ++ b) = Ok tt) → (fin = true → b = []) →
  data_verdict fin o a = Ok (if fin then Some (data_msg o a) else None).
Proof.
  intros Hu Hb. unfold data_verdict, data_msg. destruct (Z.eqb_spec o TEXT) as [E|]; [|by destruct fin].
  specialize (Hu E). destruct (from_utf8 a) as [[]|[v [n|]]] eqn:Ea; [done| |].
  - by rewrite (from_utf8_app_bad _ b _ _ Ea) in Hu.
  - destruct fin; [|done]. rewrite Hb, app_nil_r in Hu by done. congruence.
Qed.

(** One fragment: the state goes from the data before it to the data after. *)
Lemma fragment_step `{Target} sv mx p o o' d key fin t later :
  mx < U64_MAX → bytes_ok d → key_for sv key → partial_ok mx p →
  message_op o p = o' → (o' = TEXT ∨ o' = BINARY) →
  (p = None ∧ o = o' ∨ is_Some p ∧ o = CONTINUATION) →
  whole_ok mx o' (message_data p ++ d ++ later) → (fin = true → later = []) →
  ∃ p', stream_step sv mx p (raw_frame fin o d key ++ t) =
      SNext (if fin then Some (data_msg o' (message_data p ++ d)) else None) p' t ∧
    partial_ok mx p' ∧
    (if fin then p' = None else ∃ q, p' = Some q ∧ p_op q = o' ∧ p_data q = message_data p ++ d).
Proof.
  intros Hmx Hd Hk Hp Hop Ho' Ho (Hw1 & Hw2 & Hw3) Hfin.
  assert (o < CLOSE) as Hlt.
  { unfold CLOSE, TEXT, BINARY, CONTINUATION in *. destruct Ho as [[_ ->]|[_ ->]]; lia. }
  rewrite !zlen_app in Hw1, Hw2.
  pose proof (zlen_nonneg d). pose proof (zlen_nonneg later). pose proof (zlen_nonneg (message_data p)).
  assert (pending p = zlen (message_data p)) as Hpend by (by destruct p).
  unfold stream_step. rewrite frame_view_raw; [|done..|].
  2: { unfold frame_legal. split; [destruct Ho as [[_ ->]|[_ ->]]; [by destruct Ho' as [->| ->]|done]|].
       split; [lia|]. split; [|split; [|split; [lia|lia]]].
       - intros ->. destruct Ho as [[_ <-]|[? _]]; [|done]. by destruct Ho'.
       - intros Hdt. destruct Ho as [[-> _]|[_ ->]]; [done|]. by destruct Hdt. }
  pose proof (absorb_data fin o d mx p Hlt Hp) as Hv.
  rewrite Hop, (verdict_prefix fin o' _ later) in Hv; [|by rewrite <-app_assoc|done].
  destruct (absorb fin o d p) as [[m p']|] eqn:Ea; [|done]. simplify_eq.
  exists p'. split; [done|]. split; [|by eapply absorb_data_partial].
  eapply absorb_partial; [| |done| |done].
  - destruct Ho as [[_ ->]|[_ ->]]; [destruct Ho' as [E|E]; rewrite E; auto|auto].
  - intros ->. destruct Ho as [[_ E]|[? _]]; [|done]. rewrite <-E in Ho'. by destruct Ho'.
  - lia.
Qed.

Lemma runs_fragments `{Target} sv mx o' fs : ∀ o p t ms x,
  mx < U64_MAX → fs ≠ [] → Forall (fragment_ok sv mx) fs → partial_ok mx p →
  message_op o p = o' → (o' = TEXT ∨ o' = BINARY) →
  (p = None ∧ o = o' ∨ is_Some p ∧ o = CONTINUATION) →
  whole_ok mx o' (message_data p ++ fragments_data fs) →
  runs sv mx None t ms x →
  runs sv mx p (fragment_bytes o fs ++ t)
    (fragments_controls fs ++ data_msg o' (message_data p ++ fragments_data fs) :: ms) x.
Proof.
  induction fs as [|f fs IH]; intros o p t ms x Hmx Hne Hfs Hp Hop Ho' Ho Hw Hr; [done|].
  apply Forall_cons in Hfs as [(Hc & Hd & Hk) Hfs].
  unfold fragments_controls, fragments_data in *. cbn [fragment_bytes map concat] in *.
  rewrite <-!app_assoc. apply runs_controls; [done|].
  destruct (fragment_step sv mx p o o' (f_data f) (f_key f) (bool_decide (fs = []))
    (fragment_bytes CONTINUATION fs ++ t) (concat (map f_data fs))) as (p' & Hs & Hp' & Hq);
    [done..| |].
  { intros ->%bool_decide_eq_true. done. }
  case_bool_decide as Hnil.
  - subst fs p'. cbn [map concat fragment_bytes app] in *. rewrite app_nil_r.
    by eapply (runs_next sv mx _ _ (Some _)).
  - destruct Hq as (q & -> & Hqo & Hqd). eapply (runs_next sv mx _ _ None); [done|]. cbn [option_list app].
    replace (message_data p ++ f_data f ++ concat (map f_data fs))
      with (message_data (Some q) ++ concat (map f_data fs)) by (simpl; by rewrite Hqd, app_assoc).
    apply IH; [done..|by right|simpl; by rewrite Hqd, <-app_assoc|done].
Qed.
