(* ===== verification/ReaderProps.v ===== *)
(** * Properties of the reader

    The claims about core/src/proto/reader.rs and the encoder it is paired
    with, and their witnesses. *)

From S2P Require Import Prelude Utf8 Frame Reader Stream ReaderSim Messages.

(** ** Properties *)
Section Properties.
Context `{Target}.

(** C1: How the transport splits the bytes never changes what is decoded: two
    ways of cutting the same bytes into chunks give the same messages or the
    same violation, and decoding neither panics nor loops.  (The fuzz target
    of the reader checks this on random inputs.) *)
Theorem decode_split_invariant sv mx cs cs' :
  concat cs = concat cs' →
  decode sv mx cs = decode sv mx cs' ∧ ∃ res, decode sv mx cs = Ret res.
Proof.
  intros E. destruct (runs_total sv mx None (concat cs)) as (ms & x & Hr).
  rewrite (decode_correct _ _ _ _ _ Hr). rewrite E in Hr.
  rewrite (decode_correct _ _ _ _ _ Hr). eauto.
Qed.

(** C2: Sending then receiving is the identity: any sequence of messages
    within the limits, each encoded as the peer encodes it (masked by
    clients, unmasked by servers) and cut into chunks anywhere, decodes to
    that sequence. *)
Theorem decode_encode sv mx l cs :
  Forall (λ mk, msg_ok mx mk.1 ∧ key_for sv mk.2) l →
  concat cs = concat (map (λ mk, encode_msg mk.1 mk.2) l) →
  decode sv mx cs = Ret (Ok (map fst l)).
Proof.
  intros Hl E. apply (decode_correct _ _ _ _ (Ok (None, []))). rewrite E. by apply runs_encode.
Qed.

(** C3: A message sent in any number of fragments, with control messages
    between them, decodes to those control messages and then the message. *)
Theorem decode_fragments sv mx o fs cs :
  mx < U64_MAX → fs ≠ [] → o = TEXT ∨ o = BINARY → Forall (fragment_ok sv mx) fs →
  whole_ok mx o (fragments_data fs) → concat cs = fragment_bytes o fs →
  decode sv mx cs = Ret (Ok (fragments_controls fs ++ [data_msg o (fragments_data fs)])).
Proof.
  intros Hmx Hne Ho Hfs Hw E. apply (decode_correct _ _ _ _ (Ok (None, []))).
  rewrite E, <-(app_nil_r (fragment_bytes o fs)).
  apply (runs_fragments sv mx o fs o None); [done..|by left|done|by apply runs_need].
Qed.

(** C4: Everything decoded respects the limits: messages are at most [max]
    bytes, text and close reasons are valid UTF-8, control payloads are at
    most 125 bytes and close codes are legal, whatever the peer sent. *)
Theorem decode_valid sv mx cs ms :
  mx < U64_MAX → decode sv mx cs = Ret (Ok ms) → Forall (msg_valid mx) ms.
Proof.
  intros Hmx Hd. destruct (runs_total sv mx None (concat cs)) as (ms' & x & Hr).
  rewrite (decode_correct _ _ _ _ _ Hr) in Hd. destruct x; simplify_eq/=.
  by destruct (runs_valid _ _ _ _ _ _ Hmx Hr I).
Qed.

(** C5: [message] always returns on a well-formed reader: no slice or index
    is out of range, no subtraction underflows and the loop ends; unless a
    violation was reported the reader stays well formed. *)
Theorem message_total r :
  reader_wf r → ∃ r' y, message r = Ret (r', y) ∧ ∀ m, y = Ok m → reader_wf r'.
Proof.
  intros Hwf. destruct (next_msg_total (server r) (max r) (partial r) (rest r)) as (x & Hx).
  destruct (message_refines _ _ r _ _ _ Hx) as (r' & y & Hm & Hpost); [done|].
  exists r', y. split; [done|]. intros m ->. destruct x as [[[??]?]|]; simpl in Hpost; [|done].
  by destruct Hpost as (_ & Hs & _).
Qed.

(** C6: When [message] asks for more input, what the reader holds is bounded:
    less than one maximal frame of unread bytes, and an unfinished message of
    at most [max] bytes. *)
Theorem message_memory_bound r r' :
  reader_wf r → partial_ok (max r) (partial r) → 125 <= max r < U64_MAX →
  message r = Ret (r', Ok None) →
  zlen (rest r') < max r + 14 ∧ pending (partial r') <= max r.
Proof.
  intros Hwf Hp Hmx Hm. destruct (next_msg_total (server r) (max r) (partial r) (rest r)) as (x & Hx).
  destruct (message_refines _ _ r _ _ _ Hx) as (r1 & y & Hm1 & Hpost); [done|].
  rewrite Hm in Hm1. simplify_eq. destruct x as [[[m p'] b']|]; simpl in Hpost; [|done].
  destruct Hpost as ([= <-] & _ & _ & _ & <- & <-).
  apply next_msg_runs in Hx. pose proof (runs_left _ _ _ _ _ _ _ Hx) as Hneed.
  split; [by eapply stream_step_need_bound|].
  destruct (runs_valid _ _ _ _ _ _ (proj2 Hmx) Hx Hp) as [_ Hp'].
  specialize (Hp' _ _ eq_refl). destruct (partial r1) as [p|]; simpl in *; [tauto|lia].
Qed.

(** C7: Incremental UTF-8 checking is exact: the verdict on a fragment, which
    only validates the bytes after [checked], is the verdict of validating
    the whole message received so far. *)
Theorem assemble_utf8_exact r f s e pl :
  reader_wf r → partial_ok (max r) (partial r) → op f < CLOSE → payload f = (s, e) →
  slice (buf r) s e = Ret pl →
  ∃ r', assemble r f =
    Ret (r', data_verdict (fin f) (message_op (op f) (partial r)) (message_data (partial r) ++ pl)).
Proof.
  intros [_ Hwf] Hp Ho Hpl Hs. destruct f as [fi o [? ?]]. simpl in *. simplify_eq.
  destruct (assemble_refines r fi o s e pl Hs Hwf) as (q & ->).
  pose proof (absorb_data fi o pl (max r) (partial r) Ho Hp) as Hv.
  destruct (absorb fi o pl (partial r)) as [[m p]|f]; rewrite Hv; eauto.
Qed.
End Properties.

(** ** Witnesses

    The masked "Hello" of RFC 6455 section 5.7, received by a server on a
    little-endian machine. *)
Module Witness.
#[local] Instance le : Target := LittleEndian.
Definition key : key4 := (0x37, 0xfa, 0x21, 0x3d).
Definition hello : bytes := [0x81; 0x85; 0x37; 0xfa; 0x21; 0x3d; 0x7f; 0x9f; 0x4d; 0x51; 0x58].

Example encode_hello : encode TEXT (bs "Hello") (Some key) = hello.
Proof. vm_compute. reflexivity. Qed.

Lemma decode_split_invariant_witness :
  decode true 100 [take 3 hello; drop 3 hello] = decode true 100 [hello] ∧
  decode true 100 [hello] = Ret (Ok [Text (bs "Hello")]).
Proof.
  split; [|vm_compute; reflexivity].
  apply (decode_split_invariant true 100 [take 3 hello; drop 3 hello] [hello]).
  vm_compute. reflexivity.
Defined.

Lemma decode_encode_witness :
  decode true 100 [take 4 hello; drop 4 hello ++ encode_msg (Close (Some (1000, bs "bye"))) (Some key)] =
  Ret (Ok [Text (bs "Hello"); Close (Some (1000, bs "bye"))]).
Proof.
  apply (decode_encode true 100
    [(Text (bs "Hello"), Some key); (Close (Some (1000, bs "bye")), Some key)]
    [take 4 hello; drop 4 hello ++ encode_msg (Close (Some (1000, bs "bye"))) (Some key)]).
  - apply Forall_cons. split; [|apply Forall_cons; split; [|apply Forall_nil; exact I]].
    + split; [|split; [reflexivity|]]; [split; [|split; [|split]]; [|done..|]; [|vm_compute; reflexivity]|];
        by_decide.
    + split; [|split; [reflexivity|]]; [split; [|split; [vm_compute; reflexivity|split; [done|vm_compute; reflexivity]]]|];
        by_decide.
  - vm_compute. reflexivity.
Defined.

(** "é" cut between its two bytes, with a ping in the middle. *)
Definition fragments : list fragment :=
  [ {| f_controls := []; f_data := [0xC3]; f_key := None |};
    {| f_controls := [(Ping [7], None)]; f_data := [0xA9; 33]; f_key := None |} ].
Lemma decode_fragments_witness :
  decode false 100 [fragment_bytes TEXT fragments] = Ret (Ok [Ping [7]; Text [0xC3; 0xA9; 33]]).
Proof.
  apply (decode_fragments false 100 TEXT fragments [fragment_bytes TEXT fragments]).
  - done.
  - done.
  - by left.
  - apply Forall_cons. split; [|apply Forall_cons; split; [|apply Forall_nil; exact I]].
    + split; [by apply Forall_nil|]. split; [|done]. by_decide.
    + split; [|split; [|done]; by_decide].
      apply Forall_cons. split; [|by apply Forall_nil]. split; [|done].
      split; [|done]. by_decide.
  - split; [done|]. split; [done|]. intros _. vm_compute. reflexivity.
  - vm_compute. reflexivity.
Defined.

Lemma decode_valid_witness : Forall (msg_valid 100) [Text (bs "Hello")].
Proof.
  apply (decode_valid true 100 [hello]); [done|]. vm_compute. reflexivity.
Defined.

Definition waiting : Reader := {| buf := take 7 hello; pos := 0; server := true; max := 200; partial := None |}.
Lemma waiting_wf : reader_wf waiting.
Proof. split; [simpl; lia|done]. Qed.
Lemma message_total_witness : ∃ r' y, message waiting = Ret (r', y) ∧ ∀ m, y = Ok m → reader_wf r'.
Proof. apply (message_total waiting). exact waiting_wf. Defined.
Lemma message_memory_bound_witness :
  message waiting = Ret (waiting, Ok None) ∧ zlen (rest waiting) < 200 + 14 ∧ pending (partial waiting) <= 200.
Proof.
  split; [vm_compute; reflexivity|].
  apply (message_memory_bound waiting waiting);
    [exact waiting_wf|exact I|by split|vm_compute; reflexivity].
Defined.

Definition mid_text : Reader :=
  {| buf := [0xA9; 33]; pos := 2; server := true; max := 200;
     partial := Some {| p_op := TEXT; p_data := [65; 0xC3]; p_checked := 1 |} |}.
Lemma assemble_utf8_exact_witness :
  ∃ r', assemble mid_text {| fin := true; op := CONTINUATION; payload := (0, 2)%nat |} =
    Ret (r', Ok (Some (Text [65; 0xC3; 0xA9; 33]))).
Proof.
  apply (assemble_utf8_exact mid_text {| fin := true; op := CONTINUATION; payload := (0, 2)%nat |} 0 2 [0xA9; 33]).
  - split; simpl; lia.
  - split; [by left|]. split; [done|]. split; [simpl; lia|]. intros _. vm_compute. reflexivity.
  - done.
  - done.
  - vm_compute. reflexivity.
Defined.
End Witness.
