(* ===== verification/Fuzz.v ===== *)
(** * The reader's fuzz target (fuzz/targets/reader.rs)

    The closure the fuzzer runs, its assertion a panic. *)

From S2P Require Import Prelude Utf8 Frame Reader Stream ReaderSim.

(** [data.chunks(n)], for [fuel] chunks. *)
Fixpoint chunks_fuel (fuel n : nat) (data : bytes) : list bytes :=
  match fuel, data with
  | S fuel, _ :: _ => take n data :: chunks_fuel fuel n (drop n data)
  | _, _ => []
  end.
Definition chunks (n : nat) (data : bytes) : list bytes := chunks_fuel (length data) n data.
Lemma chunks_fuel_concat n fuel : ∀ data, (0 < n)%nat → (length data <= fuel)%nat → concat (chunks_fuel fuel n data) = data.
Proof.
  induction fuel as [|fuel IH]; intros [|x data] Hn Hl; simpl in Hl; try done; [lia|]. cbn [chunks_fuel concat].
  rewrite IH, take_drop; [done|done|]. rewrite length_drop. simpl. lia.
Qed.

Definition fuzz_reader `{Target} (input : bytes) : outcome unit :=
  match input with
  | [] => Ret tt
  | first :: data =>
      let server := Z.land first 1 =? 1 in
      let size := Z.to_nat (Z.shiftr first 1 + 1) in
      a ← decode server (Z.shiftl 1 16) [data];
      b ← decode server (Z.shiftl 1 16) (chunks size data);
      if bool_decide (a = b) then Ret tt else Panic
  end.
(** The fuzzer finds nothing: on every input the target returns, that is the
    reader does not panic and the assertion holds. *)
Theorem fuzz_reader_passes `{Target} input : bytes_ok input → fuzz_reader input = Ret tt.
Proof.
  intros Hi. unfold fuzz_reader. destruct input as [|first data]; [done|]. apply Forall_cons in Hi as [Hf _].
  set (size := Z.to_nat (Z.shiftr first 1 + 1)).
  assert (0 < size)%nat as Hs.
  { unfold size, is_byte in *. pose proof (proj2 (Z.shiftr_nonneg first 1)). lia. }
  assert (concat [data] = data ∧ concat (chunks size data) = data) as [E1 E2].
  { split; [simpl; by rewrite app_nil_r|by apply chunks_fuel_concat]. }
  destruct (runs_total (Z.land first 1 =? 1) (Z.shiftl 1 16) None data) as (ms & x & Hr).
  rewrite (decode_correct _ _ [data] ms x) by (by rewrite E1). cbn [mbind outcome_bind].
  rewrite (decode_correct _ _ (chunks size data) ms x) by (by rewrite E2). cbn [mbind outcome_bind].
  by rewrite bool_decide_true.
Qed.
