(* ===== verification/Base64.v ===== *)
(** * Base64 (core/src/proto/base64.rs)

    The padded encoder and the strict decoder used by the handshake. *)

From S2P Require Import Prelude.

Definition ALPHABET : bytes :=
  bs "ABCDEFGHIJKLMNOPQRSTUVWXYZabcdefghijklmnopqrstuvwxyz0123456789+/".
Definition PAD : Z := 61. (* '=' *)

(** One chunk of [len] bytes, missing ones read as zero: four characters. *)
Definition encode_chunk (len : Z) (a b c : Z) : bytes :=
  let n := Z.lor (Z.lor (Z.shiftl a 16) (Z.shiftl b 8)) c in
  map (λ i, if i <=? len then nth (Z.to_nat (Z.land (Z.shiftr n (18 - 6 * i)) 63)) ALPHABET 0 else PAD)
    [0; 1; 2; 3].
Fixpoint b64_encode (input : bytes) : bytes :=
  match input with
  | [] => []
  | [a] => encode_chunk 1 a 0 0
  | [a; b] => encode_chunk 2 a b 0
  | a :: b :: c :: r => encode_chunk 3 a b c ++ b64_encode r
  end.

(** [ALPHABET.iter().position(|&a| a == c)] *)
Definition position (c : Z) : option Z :=
  Z.of_nat <$> (fst <$> list_find (λ a, a = c) ALPHABET).

(** The loop over the characters before the padding: [i] counts them, [n]
    accumulates six bits each in a [u32]. *)
Fixpoint decode_loop (s : bytes) (i n : Z) (out : bytes) : option (Z * bytes) :=
  match s with
  | [] => Some (n, out)
  | c :: s =>
      let! v := position c orelse None in
      let n := Z.lor (u32 (Z.shiftl n 6)) v in
      if i mod 4 =? 3
      then decode_loop s (i + 1) 0 (out ++ [u8 (Z.shiftr n 16); u8 (Z.shiftr n 8); u8 n])
      else decode_loop s (i + 1) n out
  end.

Definition count_pad (s : bytes) : nat :=
  (fix go (l : bytes) : nat :=
     match l with c :: l => if c =? PAD then S (go l) else O | [] => O end) (rev s).

(** The bits left over before one or two [=] must be zero. *)
Definition decode_tail (pad : nat) (n : Z) (out : bytes) : option bytes :=
  match pad with
  | 1%nat => if negb (Z.land n 3 =? 0) then None
             else Some (out ++ [u8 (Z.shiftr n 10); u8 (Z.shiftr n 2)])
  | 2%nat => if negb (Z.land n 15 =? 0) then None else Some (out ++ [u8 (Z.shiftr n 4)])
  | _ => Some out
  end.

Definition b64_decode (s : bytes) : option bytes :=
  if negb (zlen s mod 4 =? 0) then None else
  let pad := count_pad s in
  if (2 <? pad)%nat then None else
  let! (n, out) := decode_loop (take (length s - pad) s) 0 0 [] orelse None in
  decode_tail pad n out.

Example encode_rfc4648 : b64_encode (bs "foobar") = bs "Zm9vYmFy" ∧ b64_encode (bs "foob") = bs "Zm9vYg==".
Proof. split; vm_compute; reflexivity. Qed.
Example decode_strict : b64_decode (bs "Zm9vYg==") = Some (bs "foob") ∧ b64_decode (bs "Zm9vYh==") = None.
Proof. split; vm_compute; reflexivity. Qed.

(** ** The alphabet *)
Definition char_of (v : Z) : Z := nth (Z.to_nat v) ALPHABET 0.
Definition sextet (v : Z) : Prop := 0 <= v < 64.

Lemma sextet_all (P : Z → bool) : forallb P (seqZ 0 64) = true → ∀ v, sextet v → P v = true.
Proof.
  intros H v Hv. rewrite forallb_forall in H. apply H, list_elem_of_In, elem_of_seqZ.
  unfold sextet in Hv. lia.
Qed.
Lemma position_char v : sextet v → position (char_of v) = Some v.
Proof.
  intros Hv. apply (bool_decide_eq_true (position (char_of v) = Some v)).
  revert v Hv. apply sextet_all. vm_compute. reflexivity.
Qed.
Lemma char_of_pad v : sextet v → char_of v ≠ PAD.
Proof.
  intros Hv. apply (bool_decide_eq_true (char_of v ≠ PAD)).
  revert v Hv. apply sextet_all. vm_compute. reflexivity.
Qed.
Lemma position_inv c v : position c = Some v → sextet v ∧ c = char_of v.
Proof.
  unfold position. destruct (list_find _ ALPHABET) as [[i a]|] eqn:E; [|done]. simpl. intros [= <-].
  apply list_find_Some in E as (Hl & -> & _). split.
  - apply lookup_lt_Some in Hl. change (length ALPHABET) with 64%nat in Hl. unfold sextet. lia.
  - unfold char_of. rewrite Nat2Z.id. symmetry. by apply nth_lookup_Some.
Qed.
#[export] Hint Resolve position_char char_of_pad : ws.

(** ** Four characters carry three bytes *)
Definition group (a b c : Z) : Z := a * 65536 + b * 256 + c.
Lemma encode_chunk_group len a b c :
  is_byte a → is_byte b → is_byte c →
  encode_chunk len a b c =
  [ if 0 <=? len then char_of (group a b c / 2 ^ 18 mod 2 ^ 6) else PAD;
    if 1 <=? len then char_of (group a b c / 2 ^ 12 mod 2 ^ 6) else PAD;
    if 2 <=? len then char_of (group a b c / 2 ^ 6 mod 2 ^ 6) else PAD;
    if 3 <=? len then char_of (group a b c mod 2 ^ 6) else PAD ].
Proof.
  unfold is_byte. intros Ha Hb Hc. unfold encode_chunk, char_of.
  assert (Z.lor (Z.lor (Z.shiftl a 16) (Z.shiftl b 8)) c = group a b c) as ->.
  { rewrite (Z.shiftl_mul_pow2 b) by lia. rewrite lor_shiftl_add by lia.
    replace (a * 2 ^ 16 + b * 2 ^ 8) with (Z.shiftl (a * 256 + b) 8) by (rewrite Z.shiftl_mul_pow2; lia).
    rewrite lor_shiftl_add by lia. unfold group. lia. }
  cbn [map]. change 63 with (2 ^ 6 - 1). rewrite !land_low, !Z.shiftr_div_pow2 by lia.
  change (2 ^ (18 - 6 * 3)) with 1. rewrite Z.div_1_r. done.
Qed.

Lemma mod4_next i k : i mod 4 = 0 → 0 <= k < 4 → ((i + k) mod 4 =? 3) = (k =? 3).
Proof. intros. Z.to_euclidean_division_equations. lia. Qed.

Definition push6 (n v : Z) : Z := n * 64 + v.
Lemma push6_lor n v : 0 <= n < 2 ^ 26 → sextet v → Z.lor (u32 (Z.shiftl n 6)) v = push6 n v.
Proof.
  unfold sextet, u32, push6. intros Hn Hv. rewrite Z.mod_small.
  - rewrite lor_shiftl_add by lia. lia.
  - rewrite Z.shiftl_mul_pow2 by lia. lia.
Qed.

(** Up to three characters of a group only accumulate. *)
Lemma decode_loop_partial vs i k n out :
  Forall sextet vs → i mod 4 = 0 → 0 <= k → k + zlen vs <= 3 → 0 <= n < 64 ^ k →
  decode_loop (map char_of vs) (i + k) n out = Some (foldl push6 n vs, out).
Proof.
  intros Hvs Hi. revert k n. induction Hvs as [|v vs Hv Hvs IH]; intros k n Hk Hl Hn; [done|].
  assert (zlen (v :: vs) = 1 + zlen vs) as Hz by (unfold zlen; simpl; lia).
  pose proof (zlen_nonneg vs). assert (64 ^ k <= 64 ^ 2) by (apply Z.pow_le_mono_r; lia).
  cbn [map decode_loop]. rewrite position_char, push6_lor by (done || lia).
  rewrite mod4_next by lia. destruct (Z.eqb_spec k 3); [lia|].
  replace (i + k + 1) with (i + (k + 1)) by lia. rewrite IH; [done|lia|lia|].
  unfold push6, sextet in *. rewrite Z.pow_add_r by lia. lia.
Qed.

(** A full group delivers its three bytes and starts afresh. *)
Lemma decode_loop_group v0 v1 v2 v3 s i out :
  sextet v0 → sextet v1 → sextet v2 → sextet v3 → i mod 4 = 0 →
  let g := foldl push6 0 [v0; v1; v2; v3] in
  decode_loop (char_of v0 :: char_of v1 :: char_of v2 :: char_of v3 :: s) i 0 out =
  decode_loop s (i + 4) 0 (out ++ [g / 65536 mod 256; g / 256 mod 256; g mod 256]).
Proof.
  intros H0 H1 H2 H3 Hi. cbn [decode_loop foldl].
  rewrite !position_char by done. cbn.
  rewrite (push6_lor 0) by (done || lia). rewrite (push6_lor (push6 0 v0))
    by (done || unfold push6, sextet in *; lia).
  rewrite (push6_lor (push6 (push6 0 v0) v1)) by (done || unfold push6, sextet in *; lia).
  rewrite (push6_lor (push6 (push6 (push6 0 v0) v1) v2)) by (done || unfold push6, sextet in *; lia).
  replace (i mod 4 =? 3) with false by (rewrite Hi; done).
  rewrite (mod4_next i 1), <-!Z.add_assoc, (mod4_next i (1 + 1)), (mod4_next i (1 + (1 + 1))) by lia.
  cbn. f_equal. unfold u8. by rewrite !Z.shiftr_div_pow2 by lia.
Qed.

Ltac b64_arith := unfold group, push6, sextet, is_byte in *; cbn [foldl] in *;
  Z.to_euclidean_division_equations; lia.

Lemma group_sextets a b c :
  is_byte a → is_byte b → is_byte c → let g := group a b c in
  sextet (g / 2 ^ 18 mod 2 ^ 6) ∧ sextet (g / 2 ^ 12 mod 2 ^ 6) ∧
  sextet (g / 2 ^ 6 mod 2 ^ 6) ∧ sextet (g mod 2 ^ 6) ∧
  foldl push6 0 [g / 2 ^ 18 mod 2 ^ 6; g / 2 ^ 12 mod 2 ^ 6; g / 2 ^ 6 mod 2 ^ 6; g mod 2 ^ 6] = g.
Proof. intros Ha Hb Hc. simpl. repeat split; b64_arith. Qed.
Lemma group_bytes a b c :
  is_byte a → is_byte b → is_byte c → let g := group a b c in
  g / 65536 mod 256 = a ∧ g / 256 mod 256 = b ∧ g mod 256 = c.
Proof. intros Ha Hb Hc. simpl. repeat split; b64_arith. Qed.
(** Conversely, four sextets are the sextets of the bytes they deliver. *)
Lemma sextets_group v0 v1 v2 v3 :
  sextet v0 → sextet v1 → sextet v2 → sextet v3 → let g := foldl push6 0 [v0; v1; v2; v3] in
  is_byte (g / 65536 mod 256) ∧ is_byte (g / 256 mod 256) ∧ is_byte (g mod 256) ∧
  group (g / 65536 mod 256) (g / 256 mod 256) (g mod 256) = g ∧
  g / 2 ^ 18 mod 2 ^ 6 = v0 ∧ g / 2 ^ 12 mod 2 ^ 6 = v1 ∧ g / 2 ^ 6 mod 2 ^ 6 = v2 ∧ g mod 2 ^ 6 = v3.
Proof. intros H0 H1 H2 H3. simpl. repeat split; b64_arith. Qed.

(** ** Encoding, three bytes at a time *)
Lemma encode_triple a b c l : b64_encode (a :: b :: c :: l) = encode_chunk 3 a b c ++ b64_encode l.
Proof. done. Qed.
Lemma encode_app x y :
  (length x mod 3 = 0)%nat → b64_encode (x ++ y) = b64_encode x ++ b64_encode y.
Proof.
  induction x as [|a|a b|a b c x IH] using list_ind3; intros Hl; try done.
  cbn [app]. rewrite !encode_triple, IH, app_assoc; [done|].
  etransitivity; [|exact Hl]. rewrite <-(Nat.Div0.mod_add (length x) 1 3).
  replace (length x + 1 * 3)%nat with (length (a :: b :: c :: x)) by (simpl; lia). done.
Qed.
Lemma length_encode_chunk len a b c : length (encode_chunk len a b c) = 4%nat.
Proof. done. Qed.
Lemma length_b64_encode x : length (b64_encode x) = (4 * ((length x + 2) / 3))%nat.
Proof.
  induction x as [|a|a b|a b c x IH] using list_ind3; [done..|].
  rewrite encode_triple, length_app, length_encode_chunk, IH. simpl length.
  replace (S (S (S (length x))) + 2)%nat with (length x + 2 + 1 * 3)%nat by lia.
  rewrite Nat.div_add by lia. lia.
Qed.

Lemma count_pad_snoc s c : count_pad (s ++ [c]) = if c =? PAD then S (count_pad s) else O.
Proof. unfold count_pad. by rewrite rev_app_distr. Qed.
Lemma count_pad_suffix s : s = take (length s - count_pad s) s ++ replicate (count_pad s) PAD ∧
  (count_pad s <= length s)%nat.
Proof.
  induction s as [|c s [IH1 IH2]] using rev_ind; [done|]. rewrite count_pad_snoc, length_app.
  destruct (Z.eqb_spec c PAD) as [->|]; simpl.
  - replace (length s + 1 - S (count_pad s))%nat with (length s - count_pad s)%nat by lia.
    split; [|lia]. rewrite take_app_le by lia.
    rewrite (replicate_cons_app (count_pad s)), app_assoc. by rewrite <-IH1.
  - split; [|lia]. rewrite Nat.sub_0_r, app_nil_r, take_ge; [done|]. rewrite length_app. simpl. lia.
Qed.
Lemma count_pad_replicate s n :
  count_pad s = O → count_pad (s ++ replicate n PAD) = n.
Proof.
  intros Hs. induction n as [|n IH]; simpl; [by rewrite app_nil_r|].
  rewrite (replicate_cons_app n), app_assoc, count_pad_snoc. simpl. by rewrite IH.
Qed.

(** What the decoder sees of the encoding of [x]: characters of the alphabet
    that decode to whole groups and six-bit remainders, and the padding that
    accounts for the rest. *)
Definition decodes (x body : bytes) (pad : nat) : Prop :=
  b64_encode x = body ++ replicate pad PAD ∧ (pad <= 2)%nat ∧ count_pad body = O ∧
  ∃ n full,
    (∀ i out, i mod 4 = 0 → decode_loop body i 0 out = Some (n, out ++ full)) ∧
    (∀ out, decode_tail pad n (out ++ full) = Some (out ++ x)).

Lemma count_pad_char s v : sextet v → count_pad (s ++ [char_of v]) = O.
Proof.
  intros Hv. rewrite count_pad_snoc. destruct (Z.eqb_spec (char_of v) PAD); [|done].
  by destruct (char_of_pad v).
Qed.

Lemma decodes_one a : is_byte a → ∃ body, decodes [a] body 2.
Proof.
  intros Ha. destruct (group_sextets a 0 0) as (S0 & S1 & _); [done..|].
  set (v0 := group a 0 0 / 2 ^ 18 mod 2 ^ 6) in *. set (v1 := group a 0 0 / 2 ^ 12 mod 2 ^ 6) in *.
  exists (map char_of [v0; v1]).
  split; [simpl; by rewrite encode_chunk_group by done|]. split; [lia|].
  split; [by apply (count_pad_char [char_of v0])|].
  exists (foldl push6 0 [v0; v1]), []. split; [intros i out Hi|intros out]; rewrite app_nil_r.
  - rewrite <-(Z.add_0_r i) at 1. apply decode_loop_partial; [by forall_done|done..].
  - unfold decode_tail. change 15 with (2 ^ 4 - 1). rewrite land_low, Z.shiftr_div_pow2 by lia.
    assert (foldl push6 0 [v0; v1] mod 2 ^ 4 = 0) as -> by (unfold v0, v1; b64_arith). cbn [negb Z.eqb].
    do 3 f_equal. unfold v0, v1, u8; b64_arith.
Qed.
Lemma decodes_two a b : is_byte a → is_byte b → ∃ body, decodes [a; b] body 1.
Proof.
  intros Ha Hb. destruct (group_sextets a b 0) as (S0 & S1 & S2 & _); [done..|].
  set (v0 := group a b 0 / 2 ^ 18 mod 2 ^ 6) in *. set (v1 := group a b 0 / 2 ^ 12 mod 2 ^ 6) in *.
  set (v2 := group a b 0 / 2 ^ 6 mod 2 ^ 6) in *.
  exists (map char_of [v0; v1; v2]).
  split; [simpl; by rewrite encode_chunk_group by done|]. split; [lia|].
  split; [by apply (count_pad_char [char_of v0; char_of v1])|].
  exists (foldl push6 0 [v0; v1; v2]), []. split; [intros i out Hi|intros out]; rewrite app_nil_r.
  - rewrite <-(Z.add_0_r i) at 1. apply decode_loop_partial; [by forall_done|done..].
  - unfold decode_tail. change 3 with (2 ^ 2 - 1). rewrite land_low, !Z.shiftr_div_pow2 by lia.
    assert (foldl push6 0 [v0; v1; v2] mod 2 ^ 2 = 0) as -> by (unfold v0, v1, v2; b64_arith). cbn [negb Z.eqb].
    do 2 f_equal. unfold u8. repeat (apply (f_equal2 cons); [unfold v0, v1, v2; b64_arith|]). done.
Qed.
Lemma decodes_triple a b c x body pad :
  is_byte a → is_byte b → is_byte c → decodes x body pad →
  decodes (a :: b :: c :: x) (encode_chunk 3 a b c ++ body) pad.
Proof.
  intros Ha Hb Hc (E & Hp & Hcp & n & full & Hl & Ht).
  destruct (group_sextets a b c) as (S0 & S1 & S2 & S3 & G); [done..|].
  destruct (group_bytes a b c) as (B0 & B1 & B2); [done..|].
  split; [by rewrite encode_triple, E, app_assoc|]. split; [done|].
  rewrite encode_chunk_group by done. split.
  - destruct body as [|z body _] using rev_ind; [by apply (count_pad_char [_; _; _])|].
    rewrite app_assoc, count_pad_snoc. rewrite count_pad_snoc in Hcp. by destruct (z =? PAD).
  - exists n, ([a; b; c] ++ full).
    split; [intros i out Hi|intros out; rewrite app_assoc, Ht; by rewrite <-app_assoc].
    cbn [app Z.leb Z.compare Pos.compare Pos.compare_cont].
    rewrite decode_loop_group, G, B0, B1, B2 by done. rewrite Hl; [by rewrite <-app_assoc|].
    Z.to_euclidean_division_equations; lia.
Qed.
Lemma encode_decodes x : bytes_ok x → ∃ body pad, decodes x body pad.
Proof.
  induction x as [|a|a b|a b c x IH] using list_ind3; intros Hx;
    repeat match goal with H : Forall _ (_ :: _) |- _ => apply Forall_cons in H as [? ?] end.
  - exists [], 0%nat. split; [done|]. split; [lia|]. split; [done|].
    exists 0, []. split; intros; by rewrite app_nil_r.
  - destruct (decodes_one a) as (body & Hd); eauto.
  - destruct (decodes_two a b) as (body & Hd); eauto.
  - destruct IH as (body & pad & Hd); [done|]. eauto using decodes_triple.
Qed.

Lemma decode_encode_id x : bytes_ok x → b64_decode (b64_encode x) = Some x.
Proof.
  intros Hx. destruct (encode_decodes x Hx) as (body & pad & E & Hp & Hc & n & full & Hl & Ht).
  unfold b64_decode.
  replace (zlen (b64_encode x) mod 4) with 0.
  2: { unfold zlen. rewrite length_b64_encode, Nat2Z.inj_mul, Z.mul_comm. by rewrite Z.mod_mul. }
  rewrite E, count_pad_replicate by done. destruct (Nat.ltb_spec 2 pad); [lia|]. cbn [negb Z.eqb].
  rewrite length_app, length_replicate, Nat.add_sub, take_app_length.
  rewrite Hl by done. apply (Ht []).
Qed.

(** ** Only encodings decode *)

Lemma decode_loop_chars s i n out r :
  decode_loop s i n out = Some r → ∃ vs, Forall sextet vs ∧ s = map char_of vs.
Proof.
  revert i n out. induction s as [|c s IH]; intros i n out H; [by exists []|]. simpl in H.
  destruct (position c) as [v|] eqn:Ev; [|done]. apply position_inv in Ev as [Hv ->].
  case_match; apply IH in H as (vs & Hvs & ->); exists (v :: vs); split; by try constructor.
Qed.

(** A run of the loop consumed whole groups, and fewer than four characters
    after them. *)
Lemma decode_loop_inv vs : ∀ i out n out',
  Forall sextet vs → i mod 4 = 0 → decode_loop (map char_of vs) i 0 out = Some (n, out') →
  ∃ x ws, bytes_ok x ∧ (length x mod 3 = 0)%nat ∧ Forall sextet ws ∧ (length ws < 4)%nat ∧
    map char_of vs = b64_encode x ++ map char_of ws ∧ out' = out ++ x ∧ n = foldl push6 0 ws.
Proof.
  induction vs as [vs Hl|v0 v1 v2 v3 vs IH] using list_ind4; intros i out n out' Hvs Hi H.
  - rewrite <-(Z.add_0_r i) in H. rewrite decode_loop_partial in H; [|done..|unfold zlen; lia|done].
    simplify_eq. exists [], vs. by rewrite app_nil_r.
  - repeat match goal with H : Forall _ (_ :: _) |- _ => apply Forall_cons in H as [? ?] end.
    cbn [map] in H. rewrite decode_loop_group in H by done.
    apply IH in H as (x & ws & Hx & Hm & Hws & Hlw & E & -> & ->);
      [|done|Z.to_euclidean_division_equations; lia].
    destruct (sextets_group v0 v1 v2 v3) as (B0 & B1 & B2 & G & E0 & E1 & E2 & E3); [done..|].
    set (g := foldl push6 0 [v0; v1; v2; v3]) in *.
    exists ([g / 65536 mod 256; g / 256 mod 256; g mod 256] ++ x), ws.
    split; [by forall_done|]. split.
    { rewrite length_app, Nat.add_comm. etransitivity; [apply (Nat.Div0.mod_add (length x) 1 3)|done]. }
    split; [done|]. split; [done|]. split; [|by rewrite app_assoc].
    cbn [map app]. rewrite encode_triple, encode_chunk_group, G, E0, E1, E2, E3, E by done. done.
Qed.

(** The characters after the last whole group, with their padding, are the
    encoding of the bytes [decode_tail] adds. *)
Lemma decode_tail_inv ws pad x y :
  Forall sextet ws → (length ws < 4)%nat → (pad <= 2)%nat → ((length ws + pad) mod 4 = 0)%nat →
  decode_tail pad (foldl push6 0 ws) x = Some y →
  ∃ z, bytes_ok z ∧ y = x ++ z ∧ map char_of ws ++ replicate pad PAD = b64_encode z.
Proof.
  intros Hws Hl Hp Hm H. unfold decode_tail in H.
  destruct pad as [|[|[|]]]; [| | |lia]; destruct ws as [|v0 [|v1 [|v2 [|? ?]]]]; simpl in Hl, Hm; try done; try lia;
    repeat match goal with H : Forall _ (_ :: _) |- _ => apply Forall_cons in H as [? ?] end.
  - simplify_eq. exists []. split; [by apply Forall_nil|]. split; [by rewrite app_nil_r|done].
  - change 3 with (2 ^ 2 - 1) in H. rewrite land_low, !Z.shiftr_div_pow2 in H by lia.
    set (g := foldl push6 0 [v0; v1; v2]) in *.
    destruct (Z.eqb_spec (g mod 2 ^ 2) 0) as [Hz|]; [|done]. cbn [negb] in H. simplify_eq.
    exists [u8 (g / 2 ^ 10); u8 (g / 2 ^ 2)]. split; [|split; [done|]].
    { by forall_done. }
    simpl. rewrite encode_chunk_group by (done || apply u8_byte).
    cbn [map app Z.leb Z.compare Pos.compare Pos.compare_cont replicate].
    repeat (apply (f_equal2 cons); [try reflexivity; f_equal; unfold g, u8 in *; b64_arith|]). done.
  - change 15 with (2 ^ 4 - 1) in H. rewrite land_low, !Z.shiftr_div_pow2 in H by lia.
    set (g := foldl push6 0 [v0; v1]) in *.
    destruct (Z.eqb_spec (g mod 2 ^ 4) 0) as [Hz|]; [|done]. cbn [negb] in H. simplify_eq.
    exists [u8 (g / 2 ^ 4)]. split; [|split; [done|]].
    { by forall_done. }
    simpl. rewrite encode_chunk_group by (done || apply u8_byte).
    cbn [map app Z.leb Z.compare Pos.compare Pos.compare_cont replicate].
    repeat (apply (f_equal2 cons); [try reflexivity; f_equal; unfold g, u8 in *; b64_arith|]). done.
Qed.

Lemma decode_canonical s x : b64_decode s = Some x → bytes_ok x ∧ b64_encode x = s.
Proof.
  unfold b64_decode. destruct (Z.eqb_spec (zlen s mod 4) 0) as [Hm|]; [|done]. cbn [negb].
  destruct (count_pad_suffix s) as [Es Hc]. set (pad := count_pad s) in *.
  destruct (Nat.ltb_spec 2 pad); [done|].
  destruct (decode_loop _ 0 0 []) as [[n out]|] eqn:El; [|done]. intros Ht.
  destruct (decode_loop_chars _ _ _ _ _ El) as (vs & Hvs & Ev). rewrite Ev in El.
  destruct (decode_loop_inv vs 0 [] n out) as (x1 & ws & Hx & Hm3 & Hws & Hlw & E & -> & ->); [done..|].
  rewrite Ev, E in Es. assert (length (b64_encode x1) mod 4 = 0)%nat as H4.
  { rewrite length_b64_encode, Nat.mul_comm. apply Nat.Div0.mod_mul. }
  apply decode_tail_inv in Ht as (z & Hz & -> & Ez); [|done..|lia|].
  - simpl. split; [by apply Forall_app|]. rewrite encode_app, <-Ez, app_assoc by done. done.
  - apply Nat.Div0.mod_divides in H4 as [k Hk].
    apply (f_equal length) in Es. rewrite !length_app, length_map, length_replicate in Es.
    unfold zlen in Hm. rewrite Es, Hk in Hm. apply Nat2Z.inj. rewrite Nat2Z.inj_mod.
    change (Z.of_nat 4) with 4. Z.to_euclidean_division_equations. lia.
Qed.

(** C8: The strict decoder is exact: it accepts a string if and only if it is
    the encoding of some bytes, and returns those bytes.  Encoding and
    decoding are inverse to each other, and no string with non-canonical
    padding or non-zero trailing bits decodes. *)
Theorem base64_decode_iff s x : b64_decode s = Some x ↔ bytes_ok x ∧ b64_encode x = s.
Proof.
  split; [apply decode_canonical|]. intros [Hx <-]. by apply decode_encode_id.
Qed.
