(* ===== verification/Str.v ===== *)
(** * Strings

    The methods of Rust's [str] and [u8] that the HTTP, URL and handshake
    code calls, on the bytes of the string.  Every pattern used by the source
    is ASCII, and an ASCII byte never occurs inside a multi-byte UTF-8
    sequence, so the byte-level functions agree with the character-level
    methods. *)

From S2P Require Import Prelude.

(** ** Characters *)
Definition chr (s : string) : Z := hd 0 (bs s).
Definition is_digit (b : Z) : bool := (48 <=? b) && (b <=? 57).
Definition is_upper (b : Z) : bool := (65 <=? b) && (b <=? 90).
Definition is_lower (b : Z) : bool := (97 <=? b) && (b <=? 122).
Definition is_alphanumeric (b : Z) : bool := is_digit b || is_upper b || is_lower b.
Definition contains (s : bytes) (b : Z) : bool := bool_decide (b ∈ s).
Definition lower (b : Z) : Z := if is_upper b then b + 32 else b.
(** [to_ascii_lowercase] and [eq_ignore_ascii_case] *)
Definition to_lower (s : bytes) : bytes := map lower s.
Definition eq_ignore_case (s t : bytes) : bool := bool_decide (to_lower s = to_lower t).

(** ** Searching and splitting *)
(** [s.find(p)] for a predicate on bytes. *)
Fixpoint find_byte (p : Z → bool) (s : bytes) : option nat :=
  match s with
  | [] => None
  | b :: s => if p b then Some O else S <$> find_byte p s
  end.
(** [split_once(c)] *)
Definition split_once (c : Z) (s : bytes) : option (bytes * bytes) :=
  let! i := find_byte (λ b, b =? c) s orelse None in
  Some (take i s, drop (S i) s).
(** [split_once(p)] for a non-empty string *)
Fixpoint split_once_str (p s : bytes) : option (bytes * bytes) :=
  if bool_decide (take (length p) s = p) then Some ([], drop (length p) s)
  else match s with
       | [] => None
       | b :: s => match split_once_str p s with Some (a, t) => Some (b :: a, t) | None => None end
       end.
(** [split(c)] *)
Fixpoint split (c : Z) (s : bytes) : list bytes :=
  match s with
  | [] => [[]]
  | b :: s =>
      if b =? c then [] :: split c s
      else match split c s with l :: ls => (b :: l) :: ls | [] => [[b]] end
  end.
(** [splitn(3, c)] *)
Definition splitn3 (c : Z) (s : bytes) : list bytes :=
  match split_once c s with
  | None => [s]
  | Some (a, s) => match split_once c s with None => [a; s] | Some (b, s) => [a; b; s] end
  end.
(** [split("\r\n")] *)
Fixpoint split_crlf (s : bytes) : list bytes :=
  match s with
  | [] => [[]]
  | b :: s' =>
      match s' with
      | c :: s'' =>
          if (b =? 13) && (c =? 10) then [] :: split_crlf s''
          else match split_crlf s' with l :: ls => (b :: l) :: ls | [] => [[b]] end
      | [] => [[b]]
      end
  end.
Definition strip_prefix (p s : bytes) : option bytes :=
  if bool_decide (take (length p) s = p) then Some (drop (length p) s) else None.
Definition strip_suffix (p s : bytes) : option bytes :=
  let n := (length s - length p)%nat in
  if bool_decide (drop n s = p) then Some (take n s) else None.
(** [trim_matches([' ', '\t'])] *)
Definition is_ws (b : Z) : bool := (b =? 32) || (b =? 9).
Arguments is_ws : simpl never.
Arguments is_digit : simpl never.
Arguments is_alphanumeric : simpl never.
Arguments contains : simpl never.
Fixpoint trim_start (s : bytes) : bytes :=
  match s with b :: s' => if is_ws b then trim_start s' else s | [] => [] end.
Definition trim_end (s : bytes) : bytes := rev (trim_start (rev s)).
Definition trim (s : bytes) : bytes := trim_end (trim_start s).
(** [join(sep)] *)
Fixpoint join (sep : bytes) (l : list bytes) : bytes :=
  match l with [] => [] | [s] => s | s :: l => s ++ sep ++ join sep l end.

(** ** Decimal numbers *)
(** [Display] of an unsigned integer; [fuel] bounds the digits. *)
Fixpoint digits (fuel : nat) (n : Z) : bytes :=
  match fuel with
  | O => []
  | S fuel => if n <? 10 then [48 + n] else digits fuel (n / 10) ++ [48 + n mod 10]
  end.
Definition to_dec (n : Z) : bytes := digits 20 n.
Definition from_dec (s : bytes) : Z := foldl (λ n b, n * 10 + (b - 48)) 0 s.

(** ** Lemmas *)
Lemma lower_idem b : lower (lower b) = lower b.
Proof. unfold lower, is_upper. repeat case_match; lia. Qed.
Lemma to_lower_idem s : to_lower (to_lower s) = to_lower s.
Proof. unfold to_lower. rewrite map_map. apply map_ext. apply lower_idem. Qed.
Lemma length_to_lower s : length (to_lower s) = length s.
Proof. apply length_map. Qed.
Lemma to_lower_app s t : to_lower (s ++ t) = to_lower s ++ to_lower t.
Proof. apply map_app. Qed.
Lemma eq_ignore_case_refl s : eq_ignore_case s s = true.
Proof. unfold eq_ignore_case. by apply bool_decide_eq_true_2. Qed.

Lemma find_byte_Some p s i :
  find_byte p s = Some i ↔
  ∃ a b t, s = a ++ b :: t ∧ length a = i ∧ p b = true ∧ Forall (λ x, p x = false) a.
Proof.
  revert i. induction s as [|x s IH]; intros i; simpl.
  { split; [done|]. intros ([|] & ? & ? & ? & _); done. }
  destruct (p x) eqn:E.
  - split; [intros [= <-]; by exists [], x, s|].
    intros ([|y a] & b & t & Hs & <- & Hb & Ha); [done|]. simplify_eq/=. inv Ha. congruence.
  - rewrite fmap_Some. split.
    + intros (j & (a & b & t & -> & <- & Hb & Ha)%IH & ->).
      exists (x :: a), b, t. repeat split; [done|by constructor].
    + intros ([|y a] & b & t & Hs & <- & Hb & Ha); simplify_eq/=; [congruence|].
      inv Ha. exists (length a). split; [|done]. apply IH. by exists a, b, t.
Qed.
Lemma find_byte_None p s : find_byte p s = None ↔ Forall (λ x, p x = false) s.
Proof.
  induction s as [|x s IH]; simpl; [by split|]. destruct (p x) eqn:E.
  - split; [done|]. intros H. inv H. congruence.
  - rewrite fmap_None, IH. split; [by constructor|by inversion 1].
Qed.
Lemma drop_S_app {A} (a : list A) c t : drop (S (length a)) (a ++ c :: t) = t.
Proof. by induction a. Qed.
Lemma split_once_app c a s :
  c ∉ a → split_once c (a ++ c :: s) = Some (a, s).
Proof.
  intros Ha. unfold split_once.
  assert (find_byte (λ b, b =? c) (a ++ c :: s) = Some (length a)) as ->.
  { apply find_byte_Some. exists a, c, s. repeat split; [lia|].
    apply Forall_forall. intros x Hx. apply Z.eqb_neq. intros ->. by apply Ha. }
  by rewrite take_app_length, drop_S_app.
Qed.
Lemma split_once_Some c s a t : split_once c s = Some (a, t) → s = a ++ c :: t ∧ c ∉ a.
Proof.
  unfold split_once. destruct (find_byte _ s) as [i|] eqn:E; [|done]. intros [= <- <-].
  apply find_byte_Some in E as (a & b & t & -> & <- & Hb & Ha).
  apply Z.eqb_eq in Hb as ->. rewrite take_app_length, drop_S_app. split; [done|]. intros Hin. rewrite Forall_forall in Ha. specialize (Ha _ Hin). lia.
Qed.
Lemma split_once_None c s : split_once c s = None ↔ c ∉ s.
Proof.
  unfold split_once. destruct (find_byte _ s) as [i|] eqn:E.
  - split; [done|]. apply find_byte_Some in E as (a & b & t & -> & _ & Hb & _).
    apply Z.eqb_eq in Hb as ->. set_solver.
  - split; [|done]. intros _. apply find_byte_None in E. rewrite Forall_forall in E.
    intros Hin. specialize (E _ Hin). lia.
Qed.

Lemma split_nonempty c s : split c s ≠ [].
Proof. destruct s; simpl; [done|]. case_match; [done|]. by case_match. Qed.
Lemma split_none c s : c ∉ s → split c s = [s].
Proof.
  induction s as [|b s IH]; [done|]. intros Hc. simpl.
  destruct (Z.eqb_spec b c); [set_solver|]. rewrite IH by set_solver. done.
Qed.
Lemma split_app c a s : c ∉ a → split c (a ++ c :: s) = a :: split c s.
Proof.
  induction a as [|b a IH]; intros Ha; simpl; [by rewrite Z.eqb_refl|].
  destruct (Z.eqb_spec b c); [set_solver|]. rewrite IH by set_solver. done.
Qed.
(** Splitting inverts joining. *)
Lemma split_join c l : l ≠ [] → Forall (λ s, c ∉ s) l → split c (join [c] l) = l.
Proof.
  intros Hl H. induction H as [|s l Hs H IH]; [done|]. destruct l as [|t l].
  - by apply split_none.
  - change (join [c] (s :: t :: l)) with (s ++ c :: join [c] (t :: l)).
    rewrite split_app, IH by done. done.
Qed.

(** Splitting at one byte loses nothing. *)
Lemma join_split c s : join [c] (split c s) = s.
Proof.
  induction s as [|b s IH]; [done|]. simpl. pose proof (split_nonempty c s) as Hne.
  destruct (Z.eqb_spec b c) as [->|]; destruct (split c s) as [|l ls]; [done| |done|].
  - change (c :: join [c] (l :: ls) = c :: s). by rewrite IH.
  - rewrite <-IH. by destruct ls.
Qed.
Lemma split_pieces c s : Forall (λ l, c ∉ l) (split c s).
Proof.
  induction s as [|b s IH]; simpl; [repeat constructor; set_solver|].
  destruct (Z.eqb_spec b c); [constructor; [set_solver|done]|].
  destruct (split c s) as [|l ls]; [repeat constructor; set_solver|].
  inv IH. constructor; [set_solver|done].
Qed.

Lemma split_crlf_none s : 13 ∉ s → split_crlf s = [s].
Proof.
  induction s as [|b s IH]; [done|]. intros Hc. simpl. destruct s as [|c s]; [done|].
  destruct (Z.eqb_spec b 13); [set_solver|]. rewrite IH by set_solver. done.
Qed.
Lemma split_crlf_app a s : 13 ∉ a → split_crlf (a ++ 13 :: 10 :: s) = a :: split_crlf s.
Proof.
  induction a as [|b a IH]; intros Ha; [done|]. cbn [app split_crlf].
  destruct (a ++ 13 :: 10 :: s) as [|c t] eqn:E; [by destruct a|].
  destruct (Z.eqb_spec b 13); [set_solver|]. cbn [andb]. rewrite IH by set_solver. done.
Qed.
Lemma split_crlf_lines l :
  l ≠ [] → Forall (λ s, 13 ∉ s) l → split_crlf (join CRLF l) = l.
Proof.
  intros Hl H. induction H as [|s l Hs H IH]; [done|]. destruct l as [|t l].
  - by apply split_crlf_none.
  - change (join CRLF (s :: t :: l)) with (s ++ 13 :: 10 :: join CRLF (t :: l)).
    rewrite split_crlf_app, IH by done. done.
Qed.

(** ** Trimming *)
Definition trimmed (s : bytes) : Prop :=
  match s with [] => True | b :: _ => is_ws b = false end ∧
  match rev s with [] => True | b :: _ => is_ws b = false end.
Lemma trim_start_id s : match s with [] => True | b :: _ => is_ws b = false end → trim_start s = s.
Proof. destruct s; simpl; [done|]. by intros ->. Qed.
Lemma trim_id s : trimmed s → trim s = s.
Proof.
  intros [H1 H2]. unfold trim, trim_end. rewrite (trim_start_id s), (trim_start_id (rev s)) by done. apply rev_involutive.
Qed.
Lemma trim_cons b s : is_ws b = true → trim (b :: s) = trim s.
Proof. intros Hb. unfold trim. simpl. by rewrite Hb. Qed.
Lemma trim_start_head s : match trim_start s with [] => True | b :: _ => is_ws b = false end.
Proof. induction s as [|b s IH]; simpl; [done|]. by destruct (is_ws b) eqn:E. Qed.
Lemma trim_start_suffix s : trim_start s `suffix_of` s.
Proof.
  induction s as [|b s IH]; simpl; [done|]. destruct (is_ws b); [|done]. by apply suffix_cons_r.
Qed.
Lemma trim_trimmed s : trimmed (trim s).
Proof.
  unfold trim, trim_end. set (t := trim_start s). pose proof (trim_start_head s) as Hh. fold t in Hh.
  split; [|rewrite rev_involutive; apply trim_start_head].
  destruct (trim_start_suffix (rev t)) as [k Hk]. apply (f_equal (@rev Z)) in Hk.
  rewrite rev_involutive, rev_app_distr in Hk. rewrite Hk in Hh.
  by destruct (rev (trim_start (rev t))).
Qed.
Lemma trim_elem b s : b ∈ trim s → b ∈ s.
Proof.
  unfold trim, trim_end. intros H.
  destruct (trim_start_suffix (rev (trim_start s))) as [k Hk].
  destruct (trim_start_suffix s) as [k' Hk'].
  rewrite Hk'. apply elem_of_app. right. apply list_elem_of_In, in_rev. rewrite Hk.
  apply in_or_app. right. apply in_rev. by apply list_elem_of_In.
Qed.

(** ** Decimal numbers *)
Lemma foldl_dec_app s b : from_dec (s ++ [b]) = from_dec s * 10 + (b - 48).
Proof. unfold from_dec. by rewrite foldl_app. Qed.
Lemma digits_spec fuel n :
  0 <= n < 10 ^ Z.of_nat fuel →
  from_dec (digits fuel n) = n ∧ Forall (λ b, is_digit b = true) (digits fuel n) ∧
  (digits fuel n = [] → fuel = O).
Proof.
  revert n. induction fuel as [|fuel IH]; intros n Hn; [change (10 ^ Z.of_nat 0) with 1 in Hn; split; [unfold from_dec; simpl; lia|done]|].
  rewrite Nat2Z.inj_succ, Z.pow_succ_r in Hn by lia. cbn [digits].
  destruct (Z.ltb_spec n 10).
  - split; [unfold from_dec; simpl; lia|]. split; [|done].
    apply Forall_cons_2; [unfold is_digit; lia|by apply Forall_nil_2].
  - destruct (IH (n / 10)) as (H1 & H2 & _); [Z.to_euclidean_division_equations; lia|].
    rewrite foldl_dec_app, H1. split; [Z.to_euclidean_division_equations; lia|]. split.
    + apply Forall_app. split; [done|]. apply Forall_cons_2; [|by apply Forall_nil_2].
      unfold is_digit. Z.to_euclidean_division_equations; lia.
    + by destruct (digits fuel (n / 10)).
Qed.
Lemma digits_length fuel k n : 0 <= n < 10 ^ Z.of_nat k → (0 < k)%nat → (length (digits fuel n) <= k)%nat.
Proof.
  revert k n. induction fuel as [|fuel IH]; intros k n Hn Hk; simpl; [lia|].
  destruct (Z.ltb_spec n 10); simpl; [lia|]. rewrite length_app. simpl.
  destruct k as [|k]; [lia|]. rewrite Nat2Z.inj_succ, Z.pow_succ_r in Hn by lia.
  destruct k as [|k]; [change (10 ^ Z.of_nat 0) with 1 in Hn; lia|].
  assert (length (digits fuel (n / 10)) <= S k)%nat; [|lia].
  apply IH; [Z.to_euclidean_division_equations; lia|lia].
Qed.
Lemma to_dec_u16 n : 0 <= n < 65536 →
  from_dec (to_dec n) = n ∧ forallb is_digit (to_dec n) = true ∧ to_dec n ≠ [] ∧ (length (to_dec n) <= 5)%nat.
Proof.
  intros Hn. unfold to_dec. destruct (digits_spec 20 n) as (H1 & H2 & H3); [change (10 ^ Z.of_nat 20) with (10 ^ 20); lia|].
  split; [done|]. split.
  - apply forallb_forall. intros b Hb. rewrite Forall_forall in H2. by apply H2, list_elem_of_In.
  - split; [intros E; by apply H3 in E|]. apply digits_length; [change (10 ^ Z.of_nat 5) with 100000; lia|lia].
Qed.

(** ** Prefixes *)
Lemma strip_prefix_app p s : strip_prefix p (p ++ s) = Some s.
Proof. unfold strip_prefix. by rewrite take_app_length, drop_app_length, bool_decide_eq_true_2. Qed.
Lemma strip_prefix_Some p s t : strip_prefix p s = Some t → s = p ++ t.
Proof.
  unfold strip_prefix. case_bool_decide as E; [|done]. intros [= <-].
  rewrite <-E at 1. by rewrite take_drop.
Qed.
Lemma strip_prefix_char c s : strip_prefix [c] s = match s with b :: s => if b =? c then Some s else None | [] => None end.
Proof.
  unfold strip_prefix. destruct s as [|b s]; simpl; [done|]. rewrite take_0, drop_0.
  destruct (Z.eqb_spec b c) as [->|]; [by rewrite bool_decide_eq_true_2|].
  rewrite bool_decide_eq_false_2; [done|]. congruence.
Qed.
