(* ===== verification/Http.v ===== *)
(** * The HTTP head parser and header helpers (core/src/proto/http.rs) *)

From S2P Require Import Prelude Utf8 Str.

Definition MAX_HEAD : Z := 16 * 1024.
Definition MAX_HEADERS : Z := 64.
Definition RESERVED : list bytes :=
  map bs ["host"; "upgrade"; "connection"; "content-length"; "transfer-encoding";
          "sec-websocket-key"; "sec-websocket-version"; "sec-websocket-protocol";
          "sec-websocket-extensions"; "sec-websocket-accept"].

(** Lowercased names with their values, in order. *)
Notation Headers := (list (bytes * bytes)) (only parsing).

Definition BLANK : bytes := CRLF ++ CRLF.
(** [buf.windows(4).position(|w| w == b"\r\n\r\n").map(|i| i + 4)] *)
Fixpoint head_end (buf : bytes) : option nat :=
  if bool_decide (take 4 buf = BLANK) then Some 4%nat
  else match buf with [] => None | _ :: r => S <$> head_end r end.

Definition TOKEN_CHARS : bytes := bs "!#$%&'*+-.^_`|~".
Definition is_token_char (b : Z) : bool := is_alphanumeric b || contains TOKEN_CHARS b.
Definition is_token (s : bytes) : bool :=
  negb (bool_decide (s = [])) && forallb is_token_char s.
Definition is_value_char (b : Z) : bool := (b =? 9) || ((32 <=? b) && negb (b =? 0x7f)).
Definition is_value (s : bytes) : bool := forallb is_value_char s.

Definition check_header (name value : bytes) : result unit bytes :=
  if negb (is_token name) || negb (is_value value) then Err (bs "invalid header: " ++ name) else
  if bool_decide (to_lower name ∈ RESERVED) then Err (bs "header is managed by ws: " ++ name) else
  Ok tt.

(** The loop over the header lines. *)
Fixpoint parse_lines (lines : list bytes) (headers : Headers) : option Headers :=
  match lines with
  | [] => Some headers
  | line :: lines =>
      let! (name, value) := split_once 58 line orelse None in
      let value := trim value in
      if negb (is_token name) || negb (is_value value) || (zlen headers =? MAX_HEADERS) then None
      else parse_lines lines (headers ++ [(to_lower name, value)])
  end.
Definition parse (head : bytes) : option (bytes * Headers) :=
  if MAX_HEAD <? zlen head then None else
  if negb (is_utf8 head) then None else
  let! text := strip_suffix BLANK head orelse None in
  match split_crlf text with
  | [] => None
  | start :: lines =>
      let! headers := parse_lines lines [] orelse None in
      if is_value start then Some (start, headers) else None
  end.

Definition all (headers : Headers) (name : bytes) : list bytes :=
  map snd (filter (λ h, h.1 = name) headers).
(** The value of a header that must appear exactly once. *)
Definition one (headers : Headers) (name : bytes) : option bytes :=
  match all headers name with [v] => Some v | _ => None end.
(** [all(headers, name).flat_map(|v| v.split(','))] *)
Definition list_items (headers : Headers) (name : bytes) : list bytes :=
  concat (map (split 44) (all headers name)).
Definition has_token (headers : Headers) (name token : bytes) : bool :=
  existsb (λ t, eq_ignore_case (trim t) token) (list_items headers name).
Fixpoint tokens_loop (items : list bytes) (seen : list bytes) (out : list bytes) : option (list bytes) :=
  match items with
  | [] => Some out
  | item :: items =>
      let item := trim item in
      if negb (is_token item) || bool_decide (item ∈ seen) then None
      else tokens_loop items (item :: seen) (out ++ [item])
  end.
Definition tokens (headers : Headers) (name : bytes) : option (list bytes) :=
  tokens_loop (list_items headers name) [] [].

(** ** Characters *)
Lemma forallb_Forall {A} (p : A → bool) l : forallb p l = true ↔ Forall (λ x, p x = true) l.
Proof. rewrite forallb_forall, Forall_forall. by setoid_rewrite list_elem_of_In. Qed.

(** Tokens contain no separator, blank or control character. *)
Definition token_sep (b : Z) : bool :=
  negb (is_token_char b) ||
  ((33 <=? b) && (b <? 0x7f) && negb (b =? 58) && negb (b =? 44) && negb (is_ws b) &&
   is_token_char (lower b)).
Lemma token_char_sep b : is_byte b → is_token_char b = true →
  33 <= b < 0x7f ∧ b ≠ 58 ∧ b ≠ 44 ∧ is_ws b = false ∧ is_token_char (lower b) = true.
Proof.
  intros Hb Hc. assert (token_sep b = true) as H.
  { apply (all_bytes_spec token_sep); [by vm_compute|done]. }
  unfold token_sep in H. rewrite Hc in H.
  destruct (is_ws b), (is_token_char (lower b)); cbn in H; lia.
Qed.
Lemma is_token_char_byte b : is_token_char b = true → is_byte b.
Proof.
  unfold is_token_char, is_alphanumeric, is_digit, is_upper, is_lower, is_byte, contains.
  destruct (bool_decide_reflect (b ∈ TOKEN_CHARS)) as [Hin|]; [|lia]. intros _.
  assert (Forall is_byte TOKEN_CHARS) as Hall by by_decide.
  rewrite Forall_forall in Hall. by apply Hall.
Qed.
Lemma token_chars b : is_token_char b = true →
  33 <= b < 0x7f ∧ b ≠ 58 ∧ b ≠ 44 ∧ is_ws b = false ∧ is_token_char (lower b) = true.
Proof. intros H. apply token_char_sep; [by apply is_token_char_byte|done]. Qed.

Lemma is_token_Forall s : is_token s = true → s ≠ [] ∧ Forall (λ b, is_token_char b = true) s.
Proof.
  unfold is_token. rewrite andb_true_iff, forallb_Forall. intros [H1 H2].
  case_bool_decide; done.
Qed.
Lemma is_token_intro s : s ≠ [] → Forall (λ b, is_token_char b = true) s → is_token s = true.
Proof.
  intros H1 H2. unfold is_token. rewrite andb_true_iff, forallb_Forall. split; [|done].
  by rewrite bool_decide_eq_false_2.
Qed.
Lemma token_not_in s c : is_token s = true → is_token_char c = false → c ∉ s.
Proof.
  intros [_ H]%is_token_Forall Hc Hin. rewrite Forall_forall in H. specialize (H _ Hin). congruence.
Qed.
Lemma token_trimmed s : is_token s = true → trimmed s.
Proof.
  intros [_ H]%is_token_Forall. rewrite Forall_forall in H.
  split.
  - destruct s as [|b s]; [done|]. by apply token_chars, H; left.
  - destruct (rev s) as [|b t] eqn:E; [done|]. apply token_chars, H.
    apply list_elem_of_In, in_rev. rewrite E. by left.
Qed.
Lemma token_lower s : is_token s = true → is_token (to_lower s) = true.
Proof.
  intros [Hne H]%is_token_Forall. apply is_token_intro; [by destruct s|].
  apply Forall_map. eapply Forall_impl; [done|]. intros b Hb. simpl. by apply token_chars.
Qed.
Lemma value_not_in s c : is_value s = true → is_value_char c = false → c ∉ s.
Proof.
  unfold is_value. rewrite forallb_Forall, Forall_forall. intros H Hc Hin. specialize (H _ Hin). congruence.
Qed.
Lemma is_value_app s t : is_value (s ++ t) = is_value s && is_value t.
Proof. unfold is_value. apply forallb_app. Qed.
Lemma token_is_value s : is_token s = true → is_value s = true.
Proof.
  intros [_ H]%is_token_Forall. unfold is_value. apply forallb_Forall. eapply Forall_impl; [done|].
  intros b Hb%token_chars. unfold is_value_char. lia.
Qed.

Lemma value_trim s : is_value s = true → is_value (trim s) = true.
Proof.
  unfold is_value. rewrite !forallb_Forall, !Forall_forall. intros H b Hb. by apply H, trim_elem.
Qed.

(** ** What [parse] returns *)
Definition header_ok (h : bytes * bytes) : Prop :=
  is_token h.1 = true ∧ to_lower h.1 = h.1 ∧ is_value h.2 = true ∧ trimmed h.2.

Lemma parse_lines_sound lines hs hs' :
  Forall header_ok hs → zlen hs <= MAX_HEADERS → parse_lines lines hs = Some hs' →
  Forall header_ok hs' ∧ zlen hs' <= MAX_HEADERS.
Proof.
  revert hs. induction lines as [|line lines IH]; intros hs Hok Hl H; simpl in H; [by simplify_eq|].
  destruct (split_once 58 line) as [[name value]|]; [|done].
  destruct (is_token name) eqn:Hn; [|done]. destruct (is_value (trim value)) eqn:Hv; [|done].
  cbn [negb orb] in H. destruct (Z.eqb_spec (zlen hs) MAX_HEADERS); [done|].
  apply IH in H; [done| |rewrite zlen_app; unfold zlen, MAX_HEADERS in *; simpl; lia].
  apply Forall_app. split; [done|]. apply Forall_cons_2; [|by apply Forall_nil_2].
  split; [by apply token_lower|]. split; [apply to_lower_idem|]. split; [done|apply trim_trimmed].
Qed.
Lemma parse_sound head start hs :
  parse head = Some (start, hs) →
  is_value start = true ∧ Forall header_ok hs ∧ zlen hs <= MAX_HEADERS ∧ zlen head <= MAX_HEAD.
Proof.
  unfold parse. destruct (Z.ltb_spec MAX_HEAD (zlen head)); [done|].
  destruct (is_utf8 head); [|done]. cbn [negb]. destruct (strip_suffix BLANK head); [|done].
  destruct (split_crlf _) as [|st lines]; [done|].
  destruct (parse_lines lines []) as [hs'|] eqn:E; [|done].
  destruct (is_value st) eqn:Ev; [|done]. intros [= <- <-].
  apply parse_lines_sound in E as [H1 H2]; [done|by apply Forall_nil|unfold MAX_HEADERS, zlen; simpl; lia].
Qed.

(** ** Printing a head, and reading it back *)
Definition header_line (h : bytes * bytes) : bytes := h.1 ++ bs ": " ++ h.2.
Definition print_head (start : bytes) (hs : Headers) : bytes :=
  start ++ CRLF ++ concat (map (λ h, header_line h ++ CRLF) hs) ++ CRLF.
(** A header that can be written, and what the other side makes of it. *)
Definition sendable (h : bytes * bytes) : Prop := is_token h.1 = true ∧ is_value h.2 = true.
Definition received (h : bytes * bytes) : bytes * bytes := (to_lower h.1, trim h.2).

Lemma print_head_lines start hs :
  print_head start hs = join CRLF (start :: map header_line hs) ++ BLANK.
Proof.
  unfold print_head, BLANK. revert start. induction hs as [|h hs IH]; intros start; [done|].
  change (join CRLF (start :: map header_line (h :: hs)))
    with (start ++ CRLF ++ join CRLF (header_line h :: map header_line hs)).
  rewrite <-!app_assoc, <-IH. simpl concat. by rewrite <-!app_assoc.
Qed.
Lemma parse_lines_print hs acc :
  Forall sendable hs → zlen acc + zlen hs <= MAX_HEADERS →
  parse_lines (map header_line hs) acc = Some (acc ++ map received hs).
Proof.
  intros H. revert acc. induction H as [|[n v] hs (Hn & Hv) H IH]; intros acc Hl.
  - by rewrite app_nil_r.
  - cbn [map parse_lines]. unfold header_line at 1. cbn [fst snd] in *.
    change (bs ": ") with [58; 32]. cbn [app].
    rewrite split_once_app by (by eapply token_not_in).
    rewrite trim_cons by done. rewrite Hn, value_trim by done. cbn [negb orb].
    unfold zlen in *. simpl length in Hl.
    destruct (Z.eqb_spec (Z.of_nat (length acc)) MAX_HEADERS); [lia|].
    rewrite IH by (rewrite length_app; simpl; lia). by rewrite <-app_assoc.
Qed.
Lemma strip_suffix_app p s : strip_suffix p (s ++ p) = Some s.
Proof.
  unfold strip_suffix. rewrite length_app, Nat.add_sub, drop_app_length, take_app_length.
  by rewrite bool_decide_eq_true_2.
Qed.
Lemma sendable_line h : sendable h → 13 ∉ header_line h.
Proof.
  intros (Hn & Hv). unfold header_line. rewrite !not_elem_of_app. split; [|split].
  - by eapply token_not_in.
  - change (bs ": ") with [58; 32]. by_decide.
  - by eapply value_not_in.
Qed.
Lemma parse_print start hs :
  is_value start = true → Forall sendable hs → zlen hs <= MAX_HEADERS →
  zlen (print_head start hs) <= MAX_HEAD → is_utf8 (print_head start hs) = true →
  parse (print_head start hs) = Some (start, map received hs).
Proof.
  intros Hst Hhs Hn Hlen Hu. unfold parse. rewrite Hu. destruct (Z.ltb_spec MAX_HEAD (zlen (print_head start hs))); [lia|].
  cbn [negb]. rewrite print_head_lines, strip_suffix_app.
  rewrite split_crlf_lines; [|done|].
  - rewrite parse_lines_print by done. by rewrite Hst.
  - apply Forall_cons_2; [by eapply value_not_in|]. apply Forall_map.
    eapply Forall_impl; [done|]. apply sendable_line.
Qed.

Lemma is_utf8_app a b : is_utf8 a = true → is_utf8 (a ++ b) = is_utf8 b.
Proof.
  unfold is_utf8. destruct (from_utf8 a) as [[]|] eqn:E; [|done]. intros _.
  rewrite from_utf8_app_ok by done. by destruct (from_utf8 b).
Qed.
Lemma is_utf8_ascii a : Forall (λ b, 0 <= b < 0x80) a → is_utf8 a = true.
Proof. intros H. unfold is_utf8. by rewrite from_utf8_ascii. Qed.
Lemma is_utf8_concat l : Forall (λ a, is_utf8 a = true) l → is_utf8 (concat l) = true.
Proof. induction 1 as [|a l Ha Hl IH]; [done|]. simpl. by rewrite is_utf8_app. Qed.
Lemma token_ascii s : is_token s = true → is_utf8 s = true.
Proof.
  intros [_ H]%is_token_Forall. apply is_utf8_ascii. eapply Forall_impl; [done|].
  intros b Hb%token_chars. simpl. lia.
Qed.
Lemma print_head_utf8 start hs :
  is_utf8 start = true → Forall (λ h, is_token h.1 = true ∧ is_utf8 h.2 = true) hs →
  is_utf8 (print_head start hs) = true.
Proof.
  intros Hs Hh. unfold print_head. rewrite is_utf8_app, is_utf8_app by done.
  rewrite is_utf8_app; [done|]. apply is_utf8_concat, Forall_map.
  eapply Forall_impl; [done|]. intros [n v] [Hn Hv]. unfold header_line. cbn [fst snd] in *.
  rewrite <-!app_assoc, is_utf8_app by by apply token_ascii. rewrite is_utf8_app by done.
  by rewrite is_utf8_app.
Qed.

(** ** The end of the head *)
Definition blank_at (a : bytes) (i : nat) : Prop := take 4 (drop i a) = BLANK.
Lemma blank_at_length a i : blank_at a i → (i + 4 <= length a)%nat.
Proof.
  unfold blank_at. intros E. apply (f_equal length) in E.
  rewrite length_take, length_drop in E. change (length BLANK) with 4%nat in E. lia.
Qed.
Lemma blank_at_app a b i : (i + 4 <= length a)%nat → blank_at (a ++ b) i ↔ blank_at a i.
Proof.
  intros Hi. unfold blank_at. by rewrite drop_app_le, take_app_le by (rewrite ?length_drop; lia).
Qed.
(** [head_end] finds the first blank line, or there is none. *)
Lemma head_end_Some a n :
  head_end a = Some n ↔ ∃ i, n = (i + 4)%nat ∧ blank_at a i ∧ ∀ j, (j < i)%nat → ¬ blank_at a j.
Proof.
  unfold blank_at. revert n. induction a as [|x a IH]; intros n.
  { split; [done|]. intros (i & _ & E & _). by rewrite drop_nil in E. }
  cbn [head_end]. case_bool_decide as E.
  - split.
    + intros [= <-]. exists 0%nat. split; [done|]. split; [done|]. lia.
    + intros ([|i] & -> & _ & Hno); [done|]. by destruct (Hno 0%nat ltac:(lia)).
  - rewrite fmap_Some. setoid_rewrite IH. split.
    + intros (m & (i & -> & Hi & Hno) & ->). exists (S i). split; [done|]. split; [done|].
      intros [|j] Hj; [done|]. apply Hno. lia.
    + intros ([|i] & -> & Hi & Hno); [done|]. exists (i + 4)%nat. split; [|done].
      exists i. split; [done|]. split; [done|]. intros j Hj. apply (Hno (S j)). lia.
Qed.
Lemma head_end_None a : head_end a = None ↔ ∀ j, ¬ blank_at a j.
Proof.
  unfold blank_at. induction a as [|x a IH].
  { split; [|done]. intros _ j. by rewrite drop_nil. }
  cbn [head_end]. case_bool_decide as E.
  - split; [done|]. intros H. by destruct (H 0%nat).
  - rewrite fmap_None, IH. split; [intros H [|j]; [done|apply H]|intros H j; apply (H (S j))].
Qed.
Lemma head_end_length a n : head_end a = Some n → (4 <= n <= length a)%nat.
Proof. intros (i & -> & Hi & _)%head_end_Some. apply blank_at_length in Hi. lia. Qed.
Lemma head_end_app_l a b n : head_end a = Some n → head_end (a ++ b) = Some n.
Proof.
  rewrite !head_end_Some. intros (i & -> & Hi & Hno). exists i. split; [done|].
  pose proof (blank_at_length _ _ Hi). split; [by apply blank_at_app|].
  intros j Hj. rewrite blank_at_app by lia. by apply Hno.
Qed.
