(* ===== verification/Ip.v ===== *)
(** * IP address literals

    [str::parse] for [Ipv4Addr], [Ipv6Addr] and [IpAddr] of the Rust standard
    library (core::net::parser), which the URL parser, the [Host] check and
    the resolver use.  A reader takes the remaining text and returns a value
    with the text after it, or [None] without consuming anything. *)

From S2P Require Import Prelude Str.

Definition reader (A : Type) : Type := bytes → option (A * bytes).

Definition read_given_char (c : Z) : reader unit := λ s,
  match s with b :: s => if b =? c then Some (tt, s) else None | [] => None end.
Definition read_separator {A} (sep : Z) (i : nat) (inner : reader A) : reader A := λ s,
  match i with
  | O => inner s
  | _ => let! (_, s) := read_given_char sep s orelse None in inner s
  end.

(** [char::to_digit] *)
Definition to_digit (radix b : Z) : option Z :=
  let d := if is_digit b then b - 48
           else if (97 <=? lower b) && (lower b <=? 122) then lower b - 87
           else 99 in
  if d <? radix then Some d else None.

(** The digits at the front of [s]: their number, their value, what follows.
    [bound] is the first value that does not fit the integer type. *)
Fixpoint read_digits (radix bound : Z) (max_digits count : nat) (acc : Z) (s : bytes)
    : option (nat * Z * bytes) :=
  match s with
  | b :: r =>
      match to_digit radix b with
      | Some d =>
          let acc := acc * radix + d in
          if bound <=? acc then None
          else if (max_digits <? S count)%nat then None
          else read_digits radix bound max_digits (S count) acc r
      | None => Some (count, acc, s)
      end
  | [] => Some (count, acc, s)
  end.
Definition read_number (radix bound : Z) (max_digits : nat) (allow_zero_prefix : bool) : reader Z := λ s,
  let has_leading_zero := match s with b :: _ => b =? 48 | [] => false end in
  let! (count, value, rest) := read_digits radix bound max_digits 0 0 s orelse None in
  if (count =? 0)%nat then None
  else if negb allow_zero_prefix && has_leading_zero && (1 <? count)%nat then None
  else Some (value, rest).

Definition read_octet (i : nat) : reader Z := read_separator 46 i (read_number 10 256 3 false).
Definition read_ipv4_addr : reader (list Z) := λ s,
  let! (a, s) := read_octet 0 s orelse None in
  let! (b, s) := read_octet 1 s orelse None in
  let! (c, s) := read_octet 2 s orelse None in
  let! (d, s) := read_octet 3 s orelse None in
  Some ([a; b; c; d], s).

(** Groups [i] to [i + left - 1] of [limit]; the flag says that the last two
    came from an embedded IPv4 address. *)
Fixpoint read_groups (left i : nat) (acc : list Z) (s : bytes) : list Z * bool * bytes :=
  match left with
  | O => (acc, false, s)
  | S left' =>
      let v4 := match left' with O => None | _ => read_separator 58 i read_ipv4_addr s end in
      match v4 with
      | Some ([a; b; c; d], s) => (acc ++ [a * 256 + b; c * 256 + d], true, s)
      | _ =>
          match read_separator 58 i (read_number 16 65536 4 true) s with
          | Some (g, s) => read_groups left' (S i) (acc ++ [g]) s
          | None => (acc, false, s)
          end
      end
  end.
Definition read_ipv6_addr : reader (list Z) := λ s,
  let '(head, head_ipv4, s) := read_groups 8 0 [] s in
  if (length head =? 8)%nat then Some (head, s) else
  if head_ipv4 then None else
  let! (_, s) := read_given_char 58 s orelse None in
  let! (_, s) := read_given_char 58 s orelse None in
  let '(tail, _, s) := read_groups (8 - (length head + 1)) 0 [] s in
  Some (head ++ replicate (8 - length head - length tail) 0 ++ tail, s).

(** [parse_with]: the whole text must be used. *)
Definition parse_with {A} (r : reader A) (s : bytes) : option A :=
  match r s with Some (a, []) => Some a | _ => None end.
Inductive IpAddr := V4 (octets : list Z) | V6 (groups : list Z).
Definition parse_ipv4 (s : bytes) : option (list Z) :=
  if (15 <? length s)%nat then None else parse_with read_ipv4_addr s.
Definition parse_ipv6 (s : bytes) : option (list Z) := parse_with read_ipv6_addr s.
Definition read_ip_addr : reader IpAddr := λ s,
  match read_ipv4_addr s with
  | Some (a, s) => Some (V4 a, s)
  | None => match read_ipv6_addr s with Some (a, s) => Some (V6 a, s) | None => None end
  end.
Definition parse_ip (s : bytes) : option IpAddr := parse_with read_ip_addr s.

Example ipv6_tests :
  parse_ipv6 (bs "::1") = Some [0; 0; 0; 0; 0; 0; 0; 1] ∧
  parse_ipv6 (bs "2001:DB8::ff00:42:8329") = Some [0x2001; 0xdb8; 0; 0; 0; 0xff00; 0x42; 0x8329] ∧
  parse_ipv6 (bs "::ffff:192.0.2.128") = Some [0; 0; 0; 0; 0; 0xffff; 0xc000; 0x280] ∧
  parse_ipv6 (bs "1:2:3:4:5:6:7:8") = Some [1; 2; 3; 4; 5; 6; 7; 8] ∧
  parse_ipv6 (bs "1:2:3:4:5:6:7::8") = None ∧ parse_ipv6 (bs "12345::") = None ∧
  parse_ipv6 (bs ":::") = None ∧ parse_ipv6 [] = None ∧
  parse_ip (bs "127.0.0.1") = Some (V4 [127; 0; 0; 1]) ∧ parse_ip (bs "127.0.0.01") = None.
Proof. repeat split; vm_compute; reflexivity. Qed.

(** ** Case does not matter *)
Definition map_rest {A} (x : option (A * bytes)) : option (A * bytes) :=
  match x with Some (a, s) => Some (a, to_lower s) | None => None end.
(** The reader treats a text and its lowercased form alike. *)
Definition caseless {A} (r : reader A) : Prop := ∀ s, r (to_lower s) = map_rest (r s).

Lemma lower_eqb b c : is_upper c = false → is_lower c = false → (lower b =? c) = (b =? c).
Proof.
  unfold lower. destruct (is_upper b) eqn:E; [|done]. unfold is_upper, is_lower in *. lia.
Qed.
Lemma to_digit_lower radix b : to_digit radix (lower b) = to_digit radix b.
Proof.
  unfold to_digit. rewrite lower_idem.
  assert (is_digit (lower b) = is_digit b) as E.
  { unfold lower. destruct (is_upper b) eqn:E; [|done]. unfold is_digit, is_upper in *. lia. }
  rewrite E. destruct (is_digit b) eqn:Ed; [|done].
  unfold lower. destruct (is_upper b) eqn:Eu; [|done]. unfold is_digit, is_upper in *. lia.
Qed.
Lemma read_given_char_lower c : is_upper c = false → is_lower c = false → caseless (read_given_char c).
Proof.
  intros H1 H2 [|b s]; [done|]. simpl. rewrite lower_eqb by done. by destruct (b =? c).
Qed.
Lemma read_separator_lower {A} c i (r : reader A) :
  is_upper c = false → is_lower c = false → caseless r → caseless (read_separator c i r).
Proof.
  intros H1 H2 Hr s. destruct i as [|i]; [apply Hr|]. unfold read_separator.
  rewrite read_given_char_lower by done. destruct (read_given_char c s) as [[[] t]|]; [apply Hr|done].
Qed.
Lemma read_digits_lower radix bound md n acc s :
  read_digits radix bound md n acc (to_lower s) =
  match read_digits radix bound md n acc s with
  | Some (k, v, t) => Some (k, v, to_lower t)
  | None => None
  end.
Proof.
  revert n acc. induction s as [|b s IH]; intros n acc; [done|]. cbn [to_lower map read_digits].
  rewrite to_digit_lower. destruct (to_digit radix b); [|done].
  case_match; [done|]. case_match; [done|]. apply IH.
Qed.
Lemma read_number_lower radix bound md z : caseless (read_number radix bound md z).
Proof.
  intros s. unfold read_number. rewrite read_digits_lower.
  replace (match to_lower s with b :: _ => b =? 48 | [] => false end)
    with (match s with b :: _ => b =? 48 | [] => false end).
  2: { destruct s; [done|]. simpl. by rewrite lower_eqb. }
  destruct (read_digits _ _ _ _ _ s) as [[[k v] t]|]; [|done].
  case_match; [done|]. by case_match.
Qed.
Lemma read_ipv4_lower : caseless read_ipv4_addr.
Proof.
  intros s. unfold read_ipv4_addr.
  assert (∀ i, caseless (read_octet i)) as H.
  { intros i. by apply read_separator_lower, read_number_lower. }
  do 4 (rewrite H; destruct (read_octet _ _) as [[? ?]|]; [cbn [map_rest]|done]). done.
Qed.
Lemma read_groups_lower left i acc s :
  read_groups left i acc (to_lower s) =
  let '(g, v4, t) := read_groups left i acc s in (g, v4, to_lower t).
Proof.
  revert i acc s. induction left as [|left IH]; intros i acc s; [done|]. cbn [read_groups].
  assert (match left with O => None | _ => read_separator 58 i read_ipv4_addr (to_lower s) end =
    map_rest (match left with O => None | _ => read_separator 58 i read_ipv4_addr s end)) as ->.
  { destruct left; [done|]. by rewrite read_separator_lower; [| | |apply read_ipv4_lower]. }
  set (v := match left with O => None | _ => _ end).
  rewrite read_separator_lower; [|done..|apply read_number_lower].
  destruct v as [[[|? [|? [|? [|? [|? ?]]]]] ?]|]; cbn [map_rest]; try done;
    destruct (read_separator 58 i (read_number 16 65536 4 true) s) as [[g t]|]; cbn [map_rest]; try apply IH; done.
Qed.
Lemma read_ipv6_lower : caseless read_ipv6_addr.
Proof.
  intros s. unfold read_ipv6_addr. rewrite read_groups_lower.
  destruct (read_groups 8 0 [] s) as [[h v4] t]. case_match; [done|]. case_match; [done|].
  do 2 (rewrite read_given_char_lower by done;
    destruct (read_given_char 58 _) as [[? ?]|]; [cbn [map_rest]|done]).
  rewrite read_groups_lower. by destruct (read_groups _ 0 [] _) as [[? ?] ?].
Qed.
Lemma parse_ipv6_lower s : parse_ipv6 (to_lower s) = parse_ipv6 s.
Proof.
  unfold parse_ipv6, parse_with. rewrite read_ipv6_lower.
  destruct (read_ipv6_addr s) as [[a [|? ?]]|]; done.
Qed.

(** ** Readers consume from the front *)
Definition consumes {A} (r : reader A) : Prop := ∀ s a t, r s = Some (a, t) → t `suffix_of` s.
Lemma read_given_char_inv c s t : read_given_char c s = Some (tt, t) → s = c :: t.
Proof. destruct s as [|b s]; [done|]. simpl. destruct (Z.eqb_spec b c) as [->|]; [|done]. by intros [= ->]. Qed.
Lemma read_separator_consumes {A} c i (r : reader A) : consumes r → consumes (read_separator c i r).
Proof.
  intros Hr s a t. destruct i as [|i]; [apply Hr|]. unfold read_separator.
  destruct (read_given_char c s) as [[[] u]|] eqn:E; [|done]. apply read_given_char_inv in E as ->.
  intros H%Hr. by apply suffix_cons_r.
Qed.
Lemma read_digits_consumes radix bound md n acc s k v t :
  read_digits radix bound md n acc s = Some (k, v, t) → t `suffix_of` s.
Proof.
  revert n acc. induction s as [|b s IH]; intros n acc; simpl; [by intros [= <- <- <-]|].
  destruct (to_digit radix b); [|by intros [= <- <- <-]].
  do 2 (case_match; [done|]). intros Hs%IH. by apply suffix_cons_r.
Qed.
Lemma read_number_consumes radix bound md z : consumes (read_number radix bound md z).
Proof.
  intros s a t. unfold read_number.
  destruct (read_digits _ _ _ _ _ s) as [[[k v] u]|] eqn:E; [|done].
  apply read_digits_consumes in E. case_match; [done|]. case_match; [done|]. by intros [= <- <-].
Qed.
Lemma read_ipv4_consumes : consumes read_ipv4_addr.
Proof.
  intros s a t. unfold read_ipv4_addr.
  assert (∀ i, consumes (read_octet i)) as Ho.
  { intros i. apply read_separator_consumes, read_number_consumes. }
  destruct (read_octet 0 s) as [[? s1]|] eqn:E1; [|done].
  destruct (read_octet 1 s1) as [[? s2]|] eqn:E2; [|done].
  destruct (read_octet 2 s2) as [[? s3]|] eqn:E3; [|done].
  destruct (read_octet 3 s3) as [[? s4]|] eqn:E4; [|done]. intros [= <- <-].
  apply Ho in E1, E2, E3, E4. by etrans; [|etrans; [|etrans]].
Qed.
Lemma read_groups_consumes left i acc s g v4 t :
  read_groups left i acc s = (g, v4, t) → t `suffix_of` s.
Proof.
  revert i acc s. induction left as [|left IH]; intros i acc s; simpl; [by intros [= <- <- <-]|].
  set (v := match left with O => None | _ => _ end).
  assert (∀ l u, v = Some (l, u) → u `suffix_of` s) as Hv.
  { unfold v. destruct left; [done|]. apply read_separator_consumes, read_ipv4_consumes. }
  assert (match read_separator 58 i (read_number 16 65536 4 true) s with
    | Some (g, s) => read_groups left (S i) (acc ++ [g]) s | None => (acc, false, s) end = (g, v4, t) →
    t `suffix_of` s) as Hn.
  { destruct (read_separator 58 i (read_number 16 65536 4 true) s) as [[x u]|] eqn:E;
      [|by intros [= <- <- <-]].
    apply read_separator_consumes in E; [|apply read_number_consumes].
    intros H%IH. by etrans. }
  destruct v as [[[|? [|? [|? [|? [|? ?]]]]] u]|]; try exact Hn.
  intros [= <- <- <-]. by eapply Hv.
Qed.

(** Without a colon a text has at most one group, which is not an address. *)
Lemma read_groups_no_colon left i acc s g v4 t :
  58 ∉ s → i ≠ O → read_groups left i acc s = (g, v4, t) → g = acc ∧ v4 = false.
Proof.
  intros Hs Hi. destruct left as [|left]; simpl; [by intros [= <- <- <-]|].
  assert (∀ A (r : reader A), read_separator 58 i r s = None) as Hr.
  { intros A r. destruct i; [done|]. unfold read_separator.
    destruct (read_given_char 58 s) as [[[] u]|] eqn:E; [|done].
    apply read_given_char_inv in E as ->. set_solver. }
  rewrite !Hr. destruct left; by intros [= <- <- <-].
Qed.
Lemma suffix_not_in {A} (x : A) s t : t `suffix_of` s → x ∉ s → x ∉ t.
Proof. intros [k ->]. set_solver. Qed.
Lemma read_groups_first left s g v4 t :
  58 ∉ s → read_groups (S left) 0 [] s = (g, v4, t) → (length g <= 2)%nat.
Proof.
  intros Hs. cbn [read_groups]. set (v := match left with O => None | _ => _ end).
  assert (match read_separator 58 0 (read_number 16 65536 4 true) s with
    | Some (g, s) => read_groups left 1 ([] ++ [g]) s | None => ([], false, s) end = (g, v4, t) →
    (length g <= 2)%nat) as Hn.
  { destruct (read_separator 58 0 (read_number 16 65536 4 true) s) as [[x u]|] eqn:E;
      [|intros [= <- <- <-]; simpl; lia].
    apply read_separator_consumes in E; [|apply read_number_consumes].
    intros H. apply read_groups_no_colon in H as [-> _]; [simpl; lia| |done].
    by eapply suffix_not_in. }
  destruct v as [[[|? [|? [|? [|? [|? ?]]]]] u]|]; try exact Hn.
  intros [= <- <- <-]. simpl. lia.
Qed.
Lemma parse_ipv6_colon s a : parse_ipv6 s = Some a → 58 ∈ s.
Proof.
  intros H. destruct (decide (58 ∈ s)) as [|Hs]; [done|]. exfalso.
  unfold parse_ipv6, parse_with, read_ipv6_addr in H.
  destruct (read_groups 8 0 [] s) as [[g v4] t] eqn:E.
  pose proof (read_groups_consumes _ _ _ _ _ _ _ E) as Ht.
  apply read_groups_first in E; [|done].
  destruct (Nat.eqb_spec (length g) 8); [lia|]. destruct v4; [done|].
  destruct (read_given_char 58 t) as [[[] u]|] eqn:Er; [|done].
  apply read_given_char_inv in Er as ->. apply (suffix_not_in 58) in Ht; [set_solver|done].
Qed.
