(* ===== verification/Url.v ===== *)
(** * URLs (core/src/proto/url.rs) *)

From S2P Require Import Prelude Str Http Ip.

Record Url := {
  tls : bool;
  (** Host without IPv6 brackets, lowercased. *)
  host : bytes;
  port : Z;
  (** Path plus query, always starting with [/]. *)
  target : bytes;
  (** Value for the [Host] header. *)
  authority : bytes
}.

(** The host and the text of the port, if any. *)
Definition host_port (auth : bytes) : result (bytes * option bytes) bytes :=
  match strip_prefix (bs "[") auth with
  | Some v6 =>
      let! (addr, tail) := split_once 93 v6 orelse (Err (bs "invalid IPv6 host")) in
      match parse_ipv6 addr with
      | None => Err (bs "invalid IPv6 host")
      | Some _ =>
          match tail with
          | [] => Ok (addr, None)
          | t => let! p := strip_prefix (bs ":") t orelse (Err (bs "invalid URL port")) in
                 Ok (addr, Some p)
          end
      end
  | None =>
      match split_once 58 auth with
      | Some (h, p) => Ok (h, Some p)
      | None => Ok (auth, None)
      end
  end.

Definition HOST_CHARS : bytes := bs "-._".
Definition is_host_char (b : Z) : bool := is_alphanumeric b || contains HOST_CHARS b.

(** [p.parse::<u16>().ok().filter(|&p| p != 0)] on up to five digits. *)
Definition port_number (default : Z) (port : option bytes) : result Z bytes :=
  match port with
  | None => Ok default
  | Some p =>
      if negb (bool_decide (p = [])) && (zlen p <=? 5) && forallb is_digit p then
        let n := from_dec p in
        if (65535 <? n) || (n =? 0) then Err (bs "invalid URL port") else Ok n
      else Err (bs "invalid URL port")
  end.

Definition bracket (host : bytes) : bytes :=
  if contains host 58 then bs "[" ++ host ++ bs "]" else host.

Definition parse_url (input : bytes) : result Url bytes :=
  let! (scheme, rest) := split_once_str (bs "://") input orelse (Err (bs "invalid URL")) in
  let? tls :=
    (if bool_decide (to_lower scheme = bs "ws") then Ok false
     else if bool_decide (to_lower scheme = bs "wss") then Ok true
     else Err (bs "URL scheme must be ws or wss")) in
  if existsb (λ b, (b <=? 32) || (0x7f <=? b)) rest then Err (bs "URL contains invalid characters") else
  if contains rest 35 then Err (bs "URL must not contain a fragment") else
  let split := default (length rest) (find_byte (λ b, (b =? 47) || (b =? 63)) rest) in
  let auth := take split rest in
  let target := drop split rest in
  if contains auth 64 then Err (bs "URL must not contain credentials") else
  let? (host, port) := host_port auth in
  if bool_decide (host = []) then Err (bs "URL host is empty") else
  if negb (bool_decide (is_Some (strip_prefix (bs "[") auth))) && negb (forallb is_host_char host) then
    Err (bs "invalid URL host") else
  let dflt := if tls then 443 else 80 in
  let? port := port_number dflt port in
  let host := to_lower host in
  let authority := if port =? dflt then bracket host else bracket host ++ bs ":" ++ to_dec port in
  let target := match target with
                | [] => bs "/"
                | c :: _ => if c =? 63 then bs "/" ++ target else target
                end in
  Ok {| tls := tls; host := host; port := port; target := target; authority := authority |}.

Definition url_view (r : result Url bytes) : option (bool * bytes * Z * bytes * bytes) :=
  match r with
  | Ok u => Some (tls u, host u, port u, target u, authority u)
  | Err _ => None
  end.
Example parse_url_tests :
  url_view (parse_url (bs "wss://Example.com/chat?x=1")) =
    Some (true, bs "example.com", 443, bs "/chat?x=1", bs "example.com") ∧
  url_view (parse_url (bs "ws://127.0.0.1:8080")) =
    Some (false, bs "127.0.0.1", 8080, bs "/", bs "127.0.0.1:8080") ∧
  url_view (parse_url (bs "ws://[::1]:9000?a")) = Some (false, bs "::1", 9000, bs "/?a", bs "[::1]:9000") ∧
  Forall (λ s, url_view (parse_url (bs s)) = None)
    ["http://a"; "ws:/a"; "ws://"; "ws://a:0"; "ws://a:70000"; "ws://a:"; "ws://a#x"; "ws://u@a";
     "ws://a b"; "ws://[::1"; "ws://[zz]"; "ws://[::1]x"].
Proof. repeat split; [vm_compute; reflexivity..|]. repeat constructor; vm_compute; reflexivity. Qed.
