(* ===== verification/Handshake.v ===== *)
(** * The opening handshake (core/src/proto/handshake.rs and
      core/src/proto/handshake/request.rs)

    SHA-1 comes from the [ring] crate: it is a parameter of the definitions
    that use it. *)

From S2P Require Import Prelude Str Http Ip Url Base64.

Definition GUID : bytes := bs "258EAFA5-E914-47DA-95CA-C5AB0DC85B11".

(** ** Validating upgrade requests *)
Record Request := {
  r_target : bytes;
  r_headers : Headers;
  r_key : bytes;
  r_protocols : list bytes
}.

Definition REG_NAME_CHARS : bytes := bs "-._~!$&'()*+,;=%".
Definition is_reg_name_char (b : Z) : bool := is_alphanumeric b || contains REG_NAME_CHARS b.
Definition port_digits (p : bytes) : bool :=
  negb (bool_decide (p = [])) && (zlen p <=? 5) && forallb is_digit p.
Definition port_ok (port : bytes) : bool :=
  bool_decide (port = []) ||
  match strip_prefix (bs ":") port with Some p => port_digits p | None => false end.
Definition valid_host (host : bytes) : bool :=
  match strip_prefix (bs "[") host with
  | Some v6 =>
      match split_once 93 v6 with
      | Some (addr, tail) => bool_decide (is_Some (parse_ipv6 addr)) && port_ok tail
      | None => false
      end
  | None =>
      let i := default (length host) (find_byte (λ b, b =? 58) host) in
      let name := take i host in
      negb (bool_decide (name = [])) && forallb is_reg_name_char name && port_ok (drop i host)
  end.

Definition valid_target (target : bytes) : bool :=
  bool_decide (is_Some (strip_prefix (bs "/") target)) &&
  negb (existsb (λ b, (b <=? 32) || (0x7f <=? b) || (b =? 35)) target).

Definition has_body (headers : Headers) : bool :=
  negb (bool_decide (all headers (bs "transfer-encoding") = [])) ||
  existsb (λ v, negb (bool_decide (v = bs "0"))) (all headers (bs "content-length")).

Definition request (head : bytes) : result Request Z :=
  let! (start, headers) := parse head orelse (Err 400) in
  match split 32 start with
  | [method; target; version] =>
      if negb (bool_decide (version = bs "HTTP/1.1")) || negb (valid_target target) then Err 400 else
      if negb (bool_decide (method = bs "GET")) then Err 405 else
      if negb (match one headers (bs "host") with Some h => valid_host h | None => false end) then Err 400 else
      if (1 <? zlen (all headers (bs "origin"))) then Err 400 else
      if has_body headers then Err 400 else
      if negb (has_token headers (bs "upgrade") (bs "websocket")) then Err 426 else
      if negb (has_token headers (bs "connection") (bs "upgrade")) then Err 400 else
      if negb (bool_decide (one headers (bs "sec-websocket-version") = Some (bs "13"))) then Err 426 else
      let! key := one headers (bs "sec-websocket-key") orelse (Err 400) in
      if negb (zlen key =? 24) ||
         match b64_decode key with Some k => negb (zlen k =? 16) | None => true end then Err 400 else
      let! protocols := tokens headers (bs "sec-websocket-protocol") orelse (Err 400) in
      Ok {| r_target := target; r_headers := headers; r_key := key; r_protocols := protocols |}
  | _ => Err 400
  end.

(** ** Responses without SHA-1 *)
Definition reason (status : Z) : bytes :=
  bs match status with
     | 400 => "Bad Request"
     | 401 => "Unauthorized"
     | 403 => "Forbidden"
     | 404 => "Not Found"
     | 405 => "Method Not Allowed"
     | 408 => "Request Timeout"
     | 426 => "Upgrade Required"
     | 429 => "Too Many Requests"
     | 431 => "Request Header Fields Too Large"
     | 500 => "Internal Server Error"
     | 503 => "Service Unavailable"
     | _ => "Error"
     end.
Definition reject (status : Z) : bytes :=
  let extra :=
    match status with
    | 405 => bs "Allow: GET" ++ CRLF
    | 426 => bs "Upgrade: websocket" ++ CRLF ++ bs "Sec-WebSocket-Version: 13" ++ CRLF
    | _ => []
    end in
  bs "HTTP/1.1 " ++ to_dec status ++ bs " " ++ reason status ++ CRLF ++
  bs "Connection: close" ++ CRLF ++ bs "Content-Length: 0" ++ CRLF ++ extra ++ CRLF.

Definition client_request (url : Url) (key : bytes) (protocols : list bytes) (headers : Headers) : bytes :=
  let out :=
    bs "GET " ++ target url ++ bs " HTTP/1.1" ++ CRLF ++ bs "Host: " ++ authority url ++ CRLF ++
    bs "Upgrade: websocket" ++ CRLF ++ bs "Connection: Upgrade" ++ CRLF ++
    bs "Sec-WebSocket-Key: " ++ key ++ CRLF ++ bs "Sec-WebSocket-Version: 13" ++ CRLF in
  let out :=
    if bool_decide (protocols = []) then out
    else out ++ bs "Sec-WebSocket-Protocol: " ++ join (bs ", ") protocols ++ CRLF in
  let out := foldl (λ out h, out ++ h.1 ++ bs ": " ++ h.2 ++ CRLF) out headers in
  out ++ CRLF.

Section Sha1.
(** [digest(&SHA1_FOR_LEGACY_USE_ONLY, _)] *)
Variable sha1 : bytes → bytes.

Definition accept_key (key : bytes) : bytes := b64_encode (sha1 (key ++ GUID)).

Definition switching (key : bytes) (protocol : option bytes) : bytes :=
  let protocol :=
    match protocol with
    | Some p => bs "Sec-WebSocket-Protocol: " ++ p ++ CRLF
    | None => []
    end in
  bs "HTTP/1.1 101 Switching Protocols" ++ CRLF ++ bs "Upgrade: websocket" ++ CRLF ++
  bs "Connection: Upgrade" ++ CRLF ++ bs "Sec-WebSocket-Accept: " ++ accept_key key ++ CRLF ++
  protocol ++ CRLF.

Definition response (head key : bytes) (protocols : list bytes) : result (option bytes) bytes :=
  let! (start, headers) := parse head orelse (Err (bs "invalid handshake response")) in
  match splitn3 32 start with
  | [version; status; _] =>
      if negb (bool_decide (version = bs "HTTP/1.1") && (zlen status =? 3) && forallb is_digit status) then
        Err (bs "invalid handshake response") else
      if negb (bool_decide (status = bs "101")) then
        Err (bs "unexpected server response: " ++ status) else
      if negb (has_token headers (bs "upgrade") (bs "websocket")) ||
         negb (has_token headers (bs "connection") (bs "upgrade")) then
        Err (bs "invalid upgrade headers") else
      if negb (bool_decide (one headers (bs "sec-websocket-accept") = Some (accept_key key))) then
        Err (bs "invalid Sec-WebSocket-Accept") else
      if negb (bool_decide (all headers (bs "sec-websocket-extensions") = [])) then
        Err (bs "server sent an extension that was not offered") else
      match all headers (bs "sec-websocket-protocol") with
      | [] => Ok None
      | [p] => if bool_decide (p ∈ protocols) then Ok (Some p)
               else Err (bs "server sent a subprotocol that was not offered")
      | _ => Err (bs "server sent a subprotocol that was not offered")
      end
  | _ => Err (bs "invalid handshake response")
  end.
End Sha1.
