(* ===== verification/UrlFacts.v ===== *)
(** * What a parsed URL guarantees

    The request target and the authority of a parsed URL are exactly what the
    server's checks on the request line and on [Host] accept, and printing a
    parsed URL gives a URL that parses to the same value. *)

From S2P Require Import Prelude Str Http Ip Url Base64 Handshake.

Definition visible (b : Z) : Prop := 33 <= b < 0x7f.

(** ** The steps of [parse_url] *)
Record url_parts := { u_rest : bytes; u_auth : bytes; u_tail : bytes; u_host : bytes; u_port : option bytes }.
Definition url_dflt (u : Url) : Z := if tls u then 443 else 80.
Definition parts_of (u : Url) (q : url_parts) : Prop :=
  Forall visible (u_rest q) ∧ 35 ∉ u_rest q ∧ u_rest q = u_auth q ++ u_tail q ∧
  Forall (λ b, b ≠ 47 ∧ b ≠ 63) (u_auth q) ∧
  (match u_tail q with [] => True | b :: _ => b = 47 ∨ b = 63 end) ∧
  64 ∉ u_auth q ∧ host_port (u_auth q) = Ok (u_host q, u_port q) ∧ u_host q ≠ [] ∧
  (strip_prefix (bs "[") (u_auth q) = None → forallb is_host_char (u_host q) = true) ∧
  port_number (url_dflt u) (u_port q) = Ok (port u) ∧ host u = to_lower (u_host q) ∧
  authority u = (if port u =? url_dflt u then bracket (host u) else bracket (host u) ++ bs ":" ++ to_dec (port u)) ∧
  target u = (match u_tail q with
              | [] => bs "/"
              | c :: _ => if c =? 63 then bs "/" ++ u_tail q else u_tail q
              end).

Lemma find_byte_split (p : Z → bool) s i :
  default (length s) (find_byte p s) = i →
  Forall (λ b, p b = false) (take i s) ∧ (match drop i s with [] => True | b :: _ => p b = true end).
Proof.
  destruct (find_byte p s) as [j|] eqn:E; simpl; intros <-.
  - apply find_byte_Some in E as (a & b & t & -> & <- & Hb & Ha).
    by rewrite take_app_length, drop_app_length.
  - apply find_byte_None in E. rewrite firstn_all. split; [done|]. by rewrite drop_all.
Qed.

Lemma parse_url_parts input u : parse_url input = Ok u → ∃ q, parts_of u q.
Proof.
  unfold parse_url. destruct (split_once_str _ input) as [[scheme rest]|]; [|done].
  set (scheme_ok := if bool_decide (to_lower scheme = bs "ws") then _ else _).
  destruct scheme_ok as [t|]; [|done].
  destruct (existsb _ rest) eqn:Hvis; [done|].
  destruct (contains rest 35) eqn:Hfrag; [done|].
  set (i := default (length rest) _). destruct (find_byte_split _ rest i eq_refl) as [Ha Ht].
  destruct (contains (take i rest) 64) eqn:Hat; [done|].
  destruct (host_port (take i rest)) as [[h p]|] eqn:Hhp; [|done].
  case_bool_decide as Hne; [done|].
  destruct (negb (bool_decide (is_Some _)) && negb _) eqn:Hh; [done|].
  destruct (port_number _ p) as [n|] eqn:Hp; [|done]. intros [= <-].
  exists {| u_rest := rest; u_auth := take i rest; u_tail := drop i rest; u_host := h; u_port := p |}.
  unfold parts_of, url_dflt; cbn [u_rest u_auth u_tail u_host u_port tls port host authority target].
  assert (Forall visible rest) as Hv.
  { apply Forall_forall. intros b Hb. apply not_true_iff_false in Hvis. unfold visible.
    destruct (decide (33 <= b < 127)); [done|]. destruct Hvis. apply existsb_exists.
    exists b. split; [by apply list_elem_of_In|lia]. }
  unfold contains in Hfrag, Hat. apply bool_decide_eq_false in Hfrag, Hat.
  split; [done|]. split; [done|]. split; [by rewrite take_drop|].
  split; [eapply Forall_impl; [done|]; intros b Hb; simpl in *; lia|].
  split; [destruct (drop i rest); [done|lia]|].
  split; [done|]. split; [done|]. split; [done|]. split; [|done].
  intros E. rewrite E in Hh. cbn in Hh. by destruct (forallb is_host_char h).
Qed.

(** ** Hosts *)
Lemma host_char_facts b : is_host_char b = true →
  is_reg_name_char (lower b) = true ∧ is_host_char (lower b) = true ∧ visible (lower b) ∧
  lower b ≠ 58 ∧ lower b ≠ 91 ∧ lower b ≠ 47 ∧ lower b ≠ 63 ∧ lower b ≠ 35 ∧ lower b ≠ 64.
Proof.
  intros Hb. assert (is_byte b) as Hby.
  { unfold is_host_char, is_alphanumeric, is_digit, is_upper, is_lower, is_byte, contains in *.
    destruct (bool_decide_reflect (b ∈ HOST_CHARS)) as [Hin|]; [|lia].
    assert (Forall is_byte HOST_CHARS) as Hall by by_decide. rewrite Forall_forall in Hall. by apply Hall. }
  set (P := λ b, negb (is_host_char b) ||
    (is_reg_name_char (lower b) && is_host_char (lower b) && (33 <=? lower b) && (lower b <? 0x7f) &&
     negb (existsb (Z.eqb (lower b)) [58; 91; 47; 63; 35; 64]))).
  assert (P b = true) as HP by (apply (all_bytes_spec P); [by vm_compute|done]).
  unfold P in HP. rewrite Hb in HP. cbn [negb orb existsb] in HP.
  destruct (is_reg_name_char (lower b)), (is_host_char (lower b)); cbn in HP; try done.
  unfold visible. lia.
Qed.
(** The two forms of an authority. *)
Definition plain_host (h : bytes) : Prop := h ≠ [] ∧ Forall (λ b, is_host_char b = true) h.
Definition v6_host (h : bytes) : Prop := is_Some (parse_ipv6 h) ∧ 93 ∉ h.
Lemma host_port_forms auth h p :
  host_port auth = Ok (h, p) → h ≠ [] →
  (strip_prefix (bs "[") auth = None → forallb is_host_char h = true) →
  (plain_host h ∧ auth = h ++ (match p with Some p => 58 :: p | None => [] end)) ∨
  (v6_host h ∧ auth = 91 :: h ++ 93 :: (match p with Some p => 58 :: p | None => [] end)).
Proof.
  unfold host_port. destruct (strip_prefix (bs "[") auth) as [v6|] eqn:E.
  - apply strip_prefix_Some in E as ->. destruct (split_once 93 v6) as [[addr tail]|] eqn:Es; [|done].
    apply split_once_Some in Es as [-> Hn]. destruct (parse_ipv6 addr) eqn:E6; [|done].
    intros Ht _ _. right. destruct tail as [|c tail]; [simplify_eq; split; [by split|done]|].
    destruct (strip_prefix (bs ":") (c :: tail)) as [p'|] eqn:Ep; [|done].
    apply strip_prefix_Some in Ep. simplify_eq. split; [by split|]. by rewrite Ep.
  - intros Hs Hne Hh. specialize (Hh eq_refl). left.
    destruct (split_once 58 auth) as [[h' p']|] eqn:Es; simplify_eq.
    + apply split_once_Some in Es as [-> _]. split; [|done]. split; [done|]. by apply forallb_Forall.
    + rewrite app_nil_r. split; [|done]. split; [done|]. by apply forallb_Forall.
Qed.

(** ** What every parsed URL satisfies *)
Definition host_byte (b : Z) : Prop :=
  visible b ∧ b ≠ 47 ∧ b ≠ 63 ∧ b ≠ 35 ∧ b ≠ 64 ∧ b ≠ 93 ∧ lower b = b.
Record wf_url (u : Url) : Prop := {
  wf_host : plain_host (host u) ∨ v6_host (host u);
  wf_host_bytes : Forall host_byte (host u);
  wf_port : 1 <= port u <= 65535;
  wf_authority : authority u =
    (if port u =? url_dflt u then bracket (host u) else bracket (host u) ++ bs ":" ++ to_dec (port u));
  wf_target : ∃ t, target u = 47 :: t;
  wf_target_bytes : Forall (λ b, visible b ∧ b ≠ 35) (target u)
}.

Lemma lower_fix b c : lower b = c → is_upper c = false → is_lower c = false → b = c.
Proof. intros H Hu Hl. pose proof (lower_eqb b c Hu Hl). lia. Qed.
Lemma lower_visible b : visible b → visible (lower b).
Proof. unfold visible, lower, is_upper. case_match; lia. Qed.
Lemma lower_host_byte b : visible b → b ≠ 47 → b ≠ 63 → b ≠ 35 → b ≠ 64 → b ≠ 93 → host_byte (lower b).
Proof.
  intros Hv. unfold host_byte. intros. rewrite lower_idem. split_and!; try done; [by apply lower_visible|..];
    intros E; apply lower_fix in E; done.
Qed.
Lemma plain_host_no_colon h : plain_host h → 58 ∉ h ∧ strip_prefix [91] h = None ∧ Forall (λ b, b ≠ 91 ∧ b ≠ 93) h.
Proof.
  intros [Hne Hh]. split_and!.
  - intros Hin. rewrite Forall_forall in Hh. by specialize (Hh _ Hin).
  - rewrite strip_prefix_char. destruct h as [|b h]; [done|]. apply Forall_cons in Hh as [Hb _].
    destruct (Z.eqb_spec b 91); [by subst|done].
  - eapply Forall_impl; [exact Hh|]. intros b Hb. split; intros ->; done.
Qed.
Lemma plain_host_lower h : plain_host h → plain_host (to_lower h).
Proof.
  intros [Hne Hh]. split; [by destruct h|]. apply Forall_map. eapply Forall_impl; [exact Hh|].
  intros b Hb. by apply host_char_facts in Hb as (_ & H & _).
Qed.
Lemma v6_host_lower h : v6_host h → v6_host (to_lower h).
Proof.
  intros [Hp Hn]. split; [by rewrite parse_ipv6_lower|].
  intros (b & Hb & Hin)%list_elem_of_fmap. symmetry in Hb. apply lower_fix in Hb; [by subst|done..].
Qed.
Lemma bracket_plain h : plain_host h → bracket h = h.
Proof. intros (H & _)%plain_host_no_colon. unfold bracket, contains. by rewrite bool_decide_false. Qed.
Lemma bracket_v6 h : v6_host h → bracket h = 91 :: h ++ [93].
Proof. intros [[a H] _]. unfold bracket, contains. by rewrite bool_decide_true by (by eapply parse_ipv6_colon). Qed.

Lemma port_number_range d p n : 1 <= d <= 65535 → port_number d p = Ok n → 1 <= n <= 65535.
Proof.
  intros Hd. unfold port_number. destruct p as [p|]; [|by intros [= <-]].
  destruct (_ && _) eqn:E; [|done]. destruct (_ || _) eqn:E2; [done|]. intros [= <-].
  enough (0 <= from_dec p) by lia. clear E2. apply andb_true_iff in E as [_ E%forallb_Forall].
  unfold from_dec. assert (∀ n, 0 <= n → 0 <= foldl (λ n b, n * 10 + (b - 48)) n p) as H; [|by apply H].
  induction E as [|b p Hb _ IH]; [done|]. intros m Hm. simpl. apply IH. unfold is_digit in Hb. lia.
Qed.

Lemma parse_url_wf input u : parse_url input = Ok u → wf_url u.
Proof.
  intros (q & Hv & Hfr & Hr & Hauth & Htail & Hat & Hhp & Hne & Hh & Hp & Hhost & Hau & Htg)%parse_url_parts.
  assert (Forall visible (u_auth q) ∧ Forall visible (u_tail q)) as [Hva Hvt]
    by (rewrite Hr in Hv; by apply Forall_app in Hv).
  assert (35 ∉ u_auth q ∧ 35 ∉ u_tail q) as [Hfa Hft] by (rewrite Hr in Hfr; set_solver).
  destruct (host_port_forms _ _ _ Hhp Hne Hh) as [[Hpl Ea]|[Hv6 Ea]].
  all: assert (Forall host_byte (host u)) as Hhb.
  1, 3: rewrite Hhost; apply Forall_map, Forall_forall; intros b Hb;
     assert (b ∈ u_auth q) as Hba by (rewrite Ea; set_solver);
     rewrite Forall_forall in Hva, Hauth; pose proof (Hva _ Hba); destruct (Hauth _ Hba);
     apply lower_host_byte; try done; try (by intros ->).
  1: { apply plain_host_no_colon in Hpl as (_ & _ & Hx). rewrite Forall_forall in Hx. by apply Hx. }
  1: { intros ->. by destruct Hv6. }
  all: split; try done;
    [rewrite Hhost; (by left; apply plain_host_lower) || (by right; apply v6_host_lower)
    |eapply port_number_range; [|exact Hp]; unfold url_dflt; destruct (tls u); lia
    |..].
  all: rewrite Htg; change (bs "/") with [47]; cbn [app].
  all: destruct (u_tail q) as [|c t]; [by eexists || (repeat constructor; unfold visible; lia)|].
  all: destruct (Z.eqb_spec c 63); try (by eexists).
  all: try (destruct Htail; [subst c; by eexists|done]).
  all: assert (Forall (λ b, visible b ∧ b ≠ 35) (c :: t)) by
      (apply Forall_forall; intros b Hb; rewrite Forall_forall in Hvt; split; [by apply Hvt|by intros ->]).
  all: try done. all: constructor; [unfold visible; lia|done].
Qed.

(** ** The authority: the bracketed host and the port, when it is not the default *)
Definition port_text (u : Url) : bytes := if port u =? url_dflt u then [] else 58 :: to_dec (port u).
Definition scheme_text (u : Url) : bytes := if tls u then bs "wss" else bs "ws".
(** A URL value as text. *)
Definition print_url (u : Url) : bytes := scheme_text u ++ bs "://" ++ authority u ++ target u.

Section Wf.
Context (u : Url) (Hwf : wf_url u).

Lemma authority_text : authority u = bracket (host u) ++ port_text u.
Proof. rewrite (wf_authority u Hwf). unfold port_text. destruct (port u =? url_dflt u); [by rewrite app_nil_r|done]. Qed.
Lemma port_dec :
  from_dec (to_dec (port u)) = port u ∧ forallb is_digit (to_dec (port u)) = true ∧
  to_dec (port u) ≠ [] ∧ (length (to_dec (port u)) <= 5)%nat.
Proof. destruct Hwf. apply to_dec_u16. lia. Qed.
Lemma port_text_ok : port_ok (port_text u) = true.
Proof.
  unfold port_ok, port_text. destruct (_ =? _); [done|]. change (bs ":") with [58].
  rewrite strip_prefix_char. simpl. destruct port_dec as (_ & Hd & Hne & Hl).
  unfold port_digits, zlen. rewrite Hd, bool_decide_false by done. simpl. lia.
Qed.
Lemma port_text_chars : Forall (λ b, b = 58 ∨ is_digit b = true) (port_text u).
Proof.
  unfold port_text. destruct (port u =? url_dflt u); [done|]. constructor; [by left|]. destruct port_dec as (_ & Hd & _).
  apply forallb_Forall in Hd. eapply Forall_impl; [exact Hd|]. by right.
Qed.
Lemma find_colon h : 58 ∉ h → default (length (h ++ port_text u)) (find_byte (λ b, b =? 58) (h ++ port_text u)) = length h.
Proof.
  intros Hn. assert (Forall (λ b, (b =? 58) = false) h) as Hf.
  { apply Forall_forall. intros b Hb. apply Z.eqb_neq. by intros ->. }
  unfold port_text. destruct (port u =? url_dflt u).
  - rewrite app_nil_r. by apply find_byte_None in Hf as ->.
  - assert (find_byte (λ b, b =? 58) (h ++ 58 :: to_dec (port u)) = Some (length h)) as ->; [|done].
    apply find_byte_Some. by exists h, 58, (to_dec (port u)).
Qed.
Lemma strip_bracket h t : plain_host h → strip_prefix (bs "[") (h ++ t) = None.
Proof.
  intros [Hne H]. change (bs "[") with [91]. rewrite strip_prefix_char. destruct h as [|b h]; [done|].
  apply Forall_cons in H as [Hb _]. simpl. destruct (Z.eqb_spec b 91); [by subst|done].
Qed.

Lemma wf_valid_host : valid_host (authority u) = true.
Proof.
  rewrite authority_text. unfold valid_host. destruct (wf_host u Hwf) as [Hp|Hv].
  - rewrite (bracket_plain _ Hp), (strip_bracket _ _ Hp). destruct (plain_host_no_colon _ Hp) as [Hn _].
    rewrite (find_colon _ Hn), take_app_length, drop_app_length, port_text_ok.
    destruct Hp as [Hne Hp]. rewrite bool_decide_false by done. simpl. rewrite andb_true_r.
    apply forallb_Forall, Forall_forall. intros b Hb.
    pose proof (wf_host_bytes u Hwf) as Hl. rewrite Forall_forall in Hp, Hl.
    destruct (host_char_facts b (Hp _ Hb)) as [H _]. destruct (Hl _ Hb) as (_ & _ & _ & _ & _ & _ & E). by rewrite <-E.
  - rewrite (bracket_v6 _ Hv). cbn [app]. rewrite <-app_assoc. cbn [app]. change (bs "[") with [91].
    rewrite strip_prefix_char. simpl. destruct Hv as [H6 Hn].
    by rewrite split_once_app, port_text_ok, bool_decide_true.
Qed.
Lemma wf_valid_target : valid_target (target u) = true.
Proof.
  unfold valid_target. destruct (wf_target u Hwf) as [t Ht]. change (bs "/") with [47].
  rewrite strip_prefix_char, Ht. simpl.
  rewrite negb_true_iff. apply not_true_iff_false. intros (b & Hb & Hbad)%existsb_exists.
  pose proof (wf_target_bytes u Hwf) as H. rewrite Ht, Forall_forall in H.
  apply list_elem_of_In in Hb. destruct (H b) as [? ?].
  { by right. }
  unfold visible in *. lia.
Qed.
Lemma authority_bytes : Forall (λ b, visible b ∧ b ≠ 47 ∧ b ≠ 63 ∧ b ≠ 35 ∧ b ≠ 64) (authority u).
Proof.
  rewrite authority_text. apply Forall_app. split.
  - assert (Forall (λ b, visible b ∧ b ≠ 47 ∧ b ≠ 63 ∧ b ≠ 35 ∧ b ≠ 64) (host u)) as H.
    { eapply Forall_impl; [exact (wf_host_bytes u Hwf)|]. unfold host_byte. tauto. }
    unfold bracket. case_match; [|done]. change (bs "[") with [91]. change (bs "]") with [93].
    apply Forall_app. split; [by_decide || (repeat constructor; unfold visible; lia)|].
    apply Forall_app. split; [done|]. repeat constructor; unfold visible; lia.
  - eapply Forall_impl; [exact port_text_chars|]. unfold visible, is_digit. intros b. simpl. lia.
Qed.

Lemma wf_host_port : host_port (authority u) = Ok (host u, if port u =? url_dflt u then None else Some (to_dec (port u))).
Proof.
  rewrite authority_text. unfold host_port. destruct (wf_host u Hwf) as [Hp|Hv].
  - rewrite (bracket_plain _ Hp), (strip_bracket _ _ Hp). destruct (plain_host_no_colon _ Hp) as [Hn _].
    unfold port_text. destruct (port u =? url_dflt u).
    + rewrite app_nil_r. by apply split_once_None in Hn as ->.
    + by rewrite split_once_app.
  - rewrite (bracket_v6 _ Hv). cbn [app]. rewrite <-app_assoc. cbn [app]. change (bs "[") with [91].
    rewrite strip_prefix_char. simpl. destruct Hv as [[g H6] Hn]. rewrite split_once_app, H6 by done.
    unfold port_text. destruct (port u =? url_dflt u); [done|]. change (bs ":") with [58]. by rewrite strip_prefix_char.
Qed.
Lemma wf_port_number :
  port_number (url_dflt u) (if port u =? url_dflt u then None else Some (to_dec (port u))) = Ok (port u).
Proof.
  destruct (Z.eqb_spec (port u) (url_dflt u)) as [->|]; [done|]. destruct port_dec as (Hf & Hd & Hne & Hl).
  unfold port_number, zlen. rewrite Hd, Hf, bool_decide_false by done. simpl.
  destruct (Z.leb_spec (Z.of_nat (length (to_dec (port u)))) 5); [|lia]. simpl.
  pose proof (wf_port u Hwf). by destruct (Z.ltb_spec 65535 (port u)), (Z.eqb_spec (port u) 0); try lia.
Qed.
Lemma split_scheme X : split_once_str (bs "://") (scheme_text u ++ bs "://" ++ X) = Some (scheme_text u, X).
Proof. unfold scheme_text. by destruct (tls u). Qed.

Lemma wf_print_parse : parse_url (print_url u) = Ok u.
Proof.
  unfold parse_url, print_url. rewrite split_scheme.
  assert ((if bool_decide (to_lower (scheme_text u) = bs "ws") then Ok false
           else if bool_decide (to_lower (scheme_text u) = bs "wss") then Ok true
           else Err (bs "URL scheme must be ws or wss")) = Ok (E:=bytes) (tls u)) as -> by
    (unfold scheme_text; by destruct (tls u)).
  pose proof authority_bytes as Ha. pose proof (wf_target_bytes u Hwf) as Ht.
  rewrite Forall_forall in Ha, Ht.
  assert (∀ b, b ∈ authority u ++ target u → visible b ∧ b ≠ 35) as Hr.
  { intros b [Hb|Hb]%elem_of_app; [destruct (Ha _ Hb) as (? & ? & ? & ? & ?); done|by apply Ht]. }
  destruct (existsb _ _) eqn:E.
  { apply existsb_exists in E as (b & Hb%list_elem_of_In & Hbad). apply Hr in Hb as [? _]. unfold visible in *. lia. }
  unfold contains. rewrite bool_decide_false by (intros Hb; by apply Hr in Hb as [_ ?]).
  destruct (wf_target u Hwf) as [t Etg].
  assert (find_byte (λ b, (b =? 47) || (b =? 63)) (authority u ++ target u) = Some (length (authority u))) as ->.
  { apply find_byte_Some. exists (authority u), 47, t. rewrite Etg. split_and!; try done.
    apply Forall_forall. intros b Hb. destruct (Ha _ Hb) as (_ & ? & ? & _). lia. }
  change (default (length (authority u ++ target u)) (Some (length (authority u)))) with (length (authority u)).
  rewrite take_app_length, drop_app_length, bool_decide_false by (intros Hb; by apply Ha in Hb as (_ & _ & _ & _ & ?)).
  rewrite wf_host_port. rewrite bool_decide_false by
    (destruct (wf_host u Hwf) as [[? _]|[[g Hg] _]]; [done|intros E'; by rewrite E' in Hg]).
  change (if tls u then 443 else 80) with (url_dflt u).
  assert (negb (bool_decide (is_Some (strip_prefix (bs "[") (authority u)))) && negb (forallb is_host_char (host u)) = false) as ->.
  { rewrite authority_text. destruct (wf_host u Hwf) as [Hp|Hv].
    - destruct Hp as [_ Hp%forallb_Forall]. rewrite Hp. by rewrite andb_false_r.
    - rewrite (bracket_v6 _ Hv). cbn [app]. change (bs "[") with [91]. by rewrite strip_prefix_char. }
  rewrite wf_port_number.
  assert (to_lower (host u) = host u) as ->.
  { unfold to_lower. pose proof (wf_host_bytes u Hwf) as H. rewrite <-(list_fmap_id (host u)) at 2.
    apply list_fmap_ext. intros i b Hb. apply list_elem_of_lookup_2 in Hb. rewrite Forall_forall in H.
    by destruct (H _ Hb) as (_ & _ & _ & _ & _ & _ & ?). }
  rewrite <-(wf_authority u Hwf), Etg. simpl. rewrite <-Etg. by destruct u.
Qed.
End Wf.

(** C9: A URL the parser accepts yields a request target and an authority that
    the server's own checks accept, and a port between 1 and 65535; and it is
    canonical: writing the parsed URL out again and parsing that text gives
    the same value. *)
Theorem parse_url_canonical input u :
  parse_url input = Ok u →
  valid_target (target u) = true ∧ valid_host (authority u) = true ∧ 1 <= port u <= 65535 ∧
  parse_url (print_url u) = Ok u.
Proof.
  intros Hwf%parse_url_wf.
  split; [by apply wf_valid_target|]. split; [by apply wf_valid_host|].
  split; [by apply wf_port|by apply wf_print_parse].
Qed.
Definition sample_input : bytes := bs "WSS://[2001:DB8::1]:8443?q=1".
Definition sample_url : Url :=
  {| tls := true; host := bs "2001:db8::1"; port := 8443; target := bs "/?q=1"; authority := bs "[2001:db8::1]:8443" |}.
Lemma parse_url_canonical_witness :
  parse_url sample_input = Ok sample_url ∧ parse_url (print_url sample_url) = Ok sample_url.
Proof.
  assert (parse_url sample_input = Ok sample_url) as H by (vm_compute; reflexivity).
  split; [exact H|]. exact (proj2 (proj2 (proj2 (parse_url_canonical _ _ H)))).
Defined.
