(* ===== verification/HandshakeFacts.v ===== *)
(** * The two ends of the opening handshake agree

    The request a client writes is a head the server's [request] accepts with
    the target, the key and the subprotocols the client chose, and the answer
    [switching] writes is one [response] accepts.  SHA-1 stays a parameter. *)

From S2P Require Import Prelude Utf8 Str Http Ip Url Base64 Handshake UrlFacts.

(** ** Text without blanks *)
Lemma visible_trimmed s : Forall visible s → trimmed s.
Proof.
  intros H. rewrite Forall_forall in H. split.
  - destruct s as [|b s]; [done|]. destruct (H b); [by left|]. unfold is_ws. lia.
  - destruct (rev s) as [|b t] eqn:E; [done|]. destruct (H b); [|unfold is_ws; lia].
    apply list_elem_of_In, in_rev. rewrite E. by left.
Qed.
Lemma visible_value s : Forall visible s → is_value s = true.
Proof.
  intros H. apply forallb_Forall. eapply Forall_impl; [exact H|]. unfold visible, is_value_char. intros b Hb. lia.
Qed.
Lemma visible_utf8 s : Forall visible s → is_utf8 s = true.
Proof. intros H. apply is_utf8_ascii. eapply Forall_impl; [exact H|]. unfold visible. intros b Hb. simpl. lia. Qed.
Lemma visible_trim s : Forall visible s → trim s = s.
Proof. intros H. by apply trim_id, visible_trimmed. Qed.
Lemma token_visible s : is_token s = true → Forall visible s.
Proof.
  intros [_ H]%is_token_Forall. eapply Forall_impl; [exact H|]. intros b Hb%token_chars. by destruct Hb.
Qed.

Lemma encode_chunk_visible len a b c : Forall visible (encode_chunk len a b c).
Proof.
  assert (Forall visible (PAD :: ALPHABET)) as Hall by (apply Forall_forall; unfold visible;
    apply (Forall_forall (λ b, 33 <= b < 127)); by_decide).
  apply Forall_cons in Hall as [Hp Ha]. unfold encode_chunk. apply Forall_map, Forall_forall. intros i _. cbv beta.
  destruct (_ <=? _); [|done]. rewrite Forall_forall in Ha. apply Ha, list_elem_of_In, nth_In.
  set (v := Z.land _ 63). assert (0 <= v < 64); [|change (length ALPHABET) with 64%nat; lia].
  unfold v. change 63 with (Z.ones 6). rewrite Z.land_ones by lia. apply Z.mod_pos_bound. lia.
Qed.
Lemma b64_encode_visible x : Forall visible (b64_encode x).
Proof.
  induction x as [|a|a b|a b c x IH] using list_ind3; [done|apply encode_chunk_visible..|].
  rewrite encode_triple. apply Forall_app. split; [apply encode_chunk_visible|done].
Qed.

(** ** Looking headers up *)
Lemma all_app hs hs' n : all (hs ++ hs') n = all hs n ++ all hs' n.
Proof. unfold all. by rewrite (filter_app _ hs hs'), map_app. Qed.
(** What the client's own checks ensure of an extra header. *)
Definition extra_ok (h : bytes * bytes) : Prop := check_header h.1 h.2 = Ok tt ∧ is_utf8 h.2 = true.
Lemma extra_ok_inv h : extra_ok h → sendable h ∧ to_lower h.1 ∉ RESERVED ∧ is_utf8 h.2 = true.
Proof.
  intros [H Hu]. unfold check_header in H. destruct (is_token h.1) eqn:Hn; [|done].
  destruct (is_value h.2) eqn:Hv; [|done]. cbn [negb orb] in H. by case_bool_decide.
Qed.
Lemma all_extra hs n : Forall extra_ok hs → n ∈ RESERVED → all (map received hs) n = [].
Proof.
  intros H Hn. unfold all. induction H as [|h hs Hh H IH]; [done|]. simpl map.
  apply extra_ok_inv in Hh as (_ & Hr & _). rewrite filter_cons_False; [done|]. cbn. by intros <-.
Qed.

(** ** Subprotocol lists *)
Lemma join_comma p ps : join (bs ", ") (p :: ps) = join [44] (p :: map (cons 32) ps).
Proof.
  revert p. induction ps as [|q ps IH]; intros p; [done|].
  change (join (bs ", ") (p :: q :: ps)) with (p ++ [44; 32] ++ join (bs ", ") (q :: ps)).
  rewrite IH. simpl map. destruct ps; done.
Qed.
Lemma tokens_loop_ok items ps seen out :
  map trim items = ps → Forall (λ p, is_token p = true) ps → NoDup ps → (∀ p, p ∈ ps → p ∉ seen) →
  tokens_loop items seen out = Some (out ++ ps).
Proof.
  intros <-. revert seen out. induction items as [|i items IH]; intros seen out Ht Hd Hs; simpl; [by rewrite app_nil_r|].
  apply Forall_cons in Ht as [Hi Ht]. apply NoDup_cons in Hd as [Hni Hd]. rewrite Hi. cbn [negb orb].
  rewrite bool_decide_false by (apply Hs; by left). rewrite IH; [by rewrite <-app_assoc|done|done|].
  intros p Hp. apply not_elem_of_cons. split; [by intros ->|]. apply Hs. by right.
Qed.
Lemma split_protocols ps :
  ps ≠ [] → Forall (λ p, is_token p = true) ps → map trim (split 44 (join (bs ", ") ps)) = ps.
Proof.
  intros Hne H. destruct ps as [|p ps]; [done|]. rewrite join_comma.
  rewrite split_join; [|done|].
  - simpl. apply Forall_cons in H as [Hp H]. f_equal; [by apply trim_id, token_trimmed|].
    rewrite map_map. rewrite <-(list_fmap_id ps) at 2. apply list_fmap_ext. intros i q Hq.
    rewrite trim_cons by done. apply trim_id, token_trimmed.
    rewrite Forall_forall in H. apply H. by eapply list_elem_of_lookup_2.
  - apply Forall_cons in H as [Hp H]. apply Forall_cons_2; [by eapply token_not_in|].
    apply Forall_map. eapply Forall_impl; [exact H|]. intros q Hq. simpl. apply not_elem_of_cons.
    split; [done|]. by eapply token_not_in.
Qed.
Lemma join_last ps : ps ≠ [] → Forall (λ p, is_token p = true) ps →
  ∃ a b, join (bs ", ") ps = a ++ [b] ∧ is_ws b = false.
Proof.
  intros Hne H. induction H as [|p ps Hp H IH]; [done|]. destruct ps as [|q ps].
  - simpl. destruct (token_trimmed _ Hp) as [_ Hr]. destruct (is_token_Forall _ Hp) as [Hp' _].
    destruct p as [|b a _] using rev_ind; [done|]. exists a, b. split; [done|]. by rewrite rev_app_distr in Hr.
  - destruct IH as (a & b & E & Hb); [done|].
    change (join (bs ", ") (p :: q :: ps)) with (p ++ bs ", " ++ join (bs ", ") (q :: ps)).
    rewrite E. exists (p ++ bs ", " ++ a), b. by rewrite <-!app_assoc.
Qed.
Lemma join_trim ps : Forall (λ p, is_token p = true) ps → trim (join (bs ", ") ps) = join (bs ", ") ps.
Proof.
  intros H. destruct ps as [|p ps]; [done|]. apply trim_id. split.
  - apply Forall_cons in H as [Hp _]. destruct (token_trimmed _ Hp) as [Hh _].
    destruct (is_token_Forall _ Hp) as [Hne _]. destruct p as [|b p]; [done|]. by destruct ps.
  - destruct (join_last (p :: ps)) as (a & b & -> & Hb); [done..|]. by rewrite rev_app_distr.
Qed.
Lemma join_value ps : Forall (λ p, is_token p = true) ps →
  is_value (join (bs ", ") ps) = true ∧ is_utf8 (join (bs ", ") ps) = true.
Proof.
  induction 1 as [|p ps Hp H [IH1 IH2]]; [done|]. destruct ps as [|q ps].
  - split; [by apply token_is_value|by apply token_ascii].
  - change (join (bs ", ") (p :: q :: ps)) with (p ++ bs ", " ++ join (bs ", ") (q :: ps)).
    rewrite !is_value_app, IH1, token_is_value by done. split; [done|].
    rewrite is_utf8_app by (by apply token_ascii). by rewrite is_utf8_app.
Qed.

(** ** The client's request as a head *)
Definition own_headers (url : Url) (key : bytes) (protocols : list bytes) : Headers :=
  [(bs "Host", authority url); (bs "Upgrade", bs "websocket"); (bs "Connection", bs "Upgrade");
   (bs "Sec-WebSocket-Key", key); (bs "Sec-WebSocket-Version", bs "13")] ++
  (if bool_decide (protocols = []) then [] else [(bs "Sec-WebSocket-Protocol", join (bs ", ") protocols)]).
Definition request_line (url : Url) : bytes := bs "GET " ++ target url ++ bs " HTTP/1.1".

Lemma foldl_lines out hs :
  foldl (λ out h, out ++ h.1 ++ bs ": " ++ h.2 ++ CRLF) out hs =
  out ++ concat (map (λ h, header_line h ++ CRLF) hs).
Proof.
  revert out. induction hs as [|h hs IH]; intros out; cbn [foldl map concat]; [by rewrite app_nil_r|].
  rewrite IH. unfold header_line. by rewrite <-!app_assoc.
Qed.
Lemma client_request_head url key ps hs :
  client_request url key ps hs = print_head (request_line url) (own_headers url key ps ++ hs).
Proof.
  unfold client_request, print_head, own_headers, request_line. rewrite foldl_lines.
  rewrite !map_app, !concat_app. case_bool_decide; cbn [map concat]; unfold header_line; cbn [fst snd];
    rewrite <-!app_assoc; cbn [app]; rewrite ?app_nil_r; reflexivity.
Qed.

Section Request.
(** What the client holds when it writes the request: a parsed URL, sixteen
    random bytes, and protocols and headers that passed its checks. *)
Context (url : Url) (nonce : bytes) (ps : list bytes) (hs : Headers).
Context (Hurl : wf_url url) (Hnonce : bytes_ok nonce) (Hlen : length nonce = 16%nat).
Context (Hps : Forall (λ p, is_token p = true) ps) (Hnd : NoDup ps) (Hhs : Forall extra_ok hs).
Let key : bytes := b64_encode nonce.
Let sent : Headers := map received (own_headers url key ps ++ hs).

Lemma key_facts : zlen key = 24 ∧ b64_decode key = Some nonce.
Proof. split; [unfold key, zlen; by rewrite length_b64_encode, Hlen|by apply decode_encode_id]. Qed.
Lemma authority_visible : Forall visible (authority url).
Proof. eapply Forall_impl; [exact (authority_bytes url Hurl)|]. by intros b [? _]. Qed.
Lemma target_visible : Forall visible (target url).
Proof. eapply Forall_impl; [exact (wf_target_bytes url Hurl)|]. by intros b [? _]. Qed.

Lemma own_sendable : Forall (λ h, sendable h ∧ is_utf8 h.2 = true) (own_headers url key ps).
Proof.
  destruct (join_value ps Hps) as [Hj Hju]. pose proof authority_visible. pose proof (b64_encode_visible nonce).
  unfold own_headers, sendable. apply Forall_app. split.
  - apply Forall_impl with (P := λ h, is_token h.1 = true ∧ Forall visible h.2).
    + assert (∀ s, forallb (λ b, (33 <=? b) && (b <? 0x7f)) s = true → Forall visible s) as Hlit.
      { intros s Hs%forallb_Forall. eapply Forall_impl; [exact Hs|]. unfold visible. intros b Hb. simpl in Hb. lia. }
      repeat apply Forall_cons_2; try apply Forall_nil_2; (split; [vm_compute; reflexivity|]);
        try done; by apply Hlit.
    + intros h [? ?]. split; [split; [done|by apply visible_value]|by apply visible_utf8].
  - case_bool_decide; [done|]. by apply Forall_cons_2; [|apply Forall_nil_2].
Qed.
Lemma request_line_split : split 32 (request_line url) = [bs "GET"; target url; bs "HTTP/1.1"].
Proof.
  unfold request_line. change (bs "GET ") with (bs "GET" ++ [32]). change (bs " HTTP/1.1") with (32 :: bs "HTTP/1.1").
  rewrite <-app_assoc. cbn [app]. rewrite split_app by by_decide. rewrite split_app; [done|].
  pose proof target_visible as H. rewrite Forall_forall in H. intros Hin. specialize (H _ Hin). unfold visible in H. lia.
Qed.
Lemma own_all n v :
  n ∈ RESERVED → map snd (filter (λ h, h.1 = n) (map received (own_headers url key ps))) = v → all sent n = v.
Proof.
  intros Hn E. unfold sent. rewrite map_app, all_app, (all_extra hs n) by done. by rewrite app_nil_r.
Qed.
Lemma sent_host : all sent (bs "host") = [authority url].
Proof.
  apply own_all; [by_decide|]. rewrite <-(visible_trim (authority url) authority_visible).
  unfold own_headers. by case_bool_decide.
Qed.
Lemma sent_key : all sent (bs "sec-websocket-key") = [key].
Proof.
  apply own_all; [by_decide|]. rewrite <-(visible_trim key (b64_encode_visible nonce)) at 2.
  unfold own_headers. by case_bool_decide.
Qed.
Lemma sent_fixed :
  all sent (bs "transfer-encoding") = [] ∧ all sent (bs "content-length") = [] ∧
  all sent (bs "upgrade") = [bs "websocket"] ∧ all sent (bs "connection") = [bs "Upgrade"] ∧
  all sent (bs "sec-websocket-version") = [bs "13"].
Proof.
  split_and!; apply own_all; (by_decide || (unfold own_headers; by case_bool_decide)).
Qed.
Lemma sent_origin : all sent (bs "origin") = all (map received hs) (bs "origin").
Proof. unfold sent. rewrite map_app, all_app. unfold own_headers. by case_bool_decide. Qed.
Lemma sent_protocols : tokens sent (bs "sec-websocket-protocol") = Some ps.
Proof.
  unfold tokens, list_items.
  assert (all sent (bs "sec-websocket-protocol") = if bool_decide (ps = []) then [] else [join (bs ", ") ps]) as ->.
  { apply own_all; [by_decide|]. rewrite <-(join_trim ps Hps). unfold own_headers. by case_bool_decide. }
  case_bool_decide as E; [by rewrite E|]. cbn [map concat]. rewrite app_nil_r.
  rewrite (tokens_loop_ok _ ps); [done|by apply split_protocols|done|done|set_solver].
Qed.

Lemma request_client_request :
  zlen (all (map received hs) (bs "origin")) <= 1 →
  zlen (own_headers url key ps ++ hs) <= MAX_HEADERS → zlen (client_request url key ps hs) <= MAX_HEAD →
  request (client_request url key ps hs) =
    Ok {| r_target := target url; r_headers := sent; r_key := key; r_protocols := ps |}.
Proof.
  intros Horigin Hcount Hsize. unfold request.
  assert (Forall (λ h, sendable h ∧ is_utf8 h.2 = true) (own_headers url key ps ++ hs)) as Hsend.
  { apply Forall_app. split; [apply own_sendable|]. eapply Forall_impl; [exact Hhs|].
    intros h (? & _ & ?)%extra_ok_inv. done. }
  rewrite client_request_head in Hsize |- *. rewrite parse_print; [|..|done|done|].
  2: { pose proof (visible_value _ target_visible) as Ht. unfold request_line. by rewrite !is_value_app, Ht. }
  2: { eapply Forall_impl; [exact Hsend|]. by intros h [? _]. }
  2: { apply print_head_utf8.
       - unfold request_line. rewrite is_utf8_app by done. rewrite is_utf8_app by (apply visible_utf8, target_visible). done.
       - eapply Forall_impl; [exact Hsend|]. by intros h [[? _] ?]. }
  rewrite request_line_split, (wf_valid_target url Hurl). fold sent.
  destruct sent_fixed as (Hte & Hcl & Hup & Hco & Hve). destruct key_facts as [Hk Hd].
  unfold one, has_body, has_token, list_items. rewrite sent_host, sent_key, Hte, Hcl, Hup, Hco, Hve, sent_origin.
  rewrite (wf_valid_host url Hurl). cbn [negb orb bool_decide existsb].
  destruct (Z.ltb_spec 1 (zlen (all (map received hs) (bs "origin")))); [lia|].
  rewrite Hk, Hd, sent_protocols. unfold zlen at 1. rewrite Hlen. reflexivity.
Qed.
End Request.

(** ** What [request] accepts *)
Lemma tokens_loop_sound items seen out ps :
  tokens_loop items seen out = Some ps → Forall (λ p, is_token p = true) out → NoDup out →
  (∀ p, p ∈ out → p ∈ seen) →
  Forall (λ p, is_token p = true) ps ∧ NoDup ps ∧ ps = out ++ map trim items.
Proof.
  revert seen out. induction items as [|i items IH]; intros seen out H Ht Hd Hs; simpl in H.
  { simplify_eq. by rewrite app_nil_r. }
  destruct (is_token (trim i)) eqn:Hi; [|done]. cbn [negb orb] in H. case_bool_decide as Hseen; [done|].
  apply IH in H as (H1 & H2 & ->).
  - rewrite <-app_assoc in *. done.
  - apply Forall_app. split; [done|by constructor].
  - apply NoDup_app. split; [done|]. split; [|apply NoDup_singleton]. set_solver.
  - set_solver.
Qed.
Lemma tokens_iff hs n ps :
  tokens hs n = Some ps ↔ ps = map trim (list_items hs n) ∧ Forall (λ p, is_token p = true) ps ∧ NoDup ps.
Proof.
  unfold tokens. split.
  - intros (H1 & H2 & ->)%tokens_loop_sound; [done|done|by apply NoDup_nil|done].
  - intros (-> & H1 & H2). rewrite (tokens_loop_ok _ _ [] [] eq_refl H1 H2); [done|]. intros p _. apply not_elem_of_nil.
Qed.
Lemma one_iff hs n v : one hs n = Some v ↔ all hs n = [v].
Proof. unfold one. destruct (all hs n) as [|w [|? ?]]; split; intros H; by simplify_eq. Qed.
Lemma has_token_iff hs n t :
  has_token hs n t = true ↔ ∃ item, item ∈ list_items hs n ∧ to_lower (trim item) = to_lower t.
Proof.
  unfold has_token, eq_ignore_case. rewrite existsb_exists.
  split; intros (i & Hi & E); exists i; rewrite list_elem_of_In in *; by rewrite bool_decide_eq_true in *.
Qed.
Lemma has_body_iff hs :
  has_body hs = false ↔
  all hs (bs "transfer-encoding") = [] ∧ Forall (λ v, v = bs "0") (all hs (bs "content-length")).
Proof.
  unfold has_body. rewrite orb_false_iff, negb_false_iff, bool_decide_eq_true. apply and_iff_compat_l.
  rewrite <-not_true_iff_false, existsb_exists, Forall_forall. split.
  - intros H v Hv. destruct (decide (v = bs "0")) as [|Hne]; [done|]. exfalso. apply H. exists v.
    by rewrite <-list_elem_of_In, bool_decide_eq_false_2.
  - intros H (v & Hv%list_elem_of_In & Hn). rewrite (H _ Hv) in Hn. done.
Qed.
Lemma request_key_iff key :
  (negb (zlen key =? 24) || match b64_decode key with Some k => negb (zlen k =? 16) | None => true end) = false ↔
  ∃ nonce, bytes_ok nonce ∧ length nonce = 16%nat ∧ key = b64_encode nonce.
Proof.
  rewrite orb_false_iff, negb_false_iff. split.
  - intros [_ H]. destruct (b64_decode key) as [nonce|] eqn:Ed; [|done]. apply negb_false_iff, Z.eqb_eq in H.
    apply decode_canonical in Ed as [Hok <-]. exists nonce. unfold zlen in H. by split_and!; [|lia|].
  - intros (nonce & Hok & Hl & ->). rewrite (decode_encode_id _ Hok). unfold zlen. by rewrite length_b64_encode, Hl.
Qed.

(** *** The request target and the [Host] value, as grammars *)
Lemma valid_target_iff t :
  valid_target t = true ↔ (∃ rest, t = 47 :: rest) ∧ Forall (λ b, 32 < b < 0x7f ∧ b ≠ 35) t.
Proof.
  unfold valid_target. rewrite andb_true_iff, negb_true_iff, bool_decide_eq_true. change (bs "/") with [47].
  rewrite strip_prefix_char. f_equiv.
  - destruct t as [|b t]; [by split; [intros [? ?]|intros [? ?]]|]. destruct (Z.eqb_spec b 47) as [->|Hb].
    + split; [by exists t|by exists t].
    + split; [by intros [? ?]|by intros [? [= ? ?]]].
  - rewrite <-not_true_iff_false, existsb_exists, Forall_forall. split.
    + intros H b Hb. destruct (decide (32 < b < 0x7f ∧ b ≠ 35)) as [|Hn]; [done|]. exfalso. apply H. exists b.
      rewrite <-list_elem_of_In. split; [done|lia].
    + intros H (b & Hb%list_elem_of_In & E). specialize (H _ Hb). lia.
Qed.

Definition port_form (p : bytes) : Prop :=
  p = [] ∨ ∃ d, p = 58 :: d ∧ (1 <= length d <= 5)%nat ∧ Forall (λ b, is_digit b = true) d.
Definition host_form (h : bytes) : Prop :=
  (∃ v6 port, h = [91] ++ v6 ++ [93] ++ port ∧ is_Some (parse_ipv6 v6) ∧ 93 ∉ v6 ∧ port_form port) ∨
  (∃ name port, h = name ++ port ∧ name ≠ [] ∧ Forall (λ b, is_reg_name_char b = true) name ∧ port_form port).
Lemma port_ok_iff p : port_ok p = true ↔ port_form p.
Proof.
  unfold port_ok, port_form, port_digits. rewrite orb_true_iff, bool_decide_eq_true. f_equiv.
  change (bs ":") with [58]. rewrite strip_prefix_char. destruct p as [|b d]; [by split; [|intros (? & ? & _)]|].
  destruct (Z.eqb_spec b 58) as [->|Hb]; [|split; [done|by intros (? & [= ? ?] & _)]].
  rewrite !andb_true_iff, negb_true_iff, bool_decide_eq_false, forallb_Forall, Z.leb_le. unfold zlen. split.
  - intros [[Hne Hl] Hd]. exists d. split_and!; [done| |lia|done]. by destruct d; simpl in *; [|lia].
  - intros (d' & [= <-] & Hl & Hd). split_and!; [|lia|done]. by destruct d; simpl in *; [lia|].
Qed.
Lemma valid_host_iff h : valid_host h = true ↔ host_form h.
Proof.
  unfold valid_host, host_form. change (bs "[") with [91]. rewrite strip_prefix_char.
  assert (∀ name port, h = name ++ port → name ≠ [] → Forall (λ b, is_reg_name_char b = true) name →
    ∃ b h', h = b :: h' ∧ b ≠ 91) as Hhead.
  { intros [|b name] port -> Hne Hn; [done|]. exists b, (name ++ port). split; [done|]. apply Forall_cons in Hn as [Hn _].
    by intros ->. }
  assert ((∃ v, h = 91 :: v) ∨ ¬ (∃ v, h = 91 :: v)) as [[v ->]|Hnb].
  { destruct h as [|b h]; [right; by intros [? ?]|]. destruct (decide (b = 91)) as [->|]; [left; by exists h|right].
    by intros [? [= ? ?]]. }
  - rewrite Z.eqb_refl. split.
    + destruct (split_once 93 v) as [[a t]|] eqn:E; [|done]. apply split_once_Some in E as [-> Ha].
      intros [Hs%bool_decide_eq_true Hp%port_ok_iff]%andb_true_iff. left. by exists a, t.
    + intros [(a & t & [= ->] & Hs & Ha & Hp)|(n & t & E & Hne & Hn & _)].
      * rewrite split_once_app by done. by rewrite bool_decide_eq_true_2, (proj2 (port_ok_iff t)).
      * destruct (Hhead n t E Hne Hn) as (b & h' & [= <- <-] & ?). done.
  - replace (match h with b :: s => if b =? 91 then Some s else None | [] => None end) with (@None bytes)
      by (destruct h as [|b s]; [done|]; destruct (Z.eqb_spec b 91) as [->|]; [exfalso; eauto|done]).
    set (i := default (length h) (find_byte (λ b, b =? 58) h)).
    rewrite !andb_true_iff, negb_true_iff, bool_decide_eq_false, forallb_Forall, port_ok_iff. split.
    + intros [[Hne Hn] Hp]. right. exists (take i h), (drop i h). by rewrite take_drop.
    + intros [(a & t & -> & _)|(n & t & -> & Hne & Hn & Hp)]; [exfalso; eauto|].
      assert (i = length n) as ->; [|by rewrite take_app_length, drop_app_length].
      assert (Forall (λ b, (b =? 58) = false) n) as Hc.
      { eapply Forall_impl; [exact Hn|]. intros b Hb. destruct (Z.eqb_spec b 58) as [->|]; [by vm_compute in Hb|done]. }
      unfold i. destruct Hp as [->|(d & -> & _)].
      * rewrite app_nil_r. by rewrite (proj2 (find_byte_None _ n) Hc).
      * rewrite (proj2 (find_byte_Some (λ b, b =? 58) (n ++ 58 :: d) (length n))); [done|]. by exists n, 58, d.
Qed.

(** [request] accepts a head exactly when it is an upgrade request. *)
Lemma request_line_iff start target :
  start = bs "GET " ++ target ++ bs " HTTP/1.1" → 32 ∉ target → split 32 start = [bs "GET"; target; bs "HTTP/1.1"].
Proof.
  intros -> Ht. change (bs "GET ") with (bs "GET" ++ [32]). change (bs " HTTP/1.1") with (32 :: bs "HTTP/1.1").
  rewrite <-app_assoc. cbn [app]. rewrite split_app by by_decide. by rewrite split_app.
Qed.
Lemma request_sound head r :
  request head = Ok r →
  parse head = Some (bs "GET " ++ r_target r ++ bs " HTTP/1.1", r_headers r) ∧
  valid_target (r_target r) = true ∧
  (∃ h, all (r_headers r) (bs "host") = [h] ∧ valid_host h = true) ∧
  zlen (all (r_headers r) (bs "origin")) <= 1 ∧ has_body (r_headers r) = false ∧
  has_token (r_headers r) (bs "upgrade") (bs "websocket") = true ∧
  has_token (r_headers r) (bs "connection") (bs "upgrade") = true ∧
  all (r_headers r) (bs "sec-websocket-version") = [bs "13"] ∧
  all (r_headers r) (bs "sec-websocket-key") = [r_key r] ∧
  (∃ nonce, bytes_ok nonce ∧ length nonce = 16%nat ∧ r_key r = b64_encode nonce) ∧
  tokens (r_headers r) (bs "sec-websocket-protocol") = Some (r_protocols r).
Proof.
  unfold request. destruct (parse head) as [[start hs]|] eqn:Hp; [|done].
  destruct (split 32 start) as [|m [|t [|v [|? ?]]]] eqn:Es; try done.
  case_bool_decide as Hv; [|done]. destruct (valid_target t) eqn:Ht; [|done]. cbn [negb orb].
  case_bool_decide as Hm; [|done]. cbn [negb].
  destruct (one hs (bs "host")) as [h|] eqn:Eh; [|done]. destruct (valid_host h) eqn:Hh; [|done]. cbn [negb].
  destruct (Z.ltb_spec 1 (zlen (all hs (bs "origin")))); [done|].
  destruct (has_body hs) eqn:Hb; [done|]. destruct (has_token hs (bs "upgrade") _) eqn:Hu; [|done].
  destruct (has_token hs (bs "connection") _) eqn:Hc; [|done]. cbn [negb].
  case_bool_decide as H13; [|done]. cbn [negb].
  destruct (one hs (bs "sec-websocket-key")) as [key|] eqn:Ek; [|done].
  destruct (negb (zlen key =? 24) || _) eqn:Hk; [done|].
  destruct (tokens hs _) as [ps|] eqn:Et; [|done]. intros [= <-]. cbn [r_target r_headers r_key r_protocols].
  subst m v. split; [f_equal; f_equal; rewrite <-(join_split 32 start), Es; done|].
  apply one_iff in Eh, H13, Ek. apply request_key_iff in Hk. split_and!; try done. by exists h.
Qed.
Lemma request_complete head r :
  parse head = Some (bs "GET " ++ r_target r ++ bs " HTTP/1.1", r_headers r) →
  valid_target (r_target r) = true →
  (∃ h, all (r_headers r) (bs "host") = [h] ∧ valid_host h = true) →
  zlen (all (r_headers r) (bs "origin")) <= 1 → has_body (r_headers r) = false →
  has_token (r_headers r) (bs "upgrade") (bs "websocket") = true →
  has_token (r_headers r) (bs "connection") (bs "upgrade") = true →
  all (r_headers r) (bs "sec-websocket-version") = [bs "13"] →
  all (r_headers r) (bs "sec-websocket-key") = [r_key r] →
  (∃ nonce, bytes_ok nonce ∧ length nonce = 16%nat ∧ r_key r = b64_encode nonce) →
  tokens (r_headers r) (bs "sec-websocket-protocol") = Some (r_protocols r) →
  request head = Ok r.
Proof.
  intros Hp Ht (h & Eh & Hh) Ho Hb Hu Hc H13%one_iff Ek%one_iff Hk%request_key_iff Et. unfold request. rewrite Hp.
  rewrite (request_line_iff _ (r_target r)); [|done|].
  2: { intros Hin. apply valid_target_iff in Ht as [_ Ht]. rewrite Forall_forall in Ht. specialize (Ht _ Hin). lia. }
  apply one_iff in Eh. rewrite Ht, Eh, Hh, Hb, Hu, Hc, H13, Ek, Hk, Et.
  destruct (Z.ltb_spec 1 (zlen (all (r_headers r) (bs "origin")))); [lia|]. by destruct r.
Qed.

Lemma request_status head s : request head = Err s → s = 400 ∨ s = 405 ∨ s = 426.
Proof. unfold request. intros H. repeat case_match; simplify_eq; auto. Qed.

(** ** The server's answer as a head *)
Section Response.
Context (sha1 : bytes → bytes).
Definition answer_headers (key : bytes) (protocol : option bytes) : Headers :=
  [(bs "Upgrade", bs "websocket"); (bs "Connection", bs "Upgrade"); (bs "Sec-WebSocket-Accept", accept_key sha1 key)] ++
  (match protocol with Some p => [(bs "Sec-WebSocket-Protocol", p)] | None => [] end).
Lemma switching_head key protocol :
  switching sha1 key protocol = print_head (bs "HTTP/1.1 101 Switching Protocols") (answer_headers key protocol).
Proof.
  unfold switching, print_head, answer_headers. destruct protocol; cbn [map concat app]; unfold header_line; cbn [fst snd];
    rewrite <-!app_assoc; reflexivity.
Qed.

Lemma answer_visible key protocol :
  (match protocol with Some p => is_token p = true | None => True end) →
  Forall (λ h, is_token h.1 = true ∧ Forall visible h.2) (answer_headers key protocol).
Proof.
  intros Hp. pose proof (b64_encode_visible (sha1 (key ++ GUID))). unfold answer_headers. apply Forall_app. split.
  - repeat apply Forall_cons_2; try apply Forall_nil_2; (split; [vm_compute; reflexivity|]); try done;
      apply token_visible; vm_compute; reflexivity.
  - destruct protocol as [p|]; [|done]. apply Forall_cons_2; [|done]. split; [done|]. by apply token_visible.
Qed.

Lemma response_switching key protocol ps :
  (match protocol with Some p => p ∈ ps ∧ is_token p = true | None => True end) →
  zlen (switching sha1 key protocol) <= MAX_HEAD →
  response sha1 (switching sha1 key protocol) key ps = Ok protocol.
Proof.
  intros Hp Hsize. unfold response. pose proof (b64_encode_visible (sha1 (key ++ GUID))) as Hacc.
  fold (accept_key sha1 key) in Hacc.
  assert (Forall (λ h, is_token h.1 = true ∧ Forall visible h.2) (answer_headers key protocol)) as Hsend
    by (apply answer_visible; destruct protocol; [apply Hp|done]).
  rewrite switching_head in Hsize |- *. rewrite parse_print; [|done|..|done|].
  2: { eapply Forall_impl; [exact Hsend|]. intros h [? ?]. split; [done|by apply visible_value]. }
  2: { unfold zlen, answer_headers, MAX_HEADERS. rewrite length_app. destruct protocol; simpl; lia. }
  2: { apply print_head_utf8; [done|]. eapply Forall_impl; [exact Hsend|]. intros h [? ?]. split; [done|by apply visible_utf8]. }
  assert (map received (answer_headers key protocol) = 
    [(bs "upgrade", bs "websocket"); (bs "connection", bs "Upgrade"); (bs "sec-websocket-accept", accept_key sha1 key)] ++
    (match protocol with Some p => [(bs "sec-websocket-protocol", p)] | None => [] end)) as ->.
  { unfold answer_headers. rewrite map_app. rewrite <-(visible_trim _ Hacc) at 2. f_equal.
    destruct protocol as [p|]; [|done]. cbn [map received fst snd]. unfold received. cbn [fst snd].
    by rewrite (trim_id p) by apply token_trimmed, Hp. }
  set (hs := _ ++ _).
  assert (all hs (bs "upgrade") = [bs "websocket"]) as Eu by (by destruct protocol).
  assert (all hs (bs "connection") = [bs "Upgrade"]) as Ec by (by destruct protocol).
  assert (all hs (bs "sec-websocket-accept") = [accept_key sha1 key]) as Ea by (by destruct protocol).
  assert (all hs (bs "sec-websocket-extensions") = []) as Ee by (by destruct protocol).
  assert (all hs (bs "sec-websocket-protocol") = match protocol with Some p => [p] | None => [] end) as Ep
    by (by destruct protocol).
  change (splitn3 32 (bs "HTTP/1.1 101 Switching Protocols")) with [bs "HTTP/1.1"; bs "101"; bs "Switching Protocols"].
  unfold has_token, list_items, one. rewrite Eu, Ec, Ea, Ee, Ep.
  rewrite (bool_decide_true (Some (accept_key sha1 key) = _)) by done.
  destruct protocol as [p|]; [|reflexivity]. destruct Hp as [Hp _]. rewrite (bool_decide_true (p ∈ ps)) by done. reflexivity.
Qed.
End Response.
