(* ===== verification/HandshakeProps.v ===== *)
(** * Properties of the opening handshake *)

From S2P Require Import Prelude Utf8 Str Http Ip Url Base64 Handshake UrlFacts HandshakeFacts.

(** C10: A request the client writes, from any URL its parser accepts, a
    16-byte nonce, distinct token subprotocols and extra headers that pass
    [check_header] (with at most one [Origin] and within the head's limits), is
    accepted by the server, which sees exactly the target, the key, the
    subprotocols and the headers the client meant. *)
Theorem client_request_accepted input url nonce ps hs :
  parse_url input = Ok url → bytes_ok nonce → length nonce = 16%nat →
  Forall (λ p, is_token p = true) ps → NoDup ps → Forall extra_ok hs →
  zlen (all (map received hs) (bs "origin")) <= 1 →
  zlen (own_headers url (b64_encode nonce) ps ++ hs) <= MAX_HEADERS →
  zlen (client_request url (b64_encode nonce) ps hs) <= MAX_HEAD →
  request (client_request url (b64_encode nonce) ps hs) =
    Ok {| r_target := target url;
          r_headers := map received (own_headers url (b64_encode nonce) ps ++ hs);
          r_key := b64_encode nonce; r_protocols := ps |}.
Proof. intros Hurl%parse_url_wf. intros. by apply request_client_request. Qed.

(** C11: The server's [101] answer to a key, with a subprotocol the client
    offered or with none, is accepted by the client that sent that key, which
    ends up with the same subprotocol; whatever function SHA-1 is. *)
Theorem switching_accepted sha1 key protocol ps :
  (match protocol with Some p => p ∈ ps ∧ is_token p = true | None => True end) →
  zlen (switching sha1 key protocol) <= MAX_HEAD →
  response sha1 (switching sha1 key protocol) key ps = Ok protocol.
Proof. apply response_switching. Qed.

(** C12: The server accepts exactly the upgrade requests.  [request] returns
    [r] if and only if: the head is an HTTP head whose request line is
    [GET target HTTP/1.1], the target beginning with a slash and without
    blanks, controls, non-ASCII bytes or fragment; there is exactly one [Host],
    a name or a bracketed IPv6 address with an optional port of at most five
    digits; at most one [Origin]; no [Transfer-Encoding] and no
    [Content-Length] other than 0; [Upgrade] lists websocket and [Connection]
    lists upgrade, in any case; [Sec-WebSocket-Version] appears once and is
    13; [Sec-WebSocket-Key] appears once and is the base64 of sixteen bytes;
    and the subprotocols of [r] are the trimmed items of the
    [Sec-WebSocket-Protocol] headers, in order, all tokens and distinct. *)
Theorem request_accepts_only head r :
  request head = Ok r ↔
  parse head = Some (bs "GET " ++ r_target r ++ bs " HTTP/1.1", r_headers r) ∧
  ((∃ rest, r_target r = 47 :: rest) ∧ Forall (λ b, 32 < b < 0x7f ∧ b ≠ 35) (r_target r)) ∧
  (∃ h, all (r_headers r) (bs "host") = [h] ∧ host_form h) ∧
  zlen (all (r_headers r) (bs "origin")) <= 1 ∧
  (all (r_headers r) (bs "transfer-encoding") = [] ∧
   Forall (λ v, v = bs "0") (all (r_headers r) (bs "content-length"))) ∧
  (∃ item, item ∈ list_items (r_headers r) (bs "upgrade") ∧ to_lower (trim item) = bs "websocket") ∧
  (∃ item, item ∈ list_items (r_headers r) (bs "connection") ∧ to_lower (trim item) = bs "upgrade") ∧
  all (r_headers r) (bs "sec-websocket-version") = [bs "13"] ∧
  all (r_headers r) (bs "sec-websocket-key") = [r_key r] ∧
  (∃ nonce, bytes_ok nonce ∧ length nonce = 16%nat ∧ r_key r = b64_encode nonce) ∧
  r_protocols r = map trim (list_items (r_headers r) (bs "sec-websocket-protocol")) ∧
  Forall (λ p, is_token p = true) (r_protocols r) ∧ NoDup (r_protocols r).
Proof.
  setoid_rewrite <-valid_host_iff. rewrite <-valid_target_iff, <-has_body_iff, <-tokens_iff.
  pose proof (has_token_iff (r_headers r) (bs "upgrade") (bs "websocket")) as Hu. change (to_lower (bs "websocket")) with (bs "websocket") in Hu.
  pose proof (has_token_iff (r_headers r) (bs "connection") (bs "upgrade")) as Hc. change (to_lower (bs "upgrade")) with (bs "upgrade") in Hc.
  rewrite <-Hu, <-Hc.
  split; [apply request_sound|]. intros (? & ? & ? & ? & ? & ? & ? & ? & ? & ? & ?). by apply request_complete.
Qed.

(** The part of [response] that reads the status line, on a rejection. *)
Definition rejection_read (s : Z) : bool :=
  match parse (reject s) with
  | Some (start, _) => bool_decide (splitn3 32 start = [bs "HTTP/1.1"; to_dec s; reason s]) &&
                       (zlen (to_dec s) =? 3) && forallb is_digit (to_dec s) &&
                       ((s =? 101) || negb (bool_decide (to_dec s = bs "101")))
  | None => false
  end.
Lemma rejection_read_all : forallb rejection_read (seqZ 100 900) = true.
Proof. vm_compute. reflexivity. Qed.

Lemma response_reject sha1 status key ps :
  100 <= status <= 999 → status ≠ 101 →
  response sha1 (reject status) key ps = Err (bs "unexpected server response: " ++ to_dec status).
Proof.
  intros Hs Hne. pose proof rejection_read_all as H. rewrite forallb_Forall, Forall_forall in H.
  assert (rejection_read status = true) as Hr by (apply H, elem_of_seqZ; lia). clear H. unfold rejection_read in Hr.
  unfold response. destruct (parse (reject status)) as [[start hs]|]; [|done].
  rewrite !andb_true_iff in Hr. destruct Hr as [[[Es Hl] Hd] Hst]. apply bool_decide_eq_true in Es.
  rewrite Es, Hl, Hd. destruct (bool_decide (to_dec status = bs "101")); [|done].
  cbn in Hst. lia.
Qed.

(** C13: Every rejection the server writes with a three-digit status other
    than 101 is a response head the client can read: the client reports that
    status as an unexpected server response, and never an invalid one. *)
Theorem reject_reported sha1 status key ps :
  100 <= status <= 999 → status ≠ 101 →
  response sha1 (reject status) key ps = Err (bs "unexpected server response: " ++ to_dec status).
Proof. apply response_reject. Qed.

Module Witness.
Definition nonce : bytes := seqZ 0 16.
Definition protocols : list bytes := [bs "chat"; bs "superchat"].
Definition extra : Headers := [(bs "Origin", bs " https://example.com"); (bs "X-Id", bs "7")].
(** A stand-in for SHA-1: twenty bytes of the input, padded with zeros. *)
Definition digest20 (s : bytes) : bytes := take 20 (s ++ replicate 20 0).

Lemma client_request_accepted_witness :
  ∃ r, request (client_request sample_url (b64_encode nonce) protocols extra) = Ok r ∧ r_protocols r = protocols.
Proof.
  eexists. split.
  - apply (client_request_accepted sample_input); try (vm_compute; done).
    + apply Forall_forall. intros b Hb%elem_of_seqZ. unfold is_byte. lia.
    + repeat constructor.
    + apply (bool_decide_unpack _). vm_compute. exact I.
    + repeat constructor.
  - reflexivity.
Defined.
Lemma switching_accepted_witness :
  response digest20 (switching digest20 (b64_encode nonce) (Some (bs "chat"))) (b64_encode nonce) protocols = Ok (Some (bs "chat")).
Proof.
  apply (switching_accepted digest20).
  - split; [apply (bool_decide_unpack _); vm_compute; exact I|reflexivity].
  - vm_compute. done.
Defined.
Lemma request_accepts_only_witness :
  ∃ r, request (client_request sample_url (b64_encode nonce) protocols extra) = Ok r ∧ NoDup (r_protocols r).
Proof.
  eexists. split; [vm_compute; reflexivity|].
  apply (request_accepts_only (client_request sample_url (b64_encode nonce) protocols extra)). vm_compute. reflexivity.
Defined.
Lemma reject_reported_witness :
  response digest20 (reject 403) (b64_encode nonce) protocols = Err (bs "unexpected server response: 403").
Proof. apply (reject_reported digest20 403); lia. Defined.
End Witness.
