(* ===== verification/Head.v ===== *)
(** * Reading the upgrade head (core/src/net/stream.rs)

    [read_head] collects what the transport delivers until the blank line, and
    only searches the part of the buffer where the blank line can be new.  The
    transport is the list of the results of its reads. *)

From S2P Require Import Prelude Str Http.

(** [io::ErrorKind]: the end of the stream is the one [read_head] makes up. *)
Inductive IoError := UnexpectedEof | OtherError (kind : Z).
Inductive HeadError := HeadIo (e : IoError) | TooLarge.

(** One iteration per result of [io.read(&mut chunk)]: the bytes read, none at
    the end of the stream, or an error.  [None]: still waiting for input. *)
Fixpoint read_head_loop (buf : bytes) (reads : list (result bytes IoError))
    : option (result (bytes * bytes) HeadError) :=
  match reads with
  | [] => None
  | Err e :: _ => Some (Err (HeadIo e))
  | Ok chunk :: reads =>
      if zlen chunk =? 0 then Some (Err (HeadIo UnexpectedEof)) else
      let from := (length buf - 3)%nat in
      let buf := buf ++ chunk in
      let end_ := (λ i, (i + from)%nat) <$> head_end (drop from buf) in
      if MAX_HEAD <? Z.of_nat (default (length buf) end_) then Some (Err TooLarge) else
      match end_ with
      | Some end_ => Some (Ok (take end_ buf, drop end_ buf))
      | None => read_head_loop buf reads
      end
  end.
Definition read_head (reads : list (result bytes IoError)) := read_head_loop [] reads.

(** ** Searching only the new part finds the same blank line *)
Lemma head_end_from a c :
  head_end a = None →
  (λ i, (i + (length a - 3))%nat) <$> head_end (drop (length a - 3) (a ++ c)) = head_end (a ++ c).
Proof.
  intros Ha. set (from := (length a - 3)%nat).
  assert (∀ j, blank_at (a ++ c) j → (from <= j)%nat) as Hfrom.
  { intros j Hj. destruct (decide (j + 4 <= length a)%nat) as [Hl|]; [|unfold from; lia].
    destruct (proj1 (head_end_None a) Ha j). by apply blank_at_app in Hj. }
  assert (∀ j, blank_at (drop from (a ++ c)) j ↔ blank_at (a ++ c) (from + j)) as Hshift.
  { intros j. unfold blank_at. by rewrite drop_drop. }
  destruct (head_end (a ++ c)) as [n|] eqn:E.
  - apply head_end_Some in E as (i & -> & Hb & Hmin). pose proof (Hfrom _ Hb) as Hi.
    assert (head_end (drop from (a ++ c)) = Some (i - from + 4)%nat) as ->.
    { apply head_end_Some. exists (i - from)%nat. split; [done|]. split.
      - apply Hshift. by replace (from + (i - from))%nat with i by lia.
      - intros j Hj Hbj. apply Hshift in Hbj. apply (Hmin (from + j)%nat); [lia|done]. }
    simpl. f_equal. lia.
  - assert (head_end (drop from (a ++ c)) = None) as ->; [|done].
    apply head_end_None. intros j Hbj. apply Hshift in Hbj. by apply (proj1 (head_end_None _) E) in Hbj.
Qed.

(** ** The verdict depends on the bytes, not on how they arrive *)
Definition nonempty (c : bytes) : Prop := c ≠ [].
(** The chunks up to the first one that completes [e] bytes after [buf]. *)
Definition completes (buf : bytes) (cs cs1 : list bytes) (e : nat) : Prop :=
  cs1 `prefix_of` cs ∧ (e <= length (buf ++ concat cs1))%nat ∧
  ∀ cs0 c, cs1 = cs0 ++ [c] → (length (buf ++ concat cs0) < e)%nat.

Lemma head_end_prefix a b e : head_end a = None → head_end (a ++ b) = Some e → (length a < e)%nat.
Proof.
  intros Ha (i & -> & Hi & _)%head_end_Some. destruct (decide (i + 4 <= length a)%nat) as [Hl|]; [|lia].
  rewrite blank_at_app in Hi by done. by destruct (proj1 (head_end_None a) Ha i).
Qed.

Lemma read_head_loop_correct cs : ∀ buf,
  Forall nonempty cs → head_end buf = None → zlen buf <= MAX_HEAD →
  let whole := buf ++ concat cs in
  match head_end whole with
  | Some e =>
      if Z.of_nat e <=? MAX_HEAD then
        ∃ cs1, completes buf cs cs1 e ∧
          read_head_loop buf (map Ok cs) = Some (Ok (take e whole, drop e (buf ++ concat cs1)))
      else read_head_loop buf (map Ok cs) = Some (Err TooLarge)
  | None => read_head_loop buf (map Ok cs) = if zlen whole <=? MAX_HEAD then None else Some (Err TooLarge)
  end.
Proof.
  induction cs as [|c cs IH]; intros buf Hcs Hnone Hlen; cbn [concat map read_head_loop].
  { rewrite app_nil_r, Hnone. by destruct (Z.leb_spec (zlen buf) MAX_HEAD); [|lia]. }
  apply Forall_cons in Hcs as [Hc Hcs].
  destruct (Z.eqb_spec (zlen c) 0) as [E|_]; [by destruct c|].
  rewrite head_end_from by done. rewrite app_assoc. specialize (IH (buf ++ c) Hcs).
  destruct (head_end (buf ++ c)) as [e|] eqn:E.
  - clear IH. rewrite (head_end_app_l _ _ _ E).
    change (default (length (buf ++ c)) (Some e)) with e.
    destruct (Z.ltb_spec MAX_HEAD (Z.of_nat e)), (Z.leb_spec (Z.of_nat e) MAX_HEAD); try lia; [done|].
    exists [c]. pose proof (head_end_length _ _ E). simpl. rewrite app_nil_r, (take_app_le (buf ++ c)) by lia.
    split; [|done]. split; [by exists cs|]. simpl. rewrite app_nil_r. split; [lia|].
    intros [|? [|? ?]] c0 Hcs0; simplify_eq. simpl. rewrite app_nil_r.
    eapply head_end_prefix; [done|exact E].
  - change (default (length (buf ++ c)) None) with (length (buf ++ c)). fold (zlen (buf ++ c)).
    destruct (Z.ltb_spec MAX_HEAD (zlen (buf ++ c))) as [Hbig|Hsmall].
    + clear IH. destruct (head_end ((buf ++ c) ++ concat cs)) as [e|] eqn:Ew.
      * apply head_end_prefix in Ew; [|done]. destruct (Z.leb_spec (Z.of_nat e) MAX_HEAD); [unfold zlen in *; lia|done].
      * rewrite zlen_app. pose proof (zlen_nonneg (concat cs)).
        destruct (Z.leb_spec (zlen (buf ++ c) + zlen (concat cs)) MAX_HEAD); [lia|done].
    + specialize (IH eq_refl Hsmall). cbv zeta in IH. destruct (head_end ((buf ++ c) ++ concat cs)) as [e|] eqn:Ew; [|done].
      destruct (Z.of_nat e <=? MAX_HEAD); [|done]. destruct IH as (cs1 & (Hp & Hl & Hmin) & ->).
      exists (c :: cs1). simpl. rewrite app_assoc. split; [|done]. split; [by apply prefix_cons|].
      simpl. rewrite app_assoc. split; [done|]. intros [|c0 cs0] c1 Hcs0; simplify_eq/=.
      * apply (head_end_prefix _ _ _ E) in Ew. rewrite length_app in Ew. rewrite app_nil_r. lia.
      * rewrite app_assoc. by eapply Hmin.
Qed.

(** ** Every sequence of reads *)
(** How the transport stops delivering: it has not (more may come), its stream
    has ended (a read of no bytes), or a read has failed. *)
Inductive Stop := Open | Ended | Failed (e : IoError).
Fixpoint deliveries (reads : list (result bytes IoError)) : list bytes * Stop :=
  match reads with
  | [] => ([], Open)
  | Err e :: _ => ([], Failed e)
  | Ok chunk :: reads =>
      if decide (chunk = []) then ([], Ended)
      else let '(cs, stop) := deliveries reads in (chunk :: cs, stop)
  end.
Definition stopped (stop : Stop) : option (result (bytes * bytes) HeadError) :=
  match stop with
  | Open => None
  | Ended => Some (Err (HeadIo UnexpectedEof))
  | Failed e => Some (Err (HeadIo e))
  end.
Lemma deliveries_nonempty reads : Forall nonempty (deliveries reads).1.
Proof.
  induction reads as [|[c|e] reads IH]; [done| |done]. simpl. destruct (decide (c = [])); [done|].
  destruct (deliveries reads). by constructor.
Qed.
Lemma deliveries_chunks cs reads :
  Forall nonempty cs → deliveries (map Ok cs ++ reads) = (cs ++ (deliveries reads).1, (deliveries reads).2).
Proof.
  induction cs as [|c cs IH]; intros Hcs; simpl; [by destruct (deliveries reads)|].
  apply Forall_cons in Hcs as [Hc Hcs]. rewrite IH by done. by rewrite decide_False.
Qed.
Lemma read_head_loop_deliveries reads : ∀ buf,
  read_head_loop buf reads =
    match read_head_loop buf (map Ok (deliveries reads).1) with Some r => Some r | None => stopped (deliveries reads).2 end.
Proof.
  induction reads as [|[c|e] reads IH]; intros buf; [done| |done]. cbn [read_head_loop deliveries].
  destruct (decide (c = [])) as [->|Hc]; [done|]. destruct (deliveries reads) as [cs stop]. cbn [fst snd map read_head_loop] in *.
  destruct (Z.eqb_spec (zlen c) 0) as [E|_]; [by destruct c|]. rewrite IH. by repeat case_match.
Qed.

(** C14: Reading the head is independent of how the transport cuts the bytes,
    for every sequence of reads.  Searching only the last three old bytes and
    the new ones finds the first blank line of everything delivered before the
    transport stops.  If the head ends within the limit it is returned whole
    with the bytes already received after it, as soon as it is complete,
    whatever the transport does later; if it cannot end within the limit the
    read fails with [TooLarge]; otherwise it fails with the end of the stream
    or the error that stopped the transport, and waits only while the transport
    has not stopped. *)
Theorem read_head_correct reads :
  let cs := (deliveries reads).1 in
  match head_end (concat cs) with
  | Some e =>
      if Z.of_nat e <=? MAX_HEAD then
        ∃ cs1, completes [] cs cs1 e ∧
          read_head reads = Some (Ok (take e (concat cs), drop e (concat cs1)))
      else read_head reads = Some (Err TooLarge)
  | None =>
      read_head reads =
        if zlen (concat cs) <=? MAX_HEAD then
          match (deliveries reads).2 with
          | Open => None
          | Ended => Some (Err (HeadIo UnexpectedEof))
          | Failed e => Some (Err (HeadIo e))
          end
        else Some (Err TooLarge)
  end.
Proof.
  cbv zeta. unfold read_head. rewrite read_head_loop_deliveries.
  pose proof (read_head_loop_correct (deliveries reads).1 [] (deliveries_nonempty reads) eq_refl) as H. cbn [app] in H.
  specialize (H ltac:(done)). cbv zeta in H. destruct (head_end (concat (deliveries reads).1)) as [e|].
  - destruct (Z.of_nat e <=? MAX_HEAD); [|by rewrite H]. destruct H as (cs1 & Hc & E). exists cs1. by rewrite E.
  - rewrite H. by destruct (zlen (concat (deliveries reads).1) <=? MAX_HEAD), (deliveries reads).2.
Qed.
Definition head_reads : list (result bytes IoError) :=
  [Ok (bs "GET / HTTP/1.1" ++ [13]); Ok [10; 13]; Ok (10 :: bs "frames"); Ok (bs "more"); Err (OtherError 104)].
Example head_read : read_head head_reads = Some (Ok (bs "GET / HTTP/1.1" ++ BLANK, bs "frames")).
Proof. vm_compute. reflexivity. Qed.
Example head_ended : read_head [Ok (bs "GET / HT"); Ok []] = Some (Err (HeadIo UnexpectedEof)).
Proof. vm_compute. reflexivity. Qed.
