(* ===== verification/Prog.v ===== *)
(** * Programs of atomic sections, their interleavings, and a rely-guarantee rule

    A method of a shared object is a program: a tree of atomic sections (what
    the code does under one lock, or one atomic access) and of questions to
    the environment (the clock, the random generator, the transport).  A
    section may be blocked, which is how a held lock and an event that has not
    happened yet are modelled.  Programs run alone ([run], executable) or as
    any number of threads whose sections interleave arbitrarily ([steps]). *)

From S2P Require Import Prelude.

(** What can be asked, and the answers the environment may give. *)
Class Environment := {
  query : Type;
  answer : query → Type;
  allowed : ∀ q, answer q → Prop
}.

Section Prog.
Context {E : Environment} {W : Type}.

Inductive prog (A : Type) : Type :=
  | Done (a : A)
  | Act (X : Type) (f : W → option (X * W)) (k : X → prog A)
  | Ask (q : query) (k : answer q → prog A).
Arguments Done {A} a.
Arguments Act {A X} f k.
Arguments Ask {A} q k.

#[export] Instance prog_ret : MRet prog := @Done.
#[export] Instance prog_bind : MBind prog := λ A B g,
  fix bind (p : prog A) : prog B :=
    match p with
    | Done a => g a
    | Act f k => Act f (λ x, bind (k x))
    | Ask q k => Ask q (λ x, bind (k x))
    end.

(** A section that is always enabled, and one that waits for a condition. *)
Definition atomic {X} (f : W → X * W) : prog X := Act (λ w, Some (f w)) Done.
Definition modify (f : W → W) : prog unit := atomic (λ w, (tt, f w)).
Definition reads {X} (f : W → X) : prog X := atomic (λ w, (f w, w)).
Definition await (ready : W → bool) (f : W → W) : prog unit :=
  Act (λ w, if ready w then Some (tt, f w) else None) Done.
Definition ask (q : query) : prog (answer q) := Ask q Done.

(** ** Running alone

    [o i q] answers the [i]-th question.  The result is [None] when a section
    is blocked. *)
Definition oracle : Type := nat → ∀ q, answer q.
Fixpoint run {A} (o : oracle) (i : nat) (p : prog A) (w : W) : option (A * W * nat) :=
  match p with
  | Done a => Some (a, w, i)
  | Act f k => match f w with Some (x, w) => run o i (k x) w | None => None end
  | Ask q k => run o (S i) (k (o i q)) w
  end.

(** The program [p] runs, up to where [q] is left. *)
Inductive reaches {A} (o : oracle) : nat → prog A → W → nat → prog A → W → Prop :=
  | reaches_refl i p w : reaches o i p w i p w
  | reaches_act {X} i (f : W → option (X * W)) k x w w1 j q w' :
      f w = Some (x, w1) → reaches o i (k x) w1 j q w' → reaches o i (Act f k) w j q w'
  | reaches_ask i qu k w j q w' : reaches o (S i) (k (o i qu)) w j q w' → reaches o i (Ask qu k) w j q w'.
Lemma reaches_trans {A} (o : oracle) i (p : prog A) w j q w' k r w'' :
  reaches o i p w j q w' → reaches o j q w' k r w'' → reaches o i p w k r w''.
Proof. induction 1; [done|intros Hr; eapply reaches_act; eauto|intros Hr; apply reaches_ask; auto]. Qed.
Lemma reaches_bind {A B} (o : oracle) i (p : prog A) w j q w' (g : A → prog B) :
  reaches o i p w j q w' → reaches o i (p ≫= g) w j (q ≫= g) w'.
Proof. induction 1; [apply reaches_refl|by eapply reaches_act|by apply reaches_ask]. Qed.
Lemma run_reaches {A} (o : oracle) (p : prog A) : ∀ i w a w' j,
  run o i p w = Some (a, w', j) → reaches o i p w j (Done a) w'.
Proof.
  induction p as [b|X f k IH|q k IH]; simpl; intros i w a w' j Er.
  - simplify_eq. apply reaches_refl.
  - destruct (f w) as [[x w1]|] eqn:Ef; [|done]. eapply reaches_act; [done|by apply IH].
  - apply reaches_ask. by apply IH.
Qed.
(** What is left has the rest of the run to do. *)
Lemma reaches_run {A} (o : oracle) i (p : prog A) w j q w' :
  reaches o i p w j q w' → run o i p w = run o j q w'.
Proof. induction 1 as [|X i f k x w w1 j q w' Ef _ IH|]; simpl; [done| |done]. by rewrite Ef. Qed.
(** A part that ran, and then the rest. *)
Lemma reaches_after {A B} (o : oracle) i (p : prog A) w a w1 i1 (g : A → prog B) j q w' :
  run o i p w = Some (a, w1, i1) → reaches o i1 (g a) w1 j q w' → reaches o i (p ≫= g) w j q w'.
Proof. intros Er Hr. eapply reaches_trans; [by eapply reaches_bind, run_reaches|done]. Qed.

(** ** Interleavings

    One step runs one section of one thread, or answers its question. *)
Definition prog_step {A} (p : prog A) (w : W) (p' : prog A) (w' : W) : Prop :=
  match p with
  | Done _ => False
  | Act f k => ∃ x, f w = Some (x, w') ∧ p' = k x
  | Ask q k => ∃ a, allowed q a ∧ p' = k a ∧ w' = w
  end.

(** Threads start at any time; [starts w p] says which programs may start in
    state [w]. *)
Context (starts : W → prog unit → Prop).
Inductive step : list (prog unit) * W → list (prog unit) * W → Prop :=
  | step_thread ts1 p p' ts2 w w' :
      prog_step p w p' w' → step (ts1 ++ p :: ts2, w) (ts1 ++ p' :: ts2, w')
  | step_spawn ts p w : starts w p → step (ts, w) (p :: ts, w).
Definition steps := rtc step.

(** A run alone is one of the interleavings. *)
Lemma run_steps (o : oracle) i p w ts w' j :
  (∀ i q, allowed q (o i q)) → run o i p w = Some (tt, w', j) → steps (p :: ts, w) (Done tt :: ts, w').
Proof.
  intros Ho. revert i w. induction p as [a|X f k IH|q k IH]; simpl; intros i w Er.
  - destruct a. simplify_eq. apply rtc_refl.
  - destruct (f w) as [[x w1]|] eqn:Ef; [|done]. eapply rtc_l; [|by eapply IH].
    apply (step_thread [] _ _ ts). simpl. eauto.
  - eapply rtc_l; [|by eapply IH]. apply (step_thread [] _ _ ts). simpl. eauto.
Qed.

(** ** The rely-guarantee rule

    [I] holds at all times and [R] relates the states before and after any
    section of any thread.  [safe P p Q]: from a state that satisfies [I] and
    [P], each section of [p] preserves [I] and respects [R], and [p] ends with
    [Q] of its result, [P] being kept by the other threads' steps. *)
Context (I : W → Prop) (R : W → W → Prop).
Definition stable (P : W → Prop) : Prop := ∀ w w', R w w' → P w → P w'.

Fixpoint safe {A} (Q : A → W → Prop) (P : W → Prop) (p : prog A) : Prop :=
  match p with
  | Done a => ∀ w, I w → P w → Q a w
  | Act f k => ∃ P' : _ → W → Prop,
      (∀ w x w', I w → P w → f w = Some (x, w') → I w' ∧ R w w' ∧ P' x w') ∧
      (∀ x, stable (P' x)) ∧ (∀ x, safe Q (P' x) (k x))
  | Ask q k => ∀ a, allowed q a → safe Q P (k a)
  end.

Lemma safe_weaken {A} (Q Q' : A → W → Prop) (P P' : W → Prop) p :
  safe Q P p → (∀ w, I w → P' w → P w) → (∀ a w, I w → Q a w → Q' a w) → safe Q' P' p.
Proof.
  revert P P'. induction p as [a|X f k IH|q k IH]; simpl; intros P P' Hp HP HQ.
  - eauto.
  - destruct Hp as (Px & Hf & Hs & Hk). exists Px. split; [eauto|]. split; [done|].
    intros x. by eapply IH.
  - intros a Ha. eapply IH; eauto.
Qed.
Lemma safe_bind {A B} (Q : A → W → Prop) (S : B → W → Prop) (g : A → prog B) P p :
  safe Q P p → (∀ a, safe S (Q a) (g a)) → safe S P (p ≫= g).
Proof.
  revert P. induction p as [a|X f k IH|q k IH]; simpl; intros P Hp Hg.
  - eapply safe_weaken; [apply Hg|done|done].
  - destruct Hp as (Px & Hf & Hs & Hk). exists Px. split; [done|]. split; [done|]. intros x. by apply IH.
  - intros a Ha. apply IH; [by apply Hp|done].
Qed.

(** What the other threads keep may be carried along. *)
Lemma safe_frame {A} (Q : A → W → Prop) (P F : W → Prop) p :
  stable F → safe Q P p → safe (λ a w, Q a w ∧ F w) (λ w, P w ∧ F w) p.
Proof.
  intros HF. revert P. induction p as [a|X f k IH|q k IH]; simpl; intros P Hp.
  - intros w HI [HP HFw]. eauto.
  - destruct Hp as (Px & Hf & Hs & Hk). exists (λ x w, Px x w ∧ F w). split; [|split].
    + intros w x w' HI [HP HFw] Ef. destruct (Hf w x w' HI HP Ef) as (HI' & HR & HPx). eauto 6.
    + intros x w w' HR [HPx HFw]. split; [by eapply Hs|by eapply HF].
    + intros x. by apply IH.
  - intros a Ha. by apply IH, Hp.
Qed.
(** The weakest precondition, and pure preconditions. *)
Lemma safe_wp {A} (Q : A → W → Prop) p : safe Q (λ w, ∃ P, stable P ∧ P w ∧ safe Q P p) p.
Proof.
  induction p as [a|X f k IH|q k IH]; simpl.
  - intros w HI (P & _ & HP & Hd). eauto.
  - exists (λ x w, ∃ P, stable P ∧ P w ∧ safe Q P (k x)). split; [|split].
    + intros w x w' HI (P & HsP & HP & Px & Hf & Hs & Hk) Ef.
      destruct (Hf w x w' HI HP Ef) as (HI' & HR & HPx). split; [done|]. split; [done|]. exists (Px x). auto.
    + intros x w w' HR (P & HsP & HP & Hk). exists P. eauto.
    + done.
  - intros a Ha. eapply safe_weaken; [apply IH| |done]. intros w HI (P & HsP & HP & Hk). exists P. auto.
Qed.
Lemma safe_pure {A} (Q : A → W → Prop) (P : W → Prop) (φ : Prop) p :
  stable P → (φ → safe Q P p) → safe Q (λ w, P w ∧ φ) p.
Proof.
  intros HP Hp. eapply safe_weaken; [apply safe_wp| |done]. intros w HI [HPw Hφ]. exists P. auto.
Qed.

(** A run alone of a safe program keeps [I] and ends with [Q]. *)
Lemma safe_run {A} (Q : A → W → Prop) (o : oracle) p : ∀ (P : W → Prop) i w a w' j,
  (∀ i q, allowed q (o i q)) → safe Q P p → I w → P w → run o i p w = Some (a, w', j) → I w' ∧ Q a w'.
Proof.
  induction p as [b|X f k IH|q k IH]; simpl; intros P i w a w' j Ho Hs HI HP Er.
  - simplify_eq. eauto.
  - destruct (f w) as [[x w1]|] eqn:Ef; [|done]. destruct Hs as (Px & Hact & _ & Hk).
    destruct (Hact w x w1 HI HP Ef) as (HI1 & _ & HP1). by eapply IH.
  - eapply IH; [done|by apply Hs|done..].
Qed.

Definition startable : Prop := ∀ w p, I w → starts w p → ∃ P, stable P ∧ P w ∧ safe (λ _ _, True) P p.
Definition thread_ok (w : W) (p : prog unit) : Prop := ∃ P, stable P ∧ P w ∧ safe (λ _ _, True) P p.

Lemma prog_step_ok p w p' w' :
  I w → thread_ok w p → prog_step p w p' w' → I w' ∧ (w' = w ∨ R w w') ∧ thread_ok w' p'.
Proof.
  intros HI (P & HP & Hw & Hs) Hst. destruct p as [a|X f k|q k]; simpl in *; [done|..].
  - destruct Hst as (x & Hf & ->), Hs as (Px & Hact & Hst & Hk).
    edestruct Hact as (HI' & HR & HP'); [done..|]. split; [done|]. split; [by right|]. exists (Px x). eauto.
  - destruct Hst as (a & Ha & -> & ->). split; [done|]. split; [by left|]. exists P. eauto.
Qed.
Lemma steps_ok ts w ts' w' :
  startable → steps (ts, w) (ts', w') → I w → Forall (thread_ok w) ts → I w' ∧ Forall (thread_ok w') ts'.
Proof.
  intros Hstart Hs. remember (ts, w) as c eqn:Ec. remember (ts', w') as c' eqn:Ec'.
  revert ts w Ec. induction Hs as [c|c c1 c2 Hst Hs IH]; intros ts w -> HI Hts; [by simplify_eq|].
  specialize (IH Ec'). inv Hst.
  - apply Forall_app in Hts as [Hts1 Hts2]. apply Forall_cons in Hts2 as [Hp Hts2].
    edestruct prog_step_ok as (HI' & HR & Hp'); [done..|]. eapply IH; [done|done|].
    assert (∀ q, thread_ok w q → thread_ok w'0 q) as Hmono.
    { intros q (P & HP & Hw & Hq). destruct HR as [->|HR]; [by exists P|]. exists P. eauto. }
    apply Forall_app. split; [by eapply Forall_impl|]. apply Forall_cons. split; [done|by eapply Forall_impl].
  - eapply IH; [done|done|]. apply Forall_cons. split; [by apply Hstart|done].
Qed.
(** A later state is related to an earlier one. *)
Lemma steps_related ts w ts' w' :
  startable → steps (ts, w) (ts', w') → I w → Forall (thread_ok w) ts → rtc R w w'.
Proof.
  intros Hstart Hs. remember (ts, w) as c eqn:Ec. remember (ts', w') as c' eqn:Ec'.
  revert ts w Ec. induction Hs as [c|c c1 c2 Hst Hs IH]; intros ts w -> HI Hts; [by simplify_eq|].
  destruct c1 as [ts1 w1].
  destruct (steps_ok ts w ts1 w1) as [HI1 Hts1]; [done|by apply rtc_once|done|done|].
  specialize (IH Ec' ts1 w1 eq_refl HI1 Hts1). etrans; [|exact IH]. inv Hst; [|done].
  apply Forall_app in Hts as [_ Hts]. apply Forall_cons in Hts as [Hp _].
  match goal with Hst : prog_step _ _ _ _ |- _ => destruct (prog_step_ok _ _ _ _ HI Hp Hst) as (_ & [HR|HR] & _) end.
  - rewrite HR. apply rtc_refl.
  - by apply rtc_once.
Qed.
End Prog.
Arguments prog {E} W A.
Arguments Done {E W A} a.
Arguments Act {E W A X} f k.
Arguments Ask {E W A} q k.
Arguments oracle {E}.
