(* ===== verification/Events.v ===== *)
(** * Events and the sending side of their queue (core/src/event.rs,
      core/src/queue.rs, core/src/signal.rs)

    [Events] is what a connection holds of the hub's channel: it can send, it
    sees the hub's closing signal, and it carries the admission slot of an
    accepted connection. *)

From S2P Require Import Prelude.

(** [event::Request]; the peer is kept as the text of its address and its port. *)
Record UpgradeRequest := {
  path : bytes; req_headers : list (bytes * bytes); req_protocols : list bytes; addr : bytes * Z
}.
(** A reply sender and a connection handle are known by their identifiers. *)
Inductive Event :=
  | EvOpen (id : Z)
  | EvRequest (server : Z) (req : UpgradeRequest) (reply : Z)
  | EvConnection (server conn : Z) (req : UpgradeRequest)
  | EvMessage (id : Z) (data : bytes) (binary : bool)
  | EvPing (id : Z) (data : bytes)
  | EvPong (id : Z) (data : bytes)
  | EvError (id : Z) (error : bytes)
  | EvDrain (id : Z)
  | EvClose (id : Z) (code : Z) (reason : bytes).
Definition is_close (e : Event) : bool := match e with EvClose _ _ _ => true | _ => false end.

(** An envelope: the event, and whether it holds the connection's admission
    slot and a pending handshake slot. *)
Record Queued := { q_event : Event; q_permit : bool; q_pending : bool }.

Record Events := {
  sent : list Queued;          (* what this sender put in the channel, in order *)
  permit : option bool;        (* the admission, and whether it still holds the slot *)
  hub_closed : bool;           (* the hub's signal *)
  receiver : bool              (* the receiving end of the channel exists *)
}.

(** [From<Sender<Queued>>], [Events::admitted] *)
Definition events_from : Events := {| sent := []; permit := None; hub_closed := false; receiver := true |}.
Definition admitted (e : Events) : Events :=
  {| sent := sent e; permit := Some true; hub_closed := hub_closed e; receiver := receiver e |}.
(** [Events::close] *)
Definition events_close (e : Events) : Events :=
  {| sent := sent e; permit := permit e; hub_closed := true; receiver := receiver e |}.
(** The receiver is dropped with the hub. *)
Definition drop_receiver (e : Events) : Events :=
  {| sent := sent e; permit := permit e; hub_closed := hub_closed e; receiver := false |}.

(** [Events::send_pending]: the slot is taken by the final event and shared by
    the others; the result says whether the event entered the channel. *)
Definition send_pending (ev : Event) (pending : bool) (e : Events) : bool * Events :=
  let slot := match permit e with Some held => held | None => false end in
  let permit := match permit e with Some held => Some (if is_close ev then false else held) | None => None end in
  let e' := {| sent := sent e; permit := permit; hub_closed := hub_closed e; receiver := receiver e |} in
  if hub_closed e then (false, e') else
  if receiver e then
    (true, {| sent := sent e ++ [{| q_event := ev; q_permit := slot; q_pending := pending |}];
              permit := permit; hub_closed := hub_closed e; receiver := receiver e |})
  else (false, e').
(** [Events::send] *)
Definition events_send (ev : Event) (e : Events) : bool * Events := send_pending ev false e.

(** ** The final event *)
Definition no_close (l : list Queued) : Prop := Forall (λ q, is_close (q_event q) = false) l.
Lemma no_close_app a b : no_close (a ++ b) ↔ no_close a ∧ no_close b.
Proof. apply Forall_app. Qed.
(** At most one [Close], and nothing after it. *)
Definition close_last (l : list Queued) : Prop :=
  no_close l ∨ ∃ pre q, l = pre ++ [q] ∧ no_close pre ∧ is_close (q_event q) = true.
