(* ===== verification/Link.v ===== *)
(** * The connection (core/src/net/link/): data and operations

    A [Link] is shared by the application's handles and by the reader and
    writer of its connection task.  Its state is the record [World]: the
    fields of [Link] (mod.rs), the tokio [Notify] permits, the cells shared
    with the heartbeat probes, the local variables of the writer's loop, and
    the bytes handed to the transport.  Every method is a program whose
    sections are the critical sections of the source.

    - [flags] is a mutex: a section under it waits until no [send] is between
      its two sections ([owner]); [queue] is a mutex taken inside one section.
    - The clock, the masks and the transport are questions to the environment;
      time is in nanoseconds.
    - The bytes of the outbound queue are all in memory, so that a section
      which would make them exceed the address space does not happen: the
      allocator aborts the process ([in_memory]). *)

From S2P Require Import Prelude Utf8 Str Frame Reader Events Prog.

(** ** Data (mod.rs, send.rs, heartbeat.rs) *)
Definition SECOND : Z := 1000000000.
Definition CLOSE_TIMEOUT : Z := 5 * SECOND.
Definition EVENT_COST : Z := 64.
Definition JOIN : Z := 16 * 1024.
Definition INBOX_LIMIT : Z := Z.shiftl 1 20.
Definition PONG_LIMIT : Z := Z.shiftl 1 20.
Definition READ_CHUNK : Z := 16 * 1024.

(** What does not change: the configuration, the heartbeat token, the birth. *)
Record Config := {
  id : Z; is_server : bool; max_message : Z; buffer : Z; interval : option Z; token : bytes; born : Z
}.
Inductive State := Connecting | Open | Closing | Closed.
#[export] Instance State_eq_dec : EqDecision State.
Proof. solve_decision. Defined.
Record Flags := {
  state : State;
  sent_close : bool;
  close_received : option (Z * bytes);
  failed : option Z;
  deadline : option Z
}.
(** A heartbeat carries the cell ([Arc<Mutex<Option<Instant>>>]) where the
    writer notes when it was transmitted. *)
Inductive Item := Data (data : bytes) | Heartbeat (data : bytes) (sent_at : nat) | Shutdown.
Record Queue := {
  items : list Item; done : bool; shutdown : bool; drain : option Z; pong : option bytes
}.
(** The stored permits of [ready], [consumed], [drained] and [changed]. *)
Record Wakes := { ready : bool; wake_consumed : bool; drained : bool; changed : bool }.
(** The writer: items taken from the queue, what is left of the current one,
    the cell of a heartbeat, and the bytes the transport accepted that are not
    yet subtracted from [buffered]. *)
Record Writer := { batch : list Item; current : bytes; probe : option nat; unacked : Z }.
Record World := {
  cfg : Config;
  flags : Flags;
  queue : Queue;
  wakes : Wakes;
  buffered : Z;
  inbox : Z;
  stopped : bool;
  written : Z;
  received : Z;
  io : option bool;
  protocol : option (option bytes);
  events : Events;
  owner : option nat;
  cells : list (option Z);
  wtr : Writer;
  wire : bytes;
  wire_shut : bool;
  bound : bool
}.

Definition set_flags (x : Flags) (w : World) : World :=
  {| cfg := cfg w; flags := x; queue := queue w; wakes := wakes w; buffered := buffered w; inbox := inbox w; stopped := stopped w; written := written w; received := received w; io := io w; protocol := protocol w; events := events w; owner := owner w; cells := cells w; wtr := wtr w; wire := wire w; wire_shut := wire_shut w; bound := bound w |}.
Definition set_queue (x : Queue) (w : World) : World :=
  {| cfg := cfg w; flags := flags w; queue := x; wakes := wakes w; buffered := buffered w; inbox := inbox w; stopped := stopped w; written := written w; received := received w; io := io w; protocol := protocol w; events := events w; owner := owner w; cells := cells w; wtr := wtr w; wire := wire w; wire_shut := wire_shut w; bound := bound w |}.
Definition set_wakes (x : Wakes) (w : World) : World :=
  {| cfg := cfg w; flags := flags w; queue := queue w; wakes := x; buffered := buffered w; inbox := inbox w; stopped := stopped w; written := written w; received := received w; io := io w; protocol := protocol w; events := events w; owner := owner w; cells := cells w; wtr := wtr w; wire := wire w; wire_shut := wire_shut w; bound := bound w |}.
Definition set_buffered (x : Z) (w : World) : World :=
  {| cfg := cfg w; flags := flags w; queue := queue w; wakes := wakes w; buffered := x; inbox := inbox w; stopped := stopped w; written := written w; received := received w; io := io w; protocol := protocol w; events := events w; owner := owner w; cells := cells w; wtr := wtr w; wire := wire w; wire_shut := wire_shut w; bound := bound w |}.
Definition set_inbox (x : Z) (w : World) : World :=
  {| cfg := cfg w; flags := flags w; queue := queue w; wakes := wakes w; buffered := buffered w; inbox := x; stopped := stopped w; written := written w; received := received w; io := io w; protocol := protocol w; events := events w; owner := owner w; cells := cells w; wtr := wtr w; wire := wire w; wire_shut := wire_shut w; bound := bound w |}.
Definition set_stopped (x : bool) (w : World) : World :=
  {| cfg := cfg w; flags := flags w; queue := queue w; wakes := wakes w; buffered := buffered w; inbox := inbox w; stopped := x; written := written w; received := received w; io := io w; protocol := protocol w; events := events w; owner := owner w; cells := cells w; wtr := wtr w; wire := wire w; wire_shut := wire_shut w; bound := bound w |}.
Definition set_written (x : Z) (w : World) : World :=
  {| cfg := cfg w; flags := flags w; queue := queue w; wakes := wakes w; buffered := buffered w; inbox := inbox w; stopped := stopped w; written := x; received := received w; io := io w; protocol := protocol w; events := events w; owner := owner w; cells := cells w; wtr := wtr w; wire := wire w; wire_shut := wire_shut w; bound := bound w |}.
Definition set_received (x : Z) (w : World) : World :=
  {| cfg := cfg w; flags := flags w; queue := queue w; wakes := wakes w; buffered := buffered w; inbox := inbox w; stopped := stopped w; written := written w; received := x; io := io w; protocol := protocol w; events := events w; owner := owner w; cells := cells w; wtr := wtr w; wire := wire w; wire_shut := wire_shut w; bound := bound w |}.
Definition set_io (x : option bool) (w : World) : World :=
  {| cfg := cfg w; flags := flags w; queue := queue w; wakes := wakes w; buffered := buffered w; inbox := inbox w; stopped := stopped w; written := written w; received := received w; io := x; protocol := protocol w; events := events w; owner := owner w; cells := cells w; wtr := wtr w; wire := wire w; wire_shut := wire_shut w; bound := bound w |}.
Definition set_protocol (x : option (option bytes)) (w : World) : World :=
  {| cfg := cfg w; flags := flags w; queue := queue w; wakes := wakes w; buffered := buffered w; inbox := inbox w; stopped := stopped w; written := written w; received := received w; io := io w; protocol := x; events := events w; owner := owner w; cells := cells w; wtr := wtr w; wire := wire w; wire_shut := wire_shut w; bound := bound w |}.
Definition set_events (x : Events) (w : World) : World :=
  {| cfg := cfg w; flags := flags w; queue := queue w; wakes := wakes w; buffered := buffered w; inbox := inbox w; stopped := stopped w; written := written w; received := received w; io := io w; protocol := protocol w; events := x; owner := owner w; cells := cells w; wtr := wtr w; wire := wire w; wire_shut := wire_shut w; bound := bound w |}.
Definition set_owner (x : option nat) (w : World) : World :=
  {| cfg := cfg w; flags := flags w; queue := queue w; wakes := wakes w; buffered := buffered w; inbox := inbox w; stopped := stopped w; written := written w; received := received w; io := io w; protocol := protocol w; events := events w; owner := x; cells := cells w; wtr := wtr w; wire := wire w; wire_shut := wire_shut w; bound := bound w |}.
Definition set_cells (x : list (option Z)) (w : World) : World :=
  {| cfg := cfg w; flags := flags w; queue := queue w; wakes := wakes w; buffered := buffered w; inbox := inbox w; stopped := stopped w; written := written w; received := received w; io := io w; protocol := protocol w; events := events w; owner := owner w; cells := x; wtr := wtr w; wire := wire w; wire_shut := wire_shut w; bound := bound w |}.
Definition set_wtr (x : Writer) (w : World) : World :=
  {| cfg := cfg w; flags := flags w; queue := queue w; wakes := wakes w; buffered := buffered w; inbox := inbox w; stopped := stopped w; written := written w; received := received w; io := io w; protocol := protocol w; events := events w; owner := owner w; cells := cells w; wtr := x; wire := wire w; wire_shut := wire_shut w; bound := bound w |}.
Definition set_wire (x : bytes) (w : World) : World :=
  {| cfg := cfg w; flags := flags w; queue := queue w; wakes := wakes w; buffered := buffered w; inbox := inbox w; stopped := stopped w; written := written w; received := received w; io := io w; protocol := protocol w; events := events w; owner := owner w; cells := cells w; wtr := wtr w; wire := x; wire_shut := wire_shut w; bound := bound w |}.
Definition set_wire_shut (x : bool) (w : World) : World :=
  {| cfg := cfg w; flags := flags w; queue := queue w; wakes := wakes w; buffered := buffered w; inbox := inbox w; stopped := stopped w; written := written w; received := received w; io := io w; protocol := protocol w; events := events w; owner := owner w; cells := cells w; wtr := wtr w; wire := wire w; wire_shut := x; bound := bound w |}.
Definition set_bound (x : bool) (w : World) : World :=
  {| cfg := cfg w; flags := flags w; queue := queue w; wakes := wakes w; buffered := buffered w; inbox := inbox w; stopped := stopped w; written := written w; received := received w; io := io w; protocol := protocol w; events := events w; owner := owner w; cells := cells w; wtr := wtr w; wire := wire w; wire_shut := wire_shut w; bound := x |}.

Definition set_state (x : State) (r : Flags) : Flags := {| state := x; sent_close := sent_close r; close_received := close_received r; failed := failed r; deadline := deadline r |}.
Definition set_sent_close (x : bool) (r : Flags) : Flags := {| state := state r; sent_close := x; close_received := close_received r; failed := failed r; deadline := deadline r |}.
Definition set_close_received (x : option (Z * bytes)) (r : Flags) : Flags := {| state := state r; sent_close := sent_close r; close_received := x; failed := failed r; deadline := deadline r |}.
Definition set_failed (x : option Z) (r : Flags) : Flags := {| state := state r; sent_close := sent_close r; close_received := close_received r; failed := x; deadline := deadline r |}.
Definition set_deadline (x : option Z) (r : Flags) : Flags := {| state := state r; sent_close := sent_close r; close_received := close_received r; failed := failed r; deadline := x |}.
Definition set_items (x : list Item) (r : Queue) : Queue := {| items := x; done := done r; shutdown := shutdown r; drain := drain r; pong := pong r |}.
Definition set_done (x : bool) (r : Queue) : Queue := {| items := items r; done := x; shutdown := shutdown r; drain := drain r; pong := pong r |}.
Definition set_shutdown (x : bool) (r : Queue) : Queue := {| items := items r; done := done r; shutdown := x; drain := drain r; pong := pong r |}.
Definition set_drain (x : option Z) (r : Queue) : Queue := {| items := items r; done := done r; shutdown := shutdown r; drain := x; pong := pong r |}.
Definition set_pong (x : option bytes) (r : Queue) : Queue := {| items := items r; done := done r; shutdown := shutdown r; drain := drain r; pong := x |}.
Definition set_ready (x : bool) (r : Wakes) : Wakes := {| ready := x; wake_consumed := wake_consumed r; drained := drained r; changed := changed r |}.
Definition set_wake_consumed (x : bool) (r : Wakes) : Wakes := {| ready := ready r; wake_consumed := x; drained := drained r; changed := changed r |}.
Definition set_drained (x : bool) (r : Wakes) : Wakes := {| ready := ready r; wake_consumed := wake_consumed r; drained := x; changed := changed r |}.
Definition set_changed (x : bool) (r : Wakes) : Wakes := {| ready := ready r; wake_consumed := wake_consumed r; drained := drained r; changed := x |}.

Definition on_flags (f : Flags → Flags) (w : World) : World := set_flags (f (flags w)) w.
Definition on_queue (f : Queue → Queue) (w : World) : World := set_queue (f (queue w)) w.
Definition on_wakes (f : Wakes → Wakes) (w : World) : World := set_wakes (f (wakes w)) w.
(** [notify_one] on one of the four [Notify]s. *)
Definition notify (field : bool → Wakes → Wakes) : World → World := on_wakes (field true).

(** [Link::new] *)
Definition link_new (c : Config) (e : Events) : World := {|
  cfg := c;
  flags := {| state := Connecting; sent_close := false; close_received := None; failed := None; deadline := None |};
  queue := {| items := []; done := false; shutdown := false; drain := None; pong := None |};
  wakes := {| ready := false; wake_consumed := false; drained := false; changed := false |};
  buffered := 0; inbox := 0; stopped := false; written := 0; received := 0;
  io := None; protocol := None; events := e; owner := None; cells := [];
  wtr := {| batch := []; current := []; probe := None; unacked := 0 |}; wire := []; wire_shut := false;
  bound := false
|}.

(** ** Bytes on their way out *)
Definition item_bytes (i : Item) : bytes := match i with Data b => b | Heartbeat b _ => b | Shutdown => [] end.
Definition items_bytes (l : list Item) : bytes := concat (map item_bytes l).
(** Accepted by the queue and not yet by the transport. *)
Definition pending_out (w : World) : bytes :=
  current (wtr w) ++ items_bytes (batch (wtr w)) ++ items_bytes (items (queue w)).
Definition outstanding (w : World) : Z := unacked (wtr w) + zlen (pending_out w).
Definition in_memory (w : World) : bool := outstanding w <=? USIZE_MAX.

(** ** The environment *)
Inductive selection :=
  | SelStopped | SelHubClosed | SelChanged | SelConsumed | SelRead | SelTimer | SelDrained | SelReady | SelFlush.
Inductive read_result := ReadOk (data : bytes) | ReadErr (invalid_data : bool) (text : bytes).
(** An operation of the transport: it completes, fails, or is dropped because
    the loop that awaits it is cancelled. *)
Inductive io_result (A : Type) := IoOk (a : A) | IoFailed | IoCancelled.
Arguments IoOk {A} a.
Arguments IoFailed {A}.
Arguments IoCancelled {A}.
Inductive link_query := Now | Key | Select | ReadIo | WriteIo (len : Z) | FlushIo | ShutdownIo.
(** A key is four random bytes; a write accepts at most what it is given; a
    read returns at most a chunk; [FlushIo] and [ShutdownIo] may fail. *)
#[export] Instance link_env : Environment := {|
  query := link_query;
  answer q := match q with
              | Now => Z | Key => key4 | Select => selection | ReadIo => read_result
              | WriteIo _ => io_result Z | FlushIo => io_result unit | ShutdownIo => io_result unit
              end;
  allowed q := match q with
               | Now => λ t, 0 <= t
               | Key => key_ok
               | ReadIo => λ r, match r with ReadOk d => bytes_ok d ∧ zlen d <= READ_CHUNK | ReadErr _ _ => True end
               | WriteIo len => λ n, match n with IoOk n => 0 <= n <= len | _ => True end
               | _ => λ _, True
               end
|}.
Abbreviation method := (prog World).

(** A critical section under [flags]. *)
Definition locked {X} (f : World → X * World) : method X :=
  Act (λ w, match owner w with
            | None => if in_memory (f w).2 then Some (f w) else None
            | Some _ => None
            end) Done.
(** A section of the thread that already holds [flags]. *)
Definition held {X} (tid : nat) (f : World → X * World) : method X :=
  Act (λ w, if bool_decide (owner w = Some tid) && in_memory (f w).2 then Some (f w) else None) Done.

(** ** The outbound queue (send.rs) *)
Section Link.
Context `{Target}.

Definition fits (w : World) (len : Z) : bool :=
  (buffered w =? 0) || (sat_add (buffered w) len <=? buffer (cfg w)).

Definition mask_of (w : World) (key : key4) : option key4 := if is_server (cfg w) then None else Some key.
Definition frame (w : World) (key : key4) (op : Z) (payload : bytes) : bytes :=
  encode op payload (mask_of w key).

(** [frame::encoded_len(payload.len(), !self.server)] *)
Definition wire_len (w : World) (payload : bytes) : Z := encoded_len (zlen payload) (negb (is_server (cfg w))).

(** [q.items.back_mut()]: the items before the last one, and the last one. *)
Definition back (l : list Item) : option (list Item * Item) :=
  match rev l with i :: r => Some (rev r, i) | [] => None end.

Definition fetch_add_buffered (n : Z) (w : World) : World := set_buffered (u64 (buffered w + n)) w.

Definition enqueue (item : Item) (w : World) : World :=
  let q := queue w in
  if done q then w else
  match item with
  | Data [] => w
  | Data data =>
      let its :=
        match back (items q) with
        | Some (r, Data last) =>
            if (zlen data <? JOIN) && (zlen last <? JOIN) then r ++ [Data (last ++ data)] else items q ++ [Data data]
        | _ => items q ++ [Data data]
        end in
      notify set_ready (on_queue (set_items its) (fetch_add_buffered (zlen data) w))
  | Heartbeat data sent =>
      notify set_ready (on_queue (set_items (items q ++ [Heartbeat data sent])) (fetch_add_buffered (zlen data) w))
  | Shutdown =>
      notify set_ready (on_queue (λ q, set_items (items q ++ [Shutdown]) (set_shutdown true (set_pong None q))) w)
  end.

Definition push (data : bytes) (w : World) : World :=
  match io w with Some _ => enqueue (Data data) w | None => w end.

Definition push_frame (key : key4) (op : Z) (payload : bytes) (w : World) : World :=
  let len := wire_len w payload in
  if JOIN <=? len then push (frame w key op payload) w else
  match io w with
  | None => w
  | Some _ =>
      let q := queue w in
      if done q then w else
      let its :=
        match back (items q) with
        | Some (r, Data last) =>
            if zlen last <? JOIN then r ++ [Data (encode_into last op payload (mask_of w key))]
            else items q ++ [Data (encode op payload (mask_of w key))]
        | _ => items q ++ [Data (encode op payload (mask_of w key))]
        end in
      notify set_ready (fetch_add_buffered len (on_queue (set_items its) w))
  end.

Definition push_heartbeat (key : key4) (sent : nat) (w : World) : World :=
  match io w with
  | Some _ => enqueue (Heartbeat (frame w key PING (token (cfg w))) sent) w
  | None => w
  end.
Definition push_shutdown (w : World) : World :=
  match io w with Some _ => enqueue Shutdown w | None => w end.
Definition stop_writer (w : World) : World :=
  notify set_ready
    (on_queue (λ q, {| items := []; done := true; shutdown := false; drain := drain q; pong := None |}) w).

(** Whether a ping may still be answered. *)
Definition may_pong (f : Flags) : bool :=
  negb (bool_decide (state f = Closed)) && bool_decide (close_received f = None) && bool_decide (failed f = None).
Definition flush_pong_section (key : key4) (w : World) : unit * World :=
  let p := pong (queue w) in
  let w := on_queue (set_pong None) w in
  (tt, match p with
       | Some data => if may_pong (flags w) then push_frame key PONG data w else w
       | None => w
       end).
Definition flush_pong : method unit := key ← ask Key; locked (flush_pong_section key).

(** [Link::send]: [flags] is held from the first section to the last. *)
Inductive send_next := Refused (why : bytes) | Full | Fits.
Definition send_enter (tid : nat) (payload : bytes) (w : World) : send_next * World :=
  let f := flags w in
  if negb (bool_decide (state f = Open)) || sent_close f then
    (Refused (if bool_decide (state f = Connecting) then bs "not open yet" else bs "closed"), w)
  else (if fits w (wire_len w payload) then Fits else Full, set_owner (Some tid) w).
(** Under the queue's lock: register the drain request, or go on. *)
Definition send_recheck (payload : bytes) (w : World) : bool * World :=
  let len := wire_len w payload in
  if fits w len then (true, w) else (false, set_owner None (on_queue (set_drain (Some len)) w)).
Definition send_push (key : key4) (op : Z) (payload : bytes) (w : World) : unit * World :=
  (tt, set_owner None (push_frame key op payload w)).
Definition send (tid : nat) (op : Z) (payload : bytes) : method (result unit bytes) :=
  key ← ask Key;
  next ← locked (send_enter tid payload);
  match next with
  | Refused why => Done (Err why)
  | Full =>
      room ← held tid (send_recheck payload);
      if (room : bool) then _ ← held tid (send_push key op payload); Done (Ok tt)
      else Done (Err (bs "send buffer is full"))
  | Fits => _ ← held tid (send_push key op payload); Done (Ok tt)
  end.

(** ** Closing (close.rs, state.rs, io.rs, lease.rs) *)
Definition state_of : method State := locked (λ w, (state (flags w), w)).

(** [Io::shutdown]: shuts the socket down once and releases it. *)
Definition io_shutdown (w : World) : World :=
  match io w with Some _ => set_io (Some false) w | None => w end.

Definition finish_section (code : Z) (reason : bytes) (w : World) : bool * World :=
  if bool_decide (state (flags w) = Closed) then (true, w) else
  let w := on_flags (set_state Closed) w in
  (false, set_events (events_send (EvClose (id (cfg w)) code reason) (events w)).2 w).
Definition finish (code : Z) (reason : bytes) : method unit :=
  closed ← locked (finish_section code reason);
  if (closed : bool) then Done tt else
  _ ← modify stop_writer;
  _ ← modify (set_stopped true);
  _ ← modify (notify set_drained);
  modify io_shutdown.
Definition terminate : method unit := finish 1006 [].
(** [Lease::drop] *)
Definition lease_drop : method unit := terminate.

Definition emit_section (ev : Event) (w : World) : bool * World :=
  if bool_decide (state (flags w) = Closed) then (true, w) else
  let '(ok, e) := events_send ev (events w) in (ok, set_events e w).
Definition emit (ev : Event) : method unit :=
  sent ← locked (emit_section ev);
  closed ← reads (λ w, hub_closed (events w));
  if negb sent || closed then terminate else Done tt.

Definition self_id : method Z := reads (λ w, id (cfg w)).
Definition fail (error : bytes) : method unit :=
  i ← self_id;
  _ ← emit (EvError i error);
  finish 1006 [].

(** [deadline.get_or_insert(_)] *)
Definition get_or_insert (d : option Z) (v : Z) : option Z := match d with Some d => Some d | None => Some v end.

Definition close_section (now : Z) (key : key4) (code : Z) (reason : bytes) (w : World) : bool * World :=
  match state (flags w) with
  | Connecting => (true, w)
  | Open =>
      let w := on_flags (λ f, set_deadline (Some (now + CLOSE_TIMEOUT)) (set_state Closing (set_sent_close true f))) w in
      (false, push_frame key CLOSE (close_payload code reason) w)
  | _ => (false, w)
  end.
Definition close (code : Z) (reason : bytes) : method unit :=
  now ← ask Now;
  key ← ask Key;
  connecting ← locked (close_section now key code reason);
  _ ← (if (connecting : bool) then fail (bs "connection closed before it was established") else Done tt);
  modify (notify set_changed).

Definition end_status (f : Flags) : Z * bytes :=
  match close_received f, failed f with
  | Some (code, reason), _ => (code, reason)
  | None, Some code => (code, [])
  | None, None => (1006, [])
  end.
(** [Link::end] *)
Definition end_ : method unit :=
  st ← locked (λ w, (end_status (flags w), w));
  finish st.1 st.2.

(** ** Reacting to messages (handle.rs)

    The sections below hold [flags] and, inside, take the queue's lock more
    than once.  Each is one step because nothing else can change the queue or
    [buffered] between two of those inner sections: [send], [ping], [close] and
    the heartbeat push under [flags]; [stop_writer] follows the section of
    [finish] that closes the connection under [flags], after which the sections
    below do nothing; and the writer is a future of the same task as the reader
    ([tokio::join!] in read.rs), which runs only when the reader waits, and
    [dispatch] never does. *)
Definition violation_section (now : Z) (key : key4) (code : Z) (w : World) : unit * World :=
  if bool_decide (state (flags w) = Closed) then (tt, w) else
  let f := flags w in
  let w := set_flags
    {| state := Closing; sent_close := true; close_received := close_received f;
       failed := Some code; deadline := get_or_insert (deadline f) (now + CLOSE_TIMEOUT) |} w in
  let w := if sent_close f then w else push_frame key CLOSE (close_payload code []) w in
  (tt, push_shutdown w).
Definition violation (e : Fail_) : method unit :=
  i ← self_id;
  _ ← emit (EvError i (fail_why e));
  now ← ask Now;
  key ← ask Key;
  locked (violation_section now key (fail_code e)).

Definition closing_section (now : Z) (key : key4) (status : option (Z * bytes)) (w : World) : unit * World :=
  let f := flags w in
  if bool_decide (state f = Closed) || negb (bool_decide (close_received f = None)) then (tt, w) else
  let w := set_flags
    {| state := Closing; sent_close := true; close_received := Some (default (1005, []) status);
       failed := failed f; deadline := get_or_insert (deadline f) (now + CLOSE_TIMEOUT) |} w in
  let echo := match status with Some (code, _) => close_payload code [] | None => [] end in
  let w := if sent_close f then w else push_frame key CLOSE echo w in
  (tt, if is_server (cfg w) then push_shutdown w else w).
Definition closing (status : option (Z * bytes)) : method unit :=
  now ← ask Now;
  key ← ask Key;
  locked (closing_section now key status).

(** [Link::consumed] *)
Definition consumed (n : Z) : method unit :=
  _ ← modify (λ w, set_inbox (u64 (inbox w - (n + EVENT_COST))) w);
  modify (notify set_wake_consumed).

Definition wait_inbox (s : State) : method bool :=
  if negb (bool_decide (s = Open)) then Done true else reads (λ w, inbox w <? INBOX_LIMIT).

Definition deliver (n : Z) (ev : Event) : method unit :=
  full ← reads (λ w, INBOX_LIMIT <=? inbox w);
  skip ← (if (full : bool) then s ← state_of; Done (negb (bool_decide (s = Open))) else Done false);
  if (skip : bool) then Done tt else
  _ ← modify (λ w, set_inbox (u64 (inbox w + (n + EVENT_COST))) w);
  emit ev.

Definition ping_section (key : key4) (data : bytes) (w : World) : unit * World :=
  (tt,
   if may_pong (flags w) then
     if buffered w <? PONG_LIMIT then push_frame key PONG data (on_queue (set_pong None) w)
     else notify set_ready (on_queue (set_pong (Some data)) w)
   else w).
(** [Link::ours] *)
Definition ours (w : World) (data : bytes) : bool := bool_decide (data = token (cfg w)).

Definition handle (msg : Msg) : method unit :=
  i ← self_id;
  match msg with
  | Text data | Binary data =>
      got_close ← locked (λ w, (negb (bool_decide (close_received (flags w) = None)), w));
      if (got_close : bool) then Done tt
      else deliver (zlen data) (EvMessage i data (match msg with Binary _ => true | _ => false end))
  | Ping data =>
      key ← ask Key;
      _ ← locked (ping_section key data);
      deliver (zlen data) (EvPing i data)
  | Pong data =>
      mine ← reads (λ w, ours w data);
      if (mine : bool) then Done tt else deliver (zlen data) (EvPong i data)
  | Close status => closing status
  end.

(** [Link::dispatch]; a panic of the reader would end the task, and the lease
    would terminate the connection. *)
Fixpoint dispatch_fuel (fuel : nat) (r : Reader) : method (bool * Reader) :=
  match fuel with
  | O => Done (true, r)
  | S fuel =>
      match message r with
      | Ret (r, Ok None) => Done (true, r)
      | Ret (r, Ok (Some msg)) =>
          _ ← handle msg;
          s ← state_of;
          if match msg with Close _ => true | _ => false end || bool_decide (s = Closed) then Done (false, r)
          else dispatch_fuel fuel r
      | Ret (r, Err e) => _ ← violation e; Done (false, r)
      | Panic | OutOfFuel => _ ← lease_drop; Done (false, r)
      end
  end.
Definition dispatch (r : Reader) : method (bool * Reader) := dispatch_fuel (S (length (buf r))) r.

(** ** The writer (write.rs, budget.rs) *)
Definition CHUNK : Z := 64 * 1024.
(** [Budget::progress]: the new count, and whether the task yields. *)
Definition budget_progress (b n : Z) : Z * bool :=
  let b := sat_add b n in if CHUNK <=? b then (0, true) else (b, false).

Definition progress_section (n : Z) (w : World) : bool * World :=
  let left := u64 (buffered w - n) in
  let w := notify set_drained (set_buffered left w) in
  let dr := match drain (queue w) with
            | Some len => (left =? 0) || (sat_add left len <=? buffer (cfg w))
            | None => false
            end in
  (dr, if dr then on_queue (set_drain None) w else w).
(** The writer subtracts what it has just written. *)
Definition writer_progress : method unit :=
  dr ← atomic (λ w, let '(dr, w') := progress_section (unacked (wtr w)) w in
                    (dr, set_wtr {| batch := batch (wtr w'); current := current (wtr w');
                                    probe := probe (wtr w'); unacked := 0 |} w'));
  if (dr : bool) then i ← self_id; emit (EvDrain i) else Done tt.

(** The transport accepted [n] bytes of [data[at..]]. *)
Definition accept_bytes (n : Z) (w : World) : World :=
  let t := wtr w in
  let k := Z.to_nat n in
  set_wire (wire w ++ take k (current t))
    (set_wtr {| batch := batch t; current := drop k (current t); probe := probe t;
                unacked := unacked t + zlen (take k (current t)) |} w).
(** [*lock(sent) = transmitted; self.changed.notify_one()] once the item is out. *)
Definition note_sent (transmitted : Z) (w : World) : World :=
  match current (wtr w), probe (wtr w) with
  | [], Some c => notify set_changed (set_cells (<[c := Some transmitted]> (cells w)) w)
  | _, _ => w
  end.
(** How the writer leaves a step: it goes on, the transport failed, or the
    [select!] of [write_loop] dropped it while it was awaiting. *)
Inductive writer_exit := Going | Failed | Cancelled.
#[export] Instance writer_exit_eq_dec : EqDecision writer_exit.
Proof. solve_decision. Defined.
Fixpoint write_out (fuel : nat) (chunk : Z) (budget : Z) : method (writer_exit * Z) :=
  match fuel with
  | O => Done (Going, budget)
  | S fuel =>
      len ← reads (λ w, zlen (current (wtr w)));
      if len =? 0 then Done (Going, budget) else
      n ← ask (WriteIo (Z.min chunk len));
      match n with
      | IoFailed => Done (Failed, budget)
      | IoCancelled => Done (Cancelled, budget)
      | IoOk n =>
          if n =? 0 then Done (Failed, budget) else
          _ ← modify (accept_bytes n);
          flushed ← ask FlushIo;
          match flushed with
          | IoFailed => Done (Failed, budget)
          | IoCancelled => Done (Cancelled, budget)
          | IoOk _ =>
              transmitted ← reads (λ w, born (cfg w) + written w);
              _ ← writer_progress;
              _ ← modify (note_sent transmitted);
              write_out fuel chunk (budget_progress budget n).1
          end
      end
  end.

(** [items.pop_front()]: the item becomes the current one.  The previous one
    is out: the loop never gets here otherwise. *)
Definition pop_item (w : World) : option (option Item * World) :=
  let t := wtr w in
  match current t, batch t with
  | [], [] => Some (None, w)
  | [], i :: r =>
      Some (Some i, set_wtr {| batch := r; current := item_bytes i;
                               probe := match i with Heartbeat _ c => Some c | _ => None end;
                               unacked := unacked t |} w)
  | _, _ => None
  end.
Fixpoint write_items (fuel : nat) (chunk budget : Z) : method (writer_exit * Z) :=
  match fuel with
  | O => Done (Going, budget)
  | S fuel =>
      item ← Act pop_item Done;
      match item with
      | None => Done (Going, budget)
      | Some Shutdown =>
          ok ← ask ShutdownIo;
          match ok with
          | IoFailed => Done (Failed, budget)
          | IoCancelled => Done (Cancelled, budget)
          | IoOk _ =>
              _ ← modify (λ w, set_wire_shut true (on_queue (set_shutdown false) w));
              _ ← modify (notify set_drained);
              write_items fuel chunk budget
          end
      | Some i =>
          r ← write_out (S (length (item_bytes i))) chunk budget;
          if bool_decide (r.1 = Going) then write_items fuel chunk r.2 else Done r
      end
  end.

(** One batch: [None] when the writer is done, else the number of items and
    whether a pong waits.  The local deque is empty when it is exchanged with
    the queue's. *)
Definition take_batch (w : World) : option (option (nat * bool) * World) :=
  if done (queue w) then Some (None, w) else
  let t := wtr w in
  match current t, batch t with
  | [], [] =>
      Some (Some (length (items (queue w)), bool_decide (is_Some (pong (queue w)))),
            set_wtr {| batch := items (queue w); current := []; probe := probe t; unacked := unacked t |}
              (on_queue (set_items (batch t)) w))
  | _, _ => None
  end.
(** [write_pending], for [fuel] batches; [Going] when the queue is done. *)
Fixpoint write_pending (fuel : nat) (chunk budget : Z) : method writer_exit :=
  match fuel with
  | O => Done Going
  | S fuel =>
      b ← Act take_batch Done;
      match b with
      | None => Done Going
      | Some (n, waiting) =>
          if (n =? 0)%nat && negb waiting then
            sel ← ask Select;
            match sel with
            | SelStopped | SelHubClosed => Done Cancelled
            | SelFlush =>
                ok ← ask FlushIo;
                match ok with
                | IoOk _ => write_pending fuel chunk budget
                | IoFailed => Done Failed
                | IoCancelled => Done Cancelled
                end
            | _ => _ ← await (λ w, ready (wakes w)) (on_wakes (set_ready false)); write_pending fuel chunk budget
            end
          else
            _ ← (if (waiting : bool) then flush_pong else Done tt);
            r ← write_items (S n) chunk budget;
            if bool_decide (r.1 = Going) then write_pending fuel chunk r.2 else Done r.1
      end
  end.
(** [write_loop]: the writer runs until it is done, fails, or is cancelled by
    one of the two signals, wherever it is waiting. *)
Definition write_loop (fuel : nat) (chunk : Z) : method unit :=
  x ← write_pending fuel chunk 0;
  match x with
  | Going => Done tt
  | Failed => end_
  | Cancelled =>
      sel ← ask Select;
      match sel with
      | SelHubClosed => _ ← await (λ w, hub_closed (events w)) (λ w, w); terminate
      | _ => await stopped (λ w, w)
      end
  end.

(** ** The heartbeat (heartbeat.rs, heartbeat/clock.rs) *)
Inductive Action := Wait | SendPing | Dead.
#[export] Instance Action_eq_dec : EqDecision Action.
Proof. solve_decision. Defined.
(** [saturating_duration_since] *)
Definition since (now t : Z) : Z := Z.max 0 (now - t).
Definition decide_action (interval now last : Z) (ping : option Z) : Action :=
  match ping with
  | Some sent =>
      if last <=? sent then (if interval <=? since now sent then Dead else Wait)
      else if interval <=? since now last then SendPing else Wait
  | None => if interval <=? since now last then SendPing else Wait
  end.
Record Probe := { queued : Z; p_sent : nat }.
Record Alive := { seen : Z; ping : option Probe }.

(** [received] is zero until something arrived, then one more than the
    nanoseconds since [born]. *)
Definition last_seen (w : World) (seen : Z) : Z :=
  if 1 <=? received w then Z.max seen (born (cfg w) + (received w - 1)) else seen.
Definition sent_cell (w : World) (a : Alive) : option Z :=
  match ping a with Some p => default None (cells w !! p_sent p) | None => None end.

Definition ping_now (key : key4) (w : World) : option nat * World :=
  if negb (bool_decide (state (flags w) = Open)) then (None, w) else
  let c := length (cells w) in
  (Some c, push_heartbeat key c (set_cells (cells w ++ [None]) w)).
(** [Link::heartbeat] *)
Definition heartbeat (a : Alive) : method (bool * Alive) :=
  iv ← reads (λ w, interval (cfg w));
  match iv with
  | Some iv =>
      s ← state_of;
      if negb (bool_decide (s = Open)) then Done (true, a) else
      now ← ask Now;
      a ← reads (λ w, {| seen := last_seen w (seen a); ping := ping a |});
      sent ← reads (λ w, sent_cell w a);
      match ping a, sent with
      | Some p, None =>
          wr ← reads (λ w, born (cfg w) + written w);
          if since now (Z.max (Z.max (seen a) wr) (queued p)) <? iv then Done (true, a)
          else _ ← fail (bs "heartbeat timed out"); Done (false, a)
      | _, _ =>
          match decide_action iv now (seen a) sent with
          | Wait => Done (true, a)
          | SendPing =>
              q ← ask Now;
              key ← ask Key;
              c ← locked (ping_now key);
              Done (true, match c with
                          | Some c => {| seen := seen a; ping := Some {| queued := q; p_sent := c |} |}
                          | None => a
                          end)
          | Dead => _ ← fail (bs "heartbeat timed out"); Done (false, a)
          end
      end
  | None => Done (true, a)
  end.
(** [Instant::checked_add]: seconds are 64-bit signed. *)
Definition INSTANT_MAX : Z := 2 ^ 63 * SECOND - 1.
Definition checked_add (t d : Z) : option Z := if t + d <=? INSTANT_MAX then Some (t + d) else None.
(** [Link::heartbeat_deadline] *)
Definition heartbeat_last (w : World) (a : Alive) : Z :=
  let seen := last_seen w (seen a) in
  match ping a with
  | Some p =>
      match sent_cell w a with
      | Some sent => if seen <=? sent then sent else seen
      | None => Z.max (Z.max seen (born (cfg w) + written w)) (queued p)
      end
  | None => seen
  end.
Definition heartbeat_deadline (w : World) (a : Alive) : option Z :=
  match interval (cfg w) with
  | Some iv => checked_add (heartbeat_last w a) iv
  | None => None
  end.

(** ** Starting and reading (read.rs) *)
(** [OnceLock::set]: only the first value is kept. *)
Definition once {A} (slot : option A) (v : A) : option A := match slot with Some x => Some x | None => Some v end.
Definition start_section (open : Event) (w : World) : option bool * World :=
  if negb (bool_decide (state (flags w) = Connecting)) then (None, io_shutdown w) else
  let w := on_flags (set_state Open) w in
  let '(ok, e) := events_send open (events w) in
  (Some ok, set_events e w).
(** [Link::start], up to the two loops: [Some rest] when they run, the bytes
    [read_loop] is given first; [None] when they do not.  The lease terminates
    the connection on the other paths. *)
Definition start (rest : bytes) (protocol_ : option bytes) (open : Event) : method (option bytes) :=
  _ ← modify (λ w, if interval (cfg w) then set_bound true w else w);
  _ ← modify (λ w, set_io (once (io w) true) w);
  _ ← modify (λ w, set_protocol (once (protocol w) protocol_) w);
  sent ← locked (start_section open);
  match sent with
  | None => _ ← lease_drop; Done None
  | Some ok =>
      closed ← reads (λ w, hub_closed (events w));
      if negb ok || closed then _ ← terminate; _ ← lease_drop; Done None
      else Done (Some rest)
  end.

(** The local variables of [read_loop]. *)
Record ReadLoop := { rdr : Reader; ok : bool; alive : Alive; budget : Z }.
(** [flush_close]: waits, for [fuel] wake-ups, until the close reply is out. *)
Definition close_pending (w : World) : bool :=
  negb (done (queue w)) && ((0 <? buffered w) || shutdown (queue w)).
Fixpoint flush_wait (fuel : nat) (at_ : Z) : method unit :=
  match fuel with
  | O => Done tt
  | S fuel =>
      pending ← reads close_pending;
      if negb pending then Done tt else
      sel ← ask Select;
      match sel with
      | SelStopped => await stopped (λ w, w)
      | SelTimer => now ← ask Now; await (λ _, at_ <=? now) (λ w, w)
      | _ => _ ← await (λ w, drained (wakes w)) (on_wakes (set_drained false)); flush_wait fuel at_
      end
  end.
Definition flush_close (fuel : nat) : method unit :=
  d ← locked (λ w, (if bool_decide (close_received (flags w) = None) && bool_decide (failed (flags w) = None)
                    then None else deadline (flags w), w));
  match d with None => Done tt | Some at_ => flush_wait fuel at_ end.
Definition read_tail (fuel : nat) (l : ReadLoop) : method unit :=
  _ ← (if ok l then _ ← dispatch (rdr l); Done tt else Done tt);
  _ ← flush_close fuel;
  end_.

(** What a read or the timer leads to: go on, or leave the loop.  A panic of
    the reader would drop the task, and with it the lease. *)
Inductive read_next := Continue (l : ReadLoop) | Break (l : ReadLoop).
Definition read_input (l : ReadLoop) : method read_next :=
  r ← ask ReadIo;
  match r with
  | ReadOk [] => Done (Break l)
  | ReadOk data =>
      now ← ask Now;
      match (if ok l then Reader.push (rdr l) data else Ret (rdr l)) with
      | Ret r =>
          Done (Continue {| rdr := r; ok := ok l; alive := {| seen := now; ping := ping (alive l) |};
                            budget := (budget_progress (budget l) (zlen data)).1 |})
      | _ => _ ← lease_drop; Done (Break {| rdr := rdr l; ok := false; alive := alive l; budget := budget l |})
      end
  | ReadErr invalid text =>
      _ ← (if (invalid : bool) then fail (bs "TLS error: " ++ text) else Done tt);
      Done (Break l)
  end.
Definition hub_gone (l : ReadLoop) : method read_next :=
  _ ← await (λ w, hub_closed (events w)) (λ w, w);
  _ ← terminate;
  Done (Break l).
Definition read_iter (l : ReadLoop) : method read_next :=
  closed ← reads (λ w, hub_closed (events w));
  if (closed : bool) then _ ← terminate; Done (Break l) else
  d ← (if ok l then dispatch (rdr l) else Done (false, rdr l));
  let l := {| rdr := (d : bool * Reader).2; ok := d.1; alive := alive l; budget := budget l |} in
  sd ← locked (λ w, ((state (flags w), deadline (flags w)), w));
  now ← ask Now;
  if bool_decide ((sd : State * option Z).1 = Closed) || match sd.2 with Some at_ => at_ <=? now | None => false end
  then Done (Break l) else
  inbox_ok ← wait_inbox sd.1;
  if negb inbox_ok then
    sel ← ask Select;
    match sel with
    | SelStopped => _ ← await stopped (λ w, w); Done (Break l)
    | SelHubClosed => hub_gone l
    | SelConsumed => _ ← await (λ w, wake_consumed (wakes w)) (on_wakes (set_wake_consumed false)); Done (Continue l)
    | _ => _ ← await (λ w, changed (wakes w)) (on_wakes (set_changed false)); Done (Continue l)
    end
  else
    timer ← (match sd.2 with
             | Some d => Done (Some d)
             | None => reads (λ w, heartbeat_deadline w (alive l))
             end);
    sel ← ask Select;
    match sel with
    | SelStopped => _ ← await stopped (λ w, w); Done (Break l)
    | SelHubClosed => hub_gone l
    | SelChanged => _ ← await (λ w, changed (wakes w)) (on_wakes (set_changed false)); Done (Continue l)
    | SelTimer =>
        now ← ask Now;
        _ ← await (λ _, match timer with Some t => t <=? now | None => false end) (λ w, w);
        h ← heartbeat (alive l);
        let l := {| rdr := rdr l; ok := ok l; alive := h.2; budget := budget l |} in
        Done (if (h.1 : bool) then Continue l else Break l)
    | _ => read_input l
    end.
(** [read_loop], for [fuel] iterations. *)
Fixpoint read_run (fuel : nat) (l : ReadLoop) : method unit :=
  match fuel with
  | O => Done tt
  | S fuel =>
      n ← read_iter l;
      match n with
      | Continue l => read_run fuel l
      | Break l => read_tail fuel l
      end
  end.
Definition read_loop (fuel : nat) (rest : bytes) : method unit :=
  c ← reads cfg;
  now ← ask Now;
  match Reader.push (Reader.new (is_server c) (max_message c)) rest with
  | Ret r => read_run fuel {| rdr := r; ok := true; alive := {| seen := now; ping := None |}; budget := 0 |}
  | _ => lease_drop
  end.

(** [Activity::progress] of the transport (activity.rs): nanoseconds since the
    birth, as a saturated [u64]. *)
Definition activity_progress (inbound : bool) : method unit :=
  now ← ask Now;
  modify (λ w,
    if bound w then
      let ns := Z.min (now - born (cfg w)) U64_MAX in
      if inbound then set_received (sat_add ns 1) w else set_written ns w
    else w).
End Link.
