(* ===== verification/LinkInv.v ===== *)
(** * Invariants of a connection under every interleaving

    Any number of application threads, the reader, the writer and the hub act
    on one [World] at the same time.  The invariants below are kept by every
    section of every method; the rule of [Prog] turns that into a statement
    about all interleavings. *)

From S2P Require Import Prelude Utf8 Str Frame Reader Stream ReaderSim Messages Events Prog Link.

(** ** What the invariants say *)
Section Inv.
Context `{Target}.

(** The longest payload a slice can have is [isize::MAX]. *)
Definition MAX_PAYLOAD : Z := 2 ^ 63 - 1.
Definition frames : Type := list (Msg * option key4).
Definition frames_bytes (fs : frames) : bytes := concat (map (λ mk, encode_msg mk.1 mk.2) fs).
Definition is_close_msg (m : Msg) : bool := match m with Close _ => true | _ => false end.
Definition is_pong_msg (m : Msg) : bool := match m with Pong _ => true | _ => false end.

(** A legal sequence of outgoing frames: at most one close frame, only once
    [sent_close] is set, and nothing but pongs after it. *)
Definition close_discipline (sc : bool) (fs : frames) : Prop :=
  ∃ pre post, fs = pre ++ post ∧ Forall (λ mk, is_close_msg mk.1 = false) pre ∧
    (post = [] ∨ sc = true ∧ ∃ c rest, post = c :: rest ∧ is_close_msg c.1 = true ∧
                                     Forall (λ mk, is_pong_msg mk.1 = true) rest).
Definition frames_ok (srv sc : bool) (fs : frames) : Prop :=
  Forall (λ mk, msg_ok MAX_PAYLOAD mk.1 ∧ key_for (negb srv) mk.2) fs ∧ close_discipline sc fs.

(** The bytes on the wire, with those still in the writer, are the beginning
    of the encoding of a legal sequence of frames, and all of it, with the
    queue, until the queue is dropped; the close frame is one of them as soon
    as [sent_close] is set. *)
Definition wire_ok (sc : bool) (w : World) : Prop :=
  ∃ fs, frames_ok (is_server (cfg w)) sc fs ∧
    (wire w ++ current (wtr w) ++ items_bytes (batch (wtr w))) `prefix_of` frames_bytes fs ∧
    (done (queue w) = false →
       wire w ++ pending_out w = frames_bytes fs ∧ (sc = true → Exists (λ mk, is_close_msg mk.1 = true) fs)).
(** [buffered] counts what the transport has not accepted; a registered drain
    request does not fit yet. *)
Definition out_ok (sc : bool) (w : World) : Prop :=
  0 <= unacked (wtr w) ∧ outstanding w <= buffered w <= USIZE_MAX ∧
  (done (queue w) = false → buffered w = outstanding w) ∧
  (∀ len, drain (queue w) = Some len → 0 <= len ∧ fits w len = false) ∧
  wire_ok sc w.

(** One final [Close] event, the last one; missing only if the hub is gone. *)
Definition events_ok (w : World) : Prop :=
  let ev := events w in
  close_last (sent ev) ∧
  (state (flags w) ≠ Closed → no_close (sent ev)) ∧
  (state (flags w) = Closed → no_close (sent ev) → hub_closed ev = true ∨ receiver ev = false).

Definition flags_ok (w : World) : Prop :=
  let f := flags w in
  (sent_close f = true → state f = Closing ∨ state f = Closed) ∧
  (state f = Closing → sent_close f = true ∧ deadline f ≠ None) ∧
  (owner w ≠ None → state f = Open) ∧
  (state f = Open ∨ state f = Closing → io w ≠ None) ∧
  (done (queue w) = true → state f = Closed) ∧
  (close_received f ≠ None ∨ failed f ≠ None → state f = Closing ∨ state f = Closed).

(** The configuration is sane and a deferred pong is a legal payload. *)
Definition data_ok (w : World) : Prop :=
  bytes_ok (token (cfg w)) ∧ length (token (cfg w)) = 8%nat ∧
  ∀ d, pong (queue w) = Some d → bytes_ok d ∧ zlen d <= 125.

Definition Inv (w : World) : Prop := out_ok (sent_close (flags w)) w ∧ events_ok w ∧ flags_ok w ∧ data_ok w.

(** ** What no step undoes *)
Definition rank (s : State) : Z := match s with Connecting => 0 | Open => 1 | Closing => 2 | Closed => 3 end.
Definition persists {A} (a b : option A) : Prop := match a with Some x => b = Some x | None => True end.
Definition mono (w w' : World) : Prop :=
  cfg w' = cfg w ∧ rank (state (flags w)) <= rank (state (flags w')) ∧
  (sent_close (flags w) = true → sent_close (flags w') = true) ∧
  persists (close_received (flags w)) (close_received (flags w')) ∧
  (io w ≠ None → io w' ≠ None) ∧
  (done (queue w) = true → done (queue w') = true) ∧
  (stopped w = true → stopped w' = true) ∧
  sent (events w) `prefix_of` sent (events w') ∧ wire w `prefix_of` wire w'.

(** ** Frames *)
Lemma close_discipline_mono sc sc' fs :
  (sc = true → sc' = true) → close_discipline sc fs → close_discipline sc' fs.
Proof. intros Hsc (pre & post & -> & Hpre & [->|[-> Hp]]); exists pre; eexists; naive_solver. Qed.
(** What may be appended. *)
Definition may_push (sc sc' : bool) (m : Msg) : Prop :=
  (if is_close_msg m then sc = false ∧ sc' = true else (sc = true → is_pong_msg m = true) ∧ sc' = sc).
Lemma close_discipline_push sc sc' fs m k :
  close_discipline sc fs → may_push sc sc' m → close_discipline sc' (fs ++ [(m, k)]).
Proof.
  unfold may_push. intros (pre & post & -> & Hpre & Hpost) Hm. destruct (is_close_msg m) eqn:Ec.
  - destruct Hm as [-> ->]. destruct Hpost as [->|[? _]]; [|done]. rewrite app_nil_r.
    exists pre, [(m, k)]. split; [done|]. split; [done|]. right. split; [done|]. by exists (m, k), [].
  - destruct Hm as [Hp ->]. destruct Hpost as [->|(Hs & c & rest & -> & Hc & Hr)].
    + rewrite app_nil_r. exists (pre ++ [(m, k)]), []. rewrite app_nil_r. split; [done|]. split; [|by left].
      apply Forall_app. by split; [|constructor].
    + exists pre, ((c :: rest) ++ [(m, k)]). rewrite app_assoc. split; [done|]. split; [done|]. right.
      split; [done|]. exists c, (rest ++ [(m, k)]). split; [done|]. split; [done|].
      apply Forall_app. split; [done|]. constructor; [by apply Hp|done].
Qed.

Lemma frames_bytes_app fs gs : frames_bytes (fs ++ gs) = frames_bytes fs ++ frames_bytes gs.
Proof. unfold frames_bytes. by rewrite map_app, concat_app. Qed.
Lemma frames_bytes_one m k : frames_bytes [(m, k)] = encode_msg m k.
Proof. unfold frames_bytes. simpl. by rewrite app_nil_r. Qed.

(** ** The queue's operations *)
Lemma items_bytes_app a b : items_bytes (a ++ b) = items_bytes a ++ items_bytes b.
Proof. unfold items_bytes. by rewrite map_app, concat_app. Qed.
Lemma items_bytes_one i : items_bytes [i] = item_bytes i.
Proof. unfold items_bytes. simpl. by rewrite app_nil_r. Qed.
Lemma back_Some l r i : back l = Some (r, i) → l = r ++ [i].
Proof.
  unfold back. destruct (rev l) as [|j t] eqn:E; [done|]. intros [= <- <-].
  apply (f_equal (@rev Item)) in E. rewrite rev_involutive in E. by rewrite E.
Qed.
Lemma append_bytes its d :
  items_bytes (match back its with
    | Some (r, Data last) => if zlen last <? JOIN then r ++ [Data (last ++ d)] else its ++ [Data d]
    | _ => its ++ [Data d]
    end) = items_bytes its ++ d.
Proof.
  assert (items_bytes (its ++ [Data d]) = items_bytes its ++ d) as E by (by rewrite items_bytes_app, items_bytes_one).
  destruct (back its) as [[r [last| |]]|] eqn:Eb; [|done..]. destruct (_ <? _); [|done].
  apply back_Some in Eb as ->. by rewrite !items_bytes_app, !items_bytes_one, <-app_assoc.
Qed.

(** The state after [data] was appended to the queue, in items [its]. *)
Definition appended (its : list Item) (n : Z) (w : World) : World :=
  notify set_ready (fetch_add_buffered n (on_queue (set_items its) w)).
(** [w'] is [w] with [data] appended, or [w] itself when nothing is queued any more. *)
Definition pushed (data : bytes) (w w' : World) : Prop :=
  if bool_decide (io w = None) || done (queue w) then w' = w
  else ∃ its, w' = appended its (zlen data) w ∧ items_bytes its = items_bytes (items (queue w)) ++ data.

Lemma zlen_encode op payload k srv :
  zlen payload <= MAX_PAYLOAD → bool_decide (is_Some k) = negb srv →
  zlen (encode op payload k) = encoded_len (zlen payload) (negb srv).
Proof. intros Hl <-. apply encode_length. unfold MAX_PAYLOAD in Hl. lia. Qed.
Lemma encode_nonempty op payload k : encode op payload k ≠ [].
Proof. unfold encode. by rewrite encode_into_shape. Qed.
Lemma mask_of_Some w key : bool_decide (is_Some (mask_of w key)) = negb (is_server (cfg w)).
Proof. unfold mask_of. by destruct (is_server (cfg w)). Qed.

Lemma push_frame_pushed key op payload w :
  zlen payload <= MAX_PAYLOAD →
  pushed (encode op payload (mask_of w key)) w (push_frame key op payload w).
Proof.
  intros Hl. pose proof (zlen_encode op payload (mask_of w key) _ Hl (mask_of_Some w key)) as Hlen.
  unfold pushed, push_frame, push, frame, wire_len. rewrite <-Hlen.
  set (d := encode op payload (mask_of w key)). assert (d ≠ []) as Hd by apply encode_nonempty.
  destruct (Z.leb_spec JOIN (zlen d)) as [Hj|Hj].
  - destruct (io w) as [iov|]; simpl; [|done]. destruct (done (queue w)) eqn:Ed; simpl; unfold enqueue; rewrite Ed; [done|].
    destruct d as [|d0 d1] eqn:Eb; [done|]. rewrite <-Eb in *.
    destruct (Z.ltb_spec (zlen d) JOIN); [lia|]. cbn [andb].
    exists (items (queue w) ++ [Data d]). rewrite items_bytes_app, items_bytes_one. split; [|done].
    by destruct (back (items (queue w))) as [[r [| |]]|].
  - destruct (io w) as [iov|]; simpl; [|done]. destruct (done (queue w)) eqn:Ed; [done|].
    eexists. split; [reflexivity|]. rewrite <-(append_bytes (items (queue w)) d).
    destruct (back (items (queue w))) as [[r [last| |]]|]; [|done..]. by rewrite encode_into_app.
Qed.
Lemma push_heartbeat_pushed key c w :
  pushed (encode PING (token (cfg w)) (mask_of w key)) w (push_heartbeat key c w).
Proof.
  unfold pushed, push_heartbeat, enqueue, frame. destruct (io w) as [iov|]; simpl; [|done].
  destruct (done (queue w)) eqn:Ed; [done|]. eexists. split; [reflexivity|].
  by rewrite items_bytes_app, items_bytes_one.
Qed.

Lemma outstanding_app w its n d :
  items_bytes its = items_bytes (items (queue w)) ++ d → outstanding (appended its n w) = outstanding w + zlen d.
Proof.
  intros E. unfold outstanding, pending_out. simpl. rewrite E, !zlen_app. lia.
Qed.
Lemma fits_more w b len : 0 <= len → buffered w <= b → 0 <= buffered w →
  fits w len = false → fits (set_buffered b w) len = false.
Proof.
  unfold fits, sat_add. simpl. intros. lia.
Qed.
(** Once the queue is dropped only the frames count. *)
Lemma out_ok_dropped sc sc' w : (sc = true → sc' = true) → done (queue w) = true → out_ok sc w → out_ok sc' w.
Proof.
  intros Hsc Hdone (? & ? & ? & ? & fs & [Hfs Hd] & Hpre & _). repeat (split; [done|]). exists fs. split; [|by rewrite Hdone].
  split; [done|]. by eapply close_discipline_mono.
Qed.
Lemma may_push_mono sc sc' m : may_push sc sc' m → sc = true → sc' = true.
Proof. unfold may_push. destruct (is_close_msg m); naive_solver. Qed.

(** Appending a legal frame keeps the accounting and the wire. *)
Lemma pushed_out sc sc' m k w w' :
  out_ok sc w → pushed (encode_msg m k) w w' → in_memory w' = true →
  may_push sc sc' m → (is_close_msg m = true → io w ≠ None) →
  msg_ok MAX_PAYLOAD m → key_for (negb (is_server (cfg w))) k → out_ok sc' w'.
Proof.
  intros Hout Hp Hmem Hmay Hio Hm Hk. pose proof (may_push_mono _ _ _ Hmay) as Hsc.
  unfold pushed in Hp. destruct (bool_decide (io w = None) || done (queue w)) eqn:E.
  { subst w'. destruct (done (queue w)) eqn:Hdone; [by eapply out_ok_dropped|].
    unfold may_push in Hmay. destruct (is_close_msg m); [|by destruct Hmay as [_ ->]].
    rewrite bool_decide_eq_false_2 in E by auto. done. }
  apply orb_false_iff in E as [_ Hdone]. destruct Hp as (its & -> & Eits).
  destruct Hout as (Hu & Hb & Heq & Hdr & fs & [Hfs Hd] & Hpre & Hall). specialize (Heq Hdone). destruct (Hall Hdone) as [Hall' Hclose].
  pose proof (outstanding_app w its (zlen (encode_msg m k)) _ Eits) as Ho.
  unfold in_memory in Hmem. rewrite Ho in Hmem. pose proof (zlen_nonneg (encode_msg m k)) as Hn.
  pose proof (zlen_nonneg (pending_out w)).
  assert (buffered (appended its (zlen (encode_msg m k)) w) = buffered w + zlen (encode_msg m k)) as Hbuf.
  { simpl. unfold u64. apply Z.mod_small. unfold outstanding, USIZE_MAX in *. lia. }
  split; [done|]. rewrite Hbuf, Ho. split; [lia|]. split; [intros _; lia|]. split.
  - intros len Hlen. destruct (Hdr len Hlen) as [Hl0 Hf]. split; [done|].
    apply (fits_more w (buffered (appended its (zlen (encode_msg m k)) w))); [done|lia|unfold outstanding in *; lia|done].
  - exists (fs ++ [(m, k)]). split.
    { split; [|by eapply close_discipline_push]. apply Forall_app. by split; [|constructor]. }
    rewrite frames_bytes_app, frames_bytes_one. split; [by apply prefix_app_r|]. intros _. split.
    { rewrite <-Hall'. unfold pending_out. simpl. rewrite Eits. by rewrite !app_assoc. }
    rewrite Exists_app, Exists_cons. intros Hsc'. unfold may_push in Hmay.
    destruct (is_close_msg m) eqn:Ec; [right; by left|]. destruct Hmay as [_ ->]. left. by apply Hclose.
Qed.

(** ** Steps that leave the shared facts alone *)
Record quiet (w w' : World) : Prop := {
  q_cfg : cfg w' = cfg w; q_flags : flags w' = flags w; q_io : io w' = io w; q_owner : owner w' = owner w;
  q_events : events w' = events w; q_stopped : stopped w' = stopped w; q_wire : wire w' = wire w;
  q_done : done (queue w') = done (queue w); q_pong : pong (queue w') = pong (queue w) ∨ pong (queue w') = None
}.
Lemma quiet_refl w : quiet w w.
Proof. split; auto. Qed.
Lemma pushed_quiet d w w' : pushed d w w' → quiet w w'.
Proof.
  unfold pushed. destruct (_ || _); [intros ->; apply quiet_refl|]. intros (its & -> & _). split; auto.
Qed.
Lemma quiet_events_ok w w' : quiet w w' → events_ok w → events_ok w'.
Proof. intros []. unfold events_ok. congruence. Qed.
Lemma quiet_flags_ok w w' : quiet w w' → flags_ok w → flags_ok w'.
Proof. intros [Hc Hf Hi Ho He Hs Hw Hd _]. unfold flags_ok. by rewrite Hf, Hi, Ho, Hd. Qed.
Lemma quiet_data_ok w w' : quiet w w' → data_ok w → data_ok w'.
Proof.
  intros [Hc _ _ _ _ _ _ _ Hp] (H1 & H2 & H3). unfold data_ok. rewrite Hc. split; [done|]. split; [done|].
  intros d. destruct Hp as [-> | ->]; [apply H3|done].
Qed.
Lemma persists_refl {A} (a : option A) : persists a a.
Proof. by destruct a. Qed.
Lemma quiet_mono w w' : quiet w w' → mono w w'.
Proof.
  intros [Hc Hf Hi Ho He Hs Hw Hd _]. unfold mono. rewrite Hc, Hf, Hi, He, Hs, Hw, Hd.
  repeat split; try done. apply persists_refl.
Qed.
(** A quiet step that keeps the accounting keeps the invariant. *)
Lemma quiet_Inv w w' : quiet w w' → Inv w → out_ok (sent_close (flags w)) w' → Inv w' ∧ mono w w'.
Proof.
  intros Hq (_ & He & Hf & Hd) Ho. split; [|by apply quiet_mono].
  split; [by rewrite (q_flags _ _ Hq)|]. split; [by eapply quiet_events_ok|].
  split; [by eapply quiet_flags_ok|by eapply quiet_data_ok].
Qed.
Lemma mono_refl w : mono w w.
Proof. apply quiet_mono, quiet_refl. Qed.
Lemma persists_trans {A} (a b c : option A) : persists a b → persists b c → persists a c.
Proof. destruct a; simpl; [intros ->; done|done]. Qed.
Lemma mono_trans w1 w2 w3 : mono w1 w2 → mono w2 w3 → mono w1 w3.
Proof.
  intros (H1 & H2 & H3 & H4 & H5 & H6 & H7 & H8 & H9) (K1 & K2 & K3 & K4 & K5 & K6 & K7 & K8 & K9).
  repeat split; try (by auto); try lia; try congruence; [by eapply persists_trans|by etrans..].
Qed.

(** The accounting only looks at these. *)
Lemma out_ok_same sc w w' :
  cfg w' = cfg w → wire w' = wire w → wtr w' = wtr w → buffered w' = buffered w →
  done (queue w') = done (queue w) → drain (queue w') = drain (queue w) →
  items_bytes (items (queue w')) = items_bytes (items (queue w)) → out_ok sc w → out_ok sc w'.
Proof.
  intros Hc Hw Ht Hb Hd Hr Hi. unfold out_ok, wire_ok, outstanding, pending_out, fits.
  by rewrite Hc, Hw, Ht, Hb, Hd, Hr, Hi.
Qed.
Lemma push_shutdown_quiet w : quiet w (push_shutdown w).
Proof.
  unfold push_shutdown, enqueue. destruct (io w); [|apply quiet_refl]. destruct (done (queue w)) eqn:E; [apply quiet_refl|].
  split; auto.
Qed.
Lemma push_shutdown_out sc w : out_ok sc w → out_ok sc (push_shutdown w).
Proof.
  unfold push_shutdown, enqueue. destruct (io w); [|done]. destruct (done (queue w)) eqn:E; [done|].
  apply out_ok_same; try done. simpl. by rewrite items_bytes_app, app_nil_r.
Qed.

(** ** Sections under [flags] *)
Definition section_ok {X} (P : World → Prop) (f : World → X * World) (Q : X → World → Prop) : Prop :=
  ∀ w, Inv w → P w → owner w = None → in_memory (f w).2 = true →
    Inv (f w).2 ∧ mono w (f w).2 ∧ Q (f w).1 (f w).2.
Definition always {X} : X → World → Prop := λ _ _, True.
Definition anytime : World → Prop := λ _, True.
Definition opened : World → Prop := λ w, 1 <= rank (state (flags w)).
Definition is_closed : World → Prop := λ w, state (flags w) = Closed.
Definition has_io : World → Prop := λ w, io w ≠ None.

(** Pushing a frame that encodes the message [m]. *)
Lemma push_msg_Inv key op payload m w :
  Inv w → in_memory (push_frame key op payload w) = true → key_ok key →
  (∀ k, encode_msg m k = encode op payload k) → zlen payload <= MAX_PAYLOAD → msg_ok MAX_PAYLOAD m →
  may_push (sent_close (flags w)) (sent_close (flags w)) m →
  Inv (push_frame key op payload w) ∧ mono w (push_frame key op payload w).
Proof.
  intros HI Hmem Hkey He Hl Hm Hmay. pose proof (push_frame_pushed key op payload w Hl) as Hp. rewrite <-He in Hp.
  apply quiet_Inv; [by eapply pushed_quiet|done|]. destruct HI as [Ho _].
  eapply pushed_out; [exact Ho|exact Hp|done|done| |done|].
  { unfold may_push in Hmay. destruct (is_close_msg m); [|done]. destruct Hmay. congruence. }
  unfold mask_of, key_for. by destruct (is_server (cfg w)).
Qed.
Lemma may_push_pong sc d : may_push sc sc (Pong d).
Proof. done. Qed.

Lemma flush_pong_ok key : key_ok key → section_ok anytime (flush_pong_section key) always.
Proof.
  intros Hk w HI _ _. unfold flush_pong_section. cbn [fst snd].
  set (w1 := on_queue (set_pong None) w).
  assert (Inv w1) as HI1.
  { destruct HI as (Ho & He & Hf & Hd1 & Hd2 & _). split; [exact Ho|]. split; [exact He|]. split; [exact Hf|].
    split; [exact Hd1|]. by split. }
  assert (mono w w1) as Hm1 by (apply quiet_mono; split; auto).
  assert (∀ w2, Inv w2 ∧ mono w1 w2 → Inv w2 ∧ mono w w2 ∧ True) as Hwrap.
  { intros w2 [? Hm2]. split; [done|]. split; [exact (mono_trans _ _ _ Hm1 Hm2)|done]. }
  destruct (pong (queue w)) as [d|] eqn:Ep; [|intros _; apply Hwrap; split; [done|apply mono_refl]].
  destruct (may_pong (flags w1)); [|intros _; apply Hwrap; split; [done|apply mono_refl]].
  intros Hmem. apply Hwrap. destruct HI as (_ & _ & _ & _ & _ & Hpong). destruct (Hpong d Ep) as [Hb Hl].
  apply (push_msg_Inv key PONG d (Pong d)); [done|done|done|done|unfold MAX_PAYLOAD; lia|by split|apply may_push_pong].
Qed.

(** The message a call puts on the wire. *)
Definition sends (m : Msg) (op : Z) (payload : bytes) : Prop :=
  (∀ k, encode_msg m k = encode op payload k) ∧ zlen payload <= MAX_PAYLOAD ∧ msg_ok MAX_PAYLOAD m.
Lemma sends_close code reason :
  valid_close_code code = true → bytes_ok reason → zlen reason <= 123 → from_utf8 reason = Ok tt →
  sends (Close (Some (code, reason))) CLOSE (close_payload code reason).
Proof.
  intros. split; [done|]. split; [|done]. rewrite zlen_close_payload. unfold MAX_PAYLOAD. lia.
Qed.
Lemma sends_pong d : bytes_ok d → zlen d <= 125 → sends (Pong d) PONG d.
Proof. intros. split; [done|]. split; [unfold MAX_PAYLOAD; lia|done]. Qed.

Lemma then_mono w w1 w2 : mono w w1 → Inv w2 ∧ mono w1 w2 → Inv w2 ∧ mono w w2 ∧ True.
Proof. intros Hm [HI Hm2]. split; [done|]. split; [exact (mono_trans _ _ _ Hm Hm2)|done]. Qed.
Lemma stay w : Inv w → Inv w ∧ mono w w ∧ True.
Proof. intros. split; [done|]. split; [apply mono_refl|done]. Qed.

(** *** [send] *)
Lemma send_enter_ok tid payload : section_ok anytime (send_enter tid payload) always.
Proof.
  intros w HI _ _ _. unfold send_enter.
  destruct (negb (bool_decide (state (flags w) = Open)) || sent_close (flags w)) eqn:E; [by apply stay|].
  cbn [snd fst]. apply orb_false_iff in E as [E _]. case_bool_decide as Eo; [|done].
  destruct HI as (Ho & He & (Hf1 & Hf2 & Hf3 & Hf4) & Hd). split; [|split; [|done]].
  - split; [exact Ho|]. split; [exact He|]. split; [|exact Hd]. by repeat (split; [done|]).
  - unfold mono. simpl. repeat split; try done. apply persists_refl.
Qed.
(** Sections of the thread that holds [flags]. *)
Definition held_ok {X} (tid : nat) (f : World → X * World) : Prop :=
  ∀ w, Inv w → owner w = Some tid → in_memory (f w).2 = true → Inv (f w).2 ∧ mono w (f w).2 ∧ True.
Lemma release_Inv w : Inv w → Inv (set_owner None w) ∧ mono w (set_owner None w).
Proof.
  intros (Ho & He & (Hf1 & Hf2 & Hf3 & Hf4) & Hd). split.
  - split; [exact Ho|]. split; [exact He|]. split; [|exact Hd]. split; [done|]. split; [done|]. by split.
  - unfold mono. simpl. repeat split; try done. apply persists_refl.
Qed.
Lemma wire_len_nonneg w payload : 0 <= wire_len w payload.
Proof.
  unfold wire_len, encoded_len, sat_add, U64_MAX. pose proof (zlen_nonneg payload). repeat case_match; lia.
Qed.
Lemma send_recheck_ok tid payload : held_ok tid (send_recheck payload).
Proof.
  intros w HI _ _. unfold send_recheck. destruct (fits w (wire_len w payload)) eqn:E; [by apply stay|]. cbn [fst snd].
  set (w1 := on_queue _ w). assert (mono w w1) as Hm by (apply quiet_mono; split; auto).
  apply (then_mono _ _ _ Hm), release_Inv. destruct HI as ((Hu & Hb & Heq & Hdr & Hw) & He & Hf & Hd).
  split; [|done]. split; [exact Hu|]. split; [exact Hb|]. split; [exact Heq|]. split; [|exact Hw].
  intros len [= <-]. split; [apply wire_len_nonneg|exact E].
Qed.
Lemma send_push_ok tid key op payload m :
  key_ok key → sends m op payload → is_close_msg m = false → held_ok tid (send_push key op payload).
Proof.
  intros Hk (He & Hl & Hm) Hc w HI Hown Hmem. unfold send_push in *. cbn [fst snd] in *.
  assert (sent_close (flags w) = false) as Hsc.
  { destruct HI as (_ & _ & (Hf1 & _ & Hf3 & _) & _). destruct (sent_close (flags w)); [|done].
    destruct Hf1 as [E|E]; [done|..]; rewrite Hf3 in E; by rewrite ?Hown. }
  destruct (push_msg_Inv key op payload m w) as [HI1 Hm1]; [done..| |].
  { unfold may_push. by rewrite Hc, Hsc. }
  by apply (then_mono _ _ _ Hm1), release_Inv.
Qed.

(** *** Events *)
Lemma events_send_sent ev e :
  hub_closed (events_send ev e).2 = hub_closed e ∧ receiver (events_send ev e).2 = receiver e ∧
  (if hub_closed e || negb (receiver e) then sent (events_send ev e).2 = sent e
   else ∃ q, q_event q = ev ∧ sent (events_send ev e).2 = sent e ++ [q]).
Proof.
  unfold events_send, send_pending. destruct (hub_closed e), (receiver e); simpl; try done.
  split; [done|]. split; [done|]. eexists. by split; [|reflexivity].
Qed.
Lemma emit_ok ev : is_close ev = false → section_ok anytime (emit_section ev) always.
Proof.
  intros Hev w HI _ _ _. unfold emit_section. case_bool_decide as Hst; [by apply stay|].
  destruct (events_send ev (events w)) as [ok e] eqn:Ee. cbn [fst snd].
  destruct (events_send_sent ev (events w)) as (Hh & Hr & Hs). rewrite Ee in Hh, Hr, Hs. cbn [snd] in *.
  destruct HI as (Ho & (He1 & He2 & He3) & Hf & Hd). specialize (He2 Hst).
  assert (no_close (sent e) ∧ sent (events w) `prefix_of` sent e) as [Hno Hpre].
  { destruct (_ || _); [by rewrite Hs|]. destruct Hs as (q & Eq & ->). split; [|by apply prefix_app_r].
    apply no_close_app. split; [done|]. constructor; [by rewrite Eq|done]. }
  split; [|split; [|done]].
  - split; [exact Ho|]. split; [|split; [exact Hf|exact Hd]]. split; [by left|]. split; [done|]. intros E. by destruct Hst.
  - unfold mono. simpl. repeat split; try done. apply persists_refl.
Qed.
Lemma finish_ok code reason : section_ok anytime (finish_section code reason) (λ stop w, is_closed w).
Proof.
  intros w HI _ Hown _. unfold finish_section. case_bool_decide as Hst.
  { split; [done|]. split; [apply mono_refl|done]. }
  cbn [fst snd]. simpl. set (ev := EvClose _ _ _).
  destruct (events_send_sent ev (events w)) as (Hh & Hr & Hs).
  destruct HI as (Ho & (He1 & He2 & He3) & (Hf1 & Hf2 & Hf3 & Hf4 & Hf5 & Hf6) & Hd). specialize (He2 Hst).
  split; [|split; [|done]].
  - split; [exact Ho|]. split; [|split; [|exact Hd]].
    + unfold events_ok. simpl. rewrite Hh, Hr. destruct (hub_closed (events w)), (receiver (events w)); simpl in Hs;
        try (rewrite Hs; split; [by left|]; split; [done|]; by auto).
      destruct Hs as (q & Eq & ->). split; [right; exists (sent (events w)), q; by rewrite Eq|]. split; [done|].
      intros _ [_ Hno]%no_close_app. apply Forall_cons in Hno as [Hno _]. by rewrite Eq in Hno.
    + unfold flags_ok. simpl. split; [by auto|]. split; [done|]. split; [by rewrite Hown|].
      split; [by intros [|]|]. split; [done|by auto].
  - unfold mono. simpl. repeat split; try done; [destruct (state (flags w)); simpl; lia|apply persists_refl|].
    destruct (_ || _); [by rewrite Hs|]. destruct Hs as (q & _ & ->). by apply prefix_app_r.
Qed.

(** *** Closing *)
(** Entering the closing state, with our close frame unless it was sent. *)
Lemma begin_close key op payload m w f' :
  Inv w → owner w = None → opened w → state (flags w) ≠ Closed →
  key_ok key → sends m op payload → is_close_msg m = true →
  state f' = Closing → sent_close f' = true → deadline f' ≠ None →
  persists (close_received (flags w)) (close_received f') →
  let w1 := set_flags f' w in
  let w2 := if sent_close (flags w) then w1 else push_frame key op payload w1 in
  in_memory w2 = true → Inv w2 ∧ mono w w2.
Proof.
  intros (Ho & (He1 & He2 & He3) & (Hf1 & Hf2 & Hf3 & Hf4 & Hf5 & Hf6) & Hd) Hown Hop Hnc Hk (Henc & Hl & Hm) Hc
    Est Esc Edl Hper w1 w2 Hmem.
  assert (events_ok w1 ∧ flags_ok w1 ∧ data_ok w1) as (He' & Hf' & Hd').
  { split; [|split; [|exact Hd]].
    - split; [done|]. simpl. rewrite Est. split; [by auto|done].
    - unfold flags_ok. simpl. rewrite Est. split; [by auto|]. split; [done|]. split; [by rewrite Hown|].
      split; [intros _; apply Hf4; unfold opened in Hop; destruct (state (flags w)); auto; simpl in Hop; lia|].
      split; [|by auto]. intros Hdone. by rewrite Hf5 in Hnc. }
  assert (mono w w1) as Hm1.
  { unfold mono. simpl. rewrite Est, Esc. repeat split; try done. simpl. destruct (state (flags w)); simpl; (done || lia). }
  assert (quiet w1 w2 ∧ out_ok true w2) as [Hq Ho2].
  { unfold w2 in *. destruct (sent_close (flags w)) eqn:Esc0; [split; [apply quiet_refl|exact Ho]|].
    pose proof (push_frame_pushed key op payload w1 Hl) as Hp. rewrite <-Henc in Hp.
    split; [by eapply pushed_quiet|]. eapply (pushed_out false true m _ w1); [exact Ho|exact Hp|done| | |done|].
    - unfold may_push. by rewrite Hc.
    - intros _. apply Hf4. unfold opened in Hop. destruct (state (flags w)); auto.
    - unfold mask_of, key_for. simpl. by destruct (is_server (cfg w)). }
  split; [|exact (mono_trans _ _ _ Hm1 (quiet_mono _ _ Hq))].
  split; [rewrite (q_flags _ _ Hq); simpl; by rewrite Esc|].
  split; [by eapply quiet_events_ok|]. split; [by eapply quiet_flags_ok|by eapply quiet_data_ok].
Qed.
Lemma outstanding_shutdown w : outstanding (push_shutdown w) = outstanding w.
Proof.
  unfold push_shutdown, enqueue. destruct (io w); [|done]. destruct (done (queue w)) eqn:E; [done|].
  unfold outstanding, pending_out. simpl. by rewrite items_bytes_app, app_nil_r.
Qed.
Lemma push_shutdown_Inv w : Inv w → Inv (push_shutdown w) ∧ mono w (push_shutdown w).
Proof.
  intros HI. apply quiet_Inv; [apply push_shutdown_quiet|done|]. apply push_shutdown_out. by destruct HI.
Qed.

Lemma close_ok now key code reason :
  key_ok key → sends (Close (Some (code, reason))) CLOSE (close_payload code reason) →
  section_ok anytime (close_section now key code reason) always.
Proof.
  intros Hk Hs w HI _ Hown Hmem. unfold close_section in *.
  destruct (state (flags w)) eqn:Est; cbn [fst snd] in *; try by apply stay.
  assert (sent_close (flags w) = false) as Hsc.
  { destruct HI as (_ & _ & (Hf1 & _) & _). destruct (sent_close (flags w)); [|done]. destruct Hf1; congruence. }
  destruct (begin_close key CLOSE (close_payload code reason) (Close (Some (code, reason))) w
    (set_deadline (Some (now + CLOSE_TIMEOUT)) (set_state Closing (set_sent_close true (flags w))))) as [HI2 Hm2];
    try done; try (by rewrite Hsc in *).
  - unfold opened. rewrite Est. simpl. lia.
  - congruence.
  - apply persists_refl.
Qed.
Definition fail_ok (code : Z) : Prop := code = 1002 ∨ code = 1007 ∨ code = 1009.
Lemma get_or_insert_Some d v : get_or_insert d v ≠ None.
Proof. by destruct d. Qed.
Lemma violation_ok now key code :
  key_ok key → fail_ok code → section_ok opened (violation_section now key code) always.
Proof.
  intros Hk Hc w HI Hop Hown Hmem. unfold violation_section in *.
  case_bool_decide as Hst; [by apply stay|]. cbn [fst snd] in *. set (f' := Build_Flags _ _ _ _ _) in *.
  unfold in_memory in Hmem. rewrite outstanding_shutdown in Hmem.
  destruct (begin_close key CLOSE (close_payload code []) (Close (Some (code, []))) w f') as [HI2 Hm2]; try done.
  - apply sends_close; [unfold fail_ok in Hc; unfold valid_close_code; lia|done|unfold zlen; simpl; lia|done].
  - apply get_or_insert_Some.
  - apply persists_refl.
  - by apply (then_mono _ _ _ Hm2), push_shutdown_Inv.
Qed.
(** A status received from the peer. *)
Definition status_ok (status : option (Z * bytes)) : Prop := msg_ok MAX_PAYLOAD (Close status).
Lemma closing_ok now key status :
  key_ok key → status_ok status → section_ok opened (closing_section now key status) always.
Proof.
  intros Hk Hs w HI Hop Hown Hmem. unfold closing_section in *.
  case_bool_decide as Hst; [by apply stay|]. case_bool_decide as Hr; [|by apply stay].
  cbn [negb orb fst snd] in *. set (f' := Build_Flags _ _ _ _ _) in *.
  set (echo := match status with Some (code, _) => _ | None => _ end) in *.
  set (m := Close match status with Some (code, _) => Some (code, []) | None => None end).
  assert (sends m CLOSE echo) as Hm.
  { unfold m, echo. destruct status as [[code reason]|]; [|split; [done|]; split; [unfold MAX_PAYLOAD, zlen; simpl; lia|done]].
    destruct Hs as (_ & Hv & _). apply sends_close; [done|done|unfold zlen; simpl; lia|done]. }
  assert (in_memory (if sent_close (flags w) then set_flags f' w else push_frame key CLOSE echo (set_flags f' w)) = true) as Hmem2.
  { destruct (is_server _) in Hmem; [|exact Hmem]. unfold in_memory in *. by rewrite outstanding_shutdown in Hmem. }
  destruct (begin_close key CLOSE echo m w f') as [HI2 Hm2]; try done.
  - apply get_or_insert_Some.
  - by rewrite Hr.
  - apply (then_mono _ _ _ Hm2). destruct (is_server _); [by apply push_shutdown_Inv|]. split; [done|apply mono_refl].
Qed.

(** *** Pings and the heartbeat *)
Lemma clear_pong_Inv w : Inv w → Inv (on_queue (set_pong None) w).
Proof.
  intros (Ho & He & Hf & Hd1 & Hd2 & _). split; [exact Ho|]. split; [exact He|]. split; [exact Hf|].
  split; [exact Hd1|]. by split.
Qed.
Lemma ping_ok key data :
  key_ok key → bytes_ok data → zlen data <= 125 → section_ok anytime (ping_section key data) always.
Proof.
  intros Hk Hb Hl w HI _ _. unfold ping_section. cbn [fst snd].
  destruct (may_pong (flags w)); [|intros _; by apply stay]. destruct (buffered w <? PONG_LIMIT).
  - intros Hmem. set (w1 := on_queue (set_pong None) w) in *.
    assert (mono w w1) as Hm1 by (apply quiet_mono; split; auto). apply (then_mono _ _ _ Hm1).
    destruct (sends_pong data Hb Hl) as (E1 & E2 & E3).
    by apply (push_msg_Inv key PONG data (Pong data) w1); [apply clear_pong_Inv|..].
  - intros _. destruct HI as (Ho & He & Hf & Hd1 & Hd2 & _). split; [|split; [|done]].
    + split; [exact Ho|]. split; [exact He|]. split; [exact Hf|]. split; [exact Hd1|]. split; [exact Hd2|].
      by intros d [= <-].
    + unfold mono. simpl. repeat split; try done. apply persists_refl.
Qed.
Lemma open_not_closing w : Inv w → state (flags w) = Open → sent_close (flags w) = false.
Proof.
  intros (_ & _ & (Hf1 & _) & _) Est. destruct (sent_close (flags w)); [|done]. destruct Hf1; congruence.
Qed.
Lemma ping_now_ok key : key_ok key → section_ok anytime (ping_now key) always.
Proof.
  intros Hk w HI _ _. unfold ping_now. case_bool_decide as Est; [|intros _; by apply stay]. cbn [negb fst snd].
  set (w1 := set_cells _ w). intros Hmem. assert (mono w w1) as Hm1 by (apply quiet_mono; split; auto).
  assert (Inv w1) as HI1 by exact HI. apply (then_mono _ _ _ Hm1).
  pose proof (push_heartbeat_pushed key (length (cells w)) w1) as Hp.
  destruct HI as (Ho & _ & _ & Ht1 & Ht2 & _).
  apply quiet_Inv; [by eapply pushed_quiet|done|].
  assert (zlen (token (cfg w)) <= 125) by (unfold zlen; rewrite Ht2; lia).
  eapply (pushed_out _ _ (Ping (token (cfg w))) _ w1); [exact Ho|exact Hp|done| |done|done|].
  - pose proof (open_not_closing w1 HI1 Est) as Hsc. unfold may_push. simpl in *. by rewrite Hsc.
  - unfold mask_of, key_for. by destruct (is_server (cfg w1)).
Qed.

(** *** Starting *)
Lemma io_shutdown_Inv w : Inv w → Inv (io_shutdown w) ∧ mono w (io_shutdown w).
Proof.
  intros HI. unfold io_shutdown. destruct (io w) eqn:E; [|split; [done|apply mono_refl]].
  destruct HI as (Ho & He & (Hf1 & Hf2 & Hf3 & Hf4 & Hf5 & Hf6) & Hd). split.
  - split; [exact Ho|]. split; [exact He|]. split; [|exact Hd]. by repeat (split; [done|]).
  - unfold mono. simpl. rewrite E. repeat split; try done. apply persists_refl.
Qed.
Lemma start_ok ev : is_close ev = false → section_ok has_io (start_section ev) (λ x w, x ≠ None → opened w).
Proof.
  intros Hev w HI Hio Hown _. unfold start_section. case_bool_decide as Est; cbn [negb].
  2: { destruct (io_shutdown_Inv w HI) as [? ?]. by split; [|split]. }
  simpl. destruct (events_send ev (events w)) as [ok e] eqn:Ee. cbn [fst snd].
  destruct (events_send_sent ev (events w)) as (Hh & Hr & Hs). rewrite Ee in Hh, Hr, Hs. cbn [snd] in *.
  assert (sent_close (flags w) = false ∧ close_received (flags w) = None ∧ failed (flags w) = None) as (Hsc & Hcr & Hfl).
  { destruct HI as (_ & _ & (Hf1 & _ & _ & _ & _ & Hf6) & _). rewrite Est in Hf1, Hf6. split_and!.
    - destruct (sent_close (flags w)); [|done]. by destruct Hf1.
    - destruct (close_received (flags w)); [|done]. by destruct Hf6; [left|..].
    - destruct (failed (flags w)); [|done]. by destruct Hf6; [right|..]. }
  destruct HI as (Ho & (He1 & He2 & He3) & (Hf1 & Hf2 & Hf3 & Hf4 & Hf5 & Hf6) & Hd).
  rewrite Est in He2. specialize (He2 ltac:(done)).
  assert (no_close (sent e) ∧ sent (events w) `prefix_of` sent e) as [Hno Hpre].
  { destruct (_ || _); [by rewrite Hs|]. destruct Hs as (q & Eq & ->). split; [|by apply prefix_app_r].
    apply no_close_app. split; [done|]. constructor; [by rewrite Eq|done]. }
  split; [|split].
  - split; [exact Ho|]. split; [by split; [left|]|]. split; [|exact Hd]. unfold flags_ok. simpl. rewrite Hsc, Hcr, Hfl.
    split; [done|]. split; [done|]. split; [done|]. split; [done|]. split; [|by intros [|]].
    intros Hdone. by rewrite Hf5 in Est.
  - unfold mono. simpl. repeat split; try done; [by rewrite Est|apply persists_refl].
  - intros _. unfold opened. simpl. lia.
Qed.

(** ** Sections without [flags] *)
Definition atom_ok {X} (P : World → Prop) (f : World → option (X * World)) : Prop :=
  ∀ w x w', Inv w → P w → f w = Some (x, w') → Inv w' ∧ mono w w'.
Lemma stop_writer_Inv w : Inv w → is_closed w → Inv (stop_writer w) ∧ mono w (stop_writer w).
Proof.
  intros ((Hu & Hb & Heq & Hdr & fs & Hfs & Hpre & Hall) & He & (Hf1 & Hf2 & Hf3 & Hf4 & Hf5 & Hf6) & Hd1 & Hd2 & _) Hc.
  assert (outstanding (stop_writer w) <= outstanding w).
  { unfold outstanding, pending_out. simpl. rewrite !zlen_app. pose proof (zlen_nonneg (items_bytes (items (queue w)))).
    unfold items_bytes at 2. simpl. unfold zlen at 3. simpl. lia. }
  split.
  - split; [|split; [exact He|split; [|by repeat split]]].
    + split; [done|]. split; [simpl; lia|]. split; [done|]. split; [exact Hdr|]. by exists fs.
    + unfold flags_ok. simpl. by repeat (split; [done|]).
  - unfold mono. simpl. repeat split; try done. apply persists_refl.
Qed.

(** *** The writer *)
Lemma wtr_mono w t : mono w (set_wtr t w).
Proof. unfold mono. simpl. repeat split; try done. apply persists_refl. Qed.
(** A step of the writer that leaves the shared facts alone. *)
Lemma writer_Inv w w' : quiet w w' → Inv w → out_ok (sent_close (flags w)) w' → Inv w' ∧ mono w w'.
Proof. apply quiet_Inv. Qed.

Lemma accept_bytes_Inv n w : Inv w → Inv (accept_bytes n w) ∧ mono w (accept_bytes n w).
Proof.
  intros ((Hu & Hb & Heq & Hdr & fs & Hfs & Hpre & Hall) & He & Hf & Hd).
  set (k := Z.to_nat n). set (c := current (wtr w)).
  assert (zlen (take k c) + zlen (drop k c) = zlen c) as Hk by (rewrite <-zlen_app, take_drop; done).
  assert (outstanding (accept_bytes n w) = outstanding w) as Ho.
  { unfold outstanding, pending_out. simpl. fold k c. rewrite !zlen_app. lia. }
  assert ((wire w ++ take k c) ++ drop k c = wire w ++ c) as Hw by (by rewrite <-app_assoc, take_drop).
  split.
  - split; [|split; [exact He|split; [exact Hf|exact Hd]]]. split; [simpl; fold k c; pose proof (zlen_nonneg (take k c)); lia|].
    rewrite Ho. split; [exact Hb|]. split; [exact Heq|]. split; [exact Hdr|]. exists fs. split; [exact Hfs|].
    unfold pending_out in *. simpl. fold k c. rewrite !app_assoc, Hw in *. by rewrite <-!app_assoc in *.
  - unfold mono. simpl. repeat split; try done; [apply persists_refl|by apply prefix_app_r].
Qed.
Definition reset_unacked (w : World) : World :=
  set_wtr {| batch := batch (wtr w); current := current (wtr w); probe := probe (wtr w); unacked := 0 |} w.
Lemma progress_Inv w :
  let r := progress_section (unacked (wtr w)) w in Inv w → Inv (reset_unacked r.2) ∧ mono w (reset_unacked r.2).
Proof.
  intros r HI. pose proof HI as ((Hu & Hb & Heq & Hdr & Hw) & _). unfold outstanding in *. pose proof (zlen_nonneg (pending_out w)).
  assert (u64 (buffered w - unacked (wtr w)) = buffered w - unacked (wtr w)) as E.
  { unfold u64. apply Z.mod_small. unfold USIZE_MAX in *. lia. }
  unfold r, progress_section. rewrite E. clear r.
  set (left := buffered w - unacked (wtr w)) in *. set (w1 := notify set_drained (set_buffered left w)).
  set (dr := match drain (queue w) with Some len => (left =? 0) || (sat_add left len <=? buffer (cfg w)) | None => false end).
  change (Inv (reset_unacked (if dr then on_queue (set_drain None) w1 else w1)) ∧
          mono w (reset_unacked (if dr then on_queue (set_drain None) w1 else w1))).
  apply quiet_Inv; [destruct dr; split; auto|done|].
  set (w2 := if dr then on_queue (set_drain None) w1 else w1).
  assert (outstanding (reset_unacked w2) = zlen (pending_out w) ∧ buffered w2 = left ∧ done (queue w2) = done (queue w))
    as (Eo & Eb & Ed) by (unfold w2; by destruct dr).
  split; [done|]. rewrite Eo. split; [simpl; rewrite Eb; unfold left; lia|].
  split; [simpl; rewrite Eb, Ed; intros Hd; specialize (Heq Hd); unfold left; lia|].
  split; [|unfold w2; by destruct dr].
  intros len. unfold w2, dr. destruct (drain (queue w)) as [len'|] eqn:Edr; simpl; [|congruence].
  destruct ((left =? 0) || (sat_add left len' <=? buffer (cfg w))) eqn:Ef; simpl; [done|].
  rewrite Edr. intros [= ->]. split; [by apply (Hdr len)|exact Ef].
Qed.
Lemma note_sent_Inv t w : Inv w → Inv (note_sent t w) ∧ mono w (note_sent t w).
Proof.
  intros HI. unfold note_sent. destruct (current (wtr w)); [destruct (probe (wtr w))|]; [|split; [done|apply mono_refl]..].
  split; [exact HI|]. apply quiet_mono. split; auto.
Qed.
Lemma pop_item_ok : atom_ok anytime pop_item.
Proof.
  intros w x w' HI _. unfold pop_item. destruct (current (wtr w)) eqn:Ec; [|done].
  destruct (batch (wtr w)) as [|i r] eqn:Eb; intros [= <- <-]; [split; [done|apply mono_refl]|].
  destruct HI as ((Hu & Hb & Heq & Hdr & Hw) & He & Hf & Hd). split; [|apply wtr_mono].
  split; [|split; [exact He|split; [exact Hf|exact Hd]]].
  unfold out_ok, wire_ok, outstanding, pending_out in *. rewrite Ec, Eb in *. simpl in *.
  unfold items_bytes in *. simpl in *. rewrite <-!app_assoc in *. by repeat (split; [done|]).
Qed.
Lemma take_batch_ok : atom_ok anytime take_batch.
Proof.
  intros w x w' HI _. unfold take_batch. destruct (done (queue w)) eqn:Ed.
  { intros [= <- <-]. split; [done|apply mono_refl]. }
  destruct (current (wtr w)) eqn:Ec; [|done]. destruct (batch (wtr w)) as [|i r] eqn:Eb; [|done]. intros [= <- <-].
  destruct HI as ((Hu & Hb & Heq & Hdr & fs & Hfs & Hpre & Hall) & He & Hf & Hd). split.
  - split; [|split; [exact He|split; [exact Hf|exact Hd]]].
    specialize (Heq Ed). specialize (Hall Ed) as [Hall Hclose].
    set (w2 := set_wtr _ _). assert (pending_out w2 = pending_out w) as Ep.
    { unfold pending_out. rewrite Ec, Eb. simpl. by rewrite !app_nil_r. }
    split; [exact Hu|]. unfold outstanding in *. rewrite Ep. split; [exact Hb|]. split; [done|].
    split; [exact Hdr|]. exists fs. split; [exact Hfs|]. rewrite Ep. split; [|done]. rewrite <-Hall.
    unfold pending_out. rewrite Ec, Eb. done.
  - unfold mono. simpl. repeat split; try done. apply persists_refl.
Qed.
End Inv.
