(* ===== verification/LinkSafe.v ===== *)
(** * Every method keeps the invariants

    Each method of the connection, and each of its loops, is safe in the sense
    of [Prog]: all its sections keep [Inv] and undo nothing of [mono]. *)

From S2P Require Import Prelude Utf8 Str Frame Reader Stream ReaderSim Messages Events Prog Link LinkInv.

Section Safe.
Context `{Target}.
Abbreviation lstable := (stable mono).

Lemma stable_anytime : lstable anytime.
Proof. done. Qed.
Lemma stable_opened : lstable opened.
Proof. intros w w' Hm. unfold opened. destruct Hm as (_ & Hr & _). lia. Qed.
Lemma stable_closed : lstable is_closed.
Proof.
  intros w w' (_ & Hr & _). unfold is_closed. intros E. rewrite E in Hr. simpl in Hr.
  destruct (state (flags w')); simpl in Hr; (done || lia).
Qed.
Lemma stable_io : lstable has_io.
Proof. intros w w' Hm. unfold has_io. apply Hm. Qed.
Hint Resolve stable_anytime stable_opened stable_closed stable_io : ws.

(** A method that may run whenever [P] holds, and whose result satisfies [φ]. *)
Definition ok_post (P : World → Prop) {A} (φ : A → Prop) (p : method A) : Prop :=
  safe Inv mono (λ a w, P w ∧ φ a) P p.
Abbreviation okay P p := (ok_post P (λ _, True) p).

Lemma ok_ret P {A} (φ : A → Prop) a : φ a → ok_post P φ (Done a).
Proof. intros Ha w HI HP. done. Qed.
Lemma ok_bind P {A B} (φ : A → Prop) (ψ : B → Prop) (p : method A) (k : A → method B) :
  lstable P → ok_post P φ p → (∀ a, φ a → ok_post P ψ (k a)) → ok_post P ψ (p ≫= k).
Proof.
  intros HP Hp Hk. eapply safe_bind; [exact Hp|]. intros a. apply safe_pure; [done|apply Hk].
Qed.
Lemma ok_ask P q : ok_post P (allowed q) (ask q).
Proof. intros a Ha w HI HP. done. Qed.
Lemma ok_frame P {A} (φ : A → Prop) (p : method A) : lstable P → ok_post anytime φ p → ok_post P φ p.
Proof.
  intros HP Hp. eapply safe_weaken; [apply (safe_frame _ _ _ _ P p HP Hp)|by split|].
  intros a w HI [[_ Hφ] HPw]. done.
Qed.

(** Sections. *)
Lemma ok_locked P {X} (f : World → X * World) : lstable P → section_ok P f always → okay P (locked f).
Proof.
  intros HP Hf. exists (λ _, P). split; [|split; [done|by intros x w]].
  intros w x w' HI HPw. destruct (owner w) eqn:Ho; [done|]. destruct (in_memory (f w).2) eqn:Hm; [|done].
  destruct (Hf w HI HPw Ho Hm) as (HI' & Hmo & _). intros [= E]. rewrite E in *. eauto.
Qed.
Lemma ok_held P {X} tid (f : World → X * World) : lstable P → held_ok tid f → okay P (held tid f).
Proof.
  intros HP Hf. exists (λ _, P). split; [|split; [done|by intros x w]].
  intros w x w' HI HPw. case_bool_decide as Ho; [|done]. destruct (in_memory (f w).2) eqn:Hm; [|done]. cbn [andb].
  destruct (Hf w HI Ho Hm) as (HI' & Hmo & _). intros [= E]. rewrite E in *. eauto.
Qed.
Lemma ok_atom P {X} (f : World → option (X * World)) : lstable P → atom_ok P f → okay P (Act f Done).
Proof.
  intros HP Hf. exists (λ _, P). split; [|split; [done|by intros x w]].
  intros w x w' HI HPw E. destruct (Hf w x w' HI HPw E) as [HI' Hm]. eauto.
Qed.
Lemma ok_modify P f : lstable P → (∀ w, Inv w → P w → Inv (f w) ∧ mono w (f w)) → okay P (modify f).
Proof. intros HP Hf. apply ok_atom; [done|]. intros w x w' HI HPw [= <- <-]. by apply Hf. Qed.
Lemma ok_reads P {X} (f : World → X) : lstable P → okay P (reads f).
Proof. intros HP. apply ok_atom; [done|]. intros w x w' HI HPw [= <- <-]. split; [done|apply mono_refl]. Qed.
Lemma ok_await P r f : lstable P → (∀ w, Inv w → P w → Inv (f w) ∧ mono w (f w)) → okay P (await r f).
Proof.
  intros HP Hf. apply ok_atom; [done|]. intros w x w' HI HPw. destruct (r w); [|done]. intros [= <- <-]. by apply Hf.
Qed.
Lemma ok_locked_read P {X} (f : World → X) : lstable P → okay P (locked (λ w, (f w, w))).
Proof. intros HP. apply ok_locked; [done|]. intros w HI _ _ _. by apply stay. Qed.
(** Changes of fields the invariants do not mention. *)
Lemma notify_Inv field w : Inv w → Inv (notify field w) ∧ mono w (notify field w).
Proof. intros HI. split; [exact HI|]. apply quiet_mono. split; auto. Qed.

(** One bind: its first part by a lemma of the database, or left to the user. *)
Ltac ok_step := apply (ok_bind _ (λ _, True)); [by auto with ws|..].
Ltac ok_asks :=
  match goal with
  | |- ok_post ?P _ (mbind _ (ask ?q)) => apply (ok_bind P (@allowed link_env q)); [by auto with ws|apply (ok_ask P q)|intros ? ?]
  end.
Ltac ok_read := ok_step; [first [apply ok_reads | apply ok_locked_read]; by auto with ws|]; intros ? _.
Ltac ok_done := by apply ok_ret.

(** ** Closing and events *)
Lemma ok_finish P code reason : lstable P → okay P (finish code reason).
Proof.
  intros HP. apply ok_frame; [done|]. unfold finish, ok_post.
  eapply safe_bind with (Q := λ stop w, is_closed w).
  - exists (λ _, is_closed). split; [|split; [auto with ws|by intros x w]].
    intros w x w' HI HPw. destruct (owner w) eqn:Ho; [done|]. destruct (in_memory _) eqn:Hm; [|done].
    destruct (finish_ok code reason w HI HPw Ho Hm) as (HI' & Hmo & Hc). intros [= E]. rewrite E in *. eauto.
  - intros stop. apply safe_weaken with (Q := λ _ w, is_closed w ∧ True) (P := is_closed); [|done|done].
    destruct stop; [ok_done|].
    ok_step; [apply ok_modify; [by auto with ws|apply stop_writer_Inv]|]. intros _ _.
    ok_step; [apply ok_modify; [by auto with ws|]|].
    { intros w HI _. split; [exact HI|]. unfold mono. simpl. repeat split; try done. apply persists_refl. }
    intros _ _. ok_step; [apply ok_modify; [by auto with ws|]; intros; by apply notify_Inv|]. intros _ _.
    apply ok_modify; [by auto with ws|]. intros w HI _. by apply io_shutdown_Inv.
Qed.
Hint Resolve ok_finish : ws.
Lemma ok_terminate P : lstable P → okay P terminate.
Proof. apply ok_finish. Qed.
Lemma ok_emit P ev : lstable P → is_close ev = false → okay P (emit ev).
Proof.
  intros HP Hev. unfold emit. ok_step; [apply ok_frame; [done|]; apply ok_locked; [by auto with ws|by apply emit_ok]|].
  intros sent _. ok_read. destruct (_ || _); [by apply ok_terminate|ok_done].
Qed.
Lemma ok_fail P error : lstable P → okay P (fail error).
Proof. intros HP. unfold fail, self_id. ok_read. ok_step; [by apply ok_emit|]. intros _ _. by apply ok_finish. Qed.
Lemma ok_end P : lstable P → okay P end_.
Proof. intros HP. unfold end_. ok_read. by apply ok_finish. Qed.
Lemma ok_state_of P : lstable P → okay P state_of.
Proof. intros HP. by apply ok_locked_read. Qed.
Lemma ok_anytime_locked P {X} (f : World → X * World) :
  lstable P → section_ok anytime f always → okay P (locked f).
Proof. intros HP Hf. apply ok_frame; [done|]. apply ok_locked; [by auto with ws|done]. Qed.
Lemma ok_close P code reason :
  lstable P → sends (Close (Some (code, reason))) CLOSE (close_payload code reason) → okay P (close code reason).
Proof.
  intros HP Hs. unfold close. ok_asks. ok_asks. ok_step; [apply ok_anytime_locked; [done|by apply close_ok]|].
  intros conn _. ok_step; [destruct conn; [by apply ok_fail|ok_done]|]. intros _ _.
  apply ok_modify; [done|]. intros; by apply notify_Inv.
Qed.

(** ** Sending *)
Lemma ok_send P tid op payload m :
  lstable P → sends m op payload → is_close_msg m = false → okay P (send tid op payload).
Proof.
  intros HP Hs Hc. unfold send. ok_asks.
  assert (okay P (_ ← held tid (send_push a op payload); Done (Ok (E:=bytes) tt))) as Hpush.
  { ok_step; [apply ok_held; [done|by eapply send_push_ok]|]. intros _ _. ok_done. }
  ok_step; [apply ok_anytime_locked; [done|apply send_enter_ok]|].
  intros [why| |] _; [ok_done| |exact Hpush].
  ok_step; [apply ok_held; [done|apply send_recheck_ok]|]. intros [|] _; [exact Hpush|ok_done].
Qed.
Lemma ok_flush_pong P : lstable P → okay P flush_pong.
Proof. intros HP. unfold flush_pong. ok_asks. apply ok_anytime_locked; [done|by apply flush_pong_ok]. Qed.
Lemma ok_consumed P n : lstable P → okay P (consumed n).
Proof.
  intros HP. unfold consumed. ok_step; [apply ok_modify; [done|]|].
  { intros w HI _. split; [exact HI|]. apply quiet_mono. split; auto. }
  intros _ _. apply ok_modify; [done|]. intros; by apply notify_Inv.
Qed.

(** ** Messages *)
Lemma ok_deliver P n ev : lstable P → is_close ev = false → okay P (deliver n ev).
Proof.
  intros HP Hev. unfold deliver. ok_read. ok_step.
  { destruct a; [|ok_done]. ok_step; [by apply ok_state_of|]. intros s _. ok_done. }
  intros [|] _; [ok_done|]. ok_step; [apply ok_modify; [done|]|].
  { intros w HI _. split; [exact HI|]. apply quiet_mono. split; auto. }
  intros _ _. by apply ok_emit.
Qed.
(** What the reader guarantees of the messages it returns. *)
Definition msg_in (m : Msg) : Prop :=
  match m with Ping d | Pong d => bytes_ok d ∧ zlen d <= 125 | Close st => status_ok st | _ => True end.
Lemma ok_violation e : fail_ok (fail_code e) → okay opened (violation e).
Proof.
  intros He. unfold violation, self_id. ok_read. ok_step; [apply ok_emit; [by auto with ws|done]|]. intros _ _.
  ok_asks. ok_asks. apply ok_locked; [by auto with ws|by apply violation_ok].
Qed.
Lemma ok_handle m : msg_in m → okay opened (handle m).
Proof.
  intros Hm. unfold handle, self_id. ok_read. destruct m as [d|d|d|d|st]; simpl in Hm.
  - ok_read. destruct a0; [ok_done|apply ok_deliver; [by auto with ws|done]].
  - ok_read. destruct a0; [ok_done|apply ok_deliver; [by auto with ws|done]].
  - destruct Hm. ok_asks. ok_step; [apply ok_anytime_locked; [by auto with ws|by apply ping_ok]|]. intros _ _.
    apply ok_deliver; [by auto with ws|done].
  - ok_read. destruct a0; [ok_done|apply ok_deliver; [by auto with ws|done]].
  - unfold closing. ok_asks. ok_asks. apply ok_locked; [by auto with ws|by apply closing_ok].
Qed.

(** ** What the reader returns *)
Lemma frame_view_bytes sv mx p b fi o pl t :
  bytes_ok b → frame_view sv mx p b = Got fi o pl t → bytes_ok pl ∧ bytes_ok t.
Proof.
  intros Hb. destruct b as [|b0 [|b1 r]]; [done..|]. cbn [frame_view].
  apply Forall_cons in Hb as [_ Hb]. apply Forall_cons in Hb as [_ Hr].
  do 5 (case_step; [done|]). destruct (ext_len b1 r) as [[[len r'] sh]|] eqn:E; [|done].
  apply ext_len_suffix in E as (k & -> & _). do 3 (case_step; [done|]).
  assert (bytes_ok (drop k r)) as Hr' by by apply Forall_drop. generalize (drop k r) Hr'. clear. intros r Hr.
  unfold take_key. destruct (negb _).
  - destruct r as [|k0 [|k1 [|k2 [|k3 r]]]]; try done. repeat (apply Forall_cons in Hr as [? Hr]).
    case_step; [done|]. intros [= <- <- <- <-]. split; [|by apply Forall_drop].
    apply apply_mask_bytes; [by apply Forall_take|]. unfold key_ok. simpl.
    by repeat (apply Forall_cons_2; [done|]).
  - case_step; [done|]. intros [= <- <- <- <-]. split; [by apply Forall_take|by apply Forall_drop].
Qed.
Lemma stream_step_bytes sv mx p b m p' b' :
  bytes_ok b → stream_step sv mx p b = SNext m p' b' →
  bytes_ok b' ∧ match m with
                | Some (Ping d) | Some (Pong d) | Some (Close (Some (_, d))) => bytes_ok d
                | _ => True
                end.
Proof.
  intros Hb. unfold stream_step. destruct (frame_view sv mx p b) as [|g|fi o pl t] eqn:E; [done..|].
  apply frame_view_bytes in E as [Hpl Ht]; [|done]. unfold absorb.
  destruct (o =? PING); [by intros [= <- <- <-]|]. destruct (o =? PONG); [by intros [= <- <- <-]|].
  destruct (o =? CLOSE).
  { unfold Reader.close. destruct pl as [|x [|y reason]]; [by intros [= <- <- <-]|done|]. destruct (negb _); [done|].
    destruct (from_utf8 reason); [|done]. intros [= <- <- <-]. apply Forall_cons in Hpl as [_ Hpl].
    by apply Forall_cons in Hpl as [_ Hpl]. }
  cbv zeta. intros Hs. split; [|by repeat case_match; simplify_eq].
  repeat case_match; by simplify_eq.
Qed.
Lemma stream_step_code sv mx p b f : stream_step sv mx p b = SFail f → fail_ok (fail_code f).
Proof.
  unfold stream_step, fail_ok. destruct (frame_view sv mx p b) as [|g|fi o pl t] eqn:E; [done| |].
  - intros [= <-]. destruct b as [|b0 [|b1 r]]; [done..|]. cbn [frame_view] in E.
    repeat case_match; simplify_eq; simpl; auto.
  - unfold absorb, Reader.close. intros Hs. repeat case_match; simplify_eq; simpl; auto.
Qed.

(** What the loop knows of its reader. *)
Definition reader_inv (r : Reader) : Prop :=
  reader_wf r ∧ Reader.max r < U64_MAX ∧ partial_ok (Reader.max r) (partial r) ∧ bytes_ok (rest r).
Lemma next_msg_in sv mx p b x :
  next_msg sv mx p b x → mx < U64_MAX → partial_ok mx p → bytes_ok b →
  match x with
  | Ok (m, p', b') => partial_ok mx p' ∧ bytes_ok b' ∧ from_option msg_in True m
  | Err f => fail_ok (fail_code f)
  end.
Proof.
  intros Hn Hmx. induction Hn as [p b E|p b f E|p b m p' b' E|p b p' b' x E Hn IH]; intros Hp Hb.
  - done.
  - by eapply stream_step_code.
  - destruct (stream_step_valid _ _ _ _ _ _ _ Hmx Hp E) as [Hp' Hv]. apply stream_step_bytes in E as [Hb' Hd]; [|done].
    split; [done|]. split; [done|]. simpl in *. destruct m as [| | | |[[c d]|]]; simpl in *; done.
  - destruct (stream_step_valid _ _ _ _ _ _ _ Hmx Hp E) as [Hp' _]. apply stream_step_bytes in E as [Hb' _]; [|done].
    by apply IH.
Qed.
Lemma message_in r : reader_inv r →
  ∃ r' y, message r = Ret (r', y) ∧
    match y with Ok m => reader_inv r' ∧ from_option msg_in True m | Err f => fail_ok (fail_code f) end.
Proof.
  intros (Hwf & Hmx & Hp & Hb).
  destruct (next_msg_total (Reader.server r) (Reader.max r) (partial r) (rest r)) as (x & Hx).
  destruct (message_refines _ _ r _ _ _ Hx) as (r' & y & Hm & Hpost); [done|].
  exists r', y. split; [done|]. apply next_msg_in in Hx; [|done..].
  destruct x as [[[m p'] b']|f]; simpl in Hpost; [|by subst].
  destruct Hpost as [-> (Hwf' & _ & Emx & Ep & Eb)]. destruct Hx as (Hp' & Hb' & Hm').
  split; [|done]. unfold reader_inv. by rewrite Emx, Ep, Eb.
Qed.
Lemma push_in r data : reader_inv r → bytes_ok data → ∃ r', Reader.push r data = Ret r' ∧ reader_inv r'.
Proof.
  intros (Hwf & Hmx & Hp & Hb) Hd.
  destruct (push_refines (Reader.server r) (Reader.max r) r (partial r) (rest r) data) as (r' & E & (Hwf' & _ & Emx & Ep & Eb) & _); [done|].
  exists r'. split; [done|]. unfold reader_inv. rewrite Emx, Ep, Eb. repeat (split; [done|]). by apply Forall_app.
Qed.
Lemma new_in sv mx : mx < U64_MAX → reader_inv (Reader.new sv mx).
Proof. intros. repeat split; simpl; (done || lia). Qed.

(** ** The reader's loop *)
Hint Resolve ok_terminate ok_emit ok_fail ok_end ok_state_of ok_flush_pong ok_deliver : ws.
Definition dispatched (x : bool * Reader) : Prop := x.1 = true → reader_inv x.2.
Lemma ok_dispatch_fuel fuel r : reader_inv r → ok_post opened dispatched (dispatch_fuel fuel r).
Proof.
  revert r. induction fuel as [|fuel IH]; intros r Hr; [by apply ok_ret; intros _|].
  cbn [dispatch_fuel].
  destruct (message_in r Hr) as (r' & [[m|]|f] & -> & Hy).
  - destruct Hy as [Hr' Hm]. ok_step; [by apply ok_handle|]. intros _ _. ok_step; [by auto with ws|]. intros st _.
    destruct (_ || _); [by apply ok_ret; intros [=]|by apply IH].
  - destruct Hy as [Hr' _]. by apply ok_ret; intros _.
  - ok_step; [by apply ok_violation|]. intros _ _. by apply ok_ret; intros [=].
Qed.
Lemma ok_heartbeat a : okay opened (heartbeat a).
Proof.
  unfold heartbeat. ok_read. destruct a0 as [iv|]; [|ok_done]. ok_step; [by auto with ws|]. intros st _.
  destruct (negb _); [ok_done|]. ok_asks. ok_read. ok_read.
  assert (∀ a', okay opened (_ ← fail (bs "heartbeat timed out"); Done (false, a' : Alive))) as Hfail.
  { intros a'. ok_step; [by auto with ws|]. intros _ _. ok_done. }
  assert (okay opened (match decide_action iv a0 (seen a1) a2 with
     | Wait => Done (true, a1)
     | SendPing =>
         q ← ask Now;
         key ← ask Key;
         c ← locked (ping_now key);
         Done (true, match c with
                     | Some c => {| seen := seen a1; ping := Some {| queued := q; p_sent := c |} |}
                     | None => a1
                     end)
     | Dead => _ ← fail (bs "heartbeat timed out"); Done (false, a1)
     end)) as Hdecide.
  { destruct (decide_action _ _ _ _); [ok_done| |apply Hfail]. ok_asks. ok_asks.
    ok_step; [apply ok_anytime_locked; [by auto with ws|by apply ping_now_ok]|]. intros c _. ok_done. }
  destruct (ping a1) as [pr|], a2 as [t|]; try exact Hdecide. ok_read. destruct (_ <? _); [ok_done|apply Hfail].
Qed.
Definition loop_inv (l : ReadLoop) : Prop := ok l = true → reader_inv (rdr l).
Definition next_inv (n : read_next) : Prop := match n with Continue l | Break l => loop_inv l end.
Lemma ok_read_input l : loop_inv l → ok_post opened next_inv (read_input l).
Proof.
  intros Hl. unfold read_input. ok_asks. destruct a as [data|inv text].
  - destruct data as [|b0 data]; [by apply ok_ret|]. ok_asks. destruct (ok l) eqn:Hok; [|by apply ok_ret].
    destruct (push_in (rdr l) (b0 :: data)) as (r' & -> & Hr'); [by apply Hl|by destruct H0|]. apply ok_ret; intros _; exact Hr'.
  - ok_step; [destruct inv; [by auto with ws|ok_done]|]. intros _ _. by apply ok_ret.
Qed.
Lemma ok_awaits P r f : lstable P → (∀ w, Inv w → Inv (f w)) → (∀ w, quiet w (f w)) → okay P (await r f).
Proof. intros HP Hf Hq. apply ok_await; [done|]. intros w HI _. split; [by apply Hf|apply quiet_mono, Hq]. Qed.
Lemma ok_hub_gone l : loop_inv l → ok_post opened next_inv (hub_gone l).
Proof.
  intros Hl. unfold hub_gone. ok_step; [apply ok_awaits; [by auto with ws|done|apply quiet_refl]|]. intros _ _.
  ok_step; [by auto with ws|]. intros _ _. by apply ok_ret.
Qed.
Ltac ok_awaits := ok_step; [apply ok_awaits; [by auto with ws|intros w HI; exact HI|intros w; split; auto]|]; intros _ _.
Lemma ok_read_iter l : loop_inv l → ok_post opened next_inv (read_iter l).
Proof.
  intros Hl. unfold read_iter. ok_read. destruct a.
  { ok_step; [by auto with ws|]. intros _ _. by apply ok_ret. }
  apply (ok_bind _ dispatched); [by auto with ws| |].
  { destruct (ok l) eqn:E; [by apply ok_dispatch_fuel, Hl|by apply ok_ret]. }
  intros [ok' r'] Hd. cbn [fst snd]. set (l' := Build_ReadLoop _ _ _ _).
  assert (loop_inv l') as Hl' by exact Hd. clearbody l'.
  ok_read. ok_asks. destruct (_ || _); [by apply ok_ret|].
  ok_step. { unfold wait_inbox. destruct (negb _); [ok_done|apply ok_reads; by auto with ws]. }
  intros [|] _; cbn [negb].
  - ok_step. { destruct a.2; [ok_done|apply ok_reads; by auto with ws]. }
    intros timer _. ok_asks. destruct a1; try (by apply ok_read_input).
    + ok_awaits. by apply ok_ret.
    + by apply ok_hub_gone.
    + ok_awaits. by apply ok_ret.
    + ok_asks. ok_awaits. ok_step; [apply ok_heartbeat|]. intros [h al] _. apply ok_ret. by destruct h.
  - ok_asks. destruct a1; try (ok_awaits; by apply ok_ret). by apply ok_hub_gone.
Qed.
Lemma ok_flush_wait fuel at_ : okay opened (flush_wait fuel at_).
Proof.
  induction fuel as [|fuel IH]; [ok_done|]. cbn [flush_wait]. ok_read. destruct a; [|ok_done]. cbn [negb].
  ok_asks. destruct a; try (ok_awaits; exact IH).
  - apply ok_awaits; [by auto with ws|done|apply quiet_refl].
  - ok_asks. apply ok_awaits; [by auto with ws|done|apply quiet_refl].
Qed.
Lemma ok_read_tail fuel l : loop_inv l → okay opened (read_tail fuel l).
Proof.
  intros Hl. unfold read_tail. ok_step.
  { destruct (ok l) eqn:E; [|ok_done]. apply (ok_bind _ dispatched); [by auto with ws|by apply ok_dispatch_fuel, Hl|].
    intros x _. ok_done. }
  intros _ _. unfold flush_close. ok_step; [|intros _ _; by auto with ws].
  ok_read. destruct a; [apply ok_flush_wait|ok_done].
Qed.
Lemma ok_read_run fuel l : loop_inv l → okay opened (read_run fuel l).
Proof.
  revert l. induction fuel as [|fuel IH]; intros l Hl; [ok_done|]. cbn [read_run].
  apply (ok_bind _ next_inv); [by auto with ws|by apply ok_read_iter|]. intros [l'|l'] Hl'; [by apply IH|by apply ok_read_tail].
Qed.

(** ** The writer's loop *)
Lemma ok_writer_progress P : lstable P → okay P writer_progress.
Proof.
  intros HP. unfold writer_progress, self_id. ok_step.
  { apply ok_atom; [done|]. intros w x w' HI HPw. pose proof (progress_Inv w HI) as Hp.
    destruct (progress_section (unacked (wtr w)) w) as [dr w1]. cbn [fst snd] in Hp. by intros [= <- <-]. }
  intros [|] _; [|ok_done]. ok_read. by apply ok_emit.
Qed.
Lemma ok_write_out P fuel chunk budget : lstable P → okay P (write_out fuel chunk budget).
Proof.
  intros HP. revert budget. induction fuel as [|fuel IH]; intros budget; [ok_done|]. cbn [write_out].
  ok_read. destruct (_ =? 0); [ok_done|]. ok_asks. destruct a0 as [n| |]; [|ok_done..]. destruct (n =? 0); [ok_done|].
  ok_step; [apply ok_modify; [done|]; intros w HI _; by apply accept_bytes_Inv|]. intros _ _.
  ok_asks. destruct a0; [|ok_done..]. ok_read. ok_step; [by apply ok_writer_progress|]. intros _ _.
  ok_step; [apply ok_modify; [done|]; intros w HI _; by apply note_sent_Inv|]. intros _ _. apply IH.
Qed.
Lemma ok_write_items P fuel chunk budget : lstable P → okay P (write_items fuel chunk budget).
Proof.
  intros HP. revert budget. induction fuel as [|fuel IH]; intros budget; [ok_done|]. cbn [write_items].
  ok_step; [apply ok_frame; [done|]; apply ok_atom; [by auto with ws|apply pop_item_ok]|].
  assert (∀ i, okay P (r ← write_out (S (length (item_bytes i))) chunk budget;
                       if bool_decide (r.1 = Going) then write_items fuel chunk r.2 else Done r)) as Hout.
  { intros i. ok_step; [by apply ok_write_out|]. intros r _. case_bool_decide; [apply IH|ok_done]. }
  intros [[d|d c|]|] _; [apply (Hout (Data d))|apply (Hout (Heartbeat d c))| |ok_done].
  ok_asks. destruct a; [|ok_done..]. ok_step; [apply ok_modify; [done|]|].
  { intros w HI _. split; [exact HI|]. apply quiet_mono. split; auto. }
  intros _ _. ok_step; [apply ok_modify; [done|]; intros; by apply notify_Inv|]. intros _ _. apply IH.
Qed.
Lemma ok_write_pending P fuel chunk budget : lstable P → okay P (write_pending fuel chunk budget).
Proof.
  intros HP. revert budget. induction fuel as [|fuel IH]; intros budget; [ok_done|]. cbn [write_pending].
  ok_step; [apply ok_frame; [done|]; apply ok_atom; [by auto with ws|apply take_batch_ok]|].
  intros [[n waiting]|] _; [|ok_done]. destruct (_ && _).
  - ok_asks. destruct a; try (ok_awaits; apply IH); try ok_done. ok_asks. destruct a; [apply IH|ok_done..].
  - ok_step; [destruct waiting; [by apply ok_flush_pong|ok_done]|]. intros _ _.
    ok_step; [by apply ok_write_items|]. intros r _. case_bool_decide; [apply IH|ok_done].
Qed.
Lemma ok_write_loop P fuel chunk : lstable P → okay P (write_loop fuel chunk).
Proof.
  intros HP. unfold write_loop. ok_step; [by apply ok_write_pending|]. intros [| |] _; [ok_done|by apply ok_end|].
  ok_asks. destruct a; try (apply ok_awaits; [done|done|apply quiet_refl]).
  ok_awaits. by apply ok_terminate.
Qed.

(** ** Starting, and what happens around the connection *)
Lemma ok_start P rest protocol_ ev : lstable P → is_close ev = false → okay P (start rest protocol_ ev).
Proof.
  intros HP Hev. apply ok_frame; [done|]. unfold start. ok_step.
  { apply ok_modify; [by auto with ws|]. intros w HI _. destruct (interval (cfg w)); [|by split; [|apply quiet_mono, quiet_refl]].
    split; [exact HI|]. apply quiet_mono. split; auto. }
  intros _ _. eapply safe_bind with (Q := λ _, has_io).
  { exists (λ _, has_io). split; [|split; [by auto with ws|by intros x w]].
    intros w x w' HI _ [= <- <-]. unfold once. destruct (io w) eqn:E.
    - destruct HI as (Ho & He & (F1 & F2 & F3 & F4 & F5 & F6) & Hd). split; [|split; [|done]].
      + split; [exact Ho|]. split; [exact He|]. split; [|exact Hd]. by repeat (split; [done|]).
      + unfold mono. simpl. rewrite E. repeat split; try done. apply persists_refl.
    - destruct HI as (Ho & He & (F1 & F2 & F3 & F4 & F5 & F6) & Hd). split; [|split; [|done]].
      + split; [exact Ho|]. split; [exact He|]. split; [|exact Hd]. by repeat (split; [done|]).
      + unfold mono. simpl. rewrite E. repeat split; try done. apply persists_refl. }
  intros []. apply safe_weaken with (Q := λ _ w, has_io w ∧ True) (P := has_io); [|done|done].
  change (okay has_io (_ ← modify (λ w, set_protocol (once (protocol w) protocol_) w);
    sent ← locked (start_section ev);
    match sent with
    | None => _ ← lease_drop; Done None
    | Some ok =>
        closed ← reads (λ w, hub_closed (events w));
        if negb ok || closed then _ ← terminate; _ ← lease_drop; Done None else Done (Some rest)
    end)).
  ok_step; [apply ok_modify; [by auto with ws|]|].
  { intros w HI _. split; [exact HI|]. apply quiet_mono. split; auto. }
  intros _ _. ok_step.
  { apply ok_locked; [by auto with ws|]. intros w HI HPw Ho Hm. destruct (start_ok ev Hev w HI HPw Ho Hm) as (? & ? & _). by split. }
  intros [ok|] _; [ok_read; destruct (_ || _); [|ok_done]; ok_step; [by auto with ws|]; intros _ _|];
    (ok_step; [by apply ok_terminate; auto with ws|]); intros _ _; ok_done.
Qed.
Lemma ok_activity P inbound : lstable P → okay P (activity_progress inbound).
Proof.
  intros HP. unfold activity_progress. ok_asks. apply ok_modify; [done|].
  intros w HI _. destruct (bound w), inbound; (split; [exact HI|]); apply quiet_mono; split; auto.
Qed.
End Safe.
