(* ===== verification/Conn.v ===== *)
(** * Connection handles (core/src/hub.rs)

    The application's view of a link: [Conn] checks its arguments and calls
    the link.  A [&str] argument is valid UTF-8 by its type. *)

From S2P Require Import Prelude Utf8 Frame Events Prog Link.

Section Conn.
Context `{Target}.

(** [Conn::id] *)
Definition conn_id (w : World) : Z := id (cfg w).
(** [Conn::state], [Conn::buffered] (and [Link::buffered]), [Conn::protocol] *)
Definition conn_state : method State := state_of.
Definition conn_buffered : method Z :=
  s ← state_of;
  if bool_decide (s = Closed) then Done 0 else reads buffered.
Definition conn_protocol (w : World) : option bytes := default None (protocol w).

(** [Conn::send_text] *)
Definition send_text (tid : nat) (data : bytes) : method (result unit bytes) := send tid TEXT data.
(** [Conn::send] *)
Definition conn_send (tid : nat) (data : bytes) (binary : bool) : method (result unit bytes) :=
  if binary then send tid BINARY data
  else match from_utf8 data with
       | Err _ => Done (Err (bs "text must be valid UTF-8; use send(data, true) for binary"))
       | Ok _ => send_text tid data
       end.
(** [Conn::ping] *)
Definition conn_ping (tid : nat) (data : bytes) : method (result unit bytes) :=
  if 125 <? zlen data then Done (Err (bs "ping data must be at most 125 bytes")) else send tid PING data.
(** [Conn::close] *)
Definition conn_close (code : Z) (reason : bytes) : method (result unit bytes) :=
  if negb (valid_close_code code) then Done (Err (bs "invalid close code")) else
  if 123 <? zlen reason then Done (Err (bs "close reason must be at most 123 bytes")) else
  _ ← close code reason;
  Done (Ok tt).
(** [Conn::terminate], [Conn::consumed] *)
Definition conn_terminate : method unit := terminate.
Definition conn_consumed (n : Z) : method unit := consumed n.
End Conn.
