(* ===== verification/Dial.v ===== *)
(** * Resolving and dialling (core/src/net/dns.rs, core/src/net/dial.rs)

    [resolve] answers address literals and [localhost] itself and leaves the
    rest to the operating system.  [dial] starts one attempt after the other
    and keeps the first connection; what the runtime reports to it is a list
    of events. *)

From S2P Require Import Prelude Utf8 Str Ip Url UrlFacts.

(** [SocketAddr] *)
Definition SocketAddr : Type := IpAddr * Z.
#[export] Instance IpAddr_eq_dec : EqDecision IpAddr.
Proof. solve_decision. Defined.

Section Dial.
(** The operating system's resolver behind [to_socket_addrs], run by
    [blocking]; the error is its text. *)
Variable os_lookup : bytes → Z → result (list SocketAddr) bytes.
(** [Display] of a socket address. *)
Variable show_addr : SocketAddr → bytes.

(** ** [resolve] *)
Definition V6_LOCALHOST : IpAddr := V6 [0; 0; 0; 0; 0; 0; 0; 1].
Definition V4_LOCALHOST : IpAddr := V4 [127; 0; 0; 1].
Definition resolve (host : bytes) (port : Z) : result (list SocketAddr) bytes :=
  match parse_ip host with
  | Some ip => Ok [(ip, port)]
  | None =>
      if eq_ignore_case (default host (strip_suffix (bs ".") host)) (bs "localhost") then
        Ok [(V6_LOCALHOST, port); (V4_LOCALHOST, port)]
      else os_lookup host port
  end.

(** ** [dial]

    What [join_next] returns for an attempt, with the texts of the errors; and
    the two branches of the [select!]: the attempt at address number [n] is
    joined, or the stagger has elapsed. *)
Inductive joined := Connected | Refused (error : bytes) | Died (error : bytes).
Inductive dial_event := Joined (n : nat) (r : joined) | Elapsed.
(** The running attempts and the addresses left, with their numbers. *)
Record Dial := { attempts : list (nat * SocketAddr); addresses : list (nat * SocketAddr); error : option bytes }.

(** [if let Some(addr) = addresses.next() { start(&mut attempts, addr) }] *)
Definition start_next (d : Dial) : Dial :=
  match addresses d with
  | addr :: rest => {| attempts := attempts d ++ [addr]; addresses := rest; error := error d |}
  | [] => d
  end.
Definition connect_error (addr : SocketAddr) (e : bytes) : bytes :=
  bs "cannot connect to " ++ show_addr addr ++ bs ": " ++ e.
(** The loop; [None] while it waits.  An event of no running attempt does not
    happen: it is passed over. *)
Fixpoint dial_loop (d : Dial) (events : list dial_event) : option (result SocketAddr (option bytes)) :=
  match attempts d with
  | [] => Some (Err (error d))
  | _ =>
      match events with
      | [] => None
      | Elapsed :: events => dial_loop (start_next d) events
      | Joined n r :: events =>
          match list_find (λ a, a.1 = n) (attempts d) with
          | None => dial_loop d events
          | Some (k, (_, addr)) =>
              let rest := delete k (attempts d) in
              match r with
              | Connected => Some (Ok addr)
              | Refused e =>
                  dial_loop (start_next {| attempts := rest; addresses := addresses d;
                                           error := Some (connect_error addr e) |}) events
              | Died e =>
                  dial_loop {| attempts := rest; addresses := addresses d;
                               error := Some (bs "cannot connect: " ++ e) |} events
              end
          end
      end
  end.
Definition dial (addrs : list SocketAddr) (events : list dial_event) : option (result SocketAddr (option bytes)) :=
  dial_loop (start_next {| attempts := []; addresses := imap pair addrs; error := None |}) events.

(** ** Literals never reach the operating system *)
Lemma read_groups_v4 left s l t :
  read_ipv4_addr s = Some (l, t) → ∃ g, length g = 2%nat ∧ read_groups (S (S left)) 0 [] s = (g, true, t).
Proof.
  intros E. assert (∃ a b c d, l = [a; b; c; d]) as (a & b & c & d & ->).
  { unfold read_ipv4_addr in E.
    destruct (read_octet 0 s) as [[? ?]|]; [|done]. destruct (read_octet 1 _) as [[? ?]|]; [|done].
    destruct (read_octet 2 _) as [[? ?]|]; [|done]. destruct (read_octet 3 _) as [[? ?]|]; [|done].
    simplify_eq. by repeat eexists. }
  exists [a * 256 + b; c * 256 + d]. split; [done|].
  cbn [read_groups]. unfold read_separator at 1. rewrite E. done.
Qed.
Lemma ipv6_not_ipv4 s g : parse_ipv6 s = Some g → read_ipv4_addr s = None.
Proof.
  unfold parse_ipv6, parse_with, read_ipv6_addr. destruct (read_ipv4_addr s) as [[l t]|] eqn:E; [|done].
  destruct (read_groups_v4 6 s l t E) as (g' & Hg & ->). by rewrite Hg.
Qed.
Lemma parse_ip_v6 s g : parse_ipv6 s = Some g → parse_ip s = Some (V6 g).
Proof.
  intros H. unfold parse_ip, parse_with, read_ip_addr. rewrite (ipv6_not_ipv4 s g H).
  unfold parse_ipv6, parse_with in H. by destruct (read_ipv6_addr s) as [[a [|]]|]; simplify_eq.
Qed.

(** ** The attempts *)
Definition dead (ev : dial_event) : bool := match ev with Joined _ (Died _) => true | _ => false end.
(** While addresses are left, an attempt is running. *)
Definition dial_ok (d : Dial) : Prop := attempts d = [] → addresses d = [].
Lemma start_next_ok d : dial_ok (start_next d).
Proof. unfold dial_ok, start_next. destruct (addresses d) eqn:E; simpl; [by rewrite E|]. by destruct (attempts d). Qed.
Lemma start_next_all d : attempts (start_next d) ++ addresses (start_next d) = attempts d ++ addresses d.
Proof. unfold start_next. destruct (addresses d) eqn:E; simpl; [by rewrite E|]. by rewrite <-app_assoc. Qed.
Lemma start_next_error d : error (start_next d) = error d.
Proof. unfold start_next. by destruct (addresses d). Qed.
Lemma find_attempt (l : list (nat * SocketAddr)) n k a :
  list_find (λ a, a.1 = n) l = Some (k, a) → a.1 = n ∧ l ≡ₚ a :: delete k l.
Proof. intros (Hk & Hn & _)%list_find_Some. split; [done|]. by rewrite <-delete_Permutation. Qed.

(** The outcome of the loop, from any of its states: a connection is the one
    that was reported, and a failure is made of as many refusals that were
    reported as there were attempts and addresses. *)
Lemma dial_loop_outcome events : ∀ d r,
  dial_loop d events = Some r →
  match r with
  | Ok addr => ∃ n, (n, addr) ∈ attempts d ++ addresses d ∧ Joined n Connected ∈ events
  | Err e =>
      dial_ok d → Forall (λ ev, dead ev = false) events →
      ∃ fails : list (nat * SocketAddr * bytes),
        map fst fails ≡ₚ attempts d ++ addresses d ∧
        map (λ f, Joined f.1.1 (Refused f.2)) fails `sublist_of` events ∧
        e = from_option (λ f, Some (connect_error f.1.2 f.2)) (error d) (last fails)
  end.
Proof.
  induction events as [|ev events IH]; intros d r; cbn [dial_loop].
  { destruct (attempts d) eqn:Ea; [|done]. intros [= <-] Hok _. exists []. rewrite (Hok Ea). split_and!; [done|constructor|done]. }
  destruct (attempts d) as [|a0 rest0] eqn:Ea.
  { intros [= <-] Hok _. exists []. rewrite (Hok Ea). split_and!; [done|apply sublist_nil_l|done]. }
  rewrite <-Ea. clear a0 rest0 Ea. destruct ev as [n j|].
  2: { intros H. apply IH in H. rewrite start_next_all, start_next_error in H. destruct r.
       - destruct H as (n & ? & ?). exists n. by split; [|right].
       - intros Hok [_ Hd]%Forall_cons. destruct H as (fs & H1 & H2 & H3); [apply start_next_ok|done|].
         exists fs. split_and!; [done|by apply sublist_cons|done]. }
  destruct (list_find _ (attempts d)) as [[k [m addr]]|] eqn:Ek.
  2: { intros H. apply IH in H. destruct r.
       - destruct H as (n' & ? & ?). exists n'. by split; [|right].
       - intros Hok [_ Hd]%Forall_cons. destruct H as (fs & H1 & H2 & H3); [done|done|].
         exists fs. split_and!; [done|by apply sublist_cons|done]. }
  apply find_attempt in Ek as [Em Hp]. simpl in Em. subst m. cbv zeta. set (rest := delete k (attempts d)) in *. clearbody rest.
  destruct j as [|e|e].
  - intros [= <-]. exists n. split; [|by left]. rewrite Hp. by left.
  - intros H. apply IH in H. rewrite start_next_all, start_next_error in H. cbn [attempts addresses error] in H.
    destruct r as [a|e'].
    { destruct H as (n' & H1 & ?). exists n'. split; [|by right]. rewrite Hp. by right. }
    intros Hok [_ Hd]%Forall_cons. destruct H as (fails & Hf & Hsub & ->); [apply start_next_ok|done|].
    exists ((n, addr, e) :: fails). simpl. split; [by rewrite Hf, Hp|]. split; [by apply sublist_skip|]. rewrite last_cons.
    by destruct (last fails).
  - intros H. apply IH in H. cbn [attempts addresses error] in H. destruct r as [a|e'].
    { destruct H as (n' & H1 & ?). exists n'. split; [|by right]. rewrite Hp. by right. }
    intros Hok [Hc _]%Forall_cons. done.
Qed.

(** ** Termination *)
(** The events that start an attempt at the next address. *)
Definition starts_next (ev : dial_event) : bool := match ev with Elapsed | Joined _ (Refused _) => true | _ => false end.
(** Every report is of an attempt that was started and has not reported. *)
Definition genuine (len : nat) (events : list dial_event) : Prop :=
  ∀ p n r s, events = p ++ Joined n r :: s →
    (n < len)%nat ∧ (n <= length (filter (λ ev, starts_next ev = true) p))%nat ∧ ∀ r', Joined n r' ∉ p.
(** Where the loop is after the events [p]. *)
Definition dial_after (addrs : list SocketAddr) (p : list dial_event) (d : Dial) : Prop :=
  addresses d = drop (S (length (filter (λ ev, starts_next ev = true) p))) (imap pair addrs) ∧
  (∀ n, (∃ a, (n, a) ∈ attempts d) ↔
     (n < length addrs)%nat ∧ (n <= length (filter (λ ev, starts_next ev = true) p))%nat ∧ ∀ r, Joined n r ∉ p) ∧
  NoDup (map fst (attempts d)).
Lemma imap_pair_lookup (addrs : list SocketAddr) n x : imap pair addrs !! n = Some x → x.1 = n ∧ (n < length addrs)%nat.
Proof.
  rewrite list_lookup_imap. destruct (addrs !! n) as [a|] eqn:E; [|done]. intros [= <-]. split; [done|by eapply lookup_lt_Some].
Qed.
(** Starting the next address, when there is one. *)
Lemma start_after addrs p ev d :
  starts_next ev = true → addresses d = drop (S (length (filter (λ ev, starts_next ev = true) p))) (imap pair addrs) →
  (∀ n, (∃ a, (n, a) ∈ attempts d) ↔
     (n < length addrs)%nat ∧ (n <= length (filter (λ ev, starts_next ev = true) p))%nat ∧ ∀ r, Joined n r ∉ p ++ [ev]) →
  NoDup (map fst (attempts d)) → (∀ n r, Joined n r ∈ p ++ [ev] → (n <= length (filter (λ ev, starts_next ev = true) p))%nat) →
  dial_after addrs (p ++ [ev]) (start_next d).
Proof.
  intros Hev Ea Hat Hnd Hrep. unfold dial_after. rewrite filter_app, length_app.
  change (filter _ [ev]) with (if decide (starts_next ev = true) then [ev] else []). rewrite decide_True by done. cbn [length].
  set (c := length (filter (λ ev, starts_next ev = true) p)) in *. rewrite Nat.add_1_r.
  unfold start_next. rewrite Ea. destruct (imap pair addrs !! S c) as [x|] eqn:Ex.
  - apply imap_pair_lookup in Ex as Ex'. destruct Ex' as [En Hlt]. destruct x as [n0 a0]. simpl in En. subst n0.
    rewrite (drop_S _ _ _ Ex). cbn [attempts addresses]. split; [done|]. split.
    + intros n. split.
      * intros (a & [Hin|Hin%list_elem_of_singleton]%elem_of_app); [|simplify_eq; split_and!; [done|lia|]].
        { destruct (proj1 (Hat n)) as (? & ? & ?); [by exists a|]. split_and!; [done|lia|done]. }
        intros r Hr. apply Hrep in Hr. lia.
      * intros (H1 & H2 & H3). destruct (decide (n = S c)) as [->|Hne].
        { exists a0. apply elem_of_app. right. by left. }
        destruct (proj2 (Hat n)) as [a Ha]; [split_and!; [done|lia|done]|]. exists a. apply elem_of_app. by left.
    + rewrite map_app, NoDup_app. split; [done|]. split; [|apply NoDup_singleton].
      intros m (x & -> & Hin)%list_elem_of_fmap [Hm|Hm%elem_of_nil]%elem_of_cons; [|done]. destruct x as [m a]. simpl in Hm. subst m.
      destruct (proj1 (Hat (S c))) as (_ & ? & _); [by exists a|]. lia.
  - assert (length addrs <= S c)%nat as Hge by (apply lookup_ge_None in Ex; by rewrite length_imap in Ex).
    rewrite drop_ge by (rewrite length_imap; lia). split; [rewrite Ea, !drop_ge; rewrite ?length_imap; (done || lia)|]. split; [|done].
    intros n. rewrite Hat. split; intros (H1 & H2 & H3); (split_and!; [done|lia|done]).
Qed.
Lemma dial_loop_total addrs events : ∀ p d,
  dial_after addrs p d → Forall (λ ev, dead ev = false) events → genuine (length addrs) (p ++ events) →
  (∀ n, (n < length addrs)%nat → ∃ r, Joined n r ∈ p ++ events) → is_Some (dial_loop d events).
Proof.
  induction events as [|ev events IH]; intros p d (Ea & Hat & Hnd) Hdead Hg Hall; cbn [dial_loop].
  { destruct (attempts d) as [|[n a] rest] eqn:E; [by eauto|]. exfalso.
    destruct (proj1 (Hat n)) as (Hn & _ & Hno); [exists a; by left|]. destruct (Hall n Hn) as [r Hr]. rewrite app_nil_r in Hr. by apply (Hno r). }
  apply Forall_cons in Hdead as [Hde Hdead].
  destruct (attempts d) as [|a0 rest0] eqn:E0; [by eauto|]. rewrite <-E0 in *. clear a0 rest0 E0.
  assert (∀ n r, Joined n r ∈ p → (n <= length (filter (λ ev, starts_next ev = true) p))%nat) as Hearly.
  { intros n r (p1 & p2 & ->)%list_elem_of_split. destruct (Hg p1 n r (p2 ++ ev :: events)) as (_ & Hle & _); [by rewrite <-app_assoc|].
    rewrite filter_app, length_app. lia. }
  assert (p ++ ev :: events = (p ++ [ev]) ++ events) as Ep by (by rewrite <-app_assoc). rewrite Ep in Hg, Hall.
  destruct ev as [n r|].
  - destruct (Hg p n r events) as (Hn & Hle & Hnew); [by rewrite <-app_assoc|].
    destruct (proj2 (Hat n)) as [a Hin]; [done|].
    destruct (list_find (λ a, a.1 = n) (attempts d)) as [[k [m addr]]|] eqn:Ek.
    2: { apply list_find_None in Ek. rewrite Forall_forall in Ek. by destruct (Ek _ Hin). }
    apply list_find_Some in Ek as (Hk & Em & _). simpl in Em. subst m.
    destruct r as [|e|e]; [by eauto| |done]. apply (IH (p ++ [Joined n (Refused e)])); [|done..].
    pose proof (delete_Permutation _ _ _ Hk) as Hp. set (rest := delete k (attempts d)) in *. clearbody rest.
    assert (∀ x, x ∈ attempts d ↔ x = (n, addr) ∨ x ∈ rest) as Hel by (intros x; by rewrite Hp, elem_of_cons).
    rewrite Hp in Hnd. cbn [map fst] in Hnd. apply NoDup_cons in Hnd as [Hnn Hnd].
    apply start_after; [done|done| |done|].
    + intros m. cbn [attempts]. assert ((∃ b, (m, b) ∈ rest) ↔ m ≠ n ∧ ∃ b, (m, b) ∈ attempts d) as ->.
      { setoid_rewrite Hel. split.
        - intros [b Hb]. split; [|exists b; by right]. intros ->. apply Hnn, list_elem_of_fmap. by exists (n, b).
        - intros (Hne & b & [Hb|Hb]); [by simplify_eq|by exists b]. }
      rewrite Hat. setoid_rewrite not_elem_of_app. setoid_rewrite list_elem_of_singleton. split.
      * intros (Hne & H1 & H2 & H3). split_and!; [done|done|]. intros r. split; [done|congruence].
      * intros (H1 & H2 & H3). split; [|split_and!; [done|done|by intros r; apply H3]]. intros ->. by destruct (H3 (Refused e)).
    + intros m r [Hm|Hm%list_elem_of_singleton]%elem_of_app; [by eapply Hearly|by simplify_eq].
  - apply (IH (p ++ [Elapsed])); [|done..]. apply start_after; [done|done| |done|].
    + intros n. rewrite Hat. setoid_rewrite not_elem_of_app. setoid_rewrite list_elem_of_singleton. naive_solver.
    + intros m r [Hm|Hm%list_elem_of_singleton]%elem_of_app; [by eapply Hearly|done].
Qed.
End Dial.
Arguments resolve os_lookup host port.

(** ** [blocking]: bounded lookups

    A lookup waits for one of [LIMIT] slots, then runs on a thread of its own
    and keeps the slot until the operating system answers, also when the caller
    that waits for it is gone.  The semaphore is tokio's: an acquire takes a
    free slot or waits. *)
Definition LIMIT : Z := 16.
Inductive Lookup := InLine | OnThread (waited : bool) | Answered (waited : bool) | Withdrawn.
Record Resolver := { free : Z; lookups : list Lookup }.
Definition resolver_new : Resolver := {| free := LIMIT; lookups := [] |}.
Definition set_lookup (i : nat) (l : Lookup) (free : Z) (r : Resolver) : Resolver :=
  {| free := free; lookups := <[i := l]> (lookups r) |}.
(** What a lookup does next, and what the end of its caller does to it. *)
Definition lookup_turn (i : nat) (r : Resolver) : Resolver :=
  match lookups r !! i with
  | Some InLine => if 0 <? free r then set_lookup i (OnThread true) (free r - 1) r else r
  | Some (OnThread waited) => set_lookup i (Answered waited) (free r + 1) r
  | _ => r
  end.
Definition lookup_cancel (i : nat) (r : Resolver) : Resolver :=
  match lookups r !! i with
  | Some InLine => set_lookup i Withdrawn (free r) r
  | Some (OnThread _) => set_lookup i (OnThread false) (free r) r
  | Some (Answered _) => set_lookup i (Answered false) (free r) r
  | _ => r
  end.
Inductive resolver_step : Resolver → Resolver → Prop :=
  | lookup_begins r : resolver_step r {| free := free r; lookups := lookups r ++ [InLine] |}
  | lookup_moves i r : resolver_step r (lookup_turn i r)
  | lookup_ends i r : resolver_step r (lookup_cancel i r).
Definition running (l : Lookup) : Z := match l with OnThread _ => 1 | _ => 0 end.
Definition busy (ls : list Lookup) : Z := foldr (λ l n, running l + n) 0 ls.
Lemma busy_app ls ls' : busy (ls ++ ls') = busy ls + busy ls'.
Proof. induction ls as [|l ls IH]; [done|]. simpl. lia. Qed.
Lemma busy_insert ls i l l' : ls !! i = Some l → busy (<[i := l']> ls) = busy ls - running l + running l'.
Proof.
  intros Hi. rewrite <-(take_drop_middle ls i l Hi) at 2. rewrite insert_take_drop by (by eapply lookup_lt_Some).
  rewrite !busy_app. simpl. lia.
Qed.
Lemma busy_nonneg ls : 0 <= busy ls.
Proof. induction ls as [|[] ls IH]; simpl; lia. Qed.
Definition resolver_ok (r : Resolver) : Prop := 0 <= free r ∧ free r + busy (lookups r) = LIMIT.
Lemma resolver_step_ok r r' : resolver_step r r' → resolver_ok r → resolver_ok r'.
Proof.
  unfold resolver_ok. intros [r0|i r0|i r0] [Hf Hb].
  - cbn. rewrite busy_app. simpl. lia.
  - unfold lookup_turn. destruct (lookups r0 !! i) as [[|w|w|]|] eqn:Ei; try done.
    + destruct (Z.ltb_spec 0 (free r0)); [|done]. cbn. rewrite (busy_insert _ _ _ _ Ei). simpl. lia.
    + cbn. rewrite (busy_insert _ _ _ _ Ei). simpl. lia.
  - unfold lookup_cancel. destruct (lookups r0 !! i) as [[|w|w|]|] eqn:Ei; try done;
      cbn; rewrite (busy_insert _ _ _ _ Ei); simpl; lia.
Qed.
(** At most [LIMIT] lookups run at a time, those of cancelled callers included,
    and a lookup waits only while all slots are taken by running ones. *)
Theorem lookups_bounded r i :
  rtc resolver_step resolver_new r →
  busy (lookups r) <= LIMIT ∧
  (lookups r !! i = Some InLine → lookup_turn i r = r → busy (lookups r) = LIMIT).
Proof.
  intros Hr. assert (resolver_ok r) as [Hf Hb].
  { remember resolver_new as r0 eqn:E. assert (resolver_ok r0) as Hok by (by subst). clear E.
    induction Hr as [|r1 r2 r3 Hs _ IH]; [done|]. by eapply IH, resolver_step_ok. }
  split; [lia|]. intros Hi Ht. unfold lookup_turn in Ht. rewrite Hi in Ht. destruct (Z.ltb_spec 0 (free r)); [|lia].
  apply (f_equal free) in Ht. cbn in Ht. lia.
Qed.

(** The host of a URL the parser accepts in brackets is the address it
    names: resolving it gives exactly that IPv6 address and the URL's port, and
    neither it nor [localhost] depends on the operating system's resolver. *)
Theorem resolve_literal os_lookup input u :
  parse_url input = Ok u →
  (is_Some (strip_prefix (bs "[") (authority u)) →
     ∃ g, parse_ipv6 (host u) = Some g ∧ resolve os_lookup (host u) (port u) = Ok [(V6 g, port u)]) ∧
  (host u = bs "localhost" ∨ host u = bs "localhost." →
     resolve os_lookup (host u) (port u) = Ok [(V6_LOCALHOST, port u); (V4_LOCALHOST, port u)]).
Proof.
  intros Hwf%parse_url_wf. split.
  - rewrite (authority_text u Hwf). destruct (wf_host u Hwf) as [Hp|[[g Hg] _]].
    + rewrite (bracket_plain _ Hp), (strip_bracket _ _ Hp). by intros [? ?].
    + intros _. exists g. split; [done|]. unfold resolve. by rewrite (parse_ip_v6 _ _ Hg).
  - by intros [-> | ->].
Qed.
Lemma resolve_literal_witness :
  resolve (λ _ _, Err (bs "offline")) (host sample_url) (port sample_url) =
    Ok [(V6 [0x2001; 0xdb8; 0; 0; 0; 0; 0; 1], 8443)].
Proof.
  destruct (resolve_literal (λ _ _, Err (bs "offline")) sample_input sample_url) as [H _];
    [vm_compute; reflexivity|].
  destruct H as (g & Hg & H); [vm_compute; by eexists|]. rewrite H.
  assert (Some g = Some [0x2001; 0xdb8; 0; 0; 0; 0; 0; 1]) as [= ->] by (rewrite <-Hg; vm_compute; reflexivity).
  reflexivity.
Defined.

(** C33: Dialling is exhaustive.  If no attempt panics, it fails only when
    every address, by its number, was attempted and its refusal was reported,
    and the error is that of the last of those refusals (none when there was no
    address); a connection it returns is to the address whose attempt reported
    it.  And it returns: once every address has reported, each report being of
    an attempt that was started and had not reported, there is a result,
    whatever the stagger does. *)
Theorem dial_exhausts show_addr addrs events :
  Forall (λ ev, dead ev = false) events →
  (∀ addr, dial show_addr addrs events = Some (Ok addr) →
     ∃ n, addrs !! n = Some addr ∧ Joined n Connected ∈ events) ∧
  (∀ e, dial show_addr addrs events = Some (Err e) →
     ∃ fails : list (nat * SocketAddr * bytes),
       map fst fails ≡ₚ imap pair addrs ∧
       map (λ f, Joined f.1.1 (Refused f.2)) fails `sublist_of` events ∧
       e = (λ f, connect_error show_addr f.1.2 f.2) <$> last fails) ∧
  (genuine (length addrs) events → (∀ n, (n < length addrs)%nat → ∃ r, Joined n r ∈ events) →
     is_Some (dial show_addr addrs events)).
Proof.
  intros Hd. unfold dial. set (d0 := {| attempts := []; addresses := imap pair addrs; error := None |}).
  assert (attempts (start_next d0) ++ addresses (start_next d0) = imap pair addrs) as Ea by apply start_next_all.
  split_and!.
  - intros addr H%dial_loop_outcome. rewrite Ea in H. destruct H as (n & Hin & Hc). exists n. split; [|done].
    apply list_elem_of_lookup in Hin as [i Hi]. pose proof (imap_pair_lookup _ _ _ Hi) as [E _]. simpl in E. subst i.
    rewrite list_lookup_imap in Hi. by destruct (addrs !! n); simplify_eq/=.
  - intros e H%dial_loop_outcome. destruct H as (fails & Hf & Hsub & ->); [apply start_next_ok|done|].
    exists fails. rewrite Ea in Hf. split; [done|]. split; [done|]. rewrite start_next_error. by destruct (last fails).
  - intros Hg Hall. apply (dial_loop_total show_addr addrs events []); [|done..]. unfold start_next, d0. cbn [addresses attempts error].
    destruct addrs as [|a addrs]; (split; [done|split; [|apply NoDup_nil_2 || apply NoDup_singleton]]).
    + intros n. split; [by intros (? & ?%elem_of_nil)|simpl; lia].
    + intros n. simpl. split.
      * intros (b & Hb%list_elem_of_singleton). simplify_eq. split_and!; [lia|lia|]. intros r. apply not_elem_of_nil.
      * intros (_ & Hn & _). assert (n = 0%nat) as -> by lia. exists a. by left.
Qed.
Definition loopback : SocketAddr := (V6_LOCALHOST, 80).
Definition refusals : list dial_event := [Elapsed; Joined 1 (Refused (bs "no")); Joined 0 (Refused (bs "late"))].
Lemma dial_exhausts_witness :
  dial (λ _, bs "addr") [loopback; loopback] refusals = Some (Err (Some (bs "cannot connect to addr: late"))) ∧
  ∃ fails : list (nat * SocketAddr * bytes),
    map fst fails ≡ₚ [(0%nat, loopback); (1%nat, loopback)] ∧
    map (λ f, Joined f.1.1 (Refused f.2)) fails `sublist_of` refusals.
Proof.
  split; [vm_compute; reflexivity|].
  destruct (dial_exhausts (λ _, bs "addr") [loopback; loopback] refusals) as (_ & He & _); [repeat constructor|].
  destruct (He (Some (bs "cannot connect to addr: late"))) as (fails & Hf & Hs & _); [vm_compute; reflexivity|].
  by exists fails.
Defined.
