(* ===== verification/Client.v ===== *)
(** * The client (core/src/net/client.rs, core/src/net/options.rs)

    [connect] checks its arguments on the caller's thread and makes a
    connection; a worker then establishes the stream ([establish]) and starts
    the connection or makes it fail. *)

From S2P Require Import Prelude Utf8 Str Http Ip Url Base64 Handshake Head Dial Events Prog Link.

(** The defaults of core/src/lib.rs. *)
Definition MAX_MESSAGE : Z := Z.shiftl 1 20.
Definition MAX_BUFFER : Z := Z.shiftl 16 20.
Definition HEARTBEAT : Z := 30 * SECOND.

(** What the client takes from rustls and from tls.rs, and the shared runtime
    (runtime.rs): configurations, server names and their checks. *)
Class Tls := {
  ClientConfig : Type;
  ServerName : Type;
  tls_client : result ClientConfig bytes;
  server_name : bytes → option ServerName
}.

Section Client.
Context `{Tls}.

(** ** Options *)
Record ClientOptions := {
  c_protocols : list bytes;
  c_headers : Headers;
  c_tls : option ClientConfig;
  c_timeout : Z;
  c_max_message : Z;
  c_max_buffer : Z;
  c_heartbeat : option Z
}.
Definition client_default : ClientOptions := {|
  c_protocols := []; c_headers := []; c_tls := None; c_timeout := 10 * SECOND;
  c_max_message := MAX_MESSAGE; c_max_buffer := MAX_BUFFER; c_heartbeat := Some HEARTBEAT
|}.

(** ** [connect] *)
Record ClientTarget := { t_url : Url; t_tls : option (ClientConfig * ServerName) }.
(** What is left running: the connection, and what its worker was given. *)
Record Started := { s_link : World; s_target : ClientTarget; s_deadline : Z }.

(** The loop over the subprotocols. *)
Fixpoint check_protocols (ps seen : list bytes) : result unit bytes :=
  match ps with
  | [] => Ok tt
  | p :: ps =>
      if negb (is_token p) || bool_decide (p ∈ seen) then Err (bs "invalid subprotocol: " ++ p)
      else check_protocols ps (p :: seen)
  end.
Fixpoint check_headers (hs : Headers) : result unit bytes :=
  match hs with
  | [] => Ok tt
  | (name, value) :: hs => let? _ := check_header name value in check_headers hs
  end.
Definition client_tls (opts : ClientOptions) (url : Url) : result (option (ClientConfig * ServerName)) bytes :=
  if tls url then
    let? config := (match c_tls opts with Some c => Ok c | None => tls_client end) in
    match server_name (host url) with
    | Some name => Ok (Some (config, name))
    | None => Err (bs "invalid URL host")
    end
  else Ok None.
(** [now], [token] and [rt] are the clock, the random heartbeat token of
    [Link::new] and the result of [runtime::shared()]. *)
Definition connect (now : Z) (token : bytes) (rt : result unit bytes)
    (events : Events) (id : Z) (input : bytes) (opts : ClientOptions) : result Started bytes :=
  let? url := parse_url input in
  if (c_max_message opts =? 0) || (c_max_buffer opts =? 0) then Err (bs "limits must be positive") else
  if bool_decide (c_heartbeat opts = Some 0) then Err (bs "heartbeat must be positive") else
  let? _ := check_protocols (c_protocols opts) [] in
  let? _ := check_headers (c_headers opts) in
  if bool_decide (is_Some (c_tls opts)) && negb (tls url) then Err (bs "TLS settings need a wss:// URL") else
  let? tls := client_tls opts url in
  match checked_add now (c_timeout opts) with
  | None => Err (bs "connection timeout is too large")
  | Some deadline =>
      match rt with
      | Err e => Err (bs "cannot start I/O runtime: " ++ e)
      | Ok _ =>
          Ok {| s_link := link_new
                  {| Link.id := id; is_server := false; max_message := c_max_message opts;
                     buffer := c_max_buffer opts; interval := c_heartbeat opts; token := token; born := now |} events;
                s_target := {| t_url := url; t_tls := tls |};
                s_deadline := deadline |}
      end
  end.

(** ** [establish]

    What the worker meets: the resolver, the dialling, the transport, the
    random nonce, the write of the request and the reads of the response, with
    the texts of their errors. *)
Record ClientNet := {
  n_lookup : bytes → Z → result (list SocketAddr) bytes;
  n_show : SocketAddr → bytes;
  n_dial : list dial_event;
  n_transport : result unit bytes;
  n_nonce : bytes;
  n_write : result unit bytes;
  n_reads : list (result bytes IoError);
  n_show_io : IoError → bytes
}.
Variable sha1 : bytes → bytes.

(** The key of this attempt. *)
Definition net_key (net : ClientNet) : bytes := b64_encode (n_nonce net).
(** Reading and checking the response; [None]: still waiting. *)
Definition await_response (net : ClientNet) (ps : list bytes) : option (result (bytes * option bytes) bytes) :=
  match read_head (n_reads net) with
  | None => None
  | Some (Err TooLarge) => Some (Err (bs "handshake response too large"))
  | Some (Err (HeadIo e)) => Some (Err (bs "handshake failed: " ++ n_show_io net e))
  | Some (Ok (head, rest)) =>
      Some (let? protocol := response sha1 head (net_key net) ps in Ok (rest, protocol))
  end.
(** The request once it is written, and the bytes read past the response with
    the subprotocol;
    [None]: still waiting. *)
Definition establish (net : ClientNet) (target : ClientTarget) (opts : ClientOptions)
    : bytes * option (result (bytes * option bytes) bytes) :=
  let url := t_url target in
  match resolve (n_lookup net) (host url) (port url) with
  | Err e => ([], Some (Err (bs "cannot resolve " ++ host url ++ bs ": " ++ e)))
  | Ok addrs =>
      match dial (n_show net) addrs (n_dial net) with
      | None => ([], None)
      | Some (Err e) => ([], Some (Err (default (bs "cannot resolve " ++ host url) e)))
      | Some (Ok _) =>
          match n_transport net with
          | Err e => ([], Some (Err (bs "TLS handshake failed: " ++ e)))
          | Ok _ =>
              match n_write net with
              | Err e => ([], Some (Err (bs "handshake failed: " ++ e)))
              | Ok _ =>
                  (client_request url (net_key net) (c_protocols opts) (c_headers opts),
                   await_response net (c_protocols opts))
              end
          end
      end
  end.

(** ** The worker

    [outcome] is the result of [establish], [None] when the deadline passed.
    The result is that of [start]: what the connection's loops begin with, if
    they run. *)
Definition client_worker (id : Z) (outcome : option (result (bytes * option bytes) bytes)) : method (option bytes) :=
  sel ← ask Select;
  match sel with
  | SelStopped => _ ← await stopped (λ w, w); _ ← lease_drop; Done None
  | SelHubClosed =>
      _ ← await (λ w, hub_closed (events w)) (λ w, w);
      _ ← terminate; _ ← lease_drop; Done None
  | _ =>
      match outcome with
      | Some (Ok (rest, protocol)) => start rest protocol (EvOpen id)
      | Some (Err e) => _ ← fail e; _ ← lease_drop; Done None
      | None => _ ← fail (bs "handshake timed out"); _ ← lease_drop; Done None
      end
  end.
End Client.
