(* ===== verification/LinkProps.v ===== *)
(** * Properties of a connection

    [starts] lists what can act on a connection: calls on its handles from any
    thread, the connection task, the transport and the hub.  The theorems hold
    in every state any interleaving of their sections can reach. *)

From S2P Require Import Prelude Utf8 Str Frame Reader Stream ReaderSim Messages Events Prog Link LinkInv LinkSafe Conn Client.

Section Props.
Context `{Target}.

(** ** Who acts on a connection *)
Definition ignore {A} (p : method A) : method unit := _ ← p; Done tt.
Inductive starts (w : World) : method unit → Prop :=
  | starts_send tid data binary :
      bytes_ok data → zlen data <= MAX_PAYLOAD → starts w (ignore (conn_send tid data binary))
  | starts_ping tid data : bytes_ok data → starts w (ignore (conn_ping tid data))
  | starts_close code reason : bytes_ok reason → from_utf8 reason = Ok tt → starts w (ignore (conn_close code reason))
  | starts_terminate : starts w conn_terminate
  | starts_consumed n : starts w (conn_consumed n)
  | starts_fail error : starts w (fail error)
  | starts_start rest protocol_ ev : is_close ev = false → starts w (ignore (start rest protocol_ ev))
  | starts_client id outcome : starts w (ignore (client_worker id outcome))
  | starts_read fuel rest :
      opened w → max_message (cfg w) < U64_MAX → bytes_ok rest → starts w (read_loop fuel rest)
  | starts_write fuel chunk : opened w → starts w (write_loop fuel chunk)
  | starts_activity inbound : starts w (activity_progress inbound)
  | starts_hub_close : starts w (modify (λ w, set_events (events_close (events w)) w))
  | starts_hub_drop : starts w (modify (λ w, set_events (drop_receiver (events w)) w)).

Lemma ok_ignore P {A} (p : method A) : stable mono P → ok_post P (λ _, True) p → ok_post P (λ _, True) (ignore p).
Proof. intros HP Hp. apply (ok_bind _ (λ _, True)); [done|done|]. intros a _. by apply ok_ret. Qed.
Lemma sends_data o d m :
  (o = TEXT ∧ m = Text d ∧ from_utf8 d = Ok tt ∨ o = BINARY ∧ m = Binary d) →
  bytes_ok d → zlen d <= MAX_PAYLOAD → sends m o d.
Proof.
  unfold MAX_PAYLOAD. intros [(-> & -> & Hu)|[-> ->]] Hb Hl;
    (split; [done|]; split; [done|]); unfold msg_ok, MAX_PAYLOAD; repeat split; (done || lia).
Qed.
Lemma ok_conn_send P tid data binary :
  stable mono P → bytes_ok data → zlen data <= MAX_PAYLOAD → ok_post P (λ _, True) (conn_send tid data binary).
Proof.
  intros HP Hb Hl. unfold conn_send, send_text. destruct binary.
  - apply (ok_send P _ _ _ (Binary data)); [done| |done]. apply sends_data; [by right|done..].
  - destruct (from_utf8 data) as [[]|] eqn:E; [|by apply ok_ret].
    apply (ok_send P _ _ _ (Text data)); [done| |done]. apply sends_data; [by left|done..].
Qed.
Lemma ok_conn_ping P tid data : stable mono P → bytes_ok data → ok_post P (λ _, True) (conn_ping tid data).
Proof.
  intros HP Hb. unfold conn_ping. destruct (Z.ltb_spec 125 (zlen data)); [by apply ok_ret|].
  apply (ok_send P _ _ _ (Ping data)); [done| |done]. split; [done|]. split; [unfold MAX_PAYLOAD; lia|done].
Qed.
Lemma ok_conn_close P code reason :
  stable mono P → bytes_ok reason → from_utf8 reason = Ok tt → ok_post P (λ _, True) (conn_close code reason).
Proof.
  intros HP Hb Hu. unfold conn_close. destruct (valid_close_code code) eqn:Ev; [|by apply ok_ret]. cbn [negb].
  destruct (Z.ltb_spec 123 (zlen reason)); [by apply ok_ret|].
  apply (ok_bind _ (λ _, True)); [done|by apply ok_close; [|apply sends_close]|]. intros _ _. by apply ok_ret.
Qed.
(** A step of the client's worker that ends it. *)
Lemma ok_abandon P (p : method unit) : stable mono P → ok_post P (λ _, True) p → ok_post P (λ _, True) (_ ← p; _ ← lease_drop; Done (@None bytes)).
Proof.
  intros HP Hp. apply (ok_bind _ (λ _, True)); [done|done|]. intros _ _.
  apply (ok_bind _ (λ _, True)); [done|by apply ok_terminate|]. intros _ _. by apply ok_ret.
Qed.
Lemma ok_client_worker P id outcome : stable mono P → ok_post P (λ _, True) (client_worker id outcome).
Proof.
  intros HP. unfold client_worker. apply (ok_bind _ (λ _ : selection, True)); [done|eapply safe_weaken; [apply (ok_ask P Select)|done|by intros ? ? _ [? _]]|]. intros sel _.
  assert (ok_post P (λ _, True) (match outcome with
    | Some (Ok (rest, protocol)) => start rest protocol (EvOpen id)
    | Some (Err e) => _ ← fail e; _ ← lease_drop; Done None
    | None => _ ← fail (bs "handshake timed out"); _ ← lease_drop; Done None end)) as Ho.
  { destruct outcome as [[[rest protocol]|e]|]; [by apply ok_start|by apply ok_abandon, ok_fail..]. }
  assert (∀ r, ok_post P (λ _, True) (await r (λ w, w))) as Hw by (intros r; apply ok_await; [done|]; intros w HI _; split; [done|apply mono_refl]).
  destruct sel; try exact Ho.
  - by apply ok_abandon.
  - apply (ok_bind _ (λ _, True)); [done|done|]. intros _ _. by apply ok_abandon, ok_terminate.
Qed.
Lemma hub_change_ok (f : Events → Events) :
  (∀ e, sent (f e) = sent e ∧ (hub_closed e = true → hub_closed (f e) = true) ∧
        (receiver e = false → receiver (f e) = false)) →
  ok_post anytime (λ _, True) (modify (λ w, set_events (f (events w)) w)).
Proof.
  intros Hf. apply ok_modify; [done|]. intros w (Ho & (He1 & He2 & He3) & Hfl & Hd) _.
  destruct (Hf (events w)) as (Es & Eh & Er). split.
  - split; [exact Ho|]. split; [|split; [exact Hfl|exact Hd]]. unfold events_ok. simpl. rewrite Es.
    split; [done|]. split; [done|]. intros Hc Hn. destruct (He3 Hc Hn); auto.
  - unfold mono. simpl. rewrite Es. repeat split; try done. apply persists_refl.
Qed.
Lemma ok_read_loop w fuel rest :
  opened w → max_message (cfg w) < U64_MAX → bytes_ok rest → thread_ok Inv mono w (read_loop fuel rest).
Proof.
  intros Hop Hmx Hb. set (P := λ w, opened w ∧ max_message (cfg w) < U64_MAX).
  exists P. split; [|split; [done|]].
  { intros w1 w2 Hm [Ho1 Hm1]. split; [by eapply stable_opened|]. destruct Hm as [-> _]. done. }
  exists (λ c w, opened w ∧ max_message c < U64_MAX). split; [|split].
  - intros w1 c w2 HI [Ho1 Hm1] [= <- <-]. split; [done|]. split; [apply mono_refl|done].
  - intros c w1 w2 Hm [Ho1 Hm1]. split; [by eapply stable_opened|done].
  - intros c. apply safe_pure; [apply stable_opened|]. intros Hc now Hnow.
    destruct (push_in (Reader.new (is_server c) (max_message c)) rest) as (r & -> & Hr); [by apply new_in|done|].
    eapply safe_weaken; [apply ok_read_run|done|done]. by intros _.
Qed.
Lemma starts_ok : startable starts Inv mono.
Proof.
  assert (∀ w p, ok_post anytime (λ _, True) p → thread_ok Inv mono w p) as Hany.
  { intros w p Hp. exists anytime. split; [apply stable_anytime|]. split; [done|]. by eapply safe_weaken. }
  intros w p HI Hs. inv Hs.
  - by apply Hany, ok_ignore, ok_conn_send.
  - by apply Hany, ok_ignore, ok_conn_ping.
  - by apply Hany, ok_ignore, ok_conn_close.
  - by apply Hany, ok_terminate.
  - by apply Hany, ok_consumed.
  - by apply Hany, ok_fail.
  - by apply Hany, ok_ignore, ok_start.
  - by apply Hany, ok_ignore, ok_client_worker.
  - by apply ok_read_loop.
  - by apply Hany, ok_write_loop.
  - by apply Hany, ok_activity.
  - by apply Hany, hub_change_ok.
  - by apply Hany, hub_change_ok.
Qed.

(** ** Reachable states *)
Definition fresh (c : Config) (e : Events) : Prop :=
  bytes_ok (token c) ∧ length (token c) = 8%nat ∧ sent e = [].
Definition reach (c : Config) (e : Events) (ts : list (method unit)) (w : World) : Prop :=
  steps starts ([], link_new c e) (ts, w).

Lemma new_Inv c e : fresh c e → Inv (link_new c e).
Proof.
  intros (Ht & Hl & Hs). unfold link_new. split; [|split; [|split]].
  - repeat split; try done. exists []. split; [|done]. split; [done|]. exists [], []. by split_and!; [..|left].
  - unfold events_ok, close_last, no_close. simpl. rewrite Hs. split; [by left|]. done.
  - unfold flags_ok. simpl. repeat split; try done; naive_solver.
  - by split_and!.
Qed.
Lemma reach_Inv c e ts w : fresh c e → reach c e ts w → Inv w ∧ Forall (thread_ok Inv mono w) ts.
Proof. intros Hf Hr. eapply steps_ok; [apply starts_ok|exact Hr|by apply new_Inv|done]. Qed.
Lemma rtc_mono w w' : rtc mono w w' → mono w w'.
Proof. induction 1 as [w|w1 w2 w3 Hm _ IH]; [apply mono_refl|exact (mono_trans _ _ _ Hm IH)]. Qed.
Lemma steps_mono c e ts w ts' w' : fresh c e → reach c e ts w → steps starts (ts, w) (ts', w') → mono w w'.
Proof.
  intros Hf Hr Hs. destruct (reach_Inv _ _ _ _ Hf Hr) as [HI Hts].
  apply rtc_mono. eapply steps_related; [apply starts_ok|exact Hs|done|done].
Qed.
Lemma reach_cfg c e ts w : fresh c e → reach c e ts w → cfg w = c.
Proof.
  intros Hf Hr. assert (mono (link_new c e) w) as Hm; [|by destruct Hm as [-> _]].
  eapply (steps_mono c e []); [done|apply rtc_refl|exact Hr].
Qed.

(** C15: Under every interleaving the final event is unique: an application
    receives at most one [Close] event of a connection and nothing of it
    afterwards; before the connection is closed it receives none, and once it
    is closed it has received one, unless the hub itself is gone. *)
Theorem close_event_final c e ts w :
  fresh c e → reach c e ts w →
  close_last (sent (events w)) ∧
  (state (flags w) ≠ Closed → no_close (sent (events w))) ∧
  (state (flags w) = Closed → hub_closed (events w) = false → receiver (events w) = true → ¬ no_close (sent (events w))).
Proof.
  intros Hf Hr. destruct (reach_Inv _ _ _ _ Hf Hr) as [(_ & (H1 & H2 & H3) & _) _].
  split; [done|]. split; [done|]. intros Hc Hh Hrx Hn. destruct (H3 Hc Hn); congruence.
Qed.

(** A prefix of the encoding of messages decodes to the first of them. *)
Lemma decode_prefix sv mx fs b :
  Forall (λ mk, msg_ok mx mk.1 ∧ key_for sv mk.2) fs → b `prefix_of` frames_bytes fs →
  ∃ ms, decode sv mx [b] = Ret (Ok ms) ∧ ms `prefix_of` map fst fs.
Proof.
  intros Hfs [t Et]. pose proof (runs_encode sv mx fs Hfs) as Hall. fold (frames_bytes fs) in Hall. rewrite Et in Hall.
  destruct (runs_total sv mx None b) as (ms & x & Hr). exists ms.
  assert (concat [b] = b) as Ec by (simpl; apply app_nil_r). rewrite <-Ec in Hr at 1.
  rewrite (decode_correct _ _ _ _ _ Hr). rewrite Ec in Hr. destruct x as [[p' b']|f].
  - split; [done|]. destruct (runs_total sv mx p' (b' ++ t)) as (ms' & x' & Hr').
    pose proof (runs_app _ _ _ _ _ _ _ _ _ _ Hr Hr') as Hr2.
    destruct (runs_det _ _ _ _ _ _ _ _ Hall Hr2) as [-> _]. by apply prefix_app_r.
  - apply (runs_app_fail _ _ _ _ t) in Hr. by destruct (runs_det _ _ _ _ _ _ _ _ Hall Hr) as [_ ?].
Qed.

(** C16: Under every interleaving the bytes handed to the transport are those
    of a legal conversation: whole frames one after the other, never mixed,
    each a legal message masked as the role demands, with at most one close
    frame and nothing but pongs after it; until the connection is dropped
    every accepted byte is on the wire or on its way, in order; and the
    library's reader at the other end decodes the wire into the first of
    those messages. *)
Theorem wire_legal c e ts w :
  fresh c e → reach c e ts w →
  ∃ fs, Forall (λ mk, msg_ok MAX_PAYLOAD mk.1 ∧ key_for (negb (is_server c)) mk.2) fs ∧
    close_discipline (sent_close (flags w)) fs ∧
    wire w `prefix_of` frames_bytes fs ∧
    (done (queue w) = false → wire w ++ pending_out w = frames_bytes fs) ∧
    ∃ ms, decode (negb (is_server c)) MAX_PAYLOAD [wire w] = Ret (Ok ms) ∧ ms `prefix_of` map fst fs.
Proof.
  intros Hf Hr. destruct (reach_Inv _ _ _ _ Hf Hr) as [((_ & _ & _ & _ & fs & [Hfs Hd] & Hp & Ha) & _) _].
  rewrite (reach_cfg _ _ _ _ Hf Hr) in Hfs. exists fs.
  assert (wire w `prefix_of` frames_bytes fs) as Hw by (etrans; [|exact Hp]; by apply prefix_app_r).
  split; [done|]. split; [done|]. split; [done|]. split; [intros E; by apply Ha|]. by apply decode_prefix.
Qed.

(** C17: The send buffer's accounting is exact under every interleaving:
    [buffered] is the number of bytes not yet accepted by the transport (the
    subtraction never underflows), and a refused send's drain request stays
    registered only while that send still does not fit, so that the event
    that announces room cannot be missed. *)
Theorem buffered_exact c e ts w :
  fresh c e → reach c e ts w →
  outstanding w <= buffered w <= USIZE_MAX ∧ unacked (wtr w) <= buffered w ∧
  (done (queue w) = false → buffered w = outstanding w) ∧
  (∀ len, drain (queue w) = Some len → fits w len = false).
Proof.
  intros Hf Hr. destruct (reach_Inv _ _ _ _ Hf Hr) as [((Hu & Hb & Heq & Hdr & _) & _) _].
  split; [done|]. split; [|split; [done|]; intros len Hlen; by apply Hdr].
  unfold outstanding in Hb. pose proof (zlen_nonneg (pending_out w)). lia.
Qed.

(** C18: A connection only moves forward: from any reachable state, whatever
    the threads do, the state never goes back in the order connecting, open,
    closing, closed; events and wire bytes are only appended; and the peer's
    close status, once received, is not replaced. *)
Theorem connection_monotone c e ts w ts' w' :
  fresh c e → reach c e ts w → steps starts (ts, w) (ts', w') →
  rank (state (flags w)) <= rank (state (flags w')) ∧
  sent (events w) `prefix_of` sent (events w') ∧ wire w `prefix_of` wire w' ∧
  (∀ st, close_received (flags w) = Some st → close_received (flags w') = Some st).
Proof.
  intros Hf Hr Hs. destruct (steps_mono _ _ _ _ _ _ Hf Hr Hs) as (_ & H1 & _ & H2 & _ & _ & _ & H3 & H4).
  repeat (split; [done|]). intros st E. by rewrite E in H2.
Qed.

(** The close frame of a legal sequence, with what is around it. *)
Lemma close_discipline_close sc (fs : frames) :
  close_discipline sc fs → Exists (λ mk, is_close_msg mk.1 = true) fs →
  ∃ pre st k post, fs = pre ++ (Close st, k) :: post ∧ Forall (λ mk, is_close_msg mk.1 = false) pre ∧
    Forall (λ mk, is_pong_msg mk.1 = true) post.
Proof.
  intros (pre & post & -> & Hpre & [->|(_ & [[] k] & rest & -> & Hc & Hrest)]) Hex; try done.
  - rewrite app_nil_r in Hex. apply Exists_exists in Hex as (mk & Hin & Hc). rewrite Forall_forall in Hpre.
    specialize (Hpre _ Hin). congruence.
  - eexists pre, _, k, rest. by split.
Qed.
Lemma close_discipline_open (fs : frames) : close_discipline false fs → Forall (λ mk, is_close_msg mk.1 = false) fs.
Proof. intros (pre & post & -> & Hpre & [->|[? _]]); [by rewrite app_nil_r|done]. Qed.

(** C19: The closing handshake is bounded, and our half of it is really under
    way.  In every reachable state a closing connection has a deadline and a
    socket, and one close frame among the bytes on the wire or on their way to
    it: everything handed over so far is whole legal frames, then the close
    frame, then nothing but pongs.  An open connection has sent and queued no
    close frame.  The queue is dropped only when the connection is closed, and
    [send] holds the flags only while the connection is open. *)
Theorem closing_bounded c e ts w :
  fresh c e → reach c e ts w →
  (state (flags w) = Closing →
     sent_close (flags w) = true ∧ deadline (flags w) ≠ None ∧ io w ≠ None ∧
     ∃ pre st k post,
       wire w ++ pending_out w = frames_bytes pre ++ encode_msg (Close st) k ++ frames_bytes post ∧
       Forall (λ mk, msg_ok MAX_PAYLOAD mk.1 ∧ key_for (negb (is_server c)) mk.2) (pre ++ (Close st, k) :: post) ∧
       Forall (λ mk, is_close_msg mk.1 = false) pre ∧ Forall (λ mk, is_pong_msg mk.1 = true) post) ∧
  (state (flags w) = Open →
     sent_close (flags w) = false ∧ io w ≠ None ∧
     ∃ fs, wire w ++ pending_out w = frames_bytes fs ∧ Forall (λ mk, is_close_msg mk.1 = false) fs) ∧
  (done (queue w) = true → state (flags w) = Closed) ∧ (owner w ≠ None → state (flags w) = Open).
Proof.
  intros Hf Hr. destruct (reach_Inv _ _ _ _ Hf Hr) as [HI _].
  pose proof HI as ((_ & _ & _ & _ & fs & [Hfs Hd] & _ & Ha) & _ & (F1 & F2 & F3 & F4 & F5 & F6) & _).
  rewrite (reach_cfg _ _ _ _ Hf Hr) in Hfs.
  assert (state (flags w) ≠ Closed → done (queue w) = false) as Hnd by (intros Hn; destruct (done (queue w)); [destruct Hn|]; auto).
  split; [|split; [|done]]; intros E; (destruct Ha as [Ew Hex]; [apply Hnd; congruence|]).
  - destruct (F2 E) as [Hsc Hdl]. repeat (split; [auto|]).
    destruct (close_discipline_close _ _ Hd (Hex Hsc)) as (pre & st & k & post & -> & Hpre & Hpost).
    exists pre, st, k, post. split; [|done]. rewrite Ew. change ((Close st, k) :: post) with ([(Close st, k)] ++ post).
    by rewrite !frames_bytes_app, frames_bytes_one.
  - pose proof (open_not_closing w HI E) as Hsc. split; [done|]. split; [auto|]. exists fs. split; [done|].
    apply close_discipline_open. by rewrite Hsc in Hd.
Qed.
End Props.
