(* ===== verification/LinkFun.v ===== *)
(** * What the operations of a connection do, call by call

    Each method is run alone on any state that satisfies the invariants. *)

From S2P Require Import Prelude Utf8 Str Frame Reader Stream ReaderSim Messages Events Prog Link LinkInv LinkSafe Conn.

Section Fun.
Context `{Target}.

(** ** Running a method *)
Lemma run_bind {A B} (o : oracle) (p : method A) (k : A → method B) i w :
  run o i (p ≫= k) w = match run o i p w with Some (a, w', j) => run o j (k a) w' | None => None end.
Proof.
  revert i w. induction p as [a|X f q IH|q f IH]; intros i w; simpl; [done| |apply IH].
  destruct (f w) as [[x w']|]; [apply IH|done].
Qed.
Lemma run_locked {X} (o : oracle) (f : World → X * World) i w :
  owner w = None → in_memory (f w).2 = true → run o i (locked f) w = Some ((f w).1, (f w).2, i).
Proof. intros Ho Hm. simpl. rewrite Ho, Hm. by destruct (f w). Qed.
Lemma run_held {X} (o : oracle) tid (f : World → X * World) i w :
  owner w = Some tid → in_memory (f w).2 = true → run o i (held tid f) w = Some ((f w).1, (f w).2, i).
Proof. intros Ho Hm. simpl. rewrite Ho, Hm, bool_decide_true by done. by destruct (f w). Qed.
Lemma run_reads {X} (o : oracle) (f : World → X) i w : run o i (reads f) w = Some (f w, w, i).
Proof. done. Qed.
Lemma run_modify (o : oracle) (f : World → World) i w : run o i (modify f) w = Some (tt, f w, i).
Proof. done. Qed.
(** A question at the head of a run is answered by the oracle. *)
Lemma run_ask {B} (q : link_query) (o : oracle) i (w : World) (k : @answer link_env q → method B) :
  run o i (@ask link_env World q ≫= k) w = run o (S i) (k (o i q)) w.
Proof. done. Qed.
Lemma Inv_in_memory w : Inv w → in_memory w = true.
Proof. intros [(_ & Hb & _) _]. unfold in_memory. lia. Qed.
Lemma run_state_of (o : oracle) i w : Inv w → owner w = None → run o i state_of w = Some (state (flags w), w, i).
Proof. intros HI Ho. unfold state_of. rewrite run_locked; [done|done|by apply Inv_in_memory]. Qed.

(** ** Sending *)
Lemma set_owner_same w : owner w = None → set_owner None w = w.
Proof. destruct w. simpl. by intros ->. Qed.
Lemma set_owner_twice x y w : set_owner x (set_owner y w) = set_owner x w.
Proof. done. Qed.
Lemma push_frame_owner key op payload x w :
  push_frame key op payload (set_owner x w) = set_owner x (push_frame key op payload w).
Proof.
  unfold push_frame, push, enqueue, wire_len, frame, mask_of. simpl. repeat case_match; try done; by destruct w.
Qed.
Lemma in_memory_owner x w : in_memory (set_owner x w) = in_memory w.
Proof. done. Qed.

(** The state after an accepted send. *)
Definition queued_frame (data : bytes) (w w' : World) : Prop :=
  pending_out w' = pending_out w ++ data ∧ buffered w' = buffered w + zlen data ∧
  flags w' = flags w ∧ events w' = events w ∧ ready (wakes w') = true.
Lemma pushed_queued data w w' :
  Inv w → pushed data w w' → in_memory w' = true → io w ≠ None → done (queue w) = false → queued_frame data w w'.
Proof.
  intros HI Hp Hm Hio Hd. unfold pushed in Hp. rewrite bool_decide_false, Hd in Hp by done. cbn [orb] in Hp.
  destruct Hp as (its & -> & E). destruct HI as [(Hu & Hb & Heq & _) _]. specialize (Heq Hd).
  pose proof (outstanding_app w its (zlen data) _ E) as Ho. unfold in_memory in Hm. rewrite Ho in Hm.
  pose proof (zlen_nonneg data). pose proof (zlen_nonneg (pending_out w)).
  split; [|split; [|done]].
  - unfold pending_out. simpl. rewrite E. by rewrite !app_assoc.
  - simpl. unfold u64. apply Z.mod_small. unfold outstanding, USIZE_MAX in *. lia.
Qed.

(** What a run of [send] computes; a frame that does not fit in memory is
    never queued. *)
Lemma run_send (o : oracle) i tid op payload w :
  Inv w → owner w = None → zlen payload <= MAX_PAYLOAD →
  let w' := push_frame (o i Key) op payload w in
  run o i (send tid op payload) w =
    match state (flags w) with
    | Connecting => Some (Err (bs "not open yet"), w, S i)
    | Open =>
        if fits w (wire_len w payload) then if in_memory w' then Some (Ok tt, w', S i) else None
        else Some (Err (bs "send buffer is full"), on_queue (set_drain (Some (wire_len w payload))) w, S i)
    | _ => Some (Err (bs "closed"), w, S i)
    end.
Proof.
  intros HI Ho Hl w'. pose proof (Inv_in_memory w HI) as Hmw.
  unfold send. rewrite (run_ask Key), run_bind, run_locked; [|done|].
  2: { unfold send_enter. destruct (_ || _); [done|]. by destruct (fits _ _). }
  destruct (state (flags w)) eqn:Es; try (unfold send_enter; by rewrite Es).
  assert (send_enter tid payload w = (if fits w (wire_len w payload) then Fits else Full, set_owner (Some tid) w)) as ->.
  { unfold send_enter. by rewrite Es, (open_not_closing w HI Es). }
  cbn [fst snd]. destruct (fits w (wire_len w payload)) eqn:Hfit.
  - assert (send_push (o i Key) op payload (set_owner (Some tid) w) = (tt, set_owner None w')) as E.
    { unfold send_push, w'. by rewrite push_frame_owner. }
    rewrite run_bind. simpl. rewrite bool_decide_true, E by done. rewrite push_frame_owner, !in_memory_owner. fold w'.
    destruct (in_memory w'); [|done]. simpl. do 3 f_equal. apply set_owner_same.
    unfold w'. by rewrite (q_owner _ _ (pushed_quiet _ _ _ (push_frame_pushed (o i Key) op payload w Hl))).
  - assert (send_recheck payload (set_owner (Some tid) w) =
      (false, set_owner None (on_queue (set_drain (Some (wire_len w payload))) w))) as E.
    { unfold send_recheck. change (fits (set_owner (Some tid) w)) with (fits w).
      change (wire_len (set_owner (Some tid) w) payload) with (wire_len w payload). by rewrite Hfit. }
    rewrite run_bind, run_held, E; [|done|by rewrite E]. simpl. do 3 f_equal. by apply set_owner_same.
Qed.
Lemma push_frame_queued key op payload w :
  Inv w → state (flags w) = Open → zlen payload <= MAX_PAYLOAD → in_memory (push_frame key op payload w) = true →
  queued_frame (encode op payload (mask_of w key)) w (push_frame key op payload w).
Proof.
  intros HI Es Hl Hm. apply pushed_queued; [done|by apply push_frame_pushed|done|..].
  - destruct HI as (_ & _ & (_ & _ & _ & F4 & _) & _). apply F4. by left.
  - destruct HI as (_ & _ & (_ & _ & _ & _ & F5 & _) & _). destruct (done (queue w)); [|done]. by rewrite F5 in Es.
Qed.

(** C20: [send] does one of four things.  Before the connection is open and
    once it is closing it refuses and changes nothing; when the frame does not
    fit it refuses and registers the drain request; otherwise exactly the
    encoding of the message is appended to the outgoing bytes. *)
Theorem send_outcome (o : oracle) i tid op payload w :
  Inv w → owner w = None → zlen payload <= MAX_PAYLOAD →
  in_memory (push_frame (o i Key) op payload w) = true →
  (state (flags w) = Connecting → run o i (send tid op payload) w = Some (Err (bs "not open yet"), w, S i)) ∧
  (state (flags w) = Closing ∨ state (flags w) = Closed →
     run o i (send tid op payload) w = Some (Err (bs "closed"), w, S i)) ∧
  (state (flags w) = Open → fits w (wire_len w payload) = false →
     run o i (send tid op payload) w =
       Some (Err (bs "send buffer is full"), on_queue (set_drain (Some (wire_len w payload))) w, S i)) ∧
  (state (flags w) = Open → fits w (wire_len w payload) = true →
     ∃ w', run o i (send tid op payload) w = Some (Ok tt, w', S i) ∧
       queued_frame (encode op payload (mask_of w (o i Key))) w w').
Proof.
  intros HI Ho Hl Hmem. rewrite (run_send o i tid op payload w HI Ho Hl), Hmem. split_and!.
  - by intros ->.
  - by intros [-> | ->].
  - by intros -> ->.
  - intros Es ->. rewrite Es. eexists. split; [done|]. by apply push_frame_queued.
Qed.

(** ** Closing and failing *)
Definition closed_world (code : Z) (reason : bytes) (w : World) : World :=
  io_shutdown (notify set_drained (set_stopped true (stop_writer (finish_section code reason w).2))).
Lemma in_memory_finish code reason w : in_memory (finish_section code reason w).2 = in_memory w.
Proof. unfold finish_section. by case_bool_decide. Qed.
Lemma run_finish (o : oracle) code reason i w :
  owner w = None → in_memory w = true →
  run o i (finish code reason) w =
    Some (tt, if bool_decide (state (flags w) = Closed) then w else closed_world code reason w, i).
Proof.
  intros Ho Hm. unfold finish. rewrite run_bind, run_locked; [|done|by rewrite in_memory_finish].
  unfold closed_world, finish_section. by case_bool_decide.
Qed.
Lemma closed_world_facts code reason w :
  state (flags w) ≠ Closed → owner w = None →
  let w' := closed_world code reason w in
  state (flags w') = Closed ∧ owner w' = None ∧ stopped w' = true ∧ done (queue w') = true ∧
  (hub_closed (events w) = false → receiver (events w) = true →
     map q_event (sent (events w')) = map q_event (sent (events w)) ++ [EvClose (id (cfg w)) code reason]).
Proof.
  intros Hs Ho. unfold closed_world, finish_section. rewrite bool_decide_false by done. cbn [snd].
  unfold io_shutdown. simpl. case_match; simpl; split_and!; try done; intros Hh Hr;
    unfold events_send, send_pending; rewrite Hh, Hr; simpl; by rewrite map_app.
Qed.
Lemma closed_world_memory code reason w :
  state (flags w) ≠ Closed → in_memory w = true → in_memory (closed_world code reason w) = true.
Proof.
  intros Hs. unfold in_memory, closed_world, finish_section. rewrite bool_decide_false by done.
  unfold io_shutdown, outstanding, pending_out. destruct (io _); simpl; rewrite !zlen_app;
    pose proof (zlen_nonneg (items_bytes (items (queue w)))); change (zlen (items_bytes [])) with 0; lia.
Qed.
Lemma run_emit (o : oracle) ev i w :
  owner w = None → in_memory w = true →
  ∃ w', run o i (emit ev) w = Some (tt, w', i) ∧ owner w' = None ∧ in_memory w' = true.
Proof.
  intros Ho Hm. unfold emit. rewrite run_bind, run_locked; [|done|].
  2: { unfold emit_section. case_bool_decide; [done|]. by destruct (events_send ev (events w)). }
  set (w1 := (emit_section ev w).2).
  assert (owner w1 = None ∧ in_memory w1 = true) as [Ho1 Hm1].
  { unfold w1, emit_section. case_bool_decide; [done|]. by destruct (events_send ev (events w)). }
  rewrite run_bind, run_reads. destruct (_ || _); [|by exists w1]. unfold terminate. rewrite run_finish by done.
  case_bool_decide; [by eauto|]. eexists. split; [done|]. split; [unfold closed_world, finish_section|].
  - rewrite bool_decide_false by done. unfold io_shutdown. by destruct (io _).
  - by apply closed_world_memory.
Qed.
Lemma run_fail (o : oracle) error i w :
  owner w = None → in_memory w = true →
  ∃ w', run o i (fail error) w = Some (tt, w', i) ∧ state (flags w') = Closed.
Proof.
  intros Ho Hm. unfold fail, self_id. rewrite run_bind, run_reads.
  destruct (run_emit o (EvError (id (cfg w)) error) i w Ho Hm) as (w1 & E & Ho1 & Hm1).
  rewrite run_bind, E, run_finish by done. eexists. split; [done|]. case_bool_decide; [done|].
  by destruct (closed_world_facts 1006 [] w1) as [-> _].
Qed.

Lemma run_end (o : oracle) i w :
  owner w = None → in_memory w = true → state (flags w) ≠ Closed →
  hub_closed (events w) = false → receiver (events w) = true →
  ∃ w', run o i end_ w = Some (tt, w', i) ∧ state (flags w') = Closed ∧
    map q_event (sent (events w')) = map q_event (sent (events w)) ++
      [EvClose (id (cfg w)) (end_status (flags w)).1 (end_status (flags w)).2].
Proof.
  intros Ho Hm Hs Hh Hr. unfold end_.
  rewrite run_bind, run_locked by done. cbn [fst snd]. rewrite run_finish, bool_decide_false by done.
  eexists. split; [reflexivity|].
  destruct (closed_world_facts (end_status (flags w)).1 (end_status (flags w)).2 w Hs Ho) as (Hst & _ & _ & _ & Hev).
  split; [done|]. by rewrite (Hev Hh Hr).
Qed.

(** When the connection ends, the one final event carries the status of
    the peer's close frame if there was one, else the code of the violation we
    reported, else 1006. *)
Theorem end_status_reported (o : oracle) i w :
  Inv w → owner w = None → state (flags w) ≠ Closed →
  hub_closed (events w) = false → receiver (events w) = true →
  ∃ w', run o i end_ w = Some (tt, w', i) ∧ state (flags w') = Closed ∧
    map q_event (sent (events w')) = map q_event (sent (events w)) ++
      [match close_received (flags w), failed (flags w) with
       | Some (code, reason), _ => EvClose (id (cfg w)) code reason
       | None, Some code => EvClose (id (cfg w)) code []
       | None, None => EvClose (id (cfg w)) 1006 []
       end].
Proof.
  intros HI Ho Hs Hh Hr. destruct (run_end o i w) as (w' & E & Hst & Hev); [done|by apply Inv_in_memory|done..|].
  exists w'. split; [done|]. split; [done|]. rewrite Hev. unfold end_status.
  by destruct (close_received (flags w)) as [[]|], (failed (flags w)).
Qed.

(** ** The heartbeat *)
Lemma since_iv iv now t : 0 < iv → (iv <=? since now t) = (t + iv <=? now).
Proof. unfold since. lia. Qed.
Lemma since_lt iv now t : 0 < iv → (since now t <? iv) = negb (t + iv <=? now).
Proof. unfold since. lia. Qed.
(** What [decide] answers, from the same instant the timer is set to. *)
Lemma decide_last iv now w a :
  0 < iv → ping a = None ∨ sent_cell w a ≠ None →
  decide_action iv now (last_seen w (seen a)) (sent_cell w a) =
    if heartbeat_last w a + iv <=? now then
      match sent_cell w a with
      | Some t => if last_seen w (seen a) <=? t then Dead else SendPing
      | None => SendPing
      end
    else Wait.
Proof.
  intros Hiv Hs. unfold decide_action, heartbeat_last. rewrite !since_iv by done.
  destruct (ping a) as [p|] eqn:Ep.
  - destruct Hs as [?|Hs]; [done|]. destruct (sent_cell w a) as [t|]; [|done].
    destruct (last_seen w (seen a) <=? t); [|done]. by rewrite since_iv.
  - unfold sent_cell. by rewrite Ep.
Qed.

(** The two ways [heartbeat] acts, and what it does at time [now]. *)
Definition refreshed (w : World) (a : Alive) : Alive := {| seen := last_seen w (seen a); ping := ping a |}.
Definition drop_peer (a : Alive) : method (bool * Alive) := _ ← fail (bs "heartbeat timed out"); Done (false, a).
Definition send_probe (a : Alive) : method (bool * Alive) :=
  q ← ask Now;
  key ← ask Key;
  c ← locked (ping_now key);
  Done (true, match c with Some c => {| seen := seen a; ping := Some {| queued := q; p_sent := c |} |} | None => a end).
Definition heartbeat_at (iv now : Z) (w : World) (a : Alive) : method (bool * Alive) :=
  match ping a, sent_cell w a with
  | Some p, None =>
      if since now (Z.max (Z.max (last_seen w (seen a)) (born (cfg w) + written w)) (queued p)) <? iv
      then Done (true, refreshed w a) else drop_peer (refreshed w a)
  | _, _ =>
      match decide_action iv now (last_seen w (seen a)) (sent_cell w a) with
      | Wait => Done (true, refreshed w a)
      | SendPing => send_probe (refreshed w a)
      | Dead => drop_peer (refreshed w a)
      end
  end.
Lemma run_heartbeat (o : oracle) i a w iv :
  Inv w → owner w = None → state (flags w) = Open → interval (cfg w) = Some iv →
  run o i (heartbeat a) w = run o (S i) (heartbeat_at iv (o i Now) w a) w.
Proof.
  intros HI Ho Hs Hiv. unfold heartbeat, heartbeat_at. rewrite run_bind, run_reads, Hiv, run_bind, run_state_of, Hs by done.
  rewrite bool_decide_true by done. cbn [negb]. rewrite (run_ask Now), run_bind, run_reads, run_bind, run_reads.
  fold (refreshed w a). change (sent_cell w (refreshed w a)) with (sent_cell w a). cbn [ping refreshed seen].
  destruct (ping a), (sent_cell w a); [done| |done|done]. by rewrite run_bind, run_reads.
Qed.
Lemma run_drop_peer (o : oracle) i a w :
  owner w = None → in_memory w = true →
  ∃ w', run o i (drop_peer a) w = Some ((false, a), w', i) ∧ state (flags w') = Closed.
Proof.
  intros Ho Hm. destruct (run_fail o (bs "heartbeat timed out") i w Ho Hm) as (w' & E & Hc). exists w'.
  unfold drop_peer. by rewrite run_bind, E.
Qed.
Lemma run_send_probe (o : oracle) i a w :
  owner w = None → state (flags w) = Open → in_memory (ping_now (o (S i) Key) w).2 = true →
  ∃ w', run o i (send_probe a) w =
      Some ((true, {| seen := seen a; ping := Some {| queued := o i Now; p_sent := length (cells w) |} |}), w', S (S i)) ∧
    cells w' = cells w ++ [None].
Proof.
  intros Ho Hs Hm. unfold send_probe. rewrite (run_ask Now), (run_ask Key), run_bind, run_locked by done.
  eexists. unfold ping_now. rewrite Hs, bool_decide_true by done. cbn [negb fst snd run]. split; [reflexivity|].
  unfold push_heartbeat, enqueue. simpl. by repeat case_match.
Qed.

(** C22: The heartbeat's timer is exact.  While the connection is open, the
    instant [heartbeat_deadline] gives is the first at which [heartbeat] acts:
    before it nothing is sent and the peer is not dropped; from it on a probe
    is queued with a fresh cell, or the peer is dropped and the connection is
    closed.  So the timer neither spins nor oversleeps. *)
Theorem heartbeat_timely (o : oracle) i a w iv :
  Inv w → owner w = None → state (flags w) = Open → interval (cfg w) = Some iv → 0 < iv →
  heartbeat_last w a + iv <= INSTANT_MAX → in_memory (ping_now (o (S (S i)) Key) w).2 = true →
  ∃ d, heartbeat_deadline w a = Some d ∧
    (o i Now < d →
       run o i (heartbeat a) w = Some ((true, {| seen := last_seen w (seen a); ping := ping a |}), w, S i)) ∧
    (d <= o i Now → ∃ up a' w' j, run o i (heartbeat a) w = Some ((up, a'), w', j) ∧
       (up = false ∧ state (flags w') = Closed ∨
        up = true ∧ cells w' = cells w ++ [None] ∧
          ping a' = Some {| queued := o (S i) Now; p_sent := length (cells w) |})).
Proof.
  intros HI Ho Hs Hiv Hpos Hmax Hmem. pose proof (Inv_in_memory w HI) as Hm.
  exists (heartbeat_last w a + iv). split.
  { unfold heartbeat_deadline, checked_add. rewrite Hiv. by destruct (Z.leb_spec (heartbeat_last w a + iv) INSTANT_MAX); [|lia]. }
  rewrite (run_heartbeat o i a w iv) by done.
  destruct (run_drop_peer o (S i) (refreshed w a) w Ho Hm) as (wf & Hfail & Hcl).
  destruct (run_send_probe o (S i) (refreshed w a) w Ho Hs Hmem) as (wp & Hping & Hcells).
  unfold heartbeat_at. destruct (ping a) as [p|] eqn:Ep, (sent_cell w a) as [t|] eqn:Ec.
  2: { assert (heartbeat_last w a = Z.max (Z.max (last_seen w (seen a)) (born (cfg w) + written w)) (queued p)) as <-
         by (unfold heartbeat_last; by rewrite Ep, Ec).
       rewrite since_lt by done. split; intros Hd; destruct (Z.leb_spec (heartbeat_last w a + iv) (o i Now)); try lia.
       - cbn [negb run]. unfold refreshed. by rewrite Ep.
       - cbn [negb]. eauto 10. }
  all: rewrite <-Ec, (decide_last iv (o i Now) w a) by (try done; rewrite ?Ec; auto); rewrite Ec.
  all: split; intros Hd; destruct (Z.leb_spec (heartbeat_last w a + iv) (o i Now)); try lia.
  all: try (cbn [run]; unfold refreshed; by rewrite Ep).
  all: try (destruct (_ <=? _); [by eauto 10|]).
  all: eexists true, _, wp, _; split; [exact Hping|]; right; by split_and!.
Qed.
End Fun.
