(* ===== verification/Flush.v ===== *)
(** * The writer drains the queue (core/src/net/link/write.rs)

    On a transport that accepts at least one byte per write, one pass of the
    writer puts everything queued on the wire, whatever the sizes of the
    partial writes. *)

From S2P Require Import Prelude Utf8 Str Frame Reader Stream ReaderSim Messages Events Prog Link LinkInv LinkSafe Conn LinkFun.

Section Flush.
Context `{Target}.

(** The transport makes progress and does not fail. *)
Definition flowing (o : oracle) : Prop :=
  (∀ j len, 0 < len → ∃ n, o j (WriteIo len) = IoOk n ∧ 0 < n <= len) ∧
  (∀ j, o j FlushIo = IoOk tt) ∧ (∀ j, o j ShutdownIo = IoOk tt).
(** Nobody else acts, and the hub listens. *)
Definition listening (w : World) : Prop :=
  owner w = None ∧ hub_closed (events w) = false ∧ receiver (events w) = true ∧ state (flags w) ≠ Closed.

(** [d] went out between the two states. *)
Record flushes (d : bytes) (w w' : World) : Prop := {
  fl_wire : wire w' = wire w ++ d;
  fl_buffered : buffered w' = buffered w - zlen d;
  fl_items : items (queue w') = items (queue w);
  fl_done : done (queue w') = done (queue w);
  fl_pong : pong (queue w') = pong (queue w);
  fl_flags : flags w' = flags w;
  fl_listening : listening w';
  fl_cfg : cfg w' = cfg w;
  fl_inbox : inbox w' = inbox w;
  fl_shutdown : shutdown (queue w') = true → shutdown (queue w) = true;
  fl_calm : drain (queue w) = None → drain (queue w') = None ∧ events w' = events w
}.
Lemma flushes_refl w : listening w → flushes [] w w.
Proof. intros Hl. split; try done; [by rewrite app_nil_r|unfold zlen; simpl; lia]. Qed.
Lemma flushes_trans d1 d2 w1 w2 w3 : flushes d1 w1 w2 → flushes d2 w2 w3 → flushes (d1 ++ d2) w1 w3.
Proof.
  intros [A1 A2 A3 A4 A5 A6 _ A8 AI A9 A10] [B1 B2 B3 B4 B5 B6 B7 B8 BI B9 B10].
  split; [by rewrite B1, A1, app_assoc|rewrite zlen_app; lia|congruence..|done|congruence|congruence|by auto|].
  intros (D1 & E1)%A10. destruct (B10 D1). split; congruence.
Qed.
Lemma run_emit_listening (o : oracle) ev i w :
  listening w → in_memory w = true →
  run o i (emit ev) w = Some (tt, set_events (events_send ev (events w)).2 w, i) ∧
  listening (set_events (events_send ev (events w)).2 w).
Proof.
  intros (Ho & Hh & Hr & Hs) Hm.
  destruct (events_send_sent ev (events w)) as (Eh & Er & _). split; [|by split_and!; simpl; rewrite ?Eh, ?Er].
  assert (emit_section ev w = (true, set_events (events_send ev (events w)).2 w)) as E.
  { unfold emit_section. rewrite bool_decide_false by done. unfold events_send, send_pending. by rewrite Hh, Hr. }
  unfold emit. rewrite run_bind, run_locked; [|done|by rewrite E]. rewrite E. cbn [fst snd negb orb].
  rewrite run_bind, run_reads. simpl. by rewrite Eh, Hh.
Qed.

(** The writer's accounting after a partial write. *)
Definition acked (w : World) : World := reset_unacked (progress_section (unacked (wtr w)) w).2.
Lemma acked_fields w :
  0 <= unacked (wtr w) <= buffered w → buffered w <= USIZE_MAX →
  buffered (acked w) = buffered w - unacked (wtr w) ∧ wire (acked w) = wire w ∧
  wtr (acked w) = {| batch := batch (wtr w); current := current (wtr w); probe := probe (wtr w); unacked := 0 |} ∧
  items (queue (acked w)) = items (queue w) ∧ done (queue (acked w)) = done (queue w) ∧
  pong (queue (acked w)) = pong (queue w) ∧ flags (acked w) = flags w ∧ events (acked w) = events w ∧
  owner (acked w) = owner w ∧ cfg (acked w) = cfg w ∧ inbox (acked w) = inbox w ∧ shutdown (queue (acked w)) = shutdown (queue w) ∧
  (drain (queue w) = None → drain (queue (acked w)) = None ∧ (progress_section (unacked (wtr w)) w).1 = false).
Proof.
  intros Hu Hb. assert (u64 (buffered w - unacked (wtr w)) = buffered w - unacked (wtr w)) as E.
  { unfold u64. apply Z.mod_small. unfold USIZE_MAX in *. lia. }
  unfold acked, progress_section, reset_unacked. rewrite E. cbn [snd].
  destruct (match drain _ with Some _ => _ | None => _ end) eqn:E'; simpl; split_and!; try done.
  intros Hd. simpl in E'. by rewrite Hd in E'.
Qed.
Lemma acked_in_memory w :
  0 <= unacked (wtr w) <= buffered w → buffered w <= USIZE_MAX → in_memory w = true → in_memory (acked w) = true.
Proof.
  intros Hu Hb. destruct (acked_fields w Hu Hb) as (_ & _ & Ew & Ei & _).
  unfold in_memory, outstanding, pending_out. rewrite Ew, Ei. simpl. lia.
Qed.
Lemma run_progress (o : oracle) i w :
  listening w → 0 <= unacked (wtr w) <= buffered w → buffered w <= USIZE_MAX → in_memory w = true →
  ∃ e, run o i writer_progress w = Some (tt, set_events e (acked w), i) ∧ listening (set_events e (acked w)) ∧
    (drain (queue w) = None → e = events w).
Proof.
  intros Hl Hu Hb Hm. pose proof Hl as (Ho & Hh & Hr & Hst).
  destruct (acked_fields w Hu Hb) as (_ & _ & _ & _ & _ & _ & Ef & Ee & Eo & _ & _ & _ & Edr).
  assert (listening (acked w)) as Hla by (unfold listening; by rewrite Ef, Ee, Eo).
  assert (run o i writer_progress w =
    run o i (if (progress_section (unacked (wtr w)) w).1 then i ← self_id; emit (EvDrain i) else Done tt) (acked w)) as ->.
  { unfold writer_progress, acked, reset_unacked. rewrite run_bind. simpl.
    by destruct (progress_section (unacked (wtr w)) w) as [d w2]. }
  destruct (progress_section (unacked (wtr w)) w).1 eqn:Ep.
  - unfold self_id. rewrite run_bind, run_reads.
    destruct (run_emit_listening o (EvDrain (id (cfg (acked w)))) i (acked w)) as [E Hl2]; [done|by apply acked_in_memory|].
    eexists. split; [exact E|]. split; [done|]. by intros [_ ?]%Edr.
  - exists (events (acked w)). assert (set_events (events (acked w)) (acked w) = acked w) as E by (by destruct (acked w)).
    rewrite E. split; [done|]. split; [done|]. by intros _.
Qed.

(** Everything the writer holds is counted. *)
Definition counted (w : World) : Prop := unacked (wtr w) = 0 ∧ outstanding w <= buffered w <= USIZE_MAX.
Lemma counted_in_memory w : counted w → in_memory w = true.
Proof. intros [_ Hb]. unfold in_memory. lia. Qed.

(** One partial write of [n] bytes. *)
Lemma partial_write (o : oracle) i n w :
  listening w → counted w → 0 < n <= zlen (current (wtr w)) →
  let w1 := accept_bytes n w in
  ∃ e, let w2 := note_sent (born (cfg w1) + written w1) (set_events e (acked w1)) in
    run o i writer_progress w1 = Some (tt, set_events e (acked w1), i) ∧
    flushes (take (Z.to_nat n) (current (wtr w))) w w2 ∧
    current (wtr w2) = drop (Z.to_nat n) (current (wtr w)) ∧ batch (wtr w2) = batch (wtr w) ∧ counted w2.
Proof.
  intros Hl [Hu Hc] Hn w1. set (c := current (wtr w)) in *. set (k := Z.to_nat n).
  assert (zlen (take k c) = n) as Ek by (unfold zlen in *; rewrite length_take; lia).
  assert (unacked (wtr w1) = n ∧ buffered w1 = buffered w ∧ outstanding w1 = outstanding w) as (Eu & Eb & Eo).
  { unfold w1. simpl. fold c k. rewrite Ek, Hu. split; [lia|]. split; [done|]. unfold outstanding, pending_out. simpl. fold c k.
    rewrite Ek, Hu, !zlen_app. assert (zlen c = zlen (take k c) + zlen (drop k c)) by (rewrite <-zlen_app, take_drop; done). lia. }
  assert (zlen c <= outstanding w) as Hco.
  { unfold outstanding, pending_out. rewrite !zlen_app. fold c. pose proof (zlen_nonneg (items_bytes (batch (wtr w)))).
    pose proof (zlen_nonneg (items_bytes (items (queue w)))). lia. }
  assert (listening w1) as Hl1 by exact Hl.
  destruct (run_progress o i w1 Hl1) as (e & Hrun & Hl2 & Hcalm); [lia|lia|unfold in_memory; lia|].
  exists e. split; [exact Hrun|]. destruct (acked_fields w1) as (A1 & A2 & A3 & A4 & A5 & A6 & A7 & A8 & A9 & A10 & AI & A11 & A12); [lia..|].
  set (w2 := set_events e (acked w1)) in *.
  assert (∀ t, buffered (note_sent t w2) = buffered w2 ∧ wire (note_sent t w2) = wire w2 ∧ wtr (note_sent t w2) = wtr w2 ∧
    queue (note_sent t w2) = queue w2 ∧ flags (note_sent t w2) = flags w2 ∧ (listening w2 → listening (note_sent t w2)) ∧
    cfg (note_sent t w2) = cfg w2 ∧ inbox (note_sent t w2) = inbox w2 ∧ events (note_sent t w2) = events w2) as Hns.
  { intros t. unfold note_sent. by destruct (current (wtr w2)), (probe (wtr w2)). }
  destruct (Hns (born (cfg w1) + written w1)) as (N1 & N2 & N3 & N4 & N5 & N6 & N7 & NI & N8). clear Hns.
  assert (buffered w2 = buffered w - n) as B1 by (rewrite <-Eb, <-Eu; exact A1).
  assert (wire w2 = wire w ++ take k c) as B2 by exact A2.
  assert (wtr w2 = {| batch := batch (wtr w); current := drop k c; probe := probe (wtr w); unacked := 0 |}) as B3 by exact A3.
  assert (items (queue w2) = items (queue w)) as B4 by exact A4.
  split; [|split; [|split]].
  - split; rewrite ?N1, ?N2, ?N3, ?N4, ?N5, ?N7, ?NI, ?N8;
      [done|by rewrite B1, Ek|exact A4|exact A5|exact A6|exact A7|by apply N6|exact A10|exact AI| |].
    + change (shutdown (queue (acked w1)) = true → shutdown (queue w) = true). by rewrite A11.
    + intros Hdr. split; [by apply A12|exact (Hcalm Hdr)].
  - by rewrite N3, B3.
  - by rewrite N3, B3.
  - unfold counted, outstanding, pending_out. rewrite N1, N3, N4, B1, B3, B4. cbn [unacked current batch].
    split; [done|]. unfold outstanding, pending_out in *. rewrite Hu in *. fold c in Hc. rewrite !zlen_app in *.
    assert (zlen c = zlen (take k c) + zlen (drop k c)) by (rewrite <-zlen_app, take_drop; done). lia.
Qed.

Lemma run_write_out (o : oracle) chunk : flowing o → 0 < chunk → ∀ fuel b i w,
  listening w → counted w → (length (current (wtr w)) < fuel)%nat →
  ∃ b' w' j, run o i (write_out fuel chunk b) w = Some ((Going, b'), w', j) ∧
    flushes (current (wtr w)) w w' ∧ current (wtr w') = [] ∧ batch (wtr w') = batch (wtr w) ∧ counted w'.
Proof.
  intros (Hw & Hfl & _) Hch. induction fuel as [|fuel IH]; intros b i w Hl Hc Hlen; [lia|]. cbn [write_out].
  rewrite run_bind, run_reads. destruct (Z.eqb_spec (zlen (current (wtr w))) 0) as [E|Hne].
  { assert (current (wtr w) = []) as Ec by (unfold zlen in E; by destruct (current (wtr w))).
    eexists _, _, _. split; [done|]. rewrite Ec. split; [by apply flushes_refl|done]. }
  pose proof (zlen_nonneg (current (wtr w))).
  rewrite (run_ask (WriteIo _)). destruct (Hw i (Z.min chunk (zlen (current (wtr w))))) as (n & En & Hn); [lia|].
  rewrite En. destruct (Z.eqb_spec n 0); [lia|]. rewrite run_bind, run_modify, (run_ask FlushIo), Hfl. cbn [negb].
  rewrite run_bind, run_reads, run_bind.
  destruct (partial_write o (S (S i)) n w Hl Hc) as (e & Hrun & Hf & Ecur & Ebat & Hcnt); [lia|].
  rewrite Hrun, run_bind, run_modify. set (w2 := note_sent _ _) in *.
  destruct (IH (budget_progress b n).1 (S (S i)) w2) as (b' & w' & j & Hr & Hf2 & Ec & Eb2 & Hc2);
    [by destruct Hf|done|rewrite Ecur, length_drop; unfold zlen in *; lia|].
  exists b', w', j. split; [done|]. split; [|by rewrite Eb2, Ebat]. rewrite Ecur in Hf2.
  rewrite <-(take_drop (Z.to_nat n) (current (wtr w))). by eapply flushes_trans.
Qed.

(** The items the writer took, one after the other. *)
Lemma pop_counted w i r :
  current (wtr w) = [] → batch (wtr w) = i :: r → listening w → counted w →
  ∃ w1, pop_item w = Some (Some i, w1) ∧ flushes [] w w1 ∧ current (wtr w1) = item_bytes i ∧
    batch (wtr w1) = r ∧ counted w1 ∧ wire_shut w1 = wire_shut w.
Proof.
  intros Ec Eb Hl [Hu Hc]. unfold pop_item. rewrite Ec, Eb. eexists. split; [reflexivity|]. split.
  { split; simpl; try done; [by rewrite app_nil_r|unfold zlen; simpl; lia]. }
  split; [done|]. split; [done|]. split; [|done]. split; [exact Hu|].
  unfold outstanding, pending_out, items_bytes in *. rewrite Ec, Eb in Hc. simpl in *. by rewrite <-!app_assoc in Hc.
Qed.
Lemma run_write_items (o : oracle) chunk : flowing o → 0 < chunk → ∀ l fuel b i w,
  batch (wtr w) = l → current (wtr w) = [] → listening w → counted w → (length l < fuel)%nat →
  ∃ b' w' j, run o i (write_items fuel chunk b) w = Some ((Going, b'), w', j) ∧
    flushes (items_bytes l) w w' ∧ current (wtr w') = [] ∧ batch (wtr w') = [] ∧ counted w' ∧
    (Shutdown ∈ l → shutdown (queue w') = false).
Proof.
  intros Hfl Hch. induction l as [|it l IH]; intros [|fuel] b i w Eb Ec Hl Hc Hlen; simpl in Hlen; try lia; cbn [write_items].
  { rewrite run_bind. simpl. unfold pop_item. rewrite Ec, Eb. eexists _, _, _. split; [done|].
    split; [by apply flushes_refl|]. split_and!; [done..|]. by intros ?%elem_of_nil. }
  destruct (pop_counted w it l Ec Eb Hl Hc) as (w1 & Hpop & Hf1 & Ec1 & Eb1 & Hc1 & _).
  rewrite run_bind. simpl run at 1. rewrite Hpop.
  assert (∀ w2 b2 j2, flushes (item_bytes it) w1 w2 → current (wtr w2) = [] → batch (wtr w2) = l → counted w2 →
    (it = Shutdown → shutdown (queue w2) = false) →
    ∃ b' w' j, run o j2 (write_items fuel chunk b2) w2 = Some ((Going, b'), w', j) ∧
      flushes (items_bytes (it :: l)) w w' ∧ current (wtr w') = [] ∧ batch (wtr w') = [] ∧ counted w' ∧
      (Shutdown ∈ it :: l → shutdown (queue w') = false)) as Hgo.
  { intros w2 b2 j2 Hf2 Ec2 Eb2 Hc2 Hsh.
    destruct (IH fuel b2 j2 w2 Eb2 Ec2) as (b' & w' & j & Hr & Hf3 & C1 & C2 & C3 & C4); [by destruct Hf2|done|lia|].
    exists b', w', j. split; [done|]. split; [exact (flushes_trans _ _ _ _ _ Hf1 (flushes_trans _ _ _ _ _ Hf2 Hf3))|].
    split_and!; [done..|]. intros [E|Hin]%elem_of_cons; [|by apply C4]. specialize (Hsh (eq_sym E)).
    destruct (shutdown (queue w')) eqn:Es; [|done]. apply (fl_shutdown _ _ _ Hf3) in Es. congruence. }
  assert (it ≠ Shutdown → ∀ n, run o i (r ← write_out (S (length (item_bytes it))) chunk b;
      if bool_decide (r.1 = Going) then write_items fuel chunk r.2 else Done r) w1 = n →
    ∃ b' w' j, n = Some ((Going, b'), w', j) ∧
      flushes (items_bytes (it :: l)) w w' ∧ current (wtr w') = [] ∧ batch (wtr w') = [] ∧ counted w' ∧
      (Shutdown ∈ it :: l → shutdown (queue w') = false)) as Hout.
  { intros Hne n <-. rewrite run_bind. destruct (run_write_out o chunk Hfl Hch (S (length (item_bytes it))) b i w1)
      as (b2 & w2 & j2 & Hr & Hf2 & Ec2 & Eb2 & Hc2); [by destruct Hf1|done|rewrite Ec1; lia|].
    rewrite Hr. cbn [fst snd negb]. rewrite Ec1 in Hf2. by apply Hgo; [done|done|rewrite Eb2|..]. }
  destruct it as [d|d c|]; [by apply Hout..|]. cbv iota beta.
  rewrite (run_ask ShutdownIo). destruct Hfl as (_ & _ & ->). cbn [negb]. rewrite run_bind, run_modify, run_bind, run_modify.
  apply Hgo; [|by destruct w1|by destruct w1|exact Hc1|done]. destruct Hf1 as [_ _ _ _ _ _ Hl1].
  split; simpl; try done; [by rewrite app_nil_r|unfold zlen; simpl; lia].
Qed.

(** One batch of the writer: everything that was queued goes out. *)
Lemma run_batch_flushes (o : oracle) chunk b i w :
  flowing o → 0 < chunk → Inv w → listening w → done (queue w) = false → pong (queue w) = None →
  items (queue w) ≠ [] → batch (wtr w) = [] → current (wtr w) = [] → unacked (wtr w) = 0 →
  let w1 := set_wtr {| batch := items (queue w); current := []; probe := probe (wtr w); unacked := 0 |}
              (on_queue (set_items []) w) in
  ∃ w' j, run o i (write_pending 1 chunk b) w = Some (Going, w', j) ∧
    flushes (items_bytes (items (queue w))) w1 w' ∧ current (wtr w') = [] ∧ batch (wtr w') = [] ∧ counted w' ∧
    (Shutdown ∈ items (queue w) → shutdown (queue w') = false).
Proof.
  intros Hfl Hch HI Hl Hd Hp Hi Eb Ec Hu w1. pose proof HI as [(_ & Hbuf & _) _].
  set (its := items (queue w)) in *.
  assert (take_batch w = Some (Some (length its, false), w1)) as Ht.
  { unfold take_batch, w1. rewrite Hd, Ec, Eb, Hp, Hu. by rewrite bool_decide_false by (by intros [? ?]). }
  assert (outstanding w1 = outstanding w) as Eo.
  { unfold outstanding, pending_out. rewrite Eb, Ec, Hu. simpl. fold its. by rewrite app_nil_r. }
  cbn [write_pending]. rewrite run_bind. simpl run at 1. rewrite Ht.
  destruct (Nat.eqb_spec (length its) 0) as [E0|_]; [by destruct its|]. cbn [andb].
  change (Done () ≫= ?k) with (k ()). cbv beta. rewrite run_bind. destruct (run_write_items o chunk Hfl Hch its (S (length its)) b i w1)
    as (b' & w' & j & Hr & Hf & C1 & C2 & C3 & C4); [done|done|exact Hl|split; [done|rewrite Eo; exact Hbuf]|lia|].
  rewrite Hr. exists w', j. by split_and!.
Qed.
Lemma run_batch (o : oracle) chunk b i w :
  flowing o → 0 < chunk → Inv w → listening w → done (queue w) = false → pong (queue w) = None →
  items (queue w) ≠ [] → batch (wtr w) = [] → current (wtr w) = [] → unacked (wtr w) = 0 →
  ∃ w' j, run o i (write_pending 1 chunk b) w = Some (Going, w', j) ∧
    wire w' = wire w ++ items_bytes (items (queue w)) ∧ pending_out w' = [] ∧ buffered w' = 0 ∧ flags w' = flags w.
Proof.
  intros Hfl Hch HI Hl Hd Hp Hi Eb Ec Hu. pose proof HI as [(_ & Hbuf & Heq & _) _]. specialize (Heq Hd).
  destruct (run_batch_flushes o chunk b i w Hfl Hch HI Hl Hd Hp Hi Eb Ec Hu) as (w' & j & Hr & [F1 F2 F3 F4 F5 F6 _ _ _ _ _] & C1 & C2 & _).
  exists w', j. split; [done|]. split; [exact F1|]. split; [unfold pending_out; by rewrite C1, C2, F3|]. split; [|exact F6].
  rewrite F2. cbn. rewrite Heq. unfold outstanding, pending_out. rewrite Eb, Ec, Hu. simpl. lia.
Qed.

(** ** A batch with a deferred pong

    [flush_pong] runs after the queue was exchanged, so the pong it queues is
    left for the next batch. *)
Definition reply (key : key4) (w : World) : bytes :=
  match pong (queue w) with
  | Some d => if may_pong (flags w) then encode PONG d (mask_of w key) else []
  | None => []
  end.
Lemma run_flush_pong (o : oracle) i w d :
  pong (queue w) = Some d → zlen d <= 125 → listening w → done (queue w) = false → io w ≠ None →
  outstanding w + zlen (reply (o i Key) w) <= USIZE_MAX → buffered w + zlen (reply (o i Key) w) <= USIZE_MAX → 0 <= buffered w →
  ∃ its w', run o i flush_pong w = Some (tt, w', S i) ∧ wire w' = wire w ∧ wtr w' = wtr w ∧ flags w' = flags w ∧
    queue w' = set_items its (set_pong None (queue w)) ∧ cfg w' = cfg w ∧
    buffered w' = buffered w + zlen (reply (o i Key) w) ∧ listening w' ∧
    items_bytes its = items_bytes (items (queue w)) ++ reply (o i Key) w.
Proof.
  intros Ep Hd Hl Hdone Hio Hout Hbuf Hb0. unfold flush_pong. rewrite (run_ask Key). set (key := o i Key) in *.
  set (w1 := on_queue (set_pong None) w). unfold reply in *. rewrite Ep in *.
  assert (flush_pong_section key w = (tt, if may_pong (flags w) then push_frame key PONG d w1 else w1)) as Ef
    by (unfold flush_pong_section; by rewrite Ep).
  destruct (may_pong (flags w)).
  - pose proof (push_frame_pushed key PONG d w1 ltac:(unfold MAX_PAYLOAD; lia)) as Hp. unfold pushed in Hp.
    change (io w1) with (io w) in Hp. change (done (queue w1)) with (done (queue w)) in Hp.
    rewrite bool_decide_false, Hdone in Hp by done. destruct Hp as (its & Epush & Eits).
    change (mask_of w1 key) with (mask_of w key) in *. rewrite Epush in Ef.
    set (fr := encode PONG d (mask_of w key)) in *.
    rewrite run_locked; [|by destruct Hl|].
    2: { rewrite Ef. cbn [snd]. unfold in_memory. rewrite (outstanding_app _ _ _ _ Eits). change (outstanding w1) with (outstanding w). lia. }
    rewrite Ef. cbn [fst snd]. exists its. eexists. split; [reflexivity|]. split_and!; try done.
    simpl. unfold u64. apply Z.mod_small. pose proof (zlen_nonneg fr). unfold USIZE_MAX in *. lia.
  - rewrite run_locked; [|by destruct Hl|].
    2: { rewrite Ef. cbn [snd]. unfold in_memory. change (outstanding w1) with (outstanding w). unfold zlen in Hout. simpl in Hout. lia. }
    rewrite Ef. cbn [fst snd]. exists (items (queue w)). eexists. split; [reflexivity|]. split_and!; try done.
    + unfold zlen. simpl. lia.
    + by rewrite app_nil_r.
Qed.

(** What one batch does, and where the writer is then. *)
Record batch_done (r : bytes) (w w' : World) : Prop := {
  bd_wire : wire w' = wire w ++ items_bytes (items (queue w));
  bd_left : items_bytes (items (queue w')) = r;
  bd_buffered : buffered w' = buffered w - zlen (items_bytes (items (queue w))) + zlen r;
  bd_idle : current (wtr w') = [] ∧ batch (wtr w') = [] ∧ counted w';
  bd_queue : done (queue w') = done (queue w) ∧ pong (queue w') = None;
  bd_rest : flags w' = flags w ∧ listening w'
}.
Lemma run_batch_step (o : oracle) chunk b i fuel w :
  flowing o → 0 < chunk → counted w → listening w → done (queue w) = false → (pong (queue w) ≠ None → io w ≠ None) →
  batch (wtr w) = [] → current (wtr w) = [] → (∀ d, pong (queue w) = Some d → zlen d <= 125) →
  items (queue w) ≠ [] ∨ pong (queue w) ≠ None → buffered w + zlen (reply (o i Key) w) <= USIZE_MAX →
  ∃ b' w' j, run o i (write_pending (S fuel) chunk b) w = run o j (write_pending fuel chunk b') w' ∧
    batch_done (reply (o i Key) w) w w'.
Proof.
  intros Hfl Hch [Hu Hc] Hl Hd Hio Eb Ec Hpl Hwork Hmem. set (its := items (queue w)) in *.
  set (w1 := set_wtr {| batch := its; current := []; probe := probe (wtr w); unacked := 0 |} (on_queue (set_items []) w)).
  assert (take_batch w = Some (Some (length its, bool_decide (is_Some (pong (queue w)))), w1)) as Ht
    by (unfold take_batch, w1; by rewrite Hd, Ec, Eb, Hu).
  assert (outstanding w1 = outstanding w) as Eo.
  { unfold outstanding, pending_out. rewrite Eb, Ec, Hu. simpl. fold its. by rewrite app_nil_r. }
  assert (0 <= buffered w).
  { unfold outstanding in Hc. pose proof (zlen_nonneg (pending_out w)). lia. }
  cbn [write_pending]. rewrite run_bind. simpl run at 1. rewrite Ht.
  assert ((length its =? 0)%nat && negb (bool_decide (is_Some (pong (queue w)))) = false) as ->.
  { destruct (Nat.eqb_spec (length its) 0) as [E|]; [|done]. destruct Hwork as [Hi|Hp]; [by destruct its|].
    rewrite bool_decide_true; [done|]. destruct (pong (queue w)); [by eexists|done]. }
  assert (∃ i2 its2 w2, run o i (if bool_decide (is_Some (pong (queue w))) then flush_pong else Done tt) w1 = Some (tt, w2, i2) ∧
    wire w2 = wire w ∧ wtr w2 = wtr w1 ∧ flags w2 = flags w ∧ queue w2 = set_items its2 (set_pong None (queue w1)) ∧
    buffered w2 = buffered w + zlen (reply (o i Key) w) ∧ listening w2 ∧ items_bytes its2 = reply (o i Key) w) as
    (i2 & its2 & w2 & E2 & W2 & T2 & F2 & Q2 & B2 & L2 & I2).
  { case_bool_decide as Hp.
    - destruct (pong (queue w)) as [d|] eqn:Ep; [|by destruct Hp].
      assert (reply (o i Key) w1 = reply (o i Key) w) as Er by done.
      destruct (run_flush_pong o i w1 d) as (its2 & w2 & E2 & W2 & T2 & F2 & Q2 & _ & B2 & L2 & I2);
        [exact Ep|by apply Hpl|exact Hl|exact Hd|by apply Hio|rewrite Eo, Er; lia|rewrite Er; exact Hmem|done|].
      exists (S i), its2, w2. rewrite Er in *. split_and!; try done.
    - assert (pong (queue w) = None) as Ep by (destruct (pong (queue w)) as [d|]; [destruct Hp; by eexists|done]).
      unfold reply. rewrite Ep. exists i, [], w1. split_and!; try done.
      + simpl. destruct (queue w); simpl in *. by subst.
      + unfold zlen. simpl. lia. }
  rewrite run_bind, E2, run_bind.
  assert (counted w2) as C2.
  { unfold counted, outstanding, pending_out. rewrite T2, Q2, B2. simpl. rewrite I2. split; [done|].
    unfold outstanding, pending_out in Hc. rewrite Eb, Ec, Hu in Hc. simpl in Hc. fold its in Hc. rewrite zlen_app.
    pose proof (zlen_nonneg (reply (o i Key) w)). lia. }
  destruct (run_write_items o chunk Hfl Hch its (S (length its)) b i2 w2)
    as (b' & w' & j & Hr & [G1 G2 G3 G4 G5 G6 G7 _ _ _ _] & C1' & C2' & C3' & _); [by rewrite T2|by rewrite T2|done|done|lia|].
  rewrite Hr. cbn [fst snd]. rewrite bool_decide_true by done. exists b', w', j. split; [done|].
  split; rewrite ?G1, ?G2, ?G3, ?G4, ?G5, ?G6, ?W2, ?B2, ?Q2, ?F2; try done. fold its. lia.
Qed.

(** C23: The writer makes progress: on a transport that accepts at least one
    byte of every write, [write_pending] of an opened connection puts every
    queued byte on the wire in order, however the writes are cut, in one batch;
    a deferred pong, if it may still be sent, follows in a second one (its
    frame is queued after the first batch was taken).  Afterwards the send
    buffer is empty and no pong waits. *)
Theorem writer_drains (o : oracle) chunk b i w :
  flowing o → 0 < chunk → Inv w → listening w → opened w → done (queue w) = false →
  items (queue w) ≠ [] ∨ pong (queue w) ≠ None →
  batch (wtr w) = [] → current (wtr w) = [] → unacked (wtr w) = 0 →
  let pong_frame :=
    match pong (queue w) with
    | Some d => if may_pong (flags w) then encode PONG d (mask_of w (o i Key)) else []
    | None => []
    end in
  buffered w + zlen pong_frame <= USIZE_MAX →
  ∃ w' j, run o i (write_pending (if bool_decide (pong_frame = []) then 1 else 2) chunk b) w = Some (Going, w', j) ∧
    wire w' = wire w ++ items_bytes (items (queue w)) ++ pong_frame ∧ pending_out w' = [] ∧ buffered w' = 0 ∧
    pong (queue w') = None ∧ flags w' = flags w.
Proof.
  intros Hfl Hch HI Hl Hop Hd Hwork Eb Ec Hu pong_frame Hmem. fold (reply (o i Key) w) in pong_frame.
  pose proof HI as ((_ & Hbuf & Heq & _) & _ & (_ & _ & _ & F4 & _) & _ & _ & Hp). specialize (Heq Hd).
  assert (io w ≠ None) as Hio.
  { apply F4. destruct Hl as (_ & _ & _ & Hnc). unfold opened in Hop. destruct (state (flags w)); auto; done. }
  assert (∀ fuel, ∃ b' w' j, run o i (write_pending (S fuel) chunk b) w = run o j (write_pending fuel chunk b') w' ∧
    batch_done pong_frame w w') as Hstep.
  { intros fuel. apply run_batch_step; try done. intros d Ed. by apply (Hp d). }
  assert (buffered w = zlen (items_bytes (items (queue w)))) as Eout.
  { rewrite Heq. unfold outstanding, pending_out. rewrite Eb, Ec, Hu. simpl. lia. }
  case_bool_decide as Er.
  - destruct (Hstep 0%nat) as (b' & w' & j & -> & [W L B (C1 & C2 & _) (_ & P) (F & _)]). rewrite Er in *. exists w', j.
    split; [done|]. rewrite app_nil_r. split; [done|]. split; [unfold pending_out; by rewrite C1, C2, L|].
    split; [rewrite B, Eout; unfold zlen; simpl; lia|done].
  - destruct (Hstep 1%nat) as (b1 & w1 & j1 & -> & [W1 L1 B1 (C1 & C2 & C3) (D1 & P1) (F1 & Hl1)]).
    assert (items (queue w1) ≠ []) as Hi1 by (intros E; rewrite E in L1; by rewrite <-L1 in Er).
    assert (reply (o j1 Key) w1 = []) as E1 by (unfold reply; by rewrite P1).
    destruct (run_batch_step o chunk b1 j1 0 w1) as (b2 & w2 & j2 & -> & [W2 L2 B2 (D2 & D3 & _) (_ & P2) (F2 & _)]);
      try done; try congruence; [by left|by destruct C3 as [_ [_ ?]]; rewrite E1; unfold zlen; simpl; lia|].
    rewrite E1 in *. exists w2, j2. split; [done|]. rewrite W2, W1, L1, <-app_assoc. split; [done|].
    split; [unfold pending_out; by rewrite D2, D3, L2|]. split; [rewrite B2, B1, L1, Eout; unfold zlen; simpl; lia|].
    split; [done|congruence].
Qed.
End Flush.
