(* ===== verification/Replies.v ===== *)
(** * What the connection answers (core/src/net/link/handle.rs)

    Pings, the peer's close frame and the inbound budget, run alone on a
    connection nobody else acts on. *)

From S2P Require Import Prelude Utf8 Str Frame Reader Stream ReaderSim Messages Events Prog Link LinkInv LinkSafe Conn LinkFun Flush.

Section Replies.
Context `{Target}.

(** A step that neither sends nor changes the flags. *)
Record inert (w w' : World) : Prop := {
  in_queue : queue w' = queue w; in_wtr : wtr w' = wtr w; in_buffered : buffered w' = buffered w;
  in_flags : flags w' = flags w; in_cfg : cfg w' = cfg w; in_io : io w' = io w; in_wire : wire w' = wire w;
  in_listening : listening w'
}.
Lemma inert_refl w : listening w → inert w w.
Proof. by split. Qed.

(** ** Delivery and the inbound budget *)
Lemma emit_listening (o : oracle) ev i w :
  listening w → in_memory w = true → is_close ev = false →
  ∃ w', run o i (emit ev) w = Some (tt, w', i) ∧ inert w w' ∧ inbox w' = inbox w ∧
    map q_event (sent (events w')) = map q_event (sent (events w)) ++ [ev].
Proof.
  intros Hl Hm Hev. destruct (run_emit_listening o ev i w Hl Hm) as [E Hl']. eexists. split; [exact E|].
  split; [by split|]. split; [done|]. destruct Hl as (_ & Hh & Hr & _). simpl.
  unfold events_send, send_pending. rewrite Hh, Hr. simpl. by rewrite map_app.
Qed.
Lemma deliver_open (o : oracle) n ev i w :
  listening w → in_memory w = true → is_close ev = false → state (flags w) = Open ∨ inbox w < INBOX_LIMIT →
  ∃ w', run o i (deliver n ev) w = Some (tt, w', i) ∧ inert w w' ∧
    inbox w' = u64 (inbox w + (n + EVENT_COST)) ∧
    map q_event (sent (events w')) = map q_event (sent (events w)) ++ [ev].
Proof.
  intros Hl Hm Hev Hroom. unfold deliver. rewrite run_bind, run_reads, run_bind.
  assert (run o i (if INBOX_LIMIT <=? inbox w then s ← state_of; Done (negb (bool_decide (s = Open))) else Done false) w =
    Some (false, w, i)) as ->.
  { destruct (Z.leb_spec INBOX_LIMIT (inbox w)); [|done]. destruct Hroom as [Hs|]; [|lia].
    unfold state_of. rewrite run_bind, run_locked; [|by destruct Hl|done]. cbn [fst snd]. by rewrite Hs. }
  rewrite run_bind, run_modify. set (w1 := set_inbox _ w).
  destruct (emit_listening o ev i w1) as (w' & E & Hi & Ei & Ee); [exact Hl|exact Hm|done|].
  exists w'. split; [done|]. split; [|by rewrite Ei]. destruct Hi. by split.
Qed.

(** The inbound budget balances: delivering an event and then consuming
    it restores [inbox], and wakes the reader; and the reader waits exactly
    when the connection is open and the undelivered bytes reached the limit. *)
Theorem inbox_balances (o : oracle) n ev i w :
  listening w → in_memory w = true → is_close ev = false → state (flags w) = Open → 0 <= inbox w < 2 ^ 64 →
  (∃ w', run o i (_ ← deliver n ev; consumed n) w = Some (tt, w', i) ∧ inbox w' = inbox w ∧
     wake_consumed (wakes w') = true ∧
     map q_event (sent (events w')) = map q_event (sent (events w)) ++ [ev]) ∧
  run o i (wait_inbox (state (flags w))) w = Some (inbox w <? INBOX_LIMIT, w, i).
Proof.
  intros Hl Hm Hev Hs Hin. split.
  - destruct (deliver_open o n ev i w Hl Hm Hev) as (w1 & E & Hi & Ei & Ee); [by left|].
    rewrite run_bind, E. unfold consumed. rewrite run_bind, run_modify, run_modify. eexists. split; [done|]. simpl.
    rewrite Ei. split; [|done]. unfold u64. rewrite Zminus_mod_idemp_l, Z.add_simpl_r. by apply Z.mod_small.
  - rewrite Hs. done.
Qed.

(** ** Pings *)
Lemma ping_congested key d w :
  may_pong (flags w) = true → PONG_LIMIT <= buffered w →
  ping_section key d w = (tt, notify set_ready (on_queue (set_pong (Some d)) w)).
Proof. intros Hp Hb. unfold ping_section. rewrite Hp. by destruct (Z.ltb_spec (buffered w) PONG_LIMIT); [lia|]. Qed.
Lemma handle_ping_congested (o : oracle) d i w :
  listening w → in_memory w = true → state (flags w) = Open → may_pong (flags w) = true → PONG_LIMIT <= buffered w →
  ∃ w', run o i (handle (Ping d)) w = Some (tt, w', S i) ∧
    inert (on_queue (set_pong (Some d)) w) w' ∧
    map q_event (sent (events w')) = map q_event (sent (events w)) ++ [EvPing (id (cfg w)) d].
Proof.
  intros Hl Hm Hs Hp Hb. unfold handle, self_id. rewrite run_bind, run_reads, (run_ask Key), run_bind.
  rewrite run_locked; [|by destruct Hl|by rewrite ping_congested]. rewrite ping_congested by done. cbn [fst snd].
  set (w1 := notify set_ready (on_queue (set_pong (Some d)) w)).
  destruct (deliver_open o (zlen d) (EvPing (id (cfg w)) d) (S i) w1) as (w' & E & [] & _ & Ee);
    [exact Hl|exact Hm|done|by left|]. exists w'. split; [done|]. split; [by split|done].
Qed.

(** Under congestion replies are coalesced, never dropped and never
    unbounded: of two pings received while the send buffer is over the limit
    only the last is answered, by one pong queued when the writer gets to it;
    both are still reported to the application. *)
Theorem pong_coalesced (o : oracle) d1 d2 i w :
  Inv w → listening w → state (flags w) = Open → may_pong (flags w) = true → PONG_LIMIT <= buffered w →
  done (queue w) = false → bytes_ok d2 → zlen d2 <= 125 →
  outstanding w + zlen (encode PONG d2 (mask_of w (o (S (S i)) Key))) <= USIZE_MAX →
  ∃ w', run o i (_ ← handle (Ping d1); _ ← handle (Ping d2); flush_pong) w = Some (tt, w', S (S (S i))) ∧
    pending_out w' = pending_out w ++ encode PONG d2 (mask_of w (o (S (S i)) Key)) ∧
    pong (queue w') = None ∧
    map q_event (sent (events w')) =
      map q_event (sent (events w)) ++ [EvPing (id (cfg w)) d1; EvPing (id (cfg w)) d2].
Proof.
  intros HI Hl Hs Hp Hb Hd Hby Hlen Hmem. pose proof (Inv_in_memory w HI) as Hm.
  destruct (handle_ping_congested o d1 i w Hl Hm Hs Hp Hb) as (w1 & E1 & [A1 A2 A3 A4 A5 A6 A7 A8] & Ev1).
  simpl in A1, A2, A3, A4, A5, A6, A7.
  assert (pending_out w1 = pending_out w) as P1 by (unfold pending_out; by rewrite A1, A2).
  assert (in_memory w1 = true) as Hm1 by (unfold in_memory, outstanding in *; by rewrite P1, A2).
  destruct (handle_ping_congested o d2 (S i) w1) as (w2 & E2 & [B1 B2 B3 B4 B5 B6 B7 B8] & Ev2);
    [done|done|by rewrite A4|by rewrite A4|by rewrite A3|].
  simpl in B1, B2, B3, B4, B5, B6, B7.
  rewrite run_bind, E1, run_bind, E2. unfold flush_pong. rewrite (run_ask Key). set (key := o (S (S i)) Key) in *.
  assert (pending_out w2 = pending_out w ∧ wtr w2 = wtr w) as [P2 T2].
  { unfold pending_out. rewrite B1, B2. simpl. by rewrite A1, A2. }
  set (w3 := on_queue (set_pong None) w2).
  assert (io w ≠ None) as Hio by (destruct HI as (_ & _ & (_ & _ & _ & F4 & _) & _); apply F4; by left).
  assert (flush_pong_section key w2 = (tt, push_frame key PONG d2 w3)) as Ef.
  { unfold flush_pong_section. rewrite B1. simpl. by rewrite B4, A4, Hp. }
  assert (mask_of w3 key = mask_of w key) as Em by (unfold mask_of; simpl; by rewrite B5, A5).
  pose proof (push_frame_pushed key PONG d2 w3 ltac:(unfold MAX_PAYLOAD; lia)) as Hpush. rewrite Em in Hpush.
  unfold pushed in Hpush. rewrite bool_decide_false in Hpush by (simpl; by rewrite B6, A6).
  assert (done (queue w3) = false) as D3 by (simpl; rewrite B1; simpl; by rewrite A1).
  rewrite D3 in Hpush. destruct Hpush as (its & Ep & Eits).
  rewrite run_locked; [|by destruct B8|].
  2: { rewrite Ef. cbn [snd]. rewrite Ep. unfold in_memory. rewrite (outstanding_app _ _ _ _ Eits).
       change (outstanding w3) with (outstanding w2). unfold outstanding in *. rewrite P2, T2. lia. }
  rewrite Ef. cbn [fst snd]. eexists. split; [reflexivity|]. rewrite Ep. split; [|split; [done|]].
  - rewrite <-P2. unfold pending_out. simpl. rewrite Eits. simpl. by rewrite !app_assoc.
  - simpl. rewrite Ev2, Ev1, A5. by rewrite <-app_assoc.
Qed.


(** ** The closing handshake *)
Definition echo_payload (st : option (Z * bytes)) : bytes :=
  match st with Some (code, _) => close_payload code [] | None => [] end.
(** The section on an open connection. *)
Lemma closing_open now key st w :
  Inv w → state (flags w) = Open → zlen (echo_payload st) <= MAX_PAYLOAD →
  let w' := (closing_section now key st w).2 in in_memory w' = true →
  queued_frame (encode CLOSE (echo_payload st) (mask_of w key))
    (set_flags {| state := Closing; sent_close := true; close_received := Some (default (1005, []) st);
                  failed := failed (flags w); deadline := get_or_insert (deadline (flags w)) (now + CLOSE_TIMEOUT) |} w) w' ∧
  owner w' = owner w ∧ cfg w' = cfg w ∧ (is_server (cfg w) = true → shutdown (queue w') = true).
Proof.
  intros HI Hs Hlen. unfold closing_section. fold (echo_payload st).
  assert (close_received (flags w) = None) as Hr.
  { destruct HI as (_ & _ & (_ & _ & _ & _ & _ & F6) & _). destruct (close_received (flags w)); [|done].
    destruct F6 as [E|E]; [by left|congruence..]. }
  rewrite Hs, Hr, (open_not_closing w HI Hs), bool_decide_false, bool_decide_true by done. cbn [negb orb snd].
  set (w1 := set_flags _ w). set (w2 := push_frame key CLOSE (echo_payload st) w1). cbv zeta.
  pose proof (push_frame_pushed key CLOSE (echo_payload st) w1 Hlen) as Hp. fold w2 in Hp.
  assert (io w ≠ None ∧ done (queue w) = false) as [Hio Hd].
  { destruct HI as (_ & _ & (_ & _ & _ & F4 & F5 & _) & _). split; [apply F4; by left|].
    destruct (done (queue w)); [|done]. by rewrite F5 in Hs. }
  pose proof (pushed_quiet _ _ _ Hp) as Hq. unfold pushed in Hp. rewrite bool_decide_false in Hp by exact Hio.
  change (done (queue w1)) with (done (queue w)) in Hp. rewrite Hd in Hp. cbn [orb] in Hp. destruct Hp as (its & E2 & Eits).
  change (mask_of w1 key) with (mask_of w key) in *. set (d := encode CLOSE (echo_payload st) (mask_of w key)) in *.
  set (w3 := if is_server (cfg w2) then push_shutdown w2 else w2).
  assert (outstanding w3 = outstanding w2 ∧ pending_out w3 = pending_out w2 ∧ buffered w3 = buffered w2 ∧ flags w3 = flags w2 ∧
    events w3 = events w2 ∧ ready (wakes w3) = true ∧ owner w3 = owner w2 ∧ cfg w3 = cfg w2 ∧
    (is_server (cfg w2) = true → shutdown (queue w3) = true)) as (K1 & K2 & K3 & K4 & K5 & K6 & K7 & K8 & K9).
  { unfold w3. destruct (is_server (cfg w2)); [|by rewrite E2; split_and!]. unfold push_shutdown, enqueue. rewrite E2. simpl.
    destruct (io w); [|done]. rewrite Hd. simpl. unfold outstanding, pending_out. simpl.
    by rewrite items_bytes_app, app_nil_r. }
  intros Hmem. unfold in_memory in Hmem. rewrite K1 in Hmem.
  assert (queued_frame d w1 w2) as (Q1 & Q2 & Q3 & Q4 & Q5).
  { destruct HI as [(Hu & Hb & Heq & _) _]. specialize (Heq Hd). rewrite E2 in Hmem |- *.
    rewrite (outstanding_app w1 its (zlen d) d Eits) in Hmem. change (outstanding w1) with (outstanding w) in Hmem.
    pose proof (zlen_nonneg d). pose proof (zlen_nonneg (pending_out w)).
    split_and!; try done; [unfold pending_out; simpl; rewrite Eits; by rewrite !app_assoc|].
    simpl. unfold u64. apply Z.mod_small. unfold outstanding, USIZE_MAX in *. lia. }
  rewrite K7, K8. split; [|split; [by rewrite E2|split; [by rewrite E2|]; intros Hsv; apply K9; by rewrite E2]].
  split_and!; [by rewrite K2|by rewrite K3|by rewrite K4|by rewrite K5|done].
Qed.

(** The closing handshake completes with the peer's status: when the peer
    closes an open connection the code is echoed in one close frame (the
    server then also shuts the transport down), the connection is closing with
    a deadline, and when the transport ends the application gets exactly the
    code and reason the peer sent, 1005 if it sent none. *)
Theorem close_echoed (o : oracle) st i w :
  Inv w → listening w → state (flags w) = Open → status_ok st →
  in_memory (closing_section (o i Now) (o (S i) Key) st w).2 = true →
  ∃ w1 w2, run o i (handle (Close st)) w = Some (tt, w1, S (S i)) ∧
    state (flags w1) = Closing ∧ deadline (flags w1) ≠ None ∧
    pending_out w1 = pending_out w ++ encode CLOSE (echo_payload st) (mask_of w (o (S i) Key)) ∧
    (is_server (cfg w) = true → shutdown (queue w1) = true) ∧
    run o (S (S i)) end_ w1 = Some (tt, w2, S (S i)) ∧
    map q_event (sent (events w2)) = map q_event (sent (events w)) ++
      [EvClose (id (cfg w)) (default (1005, []) st).1 (default (1005, []) st).2].
Proof.
  intros HI (Ho & Hh & Hr & _) Hs Hst Hmem.
  assert (zlen (echo_payload st) <= MAX_PAYLOAD) as Hlen.
  { unfold echo_payload, MAX_PAYLOAD. destruct st as [[code reason]|]; rewrite ?zlen_close_payload; unfold zlen; simpl; lia. }
  destruct (closing_open (o i Now) (o (S i) Key) st w HI Hs Hlen Hmem) as ((Q1 & Q2 & Q3 & Q4 & Q5) & K1 & K2 & K3).
  set (w1 := (closing_section (o i Now) (o (S i) Key) st w).2) in *. simpl in Q3, Q4.
  destruct (run_end o (S (S i)) w1) as (w2 & E2 & _ & Ev);
    [congruence|done|by rewrite Q3|by rewrite Q4|by rewrite Q4|].
  exists w1, w2. split.
  { unfold handle, self_id, closing. rewrite run_bind, run_reads, (run_ask Now), (run_ask Key), run_locked by done.
    fold w1. by destruct (closing_section _ _ _ _).1. }
  rewrite Q3. split; [done|]. split; [apply get_or_insert_Some|]. split; [exact Q1|]. split; [exact K3|]. split; [done|].
  rewrite Ev, Q4, Q3, K2. unfold end_status. simpl. by destruct st as [[]|].
Qed.
End Replies.
