(* ===== verification/Delivery.v ===== *)
(** * From one application to the other

    Two connections of opposite roles: what one end's application sends, its
    writer hands to the transport; the bytes reach the other end cut anywhere,
    its reader decodes them and its application gets the messages. *)

From S2P Require Import Prelude Utf8 Str Frame Reader Stream ReaderSim Messages Events Prog Link LinkInv LinkSafe Conn Client LinkProps LinkFun Flush Replies.

Section Delivery.
Context `{Target}.

(** ** The receiving end *)
(** The flags of a connection in normal operation. *)
Definition open_flags : Flags :=
  {| state := Open; sent_close := false; close_received := None; failed := None; deadline := None |}.
(** A connection with flags [f] that still expects frames, nobody else acting. *)
Definition expects (f : Flags) : Prop := close_received f = None ∧ failed f = None.
Definition receiving (f : Flags) (w : World) : Prop :=
  listening w ∧ in_memory w = true ∧ flags w = f ∧ expects f ∧ 0 <= inbox w.
(** The closing deadline, if there is one, has not passed. *)
Definition in_time (f : Flags) (now : Z) : Prop := match deadline f with Some d => now < d | None => True end.
Definition message_event (i : Z) (m : Msg) : Event :=
  match m with Binary d => EvMessage i d true | Text d => EvMessage i d false | _ => EvError i [] end.
Definition message_bytes (m : Msg) : bytes := match m with Binary d | Text d => d | _ => [] end.
(** What messages add to the inbox. *)
Definition cost (ms : list Msg) : Z := foldr (λ m n, zlen (message_bytes m) + EVENT_COST + n) 0 ms.
Lemma cost_app a b : cost (a ++ b) = cost a + cost b.
Proof. induction a as [|m a IH]; simpl; [done|]. unfold cost in *. simpl. lia. Qed.
Lemma cost_nonneg ms : 0 <= cost ms.
Proof. induction ms as [|m ms IH]; [done|]. unfold cost, EVENT_COST in *. simpl. pose proof (zlen_nonneg (message_bytes m)). lia. Qed.
(** The application got the messages, and nothing else changed. *)
Record delivered (ms : list Msg) (w w' : World) : Prop := {
  de_inert : inert w w';
  de_inbox : inbox w' = inbox w + cost ms;
  de_events : map q_event (sent (events w')) = map q_event (sent (events w)) ++ map (message_event (id (cfg w))) ms
}.
Lemma delivered_refl w : listening w → delivered [] w w.
Proof. intros Hl. split; [by apply inert_refl|unfold cost; simpl; lia|by rewrite app_nil_r]. Qed.
Lemma delivered_trans a b w1 w2 w3 : delivered a w1 w2 → delivered b w2 w3 → delivered (a ++ b) w1 w3.
Proof.
  intros [[] A2 A3] [[] B2 B3]. split.
  - split; try congruence; done.
  - rewrite cost_app. lia.
  - rewrite B3, A3, map_app, <-app_assoc. congruence.
Qed.
Lemma inert_receiving f w w' : inert w w' → 0 <= inbox w' → receiving f w → receiving f w'.
Proof.
  intros [I1 I2 I3 I4 I5 I6 I7 I8] Hi (Hl & Hm & Hf & He & _). split_and!; try done.
  - unfold in_memory, outstanding, pending_out in *. by rewrite I1, I2.
  - by rewrite I4.
Qed.
Lemma inbox_limit_usize : INBOX_LIMIT <= USIZE_MAX.
Proof. by vm_compute. Qed.
Lemma handle_data (o : oracle) f m i w :
  receiving f w → is_data m = true → inbox w + cost [m] <= INBOX_LIMIT →
  ∃ w', run o i (handle m) w = Some (tt, w', i) ∧ delivered [m] w w' ∧ receiving f w'.
Proof.
  intros (Hl & Hm & Hf & [Hcr Hfl] & Hi) Hd Hc. pose proof inbox_limit_usize as HU.
  assert (∃ w', run o i (deliver (zlen (message_bytes m)) (message_event (id (cfg w)) m)) w = Some (tt, w', i) ∧
    delivered [m] w w' ∧ receiving f w') as (w' & E & Hdel & Hrec).
  { unfold cost in Hc. simpl in Hc. pose proof (zlen_nonneg (message_bytes m)). unfold EVENT_COST in *.
    destruct (deliver_open o (zlen (message_bytes m)) (message_event (id (cfg w)) m) i w Hl Hm)
      as (w' & E & Hin & Ei & Ee); [by destruct m|right; lia|]. unfold EVENT_COST in *.
    assert (inbox w' = inbox w + (zlen (message_bytes m) + 64)) as Ei'.
    { rewrite Ei. apply Z.mod_small. unfold USIZE_MAX in *. lia. }
    exists w'. split; [done|]. split; [|by apply (inert_receiving f w); [done|lia|]].
    split; [done|unfold cost, EVENT_COST; simpl; lia|done]. }
  exists w'. split; [|done]. unfold handle, self_id. rewrite run_bind, run_reads.
  assert (run o i (locked (λ w, (negb (bool_decide (close_received (flags w) = None)), w))) w = Some (false, w, i)) as El.
  { rewrite run_locked; [|by destruct Hl|done]. cbn [fst snd]. by rewrite Hf, Hcr. }
  destruct m; try done; by rewrite run_bind, El.
Qed.
(** Dispatching what the reader holds. *)
Lemma dispatch_data (o : oracle) f sv mx b : ∀ p ms p' b' fuel r i w,
  runs sv mx p b ms (Ok (p', b')) → Forall (λ m, is_data m = true) ms → shows sv mx r p b → (length b < fuel)%nat →
  receiving f w → inbox w + cost ms <= INBOX_LIMIT →
  ∃ r' w', run o i (dispatch_fuel fuel r) w = Some ((true, r'), w', i) ∧ shows sv mx r' p' b' ∧
    delivered ms w w' ∧ receiving f w'.
Proof.
  induction b as [b IH] using bytes_length_ind. intros p ms p' b' [|fuel] r i w Hr Hd Hs Hl Hw Hc; [lia|].
  destruct (next_msg_total sv mx p b) as (y & Hy).
  destruct (message_refines _ _ _ _ _ _ Hy Hs) as (r1 & z & Hm & Hpost).
  pose proof (next_msg_runs _ _ _ _ _ Hy) as Hruns. cbn [dispatch_fuel]. rewrite Hm.
  destruct y as [[[[m|] p1] b1]|e]; simpl in Hpost.
  - destruct Hpost as [-> Hs1], Hruns as [Hlt Hruns].
    destruct (runs_total sv mx p1 b1) as (ms1 & x1 & Hr1).
    destruct (runs_det _ _ _ _ _ _ _ _ Hr (Hruns _ _ Hr1)) as [-> <-].
    apply Forall_cons in Hd as [Hdm Hd]. change (m :: ms1) with ([m] ++ ms1) in Hc |- *. rewrite cost_app in Hc.
    pose proof (cost_nonneg ms1). destruct (handle_data o f m i w Hw Hdm) as (w1 & E1 & D1 & R1); [lia|].
    rewrite run_bind, E1, run_bind. unfold state_of. pose proof R1 as (L1 & M1 & F1 & _).
    rewrite run_locked by (by destruct L1 || done). cbn [fst snd].
    assert (state (flags w1) ≠ Closed) as Hnc by (by destruct L1 as (_ & _ & _ & ?)).
    destruct (IH b1 Hlt p1 ms1 p' b' fuel r1 i w1) as (r' & w' & E2 & Hs' & D2 & R2);
      [done|done|done|lia|done|destruct D1; lia|].
    exists r', w'. split_and!; [|done|by eapply delivered_trans|done]. rewrite bool_decide_false by done. by destruct m.
  - destruct Hpost as [-> Hs1]. destruct (runs_det _ _ _ _ _ _ _ _ Hr Hruns) as [-> [= -> ->]].
    exists r1, w. split_and!; [done|done|by apply delivered_refl; destruct Hw|done].
  - by destruct (runs_det _ _ _ _ _ _ _ _ Hr Hruns) as [_ [=]].
Qed.
(** The transport delivers the chunks [cs], then the end of the stream; one
    turn of the loop asks the clock, which is before the closing deadline, the
    [select!], the transport and, after input, the clock again. *)
Fixpoint feeds (f : Flags) (o : oracle) (i : nat) (cs : list bytes) : Prop :=
  in_time f (o i Now) ∧ o (S i) Select = SelRead ∧
  match cs with
  | [] => o (S (S i)) ReadIo = ReadOk []
  | c :: cs => o (S (S i)) ReadIo = ReadOk c ∧ c ≠ [] ∧ feeds f o (S (S (S (S i)))) cs
  end.
(** What the reader's loop holds. *)
Definition holding (sv : bool) (mx : Z) (l : ReadLoop) (p : option Partial) (b : bytes) : Prop :=
  ok l = true ∧ shows sv mx (rdr l) p b.
(** One turn of the loop, up to its read. *)
Lemma run_turn (o : oracle) f sv mx l p b ms p' b' i w :
  receiving f w → holding sv mx l p b → runs sv mx p b ms (Ok (p', b')) → Forall (λ m, is_data m = true) ms →
  inbox w + cost ms < INBOX_LIMIT → in_time f (o i Now) → o (S i) Select = SelRead →
  ∃ l' w', run o i (read_iter l) w = run o (S (S i)) (read_input l') w' ∧ holding sv mx l' p' b' ∧
    delivered ms w w' ∧ receiving f w'.
Proof.
  intros Hw [Hok Hs] Hr Hd Hc Htime Hsel. pose proof Hw as ((_ & Hh & _) & _). unfold read_iter.
  rewrite run_bind, run_reads, Hh, Hok, run_bind.
  assert (length b <= length (buf (rdr l)))%nat as Hb.
  { destruct Hs as (_ & _ & _ & _ & <-). unfold rest. rewrite length_drop. lia. }
  destruct (dispatch_data o f sv mx b p ms p' b' (S (length (buf (rdr l)))) (rdr l) i w)
    as (r' & w' & E & Hs' & D & R); [done|done|done|lia|done|lia|].
  unfold dispatch. rewrite E. cbn [fst snd]. set (l' := Build_ReadLoop _ _ _ _).
  pose proof R as (L & M & F & _). rewrite run_bind, run_locked by (by destruct L || done). cbn [fst snd].
  rewrite (run_ask Now). rewrite bool_decide_false by (by destruct L as (_ & _ & _ & ?)). rewrite F. cbn [orb].
  assert (match deadline f with Some at_ => at_ <=? o i Now | None => false end = false) as ->.
  { unfold in_time in Htime. destruct (deadline f); [|done]. lia. }
  assert (run o (S i) (wait_inbox (state f)) w' = Some (true, w', S i)) as Ewait.
  { unfold wait_inbox. case_bool_decide; [|done]. cbn [negb]. rewrite run_reads.
    destruct (Z.ltb_spec (inbox w') INBOX_LIMIT) as [_|Hbad]; [done|]. destruct D; lia. }
  rewrite run_bind, Ewait. cbn [negb].
  exists l', w'. split; [|done].
  destruct (deadline f); [change (Done ?x ≫= ?k) with (k x); cbv beta|rewrite run_bind, run_reads]; by rewrite (run_ask Select), Hsel.
Qed.
(** A turn that reads a chunk. *)
Lemma run_chunk (o : oracle) f sv mx l p b ms p' b' c i w :
  receiving f w → holding sv mx l p b → runs sv mx p b ms (Ok (p', b')) → Forall (λ m, is_data m = true) ms →
  inbox w + cost ms < INBOX_LIMIT → in_time f (o i Now) → o (S i) Select = SelRead → o (S (S i)) ReadIo = ReadOk c → c ≠ [] →
  ∃ l' w', run o i (read_iter l) w = Some (Continue l', w', S (S (S (S i)))) ∧ holding sv mx l' p' (b' ++ c) ∧
    delivered ms w w' ∧ receiving f w'.
Proof.
  intros Hw Hh Hr Hd Hc Htime Hsel Hread Hne.
  destruct (run_turn o f sv mx l p b ms p' b' i w) as (l' & w1 & E & [Hok Hs] & D & R); [done..|].
  rewrite E. unfold read_input. rewrite (run_ask ReadIo), Hread. destruct c as [|c0 c]; [done|].
  rewrite (run_ask Now), Hok. destruct (push_refines _ _ _ _ _ (c0 :: c) Hs) as (r2 & -> & Hs2 & _).
  by eexists _, w1.
Qed.
(** What a longer stream means, in two parts. *)
Lemma runs_split sv mx p b c ms p' b' :
  runs sv mx p (b ++ c) ms (Ok (p', b')) →
  ∃ ms1 p1 b1 ms2, runs sv mx p b ms1 (Ok (p1, b1)) ∧ runs sv mx p1 (b1 ++ c) ms2 (Ok (p', b')) ∧ ms = ms1 ++ ms2.
Proof.
  intros Hr. destruct (runs_total sv mx p b) as (ms1 & x1 & Hr1). destruct x1 as [[p1 b1]|e].
  - destruct (runs_total sv mx p1 (b1 ++ c)) as (ms2 & x2 & Hr2).
    destruct (runs_det _ _ _ _ _ _ _ _ Hr (runs_app _ _ _ _ _ _ _ _ _ _ Hr1 Hr2)) as [-> <-]. by exists ms1, p1, b1, ms2.
  - by destruct (runs_det _ _ _ _ _ _ _ _ Hr (runs_app_fail _ _ _ _ c _ _ Hr1)) as [_ [=]].
Qed.
(** The end of the loop after the end of the stream. *)
Lemma run_tail (o : oracle) f sv mx fuel l p b i w :
  receiving f w → inbox w <= INBOX_LIMIT → holding sv mx l p b → runs sv mx p b [] (Ok (p, b)) →
  ∃ w', run o i (read_tail fuel l) w = Some (tt, w', i) ∧ state (flags w') = Closed ∧
    map q_event (sent (events w')) = map q_event (sent (events w)) ++ [EvClose (id (cfg w)) 1006 []].
Proof.
  intros Hw Hib [Hok Hs] Hr. unfold read_tail. rewrite Hok, run_bind.
  assert (length b <= length (buf (rdr l)))%nat as Hb.
  { destruct Hs as (_ & _ & _ & _ & <-). unfold rest. rewrite length_drop. lia. }
  destruct (dispatch_data o f sv mx b p [] p b (S (length (buf (rdr l)))) (rdr l) i w)
    as (r' & w1 & E & _ & [[] _ Ev] & R); [done|by apply Forall_nil|done|lia|done|unfold cost; simpl; lia|].
  rewrite run_bind. unfold dispatch. rewrite E. change (run o i (Done ()) w1) with (Some ((), w1, i)). cbv iota beta.
  pose proof R as ((Lo & Lh & Lr & Ls) & M & F & [Hcr Hfl] & _). unfold flush_close.
  rewrite run_bind, run_bind, run_locked by done. cbn [fst snd]. rewrite F, Hcr, Hfl.
  rewrite !bool_decide_true by done. cbn [andb]. change (run o i (Done ()) w1) with (Some ((), w1, i)). cbv iota beta.
  destruct (run_end o i w1) as (w2 & E2 & Hst & Ev2); [done..|].
  exists w2. split; [done|]. split; [done|]. rewrite Ev2, F, Ev, in_cfg. unfold end_status. rewrite Hcr, Hfl. cbn [map fst snd].
  by rewrite app_nil_r.
Qed.
(** The whole loop. *)
Lemma run_reader (o : oracle) f sv mx cs : ∀ fuel l p b ms p' b' i w,
  receiving f w → holding sv mx l p b → runs sv mx p (b ++ concat cs) ms (Ok (p', b')) →
  Forall (λ m, is_data m = true) ms → inbox w + cost ms < INBOX_LIMIT → feeds f o i cs → (length cs < fuel)%nat →
  ∃ w' j, run o i (read_run fuel l) w = Some (tt, w', j) ∧ state (flags w') = Closed ∧
    map q_event (sent (events w')) =
      map q_event (sent (events w)) ++ map (message_event (id (cfg w))) ms ++ [EvClose (id (cfg w)) 1006 []].
Proof.
  induction cs as [|c cs IH]; intros [|fuel] l p b ms p' b' i w Hw Hh Hr Hd Hc Hf Hl; simpl in Hl; try lia.
  - destruct Hf as (Htime & Hsel & Hread). rewrite app_nil_r in Hr. cbn [read_run]. rewrite run_bind.
    destruct (run_turn o f sv mx l p b ms p' b' i w) as (l' & w1 & E & Hh' & [[] D2 D3] & R); [done..|].
    rewrite E. unfold read_input. rewrite (run_ask ReadIo), Hread.
    destruct (run_tail o f sv mx fuel l' p' b' (S (S (S i))) w1) as (w2 & E2 & Hst & Ev);
      [done|lia|done|apply runs_need; by eapply runs_left|].
    exists w2, (S (S (S i))). split; [done|]. split; [done|]. by rewrite Ev, D3, in_cfg, <-app_assoc.
  - destruct Hf as (Htime & Hsel & Hread & Hne & Hf). cbn [concat] in Hr.
    destruct (runs_split sv mx p b (c ++ concat cs) ms p' b' Hr) as (ms1 & p1 & b1 & ms2 & Hr1 & Hr2 & ->).
    rewrite app_assoc in Hr2. apply Forall_app in Hd as [Hd1 Hd2]. rewrite cost_app in Hc. pose proof (cost_nonneg ms2).
    destruct (run_chunk o f sv mx l p b ms1 p1 b1 c i w) as (l2 & w1 & E & Hh2 & [[] D2 D3] & R); [done..|lia|done|done|done|done|].
    cbn [read_run]. rewrite run_bind, E.
    destruct (IH fuel l2 p1 (b1 ++ c) ms2 p' b' (S (S (S (S i)))) w1) as (w2 & j & E2 & Hst & Ev); [done|done|done|done|lia|done|lia|].
    exists w2, j. split; [done|]. split; [done|]. rewrite Ev, D3, in_cfg, map_app. by rewrite <-!app_assoc.
Qed.

(** ** The sending end *)
(** Open, with nothing on its way out. *)
Record idle (w : World) : Prop := {
  id_inv : Inv w; id_listening : listening w; id_open : state (flags w) = Open; id_pong : pong (queue w) = None;
  id_batch : batch (wtr w) = []; id_current : current (wtr w) = []; id_unacked : unacked (wtr w) = 0
}.
(** The application sends one message after the other; the result says
    whether all were accepted. *)
Fixpoint send_all (tid : nat) (ds : list (bytes * bool)) : method bool :=
  match ds with
  | [] => Done true
  | (data, binary) :: ds =>
      r ← conn_send tid data binary;
      match r with Ok _ => send_all tid ds | Err _ => Done false end
  end.
Definition data_msg (d : bytes * bool) : Msg := if d.2 then Binary d.1 else Text d.1.
Definition within (mx : Z) (d : bytes * bool) : Prop := bytes_ok d.1 ∧ zlen d.1 <= mx ∧ zlen d.1 <= MAX_PAYLOAD.
Definition data_op (binary : bool) : Z := if binary then BINARY else TEXT.
Lemma encode_data d key : encode_msg (data_msg d) key = encode (data_op d.2) d.1 key.
Proof. by destruct d as [x []]. Qed.
(** Only the items, the count of bytes and the wake-up differ. *)
Record pushes (w w' : World) : Prop := {
  pu_wtr : wtr w' = wtr w; pu_wire : wire w' = wire w; pu_cfg : cfg w' = cfg w; pu_pong : pong (queue w') = pong (queue w);
  pu_drain : drain (queue w') = drain (queue w); pu_shutdown : shutdown (queue w') = shutdown (queue w);
  pu_inbox : inbox w' = inbox w; pu_events : events w' = events w; pu_flags : flags w' = flags w; pu_owner : owner w' = owner w
}.
#[export] Instance pushes_preorder : PreOrder pushes.
Proof. split; [done|]. intros x y z [] []. split; congruence. Qed.
Lemma push_frame_idle key op payload w : zlen payload <= MAX_PAYLOAD → pushes w (push_frame key op payload w).
Proof.
  intros Hl. pose proof (push_frame_pushed key op payload w Hl) as Hp. unfold pushed in Hp.
  destruct (_ || _); [by rewrite Hp|]. by destruct Hp as (its & -> & _).
Qed.
Lemma pushes_listening w w' : pushes w w' → listening w → listening w'.
Proof. intros []. unfold listening. congruence. Qed.
(** One accepted send. *)
Lemma conn_send_ok (o : oracle) mx tid data binary i w w' j :
  (∀ i q, allowed q (o i q)) → idle w → within mx (data, binary) →
  run o i (conn_send tid data binary) w = Some (Ok tt, w', j) →
  idle w' ∧ pushes w w' ∧
  ∃ key, msg_ok mx (data_msg (data, binary)) ∧ key_for (negb (is_server (cfg w))) key ∧
    pending_out w' = pending_out w ++ encode_msg (data_msg (data, binary)) key.
Proof.
  intros Ho Hid (Hb & Hmx & Hl) Hrun. cbn [fst snd] in Hb, Hmx, Hl. destruct Hid as [I1 I2 I3 I4 I5 I6 I7].
  assert (Inv w') as HI'.
  { exact (proj1 (safe_run Inv mono _ o _ anytime i w _ w' j Ho (ok_conn_send anytime tid data binary stable_anytime Hb Hl) I1 I Hrun)). }
  assert ((binary = false → from_utf8 data = Ok tt) ∧ run o i (send tid (data_op binary) data) w = Some (Ok tt, w', j))
    as [Hu Hsend].
  { unfold conn_send, send_text in Hrun. destruct binary; [done|]. by destruct (from_utf8 data) as [[]|]. }
  pose proof I2 as (Hown & Hh & Hr & Hst). rewrite run_send, I3 in Hsend by done.
  destruct (fits w (wire_len w data)); [|done].
  destruct (in_memory (push_frame (o i Key) (data_op binary) data w)) eqn:Hm; [|done]. simplify_eq.
  pose proof (push_frame_idle (o i Key) (data_op binary) data w Hl) as HP.
  destruct (push_frame_queued (o i Key) (data_op binary) data w I1 I3 Hl Hm) as (Q1 & _).
  split; [|split; [done|]].
  - split; rewrite ?(pu_wtr _ _ HP), ?(pu_flags _ _ HP), ?(pu_pong _ _ HP); try done. by eapply pushes_listening.
  - exists (mask_of w (o i Key)). split; [|split].
    + destruct binary; simpl; unfold MAX_PAYLOAD in *; split_and!; done || lia || by apply Hu.
    + unfold mask_of. destruct (is_server (cfg w)); simpl; [done|]. split; [done|]. apply (Ho i Key).
    + by rewrite encode_data, Q1.
Qed.
Lemma send_all_ok (o : oracle) mx tid ds : ∀ i w w' j,
  (∀ i q, allowed q (o i q)) → idle w → Forall (within mx) ds → run o i (send_all tid ds) w = Some (true, w', j) →
  idle w' ∧ pushes w w' ∧
  ∃ fs, map fst fs = map data_msg ds ∧ Forall (λ mk, msg_ok mx mk.1 ∧ key_for (negb (is_server (cfg w))) mk.2) fs ∧
    pending_out w' = pending_out w ++ frames_bytes fs.
Proof.
  induction ds as [|[data binary] ds IH]; intros i w w' j Ho Hid Hds Hrun; cbn [send_all] in Hrun.
  { injection Hrun as -> ->. split_and!; try done. exists []. split_and!; [done|by apply Forall_nil|by rewrite app_nil_r]. }
  apply Forall_cons in Hds as [Hd Hds]. rewrite run_bind in Hrun.
  destruct (run o i (conn_send tid data binary) w) as [[[[[]|e] w1] i1]|] eqn:E1; [|done|done].
  destruct (conn_send_ok o mx tid data binary i w w1 i1 Ho Hid Hd E1) as (Hid1 & HP1 & key & Hm & Hk & Ep).
  destruct (IH i1 w1 w' j Ho Hid1 Hds Hrun) as (Hid2 & HP2 & fs & Ef & Hfs & Ep2). rewrite (pu_cfg _ _ HP1) in Hfs.
  split; [done|]. split; [by etrans|]. exists ((data_msg (data, binary), key) :: fs).
  split; [simpl; by rewrite Ef|]. split; [by constructor|].
  change ((data_msg (data, binary), key) :: fs) with ([(data_msg (data, binary), key)] ++ fs).
  by rewrite frames_bytes_app, frames_bytes_one, app_assoc, <-Ep.
Qed.
(** The writer puts what was sent on the wire. *)
Lemma send_all_wire (o : oracle) chunk mx tid ds i w w1 i1 :
  (∀ i q, allowed q (o i q)) → flowing o → 0 < chunk → idle w → items (queue w) = [] → ds ≠ [] → Forall (within mx) ds →
  run o i (send_all tid ds) w = Some (true, w1, i1) →
  ∃ w2 j fs, run o i1 (write_pending 1 chunk 0) w1 = Some (Going, w2, j) ∧ buffered w2 = 0 ∧
    wire w2 = wire w ++ frames_bytes fs ∧ map fst fs = map data_msg ds ∧
    Forall (λ mk, msg_ok mx mk.1 ∧ key_for (negb (is_server (cfg w))) mk.2) fs.
Proof.
  intros Ho Hfl Hch Hid Hit Hne Hds Hrun.
  destruct (send_all_ok o mx tid ds i w w1 i1 Ho Hid Hds Hrun) as (Hid1 & HP & fs & Ef & Hfs & Ep).
  destruct Hid as [_ _ _ _ B1 B2 _], Hid1 as [I1 I2 I3 I4 I5 I6 I7].
  unfold pending_out in Ep. rewrite Hit, B1, B2, I5, I6 in Ep. simpl in Ep.
  destruct (run_batch o chunk 0 i1 w1) as (w2 & j & E & Hw & _ & Hb & _); try done.
  - destruct I1 as (_ & _ & (_ & _ & _ & _ & F5 & _) & _). destruct (done (queue w1)); [|done]. by rewrite F5 in I3.
  - intros E. rewrite E in Ep. destruct fs as [|[m k] fs]; [by destruct ds|]. symmetry in Ep. unfold frames_bytes in Ep. simpl in Ep.
    apply app_nil in Ep as [Ep _]. by destruct m as [| | | |[[]|]]; apply encode_nonempty in Ep.
  - exists w2, j, fs. split_and!; [done|done|by rewrite Hw, (pu_wire _ _ HP), Ep|done|done].
Qed.

(** C21: End to end: the data messages one application sends, all accepted,
    are put on the wire by the writer, whose buffer is empty afterwards;
    however the transport cuts those bytes, the reader of the other end, of
    the opposite role, hands its application exactly these messages, in
    order and unchanged, and one final close event with code 1006 when the
    transport then ends without a closing handshake.  This is for a receiving
    end whose application keeps up: what waits for it, with these messages,
    stays under the 1 MiB of [INBOX_LIMIT], and its reader gets every chunk the
    transport has. *)
Theorem messages_delivered (oA oB : oracle) chunk tid ds i wA wA1 i1 wB :
  (∀ i q, allowed q (oA i q)) → flowing oA → 0 < chunk → idle wA → items (queue wA) = [] →
  ds ≠ [] → Forall (within (max_message (cfg wB))) ds →
  receiving open_flags wB → is_server (cfg wB) = negb (is_server (cfg wA)) → inbox wB + cost (map data_msg ds) < INBOX_LIMIT →
  run oA i (send_all tid ds) wA = Some (true, wA1, i1) →
  ∃ wA2 i2 sent_bytes, run oA i1 (write_pending 1 chunk 0) wA1 = Some (Going, wA2, i2) ∧ buffered wA2 = 0 ∧
    wire wA2 = wire wA ++ sent_bytes ∧
    ∀ first cs fuel j, first ++ concat cs = sent_bytes → feeds open_flags oB (S j) cs → (length cs < fuel)%nat →
      ∃ wB' k, run oB j (read_loop fuel first) wB = Some (tt, wB', k) ∧ state (flags wB') = Closed ∧
        map q_event (sent (events wB')) = map q_event (sent (events wB)) ++
          map (message_event (id (cfg wB))) (map data_msg ds) ++ [EvClose (id (cfg wB)) 1006 []].
Proof.
  intros Ho Hfl Hch Hid Hit Hne Hds HwB Hrole Hc Hrun.
  destruct (send_all_wire oA chunk _ tid ds i wA wA1 i1 Ho Hfl Hch Hid Hit Hne Hds Hrun)
    as (wA2 & i2 & fs & E & Hb & Hw & Ef & Hfs).
  exists wA2, i2, (frames_bytes fs). split_and!; [done..|]. intros first cs fuel j Hcut Hf Hl.
  rewrite <-Hrole in Hfs. unfold read_loop. rewrite run_bind, run_reads, (run_ask Now).
  destruct (push_refines _ _ _ _ _ first (shows_new (is_server (cfg wB)) (max_message (cfg wB)))) as (r & -> & Hs & _).
  apply (run_reader oB open_flags (is_server (cfg wB)) (max_message (cfg wB)) cs fuel _ None first (map data_msg ds) None [] (S j) wB); try done.
  - rewrite Hcut, <-Ef. by apply runs_encode.
  - apply Forall_map, Forall_true. by intros [? []].
Qed.
End Delivery.
