(* ===== verification/Closing.v ===== *)
(** * The closing handshake between two connections

    One application closes; its close frame reaches the other end, is answered
    with its code, and both ends report it when the transport ends.  While a
    reader waits for input the writer of its connection gets a turn. *)

From S2P Require Import Prelude Utf8 Str Frame Reader Stream ReaderSim Messages Events Prog Link LinkInv LinkSafe Conn Client LinkProps LinkFun Flush Replies Delivery.

Section Closing.
Context `{Target}.

(** ** A connection at rest *)
(** Nothing on its way out, nobody else acting, no close frame received. *)
Record settled (f : Flags) (w : World) : Prop := {
  se_inv : Inv w; se_listening : listening w; se_flags : flags w = f; se_expects : expects f;
  se_begun : state f = Open ∨ state f = Closing;
  se_pong : pong (queue w) = None; se_items : items (queue w) = []; se_batch : batch (wtr w) = [];
  se_current : current (wtr w) = []; se_unacked : unacked (wtr w) = 0; se_shutdown : shutdown (queue w) = false;
  se_drain : drain (queue w) = None; se_inbox : 0 <= inbox w
}.
Lemma settled_receiving f w : settled f w → receiving f w.
Proof. intros []. split_and!; try done. by apply Inv_in_memory. Qed.
Lemma settled_io f w : settled f w → io w ≠ None ∧ done (queue w) = false.
Proof.
  intros []. destruct se_inv0 as (_ & _ & (_ & _ & _ & F4 & F5 & _) & _). rewrite se_flags0 in *. split; [by apply F4|].
  destruct (done (queue w)); [|done]. specialize (F5 eq_refl). by destruct se_begun0 as [E|E]; rewrite E in F5.
Qed.
Lemma message_events_open l l' i ms :
  map q_event l' = map q_event l ++ map (message_event i) ms → no_close l → no_close l'.
Proof.
  unfold no_close. intros E. rewrite <-!(Forall_map q_event (λ e, is_close e = false)), E, Forall_app. split; [done|].
  apply Forall_map, Forall_true. by intros [].
Qed.
Lemma delivered_settled f ms w w' : settled f w → delivered ms w w' → settled f w'.
Proof.
  intros [I1 I2 I3 I4 I4' I5 I6 I7 I8 I9 I10 I11 I12] [[E1 E2 E3 E4 E5 E6 E7 E8] Ei Ev].
  assert (Inv w') as HI'.
  { destruct I1 as (Ho & (He1 & He2 & He3) & Hf & Hd). split; [|split; [|split]].
    - unfold out_ok, wire_ok, outstanding, pending_out, fits in *. by rewrite E1, E2, E3, E4, E5, E7.
    - assert (no_close (sent (events w'))) as Hno by (eapply message_events_open; [exact Ev|apply He2; by destruct I2 as (_ & _ & _ & ?)]).
      split; [by left|]. split; [done|]. intros Hc. by destruct E8 as (_ & _ & _ & []).
    - unfold flags_ok in *. rewrite E1, E4, E6. destruct I2 as (O1 & _), E8 as (O2 & _). rewrite O1 in Hf. by rewrite O2.
    - unfold data_ok in *. by rewrite E1, E5. }
  pose proof (cost_nonneg ms). split; rewrite ?E1, ?E2, ?E4; done || lia.
Qed.

(** ** The answer to a close frame *)
(** What is sent: the code, unless our close frame went out before. *)
Definition reply_bytes (key : key4) (st : option (Z * bytes)) (w : World) : bytes :=
  if sent_close (flags w) then [] else encode CLOSE (echo_payload st) (mask_of w key).
Definition replied_flags (now : Z) (st : option (Z * bytes)) (f : Flags) : Flags :=
  {| state := Closing; sent_close := true; close_received := Some (default (1005, []) st); failed := failed f;
     deadline := get_or_insert (deadline f) (now + CLOSE_TIMEOUT) |}.
(** The state between handling the frame and the writer's turn. *)
Record replied (data : bytes) (f' : Flags) (w w' : World) : Prop := {
  re_inv : Inv w'; re_listening : listening w'; re_flags : flags w' = f'; re_cfg : cfg w' = cfg w;
  re_events : events w' = events w; re_wire : wire w' = wire w; re_wtr : wtr w' = wtr w;
  re_items : items_bytes (items (queue w')) = data;
  re_server : is_server (cfg w) = true → Shutdown ∈ items (queue w');
  re_client : is_server (cfg w) = false → shutdown (queue w') = false;
  re_drain : drain (queue w') = None; re_pong : pong (queue w') = None; re_done : done (queue w') = false
}.
Lemma reply_short key st w : zlen (reply_bytes key st w) <= 200.
Proof.
  unfold reply_bytes. destruct (sent_close _); [by vm_compute|].
  assert (zlen (echo_payload st) <= 2) as Hl.
  { unfold echo_payload. destruct st as [[code reason]|]; rewrite ?zlen_close_payload; unfold zlen; simpl; lia. }
  rewrite encode_length by lia. pose proof (zlen_nonneg (echo_payload st)). unfold encoded_len, sat_add.
  destruct (zlen (echo_payload st) <=? 125) eqn:E; [|lia]. destruct (bool_decide _); lia.
Qed.
(** The queue after the frame was pushed, and after the shutdown. *)
Definition answer_queued (data : bytes) (w w2 : World) : Prop :=
  ∃ its n r, w2 = on_wakes r (set_buffered n (on_queue (set_items its) w)) ∧ items_bytes its = data.
Lemma reply_queued key st w :
  settled (flags w) w → ∀ f', answer_queued (reply_bytes key st w) (set_flags f' w)
    (if sent_close (flags w) then set_flags f' w else push_frame key CLOSE (echo_payload st) (set_flags f' w)).
Proof.
  intros Hs f'. destruct (settled_io _ _ Hs) as [Hio Hd]. pose proof (se_items _ _ Hs) as Hi. unfold reply_bytes.
  destruct (sent_close (flags w)).
  { exists [], (buffered w), (λ r, r). split; [|done]. destruct w as [c f [] k]; simpl in *. by rewrite Hi. }
  assert (zlen (echo_payload st) <= MAX_PAYLOAD) as Hl.
  { unfold echo_payload, MAX_PAYLOAD. destruct st as [[code reason]|]; rewrite ?zlen_close_payload; unfold zlen; simpl; lia. }
  pose proof (push_frame_pushed key CLOSE (echo_payload st) (set_flags f' w) Hl) as Hp. unfold pushed in Hp.
  rewrite bool_decide_false in Hp by exact Hio. change (done (queue (set_flags f' w))) with (done (queue w)) in Hp. rewrite Hd in Hp.
  cbn [orb] in Hp. destruct Hp as (its & -> & Eits). change (items (queue (set_flags f' w))) with (items (queue w)) in Eits.
  rewrite Hi in Eits. exists its, (u64 (buffered w + zlen (encode CLOSE (echo_payload st) (mask_of w key)))), (set_ready true).
  split; [done|exact Eits].
Qed.
Lemma closing_replied now key st f w :
  settled f w → status_ok st → key_ok key →
  let w' := (closing_section now key st w).2 in
  in_memory w' = true ∧ replied (reply_bytes key st w) (replied_flags now st f) w w'.
Proof.
  intros Hs Hst Hk. pose proof Hs as [I1 I2 I3 [Hcr Hfl] Hb I5 I6 I7 I8 I9 I10 I11 I12].
  pose proof (settled_io _ _ Hs) as [Hio Hd]. pose proof I2 as (O1 & O2 & O3 & O4).
  assert ((closing_section now key st w).2 =
    let w2 := if sent_close (flags w) then set_flags (replied_flags now st f) w
              else push_frame key CLOSE (echo_payload st) (set_flags (replied_flags now st f) w) in
    if is_server (cfg w2) then push_shutdown w2 else w2) as E.
  { unfold closing_section. rewrite bool_decide_false by done. rewrite I3, Hcr, bool_decide_true by done. cbn [negb orb snd].
    by destruct (sent_close f). }
  destruct (reply_queued key st w ltac:(by rewrite I3) (replied_flags now st f)) as (its & n & r & E2 & Eits).
  set (data := reply_bytes key st w) in *. pose proof (reply_short key st w) as Hlen. fold data in Hlen.
  set (w' := (closing_section now key st w).2) in *. rewrite E2 in E. cbv zeta in E.
  change (cfg (on_wakes r _)) with (cfg w) in E.
  assert (wtr w' = wtr w ∧ events w' = events w ∧ owner w' = None ∧ cfg w' = cfg w ∧ wire w' = wire w ∧
    flags w' = replied_flags now st f ∧ items_bytes (items (queue w')) = data ∧
    (is_server (cfg w) = true → Shutdown ∈ items (queue w')) ∧ (is_server (cfg w) = false → shutdown (queue w') = false) ∧
    drain (queue w') = None ∧ pong (queue w') = None ∧ done (queue w') = false) as (K1 & K2 & K3 & K4 & K5 & K6 & K7 & K8 & K9 & K10 & K11 & K12).
  { rewrite E. destruct (is_server (cfg w)); [|by split_and!]. unfold push_shutdown, enqueue. simpl. destruct (io w); [|done].
    rewrite Hd. simpl. split_and!; try done.
    - by rewrite items_bytes_app, Eits, app_nil_r.
    - intros _. apply elem_of_app. right. by left. }
  assert (in_memory w' = true) as Hm.
  { unfold in_memory, outstanding, pending_out. rewrite K1, K7, I7, I8, I9. simpl. unfold USIZE_MAX. lia. }
  split; [done|]. split; try done.
  - apply (closing_ok now key st Hk Hst w I1); [|done|done]. unfold opened. rewrite I3. by destruct Hb as [-> | ->].
  - split_and!; [done|by rewrite K2..|by rewrite K6].
Qed.

(** ** The writer's turn *)
(** If anything is queued the writer wakes up and sends it. *)
Definition writer_turn (chunk : Z) : method writer_exit :=
  n ← reads (λ w, length (items (queue w)));
  if (n =? 0)%nat then Done Going else write_pending 1 chunk 0.
(** The state when the reader goes on. *)
Record answered (data : bytes) (w1 w2 : World) : Prop := {
  an_flags : flags w2 = flags w1; an_listening : listening w2; an_memory : in_memory w2 = true;
  an_cfg : cfg w2 = cfg w1; an_events : events w2 = events w1; an_wire : wire w2 = wire w1 ++ data;
  an_flushed : close_pending w2 = false
}.
Lemma writer_answers (o : oracle) chunk data f f' w w' i :
  flowing o → 0 < chunk → settled f w → replied data f' w w' →
  ∃ w2 j, run o i (writer_turn chunk) w' = Some (Going, w2, j) ∧ answered data w' w2.
Proof.
  intros Hfl Hch Hs [R1 R2 R3 R4 R5 R6 R7 R8 R9 R10 R11 R12 R13]. destruct Hs as [_ _ _ _ _ _ _ I7 I8 I9 _ _ _].
  rewrite <-R7 in I7, I8, I9. pose proof R1 as [(_ & _ & Heq & _) _]. specialize (Heq R13).
  unfold writer_turn. rewrite run_bind, run_reads. destruct (Nat.eqb_spec (length (items (queue w'))) 0) as [E0|Hne].
  - assert (items (queue w') = []) as Ei by (by destruct (items (queue w'))). exists w', i. split; [done|].
    rewrite Ei in R8, R9. change (items_bytes []) with ([] : bytes) in R8. subst data.
    split; try done; [by apply Inv_in_memory|by rewrite app_nil_r|].
    unfold close_pending. rewrite R13, Heq. unfold outstanding, pending_out. rewrite I7, I8, I9, Ei. simpl.
    apply R10. destruct (is_server (cfg w)); [|done]. by specialize (R9 eq_refl) as ?%elem_of_nil.
  - destruct (run_batch_flushes o chunk 0 i w') as (w2 & j & E & [F1 F2 F3 F4 F5 F6 F7 F8 _ F9 F10] & C1 & C2 & C3 & C4);
      [done..|by intros Ei; rewrite Ei in Hne|done|done|done|].
    simpl in F1, F2, F3, F4, F5, F6, F8, F9, F10. destruct (F10 R11) as [F11 F12].
    exists w2, j. split; [done|]. split; try done; [by apply counted_in_memory|by rewrite F1, R8|].
    unfold close_pending. rewrite F4, R13, F2, Heq. unfold outstanding, pending_out. rewrite I7, I8, I9. simpl app.
    rewrite Z.add_0_l, Z.sub_diag. simpl. destruct (shutdown (queue w2)) eqn:Es; [|done]. destruct (is_server (cfg w)) eqn:Esv.
    + by apply C4, R9.
    + by rewrite <-(R10 eq_refl), (F9 eq_refl).
Qed.

(** ** The reader *)
(** A stream that gave no message and ends between messages gave nothing. *)
Lemma silent_step sv mx p b p1 b1 : stream_step sv mx p b = SNext None p1 b1 → p1 ≠ None.
Proof.
  unfold stream_step. destruct (frame_view sv mx p b) as [|f|fin op payload r]; [done..|]. unfold absorb.
  destruct (op =? PING); [done|]. destruct (op =? PONG); [done|].
  destruct (op =? CLOSE); [by destruct (Reader.close payload)|].
  set (q := match p with Some _ => _ | None => _ end). destruct fin; simpl;
    destruct (p_op q =? TEXT); try destruct (from_utf8 _); try (by intros [= <- <-]); try done;
    destruct (bool_decide _); simpl; try done; by intros [= <- <-].
Qed.
Lemma runs_silent sv mx p b b' : runs sv mx p b [] (Ok (None, b')) → b' = b.
Proof.
  assert (∀ ms x, runs sv mx p b ms x → ms = [] → ∀ b', x = Ok (None, b') → p = None ∧ b' = b) as Hgen.
  { intros ms x Hr. induction Hr as [p b E|p b f E|p b m p1 b1 ms x E Hr IH]; intros Hms b2 Hx; [by simplify_eq|done|].
    destruct m as [m|]; [done|]. simpl in Hms. destruct (IH Hms b2 Hx) as [-> _]. by apply silent_step in E. }
  intros Hr. by destruct (Hgen _ _ Hr eq_refl b' eq_refl).
Qed.
(** Data, and then the close frame. *)
Lemma dispatch_close (o : oracle) f sv mx st b : ∀ p ms p' b' fuel r i w,
  runs sv mx p b (ms ++ [Close st]) (Ok (p', b')) → Forall (λ m, is_data m = true) ms → shows sv mx r p b →
  (length b < fuel)%nat → settled f w → inbox w + cost ms <= INBOX_LIMIT → status_ok st → key_ok (o (S i) Key) →
  ∃ r' w1, delivered ms w w1 ∧
    run o i (dispatch_fuel fuel r) w = Some ((false, r'), (closing_section (o i Now) (o (S i) Key) st w1).2, S (S i)).
Proof.
  induction b as [b IH] using bytes_length_ind. intros p ms p' b' [|fuel] r i w Hr Hd Hs Hl Hw Hc Hst Hk; [lia|].
  destruct (next_msg_total sv mx p b) as (y & Hy).
  destruct (message_refines _ _ _ _ _ _ Hy Hs) as (r1 & z & Hm & Hpost).
  pose proof (next_msg_runs _ _ _ _ _ Hy) as Hruns. cbn [dispatch_fuel]. rewrite Hm.
  destruct y as [[[[m|] p1] b1]|e]; simpl in Hpost.
  - destruct Hpost as [-> Hs1], Hruns as [Hlt Hruns].
    destruct (runs_total sv mx p1 b1) as (ms1 & x1 & Hr1).
    destruct (runs_det _ _ _ _ _ _ _ _ Hr (Hruns _ _ Hr1)) as [Ems <-]. destruct ms as [|m' ms]; injection Ems as <- <-.
    + destruct (closing_replied (o i Now) (o (S i) Key) st f w Hw Hst Hk) as [Hmem [_ Hli _ _ _ _ _ _ _ _ _ _ _]].
      pose proof (se_listening _ _ Hw) as (Ho & _). exists r1, w. split; [by apply delivered_refl; destruct Hw|].
      unfold handle, self_id, closing. rewrite run_bind, run_bind, run_reads, (run_ask Now), (run_ask Key), run_locked by done.
      set (w' := (closing_section _ _ st w).2) in *. destruct (closing_section (o i Now) (o (S i) Key) st w).1.
      rewrite run_bind. unfold state_of. by rewrite run_locked by (by destruct Hli || done).
    + apply Forall_cons in Hd as [Hdm Hd]. change (m' :: ms) with ([m'] ++ ms) in Hc |- *. rewrite cost_app in Hc.
      pose proof (cost_nonneg ms). pose proof (settled_receiving _ _ Hw) as Hrec.
      destruct (handle_data o f m' i w Hrec Hdm) as (w1 & E1 & D1 & R1); [lia|].
      rewrite run_bind, E1, run_bind. unfold state_of. pose proof R1 as (L1 & M1 & F1 & _).
      rewrite run_locked by (by destruct L1 || done). cbn [fst snd].
      rewrite bool_decide_false by (by destruct L1 as (_ & _ & _ & ?)).
      destruct (IH b1 Hlt p1 ms p' b' fuel r1 i w1) as (r' & w2 & D2 & E2);
        [done|done|done|lia|by eapply delivered_settled|destruct D1; lia|done|done|].
      exists r', w2. split; [by eapply delivered_trans|]. by destruct m'.
  - destruct (runs_det _ _ _ _ _ _ _ _ Hr Hruns) as [E _]. by destruct ms.
  - by destruct (runs_det _ _ _ _ _ _ _ _ Hr Hruns) as [_ [=]].
Qed.

(** What is left of the reader once it waits for input after the close frame:
    given the end of the stream, it ends the connection with that status. *)
Definition ends_with (o : oracle) (j : nat) (q : method unit) (f' : Flags) : Prop :=
  ∀ w, flags w = f' → listening w → in_memory w = true → close_pending w = false →
  ∃ w', run o j q w = Some (tt, w', S (S j)) ∧ state (flags w') = Closed ∧ wire w' = wire w ∧
    map q_event (sent (events w')) =
      map q_event (sent (events w)) ++ [EvClose (id (cfg w)) (end_status f').1 (end_status f').2].
Lemma end_keeps_wire (o : oracle) i w w' j : run o i end_ w = Some (tt, w', j) → wire w' = wire w.
Proof.
  unfold end_, finish. rewrite run_bind. simpl. destruct (owner w); [done|]. destruct (in_memory w); [|done].
  simpl. destruct (owner w); [done|]. destruct (in_memory _); [|done]. unfold finish_section.
  destruct (bool_decide (state (flags w) = Closed)); simpl; [by intros [= <- _]|]. intros [= <- _]. simpl.
  unfold io_shutdown. simpl. by destruct (io w).
Qed.
Lemma run_flushed_tail (o : oracle) fuel l f' i w :
  ok l = false → deadline f' ≠ None → close_received f' ≠ None →
  flags w = f' → listening w → in_memory w = true → close_pending w = false →
  ∃ w', run o i (read_tail fuel l) w = Some (tt, w', i) ∧ state (flags w') = Closed ∧ wire w' = wire w ∧
    map q_event (sent (events w')) =
      map q_event (sent (events w)) ++ [EvClose (id (cfg w)) (end_status f').1 (end_status f').2].
Proof.
  intros Hok Hdl Hcr Hf (Ho & Hh & Hr & Hst) Hm Hp. unfold read_tail. rewrite Hok. change (Done () ≫= ?k) with (k ()). cbv beta.
  unfold flush_close. rewrite run_bind, run_bind, run_locked by done. cbn [fst snd]. rewrite Hf, bool_decide_false by done. cbn [andb].
  destruct (deadline f') as [d|]; [|done].
  assert (run o i (flush_wait fuel d) w = Some (tt, w, i)) as ->.
  { destruct fuel as [|fuel]; [done|]. cbn [flush_wait]. rewrite run_bind, run_reads, Hp. done. }
  destruct (run_end o i w) as (w' & E & Hcl & Ev); [done..|]. exists w'. split; [done|]. split; [done|].
  split; [by eapply end_keeps_wire|]. by rewrite Ev, Hf.
Qed.
Lemma turn_closes (o : oracle) f sv mx l p b ms st p' b' fuel i w :
  settled f w → holding sv mx l p b → runs sv mx p b (ms ++ [Close st]) (Ok (p', b')) →
  Forall (λ m, is_data m = true) ms → inbox w + cost ms < INBOX_LIMIT → status_ok st → key_ok (o (S i) Key) →
  let f' := replied_flags (o i Now) st f in in_time f' (o (S (S i)) Now) →
  o (S (S (S i))) Select = SelRead → o (S (S (S (S i)))) ReadIo = ReadOk [] →
  ∃ q w1, delivered ms w w1 ∧
    reaches o i (read_run (S fuel) l) w (S (S (S i))) q (closing_section (o i Now) (o (S i) Key) st w1).2 ∧
    ends_with o (S (S (S i))) q f'.
Proof.
  intros Hw [Hok Hs] Hr Hd Hc Hst Hk f' Htime Hsel Hread. pose proof (se_listening _ _ Hw) as (_ & Hh & _).
  assert (length b <= length (buf (rdr l)))%nat as Hb.
  { destruct Hs as (_ & _ & _ & _ & <-). unfold rest. rewrite length_drop. lia. }
  destruct (dispatch_close o f sv mx st b p ms p' b' (S (length (buf (rdr l)))) (rdr l) i w)
    as (r' & w1 & D & E); [done|done|done|lia|done|lia|done|done|].
  pose proof (delivered_settled _ _ _ _ Hw D) as Hw1.
  destruct (closing_replied (o i Now) (o (S i) Key) st f w1 Hw1 Hst Hk) as [Hm [_ Hl Hf _ _ _ _ _ _ _ _ _ _]].
  set (w2 := (closing_section _ _ st w1).2) in *. fold f' in Hf. pose proof Hl as (Ho2 & _ & _ & Hcl2).
  assert (∃ d, deadline f' = Some d) as [d Ed] by (unfold f', replied_flags, get_or_insert; simpl; destruct (deadline f); eauto).
  assert (∃ q, reaches o i (read_run (S fuel) l) w (S (S (S i))) q w2 ∧ ends_with o (S (S (S i))) q f') as (q & Hq & Hends);
    [|by exists q, w1].
  eexists. split.
  - cbn [read_run]. apply reaches_bind. unfold read_iter.
    eapply reaches_after; [apply run_reads|]. rewrite Hh, Hok. cbv iota beta.
    eapply reaches_after; [exact E|]. cbn [fst snd].
    eapply reaches_after; [by apply run_locked|]. cbn [fst snd]. rewrite Hf. apply reaches_ask. rewrite Ed.
    unfold in_time in Htime. rewrite Ed in Htime. change (state f') with Closing.
    destruct (Z.leb_spec d (o (S (S i)) Now)); [lia|]. rewrite bool_decide_false by done. cbn [orb].
    unfold wait_inbox. rewrite bool_decide_false by done. cbn [negb].
    change (Done ?x ≫= ?k) with (k x). cbv beta. change (Done ?x ≫= ?k) with (k x). cbv beta. cbn [negb].
    apply reaches_refl.
  - intros w3 F3 L3 M3 P3.
    rewrite run_bind, (run_ask Select), Hsel. unfold read_input. rewrite (run_ask ReadIo), Hread.
    change (run o ?i (Done ?x) ?w) with (Some (x, w, i)). cbv iota beta.
    apply run_flushed_tail; [done|by rewrite Ed|done..].
Qed.
(** The transport delivers the chunks [cs], the last of which completes the
    close frame, and then the end of the stream. *)
Fixpoint feeds_close (f : Flags) (st : option (Z * bytes)) (o : oracle) (i : nat) (cs : list bytes) : Prop :=
  match cs with
  | [] => in_time (replied_flags (o i Now) st f) (o (S (S i)) Now) ∧
          o (S (S (S i))) Select = SelRead ∧ o (S (S (S (S i)))) ReadIo = ReadOk []
  | c :: cs => in_time f (o i Now) ∧ o (S i) Select = SelRead ∧ o (S (S i)) ReadIo = ReadOk c ∧ c ≠ [] ∧
               feeds_close f st o (S (S (S (S i)))) cs
  end.
Lemma reader_closes (o : oracle) f sv mx st cs : (∀ i q, allowed q (o i q)) → status_ok st → ∀ fuel l p b ms i w,
  settled f w → holding sv mx l p b → runs sv mx p (b ++ concat cs) (ms ++ [Close st]) (Ok (None, [])) →
  Forall (λ m, is_data m = true) ms → inbox w + cost ms < INBOX_LIMIT → feeds_close f st o i cs → (length cs < fuel)%nat →
  ∃ j q w1 now key, delivered ms w w1 ∧ key_ok key ∧
    reaches o i (read_run fuel l) w j q (closing_section now key st w1).2 ∧ ends_with o j q (replied_flags now st f).
Proof.
  intros Ho Hst. induction cs as [|c cs IH]; intros [|fuel] l p b ms i w Hw Hh Hr Hd Hc Hf Hl; simpl in Hl; try lia.
  - destruct Hf as (Htime & Hsel & Hread). rewrite app_nil_r in Hr.
    destruct (turn_closes o f sv mx l p b ms st None [] fuel i w) as (q & w1 & D & Hq & He);
      [done..|apply (Ho (S i) Key)|done|done|done|]. exists (S (S (S i))), q, w1, (o i Now), (o (S i) Key).
    split_and!; [done|apply (Ho (S i) Key)|done|done].
  - destruct Hf as (Htime & Hsel & Hread & Hne & Hf). cbn [concat] in Hr.
    destruct (runs_split sv mx p b (c ++ concat cs) _ None [] Hr) as (ms1 & p1 & b1 & ms2 & Hr1 & Hr2 & Ems).
    destruct ms2 as [|m2 ms2 _] using rev_ind.
    { apply runs_silent in Hr2. by destruct b1, c. }
    rewrite app_assoc in Ems, Hr2. apply app_inj_tail in Ems as [-> <-]. apply Forall_app in Hd as [Hd1 Hd2].
    rewrite cost_app in Hc. pose proof (cost_nonneg ms2).
    destruct (run_chunk o f sv mx l p b ms1 p1 b1 c i w) as (l2 & w1 & E & Hh2 & D & R);
      [by apply settled_receiving|done..|lia|done|done|done|done|].
    destruct (IH fuel l2 p1 (b1 ++ c) ms2 (S (S (S (S i)))) w1) as (j & q & w2 & now & key & D2 & Hk & Hq & He);
      [by eapply delivered_settled|done|done|done|destruct D; lia|done|lia|].
    exists j, q, w2, now, key. split; [by eapply delivered_trans|]. split; [done|]. split; [|done].
    cbn [read_run]. by eapply reaches_after.
Qed.

(** ** One end *)
(** A schedule of one end: the reader runs until it waits after the close
    frame, the writer has its turn, which leads to [w2], and the reader goes on
    to the end of the connection, [w3]. *)
Inductive exchange (o : oracle) (chunk : Z) (i k : nat) (p : method unit) (w w2 w3 : World) : Prop :=
  exchange_intro j q w1 k' n :
    reaches o i p w j q w1 → run o k (writer_turn chunk) w1 = Some (Going, w2, k') → run o j q w2 = Some (tt, w3, n) →
    exchange o chunk i k p w w2 w3.
(** What the application got: the messages and one final event. *)
Definition got (ms : list Msg) (code : Z) (reason : bytes) (w w' : World) : Prop :=
  state (flags w') = Closed ∧
  map q_event (sent (events w')) =
    map q_event (sent (events w)) ++ map (message_event (id (cfg w))) ms ++ [EvClose (id (cfg w)) code reason].
Lemma end_exchanges (o : oracle) chunk f st ms first cs fuel i k w :
  (∀ i q, allowed q (o i q)) → flowing o → 0 < chunk → settled f w → status_ok st →
  runs (is_server (cfg w)) (max_message (cfg w)) None (first ++ concat cs) (ms ++ [Close st]) (Ok (None, [])) →
  Forall (λ m, is_data m = true) ms → inbox w + cost ms < INBOX_LIMIT →
  feeds_close f st o (S i) cs → (length cs < fuel)%nat →
  ∃ w2 w3 key, exchange o chunk i k (read_loop fuel first) w w2 w3 ∧ key_ok key ∧
    wire w2 = wire w ++ reply_bytes key st w ∧ got ms (default (1005, []) st).1 (default (1005, []) st).2 w w3.
Proof.
  intros Ho Hfl Hch Hw Hst Hr Hd Hc Hf Hl.
  destruct (push_refines _ _ _ _ _ first (shows_new (is_server (cfg w)) (max_message (cfg w)))) as (r & Er & Hs & _).
  set (l := {| rdr := r; ok := true; alive := {| seen := o i Now; ping := None |}; budget := 0 |}).
  destruct (reader_closes o f (is_server (cfg w)) (max_message (cfg w)) st cs Ho Hst fuel l None first ms (S i) w)
    as (j & q & w1 & now & key & D & Hk & Hq & He); [done..|].
  pose proof (delivered_settled _ _ _ _ Hw D) as Hw1. destruct D as [[D1 D2 D3 D4 D5 D6 D7 D8] _ D9].
  destruct (closing_replied now key st f w1 Hw1 Hst Hk) as [_ HR].
  destruct (writer_answers o chunk _ _ _ _ _ k Hfl Hch Hw1 HR) as (w2 & k' & Ew & [A1 A2 A3 A4 A5 A6 A7]).
  destruct HR as [_ _ R3 R4 R5 R6 _ _ _ _ _ _ _].
  destruct (He w2) as (w3 & E3 & Hcl & _ & Ev); [by rewrite A1|done|done|done|].
  exists w2, w3, key. split; [|split; [done|split; [|split; [done|]]]].
  - apply (exchange_intro _ _ _ _ _ _ _ _ j q (closing_section now key st w1).2 k' (S (S j))); [|done|done].
    unfold read_loop. eapply reaches_after; [apply run_reads|]. apply reaches_ask. by rewrite Er.
  - rewrite A6, R6, D7. f_equal. unfold reply_bytes, mask_of. by rewrite D4, D5.
  - rewrite Ev, A5, R5, D9, A4, R4, D5, <-app_assoc. unfold end_status, replied_flags. simpl. by destruct st as [[]|].
Qed.

(** ** The end that closes *)
Definition closing_flags (d : Z) : Flags :=
  {| state := Closing; sent_close := true; close_received := None; failed := None; deadline := Some d |}.
Lemma run_locked_bind {X A} (o : oracle) i (g : World → X * World) (k : X → method A) w :
  owner w = None → run o i (locked g ≫= k) w = if in_memory (g w).2 then run o i (k (g w).1) (g w).2 else None.
Proof. intros Ho. rewrite run_bind. simpl. rewrite Ho. by destruct (in_memory (g w).2), (g w). Qed.
Lemma conn_close_ok (o : oracle) i code reason w w' j mx :
  (∀ i q, allowed q (o i q)) → idle w → flags w = open_flags → bytes_ok reason → from_utf8 reason = Ok tt →
  run o i (conn_close code reason) w = Some (Ok tt, w', j) →
  msg_ok mx (Close (Some (code, reason))) ∧
  ∃ d key, Inv w' ∧ pushes (set_flags (closing_flags d) w) w' ∧ key_for (negb (is_server (cfg w))) key ∧
    pending_out w' = pending_out w ++ encode_msg (Close (Some (code, reason))) key.
Proof.
  intros Ho [I1 I2 I3 I4 I5 I6 I7] Hfl Hb Hu Hrun.
  pose proof (proj1 (safe_run Inv mono _ o _ anytime i w _ w' j Ho (ok_conn_close anytime code reason stable_anytime Hb Hu) I1 I Hrun)) as HI'.
  unfold conn_close in Hrun. destruct (valid_close_code code) eqn:Ev; [|done]. cbn [negb] in Hrun.
  destruct (Z.ltb_spec 123 (zlen reason)); [done|].
  assert (msg_ok mx (Close (Some (code, reason)))) as Hok by done. split; [done|].
  pose proof I2 as (Hown & _). unfold close in Hrun. rewrite run_bind, (run_ask Now), (run_ask Key), run_locked_bind in Hrun by done.
  unfold close_section in Hrun. rewrite I3 in Hrun. cbn [fst snd] in Hrun.
  set (now := o i Now) in *. set (key := o (S i) Key) in *.
  set (w1 := on_flags _ w) in Hrun. assert (w1 = set_flags (closing_flags (now + CLOSE_TIMEOUT)) w) as Ew1.
  { unfold w1, on_flags. by rewrite Hfl. }
  rewrite Ew1 in Hrun. clear w1 Ew1. set (w1 := set_flags (closing_flags (now + CLOSE_TIMEOUT)) w) in *.
  assert (zlen (close_payload code reason) <= MAX_PAYLOAD) as Hl by (rewrite zlen_close_payload; unfold MAX_PAYLOAD; lia).
  pose proof (push_frame_idle key CLOSE (close_payload code reason) w1 Hl) as HP.
  pose proof (push_frame_pushed key CLOSE (close_payload code reason) w1 Hl) as Hp.
  set (w2 := push_frame key CLOSE (close_payload code reason) w1) in *.
  destruct (in_memory w2) eqn:Hm; [|done]. cbv iota beta in Hrun. simpl in Hrun. injection Hrun as <- _.
  exists (now + CLOSE_TIMEOUT), (mask_of w key). split; [done|]. split; [by destruct HP|]. split.
  - unfold mask_of. destruct (is_server (cfg w)); simpl; [done|]. split; [done|]. apply (Ho (S i) Key).
  - unfold pushed in Hp. destruct I1 as (_ & _ & (_ & _ & _ & F4 & F5 & _) & _).
    rewrite bool_decide_false in Hp by (apply F4; by left).
    assert (done (queue w) = false) as Hd by (destruct (done (queue w)); [by rewrite F5 in I3|done]).
    change (done (queue w1)) with (done (queue w)) in Hp. rewrite Hd in Hp. cbn [orb] in Hp. destruct Hp as (its & -> & Eits).
    unfold pending_out. simpl. by rewrite Eits, !app_assoc.
Qed.

(** A batch brings a connection to rest. *)
Lemma batch_settles (o : oracle) chunk f i w :
  (∀ i q, allowed q (o i q)) → flowing o → 0 < chunk → Inv w → listening w → flags w = f → expects f →
  state f = Open ∨ state f = Closing → pong (queue w) = None → items (queue w) ≠ [] → batch (wtr w) = [] →
  current (wtr w) = [] → unacked (wtr w) = 0 → shutdown (queue w) = false → drain (queue w) = None → 0 <= inbox w →
  ∃ w' j, run o i (write_pending 1 chunk 0) w = Some (Going, w', j) ∧ settled f w' ∧
    wire w' = wire w ++ items_bytes (items (queue w)) ∧ events w' = events w ∧ cfg w' = cfg w ∧ inbox w' = inbox w.
Proof.
  intros Ho Hfl Hch HI Hl Hf He Hb Hp Hi Eb Ec Hu Hsh Hdr Hin.
  assert (done (queue w) = false) as Hd.
  { destruct HI as (_ & _ & (_ & _ & _ & _ & F5 & _) & _). destruct (done (queue w)); [|done].
    specialize (F5 eq_refl). rewrite Hf in F5. by destruct Hb as [E|E]; rewrite E in F5. }
  destruct (run_batch_flushes o chunk 0 i w) as (w' & j & E & [F1 F2 F3 F4 F5 F6 F7 F8 F9 F10 F11] & C1 & C2 & [C3 _] & _); [done..|].
  simpl in F1, F2, F3, F4, F5, F6, F8, F9, F10, F11. destruct (F11 Hdr) as [F12 F13]. exists w', j. split; [done|]. split; [|done].
  pose proof (proj1 (safe_run Inv mono _ o _ anytime i w _ w' j Ho (ok_write_pending anytime 1 chunk 0 stable_anytime) HI I E)) as HI'.
  split; try done; [congruence|congruence| |lia]. destruct (shutdown (queue w')) eqn:Es; [|done]. by rewrite F10 in Hsh.
Qed.
Definition send_and_close (tid : nat) (ds : list (bytes * bool)) (code : Z) (reason : bytes) : method bool :=
  ok ← send_all tid ds;
  if (ok : bool) then r ← conn_close code reason; Done (match r with Ok _ => true | Err _ => false end) else Done false.
Lemma close_sent (o : oracle) chunk mx tid ds code reason i w w1 i1 :
  (∀ i q, allowed q (o i q)) → flowing o → 0 < chunk → settled open_flags w → Forall (within mx) ds →
  bytes_ok reason → from_utf8 reason = Ok tt → run o i (send_and_close tid ds code reason) w = Some (true, w1, i1) →
  ∃ w2 j d fs, run o i1 (write_pending 1 chunk 0) w1 = Some (Going, w2, j) ∧ settled (closing_flags d) w2 ∧
    wire w2 = wire w ++ frames_bytes fs ∧ map fst fs = map data_msg ds ++ [Close (Some (code, reason))] ∧
    Forall (λ mk, msg_ok mx mk.1 ∧ key_for (negb (is_server (cfg w))) mk.2) fs ∧
    events w2 = events w ∧ cfg w2 = cfg w ∧ inbox w2 = inbox w.
Proof.
  intros Ho Hfl Hch Hs Hds Hb Hu Hrun. pose proof Hs as [I1 I2 I3 _ _ I5 I6 I7 I8 I9 I10 I11 I12].
  assert (idle w) as Hid by (split; try done; by rewrite I3).
  unfold send_and_close in Hrun. rewrite run_bind in Hrun.
  destruct (run o i (send_all tid ds) w) as [[[[] wa] ia]|] eqn:E1; [|done|done].
  destruct (send_all_ok o mx tid ds i w wa ia Ho Hid Hds E1) as (Hida & HPa & fs & Ef & Hfs & Epa).
  rewrite run_bind in Hrun. destruct (run o ia (conn_close code reason) wa) as [[[[[]|e] wb] ib]|] eqn:E2; [|done|done].
  injection Hrun as <- <-.
  destruct (conn_close_ok o ia code reason wa wb ib mx Ho Hida) as (Hok & d & key & HIb & HPb & Hk & Epb);
    [by rewrite (pu_flags _ _ HPa)|done|done|done|].
  assert (listening wa) as Hla by (by destruct Hida).
  destruct HPb as [P1 P2 P3 P4 P5 P6 P7 P8 P9 P10], HPa as [A1 A2 A3 A4 A5 A6 A7 A8 A9 A10].
  simpl in P1, P2, P3, P4, P5, P6, P7, P8, P9, P10.
  assert (items_bytes (items (queue wb)) = frames_bytes (fs ++ [(Close (Some (code, reason)), key)])) as Eit.
  { rewrite frames_bytes_app, frames_bytes_one. unfold pending_out in Epa, Epb. rewrite P1, A1, I7, I8 in Epb.
    rewrite A1, I6, I7, I8 in Epa. simpl in Epa, Epb. by rewrite Epb, Epa. }
  destruct (batch_settles o chunk (closing_flags d) ib wb) as (w2 & j & E & Hw2 & Hw & Hev & Hc & Hin);
    try congruence; try done; try (by right).
  - split_and!; [by rewrite P10; destruct Hla|by rewrite P8; destruct Hla as (_ & ? & _)|by rewrite P8; destruct Hla as (_ & _ & ? & _)|by rewrite P9].
  - intros Ei. rewrite Ei, frames_bytes_app, frames_bytes_one in Eit. symmetry in Eit. apply app_nil in Eit as [_ Eit].
    by apply encode_nonempty in Eit.
  - exists w2, j, d, (fs ++ [(Close (Some (code, reason)), key)]). split; [done|]. split; [done|].
    split; [rewrite Hw, Eit; congruence|]. split; [by rewrite map_app, Ef|]. split; [|split_and!; congruence].
    apply Forall_app. split; [done|]. apply Forall_cons. split; [|by apply Forall_nil]. split; [done|]. by rewrite <-A3.
Qed.

(** C26: The closing handshake completes at both ends.  One application sends
    messages and closes with a code and a reason; the other end's application
    gets the messages and then exactly that code and reason, its connection
    having answered with one close frame carrying the code; the first end,
    which receives that answer, sends nothing more and reports the code.  This
    is for both roles, however the transport cuts the bytes, when each writer
    gets a turn while its reader waits and before the closing deadline, the
    readers get every chunk, and what waits for the applications stays under the
    1 MiB of [INBOX_LIMIT]. *)
Theorem closing_handshake (oA oB : oracle) chunk tid ds code reason i wA wA1 i1 wB :
  (∀ i q, allowed q (oA i q)) → (∀ i q, allowed q (oB i q)) → flowing oA → flowing oB → 0 < chunk →
  settled open_flags wA → settled open_flags wB → is_server (cfg wB) = negb (is_server (cfg wA)) →
  Forall (within (max_message (cfg wB))) ds → bytes_ok reason → from_utf8 reason = Ok tt →
  inbox wA < INBOX_LIMIT → inbox wB + cost (map data_msg ds) < INBOX_LIMIT →
  run oA i (send_and_close tid ds code reason) wA = Some (true, wA1, i1) →
  ∃ wA2 i2 request, run oA i1 (write_pending 1 chunk 0) wA1 = Some (Going, wA2, i2) ∧ wire wA2 = wire wA ++ request ∧
    ∀ first cs fuel j k, first ++ concat cs = request →
      feeds_close open_flags (Some (code, reason)) oB (S j) cs → (length cs < fuel)%nat →
      ∃ wB2 wB3 reply, exchange oB chunk j k (read_loop fuel first) wB wB2 wB3 ∧ wire wB2 = wire wB ++ reply ∧
        got (map data_msg ds) code reason wB wB3 ∧
        ∀ first' cs' fuel' j' k', first' ++ concat cs' = reply →
          feeds_close (flags wA2) (Some (code, [])) oA (S j') cs' → (length cs' < fuel')%nat →
          ∃ wA3 wA4, exchange oA chunk j' k' (read_loop fuel' first') wA2 wA3 wA4 ∧ wire wA3 = wire wA2 ∧
            got [] code [] wA wA4.
Proof.
  intros HoA HoB HfA HfB Hch HsA HsB Hrole Hds Hb Hu HinA HinB Hrun.
  destruct (close_sent oA chunk (max_message (cfg wB)) tid ds code reason i wA wA1 i1) as
    (wA2 & i2 & d & fs & E & Hs2 & Hw & Ef & Hfs & Ev & Ec & Ein); [done..|].
  assert (msg_ok MAX_PAYLOAD (Close (Some (code, reason)))) as Hok.
  { assert (Close (Some (code, reason)) ∈ map fst fs) as (mk & Emk & Hin)%list_elem_of_fmap
      by (rewrite Ef; apply elem_of_app; right; by left).
    rewrite Forall_forall in Hfs. destruct (Hfs _ Hin) as [Hm _]. by rewrite <-Emk in Hm. }
  exists wA2, i2, (frames_bytes fs). split; [done|]. split; [done|]. intros first cs fuel j k Hcut Hfeed Hl.
  destruct (end_exchanges oB chunk open_flags (Some (code, reason)) (map data_msg ds) first cs fuel j k wB)
    as (wB2 & wB3 & key & Hex & Hk & Hwire & Hgot); try done.
  { rewrite Hcut, <-Ef. apply runs_encode. by rewrite Hrole. }
  { apply Forall_map, Forall_true. by intros [? []]. }
  set (reply := reply_bytes key (Some (code, reason)) wB) in *. exists wB2, wB3, reply. split_and!; try done.
  intros first' cs' fuel' j' k' Hcut' Hfeed' Hl'. rewrite (se_flags _ _ Hs2) in Hfeed'.
  assert (msg_ok (max_message (cfg wA2)) (Close (Some (code, [])))) as Hok'.
  { destruct Hok as (_ & Hv & _). by split_and!. }
  destruct (end_exchanges oA chunk (closing_flags d) (Some (code, [])) [] first' cs' fuel' j' k' wA2)
    as (wA3 & wA4 & key' & Hex' & _ & Hwire' & Hst & Hgot'); try done.
  - rewrite Hcut'. assert (reply = frames_bytes [(Close (Some (code, [])), mask_of wB key)]) as ->.
    { unfold reply, reply_bytes. by rewrite (se_flags _ _ HsB), frames_bytes_one. }
    apply (runs_encode _ _ [(Close (Some (code, [])), mask_of wB key)]). apply Forall_cons. split; [|by apply Forall_nil].
    split; [done|]. unfold mask_of. rewrite Ec, Hrole. by destruct (is_server (cfg wA)).
  - unfold cost. simpl. lia.
  - exists wA3, wA4. split; [done|]. split.
    + rewrite Hwire'. unfold reply_bytes. rewrite (se_flags _ _ Hs2). simpl. by rewrite app_nil_r.
    + split; [done|]. by rewrite Hgot', Ev, Ec.
Qed.
End Closing.
