(* ===== verification/LinkWitness.v ===== *)
(** * The connection's theorems on a concrete session

    A server-side connection is started, sends, is closed by the application
    and flushed; the theorems about all states are applied to the states of
    that session. *)

From S2P Require Import Prelude Utf8 Str Frame Reader Stream ReaderSim Messages Events Prog Link LinkInv LinkSafe Conn LinkProps LinkFun Flush Replies Delivery Closing.

#[local] Instance le : Target := LittleEndian.

(** ** The environment and the session *)
Definition conf : Config :=
  {| id := 7; is_server := true; max_message := 1000; buffer := 100; interval := Some (30 * SECOND);
     token := bs "12345678"; born := 0 |}.
Definition calm : oracle := λ _ q,
  match q return answer q with
  | Now => 1000 | Key => (1, 2, 3, 4) | Select => SelReady | ReadIo => ReadOk []
  | WriteIo n => IoOk (Z.max 0 (Z.min n 3)) | FlushIo => IoOk tt | ShutdownIo => IoOk tt
  end.
(** A transport that takes everything, for the writer on its own. *)
Lemma calm_flowing : flowing calm.
Proof.
  split; [|done]. intros j len Hl. exists (Z.max 0 (Z.min len 3)). split; [done|]. lia.
Qed.
(** Answers within what the environment may give. *)
Definition fair : oracle := λ i q,
  match q return answer q with WriteIo n => if 0 <=? n then calm i (WriteIo n) else IoFailed | q => calm i q end.
Lemma fair_allowed i q : allowed q (fair i q).
Proof.
  destruct q as [| | | |len| |]; simpl; try done.
  - unfold key_ok, key_bytes. by_decide.
  - destruct (Z.leb_spec 0 len); [lia|done].
Qed.

Definition after (p : method unit) (w : World) : World :=
  match run fair 0 p w with Some (_, w', _) => w' | None => w end.
Definition ran (p : method unit) (w : World) : bool :=
  match run fair 0 p w with Some (tt, _, _) => true | None => false end.
Lemma reach_after c e ts w p :
  reach c e ts w → starts w p → ran p w = true → reach c e (Done tt :: ts) (after p w).
Proof.
  intros Hr Hs Hp. unfold ran, after in *. destruct (run fair 0 p w) as [[[[] w'] j]|] eqn:E; [|done].
  unfold reach, steps in *. etrans; [exact Hr|]. eapply rtc_l; [by apply step_spawn|].
  eapply run_steps; [apply fair_allowed|exact E].
Qed.

Definition w_new : World := link_new conf events_from.
Definition p_open : method unit := ignore (start [] (Some (bs "chat")) (EvOpen 7)).
Definition w_open : World := after p_open w_new.
Definition p_send : method unit := ignore (conn_send 1 (bs "hi") false).
Definition w_sent : World := after p_send w_open.
Definition p_close : method unit := ignore (conn_close 1000 (bs "bye")).
Definition w_closing : World := after p_close w_sent.
Definition p_write : method unit := write_loop 1 64.
Definition w_flushed : World := after p_write w_closing.
Definition w_closed : World := after conn_terminate w_flushed.

Lemma fresh_conf : fresh conf events_from.
Proof. split; [by_decide|done]. Qed.
Lemma reach_open : ∃ ts, reach conf events_from ts w_open.
Proof.
  eexists. apply (reach_after conf events_from [] w_new p_open); [apply rtc_refl|by apply starts_start|vm_compute; reflexivity].
Qed.
Lemma reach_sent : ∃ ts, reach conf events_from ts w_sent.
Proof.
  destruct reach_open as [ts Hr]. eexists. apply (reach_after _ _ ts w_open p_send); [done| |vm_compute; reflexivity].
  apply starts_send; [by_decide|by vm_compute].
Qed.
Lemma reach_closing : ∃ ts, reach conf events_from ts w_closing.
Proof.
  destruct reach_sent as [ts Hr]. eexists. apply (reach_after _ _ ts w_sent p_close); [done| |vm_compute; reflexivity].
  apply starts_close; [by_decide|by vm_compute].
Qed.
Lemma reach_flushed : ∃ ts, reach conf events_from ts w_flushed.
Proof.
  destruct reach_closing as [ts Hr]. eexists. apply (reach_after _ _ ts w_closing p_write); [done| |vm_compute; reflexivity].
  apply starts_write. by vm_compute.
Qed.
Lemma reach_closed : ∃ ts, reach conf events_from ts w_closed.
Proof.
  destruct reach_flushed as [ts Hr]. eexists.
  apply (reach_after _ _ ts w_flushed conn_terminate); [done|apply starts_terminate|vm_compute; reflexivity].
Qed.
Lemma Inv_open : Inv w_open.
Proof. destruct reach_open as [ts Hr]. by destruct (reach_Inv _ _ _ _ fresh_conf Hr). Qed.
Lemma Inv_sent : Inv w_sent.
Proof. destruct reach_sent as [ts Hr]. by destruct (reach_Inv _ _ _ _ fresh_conf Hr). Qed.

(** ** Witnesses *)
Lemma close_event_final_witness :
  map q_event (sent (events w_closed)) = [EvOpen 7; EvClose 7 1006 []] ∧ close_last (sent (events w_closed)).
Proof.
  split; [vm_compute; reflexivity|]. destruct reach_closed as [ts Hr].
  exact (proj1 (close_event_final conf events_from ts w_closed fresh_conf Hr)).
Defined.
Lemma wire_legal_witness :
  wire w_flushed = [129; 2; 104; 105; 136; 5; 3; 232; 98; 121; 101] ∧
  ∃ fs, close_discipline (sent_close (flags w_flushed)) fs ∧ wire w_flushed `prefix_of` frames_bytes fs.
Proof.
  split; [vm_compute; reflexivity|]. destruct reach_flushed as [ts Hr].
  destruct (wire_legal conf events_from ts w_flushed fresh_conf Hr) as (fs & _ & Hd & Hp & _).
  exists fs. split; [exact Hd|exact Hp].
Defined.
Lemma buffered_exact_witness : buffered w_sent = 4 ∧ buffered w_sent = outstanding w_sent.
Proof.
  split; [vm_compute; reflexivity|]. destruct reach_sent as [ts Hr].
  apply (buffered_exact conf events_from ts w_sent fresh_conf Hr). vm_compute. reflexivity.
Defined.
Lemma connection_monotone_witness : rank (state (flags w_new)) <= rank (state (flags w_closed)).
Proof.
  destruct reach_closed as [ts Hr].
  exact (proj1 (connection_monotone conf events_from [] w_new ts w_closed fresh_conf (rtc_refl _ _) Hr)).
Defined.
Lemma closing_bounded_witness :
  deadline (flags w_closing) = Some (1000 + CLOSE_TIMEOUT) ∧
  ∃ pre st k post, wire w_closing ++ pending_out w_closing = frames_bytes pre ++ encode_msg (Close st) k ++ frames_bytes post.
Proof.
  split; [vm_compute; reflexivity|]. destruct reach_closing as [ts Hr].
  destruct (closing_bounded conf events_from ts w_closing fresh_conf Hr) as (Hc & _).
  destruct Hc as (_ & _ & _ & pre & st & k & post & E & _); [vm_compute; reflexivity|].
  by exists pre, st, k, post.
Defined.
Lemma send_outcome_witness :
  ∃ w', run calm 0 (send 1 TEXT (bs "hi")) w_open = Some (Ok tt, w', 1%nat) ∧
    queued_frame (encode TEXT (bs "hi") (mask_of w_open (1, 2, 3, 4))) w_open w'.
Proof.
  apply (send_outcome calm 0 1 TEXT (bs "hi") w_open); [exact Inv_open|vm_compute; reflexivity|by vm_compute|vm_compute; reflexivity..].
Defined.
Lemma end_status_reported_witness :
  ∃ w', run calm 0 end_ w_open = Some (tt, w', 0%nat) ∧ state (flags w') = Closed.
Proof.
  destruct (end_status_reported calm 0 w_open) as (w' & E & Hs & _);
    [exact Inv_open|vm_compute; reflexivity|by vm_compute|vm_compute; reflexivity..|].
  exists w'. split; [exact E|exact Hs].
Defined.
Definition alive0 : Alive := {| seen := 0; ping := None |}.
Lemma heartbeat_timely_witness : heartbeat_deadline w_open alive0 = Some (30 * SECOND).
Proof.
  destruct (heartbeat_timely calm 0 alive0 w_open (30 * SECOND)) as (d & Hd & _);
    [exact Inv_open|vm_compute; reflexivity|vm_compute; reflexivity|vm_compute; reflexivity|by vm_compute|by vm_compute|vm_compute; reflexivity|].
  rewrite Hd. vm_compute in Hd. injection Hd as <-. vm_compute. reflexivity.
Defined.
(** A message is queued and a pong was deferred. *)
Definition w_behind : World := on_queue (set_pong (Some [1; 2])) w_sent.
Lemma Inv_behind : Inv w_behind.
Proof.
  destruct Inv_sent as (Ho & He & Hf & Hd1 & Hd2 & _). split; [exact Ho|]. split; [exact He|]. split; [exact Hf|].
  split; [exact Hd1|]. split; [exact Hd2|]. intros d [= <-]. split; [by_decide|by vm_compute].
Qed.
Lemma writer_drains_witness :
  ∃ w' j, run calm 0 (write_pending 2 64 0) w_behind = Some (Going, w', j) ∧
    wire w' = wire w_sent ++ items_bytes (items (queue w_sent)) ++ encode PONG [1; 2] (mask_of w_sent (calm 0%nat Key)) ∧
    buffered w' = 0.
Proof.
  destruct (writer_drains calm 64 0 0 w_behind) as (w' & j & E & Hw & _ & Hb & _);
    [exact calm_flowing|lia|exact Inv_behind|repeat split; vm_compute; discriminate || reflexivity|by vm_compute|
     vm_compute; reflexivity|left; by vm_compute|vm_compute; reflexivity..|by vm_compute|].
  exists w', j. split; [exact E|]. split; [exact Hw|exact Hb].
Defined.
Lemma inbox_balances_witness :
  ∃ w', run calm 0 (_ ← deliver 2 (EvPong 7 [1; 2]); consumed 2) w_open = Some (tt, w', 0%nat) ∧ inbox w' = inbox w_open.
Proof.
  destruct (inbox_balances calm 2 (EvPong 7 [1; 2]) 0 w_open) as [(w' & E & Hi & _) _];
    [repeat split; vm_compute; discriminate || reflexivity|vm_compute; reflexivity|reflexivity|vm_compute; reflexivity|by vm_compute|].
  exists w'. split; [exact E|exact Hi].
Defined.
Lemma close_echoed_witness :
  ∃ w1 w2, run calm 0 (handle (Close (Some (1001, bs "away")))) w_open = Some (tt, w1, 2%nat) ∧
    state (flags w1) = Closing ∧ run calm 2 end_ w1 = Some (tt, w2, 2%nat).
Proof.
  destruct (close_echoed calm (Some (1001, bs "away")) 0 w_open) as (w1 & w2 & E1 & Hs & _ & _ & _ & E2 & _);
    [exact Inv_open|repeat split; vm_compute; discriminate || reflexivity|vm_compute; reflexivity|
     split; [by_decide|by vm_compute]|vm_compute; reflexivity|].
  exists w1, w2. split; [exact E1|]. split; [exact Hs|exact E2].
Defined.

(** Two messages for a client whose transport delivers them in three pieces. *)
Definition client_conf : Config :=
  {| id := 3; is_server := false; max_message := 1000; buffer := 100; interval := None; token := bs "87654321"; born := 0 |}.
Definition w_client : World := after (ignore (start [] None (EvOpen 3))) (link_new client_conf events_from).
Definition pieces : oracle := λ i q,
  match q return answer q with
  | Select => SelRead
  | ReadIo => match i with 3%nat => ReadOk [104; 105; 130] | 7%nat => ReadOk [2; 1; 2] | _ => ReadOk [] end
  | q => calm i q
  end.
Lemma fair_flowing : flowing fair.
Proof.
  split; [|done]. intros j len Hl. exists (Z.max 0 (Z.min len 3)). simpl. destruct (Z.leb_spec 0 len); [|lia]. split; [done|lia].
Qed.
Definition two : list (bytes * bool) := [(bs "hi", false); ([1; 2], true)].
Definition w_two : World := after (ignore (send_all 1 two)) w_open.
Lemma messages_delivered_witness :
  ∃ wB k, run pieces 0 (read_loop 3 [129; 2]) w_client = Some (tt, wB, k) ∧
    map q_event (sent (events wB)) = [EvOpen 3; EvMessage 3 (bs "hi") false; EvMessage 3 [1; 2] true; EvClose 3 1006 []].
Proof.
  destruct (messages_delivered fair pieces 64 1 two 0 w_open w_two 2 w_client) as (wA2 & i2 & d & E & _ & Hd & Hgo).
  - exact fair_allowed.
  - exact fair_flowing.
  - lia.
  - split; [exact Inv_open|repeat split; vm_compute; discriminate || reflexivity|vm_compute; reflexivity..].
  - vm_compute. reflexivity.
  - discriminate.
  - repeat (constructor; [split; [by_decide|by vm_compute]|]). constructor.
  - repeat split; by vm_compute.
  - vm_compute. reflexivity.
  - by vm_compute.
  - vm_compute. reflexivity.
  - assert (d = [129; 2; 104; 105; 130; 2; 1; 2]) as ->.
    { vm_compute in E. injection E as <- <-. vm_compute in Hd. by rewrite Hd. }
    destruct (Hgo [129; 2] [[104; 105; 130]; [2; 1; 2]] 3%nat 0%nat) as (wB & k & EB & _ & Ev);
      [reflexivity|repeat split; discriminate|simpl; lia|].
    exists wB, k. split; [exact EB|]. rewrite Ev. vm_compute. reflexivity.
Defined.

(** The server says "hi" and "bye"; the client gets both in three pieces and
    answers. *)
Definition talk (cs : nat → bytes) : oracle := λ i q,
  match q return answer q with Select => SelRead | ReadIo => ReadOk (cs i) | q => fair i q end.
Lemma talk_allowed cs : (∀ i, bytes_ok (cs i) ∧ zlen (cs i) <= READ_CHUNK) → ∀ i q, allowed q (talk cs i q).
Proof. intros Hcs i q. pose proof (fair_allowed i q) as Hf. destruct q; exact Hf || apply Hcs. Qed.
Lemma talk_flowing cs : flowing (talk cs).
Proof. exact fair_flowing. Qed.
Definition said (i : nat) : bytes := match i with 3%nat => [105; 136; 5; 3] | 7%nat => [232; 98; 121; 101] | _ => [] end.
Lemma said_ok i : bytes_ok (said i) ∧ zlen (said i) <= READ_CHUNK.
Proof. do 8 (destruct i as [|i]; [split; [by_decide|by vm_compute]|]). split; [by_decide|by vm_compute]. Qed.
Lemma settled_open : settled open_flags w_open.
Proof.
  split; [exact Inv_open|repeat split; by vm_compute|vm_compute; reflexivity|done|by left|vm_compute; reflexivity..|by vm_compute].
Qed.
Lemma Inv_client : Inv w_client.
Proof.
  assert (reach client_conf events_from [Done tt] w_client) as Hr.
  { apply (reach_after client_conf events_from [] (link_new client_conf events_from) (ignore (start [] None (EvOpen 3))));
      [apply rtc_refl|by apply starts_start|vm_compute; reflexivity]. }
  assert (fresh client_conf events_from) as Hf by (split; [by_decide|done]). by destruct (reach_Inv _ _ _ _ Hf Hr).
Qed.
Lemma settled_client : settled open_flags w_client.
Proof.
  split; [exact Inv_client|repeat split; by vm_compute|vm_compute; reflexivity|done|by left|vm_compute; reflexivity..|by vm_compute].
Qed.
Definition hi : list (bytes * bool) := [(bs "hi", false)].
Definition silent : oracle := talk (λ _, []).
Definition w_bye : World :=
  match run silent 0 (send_and_close 1 hi 1000 (bs "bye")) w_open with Some (_, w, _) => w | None => w_open end.
Lemma closing_handshake_witness :
  ∃ wB wA, map q_event (sent (events wB)) = [EvOpen 3; EvMessage 3 (bs "hi") false; EvClose 3 1000 (bs "bye")] ∧
    map q_event (sent (events wA)) = [EvOpen 7; EvClose 7 1000 []].
Proof.
  destruct (closing_handshake silent (talk said) 64 1 hi 1000 (bs "bye") 0 w_open w_bye 3 w_client)
    as (wA2 & i2 & d & E & Hd & Hgo).
  - apply talk_allowed. intros i. split; [by_decide|by vm_compute].
  - exact (talk_allowed said said_ok).
  - apply talk_flowing.
  - apply talk_flowing.
  - lia.
  - exact settled_open.
  - exact settled_client.
  - vm_compute. reflexivity.
  - constructor; [split; [by_decide|by vm_compute]|constructor].
  - by_decide.
  - vm_compute. reflexivity.
  - by vm_compute.
  - by vm_compute.
  - vm_compute. reflexivity.
  - vm_compute in E. injection E as <- <-.
    assert (d = [129; 2; 104; 105; 136; 5; 3; 232; 98; 121; 101]) as -> by (vm_compute in Hd; by rewrite Hd).
    destruct (Hgo [129; 2; 104] [[105; 136; 5; 3]; [232; 98; 121; 101]] 3%nat 0%nat 0%nat) as (wB2 & wB & reply & _ & _ & [_ EB] & Hgo2);
      [reflexivity|repeat split; by vm_compute|simpl; lia|].
    destruct (Hgo2 reply [] 1%nat 100%nat 0%nat) as (wA3 & wA & _ & _ & _ & EA);
      [apply app_nil_r|repeat split; by vm_compute|simpl; lia|].
    exists wB, wA. rewrite EB, EA. split; vm_compute; reflexivity.
Defined.

(** A state with a megabyte waiting. *)
Lemma long_payload : ∃ d, bytes_ok d ∧ zlen d = PONG_LIMIT.
Proof.
  exists (replicate (Z.to_nat PONG_LIMIT) 0). split.
  - apply Forall_replicate. unfold is_byte. lia.
  - unfold zlen. rewrite length_replicate, Z2Nat.id; [done|]. unfold PONG_LIMIT. rewrite Z.shiftl_mul_pow2; lia.
Qed.
Lemma congested : ∃ w, Inv w ∧ listening w ∧ state (flags w) = Open ∧ may_pong (flags w) = true ∧
  PONG_LIMIT <= buffered w ∧ done (queue w) = false ∧ outstanding w <= PONG_LIMIT + 100.
Proof.
  destruct long_payload as (d & Hd & Hl). pose proof Inv_open as HI. set (key := (1, 2, 3, 4) : key4).
  assert (key_ok key) as Hk by by_decide.
  assert (PONG_LIMIT = 1048576) as EP by (vm_compute; reflexivity). rewrite EP in *.
  assert (zlen d <= MAX_PAYLOAD) as Hmx by (unfold MAX_PAYLOAD; lia).
  pose proof (push_frame_pushed key BINARY d w_open Hmx) as Hp.
  set (w := push_frame key BINARY d w_open) in *. set (f := encode BINARY d (mask_of w_open key)) in *.
  assert (zlen f = zlen d + 10) as Ef.
  { unfold f. rewrite encode_length by lia. rewrite Hl. vm_compute. reflexivity. }
  assert (outstanding w_open = 0) as E0 by (vm_compute; reflexivity).
  assert (outstanding w = zlen f) as Eo.
  { pose proof Hp as Hp'. unfold pushed in Hp'. change (bool_decide (io w_open = None) || done (queue w_open)) with false in Hp'.
    destruct Hp' as (its & -> & Eits). rewrite (outstanding_app _ _ _ _ Eits), E0. lia. }
  assert (in_memory w = true) as Hm by (unfold in_memory, USIZE_MAX; rewrite Eo; lia).
  assert (state (flags w_open) = Open) as Hs by (vm_compute; reflexivity).
  destruct (push_msg_Inv key BINARY d (Binary d) w_open HI Hm Hk) as [HIw _]; [done|done| | |].
  { unfold msg_ok, MAX_PAYLOAD. lia || (split; [done|]; lia). }
  { assert (sent_close (flags w_open) = false) as -> by (vm_compute; reflexivity). done. }
  destruct (pushed_quiet _ _ _ Hp) as [_ Qf _ Qo Qe _ _ Qd _]. fold w in HIw. exists w.
  assert (done (queue w_open) = false) as Hdn by (vm_compute; reflexivity).
  split; [done|]. unfold listening. rewrite Qf, Qo, Qe, Qd.
  split; [repeat split; vm_compute; discriminate || reflexivity|]. split; [done|]. split; [vm_compute; reflexivity|].
  destruct HIw as [(_ & Hb & _) _]. rewrite Eo in *. split; [lia|]. split; [done|lia].
Qed.
Lemma pong_coalesced_witness :
  ∃ w w', PONG_LIMIT <= buffered w ∧
    run calm 0 (_ ← handle (Ping [1]); _ ← handle (Ping [2]); flush_pong) w = Some (tt, w', 3%nat) ∧ pong (queue w') = None.
Proof.
  destruct congested as (w & HI & Hl & Hs & Hp & Hb & Hd & Ho).
  assert (zlen (encode PONG [2] (mask_of w (1, 2, 3, 4))) <= 100) as Hlen.
  { rewrite encode_length by (by vm_compute). by destruct (bool_decide _). }
  destruct (pong_coalesced calm [1] [2] 0 w HI Hl Hs Hp Hb Hd) as (w' & E & _ & Hn & _).
  - by_decide.
  - by vm_compute.
  - unfold USIZE_MAX. assert (PONG_LIMIT = 1048576) by (vm_compute; reflexivity).
    change (calm 2%nat Key) with ((1, 2, 3, 4) : key4). lia.
  - exists w, w'. split; [exact Hb|]. split; [exact E|exact Hn].
Defined.
