(* ===== verification/Wait.v ===== *)
(** * Waiting: the cancellation signal and the reusable timer
      (core/src/signal.rs, core/src/net/timer.rs)

    Both are futures over objects of tokio, which appear here as classes: what
    the code calls, and what tokio documents of it. *)

From S2P Require Import Prelude.

Inductive poll := Ready | Pending.
#[export] Instance poll_eq_dec : EqDecision poll.
Proof. solve_decision. Defined.

(** ** Wakers

    [will_wake] may miss that two wakers wake the same task, but is never
    wrong when it says so. *)
Class Wakers := {
  Waker : Type;
  Task : Type;
  task : Waker → Task;
  will_wake : Waker → Waker → bool;
  will_wake_task a b : will_wake a b = true → task a = task b
}.
(** A [Notified] future that was enabled, and the [Notify] it waits for:
    [notified_poll] is its [poll]; [notify_waiters] completes it and wakes the
    waker it was last polled with. *)
Class Notify `{Wakers} := {
  Notified : Type;
  enabled : Notified;
  complete : Notified → bool;
  waiting : Notified → option Waker;
  notified_poll : Notified → Waker → poll * Notified;
  notify_waiters : Notified → option Waker * Notified;
  enabled_fresh : complete enabled = false ∧ waiting enabled = None;
  poll_complete n w : complete n = true → (notified_poll n w).1 = Ready;
  poll_waits n w : complete n = false →
    (notified_poll n w).1 = Pending ∧ complete (notified_poll n w).2 = false ∧ waiting (notified_poll n w).2 = Some w;
  poll_stays n w : complete n = true → complete (notified_poll n w).2 = true;
  notify_completes n : complete (notify_waiters n).2 = true;
  notify_wakes n : complete n = false → (notify_waiters n).1 = waiting n
}.

Section Signal.
Context `{Notify}.
(** ** [Signal] and one of its waiters

    The task that calls [set] first: before the swap, between the swap and
    [notify_waiters], after it. *)
Inductive Setter := Unset | Swapped | Notifying.
(** Where a poll of [wait] is: between polls with the result of the last one
    and its waker, after the first check of the flag, after [Notified::poll]
    with its result. *)
Inductive Waiter := Fresh | Idle (w : Waker) | Looked (w : Waker) | Polled (w : Waker) (r : poll) | Returned.
Record Signal := {
  set_ : bool; setter : Setter; notified : Notified;
  registered : option Waker; waiter : Waiter;
  woken : list Task        (* the tasks woken since the current or last poll began *)
}.
(** [Signal::default] and the beginning of [wait], up to [enable]. *)
Definition signal_new : Signal :=
  {| set_ := false; setter := Unset; notified := enabled; registered := None; waiter := Fresh; woken := [] |}.
Definition is_set (s : Signal) : bool := set_ s.

(** [Signal::set]: the swap, then [notify_waiters] if it was the first; a
    later call only reads the flag. *)
Definition set_swap (s : Signal) : bool * Signal :=
  (set_ s, if set_ s then s else
           {| set_ := true; setter := Swapped; notified := notified s; registered := registered s;
              waiter := waiter s; woken := woken s |}).
Definition set_notify (s : Signal) : Signal :=
  let '(waker, n) := notify_waiters (notified s) in
  {| set_ := set_ s; setter := Notifying; notified := n; registered := registered s; waiter := waiter s;
     woken := woken s ++ match waker with Some w => [task w] | None => [] end |}.

(** The closure of [wait]: the first check; *)
Definition poll_look (w : Waker) (s : Signal) : Signal :=
  {| set_ := set_ s; setter := setter s; notified := notified s; registered := registered s;
     waiter := if is_set s then Returned else Looked w; woken := [] |}.
(** the comparison of wakers and the poll of [notified]; *)
Definition poll_notified (w : Waker) (s : Signal) : Signal :=
  if match registered s with Some waker => will_wake waker w | None => false end then
    {| set_ := set_ s; setter := setter s; notified := notified s; registered := registered s;
       waiter := Idle w; woken := woken s |}
  else
    let '(r, n) := notified_poll (notified s) w in
    {| set_ := set_ s; setter := setter s; notified := n;
       registered := if decide (r = Pending) then Some w else registered s; waiter := Polled w r; woken := woken s |}.
(** and the second check. *)
Definition poll_relook (w : Waker) (r : poll) (s : Signal) : Signal :=
  {| set_ := set_ s; setter := setter s; notified := notified s; registered := registered s;
     waiter := if is_set s then Returned else match r with Ready => Returned | Pending => Idle w end;
     woken := woken s |}.

(** The executor may poll an idle waiter at any time, with any waker of any
    task; threads that set the signal run meanwhile. *)
Inductive signal_step : Signal → Signal → Prop :=
  | step_swap s : signal_step s (set_swap s).2
  | step_notify s : setter s = Swapped → signal_step s (set_notify s)
  | step_look w s : (waiter s = Fresh ∨ ∃ w', waiter s = Idle w') → signal_step s (poll_look w s)
  | step_poll w s : waiter s = Looked w → signal_step s (poll_notified w s)
  | step_relook w r s : waiter s = Polled w r → signal_step s (poll_relook w r s).

Record signal_ok (s : Signal) : Prop := {
  so_set : set_ s = true ↔ setter s ≠ Unset;
  so_complete : complete (notified s) = true ↔ setter s = Notifying;
  so_registered w : registered s = Some w → setter s ≠ Notifying → waiting (notified s) = Some w;
  so_woken w : registered s = Some w → setter s = Notifying → waiter s ≠ Returned → task w ∈ woken s;
  so_waiter :
    match waiter s with
    | Idle w | Polled w Pending => ∃ w', registered s = Some w' ∧ task w' = task w
    | Polled w Ready => setter s = Notifying
    | _ => True
    end;
  so_returned : waiter s = Returned → set_ s = true
}.
Lemma signal_new_ok : signal_ok signal_new.
Proof. destruct enabled_fresh as [E1 E2]. split; cbn; try done. by rewrite E1. Qed.
Lemma signal_poll_ok w s : waiter s = Looked w → signal_ok s → signal_ok (poll_notified w s).
Proof.
  intros Hw [O1 O2 O3 O4 O5 O6]. unfold poll_notified.
  destruct (match registered s with Some _ => _ | None => _ end) eqn:Em.
  { destruct (registered s) as [w0|] eqn:Er; [|done]. split; cbn; rewrite ?Er; try done.
    - intros w' [= <-] Hn _. apply O4; [done|done|]. by rewrite Hw.
    - exists w0. split; [done|]. by apply will_wake_task. }
  clear Em. destruct (notified_poll (notified s) w) as [r n] eqn:En.
  destruct (complete (notified s)) eqn:Ec.
  - pose proof (poll_complete _ w Ec) as Hr. pose proof (poll_stays _ w Ec) as Hc. rewrite En in Hr, Hc. cbn in Hr, Hc. subst r.
    assert (setter s = Notifying) as Hn by (by apply O2). split; cbn; rewrite ?Hc, ?Hn; try done.
    + by rewrite <-Hn.
    + intros w' Hr _ _. apply O4; [done|done|by rewrite Hw].
  - destruct (poll_waits _ w Ec) as (Hr & Hc & Hwt). rewrite En in Hr, Hc, Hwt. cbn in Hr, Hc, Hwt. subst r.
    assert (setter s ≠ Notifying) as Hn by (intros Hn%O2; done). split; cbn; rewrite ?Hc; try done.
    + by intros w' [= <-] _.
    + by exists w.
Qed.
Lemma signal_step_ok s s' : signal_step s s' → signal_ok s → signal_ok s'.
Proof.
  intros [s0|s0 Hs|w s0 Hw|w s0 Hw|w r s0 Hw] [O1 O2 O3 O4 O5 O6].
  - unfold set_swap. destruct (set_ s0) eqn:E; [cbn; by split; rewrite ?E|].
    assert (setter s0 = Unset) as Eu by (destruct (setter s0); [done|exfalso; naive_solver..]).
    rewrite Eu in *. split; cbn; try done; [naive_solver|..].
    + intros w Hr _. by apply O3.
    + destruct (waiter s0) as [| | |w []|]; naive_solver.
  - unfold set_notify. destruct (notify_waiters (notified s0)) as [wk n] eqn:En.
    assert (complete n = true) as Hc by (rewrite <-(notify_completes (notified s0)); by rewrite En).
    assert (complete (notified s0) = false) as Hnc by (apply not_true_iff_false; rewrite O2, Hs; done).
    assert (wk = waiting (notified s0)) as -> by (rewrite <-(notify_wakes _ Hnc); by rewrite En).
    split; cbn; try done; [rewrite O1, Hs; done|..].
    + intros w Hr _ _. rewrite (O3 w Hr) by (by rewrite Hs). apply elem_of_app. right. by left.
    + destruct (waiter s0) as [| | |w []|]; naive_solver.
  - unfold poll_look, is_set. split; cbn; try done; destruct (set_ s0) eqn:E; try done.
    intros w' Hr Hn. exfalso. assert (false = true) by (apply O1; by rewrite Hn). done.
  - by apply signal_poll_ok.
  - unfold poll_relook, is_set. rewrite Hw in *. split; cbn; try done.
    + intros w' Hr Hn _. by apply O4.
    + destruct (set_ s0) eqn:E; [done|]. destruct r; done.
    + destruct (set_ s0); [done|]. destruct r; [|done]. intros _. apply O1. by rewrite O5.
Qed.
Lemma signal_reachable_ok s : rtc signal_step signal_new s → signal_ok s.
Proof.
  intros Hr. remember signal_new as s0 eqn:E. assert (signal_ok s0) as Hok by (subst; apply signal_new_ok). clear E.
  induction Hr as [|s1 s2 s3 Hs _ IH]; [done|]. by eapply IH, signal_step_ok.
Qed.

(** C34: A cancellation is never lost and never made up.  However the setting
    threads and the polls of a waiter interleave, and whatever wakers it is
    polled with: when the signal has been set and its waiters notified, a waiter
    that is idle had the task of its latest poll woken during or after that
    poll; the poll that follows returns; and a waiter returns only when the
    signal is set. *)
Theorem signal_no_lost_wakeup s :
  rtc signal_step signal_new s →
  (∀ w, waiter s = Idle w → setter s = Notifying → task w ∈ woken s) ∧
  (setter s = Notifying → ∀ w, waiter (poll_look w s) = Returned) ∧
  (waiter s = Returned → is_set s = true).
Proof.
  intros [O1 O2 O3 O4 O5 O6]%signal_reachable_ok. split_and!.
  - intros w Hw Hs. rewrite Hw in O5. destruct O5 as (w' & Hr & <-). apply O4; [done|done|]. by rewrite Hw.
  - intros Hs w. assert (set_ s = true) as E by (apply O1; by rewrite Hs). cbn. unfold is_set. by rewrite E.
  - exact O6.
Qed.
End Signal.

(** ** The reusable timer *)
(** [tokio::time::Sleep]: it elapses at its deadline, which [reset] moves. *)
Class Sleeps := {
  Sleep : Type;
  sleep_until : Z → Sleep;
  reset : Z → Sleep → Sleep;
  elapsed : Sleep → Z → bool;
  sleep_until_elapsed t now : elapsed (sleep_until t) now = (t <=? now);
  reset_elapsed t s now : elapsed (reset t s) now = (t <=? now)
}.
Section Timer.
Context `{Sleeps}.
Record Timer := { deadline : option Z; armed : option (Z * Sleep) }.
Definition timer_default : Timer := {| deadline := None; armed := None |}.
Definition timer_set (d : option Z) (t : Timer) : Timer := {| deadline := d; armed := armed t |}.
(** One poll of [Timer::wait] at the time [now]. *)
Definition timer_wait (now : Z) (t : Timer) : poll * Timer :=
  match deadline t with
  | None => (Pending, t)
  | Some target =>
      let '(previous, sleep) := default (target, sleep_until target) (armed t) in
      let sleep := if previous =? target then sleep else reset target sleep in
      (if elapsed sleep now then Ready else Pending, {| deadline := deadline t; armed := Some (target, sleep) |})
  end.
(** Any use of a timer, with the answers of its polls. *)
Inductive timer_op := TimerSet (d : option Z) | TimerWait (now : Z).
Definition timer_do (acc : list poll * Timer) (op : timer_op) : list poll * Timer :=
  match op with
  | TimerSet d => (acc.1, timer_set d acc.2)
  | TimerWait now => let '(r, t) := timer_wait now acc.2 in (acc.1 ++ [r], t)
  end.
(** What it promises: each poll compares the clock with the latest deadline. *)
Definition timer_spec (acc : list poll * option Z) (op : timer_op) : list poll * option Z :=
  match op with
  | TimerSet d => (acc.1, d)
  | TimerWait now =>
      (acc.1 ++ [if match acc.2 with Some t => t <=? now | None => false end then Ready else Pending], acc.2)
  end.
(** The sleep that is kept elapses at the deadline it is kept with. *)
Definition timer_ok (t : Timer) : Prop := ∀ d s, armed t = Some (d, s) → ∀ now, elapsed s now = (d <=? now).
Lemma timer_wait_spec now t :
  timer_ok t →
  (timer_wait now t).1 = (if match deadline t with Some d => d <=? now | None => false end then Ready else Pending) ∧
  deadline (timer_wait now t).2 = deadline t ∧ timer_ok (timer_wait now t).2.
Proof.
  intros Hok. unfold timer_wait. destruct (deadline t) as [d|] eqn:Ed; [|cbn; by rewrite Ed].
  destruct (default (d, sleep_until d) (armed t)) as [prev sl] eqn:Ea.
  assert (∀ n, elapsed (if prev =? d then sl else reset d sl) n = (d <=? n)) as He.
  { intros n. destruct (Z.eqb_spec prev d) as [->|]; [|apply reset_elapsed].
    destruct (armed t) as [[d' s']|] eqn:Et; cbn in Ea; simplify_eq; [by apply Hok|apply sleep_until_elapsed]. }
  cbn. rewrite He. split_and!; [done|done|]. intros d' s' [= <- <-]. apply He.
Qed.
(** Reusing one sleep is invisible: the answers are those of the latest deadline. *)
Theorem timer_refines ops : ∀ out t,
  timer_ok t →
  (foldl timer_do (out, t) ops).1 = (foldl timer_spec (out, deadline t) ops).1 ∧
  deadline (foldl timer_do (out, t) ops).2 = (foldl timer_spec (out, deadline t) ops).2.
Proof.
  induction ops as [|[d|now] ops IH]; intros out t Hok; cbn [foldl]; [done|..].
  - by apply (IH out (timer_set d t)).
  - destruct (timer_wait_spec now t Hok) as (E1 & E2 & E3). cbn [timer_do timer_spec fst snd].
    destruct (timer_wait now t) as [r t']. cbn in E1, E2, E3. rewrite <-E1, <-E2. by apply IH.
Qed.
End Timer.

Module Witness.
(** Wakers are numbered tasks; a [Notified] keeps whether it is complete and
    the waker it was last polled with. *)
Lemma eqb_task a b : bool_decide (a = b) = true → @id nat a = id b.
Proof. apply bool_decide_eq_true_1. Qed.
#[local] Instance number_wakers : Wakers :=
  {| Waker := nat; Task := nat; task := id; will_wake a b := bool_decide (a = b); will_wake_task := eqb_task |}.
#[local] Instance pair_notify : @Notify number_wakers.
Proof.
  refine {| Notified := bool * option nat; enabled := (false, None); complete := fst; waiting := snd;
            notified_poll n w := if n.1 then (Ready, n) else (Pending, (false, Some w));
            notify_waiters n := (n.2, (true, None)) |}; try done.
  all: by intros [[] o] w.
Defined.
Definition w1 : Waker := 1%nat.
Definition w2 : Waker := 2%nat.
(** The signal is set while a second poll, with another waker, is between its
    first check and [Notified::poll]. *)
Definition raced : Signal :=
  {| set_ := true; setter := Notifying; notified := (true, None); registered := Some w1; waiter := Polled w2 Ready;
     woken := [task w1] |}.
Lemma signal_raced_reached : rtc signal_step signal_new raced.
Proof.
  eapply rtc_l; [apply (step_look w1); by left|].
  eapply rtc_l; [by apply (step_poll w1)|].
  eapply rtc_l; [by apply (step_relook w1 Pending)|].
  eapply rtc_l; [apply (step_look w2); right; by exists w1|].
  eapply rtc_l; [apply step_swap|]. eapply rtc_l; [by apply step_notify|].
  eapply rtc_l; [by apply (step_poll w2)|]. apply rtc_refl.
Qed.
Lemma signal_no_lost_wakeup_witness : waiter (poll_look w2 raced) = Returned.
Proof. apply (signal_no_lost_wakeup raced signal_raced_reached). reflexivity. Defined.
End Witness.
