(* ===== verification/Transport.v ===== *)
(** * The transport under a connection (core/src/net/activity.rs,
      core/src/net/tls_stream.rs, core/src/net/transport.rs)

    A transport is tokio's [AsyncRead] and [AsyncWrite]: a class of polls that
    change the transport's state.  [Observed] watches one and records when
    bytes moved; [Tls] wraps a TLS stream and announces what it must flush.
    Sockets and rustls are instances this development does not see. *)

From S2P Require Import Prelude Head.

Inductive Poll (A : Type) := Ready (a : A) | Pending.
Arguments Ready {A} a.
Arguments Pending {A}.
Definition io_result (A : Type) : Type := Poll (result A IoError).
(** [poll_read] appends to the caller's buffer; its second component is what
    was appended. *)
Class AsyncIo (T : Type) := {
  poll_read : T → Z → T * bytes * io_result unit;
  poll_write : T → bytes → T * io_result Z;
  poll_write_vectored : T → list bytes → T * io_result Z;
  is_write_vectored : T → bool;
  poll_flush : T → T * io_result unit;
  poll_shutdown : T → T * io_result unit
}.

(** ** Activity *)
(** The cells of a connection once [bind] was called, in nanoseconds since its
    birth. *)
Record Activity := { act_target : option Z; act_written : Z; act_received : Z }.
Definition activity_default : Activity := {| act_target := None; act_written := 0; act_received := 0 |}.
(** [Activity::bind]: the first target stays. *)
Definition bind (born written received : Z) (a : Activity) : Activity :=
  match act_target a with
  | Some _ => a
  | None => {| act_target := Some born; act_written := written; act_received := received |}
  end.
(** [Activity::progress] at the time [now]. *)
Definition progress (now : Z) (inbound : bool) (a : Activity) : Activity :=
  match act_target a with
  | None => a
  | Some born =>
      let ns := Z.min (now - born) U64_MAX in
      if inbound then {| act_target := Some born; act_written := act_written a; act_received := sat_add ns 1 |}
      else {| act_target := Some born; act_written := ns; act_received := act_received a |}
  end.

(** ** [Observed]

    [now] is what the clock says when the poll looks at it. *)
Record Observed (T : Type) := { obs_io : T; activity : Activity; now : Z }.
Arguments obs_io {T} o.
Arguments activity {T} o.
Arguments now {T} o.
Definition with_io {T} (io : T) (a : Activity) (o : Observed T) : Observed T :=
  {| obs_io := io; activity := a; now := now o |}.
Definition moved (n : Z) (r : io_result Z) : bool := match r with Ready (Ok k) => n <? k | _ => false end.
Section Observed.
Context `{AsyncIo T}.
Definition observed_read (o : Observed T) (room : Z) : Observed T * bytes * io_result unit :=
  let '(io, data, r) := poll_read (obs_io o) room in
  let a :=
    match r with
    | Ready (Ok _) => if 0 <? zlen data then progress (now o) true (activity o) else activity o
    | _ => activity o
    end in
  (with_io io a o, data, r).
Definition observed_write (o : Observed T) (data : bytes) : Observed T * io_result Z :=
  let '(io, r) := poll_write (obs_io o) data in
  (with_io io (if moved 0 r then progress (now o) false (activity o) else activity o) o, r).
Definition observed_write_vectored (o : Observed T) (bufs : list bytes) : Observed T * io_result Z :=
  let '(io, r) := poll_write_vectored (obs_io o) bufs in
  (with_io io (if moved 0 r then progress (now o) false (activity o) else activity o) o, r).
Definition forward {A} (f : T → T * A) (o : Observed T) : Observed T * A :=
  let '(io, r) := f (obs_io o) in (with_io io (activity o) o, r).
#[export] Instance observed_io : AsyncIo (Observed T) := {|
  poll_read := observed_read;
  poll_write := observed_write;
  poll_write_vectored := observed_write_vectored;
  is_write_vectored o := is_write_vectored (obs_io o);
  poll_flush := forward poll_flush;
  poll_shutdown := forward poll_shutdown
|}.
End Observed.

(** ** [Tls]

    What it needs of a rustls stream besides its polls: an empty write to the
    plaintext writer, which queues a deferred reply, and whether records wait
    to be written. *)
Class TlsStream (T : Type) `{AsyncIo T} := {
  expose : T → T * result unit IoError;
  wants_write : T → bool
}.
(** The stream and the permit of the [Notify] the writer waits for. *)
Record TlsIo (T : Type) := { tls_io : T; flush : bool }.
Arguments tls_io {T} t.
Arguments flush {T} t.
Section Tls.
Context `{TlsStream T}.
Definition notify_one (t : TlsIo T) : TlsIo T := {| tls_io := tls_io t; flush := true |}.
Definition tls_read (t : TlsIo T) (room : Z) : TlsIo T * bytes * io_result unit :=
  let '(io, data, r) := poll_read (tls_io t) room in
  let '(io, exposed) := match r with Ready (Err _) => (io, Ok tt) | _ => expose io end in
  let t := {| tls_io := io; flush := flush t |} in
  match exposed with
  | Err e => (t, data, Ready (Err e))
  | Ok _ => (if wants_write io then notify_one t else t, data, r)
  end.
Definition tls_forward {A} (f : T → T * A) (t : TlsIo T) : TlsIo T * A :=
  let '(io, r) := f (tls_io t) in ({| tls_io := io; flush := flush t |}, r).
#[export] Instance tls_async_io : AsyncIo (TlsIo T) := {|
  poll_read := tls_read;
  poll_write t data := tls_forward (λ io, poll_write io data) t;
  poll_write_vectored t bufs := tls_forward (λ io, poll_write_vectored io bufs) t;
  is_write_vectored t := is_write_vectored (tls_io t);
  poll_flush := tls_forward poll_flush;
  poll_shutdown := tls_forward poll_shutdown
|}.
End Tls.

(** ** Making a stream (transport.rs) *)
(** [Stream::chunk]: how much a connection writes before it flushes. *)
Definition stream_chunk (tls : bool) : Z := if tls then 16 * 1024 else 64 * 1024.

(** ** Any use of a transport *)
Inductive io_op :=
  | OpRead (room : Z) | OpWrite (data : bytes) | OpWriteVectored (bufs : list bytes) | OpFlush | OpShutdown.
(** What the caller of an operation gets. *)
Inductive io_answer := GotRead (data : bytes) (r : io_result unit) | GotCount (r : io_result Z) | GotUnit (r : io_result unit).
Definition io_do `{AsyncIo T} (io : T) (op : io_op) : T * io_answer :=
  match op with
  | OpRead room => let '(io, data, r) := poll_read io room in (io, GotRead data r)
  | OpWrite data => let '(io, r) := poll_write io data in (io, GotCount r)
  | OpWriteVectored bufs => let '(io, r) := poll_write_vectored io bufs in (io, GotCount r)
  | OpFlush => let '(io, r) := poll_flush io in (io, GotUnit r)
  | OpShutdown => let '(io, r) := poll_shutdown io in (io, GotUnit r)
  end.
(** The direction in which an operation moved bytes, if it did. *)
Definition direction (a : io_answer) : option bool :=
  match a with
  | GotRead data (Ready (Ok _)) => if 0 <? zlen data then Some true else None
  | GotCount r => if moved 0 r then Some false else None
  | _ => None
  end.
(** Observing is invisible: every operation gives the answer of the transport
    below and leaves it in the same state; and the activity changes exactly
    when bytes moved, in that direction, to the present. *)
Theorem observed_transparent `{AsyncIo T} (o : Observed T) op :
  let '(o', a) := io_do o op in
  io_do (obs_io o) op = (obs_io o', a) ∧ now o' = now o ∧
  activity o' = match direction a with Some inbound => progress (now o) inbound (activity o) | None => activity o end.
Proof.
  destruct op as [room|data|bufs| |]; cbn; unfold observed_read, observed_write, observed_write_vectored, forward.
  - destruct (poll_read (obs_io o) room) as [[io d] [[[]|e]|]]; cbn; [|done|done]. by destruct (0 <? zlen d).
  - destruct (poll_write (obs_io o) data) as [io r]. cbn. by destruct (moved 0 r).
  - destruct (poll_write_vectored (obs_io o) bufs) as [io r]. cbn. by destruct (moved 0 r).
  - by destruct (poll_flush (obs_io o)).
  - by destruct (poll_shutdown (obs_io o)).
Qed.
(** A TLS read hands on exactly the bytes and the result of the stream below,
    unless queueing a deferred reply fails; it never leaves records waiting to
    be written unannounced; and no other operation touches the announcement. *)
Theorem tls_read_announces `{TlsStream T} (t : TlsIo T) room :
  let '(t', data, r) := poll_read t room in
  ∃ io r0, poll_read (tls_io t) room = (io, data, r0) ∧
    (r = r0 ∧ flush t' = (flush t || wants_write (tls_io t')) ∨
     ∃ e, (expose io).2 = Err e ∧ r = Ready (Err e) ∧ flush t' = flush t).
Proof.
  cbn. unfold tls_read. destruct (poll_read (tls_io t) room) as [[io d] r0].
  destruct (match r0 with Ready (Err _) => _ | _ => _ end) as [io' exposed] eqn:Ex.
  destruct exposed as [[]|e].
  - exists io, r0. destruct (wants_write io') eqn:Ew; (split; [done|left; split; [done|]]); cbn; rewrite Ew;
      [by rewrite orb_true_r|by rewrite orb_false_r].
  - exists io, r0. split; [done|]. right. exists e. destruct r0 as [[|]|]; simplify_eq; by rewrite Ex.
Qed.
