(* ===== verification/Wiring.v ===== *)
(** * Streams and the runtime (core/src/net/transport.rs,
      core/src/net/stream.rs, core/src/net/runtime.rs)

    A connection's stream is an observed socket, or a TLS session over one,
    with a second descriptor of the socket for termination.  The sockets of
    the operating system and the sessions of rustls are classes. *)

From S2P Require Import Prelude Str Head Transport.

(** What the code uses of a TCP stream: its conversions, the option, the
    second descriptor, and tokio's polls. *)
Class Sockets := {
  Tcp : Type;
  Std : Type;
  into_std : Tcp → result Std IoError;
  set_nodelay : Std → result Std IoError;
  try_clone : Std → result Std IoError;
  from_std : Std → result Tcp IoError;
  tcp_io :: AsyncIo Tcp
}.
(** Operations on a transport, one after the other. *)
Definition used `{AsyncIo T} : T → T → Prop := rtc (λ io io', ∃ op, io' = (io_do io op).1).
(** rustls over an observed socket: a session reads and writes only through
    the socket it was given ([lower]). *)
Class Sessions `{Sockets} := {
  Session : Type;
  session_io :: AsyncIo Session;
  session_tls :: TlsStream Session;
  ClientSettings : Type;
  ServerSettings : Type;
  lower : Session → Observed Tcp;
  tls_connect : ClientSettings → Observed Tcp → result Session IoError;
  tls_accept : ServerSettings → Observed Tcp → result Session IoError;
  connect_lower c o s : tls_connect c o = Ok s → used o (lower s);
  accept_lower c o s : tls_accept c o = Ok s → used o (lower s);
  session_lower s op : used (lower s) (lower (io_do s op).1);
  expose_lower s : lower (expose s).1 = lower s
}.

Section Wiring.
Context `{Sessions}.

(** [socket] at the time [now]. *)
Definition socket (now : Z) (tcp : Tcp) : result (Observed Tcp * Std) IoError :=
  let? tcp := into_std tcp in
  let? tcp := set_nodelay tcp in
  let? stop := try_clone tcp in
  let? tcp := from_std tcp in
  Ok ({| obs_io := tcp; activity := activity_default; now := now |}, stop).

(** [Box<dyn Io>] *)
Inductive Transport := Plain (io : Observed Tcp) | Secure (io : TlsIo Session).
Definition on_transport {A} (f : ∀ T, AsyncIo T → T → T * A) (t : Transport) : Transport * A :=
  match t with
  | Plain io => let '(io, a) := f _ _ io in (Plain io, a)
  | Secure io => let '(io, a) := f _ _ io in (Secure io, a)
  end.
(** [Stream]: the activity and the flush signal are cells of its transport. *)
Record Stream := { st_tcp : Std; st_io : Transport; st_chunk : Z }.
(** The socket under a transport, and the cells shared with the stream. *)
Definition bottom (t : Transport) : Observed Tcp := match t with Plain io => io | Secure io => lower (tls_io io) end.
Definition st_activity (s : Stream) : Activity := activity (bottom (st_io s)).

Definition client (now : Z) (tcp : Tcp) (tls : option ClientSettings) : result Stream IoError :=
  let? s := socket now tcp in
  let '(tcp, stop) := s in
  let chunk := stream_chunk (match tls with Some _ => true | None => false end) in
  let? io := (match tls with
              | Some config => let? io := tls_connect config tcp in Ok (Secure {| tls_io := io; flush := false |})
              | None => Ok (Plain tcp)
              end) in
  Ok {| st_tcp := stop; st_io := io; st_chunk := chunk |}.
Definition server (now : Z) (tcp : Tcp) (tls : option ServerSettings) : result Stream IoError :=
  let? s := socket now tcp in
  let '(tcp, stop) := s in
  let chunk := stream_chunk (match tls with Some _ => true | None => false end) in
  let? io := (match tls with
              | Some config => let? io := tls_accept config tcp in Ok (Secure {| tls_io := io; flush := false |})
              | None => Ok (Plain tcp)
              end) in
  Ok {| st_tcp := stop; st_io := io; st_chunk := chunk |}.
(** [Stream::write_all], given what tokio's [write_all] and [flush] return. *)
Definition write_all (written flushed : result unit IoError) : result unit IoError :=
  let? _ := written in flushed.

(** ** Every byte is observed *)
Definition transport_do (t : Transport) (op : io_op) : Transport * io_answer :=
  on_transport (λ T _ io, io_do io op) t.
Lemma used_once `{AsyncIo T} (io : T) op : used io (io_do io op).1.
Proof. apply rtc_once. by exists op. Qed.
Lemma tls_do_lower (t : TlsIo Session) op : used (lower (tls_io t)) (lower (tls_io (io_do t op).1)).
Proof.
  destruct op as [room|data|bufs| |]; cbn.
  - pose proof (session_lower (tls_io t) (OpRead room)) as Hs. cbn in Hs. unfold tls_read.
    destruct (poll_read (tls_io t) room) as [[io d] r]. cbn in Hs.
    destruct (match r with Ready (Err _) => _ | _ => _ end) as [io' x] eqn:Ex.
    assert (lower io' = lower io) as El.
    { pose proof (expose_lower io) as He. destruct r as [[|]|]; rewrite ?Ex in *; by simplify_eq. }
    destruct x as [|e]; cbn; [|by rewrite El]. destruct (wants_write io'); cbn; by rewrite El.
  - pose proof (session_lower (tls_io t) (OpWrite data)) as Hs. cbn in Hs. unfold tls_forward. by destruct (poll_write (tls_io t) data).
  - pose proof (session_lower (tls_io t) (OpWriteVectored bufs)) as Hs. cbn in Hs. unfold tls_forward.
    by destruct (poll_write_vectored (tls_io t) bufs).
  - pose proof (session_lower (tls_io t) OpFlush) as Hs. cbn in Hs. unfold tls_forward. by destruct (poll_flush (tls_io t)).
  - pose proof (session_lower (tls_io t) OpShutdown) as Hs. cbn in Hs. unfold tls_forward. by destruct (poll_shutdown (tls_io t)).
Qed.
Lemma transport_do_bottom t op : used (bottom t) (bottom (transport_do t op).1).
Proof.
  destruct t as [io|io]; unfold transport_do, on_transport.
  - pose proof (used_once io op) as Hu. by destruct (io_do io op).
  - pose proof (tls_do_lower io op) as Hu. by destruct (io_do io op).
Qed.
(** What the socket's use makes of the activity: the last movement of each
    direction, at the time it was polled, once the connection is bound. *)
Inductive recorded : Activity → Activity → Prop :=
  | rec_none a : recorded a a
  | rec_move a b now inbound : recorded a b → recorded a (progress now inbound b).
Lemma used_recorded (o o' : Observed Tcp) : used o o' → recorded (activity o) (activity o').
Proof.
  apply (rtc_ind_r (λ o', recorded (activity o) (activity o')) o); [constructor|].
  intros o1 o2 _ (op & ->) IH. pose proof (observed_transparent o1 op) as Ht. destruct (io_do o1 op) as [o2 a].
  destruct Ht as (_ & _ & Ea). cbn [fst]. rewrite Ea. destruct (direction a); [by constructor|done].
Qed.
Lemma recorded_unbound a b : recorded a b → act_target a = None → b = a.
Proof. induction 1 as [|a b now inbound Hr IH]; [done|]. intros Ha. rewrite (IH Ha). unfold progress. by rewrite Ha. Qed.

(** A stream keeps the second descriptor of the very socket it runs over,
    with its chunk by the kind of transport; whatever is done with it, TLS or
    not, goes through the observed socket, so that before the connection binds
    its clocks the activity stays as new. *)
Definition transports (t : Transport) (ops : list io_op) : Transport := foldl (λ t op, (transport_do t op).1) t ops.
Lemma transports_bottom ops : ∀ t, used (bottom t) (bottom (transports t ops)).
Proof.
  induction ops as [|op ops IH]; intros t; [apply rtc_refl|]. unfold used in *. etrans; [apply transport_do_bottom|apply IH].
Qed.
Definition made_over (o : Observed Tcp) (stop : Std) (tls : bool) (s : Stream) : Prop :=
  st_tcp s = stop ∧ st_chunk s = stream_chunk tls ∧
  ∀ ops, used o (bottom (transports (st_io s) ops)) ∧ activity (bottom (transports (st_io s) ops)) = activity_default.
Lemma made io o stop tls :
  used o (bottom io) → activity o = activity_default →
  made_over o stop tls {| st_tcp := stop; st_io := io; st_chunk := stream_chunk tls |}.
Proof.
  intros Hu Ha. split; [done|]. split; [done|]. intros ops.
  assert (used o (bottom (transports io ops))) as Hu' by (unfold used in *; etrans; [done|apply transports_bottom]).
  split; [done|]. cbn [st_io]. rewrite (recorded_unbound _ _ (used_recorded _ _ Hu')); [done|by rewrite Ha].
Qed.
Lemma socket_activity now tcp o stop : socket now tcp = Ok (o, stop) → activity o = activity_default.
Proof.
  unfold socket. destruct (into_std tcp) as [s1|]; [|done]. destruct (set_nodelay s1) as [s2|]; [|done].
  destruct (try_clone s2) as [s3|]; [|done]. destruct (from_std s2); [|done]. by intros [= <- <-].
Qed.
Theorem streams_observed now tcp s :
  (∀ tls, client now tcp tls = Ok s →
     ∃ o stop, socket now tcp = Ok (o, stop) ∧ made_over o stop (match tls with Some _ => true | None => false end) s) ∧
  (∀ tls, server now tcp tls = Ok s →
     ∃ o stop, socket now tcp = Ok (o, stop) ∧ made_over o stop (match tls with Some _ => true | None => false end) s).
Proof.
  unfold client, server. destruct (socket now tcp) as [[o stop]|] eqn:Es; [|split; by intros tls [=]].
  pose proof (socket_activity _ _ _ _ Es) as Ha. split; intros [c|].
  - destruct (tls_connect c o) as [io|] eqn:Ec; [|done]. intros [= <-]. exists o, stop. split; [done|].
    apply made; [|done]. by apply (connect_lower c).
  - intros [= <-]. exists o, stop. split; [done|]. apply made; [apply rtc_refl|done].
  - destruct (tls_accept c o) as [io|] eqn:Ec; [|done]. intros [= <-]. exists o, stop. split; [done|].
    apply made; [|done]. by apply (accept_lower c).
  - intros [= <-]. exists o, stop. split; [done|]. apply made; [apply rtc_refl|done].
Qed.
End Wiring.

(** ** The runtime (runtime.rs) *)
Section Runtime.
(** tokio's runtimes, made from the number of workers and of blocking
    threads; [threads] is [available_parallelism]. *)
Context {Runtime : Type} (build : Z → Z → result Runtime bytes) (threads : option Z) (lookups : Z).
Definition clamp (lo hi n : Z) : Z := Z.max lo (Z.min hi n).
Definition workers : Z := clamp 2 4 (default 2 threads).
(** [shared]: the process-wide cell is filled by the first call. *)
Definition shared (cell : option (result Runtime bytes)) : result Runtime bytes * option (result Runtime bytes) :=
  let r := match cell with Some r => r | None => build workers lookups end in (r, Some r).
(** [until]: the task's result, unless the deadline passes first. *)
Definition until {T} (task : option (result T bytes)) : result T bytes :=
  match task with Some r => r | None => Err (bs "handshake timed out") end.

(** However often the runtime is asked for, it is made once, with two to four
    workers, and everyone gets the same one or the same error. *)
Fixpoint asked (n : nat) (cell : option (result Runtime bytes)) : list (result Runtime bytes) :=
  match n with O => [] | S n => let '(r, cell) := shared cell in r :: asked n cell end.
Theorem shared_once n : 2 <= workers <= 4 ∧ Forall (eq (build workers lookups)) (asked n None).
Proof.
  split; [unfold workers, clamp; lia|]. destruct n as [|n]; [constructor|]. simpl. constructor; [done|].
  induction n as [|n IH]; simpl; [constructor|by constructor].
Qed.
End Runtime.
