(* ===== verification/Hub.v ===== *)
(** * The hub's queue and its end (core/src/hub.rs)

    Connections and servers send events into one channel, which the
    application drains with [recv].  Dropping the hub closes its signal, takes
    out what is queued, and then the channel goes.  Senders run meanwhile:
    [emit] looks at the signal, sends, and looks again, and the model
    interleaves these steps with the hub's. *)

From S2P Require Import Prelude Events.

(** The connection an event hands to the application. *)
Definition handed (e : Event) : option Z := match e with EvConnection _ conn _ => Some conn | _ => None end.

(** ** State *)
(** Where a call of [emit] is: before [send], between the check of the signal
    and the send, before the second check with the result of [send], over. *)
Inductive Phase := Begun | Checked | Rechecking (sent : bool) | Emitted.
#[export] Instance Phase_eq_dec : EqDecision Phase.
Proof. solve_decision. Defined.
(** The connection's identifier, its event, and the phase. *)
Record Emit := { em_conn : Z; em_event : Event; em_phase : Phase }.
(** The hub: in use, in the loop of its [drop], after the loop, without its
    channel. *)
Inductive HubPhase := Live | Draining | Emptied | Dropped.
#[export] Instance HubPhase_eq_dec : EqDecision HubPhase.
Proof. solve_decision. Defined.
Record Hub := {
  queue : list Event; closed : bool; phase : HubPhase;
  delivered : list Event;      (* what [recv] returned, in order *)
  ended : gset Z;              (* the connections that were terminated or finished *)
  emits : list Emit
}.
(** [Hub::default] *)
Definition hub_default : Hub :=
  {| queue := []; closed := false; phase := Live; delivered := []; ended := ∅; emits := [] |}.

Definition set_emits (l : list Emit) (h : Hub) : Hub :=
  {| queue := queue h; closed := closed h; phase := phase h; delivered := delivered h; ended := ended h; emits := l |}.
Definition set_queue (q : list Event) (h : Hub) : Hub :=
  {| queue := q; closed := closed h; phase := phase h; delivered := delivered h; ended := ended h; emits := emits h |}.
Definition end_conn (c : Z) (h : Hub) : Hub :=
  {| queue := queue h; closed := closed h; phase := phase h; delivered := delivered h; ended := {[c]} ∪ ended h; emits := emits h |}.
Definition set_phase (p : HubPhase) (h : Hub) : Hub :=
  {| queue := queue h; closed := closed h; phase := p; delivered := delivered h; ended := ended h; emits := emits h |}.

(** ** The hub *)
(** [Hub::recv], when it does not run out of time. *)
Definition recv (h : Hub) : option (Event * Hub) :=
  match queue h with
  | [] => None
  | e :: q =>
      Some (e, {| queue := q; closed := closed h; phase := phase h; delivered := delivered h ++ [e];
                  ended := ended h; emits := emits h |})
  end.
(** [Hub::drop], one step at a time. *)
Definition drop_turn (h : Hub) : Hub :=
  match phase h with
  | Live =>
      {| queue := queue h; closed := true; phase := Draining; delivered := delivered h; ended := ended h; emits := emits h |}
  | Draining =>
      match queue h with
      | [] => set_phase Emptied h
      | e :: q =>
          let h := set_queue q h in
          match handed e with Some conn => end_conn conn h | None => h end
      end
  | Emptied => set_phase Dropped (set_queue [] h)
  | Dropped => h
  end.

(** ** A call of [emit]

    The connection is over ([State::Closed]) when it is in [ended]; the send
    fails when the channel is gone. *)
Definition emit_turn (m : Emit) (h : Hub) : Phase * Hub :=
  match em_phase m with
  | Begun =>
      if bool_decide (em_conn m ∈ ended h) then (Rechecking true, h) else
      if closed h then (Rechecking false, h) else (Checked, h)
  | Checked =>
      if bool_decide (phase h = Dropped) then (Rechecking false, h)
      else (Rechecking true, set_queue (queue h ++ [em_event m]) h)
  | Rechecking sent => (Emitted, if negb sent || closed h then end_conn (em_conn m) h else h)
  | Emitted => (Emitted, h)
  end.
Definition set_em_phase (p : Phase) (m : Emit) : Emit := {| em_conn := em_conn m; em_event := em_event m; em_phase := p |}.

(** ** Interleavings *)
(** An event that hands a connection over is emitted by that connection. *)
Definition hands_own (m : Emit) : Prop := ∀ c, handed (em_event m) = Some c → c = em_conn m.
Inductive hub_step : Hub → Hub → Prop :=
  | step_begin conn e h :
      let m := {| em_conn := conn; em_event := e; em_phase := Begun |} in
      hands_own m → hub_step h (set_emits (emits h ++ [m]) h)
  | step_emit i m p h h' :
      emits h !! i = Some m → emit_turn m h = (p, h') →
      hub_step h (set_emits (<[i := set_em_phase p m]> (emits h)) h')
  | step_recv e h h' : phase h = Live → recv h = Some (e, h') → hub_step h h'
  | step_drop h : hub_step h (drop_turn h)
  (** Connections also end for their own reasons. *)
  | step_end c h : hub_step h (end_conn c h).

(** ** The invariant *)
(** The connection of an event is still on its way, was delivered or is over. *)
Definition settled (h : Hub) (m : Emit) : Prop :=
  em_conn m ∈ ended h ∨ em_event m ∈ delivered h.
Definition underway (h : Hub) (m : Emit) : Prop := settled h m ∨ em_event m ∈ queue h.
Definition emit_ok (h : Hub) (m : Emit) : Prop :=
  hands_own m ∧
  (is_Some (handed (em_event m)) →
   match em_phase m with
   | Begun | Checked | Rechecking false => True
   | Rechecking true => underway h m ∨ closed h = true
   | Emitted => match phase h with Live | Draining => underway h m | Emptied | Dropped => settled h m end
   end).
Record hub_ok (h : Hub) : Prop := {
  ho_emits : Forall (emit_ok h) (emits h);
  ho_closed : phase h ≠ Live → closed h = true
}.
Lemma hub_default_ok : hub_ok hub_default.
Proof. by split. Qed.
(** A step that settles more and loses no queued event keeps the emits. *)
Lemma emit_ok_mono h h' m :
  closed h' = closed h → phase h' = phase h → (∀ m, settled h m → settled h' m) →
  (∀ m, hands_own m → is_Some (handed (em_event m)) → underway h m → underway h' m) → emit_ok h m → emit_ok h' m.
Proof.
  intros Hc Hp Hs Hu [Hf Hm]. split; [done|]. intros Hh. specialize (Hm Hh). rewrite Hc, Hp.
  destruct (em_phase m) as [| |[]|]; [done|done|naive_solver|done|]. destruct (phase h); auto.
Qed.
Lemma settled_end c h m : settled h m → settled (end_conn c h) m.
Proof. unfold settled. simpl. set_solver. Qed.
Lemma hub_ok_end c h : hub_ok h → hub_ok (end_conn c h).
Proof.
  intros [H1 H2]. split; [|done]. eapply Forall_impl; [exact H1|]. intros m. apply emit_ok_mono; try done.
  - apply settled_end.
  - intros m' _ _ [Hs|Hq]; [left; by apply settled_end|by right].
Qed.
Lemma hub_ok_recv e h h' : recv h = Some (e, h') → hub_ok h → hub_ok h'.
Proof.
  unfold recv. destruct (queue h) as [|e' q] eqn:Eq; [done|]. intros [= -> <-] [H1 H2]. split; [|done].
  eapply Forall_impl; [exact H1|]. intros m. apply emit_ok_mono; try done; unfold underway, settled; cbn; rewrite ?Eq; set_solver.
Qed.
Lemma hub_ok_drop h : hub_ok h → hub_ok (drop_turn h).
Proof.
  intros [H1 H2]. unfold drop_turn. destruct (phase h) eqn:Ep.
  - split; [|done]. cbn. eapply Forall_impl; [exact H1|]. intros m [Hf Hm]. split; [done|]. intros Hh.
    specialize (Hm Hh). rewrite Ep in Hm. cbn. destruct (em_phase m) as [| |[]|]; [done|done|by right|done|done].
  - destruct (queue h) as [|e q] eqn:Eq.
    + split; [|by intros _; apply H2]. cbn. eapply Forall_impl; [exact H1|]. intros m [Hf Hm]. split; [done|]. intros Hh.
      specialize (Hm Hh). rewrite Ep in Hm. cbn. destruct (em_phase m) as [| |[]|]; try done.
      destruct Hm as [Hm|Hm]; [done|]. rewrite Eq in Hm. by apply elem_of_nil in Hm.
    + assert (hub_ok (match handed e with Some c => end_conn c (set_queue q h) | None => set_queue q h end)) as Hok; [|done].
      assert (∀ m, settled h m → settled (match handed e with Some c => end_conn c (set_queue q h) | None => set_queue q h end) m) as Hs.
      { intros m Hm. destruct (handed e); [by apply settled_end|done]. }
      split; [|destruct (handed e); cbn; rewrite Ep; intros _; by apply H2].
      replace (emits _) with (emits h) by (by destruct (handed e)).
      eapply Forall_impl; [exact H1|]. intros m. apply emit_ok_mono; [by destruct (handed e)..|done|].
      intros m' Hf [c Hc] [Hm|Hm]; [left; by apply Hs|]. rewrite Eq in Hm. apply elem_of_cons in Hm as [Hm|Hm].
      * left. left. rewrite <-Hm, Hc. cbn. rewrite (Hf _ Hc). set_solver.
      * right. by destruct (handed e).
  - split; [|by intros _; apply H2]. cbn. eapply Forall_impl; [exact H1|]. intros m [Hf Hm]. split; [done|]. intros Hh.
    specialize (Hm Hh). rewrite Ep in Hm. cbn. destruct (em_phase m) as [| |[]|]; try done. right. by apply H2.
  - split; [done|]. intros _. by apply H2.
Qed.
Lemma hub_ok_emit i m p h h' :
  emits h !! i = Some m → emit_turn m h = (p, h') → hub_ok h →
  hub_ok (set_emits (<[i := set_em_phase p m]> (emits h)) h').
Proof.
  intros Hi Ht [H1 H2]. pose proof (Forall_lookup_1 _ _ _ _ H1 Hi) as [Hf Hm].
  assert (closed h' = closed h ∧ phase h' = phase h ∧ (∀ m, settled h m → settled h' m) ∧ (∀ m, underway h m → underway h' m) ∧
    (is_Some (handed (em_event m)) → match p with
     | Begun | Checked | Rechecking false => True
     | Rechecking true => underway h' m ∨ closed h' = true
     | Emitted => match phase h' with Live | Draining => underway h' m | Emptied | Dropped => settled h' m end end))
    as (Hc & Hp & Hs & Hu & Hnew).
  { unfold emit_turn in Ht. destruct (em_phase m) as [| |sent|].
    - case_bool_decide as He; [|destruct (closed h) eqn:Ec]; simplify_eq; split_and!; try done. intros _. left. left. by left.
    - case_bool_decide as He; simplify_eq; split_and!; try done.
      + intros m' [Hm'|Hq]; [by left|]. right. cbn. apply elem_of_app. by left.
      + intros _. left. right. cbn. apply elem_of_app. right. by left.
    - simplify_eq. destruct (negb sent || closed h) eqn:Eb.
      + split_and!; try done; [apply settled_end|..].
        * intros m' [Hm'|Hq]; [left; by apply settled_end|by right].
        * intros _. assert (settled (end_conn (em_conn m) h) m) as Hx by (left; cbn; set_solver).
          destruct (phase _); [by left|by left|done|done].
      + apply orb_false_iff in Eb as [->%negb_false_iff Ec]. split_and!; try done. intros Hh.
        destruct (Hm Hh) as [Hx|Hx]; [|congruence].
        destruct (phase h) eqn:Ep; [done|..]; by rewrite H2 in Ec by done.
    - simplify_eq. split_and!; try done. }
  split; [|cbn; by rewrite Hp, Hc].
  cbn. apply Forall_insert.
  - eapply Forall_impl; [exact H1|]. intros m' Hok. apply (emit_ok_mono h); cbn; try done. intros m0 _ _. apply Hu.
  - split; [exact Hf|]. exact Hnew.
Qed.
Lemma hub_step_ok h h' : hub_step h h' → hub_ok h → hub_ok h'.
Proof.
  intros [conn e h0 m Hf|i m p h0 h1 Hi Ht|e h0 h1 Hp Hr|h0|c h0] Hok.
  - destruct Hok as [H1 H2]. split; [|done]. cbn. apply Forall_app. split; [done|]. apply Forall_singleton. by split.
  - by eapply hub_ok_emit.
  - by eapply hub_ok_recv.
  - by apply hub_ok_drop.
  - by apply hub_ok_end.
Qed.


Module Witness.
Definition req0 : UpgradeRequest := {| path := bs "/"; req_headers := []; req_protocols := []; addr := (bs "::1", 9) |}.
Definition hand0 : Event := EvConnection 1 7 req0.
(** The hub empties its queue between the check of connection 7 and its send. *)
Definition raced : Hub :=
  {| queue := []; closed := true; phase := Dropped; delivered := []; ended := {[7]};
     emits := [{| em_conn := 7; em_event := hand0; em_phase := Emitted |}] |}.
Lemma hub_raced_reached : rtc hub_step hub_default raced.
Proof.
  eapply rtc_l; [apply (step_begin 7 hand0); by intros c [= <-]|].
  eapply rtc_l; [eapply (step_emit 0); reflexivity|].
  eapply rtc_l; [apply step_drop|]. eapply rtc_l; [apply step_drop|].
  eapply rtc_l; [eapply (step_emit 0); reflexivity|].
  eapply rtc_l; [apply step_drop|].
  eapply rtc_l; [eapply (step_emit 0); reflexivity|].
  match goal with |- rtc _ ?h _ => replace h with raced by (vm_compute; reflexivity) end. apply rtc_refl.
Qed.
End Witness.
