(* ===== verification/HubLink.v ===== *)
(** * Connections against the hub's queue

    [Hub] follows an emitting connection only as far as its queue needs: by the
    phases of [emit], and by whether the connection is over.  Here the method
    [emit] of [Link], with its lock, its envelope and the whole of
    [terminate], is shown to do exactly what those phases say. *)

From S2P Require Import Prelude Events Prog Link LinkFun Hub.

Section HubLink.
Context `{Target}.
(** The connection [w] sees the hub [h], which knows whether it is over. *)
Record agrees (w : World) (h : Hub) : Prop := {
  ag_closed : hub_closed (events w) = Hub.closed h;
  ag_receiver : receiver (events w) = true ↔ phase h ≠ Dropped;
  ag_over : state (flags w) = Closed ↔ id (cfg w) ∈ Hub.ended h
}.
(** The hub's steps for one call of [emit] that begins. *)
Definition emitting (ev : Event) (p : Phase) (w : World) : Emit := {| em_conn := id (cfg w); em_event := ev; em_phase := p |}.
Lemma emit_steps ev p p' w l h h' :
  emits h = l ++ [emitting ev p w] → emit_turn (emitting ev p w) h = (p', h') →
  hub_step h (set_emits (l ++ [emitting ev p' w]) h').
Proof.
  intros El Et. replace (l ++ [emitting ev p' w]) with (<[length l := set_em_phase p' (emitting ev p w)]> (emits h)).
  - eapply step_emit; [|done]. rewrite El. by apply list_lookup_middle.
  - rewrite El. replace (length l) with (length l + 0)%nat by lia. by rewrite insert_app_r.
Qed.
(** What [terminate] leaves. *)
Lemma run_terminate (o : oracle) i w :
  owner w = None → in_memory w = true →
  ∃ w', run o i terminate w = Some (tt, w', i) ∧ cfg w' = cfg w ∧ state (flags w') = Closed ∧
    hub_closed (events w') = hub_closed (events w) ∧ receiver (events w') = receiver (events w) ∧
    (state (flags w) = Closed ∨ hub_closed (events w) = true → sent (events w') = sent (events w)).
Proof.
  intros Ho Hm. unfold terminate. rewrite run_finish by done. case_bool_decide as Hs; [by exists w|].
  exists (closed_world 1006 [] w). split; [done|].
  unfold closed_world, finish_section. rewrite bool_decide_false by done. unfold io_shutdown, events_send, send_pending. simpl.
  destruct (hub_closed (events w)) eqn:Eh, (receiver (events w)) eqn:Er, (io w); simpl; split_and!; try done; by intros [?|?].
Qed.
(** One section of [emit], and the phases before its second look. *)
Lemma emit_section_turns ev w l h :
  hub_ok h → agrees w h → emits h = l ++ [emitting ev Begun w] →
  let '(ok, w1) := emit_section ev w in
  ∃ h1, rtc hub_step h h1 ∧ emits h1 = l ++ [emitting ev (Rechecking ok) w] ∧ agrees w1 h1 ∧ hub_ok h1 ∧
    cfg w1 = cfg w ∧ owner w1 = owner w ∧ in_memory w1 = in_memory w ∧ (ok = false → Hub.closed h1 = true) ∧
    ∃ new, sent (events w1) = sent (events w) ++ new ∧ Hub.queue h1 = Hub.queue h ++ map q_event new ∧
      (state (flags w) ≠ Closed → Hub.closed h = false → map q_event new = [ev]).
Proof.
  intros Hok [A1 A2 A3] El. unfold emit_section.
  case_bool_decide as Hs.
  { exists (set_emits (l ++ [emitting ev (Rechecking true) w]) h).
    assert (hub_step h (set_emits (l ++ [emitting ev (Rechecking true) w]) h)) as Hst.
    { eapply emit_steps; [done|]. unfold emit_turn. simpl. rewrite bool_decide_true; [done|]. by apply A3. }
    split_and!; [by apply rtc_once|done|done|by eapply hub_step_ok|done|done|done|done|].
    exists []. by rewrite !app_nil_r. }
  unfold events_send, send_pending. rewrite A1. destruct (Hub.closed h) eqn:Ec.
  { exists (set_emits (l ++ [emitting ev (Rechecking false) w]) h).
    assert (hub_step h (set_emits (l ++ [emitting ev (Rechecking false) w]) h)) as Hst.
    { eapply emit_steps; [done|]. unfold emit_turn. simpl. rewrite bool_decide_false, Ec; [done|]. by rewrite <-A3. }
    split_and!; [by apply rtc_once|done|split; simpl; [by rewrite Ec|done|done]|by eapply hub_step_ok|done|done|done|done|].
    exists []. by rewrite !app_nil_r. }
  assert (phase h ≠ Dropped) as Hp by (intros E; by rewrite (ho_closed h Hok) in Ec by (by rewrite E)).
  rewrite (proj2 A2 Hp).
  set (h1 := set_emits (l ++ [emitting ev Checked w]) h).
  assert (hub_step h h1) as H1.
  { eapply emit_steps; [done|]. unfold emit_turn. simpl. rewrite bool_decide_false, Ec; [done|]. by rewrite <-A3. }
  set (h2 := set_emits (l ++ [emitting ev (Rechecking true) w]) (Hub.set_queue (Hub.queue h1 ++ [ev]) h1)).
  assert (hub_step h1 h2) as H2.
  { eapply emit_steps; [done|]. unfold emit_turn. simpl. by rewrite bool_decide_false. }
  exists h2. split_and!; [eapply rtc_l; [exact H1|by apply rtc_once]|done|split; simpl; [by rewrite Ec|done|done]| |done|done|done|done|].
  { by eapply hub_step_ok, hub_step_ok. }
  eexists [_]. split; [done|]. by split.
Qed.
(** A call of [emit] that runs by itself is a sequence of the hub's steps: it
    ends emitted, what entered the channel is what the queue gained, and the
    connection is over afterwards exactly if the hub says so; with the hub
    closed it is over in any case. *)
Theorem emit_refines (o : oracle) ev i w l h :
  hub_ok h → agrees w h → emits h = l ++ [emitting ev Begun w] → owner w = None → in_memory w = true →
  ∃ w' h', run o i (emit ev) w = Some (tt, w', i) ∧ rtc hub_step h h' ∧
    emits h' = l ++ [emitting ev Emitted w] ∧ agrees w' h' ∧ hub_ok h' ∧
    (Hub.closed h = true → state (flags w') = Closed) ∧
    ∃ new, sent (events w') = sent (events w) ++ new ∧ Hub.queue h' = Hub.queue h ++ map q_event new.
Proof.
  intros Hok Ha El Ho Hm. pose proof (emit_section_turns ev w l h Hok Ha El) as Ht.
  destruct (emit_section ev w) as [ok w1] eqn:Es.
  destruct Ht as (h1 & Hst & El1 & [B1 B2 B3] & Hok1 & Ecfg & Eo & Em & Hf & new & Esent & Eq & _).
  unfold emit. rewrite run_bind, run_locked; [|done|rewrite Es; cbn [snd]; congruence]. rewrite Es. cbn [fst snd]. rewrite run_bind, run_reads, B1.
  assert (Hub.closed h1 = Hub.closed h) as Ec.
  { rewrite <-B1, <-(ag_closed _ _ Ha). revert Es. unfold emit_section. case_bool_decide; [by intros [= _ <-]|].
    unfold events_send, send_pending. destruct (hub_closed (events w)) eqn:?, (receiver (events w)); intros [= _ <-]; simpl; congruence. }
  set (h2 := set_emits (l ++ [emitting ev Emitted w]) (if negb ok || Hub.closed h1 then end_conn (id (cfg w)) h1 else h1)).
  assert (hub_step h1 h2) as H2 by (by eapply emit_steps).
  assert (rtc hub_step h h2) as Hr by (etrans; [exact Hst|by apply rtc_once]).
  assert (hub_ok h2) as Hok2 by (by eapply hub_step_ok).
  destruct (negb ok || Hub.closed h1) eqn:Eb.
  - assert (Hub.closed h1 = true) as Ec1 by (apply orb_true_iff in Eb as [Eb%negb_true_iff|Eb]; auto).
    destruct (run_terminate o i w1) as (w2 & -> & C1 & C2 & C3 & C4 & C5); [congruence|congruence|].
    exists w2, h2. split_and!; try done.
    + split; simpl; [by rewrite C3|by rewrite C4|]. rewrite C1, Ecfg. split; [intros _; set_solver|done].
    + exists new. split; [|done]. rewrite C5; [done|]. right. congruence.
  - exists w1, h2. split_and!; try done.
    + apply orb_false_iff in Eb as [_ Eb]. congruence.
    + by exists new.
Qed.
End HubLink.
