(* ===== verification/ClientProps.v ===== *)
(** * Properties of the client

    Exactly which arguments [connect] accepts, and what the application sees
    of a connection that could not be established. *)

From S2P Require Import Prelude Utf8 Str Http Ip Url Base64 Handshake UrlFacts HandshakeFacts Head Dial Events Prog Link LinkInv LinkSafe LinkFun Flush Replies Client.

Section ClientProps.
Context `{Tls}.

(** ** Arguments *)
Lemma check_protocols_iff ps : ∀ seen,
  check_protocols ps seen = Ok tt ↔ Forall (λ p, is_token p = true) ps ∧ NoDup ps ∧ ∀ p, p ∈ ps → p ∉ seen.
Proof.
  induction ps as [|p ps IH]; intros seen; cbn [check_protocols].
  { split; [|done]. intros _. split; [done|]. split; [by apply NoDup_nil|]. intros p Hp. by apply elem_of_nil in Hp. }
  rewrite Forall_cons, NoDup_cons. destruct (is_token p); cbn [negb orb]; [|split; [done|by intros [[? _] _]]].
  case_bool_decide as Hs.
  - split; [done|]. intros (_ & _ & Hn). by destruct (Hn p); [left|].
  - rewrite IH. split.
    + intros (Ht & Hnd & Hn). split; [done|]. split; [split; [|done]|].
      * intros Hp. apply (Hn p Hp). by left.
      * intros q [->|Hq]%elem_of_cons; [done|]. specialize (Hn q Hq). set_solver.
    + intros ([_ Ht] & [Hp Hnd] & Hn). split; [done|]. split; [done|]. intros q Hq [->|Hq']%elem_of_cons; [done|].
      by apply (Hn q); [right|].
Qed.
Lemma check_headers_iff hs : check_headers hs = Ok tt ↔ Forall (λ h, check_header h.1 h.2 = Ok tt) hs.
Proof.
  induction hs as [|[n v] hs IH]; cbn [check_headers]; [done|]. rewrite Forall_cons. cbn [fst snd].
  destruct (check_header n v) as [[]|e]; [rewrite IH; tauto|]. split; [done|by intros [? _]].
Qed.

(** What [connect] demands of its arguments, besides a URL. *)
Record arguments_ok (now : Z) (rt : result unit bytes) (url : Url) (opts : ClientOptions) : Prop := {
  a_limits : c_max_message opts ≠ 0 ∧ c_max_buffer opts ≠ 0;
  a_heartbeat : c_heartbeat opts ≠ Some 0;
  a_tokens : Forall (λ p, is_token p = true) (c_protocols opts);
  a_distinct : NoDup (c_protocols opts);
  a_headers : Forall (λ h, check_header h.1 h.2 = Ok tt) (c_headers opts);
  a_scheme : is_Some (c_tls opts) → tls url = true;
  a_tls : tls url = true →
    (c_tls opts = None → ∃ c, tls_client = Ok c) ∧ is_Some (server_name (host url));
  a_timeout : now + c_timeout opts <= INSTANT_MAX;
  a_runtime : rt = Ok tt
}.
Lemma client_tls_ok opts url :
  (∃ t, client_tls opts url = Ok t) ↔
  (tls url = true → (c_tls opts = None → ∃ c, tls_client = Ok c) ∧ is_Some (server_name (host url))).
Proof.
  unfold client_tls. destruct (tls url); [|naive_solver].
  destruct (c_tls opts) as [c|], tls_client as [c'|e], (server_name (host url)); split; naive_solver.
Qed.
Lemma connect_ok now token rt events id input opts s :
  connect now token rt events id input opts = Ok s →
  parse_url input = Ok (t_url (s_target s)) ∧ arguments_ok now rt (t_url (s_target s)) opts ∧
  s_deadline s = now + c_timeout opts ∧
  s_link s = link_new {| Link.id := id; is_server := false; max_message := c_max_message opts;
                         buffer := c_max_buffer opts; interval := c_heartbeat opts; token := token; born := now |} events.
Proof.
  unfold connect. destruct (parse_url input) as [url|e] eqn:Eu; [|done].
  destruct (Z.eqb_spec (c_max_message opts) 0), (Z.eqb_spec (c_max_buffer opts) 0); try done. cbn [orb].
  case_bool_decide as Eh; [done|].
  destruct (check_protocols (c_protocols opts) []) as [[]|] eqn:Ep; [|done]. apply check_protocols_iff in Ep as (? & ? & _).
  destruct (check_headers (c_headers opts)) as [[]|] eqn:Ehd; [|done]. apply check_headers_iff in Ehd.
  destruct (bool_decide (is_Some (c_tls opts)) && negb (tls url)) eqn:Es; [done|].
  destruct (client_tls opts url) as [t|] eqn:Et; [|done].
  unfold checked_add. destruct (Z.leb_spec (now + c_timeout opts) INSTANT_MAX); [|done].
  destruct rt as [[]|]; [|done]. intros [= <-]. cbn [s_target t_url s_deadline s_link]. split; [done|]. split; [|done].
  split; try done; [|apply client_tls_ok; by eexists].
  intros Htls. rewrite bool_decide_true in Es by done. by destruct (tls url).
Qed.

(** [connect] accepts exactly the valid arguments: a URL the parser
    accepts, positive limits and heartbeat, distinct token subprotocols,
    headers that may be added, TLS settings only for [wss://] with a usable
    configuration and server name, and a timeout the clock can express.  The
    connection it makes is a new client connection with those limits. *)
Theorem connect_accepts now token rt events id input opts :
  (∃ s, connect now token rt events id input opts = Ok s ∧
     parse_url input = Ok (t_url (s_target s)) ∧ s_deadline s = now + c_timeout opts ∧
     s_link s = link_new {| Link.id := id; is_server := false; max_message := c_max_message opts;
                            buffer := c_max_buffer opts; interval := c_heartbeat opts; token := token; born := now |} events)
  ↔ ∃ url, parse_url input = Ok url ∧ arguments_ok now rt url opts.
Proof.
  split.
  - intros (s & Hs & _). apply connect_ok in Hs as (? & ? & _). eauto.
  - intros (url & Eu & [[L1 L2] Hh Ht Hd Hhd Hsc Htls Htime ->]).
    enough (∃ s, connect now token (Ok tt) events id input opts = Ok s) as [s Hs].
    { exists s. split; [done|]. by apply connect_ok in Hs as (? & _ & ?). }
    unfold connect. rewrite Eu. destruct (Z.eqb_spec (c_max_message opts) 0), (Z.eqb_spec (c_max_buffer opts) 0); try done.
    cbn [orb]. rewrite bool_decide_false by done.
    rewrite (proj2 (check_protocols_iff (c_protocols opts) [])) by (split_and!; [done|done|intros ? _; apply not_elem_of_nil]).
    rewrite (proj2 (check_headers_iff (c_headers opts))) by done.
    assert (bool_decide (is_Some (c_tls opts)) && negb (tls url) = false) as ->.
    { case_bool_decide as Hs; [|done]. by rewrite (Hsc Hs). }
    destruct (proj2 (client_tls_ok opts url) Htls) as [t ->]. unfold checked_add.
    destruct (Z.leb_spec (now + c_timeout opts) INSTANT_MAX); [by eexists|lia].
Qed.

(** ** A connection that could not be established *)
Lemma run_fail_listening (o : oracle) e i w :
  listening w → in_memory w = true →
  ∃ w', run o i (_ ← fail e; _ ← lease_drop; Done (@None bytes)) w = Some (None, w', i) ∧
    state (flags w') = Closed ∧ stopped w' = true ∧
    map q_event (sent (events w')) =
      map q_event (sent (events w)) ++ [EvError (Link.id (cfg w)) e; EvClose (Link.id (cfg w)) 1006 []].
Proof.
  intros Hl Hm. unfold fail, self_id. rewrite !run_bind, run_reads.
  destruct (emit_listening o (EvError (Link.id (cfg w)) e) i w Hl Hm eq_refl) as (w1 & E & Hin & _ & Hev).
  rewrite run_bind, E. pose proof (in_listening _ _ Hin) as (Ho & Hh & Hr & Hs).
  assert (in_memory w1 = true) as Hm1.
  { unfold in_memory, outstanding, pending_out in *. by rewrite (in_wtr _ _ Hin), (in_queue _ _ Hin). }
  rewrite run_finish, bool_decide_false by done.
  destruct (closed_world_facts 1006 [] w1 Hs Ho) as (C1 & C2 & C3 & _ & C5).
  pose proof (closed_world_memory 1006 [] w1 Hs Hm1).
  rewrite run_bind. unfold lease_drop, terminate. rewrite run_finish, bool_decide_true by done.
  eexists. split; [done|]. split; [done|]. split; [done|]. rewrite C5, Hev, (in_cfg _ _ Hin) by done. by rewrite <-app_assoc.
Qed.
Lemma run_start (o : oracle) i rest p c e :
  hub_closed e = false → receiver e = true →
  ∃ w', run o i (start rest p (EvOpen (Link.id c))) (link_new c e) = Some (Some rest, w', i) ∧
    state (flags w') = Open ∧ protocol w' = Some p ∧ io w' = Some true ∧
    map q_event (sent (events w')) = map q_event (sent e) ++ [EvOpen (Link.id c)].
Proof.
  intros Hh Hr. unfold start. rewrite run_bind, run_modify, run_bind, run_modify, run_bind, run_modify.
  set (w1 := set_protocol _ _).
  assert (owner w1 = None ∧ events w1 = e ∧ state (flags w1) = Connecting ∧ in_memory w1 = true ∧
          protocol w1 = Some p ∧ io w1 = Some true) as (Ho & Ee & Es & Hm & Hp & Hi).
  { unfold w1. simpl. by destruct (interval c). }
  clearbody w1. subst e. assert (start_section (EvOpen (Link.id c)) w1 =
    (Some true, set_events (events_send (EvOpen (Link.id c)) (events w1)).2 (on_flags (set_state Open) w1))) as E.
  { unfold start_section. rewrite Es. unfold events_send, send_pending.
    simpl.
    by rewrite Hh, Hr. }
  rewrite run_bind, run_locked; [|done|by rewrite E]. rewrite E. cbn [fst snd]. rewrite run_bind, run_reads.
  unfold events_send, send_pending. rewrite Hh, Hr. simpl. eexists. split; [done|]. simpl.
  split_and!; try done. by rewrite map_app.
Qed.

(** C30: Every connection that [connect] makes reports how it went, once.  If
    establishing the stream fails or the deadline passes, the application gets
    one error event with the reason and then the final event with code 1006;
    if it succeeds, the connection is open, with the subprotocol that was
    agreed, the application gets one open event, and the loops begin with the
    bytes that were read past the response. *)
Theorem connect_reported (o : oracle) i now token rt e id input opts s outcome :
  connect now token rt e id input opts = Ok s → hub_closed e = false → receiver e = true →
  o i Select ≠ SelStopped → o i Select ≠ SelHubClosed →
  match outcome with
  | Some (Ok (rest, p)) =>
      ∃ w', run o i (client_worker id outcome) (s_link s) = Some (Some rest, w', S i) ∧
        state (flags w') = Open ∧ protocol w' = Some p ∧
        map q_event (sent (events w')) = map q_event (sent e) ++ [EvOpen id]
  | _ =>
      ∃ w', run o i (client_worker id outcome) (s_link s) = Some (None, w', S i) ∧
        state (flags w') = Closed ∧ stopped w' = true ∧
        map q_event (sent (events w')) = map q_event (sent e) ++
          [EvError id (match outcome with Some (Err why) => why | _ => bs "handshake timed out" end); EvClose id 1006 []]
  end.
Proof.
  intros Hs Hh Hr S1 S2. apply connect_ok in Hs as (_ & _ & _ & ->). set (c := Build_Config _ _ _ _ _ _ _).
  assert (run o i (client_worker id outcome) (link_new c e) =
    run o (S i) (match outcome with
      | Some (Ok (rest, protocol)) => start rest protocol (EvOpen id)
      | Some (Err e) => _ ← fail e; _ ← lease_drop; Done None
      | None => _ ← fail (bs "handshake timed out"); _ ← lease_drop; Done None
      end) (link_new c e)) as ->.
  { unfold client_worker. rewrite (run_ask Select). by destruct (o i Select). }
  assert (listening (link_new c e)) as Hl by done.
  assert (∀ why, ∃ w', run o (S i) (_ ← fail why; _ ← lease_drop; Done (@None bytes)) (link_new c e) = Some (None, w', S i) ∧
    state (flags w') = Closed ∧ stopped w' = true ∧
    map q_event (sent (events w')) = map q_event (sent e) ++ [EvError id why; EvClose id 1006 []]) as Hf.
  { intros why. by apply (run_fail_listening o why (S i) (link_new c e) Hl). }
  destruct outcome as [[[rest p]|why]|]; [|apply Hf..].
  destruct (run_start o (S i) rest p c e Hh Hr) as (w' & E & ? & ? & _ & ?). by exists w'.
Qed.
End ClientProps.

Module Witness.
#[local] Instance no_tls : Tls := {| ClientConfig := unit; ServerName := bytes; tls_client := Ok tt; server_name := Some |}.
Definition opts : ClientOptions := {|
  c_protocols := [bs "chat"]; c_headers := [(bs "Origin", bs "https://example.com")]; c_tls := None; c_timeout := 10 * SECOND;
  c_max_message := MAX_MESSAGE; c_max_buffer := MAX_BUFFER; c_heartbeat := Some HEARTBEAT |}.
Definition quiet_oracle : oracle := λ _ q,
  match q return answer q with
  | Now => 0 | Key => (0, 0, 0, 0) | Select => SelRead | ReadIo => ReadOk []
  | WriteIo n => IoFailed | FlushIo => IoFailed | ShutdownIo => IoFailed
  end.
Lemma connect_reported_witness :
  ∃ s w', connect 0 [] (Ok tt) events_from 7 sample_input opts = Ok s ∧
    run quiet_oracle 0 (client_worker 7 (Some (Err (bs "cannot resolve")))) (s_link s) = Some (None, w', 1%nat) ∧
    map q_event (sent (events w')) = [EvError 7 (bs "cannot resolve"); EvClose 7 1006 []].
Proof.
  assert (∃ s, connect 0 [] (Ok tt) events_from 7 sample_input opts = Ok s) as [s Hs] by (eexists; vm_compute; reflexivity).
  destruct (connect_reported quiet_oracle 0 0 [] (Ok tt) events_from 7 sample_input opts s (Some (Err (bs "cannot resolve"))))
    as (w' & E & _ & _ & Hev); [exact Hs|reflexivity..|discriminate|discriminate|].
  by exists s, w'.
Defined.
End Witness.
