(* ===== verification/Serve.v ===== *)
(** * The server's side of a session (core/src/net/serve.rs, core/src/reply.rs,
      core/src/net/server.rs, core/src/net/options.rs)

    A worker per accepted socket runs the handshake: it reads the request,
    asks the application, answers, and starts the connection.  The socket, the
    deadline and the application are the fields of [ServeNet]. *)

From S2P Require Import Prelude Utf8 Str Http Ip Url Base64 Handshake Head Dial Events Prog Link Client.

(** ** The application's decision (event.rs, reply.rs) *)
Inductive Reply := Accept (protocol : option bytes) | Reject (status : Z).
#[export] Instance Reply_eq_dec : EqDecision Reply.
Proof. solve_decision. Defined.
(** The oneshot channel behind a [ReplySender]: whether the sender is still in
    its mutex, what was sent, and whether the receiver exists. *)
Record Channel := { ch_sender : bool; ch_value : option Reply; ch_receiver : bool }.
Definition channel : Channel := {| ch_sender := true; ch_value := None; ch_receiver := true |}.
(** [ReplySender::send]: an unsent reply is given back. *)
Definition reply_send (c : Channel) (r : Reply) : result unit Reply * Channel :=
  if ch_sender c then
    if ch_receiver c then
      (Ok tt, {| ch_sender := false; ch_value := Some r; ch_receiver := true |})
    else (Err r, {| ch_sender := false; ch_value := ch_value c; ch_receiver := false |})
  else (Err r, c).

(** ** Options and [listen] *)
Record ServerOptions := {
  v_host : bytes; v_port : Z; v_tls : bool; v_max_message : Z; v_max_buffer : Z;
  v_heartbeat : option Z; v_max_connections : Z
}.
Definition server_default : ServerOptions := {|
  v_host := bs "0.0.0.0"; v_port := 0; v_tls := false; v_max_message := MAX_MESSAGE;
  v_max_buffer := MAX_BUFFER; v_heartbeat := Some HEARTBEAT; v_max_connections := USIZE_MAX
|}.
(** [Shared]: what the workers of a server have in common; the counters are
    in [Admission]. *)
Record Shared := {
  sh_id : Z; sh_tls : bool; sh_message : Z; sh_buffer : Z; sh_heartbeat : option Z; sh_max_connections : Z
}.
(** [listen]: [rt] and [bound] are the results of [runtime::shared()] and of
    binding the listener, whose address is returned. *)
Definition listen {Addr} (rt : result unit bytes) (bound : result Addr bytes) (id : Z) (opts : ServerOptions)
    : result (Shared * Addr) bytes :=
  if (v_max_message opts =? 0) || (v_max_buffer opts =? 0) || (v_max_connections opts =? 0) then
    Err (bs "limits must be positive") else
  if bool_decide (v_heartbeat opts = Some 0) then Err (bs "heartbeat must be positive") else
  let? _ := rt in
  let? addr := bound in
  Ok ({| sh_id := id; sh_tls := v_tls opts; sh_message := v_max_message opts; sh_buffer := v_max_buffer opts;
         sh_heartbeat := v_heartbeat opts; sh_max_connections := v_max_connections opts |}, addr).

(** ** What the worker meets *)
(** While rejecting: the write of the response, the shutdown, and the reads of
    the drain, [None] for an error or the deadline. *)
Record RejectNet := { j_write : bool; j_shutdown : bool; j_reads : list (option Z) }.
Record ServeNet := {
  v_addr : option (bytes * Z);               (* [tcp.peer_addr().ok()] *)
  v_transport : bool;                        (* the transport is ready in time *)
  v_reads : list (result bytes IoError);     (* the reads before the deadline *)
  v_decision : option Reply;                 (* [None]: too late, or the sender was dropped *)
  v_write : bool;                            (* the response is written in time *)
  v_reject : RejectNet
}.
Record Accepted := { a_rest : bytes; a_protocol : option bytes; a_req : UpgradeRequest }.
(** What a handshake leaves: the events it sent, the bytes it wrote, whether
    it shut the stream down, the bytes it drained, and what was accepted. *)
Record Served := {
  o_events : Events; o_written : bytes; o_shutdown : bool; o_drained : Z; o_accepted : option Accepted
}.

(** ** [reject] *)
Definition REJECT_DRAIN : Z := 64 * 1024.
Fixpoint drain_loop (total : Z) (reads : list (option Z)) : Z :=
  match reads with
  | Some n :: reads =>
      if (REJECT_DRAIN <=? total) || (n =? 0) then total else drain_loop (total + n) reads
  | _ => total
  end.
Definition reject_with (net : ServeNet) (e : Events) (status : Z) : Served :=
  let j := v_reject net in
  if negb (j_write j) then
    {| o_events := e; o_written := []; o_shutdown := false; o_drained := 0; o_accepted := None |} else
  if negb (j_shutdown j) then
    {| o_events := e; o_written := reject status; o_shutdown := false; o_drained := 0; o_accepted := None |} else
  {| o_events := e; o_written := reject status; o_shutdown := true;
     o_drained := drain_loop 0 (j_reads j); o_accepted := None |}.
Definition abandoned (e : Events) : Served :=
  {| o_events := e; o_written := []; o_shutdown := false; o_drained := 0; o_accepted := None |}.

Section Serve.
Variable sha1 : bytes → bytes.

(** ** [handshake] *)
(** The part after the application was asked.  [v_write] is the whole of
    [Stream::write_all], the flush included: when it fails or is late nothing
    counts as written, although the peer may have a part of the response, or
    all of it when only the flush failed; the socket is dropped in either
    case. *)
Definition answer_request (net : ServeNet) (e : Events) (rest : bytes) (parsed : Request) (req : UpgradeRequest) : Served :=
  match v_decision net with
  | Some (Accept protocol) =>
      if match protocol with Some p => negb (bool_decide (p ∈ req_protocols req)) | None => false end then
        reject_with net e 500
      else if v_write net then
        {| o_events := e; o_written := switching sha1 (r_key parsed) protocol; o_shutdown := false; o_drained := 0;
           o_accepted := Some {| a_rest := rest; a_protocol := protocol; a_req := req |} |}
      else abandoned e
  | Some (Reject status) =>
      reject_with net e (if (400 <=? status) && (status <=? 599) then status else 500)
  | None => reject_with net e 503
  end.
(** [reply] names the reply sender of this request. *)
Definition handshake (sh : Shared) (e : Events) (net : ServeNet) (reply : Z) : Served :=
  match v_addr net with
  | None => abandoned e
  | Some addr =>
      if negb (v_transport net) then abandoned e else
      match read_head (v_reads net) with
      | Some (Err TooLarge) => reject_with net e 431
      | None => reject_with net e 408
      | Some (Err (HeadIo _)) => abandoned e
      | Some (Ok (head, rest)) =>
          match request head with
          | Err status => reject_with net e status
          | Ok parsed =>
              let req := {| path := r_target parsed; req_headers := r_headers parsed;
                            req_protocols := r_protocols parsed; addr := addr |} in
              let '(sent, e) := send_pending (EvRequest (sh_id sh) req reply) true e in
              if negb sent then abandoned e else answer_request net e rest parsed req
          end
      end
  end.

(** ** [serve]

    The connection the worker starts, if any, and the program that starts it;
    [stop] is the server's signal after the handshake.  A handshake that one
    of the two signals cuts short makes no connection either. *)
Definition serve (sh : Shared) (hub : Events) (net : ServeNet) (reply conn now : Z) (token : bytes) (stop : bool)
    : option (World * method (option bytes)) :=
  let o := handshake sh (admitted hub) net reply in
  match o_accepted o with
  | None => None
  | Some a =>
      if stop || hub_closed (o_events o) then None else
      Some (link_new {| Link.id := conn; is_server := true; max_message := sh_message sh; buffer := sh_buffer sh;
                        interval := sh_heartbeat sh; token := token; born := now |} (o_events o),
            start (a_rest a) (a_protocol a) (EvConnection (sh_id sh) conn (a_req a)))
  end.
End Serve.
