(* ===== verification/Session.v ===== *)
(** * A whole opening handshake: client and server together

    The request the client of [Client] writes is read, in any chunks, by the
    server of [Serve], whose answer is read, in any chunks, by the client. *)

From S2P Require Import Prelude Utf8 Str Http Ip Url Base64 Handshake UrlFacts HandshakeFacts HandshakeProps Head Dial Events Prog Link Client ClientProps Serve.

(** ** A printed head ends where it ends *)
Lemma head_end_skip l t : 13 ∉ l → head_end (l ++ t) = (λ n, (length l + n)%nat) <$> head_end t.
Proof.
  induction l as [|b l IH]; intros Hl; [cbn [app length]; by destruct (head_end t)|].
  assert (b ≠ 13 ∧ 13 ∉ l) as [Hb Hl'] by set_solver. cbn [app head_end].
  rewrite bool_decide_false by (unfold BLANK, CRLF; cbn; intros E; simplify_eq).
  rewrite (IH Hl'). by destruct (head_end t).
Qed.
Lemma head_end_crlf b t : b ≠ 13 → head_end (CRLF ++ b :: t) = (λ n, (2 + n)%nat) <$> head_end (b :: t).
Proof.
  intros Hb. unfold CRLF at 1. cbn [app]. remember (b :: t) as t' eqn:E. cbn [head_end].
  rewrite !bool_decide_false by (unfold BLANK, CRLF; subst; cbn; intros E'; simplify_eq). by destruct (head_end t').
Qed.
Lemma header_line_head h : sendable h → ∃ b l, header_line h = b :: l ∧ b ≠ 13.
Proof.
  intros [Hn Hv]. pose proof (is_token_Forall _ Hn) as [Hne _]. unfold header_line. destruct (h.1) as [|b n] eqn:E; [done|].
  exists b. eexists. split; [done|]. intros ->. eapply (token_not_in _ 13); [exact Hn|done|]. by left.
Qed.
Lemma head_end_print start hs t :
  13 ∉ start → Forall sendable hs →
  head_end (print_head start hs ++ t) = Some (length (print_head start hs)).
Proof.
  unfold print_head. revert start. induction hs as [|h hs IH]; intros start Hs Hhs.
  - cbn [map concat app]. rewrite <-!app_assoc, head_end_skip by done.
    assert (head_end (CRLF ++ CRLF ++ t) = Some 4%nat) as -> by done. cbn. f_equal. rewrite length_app. done.
  - apply Forall_cons in Hhs as [Hh Hhs]. cbn [map concat]. rewrite <-!app_assoc, head_end_skip by done.
    destruct (header_line_head h Hh) as (b & l & El & Hb). specialize (IH (header_line h) (sendable_line h Hh) Hhs).
    rewrite <-!app_assoc in IH. rewrite El in IH |- *. cbn [app] in IH |- *. rewrite head_end_crlf, IH by done.
    cbn [fmap option_fmap option_map]. f_equal. rewrite !length_app. cbn [length app]. rewrite !length_app. cbn [length]. rewrite ?length_app. simpl. lia.
Qed.
Lemma head_end_whole start hs :
  13 ∉ start → Forall sendable hs → head_end (print_head start hs) = Some (length (print_head start hs)).
Proof. intros Hs Hhs. pose proof (head_end_print start hs [] Hs Hhs) as H. by rewrite app_nil_r in H. Qed.

(** ** What [read_head] takes of the reads

    [used] is what it takes: it decides on them, and on no shorter prefix. *)
Definition takes (used : list (result bytes IoError)) : Prop :=
  is_Some (read_head used) ∧ ∀ p r, used = p ++ [r] → read_head p = None.
Definition read_bytes (reads : list (result bytes IoError)) : bytes :=
  concat (map (λ r, match r with Ok c => c | Err _ => [] end) reads).
(** After the head, [rest] and the bytes of the reads not yet made are [data]:
    nothing of it is lost, repeated or made up. *)
Definition leaves (reads : list (result bytes IoError)) (rest data : bytes) : Prop :=
  ∃ used left, reads = used ++ left ∧ takes used ∧ rest ++ read_bytes left = data.

Lemma read_bytes_chunks cs : read_bytes (map Ok cs) = concat cs.
Proof. unfold read_bytes. rewrite map_map. by rewrite map_id. Qed.
Lemma read_head_loop_more p q r : ∀ buf, read_head_loop buf p = Some r → read_head_loop buf (p ++ q) = Some r.
Proof.
  induction p as [|[c|e] p IH]; intros buf H; [done| |done]. cbn [read_head_loop app] in *.
  repeat case_match; try done. by apply IH.
Qed.
(** An incomplete head within the limit is waited for. *)
Lemma read_head_waits head cs t :
  head_end head = Some (length head) → zlen head <= MAX_HEAD → Forall nonempty cs →
  head = concat cs ++ t → t ≠ [] → read_head (map Ok cs) = None.
Proof.
  intros He Hl Hcs E Ht. assert (length (concat cs) < length head)%nat as Hlt.
  { rewrite E, length_app. destruct t; [done|simpl; lia]. }
  pose proof (read_head_loop_correct cs [] Hcs eq_refl) as H. cbn [app] in H.
  specialize (H ltac:(unfold MAX_HEAD, zlen; simpl; lia)). cbv zeta in H. destruct (head_end (concat cs)) as [n|] eqn:En.
  - pose proof (head_end_length _ _ En). apply (head_end_app_l _ t) in En. rewrite <-E, He in En. simplify_eq. lia.
  - unfold read_head. rewrite H. unfold zlen in *. by destruct (Z.leb_spec (Z.of_nat (length (concat cs))) MAX_HEAD); [|lia].
Qed.
(** Reading a complete head in any chunks. *)
Lemma read_head_exact head t cs :
  head_end head = Some (length head) → zlen head <= MAX_HEAD → Forall nonempty cs → concat cs = head ++ t →
  ∃ rest, leaves (map Ok cs) rest t ∧ read_head (map Ok cs) = Some (Ok (head, rest)).
Proof.
  intros He Hl Hcs Ec. assert (∀ cs1 cs2, cs = cs1 ++ cs2 → (length head <= length (concat cs1))%nat →
    ∃ cs1', completes [] cs1 cs1' (length head) ∧ read_head (map Ok cs1) = Some (Ok (head, drop (length head) (concat cs1')))) as Hread.
  { intros cs1 cs2 -> Hle. apply Forall_app in Hcs as [Hcs _].
    assert (concat cs1 = head ++ take (length (concat cs1) - length head) t) as E1.
    { rewrite concat_app in Ec. apply (f_equal (take (length (concat cs1)))) in Ec. rewrite take_app_length in Ec.
      by rewrite take_app_ge in Ec. }
    pose proof (read_head_loop_correct cs1 [] Hcs eq_refl) as H. cbn [app] in H.
    specialize (H ltac:(unfold MAX_HEAD, zlen; simpl; lia)). rewrite E1, (head_end_app_l _ _ _ He) in H. cbv zeta in H.
    unfold zlen in Hl. destruct (Z.leb_spec (Z.of_nat (length head)) MAX_HEAD); [|lia]. by rewrite take_app_length in H. }
  destruct (Hread cs [] (eq_sym (app_nil_r cs))) as (cs1 & ([cs2 E] & Hle & Hmin) & Hr).
  { rewrite Ec, length_app. lia. }
  exists (drop (length head) (concat cs1)). split; [|exact Hr]. cbn [app] in Hle, Hmin.
  exists (map Ok cs1), (map Ok cs2). split; [by rewrite <-map_app, <-E|]. split; [split|].
  - destruct (Hread cs1 cs2 E Hle) as (cs1' & _ & ->). by eexists.
  - intros p r Ep. destruct cs1 as [|c cs1 _] using rev_ind; [by destruct p|]. rewrite map_app in Ep.
    apply app_inj_tail in Ep as [<- _]. specialize (Hmin cs1 c eq_refl). subst cs. rewrite !Forall_app in Hcs. destruct Hcs as [[Hcs _] _].
    apply (read_head_waits head cs1 (drop (length (concat cs1)) head)); [done..| |].
    + rewrite !concat_app, <-app_assoc in Ec. apply (f_equal (take (length (concat cs1)))) in Ec.
      rewrite take_app_length, take_app_le in Ec by lia. rewrite Ec at 1. by rewrite take_drop.
    + intros E. apply (f_equal length) in E. rewrite length_drop in E. simpl in E. lia.
  - rewrite read_bytes_chunks. subst cs. rewrite concat_app in Ec. rewrite <-(drop_app_length head t), <-Ec. by rewrite drop_app_le.
Qed.

(** ** The heads of this library *)
Lemma client_request_end url nonce ps hs :
  wf_url url → length nonce = 16%nat → Forall (λ p, is_token p = true) ps → Forall extra_ok hs →
  head_end (client_request url (b64_encode nonce) ps hs) = Some (length (client_request url (b64_encode nonce) ps hs)).
Proof.
  intros Hurl Hn Hps Hhs. rewrite client_request_head. apply head_end_whole.
  - unfold request_line. rewrite !not_elem_of_app. split; [by_decide|]. split; [|by_decide].
    pose proof (target_visible url Hurl) as H. rewrite Forall_forall in H. intros Hin%H. unfold visible in Hin. lia.
  - apply Forall_app. split.
    + eapply Forall_impl; [by apply (own_sendable url nonce ps Hurl)|]. by intros h [? _].
    + eapply Forall_impl; [exact Hhs|]. by intros h (? & _)%extra_ok_inv.
Qed.
Lemma switching_end sha1 key protocol :
  (match protocol with Some p => is_token p = true | None => True end) →
  head_end (switching sha1 key protocol) = Some (length (switching sha1 key protocol)).
Proof.
  intros Hp. rewrite switching_head. apply head_end_whole; [by_decide|].
  eapply Forall_impl; [by apply answer_visible|]. intros h [? ?]. split; [done|by apply visible_value].
Qed.
Definition reject_ends (s : Z) : bool :=
  bool_decide (head_end (reject s) = Some (length (reject s))) && (zlen (reject s) <=? MAX_HEAD).
Lemma reject_ends_all : forallb reject_ends (seqZ 400 200) = true.
Proof. vm_compute. reflexivity. Qed.
Lemma reject_end s :
  400 <= s <= 599 → head_end (reject s) = Some (length (reject s)) ∧ zlen (reject s) <= MAX_HEAD.
Proof.
  intros Hs. pose proof reject_ends_all as H. rewrite forallb_Forall, Forall_forall in H.
  assert (reject_ends s = true) as Hr by (apply H, elem_of_seqZ; lia). clear H.
  apply andb_true_iff in Hr as [He%bool_decide_eq_true Hl]. split; [done|lia].
Qed.

(** ** What the server leaves *)
(** The bytes drained after a rejection. *)
Lemma drain_loop_bound reads : ∀ total,
  Forall (λ r, match r with Some n => 0 <= n <= 4096 | None => True end) reads → 0 <= total < REJECT_DRAIN + 4096 →
  0 <= drain_loop total reads < REJECT_DRAIN + 4096.
Proof.
  induction reads as [|[n|] reads IH]; intros total Hr Ht; cbn [drain_loop]; try done.
  apply Forall_cons in Hr as [Hn Hr]. destruct (Z.leb_spec REJECT_DRAIN total); [done|]. cbn [orb].
  destruct (n =? 0); [done|]. apply IH; [done|lia].
Qed.
Lemma reject_with_drained net e s :
  Forall (λ r, match r with Some n => 0 <= n <= 4096 | None => True end) (j_reads (v_reject net)) →
  0 <= o_drained (reject_with net e s) < REJECT_DRAIN + 4096.
Proof.
  intros Hj. unfold reject_with. destruct (j_write _); [|done]. destruct (j_shutdown _); [|done].
  apply drain_loop_bound; [done|]. unfold REJECT_DRAIN. lia.
Qed.
Lemma handshake_drained sha1 sh e net reply :
  Forall (λ r, match r with Some n => 0 <= n <= 4096 | None => True end) (j_reads (v_reject net)) →
  0 <= o_drained (handshake sha1 sh e net reply) < REJECT_DRAIN + 4096.
Proof.
  intros Hj. unfold handshake, answer_request.
  repeat case_match; try (by apply reject_with_drained); done.
Qed.
Section Answers.
Context (sha1 : bytes → bytes) (sh : Shared) (net : ServeNet).

(** A handshake that ended without a connection. *)
Definition turned_down (o : Served) : Prop :=
  o_accepted o = None ∧ (o_written o = [] ∨ ∃ status, 400 <= status <= 599 ∧ o_written o = reject status).
Lemma reject_with_down e s : 400 <= s <= 599 → turned_down (reject_with net e s).
Proof.
  intros Hs. unfold turned_down, reject_with. destruct (j_write _); [|by split; [|left]].
  destruct (j_shutdown _); (split; [done|]); right; by exists s.
Qed.
Lemma reject_with_events e s : o_events (reject_with net e s) = e.
Proof. unfold reject_with. by destruct (j_write _), (j_shutdown _). Qed.
Definition accepted_for (rest : bytes) (parsed : Request) (req : UpgradeRequest) (o : Served) : Prop :=
  ∃ protocol, v_decision net = Some (Accept protocol) ∧
    (∀ p, protocol = Some p → p ∈ req_protocols req) ∧ o_written o = switching sha1 (r_key parsed) protocol ∧
    o_accepted o = Some {| a_rest := rest; a_protocol := protocol; a_req := req |}.
Lemma answer_outcome e rest parsed req :
  let o := answer_request sha1 net e rest parsed req in
  o_events o = e ∧ (turned_down o ∨ accepted_for rest parsed req o).
Proof.
  unfold answer_request. destruct (v_decision net) as [[protocol|status]|] eqn:Ed.
  - destruct protocol as [p|]; [case_bool_decide as Hp; cbn [negb]|].
    2: { split; [apply reject_with_events|left; apply reject_with_down; lia]. }
    all: destruct (v_write net); [|by split; [done|left; split; [|left]]].
    all: split; [done|right]; eexists; split_and!; [done| |done|done]; by intros q [= <-] || done.
  - split; [apply reject_with_events|left]. apply reject_with_down.
    destruct (Z.leb_spec 400 status), (Z.leb_spec status 599); simpl; lia.
  - split; [apply reject_with_events|left; apply reject_with_down; lia].
Qed.
Lemma handshake_outcome e reply :
  let o := handshake sha1 sh e net reply in
  turned_down o ∧ (sent (o_events o) = sent e ∨ ∃ q, sent (o_events o) = sent e ++ [q]) ∨
  ∃ head rest parsed a slot,
    read_head (v_reads net) = Some (Ok (head, rest)) ∧ request head = Ok parsed ∧ v_addr net = Some a ∧
    let req := {| path := r_target parsed; req_headers := r_headers parsed; req_protocols := r_protocols parsed; addr := a |} in
    accepted_for rest parsed req o ∧
    sent (o_events o) = sent e ++ [{| q_event := EvRequest (sh_id sh) req reply; q_permit := slot; q_pending := true |}].
Proof.
  unfold handshake. assert (∀ e', sent e' = sent e → turned_down (abandoned e') ∧
    (sent (o_events (abandoned e')) = sent e ∨ ∃ q, sent (o_events (abandoned e')) = sent e ++ [q])) as Hgive.
  { intros e' He. split; [by split; [|left]|by left]. }
  destruct (v_addr net) as [a|]; [|left; by apply Hgive]. destruct (v_transport net); [|left; by apply Hgive]. cbn [negb].
  assert (∀ s, 400 <= s <= 599 → turned_down (reject_with net e s) ∧
    (sent (o_events (reject_with net e s)) = sent e ∨ ∃ q, sent (o_events (reject_with net e s)) = sent e ++ [q])) as Hrej.
  { intros s Hs. split; [by apply reject_with_down|]. left. by rewrite reject_with_events. }
  destruct (read_head (v_reads net)) as [[[head rest]|[|]]|]; [|left; first [by apply Hgive|apply Hrej; lia]..].
  destruct (request head) as [parsed|s] eqn:Er; [|left; apply Hrej; apply request_status in Er; lia].
  set (req := Build_UpgradeRequest _ _ _ _).
  destruct (send_pending (EvRequest (sh_id sh) req reply) true e) as [ok e1] eqn:Es.
  unfold send_pending in Es. destruct (hub_closed e); [simplify_eq; left; by apply Hgive|].
  destruct (receiver e); [|simplify_eq; left; by apply Hgive]. cbv zeta in Es. simplify_eq. cbn [negb].
  set (e1 := Build_Events _ _ _ _). destruct (answer_outcome e1 rest parsed req) as [-> [Hd|Ha]].
  - left. split; [done|]. right. by eexists.
  - right. by exists head, rest, parsed, a, (match permit e with Some h => h | None => false end).
Qed.
End Answers.

(** ** Both sides *)
(** The reads deliver exactly [data], cut anywhere. *)
Definition delivered (reads : list (result bytes IoError)) (data : bytes) : Prop :=
  ∃ cs, Forall nonempty cs ∧ concat cs = data ∧ reads = map Ok cs.
Lemma read_delivered reads head t :
  head_end head = Some (length head) → zlen head <= MAX_HEAD → delivered reads (head ++ t) →
  ∃ rest, leaves reads rest t ∧ read_head reads = Some (Ok (head, rest)).
Proof. intros He Hl (cs & Hcs & Ec & ->). by eapply read_head_exact. Qed.

Section Session.
Context `{Tls} (sha1 : bytes → bytes).

(** A request that was written is the one of the options. *)
Lemma establish_writes net target opts :
  (establish sha1 net target opts).1 ≠ [] →
  establish sha1 net target opts =
    (client_request (t_url target) (net_key net) (c_protocols opts) (c_headers opts),
     await_response sha1 net (c_protocols opts)).
Proof. unfold establish. intros Hne. by repeat case_match. Qed.

(** What the client must keep to for the server to accept the head: its extra
    headers are text, with at most one [Origin], and the head is within the
    limits of the parser. *)
Record head_fits (url : Url) (key : bytes) (opts : ClientOptions) : Prop := {
  hf_text : Forall (λ h, is_utf8 h.2 = true) (c_headers opts);
  hf_origin : zlen (all (map Http.received (c_headers opts)) (bs "origin")) <= 1;
  hf_count : zlen (own_headers url key (c_protocols opts) ++ c_headers opts) <= MAX_HEADERS;
  hf_size : zlen (client_request url key (c_protocols opts) (c_headers opts)) <= MAX_HEAD
}.
Lemma extra_headers now rt url opts key :
  arguments_ok now rt url opts → head_fits url key opts → Forall extra_ok (c_headers opts).
Proof.
  intros [_ _ _ _ Hh _ _ _ _] [Ht _ _ _]. apply Forall_and. by split.
Qed.

(** C27: The two ends of a session agree.  Whatever valid arguments the client
    was given, if its request reaches the server and the server's answer
    reaches the client, each cut into chunks anywhere and followed by more
    bytes, then the application is asked once, about the target and the
    subprotocols the client meant; and when it accepts one of them (or none)
    both ends open the connection with that same subprotocol, and neither
    loses or invents a byte of what follows the heads: what each end has read
    past the head, which its reader is started with, followed by what it has
    not read yet, is exactly what the peer sent after the head. *)
Theorem handshake_agrees now token rt e0 id input opts st net sh e snet reply protocol early frames :
  connect now token rt e0 id input opts = Ok st →
  bytes_ok (n_nonce net) → length (n_nonce net) = 16%nat →
  head_fits (t_url (s_target st)) (net_key net) opts →
  let request := (establish sha1 net (s_target st) opts).1 in
  let outcome := (establish sha1 net (s_target st) opts).2 in
  request ≠ [] →
  is_Some (v_addr snet) → v_transport snet = true → delivered (v_reads snet) (request ++ early) →
  hub_closed e = false → receiver e = true →
  v_decision snet = Some (Accept protocol) → (∀ p, protocol = Some p → p ∈ c_protocols opts) → v_write snet = true →
  let o := handshake sha1 sh e snet reply in
  zlen (o_written o) <= MAX_HEAD → delivered (n_reads net) (o_written o ++ frames) →
  (∃ a slot, o_accepted o = Some a ∧ a_protocol a = protocol ∧ leaves (v_reads snet) (a_rest a) early ∧
     (∀ hub conn now token, e = admitted hub →
        ∃ w, serve sha1 sh hub snet reply conn now token false =
               Some (w, start (a_rest a) protocol (EvConnection (sh_id sh) conn (a_req a)))) ∧
     path (a_req a) = target (t_url (s_target st)) ∧ req_protocols (a_req a) = c_protocols opts ∧
     sent (o_events o) = sent e ++
       [{| q_event := EvRequest (sh_id sh) (a_req a) reply; q_permit := slot; q_pending := true |}]) ∧
  ∃ rest, leaves (n_reads net) rest frames ∧ outcome = Some (Ok (rest, protocol)).
Proof.
  intros Hc Hn Hn16 Hf request outcome Hreq [a Ha] Htr Hreads Hh Hr Hd Hp Hw o Hsize Hback.
  apply connect_ok in Hc as (Hurl%parse_url_wf & Hargs & _). set (url := t_url (s_target st)) in *.
  pose proof (extra_headers _ _ _ _ _ Hargs Hf) as Hextra. destruct Hargs as [_ _ Htok Hnd _ _ _ _ _].
  destruct Hf as [_ Horigin Hcount Hlen].
  unfold request, outcome in *. rewrite (establish_writes net _ opts Hreq) in Hreads |- *. cbn [fst snd] in *. fold url in Hreads |- *.
  unfold net_key in *. set (key := b64_encode (n_nonce net)) in *.
  pose proof (request_client_request url (n_nonce net) (c_protocols opts) (c_headers opts) Hurl Hn Hn16 Htok Hnd Hextra
    Horigin Hcount Hlen) as Hparse.
  destruct (read_delivered _ _ _ (client_request_end url (n_nonce net) _ _ Hurl Hn16 Htok Hextra) Hlen Hreads)
    as (rest & Hrest & Hread).
  assert (match protocol with Some p => p ∈ c_protocols opts ∧ is_token p = true | None => True end) as Hproto.
  { destruct protocol as [p|]; [|done]. specialize (Hp p eq_refl). split; [done|]. rewrite Forall_forall in Htok. by apply Htok. }
  assert (∃ req slot, path req = target url ∧ req_protocols req = c_protocols opts ∧
    o_accepted o = Some {| a_rest := rest; a_protocol := protocol; a_req := req |} ∧
    o_written o = switching sha1 key protocol ∧ hub_closed (o_events o) = false ∧
    sent (o_events o) = sent e ++ [{| q_event := EvRequest (sh_id sh) req reply; q_permit := slot; q_pending := true |}])
    as (req & slot & Hpath & Hps & Hacc & Hwr & Hopen & Hsent).
  { unfold o, handshake. rewrite Ha, Htr, Hread, Hparse. cbn [negb r_target r_headers r_protocols].
    unfold send_pending. rewrite Hh, Hr. cbn [negb]. unfold answer_request. rewrite Hd, Hw. cbn [req_protocols r_key].
    eexists _, _. assert (match protocol with Some p => negb (bool_decide (p ∈ c_protocols opts)) | None => false end = false) as ->.
    { destruct protocol as [p|]; [|done]. by rewrite bool_decide_true by (by apply Hp). }
    cbn [o_accepted o_written o_events sent]. split_and!; try reflexivity; done. }
  split.
  { exists {| a_rest := rest; a_protocol := protocol; a_req := req |}, slot. split_and!; try done.
    intros hub conn now' token' ->. unfold serve. fold o. rewrite Hacc, Hopen. by eexists. }
  rewrite Hwr in Hsize, Hback. destruct (read_delivered _ _ _ (switching_end sha1 key protocol ltac:(by destruct protocol; [apply Hproto|])) Hsize Hback)
    as (rest' & Hrest' & Hread').
  exists rest'. split; [done|]. unfold await_response. rewrite Hread'. unfold net_key. fold key.
  by rewrite response_switching.
Qed.

(** C28: The server answers every socket at most once, and always in a way its
    clients understand.  Either the handshake is accepted: the head was a valid
    request, the application chose one of its subprotocols or none, and the
    [101] response for its key was written; or no connection is made and the
    stream saw nothing or one rejection, between 400 and 599, which a client
    that reads it, in any chunks, reports as that status (a response that could
    not be written whole in time counts as nothing).  The application is
    asked at most once, and a rejected peer is drained of less than 68 KiB. *)
Theorem server_answers sh e snet reply :
  Forall (λ r, match r with Some n => 0 <= n <= 4096 | None => True end) (j_reads (v_reject snet)) →
  let o := handshake sha1 sh e snet reply in
  (sent (o_events o) = sent e ∨ ∃ q, sent (o_events o) = sent e ++ [q]) ∧
  0 <= o_drained o < REJECT_DRAIN + 4096 ∧
  match o_accepted o with
  | Some a =>
      ∃ head parsed, read_head (v_reads snet) = Some (Ok (head, a_rest a)) ∧ request head = Ok parsed ∧
        v_decision snet = Some (Accept (a_protocol a)) ∧ (∀ p, a_protocol a = Some p → p ∈ r_protocols parsed) ∧
        path (a_req a) = r_target parsed ∧ o_written o = switching sha1 (r_key parsed) (a_protocol a)
  | None =>
      o_written o = [] ∨
      ∃ status, 400 <= status <= 599 ∧ o_written o = reject status ∧
        ∀ net ps t, delivered (n_reads net) (o_written o ++ t) →
          await_response sha1 net ps = Some (Err (bs "unexpected server response: " ++ to_dec status))
  end.
Proof.
  intros Hj o. assert (0 <= o_drained o < REJECT_DRAIN + 4096) as Hdr by (by apply handshake_drained).
  pose proof (handshake_outcome sha1 sh snet e reply) as Hout. cbv zeta in Hout. fold o in Hout.
  destruct Hout as [[[Hn Hw] Hs]|(head & rest & parsed & a & slot & Hread & Hreq & _ & Hacc & Hs)].
  - split; [done|]. split; [done|]. rewrite Hn. destruct Hw as [Hw|(status & Hst & Hw)]; [by left|]. right.
    exists status. split; [done|]. split; [done|]. intros net ps t Hdel. rewrite Hw in Hdel.
    destruct (reject_end status Hst) as [He Hl]. destruct (read_delivered _ _ _ He Hl Hdel) as (r & _ & Hr).
    unfold await_response. rewrite Hr, response_reject by lia. done.
  - split; [right; by eexists|]. split; [done|]. destruct Hacc as (protocol & Hdec & Hp & Hw & ->). cbn [a_rest a_protocol a_req path].
    by exists head, parsed.
Qed.
End Session.

(** Replies sent one after the other, with what each caller gets. *)
Definition send_all (c : Channel) (rs : list Reply) : list (result unit Reply) * Channel :=
  foldl (λ '(out, c) r, let '(x, c) := reply_send c r in (out ++ [x], c)) ([], c) rs.
(** A request is decided once.  Of the replies sent through the clones of
    a [ReplySender], in any number and order, exactly the first reaches the
    waiting handshake, and every other caller gets its own reply back; if the
    handshake is over, every caller does. *)
Theorem reply_once r rs :
  send_all channel (r :: rs) =
    (Ok tt :: map Err rs, {| ch_sender := false; ch_value := Some r; ch_receiver := true |}) ∧
  (send_all {| ch_sender := true; ch_value := None; ch_receiver := false |} (r :: rs)).1 = map Err (r :: rs).
Proof.
  assert (∀ rs c out, ch_sender c = false →
    foldl (λ '(out, c) r, let '(x, c) := reply_send c r in (out ++ [x], c)) (out, c) rs = (out ++ map Err rs, c)) as H.
  { clear r rs. induction rs as [|r rs IH]; intros c out Hc; cbn [foldl map]; [by rewrite app_nil_r|].
    unfold reply_send at 2. rewrite Hc, IH by done. by rewrite <-app_assoc. }
  unfold send_all. cbn [foldl]. unfold reply_send at 2 4. cbn [channel ch_sender ch_receiver ch_value]. rewrite !H by done.
  done.
Qed.

Module Witness.
Import ClientProps.Witness.
#[local] Existing Instance no_tls.
Definition nonce : bytes := seqZ 0 16.
Definition digest20 (s : bytes) : bytes := take 20 (s ++ replicate 20 0).
Definition target0 : ClientTarget := {| t_url := sample_url; t_tls := Some (tt, bs "2001:db8::1") |}.
Definition request0 : bytes := client_request sample_url (b64_encode nonce) [bs "chat"] (c_headers opts).
Definition answer0 : bytes := switching digest20 (b64_encode nonce) (Some (bs "chat")).
Definition cut (k : nat) (s : bytes) : list (result bytes IoError) := [Ok (take k s); Ok (drop k s)].
Definition client_net : ClientNet := {|
  n_lookup := λ _ _, Err (bs "offline"); n_show := λ _, bs "addr"; n_dial := [Joined 0 Connected]; n_transport := Ok tt;
  n_nonce := nonce; n_write := Ok tt; n_reads := cut 40 (answer0 ++ bs "frames"); n_show_io := λ _, bs "io" |}.
Definition server_net (d : option Reply) : ServeNet := {|
  v_addr := Some (bs "::1", 9); v_transport := true; v_reads := cut 100 (request0 ++ bs "early"); v_decision := d;
  v_write := true; v_reject := {| j_write := true; j_shutdown := true; j_reads := [Some 5; None] |} |}.
Definition shared0 : Shared := {|
  sh_id := 1; sh_tls := false; sh_message := MAX_MESSAGE; sh_buffer := MAX_BUFFER; sh_heartbeat := None;
  sh_max_connections := USIZE_MAX |}.
Lemma delivered_cut k s : bool_decide (0 < k < length s)%nat = true → delivered (cut k s) s.
Proof.
  intros Hk%bool_decide_eq_true. exists [take k s; drop k s]. split; [|split; [|done]].
  - repeat constructor; unfold nonempty; intros E; apply (f_equal length) in E; rewrite ?length_take, ?length_drop in E; simpl in E; lia.
  - simpl. by rewrite app_nil_r, take_drop.
Qed.
Lemma handshake_agrees_witness :
  ∃ rest, leaves (n_reads client_net) rest (bs "frames") ∧
    (establish digest20 client_net target0 opts).2 = Some (Ok (rest, Some (bs "chat"))).
Proof.
  assert (∃ st, connect 0 [] (Ok tt) events_from 7 sample_input opts = Ok st ∧ s_target st = target0) as (st & Hst & Ht)
    by (eexists; split; vm_compute; reflexivity).
  rewrite <-Ht.
  apply (handshake_agrees digest20 0 [] (Ok tt) events_from 7 sample_input opts st client_net shared0 events_from
           (server_net (Some (Accept (Some (bs "chat"))))) 3 (Some (bs "chat")) (bs "early") (bs "frames"));
    [exact Hst|by_decide|reflexivity|rewrite Ht|rewrite Ht|vm_compute; by eexists|reflexivity|rewrite Ht|reflexivity|reflexivity|reflexivity| |reflexivity|vm_compute; discriminate|].
  - split; [by_decide|vm_compute; discriminate..].
  - vm_compute. discriminate.
  - assert ((establish digest20 client_net target0 opts).1 = request0) as -> by (vm_compute; reflexivity).
    apply delivered_cut. vm_compute. reflexivity.
  - intros p [= <-]. by left.
  - assert (o_written (handshake digest20 shared0 events_from (server_net (Some (Accept (Some (bs "chat"))))) 3) = answer0) as ->
      by (vm_compute; reflexivity).
    apply delivered_cut. vm_compute. reflexivity.
Defined.
Lemma server_answers_witness :
  let o := handshake digest20 shared0 events_from (server_net (Some (Reject 403))) 3 in
  0 <= o_drained o < REJECT_DRAIN + 4096 ∧ o_written o = reject 403.
Proof.
  split; [|vm_compute; reflexivity].
  destruct (server_answers digest20 shared0 events_from (server_net (Some (Reject 403))) 3) as (_ & Hd & _); [|exact Hd].
  repeat constructor; discriminate.
Defined.
End Witness.
