(* ===== verification/Admission.v ===== *)
(** * Admission (core/src/queue.rs, core/src/net/accept.rs)

    A server admits at most [max_connections] connections, and [MAX_PENDING]
    handshakes at a time.  A [Permit] is one unit of such a counter; it is
    shared ([Arc]) by the connection's worker, by its event sender and by every
    envelope it queued, and the counter goes down when the strong count of the
    [Arc] reaches zero.  Every clone, move and drop of the two [Arc]s of an
    admitted socket is a change of its strong counts here; that they are the
    numbers of the holders is proved.  The accept loop, the workers, the application's handles and the hub
    act in any order: the model is a step relation. *)

From S2P Require Import Prelude Events.

Definition MAX_PENDING : Z := 256.

(** ** [Permit::acquire]

    One turn of the loop that holds the value [n] it last saw: the weak
    exchange may fail although the counter is still [n]. *)
Inductive acquiring := NoRoom | Retry (current : Z) | Acquired (count : Z).
Definition acquire_turn (limit n count : Z) (spurious : bool) : acquiring :=
  if n <? limit then
    if (count =? n) && negb spurious then Acquired (u64 (n + 1)) else Retry count
  else NoRoom.
(** [Permit::drop] *)
Definition permit_drop (count : Z) : Z := u64 (count - 1).

(** ** One admitted socket *)
(** The task of [serve]: before the handshake asks the application, after it
    ([sent]: the question was queued), once the connection runs, or over. *)
Inductive Worker := Handshaking | Asked (sent : bool) | Running | Ended.
(** [ev] is the connection's event sender and what it put in the channel,
    [drained] how many of those envelopes the hub has taken out, and [handles]
    whether a clone of the sender still exists; [strong] and [strong_pending]
    are the strong counts of the connection's permit and of the handshake's. *)
Record Slot := {
  worker : Worker; ev : Events; drained : nat; handles : bool; strong : Z; strong_pending : Z
}.
Definition undrained (s : Slot) : list Queued := drop (drained s) (sent (ev s)).

(** [serve] owns both permits; the admission has a clone of the first, and the
    handshake one of the second. *)
Definition slot_new (hub : Events) : Slot :=
  {| worker := Handshaking; ev := admitted hub; drained := 0; handles := true; strong := 2; strong_pending := 2 |}.
(** [send_pending]: the admission's permit is cloned for the envelope, or moved
    to it by the final event; what was meant for an envelope that was not
    queued is dropped. *)
Definition send_strong (x : Event) (queued : bool) (e : Events) : Z :=
  match permit e with
  | Some true => (if is_close x then 0 else 1) - (if queued then 0 else 1)
  | _ => 0
  end.
(** The handshake gives its clone to the request's envelope. *)
Definition slot_ask_with (x : Event) (s : Slot) : Slot :=
  let '(queued, e) := send_pending x true (ev s) in
  {| worker := Asked queued; ev := e; drained := drained s; handles := handles s;
     strong := strong s + send_strong x queued (ev s);
     strong_pending := strong_pending s - (if queued then 0 else 1) |}.
(** [drop(pending)] once the handshake is accepted. *)
Definition slot_run (s : Slot) : Slot :=
  {| worker := Running; ev := ev s; drained := drained s; handles := handles s;
     strong := strong s; strong_pending := strong_pending s - 1 |}.
(** Any holder of a clone of the sender emits an event. *)
Definition slot_send (x : Event) (s : Slot) : Slot :=
  let '(queued, e) := events_send x (ev s) in
  {| worker := worker s; ev := e; drained := drained s; handles := handles s;
     strong := strong s + send_strong x queued (ev s); strong_pending := strong_pending s |}.
(** The task ends, wherever it is, and drops what it owns. *)
Definition owned_pending (x : Worker) : Z :=
  match x with Handshaking => 2 | Asked _ => 1 | Running | Ended => 0 end.
Definition slot_over (s : Slot) : Slot :=
  {| worker := Ended; ev := ev s; drained := drained s; handles := handles s;
     strong := strong s - 1; strong_pending := strong_pending s - owned_pending (worker s) |}.
(** The last clone of the sender is dropped, and with it the admission. *)
Definition forget (s : Slot) : Slot :=
  {| worker := worker s;
     ev := {| sent := sent (ev s); permit := Some false; hub_closed := hub_closed (ev s); receiver := receiver (ev s) |};
     drained := drained s; handles := false;
     strong := strong s - (match permit (ev s) with Some true => 1 | _ => 0 end); strong_pending := strong_pending s |}.
(** Envelopes leave the channel with the permits they hold. *)
Definition tally {A} (f : A → bool) (l : list A) : Z := Z.of_nat (length (filter (λ x, f x = true) l)).
Definition slot_drop (n : nat) (e : Events) (s : Slot) : Slot :=
  let gone := take n (undrained s) in
  {| worker := worker s; ev := e; drained := (drained s + length gone)%nat; handles := handles s;
     strong := strong s - tally q_permit gone; strong_pending := strong_pending s - tally q_pending gone |}.
Definition drain_one (s : Slot) : Slot := slot_drop 1 (ev s) s.
(** The hub is dropped: what is in the channel goes with it. *)
Definition drain_all (s : Slot) : Slot := slot_drop (length (sent (ev s))) (drop_receiver (ev s)) s.
Definition set_ev (e : Events) (s : Slot) : Slot :=
  {| worker := worker s; ev := e; drained := drained s; handles := handles s;
     strong := strong s; strong_pending := strong_pending s |}.
Definition is_request (e : Event) : bool := match e with EvRequest _ _ _ => true | _ => false end.

Inductive slot_step : Slot → Slot → Prop :=
  | slot_ask s e : worker s = Handshaking → is_request e = true → slot_step s (slot_ask_with e s)
  | slot_accept s : worker s = Asked true → slot_step s (slot_run s)
  | slot_emit s e : handles s = true → is_request e = false → slot_step s (slot_send e s)
  (** The worker returns, times out, is stopped or panics. *)
  | slot_end s : worker s ≠ Ended → slot_step s (slot_over s)
  | slot_forget s : worker s = Ended → slot_step s (forget s)
  | slot_drain s : (drained s < length (sent (ev s)))%nat → slot_step s (drain_one s)
  | slot_hub_closed s : slot_step s (set_ev (events_close (ev s)) s)
  | slot_hub_dropped s : hub_closed (ev s) = true → slot_step s (drain_all s).

(** Whether someone holds the connection's permit, or the handshake's: the
    worker, the admission, an envelope in the channel. *)
Definition holds (s : Slot) : bool :=
  match worker s with Ended => false | _ => true end ||
  bool_decide (permit (ev s) = Some true) || existsb q_permit (undrained s).
Definition holds_pending (s : Slot) : bool :=
  match worker s with Handshaking | Asked _ => true | _ => false end || existsb q_pending (undrained s).

(** ** The server *)
(** The accept loop: waiting for a socket, in [Permit::acquire] for the
    connection (before the load, then in the loop), the same for the handshake
    while it owns the connection's permit, about to spawn the worker, or over. *)
Inductive Acceptor :=
  | Accepting | ConnLoad | ConnLoop (n : Z) | PendingLoad | PendingLoop (n : Z) | Spawning | Returned.
Record Server := {
  connections : Z; pending : Z; max_connections : Z;
  stop : bool; hub : Events; acceptor : Acceptor; slots : list Slot
}.
Definition server_new (max : Z) (hub : Events) : Server :=
  {| connections := 0; pending := 0; max_connections := max; stop := false; hub := hub;
     acceptor := Accepting; slots := [] |}.
Definition set_acceptor (a : Acceptor) (s : Server) : Server :=
  {| connections := connections s; pending := pending s; max_connections := max_connections s; stop := stop s;
     hub := hub s; acceptor := a; slots := slots s |}.
Definition set_connections (n : Z) (s : Server) : Server :=
  {| connections := n; pending := pending s; max_connections := max_connections s; stop := stop s;
     hub := hub s; acceptor := acceptor s; slots := slots s |}.
Definition set_pending (n : Z) (s : Server) : Server :=
  {| connections := connections s; pending := n; max_connections := max_connections s; stop := stop s;
     hub := hub s; acceptor := acceptor s; slots := slots s |}.
Definition set_slots (l : list Slot) (s : Server) : Server :=
  {| connections := connections s; pending := pending s; max_connections := max_connections s; stop := stop s;
     hub := hub s; acceptor := acceptor s; slots := l |}.
(** [Server::close] and the closing of the hub, as the accept loop sees them. *)
Definition set_stop (s : Server) : Server :=
  {| connections := connections s; pending := pending s; max_connections := max_connections s; stop := true;
     hub := hub s; acceptor := acceptor s; slots := slots s |}.
Definition close_hub (s : Server) : Server :=
  {| connections := connections s; pending := pending s; max_connections := max_connections s; stop := stop s;
     hub := events_close (hub s); acceptor := acceptor s; slots := slots s |}.

(** The accept loop's next step; [socket]: [listener.accept()] succeeded. *)
Definition accept_turn (socket spurious : bool) (s : Server) : Server :=
  match acceptor s with
  | Accepting =>
      if stop s || hub_closed (hub s) then set_acceptor Returned s
      else if socket then set_acceptor ConnLoad s else s
  | ConnLoad => set_acceptor (ConnLoop (connections s)) s
  | ConnLoop n =>
      match acquire_turn (max_connections s) n (connections s) spurious with
      | NoRoom => set_acceptor Accepting s
      | Retry n => set_acceptor (ConnLoop n) s
      | Acquired n => set_acceptor PendingLoad (set_connections n s)
      end
  | PendingLoad => set_acceptor (PendingLoop (pending s)) s
  | PendingLoop n =>
      match acquire_turn MAX_PENDING n (pending s) spurious with
      | NoRoom => set_acceptor Accepting (set_connections (permit_drop (connections s)) s)
      | Retry n => set_acceptor (PendingLoop n) s
      | Acquired n => set_acceptor Spawning (set_pending n s)
      end
  | Spawning => set_acceptor Accepting (set_slots (slots s ++ [slot_new (hub s)]) s)
  | Returned => s
  end.
(** A permit is dropped when the strong count of its [Arc] reaches zero. *)
Definition update_slot (i : nat) (old new : Slot) (s : Server) : Server :=
  let s := if (0 <? strong old) && (strong new =? 0) then set_connections (permit_drop (connections s)) s else s in
  let s := if (0 <? strong_pending old) && (strong_pending new =? 0) then set_pending (permit_drop (pending s)) s else s in
  set_slots (<[i := new]> (slots s)) s.
Inductive step : Server → Server → Prop :=
  | step_accept socket spurious s : step s (accept_turn socket spurious s)
  | step_slot i old new s : slots s !! i = Some old → slot_step old new → step s (update_slot i old new s)
  | step_stop s : step s (set_stop s)
  | step_hub s : step s (close_hub s).

(** ** What the counters promise: a bounded semaphore *)
Inductive sem_step (limit : Z) : Z → Z → Prop :=
  | sem_stay n : sem_step limit n n
  | sem_admit n : n < limit → sem_step limit n (n + 1)
  | sem_release n : 0 < n → sem_step limit n (n - 1).

(** The permits that exist: those of the slots and those the accept loop owns. *)
Definition owns_connection (a : Acceptor) : Z :=
  match a with PendingLoad | PendingLoop _ | Spawning => 1 | _ => 0 end.
Definition owns_pending (a : Acceptor) : Z := match a with Spawning => 1 | _ => 0 end.
Definition live (s : Server) : Z := tally holds (slots s) + owns_connection (acceptor s).
Definition live_pending (s : Server) : Z := tally holds_pending (slots s) + owns_pending (acceptor s).

Lemma tally_nonneg {A} (f : A → bool) l : 0 <= tally f l.
Proof. unfold tally. lia. Qed.
Lemma tally_app {A} (f : A → bool) l k : tally f (l ++ k) = tally f l + tally f k.
Proof. unfold tally. rewrite filter_app, length_app. lia. Qed.
Lemma tally_one {A} (f : A → bool) x : tally f [x] = if f x then 1 else 0.
Proof. unfold tally. rewrite filter_cons. by destruct (f x). Qed.
Lemma tally_insert {A} (f : A → bool) l i x y :
  l !! i = Some x → tally f (<[i := y]> l) = tally f l - (if f x then 1 else 0) + (if f y then 1 else 0).
Proof.
  intros Hi. rewrite <-(take_drop_middle l i x Hi) at 2. rewrite insert_take_drop by (by eapply lookup_lt_Some).
  rewrite !tally_app. unfold tally. rewrite !filter_cons. destruct (f x), (f y); simpl; lia.
Qed.
Lemma tally_ext {A} (f g : A → bool) l : Forall (λ x, f x = g x) l → tally f l = tally g l.
Proof.
  unfold tally. induction 1 as [|x l E _ IH]; [done|]. rewrite !filter_cons, E. destruct (g x); simpl; lia.
Qed.
Lemma u64_id n : 0 <= n <= USIZE_MAX → u64 n = n.
Proof. intros H. apply Z.mod_small. unfold USIZE_MAX in H. lia. Qed.

(** ** The strong counts are the numbers of the holders *)
Lemma tally_drop {A} (f : A → bool) n l q : l !! n = Some q → tally f (drop n l) = (if f q then 1 else 0) + tally f (drop (S n) l).
Proof. intros Hq. rewrite (drop_S _ q _ Hq). unfold tally. rewrite filter_cons. destruct (f q); simpl; lia. Qed.
Lemma tally_existsb {A} (f : A → bool) l : existsb f l = (0 <? tally f l).
Proof.
  induction l as [|x l IH]; [done|]. change (x :: l) with ([x] ++ l). rewrite existsb_app, tally_app, tally_one, IH.
  pose proof (tally_nonneg f l). simpl. destruct (f x); simpl; lia.
Qed.
Record counts_ok (s : Slot) : Prop := {
  co_drained : (drained s <= length (sent (ev s)))%nat;
  co_strong : strong s = (match worker s with Ended => 0 | _ => 1 end) +
    (if bool_decide (permit (ev s) = Some true) then 1 else 0) + tally q_permit (undrained s);
  co_pending : strong_pending s = owned_pending (worker s) + tally q_pending (undrained s)
}.
Lemma counts_holds s : counts_ok s → holds s = (0 <? strong s) ∧ holds_pending s = (0 <? strong_pending s).
Proof.
  intros [_ -> ->]. unfold holds, holds_pending. rewrite !tally_existsb.
  pose proof (tally_nonneg q_permit (undrained s)). pose proof (tally_nonneg q_pending (undrained s)).
  destruct (worker s), (bool_decide _); simpl; lia.
Qed.
Lemma counts_nonneg s : counts_ok s → 0 <= strong s ∧ 0 <= strong_pending s.
Proof.
  intros [_ -> ->]. pose proof (tally_nonneg q_permit (undrained s)). pose proof (tally_nonneg q_pending (undrained s)).
  destruct (worker s), (bool_decide _); simpl; lia.
Qed.
(** What sending does to the envelopes and to the admission. *)
Lemma send_pending_effect x p e :
  let e' := (send_pending x p e).2 in
  hub_closed e' = hub_closed e ∧ receiver e' = receiver e ∧
  permit e' = (if is_close x then (λ _, false) <$> permit e else permit e) ∧
  ((send_pending x p e).1 = false ∧ sent e' = sent e ∧ (hub_closed e = true ∨ receiver e = false) ∨
   (send_pending x p e).1 = true ∧ hub_closed e = false ∧
   sent e' = sent e ++ [{| q_event := x; q_permit := bool_decide (permit e = Some true); q_pending := p |}]).
Proof.
  unfold send_pending. destruct (permit e) as [[]|], (hub_closed e), (receiver e), (is_close x);
    cbn; rewrite ?bool_decide_true, ?bool_decide_false by done; auto 10.
Qed.
(** The envelope that was queued, or not, is accounted for. *)
Lemma send_counts x p s e ok :
  (drained s <= length (sent (ev s)))%nat → is_Some (permit (ev s)) → send_pending x p (ev s) = (ok, e) →
  (drained s <= length (sent e))%nat ∧
  (if bool_decide (permit (ev s) = Some true) then 1 else 0) + tally q_permit (undrained s) + send_strong x ok (ev s) =
    (if bool_decide (permit e = Some true) then 1 else 0) + tally q_permit (drop (drained s) (sent e)) ∧
  tally q_pending (drop (drained s) (sent e)) = tally q_pending (undrained s) + (if ok && p then 1 else 0).
Proof.
  intros Hd [b Hb] E. destruct (send_pending_effect x p (ev s)) as (_ & _ & Ep & Es). rewrite E in Ep, Es. cbn [fst snd] in *.
  unfold undrained, send_strong. rewrite Ep, Hb.
  destruct Es as [(-> & -> & _)|(-> & _ & ->)].
  - split; [done|]. destruct b, (is_close x); simpl; lia.
  - rewrite length_app, drop_app_le, !tally_app, !tally_one by done. cbn [q_permit q_pending length]. rewrite Hb.
    split; [lia|]. destruct b, (is_close x), p; simpl; lia.
Qed.
Lemma slot_drop_counts n e s : sent e = sent (ev s) → permit e = permit (ev s) → counts_ok s → counts_ok (slot_drop n e s).
Proof.
  intros Es Ep [C1 C2 C3]. unfold slot_drop. set (gone := take n (undrained s)).
  assert (drop (drained s + length gone) (sent e) = drop (length gone) (undrained s)) as Ed
    by (unfold undrained; by rewrite Es, drop_drop).
  assert (∀ f, tally f gone + tally f (drop (length gone) (undrained s)) = tally f (undrained s)) as Hsplit.
  { intros f. rewrite <-tally_app. f_equal. unfold gone. rewrite length_take.
    destruct (decide (n <= length (undrained s))%nat); [by rewrite Nat.min_l, take_drop by done|].
    rewrite Nat.min_r, drop_ge, take_ge, app_nil_r by lia. done. }
  pose proof (Hsplit q_permit). pose proof (Hsplit q_pending). split; unfold undrained; cbn [worker ev drained strong strong_pending].
  - rewrite Es. unfold gone, undrained. rewrite length_take, length_drop. lia.
  - rewrite Ep, Ed. lia.
  - rewrite Ed. lia.
Qed.

(** ** Slots *)
(** When the slot is held: until the end of the connection was drained. *)
Record slot_ok (s : Slot) : Prop := {
  so_counts : counts_ok s;
  so_permit : is_Some (permit (ev s));
  so_handles : handles s = false → permit (ev s) = Some false;
  so_worker : worker s ≠ Ended → handles s = true;
  so_closed : ¬ no_close (sent (ev s)) → permit (ev s) = Some false;
  so_open : handles s = true → permit (ev s) = Some false → ¬ no_close (sent (ev s)) ∨ hub_closed (ev s) = true;
  so_queue : ∀ i q, sent (ev s) !! i = Some q → no_close (take i (sent (ev s))) → q_permit q = true;
  so_requests : ∀ i q, sent (ev s) !! i = Some q → q_pending q = is_request (q_event q);
  so_receiver : receiver (ev s) = false → hub_closed (ev s) = true
}.
Lemma slot_send_ok s x p s' :
  slot_ok s → handles s = true → is_request x = p → ev s' = (send_pending x p (ev s)).2 → handles s' = handles s →
  counts_ok s' → slot_ok s'.
Proof.
  intros [_ O1 O2 O3 O4 O5 O6 O7 O8] Hh Hx Eev Eha Hc'. destruct (send_pending_effect x p (ev s)) as (Eh & Er & Ep & Es).
  rewrite <-Eev in *. set (e' := ev s') in *. 
  assert (is_Some (permit e')) as P1 by (rewrite Ep; destruct (is_close x), O1 as [b ->]; simpl; by eexists).
  destruct Es as [(_ & Es & Hc)|(_ & Hc & Es)]; (split; fold e'; rewrite ?Es, ?Eh, ?Er, ?Eha; try done).
  - by rewrite Hh.
  - intros Hn. rewrite Ep, (O4 Hn). by destruct (is_close x).
  - intros _ _. right. destruct Hc as [|Hr]; [done|by apply O8].
  - by rewrite Hh.
  - rewrite no_close_app. intros Hn. rewrite Ep. destruct (is_close x) eqn:Ex; [by destruct O1 as [b ->]|].
    apply O4. intros Hs. apply Hn. split; [done|]. by apply Forall_singleton.
  - intros _ Hp. left. rewrite no_close_app. intros [Hs Hq]. apply (proj1 (Forall_singleton _ _)) in Hq.
    cbn [q_event] in Hq. rewrite Hq in Ep.
    rewrite Ep in Hp. destruct (O5 Hh Hp) as [Hn|Hn]; [by apply Hn|congruence].
  - intros i q Hi Hn. apply lookup_app_Some in Hi as [Hi|[Hl Hi]].
    + eapply O6; [exact Hi|]. apply lookup_lt_Some in Hi. by rewrite take_app_le in Hn by lia.
    + apply list_lookup_singleton_Some in Hi as [Hi <-]. cbn [q_permit]. apply bool_decide_eq_true.
      replace i with (length (sent (ev s))) in Hn by lia. rewrite take_app_length in Hn.
      destruct O1 as [[] Hb]; [done|]. destruct (O5 Hh Hb) as [Hn'|Hn']; [done|congruence].
  - intros i q Hi. apply lookup_app_Some in Hi as [Hi|[_ Hi]]; [by eapply O7|].
    by apply list_lookup_singleton_Some in Hi as [_ <-].
Qed.
Lemma slot_step_ok s s' : slot_step s s' → slot_ok s → slot_ok s'.
Proof.
  intros Hs Hok. pose proof Hok as [O0 O1 O2 O3 O4 O5 O6 O7 O8]. pose proof O0 as [C1 C2 C3].
  destruct Hs as [s x Hwk Hx|s Hwk|s x Hha Hx|s Hwk|s Hwk|s Hd|s|s Hc].
  - unfold slot_ask_with. destruct (send_pending x true (ev s)) as [ok e] eqn:E.
    apply (slot_send_ok s x true); [done|by apply O3; rewrite Hwk|done|by rewrite E|done|].
    destruct (send_counts x true s e ok C1 O1 E) as (D1 & D2 & D3). split; unfold undrained; cbn; [done| |].
    + rewrite C2, Hwk. lia.
    + rewrite C3, Hwk, D3. destruct ok; simpl; lia.
  - split; try done; [split; unfold undrained; cbn; [done|by rewrite C2, Hwk|]|].
    + rewrite C3, Hwk. unfold undrained. simpl. lia.
    + intros _. apply O3. by rewrite Hwk.
  - unfold slot_send, events_send. destruct (send_pending x false (ev s)) as [ok e] eqn:E.
    apply (slot_send_ok s x false); [done|done|done|by rewrite E|done|].
    destruct (send_counts x false s e ok C1 O1 E) as (D1 & D2 & D3). split; unfold undrained; cbn; [done| |].
    + rewrite C2. lia.
    + rewrite C3, D3, andb_false_r. lia.
  - split; try done. split; unfold undrained; cbn; [done| |].
    + rewrite C2. unfold undrained. destruct (worker s); try done; lia.
    + rewrite C3. unfold undrained. lia.
  - split; simpl; try done. split; unfold undrained; cbn; [done| |done].
    rewrite C2, Hwk. unfold undrained. destruct O1 as [[] ->]; simpl; lia.
  - split; try done. by apply slot_drop_counts.
  - split; simpl; try done; by first [split|right].
  - split; simpl; try done. by apply slot_drop_counts.
Qed.
Lemma slot_new_ok h : sent h = [] → receiver h = true → slot_ok (slot_new h).
Proof.
  intros Hs Hr. split; simpl; rewrite ?Hs, ?Hr; try done.
  - split; unfold undrained; simpl; by rewrite Hs.
  - intros Hn. destruct Hn. by apply Forall_nil.
Qed.
Lemma slot_ok_holds s : slot_ok s → holds s = (0 <? strong s) ∧ holds_pending s = (0 <? strong_pending s).
Proof. intros []. by apply counts_holds. Qed.
(** Nothing revives a permit once nobody holds it. *)
Lemma slot_step_released s s' : slot_step s s' → slot_ok s → strong s = 0 → strong s' = 0.
Proof.
  intros Hs Hok H0. pose proof Hok as [[C1 C2 C3] O1 _ _ _ _ _ _ _]. pose proof (tally_nonneg q_permit (undrained s)).
  assert (worker s = Ended ∧ permit (ev s) ≠ Some true ∧ tally q_permit (undrained s) = 0) as (Hw & Hp & Ht).
  { rewrite H0 in C2. destruct (worker s), (bool_decide_reflect (permit (ev s) = Some true)); (split_and!; [done..|lia]) || lia. }
  destruct Hs as [s x Hwk Hx|s Hwk|s x Hha Hx|s Hwk|s Hwk|s Hd|s|s Hc]; try (by rewrite Hw in Hwk); try done.
  - unfold slot_send. destruct (events_send x (ev s)) as [ok e]. simpl. unfold send_strong.
    destruct O1 as [[] Hb]; rewrite Hb in *; [done|lia].
  - simpl. destruct O1 as [[] Hb]; rewrite Hb in *; [done|lia].
  - simpl. pose proof (tally_nonneg q_permit (take 1 (undrained s))). pose proof (tally_nonneg q_permit (drop 1 (undrained s))).
    rewrite <-(take_drop 1 (undrained s)), tally_app in Ht. lia.
  - simpl. set (n := length (sent (ev s))). pose proof (tally_nonneg q_permit (take n (undrained s))).
    pose proof (tally_nonneg q_permit (drop n (undrained s))). rewrite <-(take_drop n (undrained s)), tally_app in Ht. lia.
Qed.
Lemma slot_step_pending s s' : slot_step s s' → slot_ok s → strong_pending s = 0 → strong_pending s' = 0.
Proof.
  intros Hs Hok H0. pose proof Hok as [[C1 C2 C3] _ _ _ _ _ _ _ _]. pose proof (tally_nonneg q_pending (undrained s)).
  assert (owned_pending (worker s) = 0 ∧ tally q_pending (undrained s) = 0) as [Hw Ht]
    by (rewrite H0 in C3; destruct (worker s); simpl in *; lia).
  destruct Hs as [s x Hwk Hx|s Hwk|s x Hha Hx|s Hwk|s Hwk|s Hd|s|s Hc]; try (by rewrite Hwk in Hw); try done.
  - unfold slot_send. by destruct (events_send x (ev s)) as [ok e].
  - simpl. lia.
  - simpl. pose proof (tally_nonneg q_pending (take 1 (undrained s))). pose proof (tally_nonneg q_pending (drop 1 (undrained s))).
    rewrite <-(take_drop 1 (undrained s)), tally_app in Ht. lia.
  - simpl. set (n := length (sent (ev s))). pose proof (tally_nonneg q_pending (take n (undrained s))).
    pose proof (tally_nonneg q_pending (drop n (undrained s))). rewrite <-(take_drop n (undrained s)), tally_app in Ht. lia.
Qed.
Lemma slot_ok_drained s :
  slot_ok s → worker s = Ended → ¬ no_close (sent (ev s)) → drained s = length (sent (ev s)) → strong s = 0.
Proof.
  intros Hok Hw Hc Hd. rewrite (co_strong s (so_counts s Hok)). unfold undrained. rewrite Hw, Hd, drop_all, (so_closed s Hok Hc). done.
Qed.
Lemma slot_ok_held s :
  slot_ok s → no_close (take (drained s) (sent (ev s))) → (drained s < length (sent (ev s)))%nat → 0 < strong s.
Proof.
  intros Hok Hn Hd. apply lookup_lt_is_Some in Hd as [q Hq]. rewrite (co_strong s (so_counts s Hok)). unfold undrained.
  rewrite (tally_drop q_permit _ _ q Hq), (so_queue s Hok _ _ Hq Hn). pose proof (tally_nonneg q_permit (drop (S (drained s)) (sent (ev s)))).
  destruct (worker s), (bool_decide _); lia.
Qed.
(** The handshake's permit: until the worker is past the handshake and the
    request was drained. *)
Lemma slot_ok_pending s :
  slot_ok s →
  (0 < strong_pending s ↔
     owned_pending (worker s) ≠ 0 ∨ Exists (λ q, is_request (q_event q) = true) (undrained s)).
Proof.
  intros Hok. rewrite (co_pending s (so_counts s Hok)).
  assert (0 < tally q_pending (undrained s) ↔ Exists (λ q, is_request (q_event q) = true) (undrained s)) as <-.
  { rewrite <-Z.ltb_lt, <-tally_existsb, existsb_exists, Exists_exists. setoid_rewrite list_elem_of_In. unfold undrained.
    split; intros (q & Hq & E); exists q; (split; [done|]); apply list_elem_of_In, list_elem_of_lookup in Hq as [i Hi];
      rewrite lookup_drop in Hi; by rewrite (so_requests s Hok _ _ Hi) in *. }
  pose proof (tally_nonneg q_pending (undrained s)). destruct (worker s); simpl; lia.
Qed.

(** ** The server's invariant *)
Record server_ok (max : Z) (s : Server) : Prop := {
  sv_max : max_connections s = max;
  sv_connections : connections s = live s;
  sv_pending : pending s = live_pending s;
  sv_bound : live s <= max;
  sv_bound_pending : live_pending s <= MAX_PENDING;
  sv_slots : Forall slot_ok (slots s);
  sv_hub : sent (hub s) = [] ∧ receiver (hub s) = true
}.
Lemma live_nonneg s : 0 <= live s.
Proof. unfold live. pose proof (tally_nonneg holds (slots s)). destruct (acceptor s); simpl; lia. Qed.
Lemma live_pending_nonneg s : 0 <= live_pending s.
Proof. unfold live_pending. pose proof (tally_nonneg holds_pending (slots s)). destruct (acceptor s); simpl; lia. Qed.
Lemma slot_new_holds h : holds (slot_new h) = true ∧ holds_pending (slot_new h) = true.
Proof. done. Qed.

(** A turn of the accept loop and a step of a slot, seen by the semaphores. *)
Section Steps.
Context (max : Z) (Hmax : max <= USIZE_MAX).
Definition simulates (s s' : Server) : Prop :=
  server_ok max s' ∧ sem_step max (live s) (live s') ∧ sem_step MAX_PENDING (live_pending s) (live_pending s').

Lemma accept_turn_simulates socket spurious s : server_ok max s → simulates s (accept_turn socket spurious s).
Proof.
  intros [Em Ec Ep Hb Hbp Hs [Hh Hr]].
  pose proof (live_nonneg s) as Hn. pose proof (live_pending_nonneg s) as Hnp.
  assert (∀ a, owns_connection a = owns_connection (acceptor s) → owns_pending a = owns_pending (acceptor s) →
    simulates s (set_acceptor a s)) as Hsame.
  { intros a Ea Eb. assert (live (set_acceptor a s) = live s) as E1 by (unfold live; simpl; lia).
    assert (live_pending (set_acceptor a s) = live_pending s) as E2 by (unfold live_pending; simpl; lia).
    split; [split; rewrite ?E1, ?E2; done|]. rewrite E1, E2. split; constructor. }
  unfold accept_turn, acquire_turn. destruct (acceptor s) eqn:Ea.
  - destruct (_ || _); [by apply Hsame|]. destruct socket; [by apply Hsame|].
    assert (s = set_acceptor (acceptor s) s) as E by (by destruct s). rewrite Ea in E. rewrite E at 2. by apply Hsame.
  - by apply Hsame.
  - destruct (Z.ltb_spec n (max_connections s)) as [Hlt|]; [|by apply Hsame].
    destruct (Z.eqb_spec (connections s) n) as [En|]; cbn [andb]; [|by apply Hsame].
    destruct spurious; cbn [negb]; [by apply Hsame|]. subst n. rewrite Em in Hlt. rewrite Ec in *.
    rewrite u64_id by lia. set (s' := set_acceptor _ _).
    assert (live s' = live s + 1) as E1 by (unfold live; simpl; rewrite Ea; simpl; lia).
    assert (live_pending s' = live_pending s) as E2 by (unfold live_pending; simpl; rewrite Ea; simpl; lia).
    split; [split; rewrite ?E1, ?E2; try done; lia|]. rewrite E1, E2. split; [by constructor|constructor].
  - by apply Hsame.
  - destruct (Z.ltb_spec n MAX_PENDING) as [Hlt|].
    2: { set (s' := set_acceptor _ _). assert (live s' = live s - 1) as E1 by (unfold live; simpl; rewrite Ea; simpl; lia).
         assert (live_pending s' = live_pending s) as E2 by (unfold live_pending; simpl; rewrite Ea; simpl; lia).
         assert (0 < live s) by (unfold live; rewrite Ea; pose proof (tally_nonneg holds (slots s)); simpl; lia).
         split; [split; rewrite ?E1, ?E2; try done; [|lia]; simpl; unfold permit_drop; rewrite u64_id; lia|].
         rewrite E1, E2. split; [by constructor|constructor]. }
    destruct (Z.eqb_spec (pending s) n) as [En|]; cbn [andb]; [|by apply Hsame].
    destruct spurious; cbn [negb]; [by apply Hsame|]. subst n. rewrite Ep in *.
    rewrite u64_id by (unfold MAX_PENDING, USIZE_MAX in *; lia). set (s' := set_acceptor _ _).
    assert (live s' = live s) as E1 by (unfold live; simpl; rewrite Ea; simpl; lia).
    assert (live_pending s' = live_pending s + 1) as E2 by (unfold live_pending; simpl; rewrite Ea; simpl; lia).
    split; [split; rewrite ?E1, ?E2; try done; lia|]. rewrite E1, E2. split; [constructor|by constructor].
  - set (s' := set_acceptor _ _).
    assert (live s' = live s ∧ live_pending s' = live_pending s) as [E1 E2].
    { unfold live, live_pending. simpl. rewrite Ea, !tally_app, !tally_one. destruct (slot_new_holds (hub s)) as [-> ->]. simpl. lia. }
    split; [split; rewrite ?E1, ?E2; try done|rewrite E1, E2; split; constructor].
    simpl. apply Forall_app. split; [done|]. apply Forall_singleton. by apply slot_new_ok.
  - assert (s = set_acceptor (acceptor s) s) as E by (by destruct s). rewrite Ea in E. rewrite E at 2. by apply Hsame.
Qed.
Lemma update_slot_simulates i old new s :
  server_ok max s → slots s !! i = Some old → slot_step old new → simulates s (update_slot i old new s).
Proof.
  intros [Em Ec Ep Hb Hbp Hs [Hh Hr]] Hi Hst.
  assert (slot_ok old) as Ho by (by eapply Forall_lookup_1). pose proof (slot_step_ok _ _ Hst Ho) as Hnew.
  pose proof (slot_step_released _ _ Hst Ho) as Hrel. pose proof (slot_step_pending _ _ Hst Ho) as Hrelp.
  destruct (slot_ok_holds _ Ho) as [H1 H2], (slot_ok_holds _ Hnew) as [H3 H4].
  destruct (counts_nonneg _ (so_counts _ Ho)) as [P1 P2], (counts_nonneg _ (so_counts _ Hnew)) as [P3 P4].
  assert ((0 <? strong old) && (strong new =? 0) = holds old && negb (holds new) ∧
    (0 <? strong_pending old) && (strong_pending new =? 0) = holds_pending old && negb (holds_pending new)) as [D1 D2]
    by (rewrite H1, H2, H3, H4; lia).
  assert ((holds old = false → holds new = false) ∧ (holds_pending old = false → holds_pending new = false)) as [R1 R2]
    by (rewrite H1, H2, H3, H4; lia).
  clear H1 H2 H3 H4 P1 P2 P3 P4 Hrel Hrelp.
  set (s' := update_slot i old new s).
  assert (slots s' = <[i := new]> (slots s) ∧ acceptor s' = acceptor s ∧ hub s' = hub s ∧ max_connections s' = max_connections s)
    as (E1 & E2 & E3 & E4) by (unfold s', update_slot; rewrite D1, D2;
      by destruct (holds old && negb (holds new)), (holds_pending old && negb (holds_pending new))).
  assert (live s' = live s - (if holds old && negb (holds new) then 1 else 0)) as L1.
  { unfold live. rewrite E1, E2, (tally_insert holds _ _ _ _ Hi). clear - R1. destruct (holds old), (holds new); simpl; try lia. }
  assert (live_pending s' = live_pending s - (if holds_pending old && negb (holds_pending new) then 1 else 0)) as L2.
  { unfold live_pending. rewrite E1, E2, (tally_insert holds_pending _ _ _ _ Hi).
    clear - R2. destruct (holds_pending old), (holds_pending new); simpl; try lia. }
  pose proof (live_nonneg s') as N1. pose proof (live_pending_nonneg s') as N2.
  assert (connections s' = live s') as C1.
  { clear L2 N2. revert L1 N1. generalize (live s'). unfold s', update_slot. rewrite D1, D2.
    destruct (holds_pending old && _), (holds old && _); cbn; intros n Hn Hp; unfold permit_drop; rewrite ?u64_id; lia. }
  assert (pending s' = live_pending s') as C2.
  { clear L1 N1 C1. revert L2 N2. generalize (live_pending s'). unfold s', update_slot, MAX_PENDING, USIZE_MAX in *. rewrite D1, D2.
    destruct (holds_pending old && _), (holds old && _); cbn; intros n Hn Hp; unfold permit_drop;
      rewrite ?u64_id; unfold USIZE_MAX; lia. }
  clearbody s'. clear D1 D2 R1 R2. destruct (holds old && _), (holds_pending old && _).
  all: split; [split; rewrite ?E1, ?E3, ?E4; try done; try lia|rewrite L1, L2, ?Z.sub_0_r; split; constructor; lia].
  all: by apply Forall_insert.
Qed.
Lemma step_simulates s s' : step s s' → server_ok max s → simulates s s'.
Proof.
  intros [socket spurious s0|i old new s0 Hi Hst|s0|s0] Hok.
  - by apply accept_turn_simulates.
  - by apply update_slot_simulates.
  - split; [by destruct Hok|]. split; constructor.
  - split; [by destruct Hok|]. split; constructor.
Qed.
End Steps.

(** ** Reachable servers *)
Definition server_reach (max : Z) (h : Events) (s : Server) : Prop := rtc step (server_new max h) s.
Lemma server_reach_ok max h s :
  0 <= max <= USIZE_MAX → sent h = [] → receiver h = true → server_reach max h s →
  server_ok max s ∧ rtc (sem_step max) 0 (live s) ∧ rtc (sem_step MAX_PENDING) 0 (live_pending s).
Proof.
  intros Hmax Hs Hr Hreach. unfold server_reach in Hreach. revert s Hreach.
  apply rtc_ind_r; [|intros s s' Hreach Hst (Hok & H1 & H2)].
  - assert (live (server_new max h) = 0 ∧ live_pending (server_new max h) = 0) as [E1 E2] by done. rewrite E1, E2.
    split; [|by split]. split; rewrite ?E1, ?E2; try done. lia.
  - destruct (step_simulates max (proj2 Hmax) _ _ Hst Hok) as (Hok' & S1 & S2).
    split; [done|]. split; by eapply rtc_r.
Qed.

(** C31: The two counters of a server implement bounded semaphores.  Whatever
    the order in which sockets arrive, workers ask, run, finish and are
    cancelled, handles are dropped and the hub drains events, and however often
    a weak exchange fails: each counter is exactly the number of permits that
    someone still holds, it never exceeds its limit and never wraps, and every
    step of the server admits one under the limit, releases one that was
    admitted, or changes nothing. *)
Theorem admission_refines max h s :
  0 <= max <= USIZE_MAX → sent h = [] → receiver h = true → server_reach max h s →
  connections s = live s ∧ 0 <= live s <= max ∧ pending s = live_pending s ∧ 0 <= live_pending s <= MAX_PENDING ∧
  rtc (sem_step max) 0 (live s) ∧ rtc (sem_step MAX_PENDING) 0 (live_pending s) ∧
  ∀ s', step s s' → sem_step max (live s) (live s') ∧ sem_step MAX_PENDING (live_pending s) (live_pending s').
Proof.
  intros Hmax Hs Hr Hreach. destruct (server_reach_ok max h s Hmax Hs Hr Hreach) as (Hok & R1 & R2).
  pose proof Hok as [_ Ec Ep Hb Hbp _ _]. pose proof (live_nonneg s). pose proof (live_pending_nonneg s).
  split_and!; try done. intros s' Hst. by destruct (step_simulates max (proj2 Hmax) _ _ Hst Hok) as (_ & ? & ?).
Qed.

(** C32: A connection occupies its place while its worker runs or the
    application has not seen its end, and not longer.  The counter of
    connections is the number of sockets whose permit has a strong count above
    zero, with the one the accept loop may own.  That count is above zero while
    the worker runs, and while an event of the connection waits in the hub and
    the final event has not been taken out; once the worker has returned and
    the application has taken out everything up to the final event it is zero,
    even if the application keeps the closed handle; and it never comes back.
    The place of the handshake is held exactly while the worker is in the
    handshake or its request waits in the hub. *)
Theorem slot_released max h s i sl :
  0 <= max <= USIZE_MAX → sent h = [] → receiver h = true → server_reach max h s → slots s !! i = Some sl →
  connections s = tally (λ sl, 0 <? strong sl) (slots s) + owns_connection (acceptor s) ∧
  (worker sl ≠ Ended → 0 < strong sl) ∧
  (no_close (take (drained sl) (sent (ev sl))) → (drained sl < length (sent (ev sl)))%nat → 0 < strong sl) ∧
  (worker sl = Ended → ¬ no_close (sent (ev sl)) → drained sl = length (sent (ev sl)) → strong sl = 0) ∧
  (strong sl = 0 → ∀ sl', rtc slot_step sl sl' → strong sl' = 0) ∧
  (0 < strong_pending sl ↔
     worker sl ≠ Running ∧ worker sl ≠ Ended ∨ Exists (λ q, is_request (q_event q) = true) (undrained sl)).
Proof.
  intros Hmax Hs Hr Hreach Hi. destruct (server_reach_ok max h s Hmax Hs Hr Hreach) as ([_ Ec _ _ _ Hsl _] & _).
  assert (slot_ok sl) as Hok by (by eapply Forall_lookup_1). split_and!.
  - rewrite Ec. unfold live. f_equal. apply tally_ext. eapply Forall_impl; [exact Hsl|]. intros x Hx. by apply slot_ok_holds.
  - intros Hw. rewrite (co_strong sl (so_counts sl Hok)). pose proof (tally_nonneg q_permit (undrained sl)).
    destruct (worker sl), (bool_decide _); (done || lia).
  - by apply slot_ok_held.
  - by apply slot_ok_drained.
  - intros Hh sl' Hrtc. clear Hi. induction Hrtc as [|x y z Hst _ IH]; [done|].
    apply IH; [by eapply slot_step_ok|by eapply slot_step_released].
  - rewrite (slot_ok_pending sl Hok). destruct (worker sl); simpl; naive_solver.
Qed.

(** ** A server with room for one connection *)
Module Witness.
Definition accept_n (n : nat) (s : Server) : Server := Nat.iter n (accept_turn true false) s.
Lemma accept_n_reach n max h s : server_reach max h s → server_reach max h (accept_n n s).
Proof.
  intros Hr. induction n as [|n IH]; [done|]. eapply rtc_r; [exact IH|]. simpl. apply step_accept.
Qed.
(** One socket was admitted; the next one finds no room. *)
Definition full : Server := accept_n 9 (server_new 1 events_from).
Lemma admission_refines_witness :
  connections full = 1 ∧ 0 <= live full <= 1 ∧ acceptor full = Accepting.
Proof.
  destruct (admission_refines 1 events_from full) as (E & Hb & _);
    [by_decide|reflexivity|reflexivity|exact (accept_n_reach 9 _ _ _ (rtc_refl _ _))|].
  split; [vm_compute; reflexivity|]. split; [exact Hb|vm_compute; reflexivity].
Defined.
(** The connection runs, ends and closes; the application drains the event. *)
Definition life : list Slot :=
  let s0 := slot_new events_from in
  let s1 := slot_ask_with (EvRequest 1 {| path := bs "/"; req_headers := []; req_protocols := []; addr := (bs "::1", 9) |} 3) s0 in
  let s2 := slot_run s1 in
  let s3 := slot_send (EvClose 7 1000 []) s2 in
  let s4 := slot_over s3 in
  let s5 := drain_one s4 in
  [s0; s1; s2; s3; s4; s5; drain_one s5].
Definition update_with (s : Server) (old new : Slot) : Server := update_slot 0 old new s.
Definition over : Server :=
  match life with
  | [a; b; c; d; e; f; g] =>
      update_with (update_with (update_with (update_with (update_with (update_with full a b) b c) c d) d e) e f) f g
  | _ => full
  end.
Lemma over_reach : server_reach 1 events_from over.
Proof.
  assert (server_reach 1 events_from full) as H0 by exact (accept_n_reach 9 _ _ _ (rtc_refl _ _)).
  unfold over, life, update_with, server_reach in *.
  repeat (eapply rtc_r; [|apply step_slot; [vm_compute; reflexivity|]]); [exact H0|..].
  - apply slot_ask; reflexivity.
  - apply slot_accept. reflexivity.
  - apply slot_emit; reflexivity.
  - apply slot_end. discriminate.
  - apply slot_drain. vm_compute. lia.
  - apply slot_drain. vm_compute. lia.
Qed.
Lemma slot_released_witness :
  ∃ sl, slots over !! 0%nat = Some sl ∧ handles sl = true ∧ strong sl = 0 ∧ connections over = 0.
Proof.
  assert (∃ sl, slots over !! 0%nat = Some sl) as [sl Hsl] by (vm_compute; by eexists).
  exists sl. destruct (slot_released 1 events_from over 0 sl) as (_ & _ & _ & Hfree & _);
    [by_decide|reflexivity|reflexivity|exact over_reach|exact Hsl|].
  vm_compute in Hsl. simplify_eq. split; [vm_compute; reflexivity|]. split; [reflexivity|].
  split; [|vm_compute; reflexivity]. apply Hfree; [reflexivity| |reflexivity].
  intros Hn. apply Forall_cons in Hn as [_ Hn]. apply Forall_cons in Hn as [Hn _]. discriminate.
Defined.
End Witness.
