(* ===== verification/Listener.v ===== *)
(** * Closing a server (core/src/net/server.rs)

    [Server::close] sets the server's signal and waits until the accept task
    has given the port up.  Several threads may close one server, and dropping
    it closes it too; the accept task runs beside them.  The model is a step
    relation over what they share. *)

From S2P Require Import Prelude.

(** ** The state *)
(** One call of [close]: before its first line, after it set the signal first,
    waiting for the channel, or back. *)
Inductive came_back := AlreadyStopped | Released | TimedOut | NoReceiver.
#[export] Instance came_back_eq_dec : EqDecision came_back.
Proof. solve_decision. Defined.
Inductive Closer := Called | First | Waiting | Back (how : came_back).
(** The signal, whether the accept task owns the listener, whether it dropped
    its end of the channel, and whether the other end is still in the mutex. *)
Record Listener := { stopping : bool; listening_ : bool; done_dropped : bool; released : bool; closers : list Closer }.
(** The end of [listen]. *)
Definition listener_new : Listener :=
  {| stopping := false; listening_ := true; done_dropped := false; released := true; closers := [] |}.
Definition set_closers (l : list Closer) (s : Listener) : Listener :=
  {| stopping := stopping s; listening_ := listening_ s; done_dropped := done_dropped s; released := released s; closers := l |}.

(** ** [Server::close] *)
(** [if self.stop.set() { return; }] *)
Definition close_set (i : nat) (s : Listener) : Listener :=
  {| stopping := true; listening_ := listening_ s; done_dropped := done_dropped s; released := released s;
     closers := <[i := if stopping s then Back AlreadyStopped else First]> (closers s) |}.
(** [lock(&self.released).take()] *)
Definition close_take (i : nat) (s : Listener) : Listener :=
  {| stopping := stopping s; listening_ := listening_ s; done_dropped := done_dropped s; released := false;
     closers := <[i := if released s then Waiting else Back NoReceiver]> (closers s) |}.
(** The receiver's [recv_timeout]: nothing is ever sent, so that it ends when
    the sender is gone or after a second. *)
Definition close_wait (i : nat) (timeout : bool) (s : Listener) : option Listener :=
  if done_dropped s then Some (set_closers (<[i := Back Released]> (closers s)) s)
  else if timeout then Some (set_closers (<[i := Back TimedOut]> (closers s)) s) else None.
(** ** The accept task: [accept] ends, with the listener it owns, by returning
    or by a panic; then its end of the channel is dropped. *)
Definition accept_ends (s : Listener) : Listener :=
  {| stopping := stopping s; listening_ := false; done_dropped := done_dropped s; released := released s; closers := closers s |}.
Definition drop_done (s : Listener) : Listener :=
  {| stopping := stopping s; listening_ := listening_ s; done_dropped := true; released := released s; closers := closers s |}.

Inductive step : Listener → Listener → Prop :=
  | step_call s : step s (set_closers (closers s ++ [Called]) s)
  | step_set i s : closers s !! i = Some Called → step s (close_set i s)
  | step_take i s : closers s !! i = Some First → step s (close_take i s)
  | step_recv i timeout s s' : closers s !! i = Some Waiting → close_wait i timeout s = Some s' → step s s'
  | step_accept_ends s : step s (accept_ends s)
  | step_drop_done s : listening_ s = false → step s (drop_done s).

(** ** Invariant *)
(** The one caller that found the signal unset. *)
Definition is_first (c : Closer) : bool := match c with First | Waiting | Back (Released | TimedOut | NoReceiver) => true | _ => false end.
Definition taken (c : Closer) : bool := match c with Waiting | Back (Released | TimedOut | NoReceiver) => true | _ => false end.
Record listener_ok (s : Listener) : Prop := {
  lo_done : done_dropped s = true → listening_ s = false;
  lo_first : ∀ i c, closers s !! i = Some c → is_first c = true → stopping s = true;
  lo_unique : ∀ i j c d, closers s !! i = Some c → closers s !! j = Some d → is_first c = true → is_first d = true → i = j;
  lo_taken : released s = false → ∃ i c, closers s !! i = Some c ∧ taken c = true;
  lo_back : ∀ i, closers s !! i ≠ Some (Back NoReceiver);
  lo_released : ∀ i, closers s !! i = Some (Back Released) → done_dropped s = true
}.
Lemma listener_new_ok : listener_ok listener_new.
Proof. by split. Qed.
(** Replacing the state [c] of caller [i] by [d], of the same standing. *)
Lemma replace_ok i c d s s' :
  listener_ok s → closers s !! i = Some c → is_first c = is_first d → (taken c = true → taken d = true) →
  (released s' = false → released s = false ∨ taken d = true) → (d = Back Released → done_dropped s = true) → d ≠ Back NoReceiver →
  closers s' = <[i := d]> (closers s) → stopping s' = stopping s → listening_ s' = listening_ s → done_dropped s' = done_dropped s →
  listener_ok s'.
Proof.
  intros [L1 L2 L3 L4 L5 L6] Ei Hf Ht Hr Hd Hn Ec Es El Ed.
  assert (i < length (closers s))%nat as Hl by (by eapply lookup_lt_Some).
  assert (∀ j e, closers s' !! j = Some e → ∃ e0, closers s !! j = Some e0 ∧ is_first e0 = is_first e) as Hold.
  { intros j e. rewrite Ec. intros [(-> & -> & _)|[_ E]]%list_lookup_insert_Some; eauto. }
  split; rewrite ?Es, ?El, ?Ed.
  - done.
  - intros j e Ej. destruct (Hold j e Ej) as (e0 & E0 & <-). by apply (L2 j).
  - intros j k e f Ej Ek. destruct (Hold j e Ej) as (e0 & E0 & <-), (Hold k f Ek) as (f0 & F0 & <-). by eapply L3.
  - intros [Hrel|Htd]%Hr; [|exists i, d; by rewrite Ec, list_lookup_insert_eq].
    destruct (L4 Hrel) as (j & e & Ej & He). rewrite Ec. destruct (decide (j = i)) as [->|Hne].
    + exists i, d. rewrite list_lookup_insert_eq by done. split; [done|]. apply Ht. congruence.
    + exists j, e. by rewrite list_lookup_insert_ne.
  - intros j. rewrite Ec. intros [(_ & E & _)|[_ E]]%list_lookup_insert_Some; [by subst|by apply L5 in E].
  - intros j. rewrite Ec. intros [(_ & E & _)|[_ E]]%list_lookup_insert_Some; [by apply Hd|by apply L6 in E].
Qed.
Lemma call_ok s : listener_ok s → listener_ok (set_closers (closers s ++ [Called]) s).
Proof.
  intros [L1 L2 L3 L4 L5 L6].
  assert (∀ j e, (closers s ++ [Called]) !! j = Some e → closers s !! j = Some e ∨ e = Called) as Hold.
  { intros j e [E|[_ E]]%lookup_app_Some; [by left|right]. by apply list_lookup_singleton_Some in E as [_ <-]. }
  split; simpl; [done| | | | |].
  - intros j e [E| ->]%Hold; [by apply (L2 j e)|done].
  - intros j k e f [E| ->]%Hold [F| ->]%Hold; [by eapply L3|done..].
  - intros (j & e & E & He)%L4. exists j, e. split; [by apply lookup_app_l_Some|done].
  - intros j [E|[=]]%Hold. by apply L5 in E.
  - intros j [E|[=]]%Hold. by apply L6 in E.
Qed.
(** The caller that finds the signal unset is the first. *)
Lemma set_ok i s : listener_ok s → closers s !! i = Some Called → listener_ok (close_set i s).
Proof.
  intros HL Ei. pose proof HL as [L1 L2 L3 L4 L5 L6]. assert (i < length (closers s))%nat as Hl by (by eapply lookup_lt_Some).
  destruct (stopping s) eqn:Es.
  { apply (replace_ok i Called (Back AlreadyStopped) s); unfold close_set; rewrite ?Es; try done; by left. }
  assert (∀ j c, closers s !! j = Some c → is_first c = false) as Hno.
  { intros j c E. destruct (is_first c) eqn:Ef; [|done]. pose proof (L2 j c E Ef). congruence. }
  split; unfold close_set; rewrite ?Es; cbn [stopping listening_ done_dropped released closers].
  - done.
  - done.
  - intros j k c d [(-> & _)|[_ E]]%list_lookup_insert_Some [(-> & _)|[_ F]]%list_lookup_insert_Some Hc Hd; [done|..].
    + by rewrite (Hno _ _ F) in Hd.
    + by rewrite (Hno _ _ E) in Hc.
    + by rewrite (Hno _ _ E) in Hc.
  - intros (j & c & E & Hc)%L4. pose proof (Hno j c E). by destruct c as [| | |[]].
  - intros j [(_ & ? & _)|[_ E]]%list_lookup_insert_Some; [done|by apply L5 in E].
  - intros j [(_ & ? & _)|[_ E]]%list_lookup_insert_Some; [done|by apply L6 in E].
Qed.
Lemma step_ok s s' : step s s' → listener_ok s → listener_ok s'.
Proof.
  intros [s1|i s1 Ei|i s1 Ei|i timeout s1 s2 Ei Er|s1|s1 Hp] HL.
  - by apply call_ok.
  - by apply set_ok.
  - assert (released s1 = true) as Hr.
    { destruct (released s1) eqn:E; [done|]. destruct (lo_taken s1 HL E) as (j & c & Ej & Hc).
      assert (i = j) as <- by (apply (lo_unique s1 HL i j First c); try done; by destruct c as [| | |[]]).
      rewrite Ei in Ej. by injection Ej as <-. }
    apply (replace_ok i First Waiting s1); unfold close_take; rewrite ?Hr; try done. by right.
  - unfold close_wait in Er. destruct (done_dropped s1) eqn:Ed; [|destruct timeout; [|done]]; injection Er as <-;
      [apply (replace_ok i Waiting (Back Released) s1)|apply (replace_ok i Waiting (Back TimedOut) s1)]; try done; by left.
  - destruct HL as [L1 L2 L3 L4 L5 L6]. by split.
  - destruct HL as [L1 L2 L3 L4 L5 L6]. by split.
Qed.
Lemma reachable_listener_ok s : rtc step listener_new s → listener_ok s.
Proof.
  apply (rtc_ind_r listener_ok listener_new); [apply listener_new_ok|]. intros y z _ Hst HL. by eapply step_ok.
Qed.

(** ** Theorems *)
(** However callers and the accept task interleave: one caller at most waits,
    it always finds the receiver, and it comes back before its timeout only
    when the port has been given up; once the task is over it need not wait. *)
Theorem close_releases_port s i :
  rtc step listener_new s →
  (closers s !! i = Some (Back Released) → listening_ s = false) ∧
  closers s !! i ≠ Some (Back NoReceiver) ∧
  (∀ j, closers s !! i = Some Waiting → closers s !! j = Some Waiting → i = j) ∧
  (closers s !! i = Some Waiting → done_dropped s = true →
     ∃ s', step s s' ∧ closers s' !! i = Some (Back Released) ∧ listening_ s' = false).
Proof.
  intros HL%reachable_listener_ok. pose proof HL as [L1 L2 L3 L4 L5 L6]. split; [by intros ?%L6%L1|]. split; [apply L5|]. split.
  - intros j Ei Ej. by eapply L3.
  - intros Ei Hd. exists (set_closers (<[i := Back Released]> (closers s)) s). split; [|split; [|by apply L1]].
    + apply (step_recv i false s); [done|]. unfold close_wait. by rewrite Hd.
    + simpl. apply list_lookup_insert_eq. by eapply lookup_lt_Some.
Qed.
(** A second call returns while the port is still bound: it finds the signal
    set and does not wait for the first. *)
Theorem close_returns_early : ∃ s, rtc step listener_new s ∧ closers s !! 1%nat = Some (Back AlreadyStopped) ∧ listening_ s = true.
Proof.
  set (s1 := set_closers [Called] listener_new). set (s2 := set_closers [Called; Called] listener_new).
  set (s3 := close_set 0 s2). exists (close_set 1 s3). split; [|done].
  apply (rtc_l _ _ s1); [apply (step_call listener_new)|]. apply (rtc_l _ _ s2); [apply (step_call s1)|].
  apply (rtc_l _ _ s3); [by apply step_set|]. apply rtc_once. by apply step_set.
Qed.
