(* ===== verification/Float.v ===== *)
(** * Numbers of seconds (std's [f64] and [Duration::from_secs_f64])

    The native library takes timeouts and heartbeats as [f64], for which Lua
    may pass anything.  A finite number is a rational; infinities and NaN are
    kept, because the comparisons and [f64::min] of the source meet them. *)

From Stdlib Require Import QArith Qround.
From S2P Require Import Prelude.
#[local] Open Scope Z_scope.

Inductive F64 := Fin (x : Q) | Inf (negative : bool) | NaN.

(** ** Comparisons: false when one side is NaN *)
Definition f_cmp (x y : F64) : option comparison :=
  match x, y with
  | NaN, _ | _, NaN => None
  | Fin x, Fin y => Some (Qcompare x y)
  | Inf a, Inf b => Some (match a, b with true, false => Lt | false, true => Gt | _, _ => Eq end)
  | Inf a, Fin _ => Some (if a then Lt else Gt)
  | Fin _, Inf b => Some (if b then Gt else Lt)
  end.
Definition f_lt (x y : F64) : bool := match f_cmp x y with Some Lt => true | _ => false end.
Definition f_eq (x y : F64) : bool := match f_cmp x y with Some Eq => true | _ => false end.
Definition f_le (x y : F64) : bool := f_lt x y || f_eq x y.
(** [f64::min]: the other side when one is NaN. *)
Definition f_min (x y : F64) : F64 :=
  match f_cmp x y with
  | Some Gt => y
  | Some _ => x
  | None => match x with NaN => y | _ => x end
  end.
(** An integer as [f64]; the literals of the source are exact. *)
Definition f_int (n : Z) : F64 := Fin (inject_Z n).

(** ** [Duration::from_secs_f64]

    Nanoseconds, rounded to nearest, ties to even; a negative or too large
    number panics. *)
Definition NANOS : Z := 1000000000.
Definition round_even (x : Q) : Z :=
  let f := Qfloor x in
  match Qcompare (Qminus x (inject_Z f)) (1 # 2) with
  | Lt => f
  | Gt => f + 1
  | Eq => if Z.even f then f else f + 1
  end.
Definition from_secs_f64 (seconds : F64) : outcome Z :=
  match seconds with
  | Fin q =>
      if f_lt seconds (f_int 0) then Panic else
      let n := round_even (Qmult q (inject_Z NANOS)) in
      if n <? 2 ^ 64 * NANOS then Ret n else Panic
  | _ => Panic
  end.
(** [Duration::from_secs_f64(seconds.min(1.0e6))], as every caller has it. *)
Definition MAX_SECONDS : F64 := f_int 1000000.
Definition from_secs (seconds : F64) : outcome Z := from_secs_f64 (f_min seconds MAX_SECONDS).
(** A million seconds. *)
Definition MAX_NANOS : Z := 1000000 * NANOS.

(** ** Rounding *)
Lemma round_even_mono x y : (x <= y)%Q → round_even x <= round_even y.
Proof.
  intros Hxy. pose proof (Qfloor_resp_le _ _ Hxy) as Hf. unfold round_even.
  destruct (Z.eq_dec (Qfloor x) (Qfloor y)) as [E|].
  - rewrite E in *. assert (x - inject_Z (Qfloor y) <= y - inject_Z (Qfloor y))%Q as Hd by (apply Qplus_le_compat; [done|apply Qle_refl]).
    destruct (Qcompare_spec (x - inject_Z (Qfloor y)) (1 # 2)) as [Hx|Hx|Hx], (Qcompare_spec (y - inject_Z (Qfloor y)) (1 # 2)) as [Hy|Hy|Hy];
      try (destruct (Z.even (Qfloor y)); lia); exfalso.
    + rewrite <-Hx in Hy. by eapply Qle_not_lt.
    + rewrite <-Hy in Hx. by eapply Qle_not_lt.
    + eapply Qle_not_lt; [exact Hd|]. by eapply Qlt_trans.
  - destruct (Qcompare _ _), (Qcompare _ _); repeat destruct (Z.even _); lia.
Qed.
Lemma round_even_int n : round_even (inject_Z n) = n.
Proof. unfold round_even. rewrite Qfloor_Z. unfold Qminus. by rewrite Qplus_opp_r. Qed.

(** ** The conversion is total on what the callers give it *)
Lemma from_secs_fin q : (0 <= q)%Q → ∃ n, from_secs (Fin q) = Ret n ∧ 0 <= n <= MAX_NANOS ∧
  ((q <= inject_Z 1000000)%Q → n = round_even (Qmult q (inject_Z NANOS))).
Proof.
  intros Hq. assert (∃ q', f_min (Fin q) MAX_SECONDS = Fin q' ∧ (0 <= q' <= inject_Z 1000000)%Q ∧ ((q <= inject_Z 1000000)%Q → q' = q))
    as (q' & E & [H0 H1] & Hid).
  { unfold f_min, MAX_SECONDS, f_int, f_cmp. destruct (Qcompare_spec q (inject_Z 1000000)) as [H|H|H].
    - exists q. split; [done|]. split; [|done]. split; [done|]. rewrite H. apply Qle_refl.
    - exists q. split; [done|]. split; [|done]. split; [done|]. by apply Qlt_le_weak.
    - eexists. split; [done|]. split; [split; by apply Qle_bool_iff|]. intros Hle. exfalso. by eapply Qle_not_lt. }
  assert (0 <= round_even (q' * inject_Z NANOS) <= MAX_NANOS) as Hr.
  { rewrite <-(round_even_int MAX_NANOS), <-(round_even_int 0) at 1. split; apply round_even_mono.
    - apply Qmult_le_0_compat; [done|]. by apply Qle_bool_iff.
    - unfold MAX_NANOS. rewrite inject_Z_mult. apply Qmult_le_compat_r; [done|]. by apply Qle_bool_iff. }
  exists (round_even (q' * inject_Z NANOS)). split; [|split; [done|by intros Hle; rewrite Hid]].
  unfold from_secs. rewrite E. unfold from_secs_f64. assert (f_lt (Fin q') (f_int 0) = false) as ->.
  { unfold f_lt, f_int, f_cmp. destruct (Qcompare_spec q' (inject_Z 0)) as [| Hn|]; try done. destruct (Qle_not_lt _ _ H0 Hn). }
  unfold MAX_NANOS, NANOS in *. by destruct (Z.ltb_spec (round_even (q' * inject_Z 1000000000)) (2 ^ 64 * 1000000000)); [|lia].
Qed.
(** No number that is not negative makes it panic, infinity and NaN included. *)
Lemma from_secs_total x : f_lt x (f_int 0) = false → ∃ n, from_secs x = Ret n ∧ 0 <= n <= MAX_NANOS.
Proof.
  intros Hx. destruct x as [q|[]|]; [|done|by exists MAX_NANOS..].
  assert (0 <= q)%Q as Hq.
  { unfold f_lt, f_int, f_cmp in Hx. destruct (Qcompare_spec q (inject_Z 0)) as [H|H|H]; [|done|by apply Qlt_le_weak].
    rewrite H. apply Qle_refl. }
  destruct (from_secs_fin q Hq) as (n & ? & ? & _). eauto.
Qed.
