(* ===== verification/Native.v ===== *)
(** * The native library for Lua (native/src/)

    Every object crosses the C boundary as an integer, which a process-wide
    registry maps to hubs, connections, servers and pending decisions.  A call
    is a function of the registry; what it does to a connection is a program of
    [Link].  A [WsStr] is its bytes, [None] for a null pointer; its pointers,
    [ws_free] and the copy context are in [Handoff].  The numbers of seconds
    are those of [Float], NaN and infinities included. *)

From S2P Require Import Float Prelude Utf8 Str Http Ip Url Base64 Handshake Frame Head Dial Events Prog Link Conn Client Serve Pem.
#[local] Open Scope Z_scope.

(** ** Status codes, strings and errors (ffi.rs) *)
Definition OK : Z := 0.
Definition SOFT : Z := 1.
Definition FATAL : Z := 2.
Definition WsStr : Type := option bytes.
(** The status of a call and the message it left for [ws_error]. *)
Definition Status : Type := Z * option bytes.
Definition failed_with (status : Z) (message : bytes) : Status := (status, Some message).
Definition str_bytes (s : WsStr) : bytes := default [] s.
Definition str_text (s : WsStr) (what : bytes) : result (option bytes) Status :=
  match s with
  | None => Ok None
  | Some b => if is_utf8 b then Ok (Some b) else Err (failed_with FATAL (what ++ bs " must be valid UTF-8"))
  end.

(** The thread's message: [fail] replaces it and [ws_error] takes it. *)
Definition note_error (slot : bytes) (s : Status) : bytes := default slot s.2.
Definition ws_error (slot : bytes) : bytes * bytes := (slot, []).
(** [next_id] of core/src/lib.rs: the identifier, and the process-wide counter
    afterwards. *)
Definition FIRST_ID : Z := 1.
Definition next_id (counter : Z) : Z * Z := (counter, u64 (counter + 1)).

(** ** The registry (ffi.rs)

    A connection is known by its identifier, a server also by its port, a
    pending decision by its hub and its reply channel. *)
Record Registry := {
  hubs : gset Z; conns : gset Z; servers : gmap Z Z; owners : gmap Z Z; replies : gmap Z (Z * Z); next : Z
}.
Definition registry_new : Registry :=
  {| hubs := ∅; conns := ∅; servers := ∅; owners := ∅; replies := ∅; next := 0 |}.
(** [Registry::token] *)
Definition token (r : Registry) : Z * Registry :=
  let n := u64 (next r + 1) in
  (n, {| hubs := hubs r; conns := conns r; servers := servers r; owners := owners r; replies := replies r; next := n |}).
Definition add_conn (id hub : Z) (r : Registry) : Registry :=
  {| hubs := hubs r; conns := {[id]} ∪ conns r; servers := servers r; owners := <[id := hub]> (owners r);
     replies := replies r; next := next r |}.
Definition remove_conn (id : Z) (r : Registry) : Registry :=
  {| hubs := hubs r; conns := conns r ∖ {[id]}; servers := servers r; owners := delete id (owners r);
     replies := replies r; next := next r |}.
Definition add_server (id port hub : Z) (r : Registry) : Registry :=
  {| hubs := hubs r; conns := conns r; servers := <[id := port]> (servers r); owners := <[id := hub]> (owners r);
     replies := replies r; next := next r |}.
Definition remove_server (id : Z) (r : Registry) : Registry :=
  {| hubs := hubs r; conns := conns r; servers := delete id (servers r); owners := delete id (owners r);
     replies := replies r; next := next r |}.
Definition set_replies (m : gmap Z (Z * Z)) (r : Registry) : Registry :=
  {| hubs := hubs r; conns := conns r; servers := servers r; owners := owners r; replies := m; next := next r |}.
Definition set_hubs (s : gset Z) (r : Registry) : Registry :=
  {| hubs := s; conns := conns r; servers := servers r; owners := owners r; replies := replies r; next := next r |}.

(** ** Hubs (hub.rs) *)
Definition ws_hub (r : Registry) : Z * Registry :=
  let '(id, r) := token r in (id, set_hubs ({[id]} ∪ hubs r) r).
(** One turn of the loop of [ws_shutdown] over the hub's identifiers: the
    connections and servers taken out so far. *)
Definition shutdown_one (acc : Registry * list Z * list Z) (id : Z) : Registry * list Z * list Z :=
  let '(r, cs, ss) := acc in
  let cs := if bool_decide (id ∈ conns r) then cs ++ [id] else cs in
  let ss := if bool_decide (is_Some (servers r !! id)) then ss ++ [id] else ss in
  ({| hubs := hubs r; conns := conns r ∖ {[id]}; servers := delete id (servers r); owners := delete id (owners r);
      replies := replies r; next := next r |}, cs, ss).
(** The registry afterwards, the connections to terminate and the servers to
    drop. *)
Definition ws_shutdown (hub_id : Z) (r : Registry) : Registry * list Z * list Z :=
  let ids := map fst (filter (λ kv, kv.2 = hub_id) (map_to_list (owners r))) in
  let '(r, cs, ss) := foldl shutdown_one (r, [], []) ids in
  let r := set_replies (filter (λ kv, kv.2.1 ≠ hub_id) (replies r)) r in
  (set_hubs (hubs r ∖ {[hub_id]}) r, cs, ss).

(** [ws_now]: the time since its first call, before [as_secs_f64], and the cell
    that keeps the instant of that call. *)
Definition ws_now (start : option Z) (now : Z) : Z * option Z :=
  let start := default now start in (now - start, Some start).

Definition hub (id : Z) (r : Registry) : result unit Status :=
  if bool_decide (id ∈ hubs r) then Ok tt else Err (failed_with FATAL (bs "unknown hub")).

(** [str::lines]: a final line break ends the last line, and a carriage
    return before a line break belongs to it. *)
Definition chomp (l : bytes) : bytes := default l (strip_suffix [13] l).
Definition text_lines (s : bytes) : list bytes :=
  let pieces := split 10 s in
  map chomp (removelast pieces) ++ match last pieces with Some [] | None => [] | Some l => [l] end.
Definition lines (s : WsStr) (what : bytes) : result (list bytes) Status :=
  let? t := str_text s what in Ok (text_lines (default [] t)).
Fixpoint header_lines (ls : list bytes) : result Headers Status :=
  match ls with
  | [] => Ok []
  | l :: ls =>
      match split_once 58 l with
      | None => Err (failed_with FATAL (bs "invalid header"))
      | Some h => let? hs := header_lines ls in Ok (h :: hs)
      end
  end.
Definition heartbeat_from (seconds : F64) (default : option Z) : outcome (option Z) :=
  if f_lt seconds (f_int 0) then Ret default else
  if f_eq seconds (f_int 0) then Ret None else
  n ← from_secs seconds; Ret (Some n).
(** [usize::try_from] of a [u64]: a [usize] has 64 bits here. *)
Definition to_usize (n : Z) : option Z := if n <=? USIZE_MAX then Some n else None.
Definition size_from (n default_ : Z) : Z := if n =? 0 then default_ else default USIZE_MAX (to_usize n).

Section Native.
Context `{Target} `{Tls}.
(** [tls::client(Some(ca))] and [tls::server(cert, key)]; see [pem_ca] and
    [pem_server] below. *)
Variable tls_ca : bytes → result ClientConfig bytes.
Variable tls_server : bytes → bytes → result unit bytes.

(** The options [ws_connect] builds: what the strings say, then the numbers. *)
Definition client_strings (protocols headers ca : WsStr)
    : result (list bytes * Headers * option ClientConfig) Status :=
  let? ps := lines protocols (bs "protocols") in
  let? hl := lines headers (bs "headers") in
  let? hs := header_lines hl in
  let? ca := str_text ca (bs "tls.ca") in
  let? tls := (match ca with
               | None => Ok None
               | Some ca => match tls_ca ca with Ok c => Ok (Some c) | Err e => Err (failed_with FATAL e) end
               end) in
  Ok (ps, hs, tls).
Definition client_options (protocols headers ca : WsStr) (timeout : F64) (max buffer : Z) (heartbeat : F64)
    : outcome (result ClientOptions Status) :=
  let d := client_default in
  match client_strings protocols headers ca with
  | Err status => Ret (Err status)
  | Ok (ps, hs, tls) =>
      t ← (if f_lt (f_int 0) timeout then from_secs timeout else Ret (c_timeout d));
      hb ← heartbeat_from heartbeat (c_heartbeat d);
      Ret (Ok {| c_protocols := ps; c_headers := hs; c_tls := tls; c_timeout := t;
                 c_max_message := size_from max (c_max_message d); c_max_buffer := size_from buffer (c_max_buffer d);
                 c_heartbeat := hb |})
  end.
(** [Hub::connect]; [now], [tok], [rt] and [e] are what [connect] takes from
    its surroundings.  The identifier is drawn before the arguments are
    checked. *)
Definition hub_connect (now : Z) (tok : bytes) (rt : result unit bytes) (e : Events) (url : bytes) (opts : ClientOptions)
    (counter : Z) : result Started bytes * Z :=
  let '(id, counter) := next_id counter in (connect now tok rt e id url opts, counter).
(** [ws_connect] after it found the hub and before it locks the registry
    again: what it started or the status it returns, and the counter. *)
Definition connect_run (now : Z) (tok : bytes) (rt : result unit bytes) (e : Events)
    (url protocols headers ca : WsStr) (timeout : F64) (max buffer : Z) (heartbeat : F64)
    (counter : Z) : outcome (result Started Status * Z) :=
  match str_text url (bs "url") with
  | Err status => Ret (Err status, counter)
  | Ok u =>
      opts ← client_options protocols headers ca timeout max buffer heartbeat;
      Ret (match opts with
           | Err status => (Err status, counter)
           | Ok opts =>
               match hub_connect now tok rt e (default [] u) opts counter with
               | (Ok s, counter) => (Ok s, counter)
               | (Err why, counter) => (Err (failed_with FATAL why), counter)
               end
           end)
  end.
Definition ws_connect (now : Z) (tok : bytes) (rt : result unit bytes) (e : Events)
    (hub_id : Z) (url protocols headers ca : WsStr) (timeout : F64) (max buffer : Z) (heartbeat : F64)
    (counter : Z) (r : Registry) : outcome (Status * option Started * Z * Registry) :=
  match hub hub_id r with
  | Err status => Ret (status, None, counter, r)
  | Ok _ =>
      run ← connect_run now tok rt e url protocols headers ca timeout max buffer heartbeat counter;
      Ret (match run with
           | (Err status, counter) => (status, None, counter, r)
           | (Ok s, counter) => ((OK, None), Some s, counter, add_conn (conn_id (s_link s)) hub_id r)
           end)
  end.

(** ** Servers (server.rs) *)
(** [Hub::listen] *)
Definition hub_listen (rt : result unit bytes) (bound : result Z bytes) (opts : ServerOptions) (counter : Z)
    : result (Shared * Z) bytes * Z :=
  let '(id, counter) := next_id counter in (listen rt bound id opts, counter).
Definition server_tls (cert key : WsStr) : result bool Status :=
  let? cert := str_text cert (bs "tls.cert") in
  let? key := str_text key (bs "tls.key") in
  match cert, key with
  | Some cert, Some key => match tls_server cert key with Ok _ => Ok true | Err e => Err (failed_with FATAL e) end
  | None, None => Ok false
  | _, _ => Err (failed_with FATAL (bs "options 'tls.cert' and 'tls.key' go together"))
  end.
Definition connection_limit (connections : Z) : result Z Status :=
  if 0 <? connections then
    match to_usize connections with
    | Some n => Ok n
    | None => Err (failed_with FATAL (bs "connection limit is too large"))
    end
  else Ok (v_max_connections server_default).
(** The options [ws_listen] builds, in its order. *)
Definition server_options (host : WsStr) (port : Z) (cert key : WsStr) (max buffer connections : Z) (heartbeat : F64)
    : outcome (result ServerOptions Status) :=
  let d := server_default in
  match connection_limit connections, str_text host (bs "host") with
  | Err status, _ | Ok _, Err status => Ret (Err status)
  | Ok limit, Ok host =>
      hb ← heartbeat_from heartbeat (v_heartbeat d);
      Ret (let? tls := server_tls cert key in
           Ok {| v_host := default (v_host d) host; v_port := port; v_tls := tls;
                 v_max_message := size_from max (v_max_message d); v_max_buffer := size_from buffer (v_max_buffer d);
                 v_heartbeat := hb;
                 v_max_connections := limit |})
  end.
Definition listen_run (rt : result unit bytes) (bound : result Z bytes)
    (host : WsStr) (port : Z) (cert key : WsStr) (max buffer connections : Z) (heartbeat : F64)
    (counter : Z) : outcome (result (Shared * Z) Status * Z) :=
  opts ← server_options host port cert key max buffer connections heartbeat;
  Ret (match opts with
       | Err status => (Err status, counter)
       | Ok opts =>
           match hub_listen rt bound opts counter with
           | (Ok s, counter) => (Ok s, counter)
           | (Err why, counter) => (Err (failed_with SOFT why), counter)
           end
       end).
Definition ws_listen (rt : result unit bytes) (bound : result Z bytes)
    (hub_id : Z) (host : WsStr) (port : Z) (cert key : WsStr) (max buffer connections : Z) (heartbeat : F64)
    (counter : Z) (r : Registry) : outcome (Status * option Shared * Z * Registry) :=
  match hub hub_id r with
  | Err status => Ret (status, None, counter, r)
  | Ok _ =>
      run ← listen_run rt bound host port cert key max buffer connections heartbeat counter;
      Ret (match run with
           | (Err status, counter) => (status, None, counter, r)
           | (Ok (s, p), counter) => ((OK, None), Some s, counter, add_server (sh_id s) p hub_id r)
           end)
  end.
Definition ws_port (server : Z) (r : Registry) : Z := default 0 (servers r !! server).
(** The server dropped, if there was one. *)
Definition ws_unlisten (server : Z) (r : Registry) : option Z * Registry :=
  (servers r !! server, remove_server server r).
(** [ws_reply]: the status, the decision sent and on which channel. *)
Definition ws_reply (tok status : Z) (protocol : WsStr) (r : Registry) : Status * option (Z * Reply) * Registry :=
  match replies r !! tok with
  | None => ((OK, None), None, r)
  | Some (_, tx) =>
      let r := set_replies (delete tok (replies r)) r in
      let '(reply, result) :=
        match str_text protocol (bs "protocol") with
        | Err e => (Reject 500, e)
        | Ok p =>
            if status =? 0 then (Accept p, (OK, None)) else
            if (400 <=? status) && (status <=? 599) then (Reject status, (OK, None)) else
            (Reject 500, failed_with FATAL (bs "status must be from 400 to 599"))
        end in
      (result, Some (tx, reply), r)
  end.

(** ** Connections (conn.rs) *)
Definition with_conn (id : Z) (f : method Status) (r : Registry) : method Status :=
  if bool_decide (id ∈ conns r) then f else Done (failed_with SOFT (bs "closed")).
Definition sent_status (x : result unit bytes) : Status :=
  match x with Ok _ => (OK, None) | Err e => failed_with SOFT e end.
Definition ws_send (tid : nat) (id : Z) (data : WsStr) (binary : bool) (r : Registry) : method Status :=
  let data := str_bytes data in
  if binary then with_conn id (x ← conn_send tid data true; Done (sent_status x)) r
  else if is_utf8 data then with_conn id (x ← send_text tid data; Done (sent_status x)) r
  else Done (failed_with FATAL (bs "text must be valid UTF-8; use send(data, true) for binary")).
Definition ws_ping (tid : nat) (id : Z) (data : WsStr) (r : Registry) : method Status :=
  let data := str_bytes data in
  if 125 <? zlen data then Done (failed_with FATAL (bs "ping data must be at most 125 bytes"))
  else with_conn id (x ← conn_ping tid data; Done (sent_status x)) r.
Definition ws_close (id code : Z) (reason : WsStr) (r : Registry) : method Status :=
  if negb ((0 <=? code) && (code <=? 65535) && valid_close_code code) then
    Done (failed_with FATAL (bs "invalid close code")) else
  match str_text reason (bs "close reason") with
  | Err e => Done e
  | Ok reason =>
      let reason := default [] reason in
      if 123 <? zlen reason then Done (failed_with FATAL (bs "close reason must be at most 123 bytes")) else
      if bool_decide (id ∈ conns r) then
        x ← conn_close code reason;
        Done (match x with Ok _ => (OK, None) | Err e => failed_with FATAL e end)
      else Done (OK, None)
  end.
Definition ws_terminate (id : Z) (r : Registry) : method unit :=
  if bool_decide (id ∈ conns r) then conn_terminate else Done tt.
Definition state_code (s : State) : Z :=
  match s with Connecting => 0 | Open => 1 | Closing => 2 | Closed => 3 end.
Definition ws_state (id : Z) (r : Registry) : method Z :=
  if bool_decide (id ∈ conns r) then s ← conn_state; Done (state_code s) else Done (state_code Closed).
Definition ws_protocol (id : Z) (r : Registry) : method WsStr :=
  if bool_decide (id ∈ conns r) then reads conn_protocol else Done None.
Definition ws_buffered (id : Z) (r : Registry) : method Z :=
  if bool_decide (id ∈ conns r) then conn_buffered else Done 0.

(** ** Events (event.rs) *)
Definition EV_OPEN : Z := 1.
Definition EV_MESSAGE : Z := 2.
Definition EV_PING : Z := 3.
Definition EV_PONG : Z := 4.
Definition EV_ERROR : Z := 5.
Definition EV_CLOSE : Z := 6.
Definition EV_REQUEST : Z := 7.
Definition EV_CONNECTION : Z := 8.
Definition EV_DRAIN : Z := 9.
Record WsEvent := { e_kind : Z; e_id : Z; e_server : Z; e_code : Z; e_data : bytes }.
Definition ws_event (kind id server code : Z) (data : bytes) : WsEvent :=
  {| e_kind := kind; e_id := id; e_server := server; e_code := code; e_data := data |}.
Definition NL : bytes := [10].
Definition pack (req : UpgradeRequest) : bytes :=
  let s := path req ++ NL ++ (addr req).1 ++ NL ++ to_dec (addr req).2 ++ NL ++ join [44] (req_protocols req) ++ NL in
  foldl (λ s h, s ++ h.1 ++ [58] ++ h.2 ++ NL) s (req_headers req).
(** The C event, the registry afterwards, and the connection to which
    [consumed] is called with how many bytes. *)
Definition flatten (hub_id : Z) (event : Event) (r : Registry) : WsEvent * Registry * option (Z * Z) :=
  let take id data := if bool_decide (id ∈ conns r) then Some (id, zlen data) else None in
  match event with
  | EvOpen id => (ws_event EV_OPEN id 0 0 [], r, None)
  | EvMessage id data binary =>
      (ws_event EV_MESSAGE id 0 (if binary then 1 else 0) data, r, take id data)
  | EvPing id data => (ws_event EV_PING id 0 0 data, r, take id data)
  | EvPong id data => (ws_event EV_PONG id 0 0 data, r, take id data)
  | EvError id error => (ws_event EV_ERROR id 0 0 error, r, None)
  | EvDrain id => (ws_event EV_DRAIN id 0 0 [], r, None)
  | EvClose id code reason => (ws_event EV_CLOSE id 0 code reason, remove_conn id r, None)
  | EvRequest server req reply =>
      let '(tok, r) := token r in
      (ws_event EV_REQUEST tok server 0 (pack req), set_replies (<[tok := (hub_id, reply)]> (replies r)) r, None)
  | EvConnection server conn req =>
      (ws_event EV_CONNECTION conn server 0 (pack req), add_conn conn hub_id r, None)
  end.
(** [ws_wait]: the result, the event, the registry, and what was consumed.
    [recv] is what the hub's queue gives within a timeout, [None] being for
    ever. *)
Definition wait_timeout (timeout : F64) : outcome (option Z) :=
  if f_le (f_int 0) timeout then n ← from_secs timeout; Ret (Some n) else Ret None.
Definition ws_wait (hub_id : Z) (timeout : F64) (recv : option Z → option Event) (r : Registry)
    : outcome (Z * option WsEvent * Registry * option (Z * Z)) :=
  if negb (bool_decide (hub_id ∈ hubs r)) then Ret (- FATAL, None, r, None) else
  t ← wait_timeout timeout;
  Ret (match recv t with
       | None => (0, None, r, None)
       | Some event => let '(e, r, took) := flatten hub_id event r in (1, Some e, r, took)
       end).
End Native.

(** ** The TLS settings of tls.rs behind this interface

    [default_config] is what [tls::client(None)] makes once; rustls reads
    server names. *)
Section Pem.
Context `{Rustls} (files : Files) {N : Type} (names : bytes → option N) (default_config : ClientConf).
Definition pem_tls : Tls :=
  {| ClientConfig := ClientConf; ServerName := N; tls_client := Ok default_config; server_name := names |}.
Definition pem_ca (ca : bytes) : result (@ClientConfig pem_tls) bytes :=
  match Pem.client files (Some ca) with Ret r => r | _ => Err [] end.
Definition pem_server (cert key : bytes) : result unit bytes :=
  match Pem.server files cert key with Ok _ => Ok tt | Err e => Err e end.
End Pem.
