(* ===== verification/NativeProps.v ===== *)
(** * Properties of the native library

    The registry's invariant under single calls, the shutdown of a hub, that no
    number of seconds makes a call panic, and the packing of requests. *)

From Stdlib Require Import QArith_base.
From S2P Require Import Float Prelude Utf8 Str Http Ip Url Base64 Handshake UrlFacts HandshakeFacts Frame Head Dial Events Prog Link Conn LinkInv LinkSafe LinkFun Client ClientProps Serve HandshakeProps Pem Native.
#[local] Open Scope Z_scope.

(** ** The registry's invariant

    [lost] are the connections that no hub owns any more: [ws_unlisten] forgets
    the owner of whatever it is given. *)
Record registry_ok (lost : gset Z) (r : Registry) : Prop := {
  ro_owned : dom (owners r) = (conns r ∖ lost) ∪ dom (servers r);
  ro_disjoint : conns r ## dom (servers r);
  ro_hubs : ∀ id h, owners r !! id = Some h → h ∈ hubs r;
  ro_replies : ∀ t h c, replies r !! t = Some (h, c) → h ∈ hubs r ∧ 0 < t <= next r;
  ro_tokens : ∀ h, h ∈ hubs r → 0 < h <= next r;
  ro_next : 0 <= next r <= U64_MAX
}.
Lemma registry_new_ok : registry_ok ∅ registry_new.
Proof. split; simpl; try set_solver. unfold U64_MAX. lia. Qed.
Lemma token_fresh lost r :
  registry_ok lost r → next r < U64_MAX →
  (token r).1 = next r + 1 ∧ registry_ok lost (token r).2 ∧ (token r).1 ∉ hubs r ∧ replies r !! (token r).1 = None.
Proof.
  intros [O1 O2 O3 O4 O5 O6] Hn. assert (u64 (next r + 1) = next r + 1) as E.
  { apply Z.mod_small. unfold U64_MAX in *. lia. }
  unfold token. cbn [fst snd]. rewrite E. split; [done|]. split_and!.
  - split; simpl; try done.
    + intros t h c Ht. destruct (O4 t h c Ht). split; [done|lia].
    + intros h Hh. specialize (O5 h Hh). lia.
    + unfold U64_MAX in *. lia.
  - intros Hin. specialize (O5 _ Hin). lia.
  - destruct (replies r !! (next r + 1)) as [[h c]|] eqn:Et; [|done]. apply O4 in Et. lia.
Qed.
Lemma add_conn_ok lost id h r :
  registry_ok lost r → h ∈ hubs r → servers r !! id = None → id ∉ lost → registry_ok lost (add_conn id h r).
Proof.
  intros [O1 O2 O3 O4 O5 O6] Hh Hs Hl. apply not_elem_of_dom in Hs. split; simpl; try done.
  - rewrite dom_insert_L, O1. apply set_eq. intros i. destruct (decide (i = id)) as [->|]; set_solver.
  - set_solver.
  - intros i h' [[-> <-]|[_ Hi]]%lookup_insert_Some; [done|by eapply O3].
Qed.
Lemma remove_conn_ok lost id r : registry_ok lost r → servers r !! id = None → registry_ok lost (remove_conn id r).
Proof.
  intros [O1 O2 O3 O4 O5 O6] Hs. apply not_elem_of_dom in Hs. split; simpl; try done.
  - rewrite dom_delete_L, O1. set_solver.
  - set_solver.
  - intros i h' [_ Hi]%lookup_delete_Some. by eapply O3.
Qed.
Lemma add_server_ok lost id p h r :
  registry_ok lost r → h ∈ hubs r → id ∉ conns r → registry_ok lost (add_server id p h r).
Proof.
  intros [O1 O2 O3 O4 O5 O6] Hh Hc. split; simpl; try done.
  - rewrite !dom_insert_L, O1. set_solver.
  - rewrite dom_insert_L. set_solver.
  - intros i h' [[-> <-]|[_ Hi]]%lookup_insert_Some; [done|by eapply O3].
Qed.
(** The identifier may be a connection's, which is then nobody's. *)
Lemma remove_server_ok lost id r :
  registry_ok lost r →
  registry_ok (if bool_decide (id ∈ conns r) then {[id]} ∪ lost else lost) (remove_server id r).
Proof.
  intros [O1 O2 O3 O4 O5 O6]. split; simpl; try done.
  - rewrite !dom_delete_L, O1. case_bool_decide; set_solver.
  - rewrite dom_delete_L. set_solver.
  - intros i h' [_ Hi]%lookup_delete_Some. by eapply O3.
Qed.
Lemma set_replies_ok lost m r :
  registry_ok lost r → (∀ t h c, m !! t = Some (h, c) → h ∈ hubs r ∧ 0 < t <= next r) → registry_ok lost (set_replies m r).
Proof. intros [O1 O2 O3 O4 O5 O6] Hm. by split. Qed.

(** ** [ws_shutdown] *)
(** What the loop over the identifiers does, whatever their order. *)
Lemma shutdown_loop ids : ∀ r cs ss r' cs' ss',
  foldl shutdown_one (r, cs, ss) ids = (r', cs', ss') → NoDup ids →
  hubs r' = hubs r ∧ replies r' = replies r ∧ next r' = next r ∧
  conns r' = conns r ∖ list_to_set ids ∧
  (∀ i, servers r' !! i = if decide (i ∈ ids) then None else servers r !! i) ∧
  (∀ i, owners r' !! i = if decide (i ∈ ids) then None else owners r !! i) ∧
  (∀ i, i ∈ cs' ↔ i ∈ cs ∨ i ∈ ids ∧ i ∈ conns r) ∧
  (∀ i, i ∈ ss' ↔ i ∈ ss ∨ i ∈ ids ∧ is_Some (servers r !! i)).
Proof.
  induction ids as [|id ids IH]; intros r cs ss r' cs' ss'; cbn [foldl].
  { intros [= <- <- <-] _. split_and!; try done; [set_solver|..]; intros i.
    - split; [by left|]. by intros [?|[[]%elem_of_nil _]].
    - split; [by left|]. by intros [?|[[]%elem_of_nil _]]. }
  intros Hf [Hn Hnd]%NoDup_cons.
  destruct (shutdown_one (r, cs, ss) id) as [[r1 cs1] ss1] eqn:E1. unfold shutdown_one in E1. simplify_eq.
  apply IH in Hf as (-> & -> & -> & -> & Hs & Ho & Hcs & Hss); [|done].
  cbn [hubs replies next conns servers owners] in *. split_and!; try done.
  - set_solver.
  - intros i. rewrite Hs. destruct (decide (i ∈ ids)); [by rewrite decide_True by set_solver|].
    destruct (decide (i = id)) as [->|]; [rewrite lookup_delete_eq; by rewrite decide_True by set_solver|].
    rewrite lookup_delete_ne by done. by rewrite decide_False by set_solver.
  - intros i. rewrite Ho. destruct (decide (i ∈ ids)); [by rewrite decide_True by set_solver|].
    destruct (decide (i = id)) as [->|]; [rewrite lookup_delete_eq; by rewrite decide_True by set_solver|].
    rewrite lookup_delete_ne by done. by rewrite decide_False by set_solver.
  - intros i. clear Hs Ho Hss. rewrite Hcs, elem_of_cons, elem_of_difference, elem_of_singleton. clear Hcs. destruct (decide (i = id)) as [->|Hne].
    + case_bool_decide; [rewrite elem_of_app, list_elem_of_singleton|]; tauto.
    + case_bool_decide; [rewrite elem_of_app, list_elem_of_singleton|]; tauto.
  - intros i. rewrite Hss. clear Hs Ho Hcs Hss. destruct (decide (i = id)) as [->|Hne].
    + rewrite lookup_delete_eq, elem_of_cons.
      case_bool_decide as Hb; [rewrite elem_of_app, list_elem_of_singleton; tauto|]. split.
      * intros [?|[? [? ?]]]; [by left|done].
      * intros [?|[_ ?]]; [by left|done].
    + rewrite lookup_delete_ne, elem_of_cons by done.
      case_bool_decide; [rewrite elem_of_app, list_elem_of_singleton|]; tauto.
Qed.
Definition hub_ids (h : Z) (r : Registry) : list Z :=
  map fst (filter (λ kv, kv.2 = h) (map_to_list (owners r))).
Lemma elem_of_hub_ids h r i : i ∈ hub_ids h r ↔ owners r !! i = Some h.
Proof.
  unfold hub_ids. rewrite list_elem_of_fmap. split.
  - intros ([k h'] & -> & Hin). apply list_elem_of_filter in Hin as [E Hin]. simpl in E. subst.
    by apply elem_of_map_to_list in Hin.
  - intros Hi. exists (i, h). split; [done|]. apply list_elem_of_filter. split; [done|]. by apply elem_of_map_to_list.
Qed.
Lemma NoDup_hub_ids h r : NoDup (hub_ids h r).
Proof.
  unfold hub_ids. eapply sublist_NoDup; [apply (NoDup_fst_map_to_list (owners r))|].
  apply fmap_sublist, sublist_filter.
Qed.
Lemma shutdown_effect h r r' cs ss :
  ws_shutdown h r = (r', cs, ss) →
  hubs r' = hubs r ∖ {[h]} ∧ next r' = next r ∧
  (∀ i, i ∈ conns r' ↔ i ∈ conns r ∧ owners r !! i ≠ Some h) ∧
  (∀ i, servers r' !! i = if decide (owners r !! i = Some h) then None else servers r !! i) ∧
  (∀ i, owners r' !! i = if decide (owners r !! i = Some h) then None else owners r !! i) ∧
  (∀ t, replies r' !! t = (replies r !! t ≫= λ x, if decide (x.1 = h) then None else Some x)) ∧
  (∀ i, i ∈ cs ↔ i ∈ conns r ∧ owners r !! i = Some h) ∧
  (∀ i, i ∈ ss ↔ is_Some (servers r !! i) ∧ owners r !! i = Some h).
Proof.
  unfold ws_shutdown. fold (hub_ids h r). destruct (foldl shutdown_one (r, [], []) (hub_ids h r)) as [[r1 cs1] ss1] eqn:E.
  apply shutdown_loop in E as (E1 & E2 & E3 & E4 & E5 & E6 & E7 & E8); [|apply NoDup_hub_ids].
  intros [= <- <- <-]. cbn [set_hubs set_replies hubs next conns servers owners replies]. rewrite E1, E2, E3.
  split_and!; try done.
  - intros i. rewrite E4, elem_of_difference, elem_of_list_to_set, elem_of_hub_ids. done.
  - intros i. rewrite E5. destruct (decide (i ∈ _)) as [Hi|Hi]; rewrite elem_of_hub_ids in Hi;
      [by rewrite decide_True|by rewrite decide_False].
  - intros i. rewrite E6. destruct (decide (i ∈ _)) as [Hi|Hi]; rewrite elem_of_hub_ids in Hi;
      [by rewrite decide_True|by rewrite decide_False].
  - intros t. rewrite map_lookup_filter. destruct (replies r !! t) as [[h' c]|]; [|done]. simpl.
    unfold guard. repeat case_decide; simpl in *; done.
  - intros i. rewrite E7, elem_of_hub_ids. set_solver.
  - intros i. rewrite E8, elem_of_hub_ids. set_solver.
Qed.
Lemma shutdown_ok lost h r : registry_ok lost r → registry_ok lost (ws_shutdown h r).1.1.
Proof.
  intros [O1 O2 O3 O4 O5 O6]. destruct (ws_shutdown h r) as [[r' cs] ss] eqn:E.
  destruct (shutdown_effect _ _ _ _ _ E) as (E1 & E2 & E3 & E4 & E5 & E6 & _). cbn [fst snd].
  split; rewrite ?E1, ?E2; try done.
  - apply set_eq. intros i. rewrite elem_of_union, elem_of_difference, !elem_of_dom, E3, E4, E5.
    assert (is_Some (owners r !! i) ↔ (i ∈ conns r ∧ i ∉ lost) ∨ is_Some (servers r !! i)) as Hi by
      (rewrite <-!elem_of_dom, O1, elem_of_union, elem_of_difference; done).
    destruct (decide (owners r !! i = Some h)) as [Ho|Ho]; [|tauto].
    split; [by intros [? ?]|]. by intros [[[_ ?] _]|[? ?]].
  - intros i Hi Hd%elem_of_dom. apply E3 in Hi as [Hi Hn]. rewrite E4, decide_False in Hd by done.
    apply (O2 i Hi). by apply elem_of_dom.
  - intros i h'. rewrite E5. destruct (decide (owners r !! i = Some h)) as [|Hn]; [done|]. intros Hi.
    rewrite elem_of_difference, elem_of_singleton. split; [by eapply O3|]. by intros ->.
  - intros t h' c. rewrite E6. destruct (replies r !! t) as [[h0 c0]|] eqn:Et; [|done]. simpl.
    destruct (decide (h0 = h)); [done|]. intros [= <- <-]. destruct (O4 _ _ _ Et). set_solver.
  - intros h' [Hh _]%elem_of_difference. by apply O5.
Qed.

(** ** Numbers of seconds never panic *)
Lemma heartbeat_total s d :
  ∃ hb, heartbeat_from s d = Ret hb ∧ (hb = d ∨ hb = None ∨ ∃ n, hb = Some n ∧ 0 <= n <= MAX_NANOS).
Proof.
  unfold heartbeat_from. destruct (f_lt s (f_int 0)) eqn:E; [by eauto|]. destruct (f_eq s (f_int 0)); [by eauto|].
  destruct (from_secs_total s E) as (n & -> & Hn). exists (Some n). split; [done|]. by eauto.
Qed.
Lemma f_le_ge x y : f_le x y = true → f_lt y x = false.
Proof.
  unfold f_le, f_lt, f_eq, f_cmp. destruct x as [x|[]|], y as [y|[]|]; try done.
  rewrite <-(Qcompare_antisym x y). by destruct (Qcompare x y).
Qed.
Lemma wait_timeout_total t : ∃ x, wait_timeout t = Ret x ∧ (∀ n, x = Some n → 0 <= n <= MAX_NANOS).
Proof.
  unfold wait_timeout. destruct (f_le (f_int 0) t) eqn:E; [|by exists None].
  destruct (from_secs_total t (f_le_ge _ _ E)) as (n & -> & Hn). exists (Some n). split; [done|]. by intros ? [= <-].
Qed.
Lemma ws_wait_returns h t recv r :
  ∃ x, ws_wait h t recv r = Ret x ∧ (x.1.2 = r ∨ h ∈ hubs r ∧ ∃ ev, x.1.2 = (flatten h ev r).1.2).
Proof.
  unfold ws_wait. case_bool_decide as Hh; simpl; [|eauto]. destruct (wait_timeout_total t) as (n & -> & _). simpl.
  destruct (recv n) as [ev|]; [|by eauto]. eexists. split; [done|]. right. split; [done|]. exists ev. by destruct (flatten h ev r) as [[? ?] ?].
Qed.
Section Totality.
Context `{Tls} (tls_ca : bytes → result ClientConfig bytes) (tls_server : bytes → bytes → result unit bytes).
Lemma client_options_total ps hs ca timeout max buffer hb :
  ∃ x, client_options tls_ca ps hs ca timeout max buffer hb = Ret x ∧
    match x with
    | Err status => client_strings tls_ca ps hs ca = Err status
    | Ok o => (c_timeout o = c_timeout client_default ∨ 0 <= c_timeout o <= MAX_NANOS) ∧
        (c_heartbeat o = c_heartbeat client_default ∨ c_heartbeat o = None ∨ ∃ n, c_heartbeat o = Some n ∧ 0 <= n <= MAX_NANOS) ∧
        c_max_message o = size_from max (c_max_message client_default) ∧ c_max_buffer o = size_from buffer (c_max_buffer client_default)
    end.
Proof.
  unfold client_options. destruct (client_strings _ _ _ _) as [[[ps' hs'] tls']|]; [|by eexists].
  assert (∃ t, (if f_lt (f_int 0) timeout then from_secs timeout else Ret (c_timeout client_default)) = Ret t ∧
    (t = c_timeout client_default ∨ 0 <= t <= MAX_NANOS)) as (t & -> & Ht).
  { destruct (f_lt (f_int 0) timeout) eqn:E; [|by eauto]. destruct (from_secs_total timeout) as (n & -> & ?); [|by eauto].
    apply f_le_ge. unfold f_le. by rewrite E. }
  destruct (heartbeat_total hb (c_heartbeat client_default)) as (n & E & Hn). cbn [mbind outcome_bind]. rewrite E. cbn [mbind outcome_bind]. eexists. split; [done|]. by split_and!.
Qed.
Lemma server_options_total host port cert key max buffer n hb :
  ∃ x, server_options tls_server host port cert key max buffer n hb = Ret x ∧
    match x with
    | Err status =>
        connection_limit n = Err status ∨ str_text host (bs "host") = Err status ∨ server_tls tls_server cert key = Err status
    | Ok o => v_port o = port ∧
        (v_heartbeat o = v_heartbeat server_default ∨ v_heartbeat o = None ∨ ∃ n, v_heartbeat o = Some n ∧ 0 <= n <= MAX_NANOS) ∧
        v_max_message o = size_from max (v_max_message server_default) ∧ v_max_buffer o = size_from buffer (v_max_buffer server_default) ∧
        connection_limit n = Ok (v_max_connections o)
    end.
Proof.
  unfold server_options. destruct (connection_limit n) as [limit|] eqn:El; [|by eexists; split; [done|left]].
  destruct (str_text host _) as [host'|] eqn:Eh; [|by eexists; split; [done|right; left]].
  destruct (heartbeat_total hb (v_heartbeat server_default)) as (x & -> & Hx). simpl. eexists. split; [done|].
  destruct (server_tls _ _ _); [by split_and!|by right; right].
Qed.
(** What [ws_connect] and [ws_listen] do between their two locks: a failure
    may waste the identifier, a success uses the one drawn. *)
Lemma connect_run_spec now tok rt e url ps hs ca timeout max buffer hb c :
  ∃ x c', connect_run tls_ca now tok rt e url ps hs ca timeout max buffer hb c = Ret (x, c') ∧
    match x with
    | Ok s => conn_id (s_link s) = c ∧ c' = u64 (c + 1)
    | Err _ => c' = c ∨ c' = u64 (c + 1)
    end.
Proof.
  unfold connect_run. destruct (str_text url _); [|by eexists _, _; split; [done|left]].
  destruct (client_options_total ps hs ca timeout max buffer hb) as ([opts|] & -> & _); simpl; [|by eexists _, _; split; [done|left]].
  destruct (connect now tok rt e c _ opts) as [s|] eqn:E; [|by eexists _, _; split; [done|right]]. eexists _, _. split; [done|]. split; [|done].
  unfold connect in E. repeat (case_step; try discriminate E). by injection E as <-.
Qed.
Lemma listen_run_spec rt bound host port cert key max buffer n hb c :
  ∃ x c', listen_run tls_server rt bound host port cert key max buffer n hb c = Ret (x, c') ∧
    match x with
    | Ok s => sh_id s.1 = c ∧ c' = u64 (c + 1)
    | Err _ => c' = c ∨ c' = u64 (c + 1)
    end.
Proof.
  unfold listen_run. destruct (server_options_total host port cert key max buffer n hb) as ([opts|] & -> & _); simpl; [|by eexists _, _; split; [done|left]].
  destruct (listen rt bound c opts) as [s|] eqn:E; [|by eexists _, _; split; [done|right]]. eexists _, _. split; [done|]. split; [|done].
  unfold listen in E. repeat (case_step; try discriminate E). by injection E as <-.
Qed.
End Totality.

(** C35: Shutting a hub down forgets all of it and nothing else.  No connection,
    server, owner or pending decision of the hub remains, those of the other
    hubs are as before, and the connections that are terminated and the servers
    that are dropped are exactly the ones it owned, in whatever order the map
    yields them. *)
Theorem shutdown_forgets h r :
  let '(r', cs, ss) := ws_shutdown h r in
  hubs r' = hubs r ∖ {[h]} ∧ next r' = next r ∧
  (∀ i, i ∈ conns r' ↔ i ∈ conns r ∧ owners r !! i ≠ Some h) ∧
  (∀ i, servers r' !! i = if decide (owners r !! i = Some h) then None else servers r !! i) ∧
  (∀ i, owners r' !! i = if decide (owners r !! i = Some h) then None else owners r !! i) ∧
  (∀ t, replies r' !! t = (replies r !! t ≫= λ x, if decide (x.1 = h) then None else Some x)) ∧
  (∀ i, i ∈ cs ↔ i ∈ conns r ∧ owners r !! i = Some h) ∧
  (∀ i, i ∈ ss ↔ is_Some (servers r !! i) ∧ owners r !! i = Some h).
Proof. destruct (ws_shutdown h r) as [[r' cs] ss] eqn:E. by apply shutdown_effect. Qed.

(** ** Reading a packed request back

    The packed string read back line by line: the path, the address, the port
    and the subprotocols between commas, then the headers, each cut at its first
    colon and all kept, in order.  (ws/server.lua reads the same lines, and then
    joins the values of a repeated header.) *)
Definition nonempties (l : list bytes) : list bytes := filter (λ s, s ≠ []) l.
Fixpoint unpack_headers (ls : list bytes) : option Headers :=
  match ls with
  | [] => Some []
  | l :: ls => let! h := split_once 58 l orelse None in let! hs := unpack_headers ls orelse None in Some (h :: hs)
  end.
Definition unpack (data : bytes) : option UpgradeRequest :=
  match removelast (split 10 data) with
  | p :: ip :: port :: ps :: hs =>
      let! headers := unpack_headers hs orelse None in
      Some {| path := p; req_headers := headers; req_protocols := nonempties (split 44 ps); addr := (ip, from_dec port) |}
  | _ => None
  end.
Definition pack_lines (req : UpgradeRequest) : list bytes :=
  [path req; (addr req).1; to_dec (addr req).2; join [44] (req_protocols req)] ++
  map (λ h, h.1 ++ [58] ++ h.2) (req_headers req).
Lemma pack_headers hs : ∀ s,
  foldl (λ s h, s ++ h.1 ++ [58] ++ h.2 ++ NL) s hs = s ++ concat (map (λ h : bytes * bytes, h.1 ++ [58] ++ h.2 ++ NL) hs).
Proof.
  induction hs as [|h hs IH]; intros s; cbn [foldl map concat]; [by rewrite app_nil_r|]. by rewrite IH, <-app_assoc.
Qed.
Lemma pack_concat req : pack req = concat (map (λ l, l ++ NL) (pack_lines req)).
Proof.
  unfold pack, pack_lines. rewrite pack_headers, map_app, concat_app, map_map. cbn [map concat].
  rewrite app_nil_r, <-!app_assoc. do 8 f_equal. apply f_equal, map_ext. intros h. by rewrite <-!app_assoc.
Qed.
Lemma split_lines ls : Forall (λ l, 10 ∉ l) ls → split 10 (concat (map (λ l, l ++ NL) ls)) = ls ++ [[]].
Proof.
  induction ls as [|l ls IH]; intros Hls; [done|]. apply Forall_cons in Hls as [Hl Hls]. cbn [map concat app].
  unfold NL at 1. rewrite <-app_assoc. cbn [app]. by rewrite split_app, IH.
Qed.
Lemma unpack_headers_lines hs :
  Forall (λ h : bytes * bytes, 58 ∉ h.1) hs → unpack_headers (map (λ h, h.1 ++ [58] ++ h.2) hs) = Some hs.
Proof.
  induction hs as [|[n v] hs IH]; intros Hhs; [done|]. apply Forall_cons in Hhs as [Hn Hhs].
  cbn [map unpack_headers fst snd]. change (n ++ [58] ++ v) with (n ++ 58 :: v). by rewrite split_once_app, IH.
Qed.
Lemma split_tokens ps : Forall (λ p, is_token p = true) ps → nonempties (split 44 (join [44] ps)) = ps.
Proof.
  intros Hps. destruct (decide (ps = [])) as [->|Hne]; [done|].
  rewrite split_join; [|done|eapply Forall_impl; [exact Hps|]; intros p Hp; by apply (token_not_in p 44)].
  clear Hne. unfold nonempties. induction Hps as [|p ps [Hp _]%is_token_Forall _ IH]; [done|].
  by rewrite filter_cons_True, IH.
Qed.
Lemma join_no_newline ps : Forall (λ p, is_token p = true) ps → 10 ∉ join [44] ps.
Proof.
  induction ps as [|p ps IH]; intros Hps; [by intros ?%elem_of_nil|]. apply Forall_cons in Hps as [Hp Hps]. specialize (IH Hps).
  pose proof (token_not_in p 10 Hp eq_refl). destruct ps as [|q ps]; [done|]. cbn [join]. rewrite !not_elem_of_app. split_and!; try done.
  by_decide.
Qed.
Lemma digits_no_newline s : forallb is_digit s = true → 10 ∉ s.
Proof. rewrite forallb_Forall, Forall_forall. by intros H Hin%H. Qed.

(** A request that passed [request], from an address that prints on a line. *)
Definition upgrade (parsed : Request) (a : bytes * Z) : UpgradeRequest :=
  {| path := r_target parsed; req_headers := r_headers parsed; req_protocols := r_protocols parsed; addr := a |}.
Lemma pack_lines_whole head parsed a :
  request head = Ok parsed → 10 ∉ a.1 → 0 <= a.2 < 65536 → Forall (λ l, 10 ∉ l) (pack_lines (upgrade parsed a)).
Proof.
  intros (Hp & Ht & _ & _ & _ & _ & _ & _ & _ & _ & (_ & Hps & _)%tokens_iff)%request_sound Ha Hport.
  apply parse_sound in Hp as (_ & Hhs & _). unfold pack_lines. cbn [upgrade path req_headers req_protocols addr].
  apply Forall_app. split; [repeat apply Forall_cons_2; [| | | |by apply Forall_nil_2]|].
  - unfold valid_target in Ht. apply andb_true_iff in Ht as [_ Ht%negb_true_iff]. intros Hin.
    apply not_true_iff_false in Ht. apply Ht, existsb_exists. exists 10. by split; [apply list_elem_of_In|].
  - done.
  - apply digits_no_newline. by apply to_dec_u16.
  - by apply join_no_newline.
  - apply Forall_map. eapply Forall_impl; [exact Hhs|]. intros h (Hn & _ & Hv & _). cbn. rewrite not_elem_of_app, not_elem_of_cons.
    split; [by eapply token_not_in|]. split; [done|]. by eapply value_not_in.
Qed.
(** C38: What the server's events tell Lua is the request the peer made.
    Every upgrade request that passed validation survives being packed into one
    string: reading its lines back gives the same path, address, port,
    subprotocols in order, and headers in order with their values. *)
Theorem pack_roundtrip head parsed a :
  request head = Ok parsed → 10 ∉ a.1 → 0 <= a.2 < 65536 → unpack (pack (upgrade parsed a)) = Some (upgrade parsed a).
Proof.
  intros Hr Ha Hport. unfold unpack. rewrite pack_concat, split_lines by (by eapply pack_lines_whole).
  rewrite removelast_last. unfold pack_lines. cbn [app upgrade path req_headers req_protocols addr].
  apply request_sound in Hr as (Hp & _ & _ & _ & _ & _ & _ & _ & _ & _ & (_ & Hps & _)%tokens_iff). apply parse_sound in Hp as (_ & Hhs & _).
  rewrite unpack_headers_lines, split_tokens by
    (done || (eapply Forall_impl; [exact Hhs|]; intros h (Hn & _); by eapply token_not_in)).
  destruct (to_dec_u16 a.2 Hport) as (-> & _). by destruct a.
Qed.

Module Witness.
Import ClientProps.Witness HandshakeProps.
#[local] Instance le : Target := LittleEndian.
#[local] Existing Instance Pem.Witness.keyless.
#[local] Instance tls0 : Tls := pem_tls (λ name, Some name) 9%nat.
Definition ca0 : bytes → result (@ClientConfig tls0) bytes := pem_ca Pem.Witness.offline _ _.
Definition server0 : bytes → bytes → result unit bytes := pem_server Pem.Witness.offline.
Definition head0 : bytes := client_request sample_url (b64_encode (seqZ 0 16)) [bs "chat"; bs "v2"] [(bs "X-A", bs "b:c")].
Lemma pack_roundtrip_witness :
  ∃ parsed, request head0 = Ok parsed ∧
    unpack (pack (upgrade parsed (bs "::1", 80))) = Some (upgrade parsed (bs "::1", 80)).
Proof.
  assert (∃ parsed, request head0 = Ok parsed) as [parsed Hp] by (eexists; vm_compute; reflexivity).
  exists parsed. split; [exact Hp|]. apply (pack_roundtrip head0 parsed (bs "::1", 80) Hp); [by_decide|simpl; lia].
Defined.
End Witness.
