(* ===== verification/Process.v ===== *)
(** * The calls of all threads on one registry (native/src/)

    Each Lua state calls the library from its own thread, about its own hubs,
    while the registry and the counter of identifiers are the process's.
    [ws_connect], [ws_listen] and [ws_wait] lock the registry twice: to find
    the hub, and to record what they made or received.  A step here is one such
    critical section, or what a call does between two of them; the steps of
    different threads interleave.  A hub is used by one call at a time. *)

From S2P Require Import Float Prelude Utf8 Str Http Frame Dial Events Prog Link Conn Client Serve Pem Native NativeProps.
#[local] Open Scope Z_scope.

(** ** State *)
(** What an identifier was drawn for that the registry does not know yet: a
    connection of a call in progress, a server with its port, or a connection
    that a server of the hub accepted and has not announced. *)
Inductive Role := Dialling (hub : Z) | Binding (hub port : Z) | Accepted (hub : Z).
Record Process := {
  counter : Z;
  drawn : gmap Z Role;
  conn_ids : gset Z;           (* every identifier drawn for a connection *)
  found : gset Z;              (* the hubs that a call has found and not done with *)
  lost : gset Z;               (* the connections that were given to [ws_unlisten] *)
  reg : Registry
}.
Definition process_new : Process :=
  {| counter := FIRST_ID; drawn := ∅; conn_ids := ∅; found := ∅; lost := ∅; reg := registry_new |}.
Definition set_reg (r : Registry) (p : Process) : Process :=
  {| counter := counter p; drawn := drawn p; conn_ids := conn_ids p; found := found p; lost := lost p; reg := r |}.
Definition set_found (s : gset Z) (p : Process) : Process :=
  {| counter := counter p; drawn := drawn p; conn_ids := conn_ids p; found := s; lost := lost p; reg := reg p |}.
Definition set_counter (c : Z) (p : Process) : Process :=
  {| counter := c; drawn := drawn p; conn_ids := conn_ids p; found := found p; lost := lost p; reg := reg p |}.
(** The identifier [id] is drawn, and then it is used. *)
Definition draw (id : Z) (role : Role) (c : Z) (p : Process) : Process :=
  {| counter := c; drawn := <[id := role]> (drawn p);
     conn_ids := (match role with Binding _ _ => ∅ | _ => {[id]} end) ∪ conn_ids p; found := found p; lost := lost p; reg := reg p |}.
Definition use (id : Z) (p : Process) : Process :=
  {| counter := counter p; drawn := delete id (drawn p); conn_ids := conn_ids p; found := found p; lost := lost p; reg := reg p |}.

(** [ws_unlisten] removes the owner of what it is given, also a connection's. *)
Definition disown (id : Z) (p : Process) : Process :=
  {| counter := counter p; drawn := drawn p; conn_ids := conn_ids p; found := found p;
     lost := if bool_decide (id ∈ conns (reg p)) then {[id]} ∪ lost p else lost p; reg := reg p |}.

(** A call about the hub is in progress. *)
Definition calling (p : Process) (h : Z) : Prop :=
  h ∈ found p ∨ ∃ id role, drawn p !! id = Some role ∧ (role = Dialling h ∨ ∃ port, role = Binding h port).
(** What the hub's queue holds: connections its servers accepted, final events
    of connections. *)
Definition event_fits (h : Z) (p : Process) (event : Event) : Prop :=
  match event with
  | EvClose id _ _ => id ∈ conn_ids p
  | EvConnection _ id _ => drawn p !! id = Some (Accepted h)
  | EvRequest _ _ _ => next (reg p) < U64_MAX
  | _ => True
  end.
Definition announce (event : Event) (p : Process) : Process :=
  match event with EvConnection _ id _ => use id p | _ => p end.

(** ** The invariant *)
Definition registered (r : Registry) : gset Z := conns r ∪ dom (servers r).
Record process_ok (p : Process) : Prop := {
  po_reg : registry_ok (lost p) (reg p);
  po_count : 0 < counter p <= U64_MAX;
  po_below : ∀ id, id ∈ registered (reg p) ∪ dom (drawn p) ∪ conn_ids p ∪ lost p → id < counter p;
  po_drawn : registered (reg p) ∪ lost p ## dom (drawn p);
  po_kinds : dom (servers (reg p)) ## conn_ids p;
  po_binding : ∀ id h q, drawn p !! id = Some (Binding h q) → id ∉ conn_ids p;
  po_live : ∀ h, calling p h → h ∈ hubs (reg p)
}.
Lemma process_new_ok : process_ok process_new.
Proof.
  split; simpl; [apply registry_new_ok|done|set_solver|set_solver|set_solver|by intros id h q E|].
  intros h [Hh|(id & role & E & _)]; [set_solver|]. simpl in E. by rewrite lookup_empty in E.
Qed.

(** A critical section that leaves at most the objects it found. *)
Lemma process_shrink r' p :
  process_ok p → registry_ok (lost p) r' → conns r' ⊆ conns (reg p) → dom (servers r') ⊆ dom (servers (reg p)) →
  (∀ h, calling p h → h ∈ hubs r') → process_ok (set_reg r' p).
Proof.
  intros [P1 P2 P3 P4 P5 P6 P7] Hr Hc Hs Hl. assert (registered r' ⊆ registered (reg p)) as Hsub by (unfold registered; set_solver).
  split; simpl; try done; [|set_solver..]. intros id Hid. apply P3. set_solver.
Qed.
Lemma calling_found f p h : f ⊆ found p → calling (set_found f p) h → calling p h.
Proof. intros Hf [Hh|Hh]; [left; by apply Hf|by right]. Qed.
Lemma process_found f p :
  process_ok p → (∀ h, h ∈ f → h ∈ found p ∨ h ∈ hubs (reg p)) → process_ok (set_found f p).
Proof.
  intros [P1 P2 P3 P4 P5 P6 P7] Hf. split; simpl; try done. intros h [Hh|Hh]; [|apply P7; by right].
  destruct (Hf h Hh); [apply P7; by left|done].
Qed.
Lemma process_done h p : process_ok p → process_ok (set_found (found p ∖ {[h]}) p).
Proof. intros Hp. apply process_found; [done|]. set_solver. Qed.
Lemma process_counter c p : process_ok p → counter p <= c <= U64_MAX → process_ok (set_counter c p).
Proof.
  intros [P1 P2 P3 P4 P5 P6 P7] Hc. split; simpl; try done; [lia|]. intros id Hid%P3. lia.
Qed.
(** The next identifier is new. *)
Lemma counter_fresh p : process_ok p →
  counter p ∉ registered (reg p) ∪ lost p ∧ drawn p !! counter p = None ∧ counter p ∉ conn_ids p.
Proof.
  intros Hp. assert (counter p ∉ registered (reg p) ∪ dom (drawn p) ∪ conn_ids p ∪ lost p) as Hn by (intros ?%(po_below p Hp); lia).
  split_and!; [set_solver| |set_solver]. apply not_elem_of_dom. set_solver.
Qed.
Lemma u64_next p : process_ok p → counter p < U64_MAX → u64 (counter p + 1) = counter p + 1.
Proof. intros [_ P2 _ _ _ _ _] Hc. unfold u64, U64_MAX in *. apply Z.mod_small. lia. Qed.
Lemma process_draw role p :
  process_ok p → counter p < U64_MAX →
  (∀ h, role = Dialling h ∨ (∃ q, role = Binding h q) → h ∈ found p) →
  process_ok (draw (counter p) role (u64 (counter p + 1)) p).
Proof.
  intros Hp Hc Hr. destruct (counter_fresh p Hp) as (N1 & N2 & N3). rewrite (u64_next p Hp Hc).
  destruct Hp as [P1 P2 P3 P4 P5 P6 P7]. split; simpl; try done.
  - unfold U64_MAX in *. lia.
  - intros id Hid. rewrite dom_insert_L in Hid. destruct (decide (id = counter p)) as [->|Hne]; [lia|].
    apply Z.lt_lt_succ_r, P3. destruct role; set_solver.
  - rewrite dom_insert_L. set_solver.
  - destruct role; unfold registered in N1; set_solver.
  - intros id h q [[<- ->]|[Hne E]]%lookup_insert_Some; [set_solver|]. apply P6 in E. destruct role; set_solver.
  - intros h [Hh|(id & role' & E & Hrole)]; [apply P7; by left|].
    simpl in E. apply lookup_insert_Some in E as [[<- <-]|[_ E]]; apply P7; [left; by apply Hr|]. right. eauto.
Qed.
Lemma calling_use id p h : calling (use id p) h → calling p h.
Proof. intros [Hh|(i & role & E & Hr)]; [by left|]. simpl in E. apply lookup_delete_Some in E as [_ E]. right. eauto. Qed.
(** The registry records a drawn identifier, under which nothing else is. *)
Lemma process_record id r' p :
  process_ok p → is_Some (drawn p !! id) → registry_ok (lost p) r' → hubs r' = hubs (reg p) →
  registered r' = {[id]} ∪ registered (reg p) → dom (servers r') ## conn_ids p →
  process_ok (set_reg r' (use id p)).
Proof.
  intros [P1 P2 P3 P4 P5 P6 P7] Hd%elem_of_dom Hr Hh Hg Hk. split; simpl; try done.
  - intros i Hi. apply P3. rewrite Hg, dom_delete_L in Hi. set_solver.
  - rewrite Hg, dom_delete_L. set_solver.
  - intros i h q [_ E]%lookup_delete_Some. by eapply P6.
  - intros h Hc. rewrite Hh. by apply P7, (calling_use id).
Qed.
Lemma record_conn id h p :
  process_ok p → is_Some (drawn p !! id) → h ∈ hubs (reg p) → process_ok (set_reg (add_conn id h (reg p)) (use id p)).
Proof.
  intros Hp Hd Hh. assert (id ∉ registered (reg p) ∧ id ∉ lost p) as [Hn Hl] by (pose proof (po_drawn p Hp); apply elem_of_dom in Hd; set_solver).
  apply process_record; [done|done| |done|unfold registered; simpl; set_solver|apply (po_kinds p Hp)].
  apply add_conn_ok; [apply Hp|done| |done]. apply not_elem_of_dom. unfold registered in Hn. set_solver.
Qed.
Lemma record_server id q h p :
  process_ok p → drawn p !! id = Some (Binding h q) → process_ok (set_reg (add_server id q h (reg p)) (use id p)).
Proof.
  intros Hp Hd. assert (is_Some (drawn p !! id)) as Hs by (by eexists).
  assert (id ∉ registered (reg p)) as Hn by (pose proof (po_drawn p Hp); apply elem_of_dom in Hs; set_solver).
  pose proof (po_binding p Hp _ _ _ Hd). pose proof (po_kinds p Hp).
  apply process_record; [done|done| |done|unfold registered; simpl; rewrite dom_insert_L; set_solver|simpl; rewrite dom_insert_L; set_solver].
  apply add_server_ok; [apply Hp| |unfold registered in Hn; set_solver]. apply (po_live p Hp). right. exists id, (Binding h q). eauto.
Qed.

Section Process.
Context `{Tls} (tls_ca : bytes → result ClientConfig bytes) (tls_server : bytes → bytes → result unit bytes).

(** ** Steps *)
Inductive native_step : Process → Process → Prop :=
  (** One critical section. *)
  | call_hub p : next (reg p) < U64_MAX → native_step p (set_reg (ws_hub (reg p)).2 p)
  | call_shutdown h p : ¬ calling p h → native_step p (set_reg (ws_shutdown h (reg p)).1.1 p)
  | call_unlisten server p : native_step p (set_reg (ws_unlisten server (reg p)).2 (disown server p))
  | call_reply tok status protocol p : native_step p (set_reg (ws_reply tok status protocol (reg p)).2 p)
  (** [ws_connect], [ws_listen] and [ws_wait] find their hub. *)
  | call_find h p : ¬ calling p h → hub h (reg p) = Ok tt → native_step p (set_found ({[h]} ∪ found p) p)
  (** [ws_connect] *)
  | connect_fails now tok rt e h url ps hs ca timeout max buffer hb status c p :
      h ∈ found p → counter p < U64_MAX →
      connect_run tls_ca now tok rt e url ps hs ca timeout max buffer hb (counter p) = Ret (Err status, c) →
      native_step p (set_found (found p ∖ {[h]}) (set_counter c p))
  | connect_starts now tok rt e h url ps hs ca timeout max buffer hb s c p :
      h ∈ found p → counter p < U64_MAX →
      connect_run tls_ca now tok rt e url ps hs ca timeout max buffer hb (counter p) = Ret (Ok s, c) →
      native_step p (set_found (found p ∖ {[h]}) (draw (conn_id (s_link s)) (Dialling h) c p))
  | connect_records h id p :
      drawn p !! id = Some (Dialling h) → native_step p (set_reg (add_conn id h (reg p)) (use id p))
  (** [ws_listen] *)
  | listen_fails rt bound h host port cert key max buffer n hb status c p :
      h ∈ found p → counter p < U64_MAX →
      listen_run tls_server rt bound host port cert key max buffer n hb (counter p) = Ret (Err status, c) →
      native_step p (set_found (found p ∖ {[h]}) (set_counter c p))
  | listen_starts rt bound h host port cert key max buffer n hb s q c p :
      h ∈ found p → counter p < U64_MAX →
      listen_run tls_server rt bound host port cert key max buffer n hb (counter p) = Ret (Ok (s, q), c) →
      native_step p (set_found (found p ∖ {[h]}) (draw (sh_id s) (Binding h q) c p))
  | listen_records h id q p :
      drawn p !! id = Some (Binding h q) → native_step p (set_reg (add_server id q h (reg p)) (use id p))
  (** [ws_wait] *)
  | wait_ends h p : h ∈ found p → native_step p (set_found (found p ∖ {[h]}) p)
  | wait_records h event p :
      h ∈ found p → event_fits h p event →
      native_step p (set_found (found p ∖ {[h]}) (set_reg (flatten h event (reg p)).1.2 (announce event p)))
  (** A server of the hub accepts a connection (core/src/net/serve.rs). *)
  | server_accepts h p :
      counter p < U64_MAX → native_step p (draw (next_id (counter p)).1 (Accepted h) (next_id (counter p)).2 p).

(** ** Every step keeps it *)
Lemma new_hub_ok p : process_ok p → next (reg p) < U64_MAX → process_ok (set_reg (ws_hub (reg p)).2 p).
Proof.
  intros Hp Hn. pose proof (po_reg p Hp) as Hok. destruct (token_fresh _ _ Hok Hn) as (_ & [O1 O2 O3 O4 O5 O6] & _ & _). unfold ws_hub.
  destruct (token (reg p)) as [t r1] eqn:E. cbn [fst snd] in *. unfold token in E. simplify_eq. simpl in *.
  apply process_shrink; simpl; [done| |done|done|intros h Hh%(po_live p Hp); set_solver].
  split; simpl; try done; [set_solver|..].
  - intros t h c Ht. destruct (O4 t h c Ht). set_solver.
  - intros h [->%elem_of_singleton|Hh]%elem_of_union; [|by apply O5]. pose proof (ro_next _ _ Hok).
    unfold u64, U64_MAX in *. rewrite Z.mod_small by lia. lia.
Qed.
Lemma shutdown_step_ok h p : process_ok p → ¬ calling p h → process_ok (set_reg (ws_shutdown h (reg p)).1.1 p).
Proof.
  intros Hp Hn. pose proof (shutdown_ok _ h (reg p) (po_reg p Hp)) as Hok. destruct (ws_shutdown h (reg p)) as [[r' cs] ss] eqn:E.
  destruct (shutdown_effect _ _ _ _ _ E) as (E1 & _ & E3 & E4 & _). cbn [fst] in *. apply process_shrink; [done|done|..].
  - by intros i [? _]%E3.
  - intros i. rewrite !elem_of_dom, E4. by destruct (decide _); [intros [? ?]|].
  - intros h' Hc. rewrite E1, elem_of_difference, elem_of_singleton. split; [by apply (po_live p Hp)|]. by intros ->.
Qed.
Lemma reply_step_ok tok status protocol p : process_ok p → process_ok (set_reg (ws_reply tok status protocol (reg p)).2 p).
Proof.
  intros Hp. assert (registry_ok (lost p) (set_replies (delete tok (replies (reg p))) (reg p))) as Hok.
  { apply set_replies_ok; [apply Hp|]. intros t h c [_ Ht]%lookup_delete_Some. eapply ro_replies; [apply Hp|done]. }
  unfold ws_reply. destruct (replies (reg p) !! tok) as [[h tx]|]; [|by destruct p].
  destruct (match _ with Ok _ => _ | Err _ => _ end); apply process_shrink; try done; apply (po_live p Hp).
Qed.
Lemma event_step_ok h event p :
  process_ok p → h ∈ found p → event_fits h p event →
  process_ok (set_reg (flatten h event (reg p)).1.2 (announce event p)).
Proof.
  intros Hp Hf Hfit. assert (h ∈ hubs (reg p)) as Hh by (apply (po_live p Hp); by left).
  destruct event as [id|sv req rp|sv id req|id d b|id d|id d|id e|id|id c rs]; cbn [event_fits announce] in *;
    try (by destruct p).
  - destruct (token_fresh _ _ (po_reg p Hp) Hfit) as (_ & Hok & _ & _). unfold flatten.
    destruct (token (reg p)) as [t r1] eqn:E. cbn [fst snd] in *. unfold token in E. simplify_eq.
    apply process_shrink; [done| |done|done|apply (po_live p Hp)].
    pose proof Hok as [_ _ _ O4 _ O6]. apply set_replies_ok; [done|]. intros t' h' c'.
    intros [[<- [= <- <-]]|[_ Ht]]%lookup_insert_Some; [|by eapply O4]. split; [done|]. simpl.
    simpl in O6. pose proof (ro_next _ _ (po_reg p Hp)). unfold u64, U64_MAX in *. rewrite Z.mod_small by lia. lia.
  - apply record_conn; [done|by eexists|done].
  - apply process_shrink; [done| |simpl; set_solver|done|apply (po_live p Hp)]. apply remove_conn_ok; [apply Hp|].
    apply not_elem_of_dom. pose proof (po_kinds p Hp). set_solver.
Qed.
Lemma unlisten_step_ok server p : process_ok p → process_ok (set_reg (ws_unlisten server (reg p)).2 (disown server p)).
Proof.
  intros [P1 P2 P3 P4 P5 P6 P7].
  assert (registered (remove_server server (reg p)) ∪ (if bool_decide (server ∈ conns (reg p)) then {[server]} ∪ lost p else lost p)
    ⊆ registered (reg p) ∪ lost p) as Hsub.
  { unfold registered. simpl. rewrite dom_delete_L. case_bool_decide; set_solver. }
  split; simpl; try done; [by apply remove_server_ok| |set_solver|rewrite dom_delete_L; set_solver].
  intros id Hid. apply P3. set_solver.
Qed.
(** A run between two locks leaves the counter, or advances it. *)
Lemma run_counter c p : process_ok p → counter p < U64_MAX → c = counter p ∨ c = u64 (counter p + 1) →
  process_ok (set_counter c p).
Proof. intros Hp Hc Hor. rewrite (u64_next p Hp Hc) in Hor. apply process_counter; [done|]. pose proof (po_count p Hp). lia. Qed.
Lemma native_step_ok p p' : native_step p p' → process_ok p → process_ok p'.
Proof.
  intros [p0 Hn|h p0 Hn|server p0|tok status protocol p0|h p0 Hn Hh
    |now tok rt e h url ps hs ca timeout max buffer hb status c p0 Hf Hc E|now tok rt e h url ps hs ca timeout max buffer hb s c p0 Hf Hc E|h id p0 Hd
    |rt bound h host port cert key max buffer n hb status c p0 Hf Hc E|rt bound h host port cert key max buffer n hb s q c p0 Hf Hc E|h id q p0 Hd
    |h p0 Hf|h event p0 Hf Hfit|h p0 Hc] Hp.
  - by apply new_hub_ok.
  - by apply shutdown_step_ok.
  - by apply unlisten_step_ok.
  - by apply reply_step_ok.
  - unfold hub in Hh. case_bool_decide; [|done]. apply process_found; [done|]. set_solver.
  - destruct (connect_run_spec tls_ca now tok rt e url ps hs ca timeout max buffer hb (counter p0)) as (x & c' & E' & Hx).
    rewrite E in E'. simplify_eq. by apply (process_done h (set_counter _ p0)), run_counter.
  - destruct (connect_run_spec tls_ca now tok rt e url ps hs ca timeout max buffer hb (counter p0)) as (x & c' & E' & Hx).
    rewrite E in E'. simplify_eq. destruct Hx as [-> ->]. apply (process_done h (draw _ _ _ p0)), process_draw; [done|done|]. by intros h' [[= <-]|[? [=]]].
  - apply record_conn; [done|by eexists|]. apply (po_live _ Hp). right. exists id, (Dialling h). eauto.
  - destruct (listen_run_spec tls_server rt bound host port cert key max buffer n hb (counter p0)) as (x & c' & E' & Hx).
    rewrite E in E'. simplify_eq. by apply (process_done h (set_counter _ p0)), run_counter.
  - destruct (listen_run_spec tls_server rt bound host port cert key max buffer n hb (counter p0)) as (x & c' & E' & Hx).
    rewrite E in E'. simplify_eq. simpl in Hx. destruct Hx as [-> ->]. apply (process_done h (draw _ _ _ p0)), process_draw; [done|done|].
    by intros h' [[=]|[? [= <- <-]]].
  - by apply record_server.
  - by apply process_done.
  - apply process_found; [by apply event_step_ok|]. intros x Hx. left. destruct event; simpl; set_solver.
  - apply process_draw; [done|done|]. by intros h' [[=]|[? [=]]].
Qed.
Lemma reachable_ok p : rtc native_step process_new p → process_ok p.
Proof.
  intros Hr. remember process_new as p0 eqn:E. assert (process_ok p0) as Hp by (subst; apply process_new_ok). clear E.
  induction Hr as [|p1 p2 p3 Hs _ IH]; [done|]. by eapply IH, native_step_ok.
Qed.

(** C36: The registry stays consistent whatever the threads of the process do,
    however their calls overlap and whichever of them fail, provided that a hub
    is not shut down while a call about it is in progress.  Every server and
    every live connection has an owner, which is a live hub, and nothing else
    has one, with one exception: a connection whose identifier was given to
    [ws_unlisten] has none from then on.  No identifier is both a connection and
    a server, every pending decision belongs to a live hub, and so does every
    call in progress.  Until 2^64 - 1 of them have been used, the next identifier
    names nothing and was not drawn for anything, and the next token names
    neither a hub nor a pending decision. *)
Theorem registry_consistent p :
  rtc native_step process_new p →
  registry_ok (lost p) (reg p) ∧ (∀ h, calling p h → h ∈ hubs (reg p)) ∧
  (let id := (next_id (counter p)).1 in id ∉ conns (reg p) ∧ servers (reg p) !! id = None ∧ drawn p !! id = None) ∧
  (next (reg p) < U64_MAX →
   let t := (token (reg p)).1 in t = next (reg p) + 1 ∧ t ∉ hubs (reg p) ∧ replies (reg p) !! t = None).
Proof.
  intros Hp%reachable_ok. destruct (counter_fresh p Hp) as (N1 & N2 & _). unfold registered in N1.
  split; [apply Hp|]. split; [apply Hp|]. split; [simpl; split_and!; [set_solver|apply not_elem_of_dom; set_solver|done]|].
  intros Hn. by destruct (token_fresh _ _ (po_reg p Hp) Hn) as (? & _ & ? & ?).
Qed.

(** ** Connections that are gone *)
Definition gone (id : Z) (p : Process) : Prop := id < counter p ∧ drawn p !! id = None ∧ id ∉ conns (reg p).
Lemma gone_draw id role p :
  process_ok p → counter p < U64_MAX → gone id p → gone id (draw (counter p) role (u64 (counter p + 1)) p).
Proof.
  intros Hp Hc (G1 & G2 & G3). rewrite (u64_next p Hp Hc). split_and!; simpl; [lia| |done].
  rewrite lookup_insert_ne; [done|lia].
Qed.
Lemma gone_counter id c p :
  process_ok p → counter p < U64_MAX → c = counter p ∨ c = u64 (counter p + 1) → gone id p → gone id (set_counter c p).
Proof. intros Hp Hc Hor (G1 & G2 & G3). rewrite (u64_next p Hp Hc) in Hor. split_and!; simpl; [lia|done|done]. Qed.
(** The registry only gains connections whose identifiers were drawn. *)
Lemma gone_record id i r' p :
  is_Some (drawn p !! i) → conns r' ⊆ {[i]} ∪ conns (reg p) → gone id p → gone id (set_reg r' (use i p)).
Proof.
  intros [role Hd] Hr (G1 & G2 & G3). split_and!; simpl; [done|by rewrite lookup_delete_None; auto|].
  intros Hin%Hr%elem_of_union. assert (id ≠ i) by congruence. destruct Hin as [->%elem_of_singleton|]; done.
Qed.
Lemma gone_flatten id h event p :
  event_fits h p event → gone id p → gone id (set_reg (flatten h event (reg p)).1.2 (announce event p)).
Proof.
  intros Hfit Hg. destruct event as [| |sv i req| | | | | |i c rs]; cbn [announce]; try exact Hg.
  - apply gone_record; [by eexists|done|done].
  - destruct Hg as (G1 & G2 & G3). split_and!; simpl; [done|done|set_solver].
Qed.
Lemma gone_step id p p' : native_step p p' → process_ok p → gone id p → gone id p'.
Proof.
  intros [p0 Hn|h p0 Hn|server p0|tok status protocol p0|h p0 Hn Hh
    |now tok rt e h url ps hs ca timeout max buffer hb status c p0 Hf Hc E|now tok rt e h url ps hs ca timeout max buffer hb s c p0 Hf Hc E|h i p0 Hd
    |rt bound h host port cert key max buffer n hb status c p0 Hf Hc E|rt bound h host port cert key max buffer n hb s q c p0 Hf Hc E|h i q p0 Hd
    |h p0 Hf|h event p0 Hf Hfit|h p0 Hc] Hp Hg; try exact Hg.
  - destruct Hg as (G1 & G2 & G3). split_and!; simpl; [done|done|]. destruct (ws_shutdown h (reg p0)) as [[r' cs] ss] eqn:E.
    destruct (shutdown_effect _ _ _ _ _ E) as (_ & _ & E3 & _). simpl. by intros [? _]%E3.
  - unfold ws_reply. destruct (replies (reg p0) !! tok) as [[? ?]|]; [|done]. by destruct (match _ with Ok _ => _ | Err _ => _ end).
  - destruct (connect_run_spec tls_ca now tok rt e url ps hs ca timeout max buffer hb (counter p0)) as (x & c' & E' & Hx).
    rewrite E in E'. simplify_eq. by apply (gone_counter id c' p0).
  - destruct (connect_run_spec tls_ca now tok rt e url ps hs ca timeout max buffer hb (counter p0)) as (x & c' & E' & Hx).
    rewrite E in E'. simplify_eq. destruct Hx as [-> ->]. by apply (gone_draw id (Dialling h) p0).
  - by apply gone_record; [eexists| |].
  - destruct (listen_run_spec tls_server rt bound host port cert key max buffer n hb (counter p0)) as (x & c' & E' & Hx).
    rewrite E in E'. simplify_eq. by apply (gone_counter id c' p0).
  - destruct (listen_run_spec tls_server rt bound host port cert key max buffer n hb (counter p0)) as (x & c' & E' & Hx).
    rewrite E in E'. simplify_eq. simpl in Hx. destruct Hx as [-> ->]. by apply (gone_draw id (Binding h q) p0).
  - apply gone_record; [by eexists|simpl; set_solver|done].
  - by apply gone_flatten.
  - by apply gone_draw.
Qed.
Lemma gone_steps id p p' : rtc native_step p p' → process_ok p → gone id p → gone id p'.
Proof.
  induction 1 as [|p1 p2 p3 Hs _ IH]; [done|]. intros Hp Hg. apply IH; [by eapply native_step_ok|by eapply gone_step].
Qed.

(** How a connection ends: its final event is delivered, or its hub goes. *)
Inductive ended (id : Z) (p : Process) : Process → Prop :=
  | ended_close h code reason :
      h ∈ found p → id ∈ conn_ids p →
      ended id p (set_found (found p ∖ {[h]}) (set_reg (flatten h (EvClose id code reason) (reg p)).1.2 p))
  | ended_shutdown h :
      owners (reg p) !! id = Some h → ¬ calling p h → ended id p (set_reg (ws_shutdown h (reg p)).1.1 p).
Lemma ended_step id p p' : ended id p p' → native_step p p'.
Proof.
  intros [h code reason Hf Hi|h Ho Hc]; [|by apply call_shutdown]. by apply (wait_records h (EvClose id code reason)).
Qed.
Lemma ended_gone id p p' : process_ok p → id ∈ conns (reg p) → ended id p p' → gone id p'.
Proof.
  intros Hp Hid Hend. assert (id ∈ registered (reg p)) as Hreg by (unfold registered; set_solver).
  assert (id < counter p) by (apply (po_below p Hp); set_solver).
  assert (drawn p !! id = None) by (apply not_elem_of_dom; pose proof (po_drawn p Hp); set_solver).
  destruct Hend as [h code reason Hf Hi|h Ho Hc]; split_and!; simpl; try done; [set_solver|].
  destruct (ws_shutdown h (reg p)) as [[r' cs] ss] eqn:E. destruct (shutdown_effect _ _ _ _ _ E) as (_ & _ & E3 & _).
  simpl. rewrite E3. by intros [_ ?].
Qed.

(** C39: Once the final event of a connection was delivered, or its hub shut
    down, its identifier names a closed connection for ever, whatever the
    threads call in between and however the calls overlap: sends and pings
    report "closed" (or the fatal error of their arguments, first), closing it
    with valid arguments and terminating it are harmless, and it has no
    subprotocol and no buffered bytes. *)
Theorem closed_for_ever `{Target} p id p1 p' tid data binary code reason :
  rtc native_step process_new p → id ∈ conns (reg p) → ended id p p1 → rtc native_step p1 p' →
  let r' := reg p' in
  ws_send tid id data binary r' = Done (if binary || is_utf8 (str_bytes data) then (SOFT, Some (bs "closed"))
    else (FATAL, Some (bs "text must be valid UTF-8; use send(data, true) for binary"))) ∧
  ws_ping tid id data r' = Done (if zlen (str_bytes data) <=? 125 then (SOFT, Some (bs "closed"))
    else (FATAL, Some (bs "ping data must be at most 125 bytes"))) ∧
  (0 <= code <= 65535 → valid_close_code code = true → is_utf8 (str_bytes reason) = true → zlen (str_bytes reason) <= 123 →
   ws_close id code reason r' = Done (OK, None)) ∧
  ws_terminate id r' = Done tt ∧ ws_state id r' = Done 3 ∧ ws_protocol id r' = Done None ∧ ws_buffered id r' = Done 0.
Proof.
  intros Hp%reachable_ok Hid Hend Hs r'.
  assert (id ∉ conns r') as Hg.
  { apply (gone_steps id p1 p' Hs); [by eapply native_step_ok; [eapply ended_step|]|by eapply ended_gone]. }
  assert (∀ f, with_conn id f r' = Done (SOFT, Some (bs "closed"))) as Hw.
  { intros f. unfold with_conn. by rewrite bool_decide_false. }
  unfold ws_send, ws_ping, ws_close, ws_terminate, ws_state, ws_protocol, ws_buffered. rewrite !bool_decide_false by done.
  rewrite !Hw. split_and!; try done.
  - by destruct binary, (is_utf8 (str_bytes data)).
  - by destruct (Z.ltb_spec 125 (zlen (str_bytes data))), (Z.leb_spec (zlen (str_bytes data)) 125); try lia.
  - intros Hc Hv Hu Hl. rewrite Hv. destruct (Z.leb_spec 0 code), (Z.leb_spec code 65535); try lia. cbn [andb negb].
    unfold str_text. destruct reason as [reason|]; [|reflexivity]. cbn [str_bytes default] in Hu, Hl. cbn in Hu. rewrite Hu. cbn [default].
    unfold Datatypes.id in *. destruct (Z.ltb_spec 123 (zlen reason)); [lia|done].
Qed.

(** ** Whole calls

    A call that nothing interrupts is a sequence of these steps, and leaves the
    registry and the counter that its definition says. *)
Lemma hub_found h p : hub h (reg p) = Ok tt → ¬ calling p h →
  native_step p (set_found ({[h]} ∪ found p) p) ∧ h ∈ found (set_found ({[h]} ∪ found p) p).
Proof. intros Hh Hc. split; [by apply call_find|]. simpl. set_solver. Qed.
Lemma ws_connect_steps now tok rt e h url ps hs ca timeout max buffer hb p :
  ¬ calling p h → counter p < U64_MAX →
  ∃ st x p', ws_connect tls_ca now tok rt e h url ps hs ca timeout max buffer hb (counter p) (reg p) = Ret (st, x, counter p', reg p') ∧
    rtc native_step p p'.
Proof.
  intros Hi Hc. unfold ws_connect. destruct (hub h (reg p)) as [[]|st] eqn:Eh; [|by eexists st, None, p].
  destruct (hub_found h p Eh Hi) as [Hs Hf]. set (p1 := set_found _ p) in *.
  destruct (connect_run_spec tls_ca now tok rt e url ps hs ca timeout max buffer hb (counter p)) as ([s|st] & c & E & Hx); rewrite E; simpl.
  - set (id := conn_id (s_link s)). set (p2 := set_found (found p1 ∖ {[h]}) (draw id (Dialling h) c p1)).
    eexists _, _, (set_reg (add_conn id h (reg p2)) (use id p2)). split; [done|].
    eapply rtc_l; [exact Hs|]. apply (rtc_l _ _ p2); [by eapply (connect_starts _ _ _ _ h _ _ _ _ _ _ _ _ s c p1)|]. apply rtc_once.
    apply connect_records. simpl. apply lookup_insert_eq.
  - eexists _, _, (set_found (found p1 ∖ {[h]}) (set_counter c p1)). split; [done|].
    eapply rtc_l; [exact Hs|]. apply rtc_once. by eapply (connect_fails _ _ _ _ h _ _ _ _ _ _ _ _ st c p1).
Qed.
Lemma ws_listen_steps rt bound h host port cert key max buffer n hb p :
  ¬ calling p h → counter p < U64_MAX →
  ∃ st x p', ws_listen tls_server rt bound h host port cert key max buffer n hb (counter p) (reg p) = Ret (st, x, counter p', reg p') ∧
    rtc native_step p p'.
Proof.
  intros Hi Hc. unfold ws_listen. destruct (hub h (reg p)) as [[]|st] eqn:Eh; [|by eexists st, None, p].
  destruct (hub_found h p Eh Hi) as [Hs Hf]. set (p1 := set_found _ p) in *.
  destruct (listen_run_spec tls_server rt bound host port cert key max buffer n hb (counter p)) as ([[s q]|st] & c & E & Hx); rewrite E; simpl.
  - set (p2 := set_found (found p1 ∖ {[h]}) (draw (sh_id s) (Binding h q) c p1)).
    eexists _, _, (set_reg (add_server (sh_id s) q h (reg p2)) (use (sh_id s) p2)). split; [done|].
    eapply rtc_l; [exact Hs|]. apply (rtc_l _ _ p2); [by eapply (listen_starts _ _ h _ _ _ _ _ _ _ _ s q c p1)|]. apply rtc_once.
    apply listen_records. simpl. apply lookup_insert_eq.
  - eexists _, _, (set_found (found p1 ∖ {[h]}) (set_counter c p1)). split; [done|].
    eapply rtc_l; [exact Hs|]. apply rtc_once. by eapply (listen_fails _ _ h _ _ _ _ _ _ _ _ st c p1).
Qed.
Lemma ws_wait_steps h timeout recv p :
  ¬ calling p h → (∀ t event, recv t = Some event → event_fits h p event) →
  ∃ rc ev took p', ws_wait h timeout recv (reg p) = Ret (rc, ev, reg p', took) ∧ rtc native_step p p'.
Proof.
  intros Hi Hfit. unfold ws_wait. case_bool_decide as Hh; simpl; [|by eexists _, _, _, p].
  assert (hub h (reg p) = Ok tt) as Eh by (unfold hub; by rewrite bool_decide_true).
  destruct (hub_found h p Eh Hi) as [Hs Hf]. set (p1 := set_found _ p) in *.
  destruct (wait_timeout_total timeout) as (t & -> & _). simpl. destruct (recv t) as [event|] eqn:Er.
  - destruct (flatten h event (reg p)) as [[ev r'] took] eqn:E.
    eexists _, _, _, (set_found (found p1 ∖ {[h]}) (set_reg r' (announce event p1))). split; [done|].
    eapply rtc_l; [exact Hs|]. apply rtc_once. replace r' with (flatten h event (reg p1)).1.2 by (simpl; by rewrite E).
    apply (wait_records h event p1 Hf). specialize (Hfit t event Er). by destruct event.
  - eexists _, _, _, (set_found (found p1 ∖ {[h]}) p1). split; [done|]. eapply rtc_l; [exact Hs|]. apply rtc_once. by apply wait_ends.
Qed.
End Process.

Module Witness.
Import NativeProps.Witness.
#[local] Existing Instances Pem.Witness.keyless tls0 le.
Notation steps := (rtc (native_step ca0 server0)).
(** Two hubs.  The thread of the first dials while the second's server takes an
    identifier; the first connection is recorded, and ends. *)
Definition two_hubs : Process := set_reg (ws_hub (ws_hub registry_new).2).2 process_new.
Definition dialling : Process :=
  {| counter := 3; drawn := {[1 := Dialling 1; 2 := Accepted 2]}; conn_ids := {[1; 2]}; found := ∅; lost := ∅; reg := reg two_hubs |}.
Definition dialled : Process := set_reg (add_conn 1 1 (reg dialling)) (use 1 dialling).
Definition waiting : Process := set_found {[1]} dialled.
Definition over : Process := set_found ∅ (set_reg (remove_conn 1 (reg dialled)) dialled).
Definition url0 : WsStr := Some (bs "ws://host/").
Lemma dialling_reached : steps process_new dialling.
Proof.
  eapply rtc_l; [by apply call_hub|]. eapply rtc_l; [by apply call_hub|]. eapply rtc_l; [apply (call_find _ _ 1)|].
  { intros [Hh|(id & role & E & _)]; [set_solver|]. simpl in E. by rewrite lookup_empty in E. }
  { reflexivity. }
  eapply rtc_l; [eapply (connect_starts _ _ 0 [] (Ok tt) events_from 1 url0 None None None (f_int 0) 0 0 (f_int 0)); [by_decide|done|]|].
  { vm_compute. reflexivity. }
  eapply rtc_l; [by apply (server_accepts _ _ 2)|].
  match goal with |- rtc _ ?p _ => replace p with dialling by (vm_compute; reflexivity) end. apply rtc_refl.
Qed.
Lemma waiting_reached : steps process_new waiting.
Proof.
  etrans; [exact dialling_reached|]. eapply rtc_l; [by apply (connect_records _ _ 1 1)|].
  eapply rtc_l; [apply (call_find _ _ 1); [|reflexivity]|].
  - intros [Hh|(id & role & E & Hr)]; [set_solver|]. assert (drawn dialled = {[2 := Accepted 2]}) as Ed by (vm_compute; reflexivity).
    change (drawn dialled !! id = Some role) in E. rewrite Ed in E. apply lookup_singleton_Some in E as [<- <-]. by destruct Hr as [|[? ?]].
  - match goal with |- rtc _ ?p _ => replace p with waiting by (vm_compute; reflexivity) end. apply rtc_refl.
Qed.
(** A connection's identifier is given to [ws_unlisten]: the connection goes on
    without an owner, and the shutdown of its hub leaves it. *)
Definition unlistened : Process := set_reg (ws_unlisten 1 (reg waiting)).2 (disown 1 waiting).
Lemma unlistened_reached : steps process_new unlistened.
Proof. eapply rtc_r; [exact waiting_reached|]. apply call_unlisten. Qed.
Lemma registry_consistent_witness :
  registry_ok {[1]} (reg unlistened) ∧ 1 ∈ conns (ws_shutdown 1 (reg unlistened)).1.1.
Proof.
  split; [|by_decide]. replace ({[1]} : gset Z) with (lost unlistened) by (vm_compute; reflexivity).
  exact (proj1 (registry_consistent ca0 server0 _ unlistened_reached)).
Defined.
Lemma closed_for_ever_witness : ws_state 1 (reg waiting) ≠ Done 3 ∧ ws_state 1 (reg over) = Done 3.
Proof.
  split; [unfold ws_state; rewrite bool_decide_true by by_decide; discriminate|].
  assert (ended 1 waiting over) as Hend.
  { replace over with (set_found (found waiting ∖ {[1]}) (set_reg (flatten 1 (EvClose 1 1000 []) (reg waiting)).1.2 waiting))
      by (vm_compute; reflexivity). apply ended_close; by_decide. }
  destruct (closed_for_ever ca0 server0 waiting 1 over over 0%nat None false 1000 None) as (_ & _ & _ & _ & Hs & _);
    [exact waiting_reached|by_decide|exact Hend|apply rtc_refl|exact Hs].
Defined.
End Witness.
