(* ===== verification/Handoff.v ===== *)
(** * Strings handed to Lua (native/src/ffi.rs, native/values.c, native/calls.c)

    Rust gives C strings it allocated, which C copies into Lua and gives back
    to [ws_free].  Copying can run Lua code: finalizers, hooks, and through
    them further calls of the binding, or an error that jumps over the C
    frames.  The state is the memory those calls share: Rust's allocations,
    the C variables in scope and the two thread-local cells.  A computation on
    it is partial: [None] is undefined behaviour, that is freeing or reading
    what is not allocated, or using a variable whose frame is gone. *)

From S2P Require Import Float Prelude Utf8 Str Http Dial Events Prog Link Conn LinkFun Client Serve Native NativeProps.
#[local] Open Scope Z_scope.

(** ** Memory *)
(** [WsStr] with its pointer; the null pointer means absent. *)
Record CStr := { ptr : Z; len : Z }.
Definition NONE : CStr := {| ptr := 0; len := 0 |}.
(** [struct Copy]: the Lua state, the variable that owns the string, the
    context before, and whether the copy was made. *)
Record Copy := { c_lua : Z; c_string : nat; c_previous : option nat; c_entered : bool }.
Record Mem := {
  heap : gmap Z bytes;
  cells : gmap nat CStr;
  copies : gmap nat Copy;
  COPY : option nat;
  ERROR : bytes
}.
Definition mem_new : Mem := {| heap := ∅; cells := ∅; copies := ∅; COPY := None; ERROR := [] |}.
Definition set_heap (x : gmap Z bytes) (m : Mem) : Mem :=
  {| heap := x; cells := cells m; copies := copies m; COPY := COPY m; ERROR := ERROR m |}.
Definition set_cstrs (x : gmap nat CStr) (m : Mem) : Mem :=
  {| heap := heap m; cells := x; copies := copies m; COPY := COPY m; ERROR := ERROR m |}.
Definition set_copies (x : gmap nat Copy) (m : Mem) : Mem :=
  {| heap := heap m; cells := cells m; copies := x; COPY := COPY m; ERROR := ERROR m |}.
Definition set_COPY (x : option nat) (m : Mem) : Mem :=
  {| heap := heap m; cells := cells m; copies := copies m; COPY := x; ERROR := ERROR m |}.
Definition set_ERROR (x : bytes) (m : Mem) : Mem :=
  {| heap := heap m; cells := cells m; copies := copies m; COPY := COPY m; ERROR := x |}.

(** Computations on the memory. *)
Definition M (A : Type) : Type := Mem → option (A * Mem).
#[export] Instance M_ret : MRet M := λ A a m, Some (a, m).
#[export] Instance M_bind : MBind M := λ A B k p m, match p m with Some (a, m) => k a m | None => None end.
Definition get {A} (f : Mem → A) : M A := λ m, Some (f m, m).
Definition put (f : Mem → Mem) : M unit := λ m, Some (tt, f m).
(** Dereferencing: undefined when the variable is not in scope. *)
Definition deref {A} (f : Mem → option A) : M A := λ m, match f m with Some a => Some (a, m) | None => None end.

(** The global allocator: an address that is not in use. *)
Class Allocator := {
  malloc : gmap Z bytes → bytes → Z;
  malloc_fresh h b : h !! malloc h b = None;
  malloc_nonnull h b : malloc h b ≠ 0
}.

Section Handoff.
Context `{Allocator}.

(** ** The Rust side (ffi.rs) *)
Definition ws_copy_context : M (option nat) := get COPY.
Definition ws_set_copy_context (context : option nat) : M (option nat) :=
  old ← get COPY; _ ← put (set_COPY context); mret old.
(** An empty boxed slice is not allocated: its pointer dangles. *)
Definition DANGLING : Z := 1.
Definition out (b : bytes) : M CStr := λ m,
  match b with
  | [] => Some ({| ptr := DANGLING; len := 0 |}, m)
  | _ => let p := malloc (heap m) b in Some ({| ptr := p; len := zlen b |}, set_heap (<[p := b]> (heap m)) m)
  end.
(** [drop(Box::from_raw(..))]: the allocation exists and has this length. *)
Definition ws_free (s : CStr) : M unit := λ m,
  if ptr s =? 0 then Some (tt, m) else
  if len s =? 0 then Some (tt, m) else
  match heap m !! ptr s with
  | Some b => if zlen b =? len s then Some (tt, set_heap (delete (ptr s) (heap m)) m) else None
  | None => None
  end.
(** [fail] notes the message of a call that failed; [ws_error] takes it. *)
Definition note (message : option bytes) : M unit := put (λ m, set_ERROR (default (ERROR m) message) m).
Definition ws_error : M CStr :=
  e ← get ERROR; _ ← put (set_ERROR (Native.ws_error e).2); out (Native.ws_error e).1.

(** ** The C side (values.c) *)
Inductive value := VNil | VBool (b : bool) | VInt (n : Z) | VStr (b : bytes).
(** What a call into Lua leads to. *)
Inductive lua_result := Raised | Returned (vs : list value).
(** [(lua_Integer)id] *)
Definition to_i64 (n : Z) : Z := if n <? 2 ^ 63 then n else n - 2 ^ 64.

(** [lua_pushlstring] may collect garbage before and after it copies. *)
Definition push_bytes (s : CStr) (before after : M lua_result) : M lua_result :=
  r ← before;
  match r with
  | Raised => mret Raised
  | Returned _ =>
      b ← (if len s =? 0 then mret [] else
           deref (λ m, match heap m !! ptr s with Some b => if zlen b =? len s then Some b else None | None => None end));
      r ← after;
      mret (match r with Raised => Raised | Returned _ => Returned [VStr b] end)
  end.
Definition copy_str (L : Z) (before after : M lua_result) : M lua_result :=
  current ← ws_copy_context;
  match current with
  | None => _ ← before; mret Raised
  | Some a =>
      c ← deref (λ m, copies m !! a);
      if negb (c_lua c =? L) || c_entered c then _ ← before; mret Raised else
      _ ← put (λ m, set_copies (<[a := {| c_lua := c_lua c; c_string := c_string c;
                                          c_previous := c_previous c; c_entered := true |}]> (copies m)) m);
      s ← deref (λ m, cells m !! c_string c);
      if ptr s =? 0 then mret (Returned [VNil]) else push_bytes s before after
  end.

(** The first result of a protected call that keeps one. *)
Definition first_result (vs : list value) : value := match vs with v :: _ => v | [] => VNil end.
(** [push_str]: [call] is what the protected call runs. *)
Definition push_str (L : Z) (s : nat) (call : M lua_result) : M lua_result :=
  copy ← get (λ m, fresh (dom (copies m)));
  previous ← ws_set_copy_context (Some copy);
  _ ← put (λ m, set_copies (<[copy := {| c_lua := L; c_string := s; c_previous := previous; c_entered := false |}]> (copies m)) m);
  rc ← call;
  c ← deref (λ m, copies m !! copy);
  _ ← ws_set_copy_context (c_previous c);
  v ← deref (λ m, cells m !! s);
  _ ← ws_free v;
  _ ← put (λ m, set_cstrs (<[s := NONE]> (cells m)) m);
  _ ← put (λ m, set_copies (delete copy (copies m)) m);
  mret (match rc with Raised => Raised | Returned vs => Returned [first_result vs] end).
(** [result] *)
Definition glue_result (L rc : Z) (s : nat) (call : M lua_result) : M lua_result :=
  if rc =? OK then mret (Returned [VBool true]) else
  e ← ws_error;
  _ ← put (λ m, set_cstrs (<[s := e]> (cells m)) m);
  r ← push_str L s call;
  mret (match r with
        | Raised => Raised
        | Returned vs => Returned [VNil; first_result vs; VBool (rc =? FATAL)]
        end).
(** [handle] *)
Definition glue_handle (L rc id : Z) (s : nat) (call : M lua_result) : M lua_result :=
  if negb (rc =? OK) then glue_result L rc s call else mret (Returned [VInt (to_i64 id)]).

(** ** The calls that may return owned strings (calls.c)

    [ws_str s; prepare_str(L, &s);] and the rest of the frame: what comes
    before Rust is entered may run Lua code and may raise. *)
Definition in_frame (prep : M lua_result) (rest : nat → M lua_result) : M lua_result :=
  s ← get (λ m, fresh (dom (cells m)));
  _ ← put (λ m, set_cstrs (<[s := NONE]> (cells m)) m);
  r ← prep;
  r ← (match r with Raised => mret Raised | Returned _ => rest s end);
  _ ← put (λ m, set_cstrs (delete s (cells m)) m);
  mret r.
(** What [ws_wait] answered: its result, the message it noted and the event it
    filled in. *)
Definition l_wait (L rc : Z) (noted : option bytes) (ev : option WsEvent) (prep call : M lua_result) : M lua_result :=
  in_frame prep (λ s,
    _ ← note noted;
    data ← (match ev with Some e => d ← out (e_data e); mret (Some (e, d)) | None => mret None end);
    if rc <? 0 then glue_result L (- rc) s call else
    if rc =? 0 then mret (Returned []) else
    ed ← deref (λ _, data);
    _ ← put (λ m, set_cstrs (<[s := ed.2]> (cells m)) m);
    r ← push_str L s call;
    mret (match r with
          | Raised => Raised
          | Returned vs =>
              Returned [VInt (e_kind ed.1); VInt (to_i64 (e_id ed.1)); first_result vs; VInt (e_code ed.1);
                        VInt (to_i64 (e_server ed.1))]
          end)).
(** [l_reply], [l_send], [l_ping], [l_close] *)
Definition l_status (L : Z) (st : Status) (prep call : M lua_result) : M lua_result :=
  in_frame prep (λ s, _ ← note st.2; glue_result L st.1 s call).
(** [l_connect], [l_listen] *)
Definition l_handle (L : Z) (st : Status) (id : Z) (prep call : M lua_result) : M lua_result :=
  in_frame prep (λ s, _ ← note st.2; glue_handle L st.1 id s call).
(** [ws_protocol] and [l_protocol] *)
Definition l_protocol (L : Z) (protocol : WsStr) (prep call : M lua_result) : M lua_result :=
  in_frame prep (λ s,
    p ← (match protocol with None => mret NONE | Some b => out b end);
    _ ← put (λ m, set_cstrs (<[s := p]> (cells m)) m);
    push_str L s call).

(** ** Lua

    Anything the Lua code of one thread can do with the memory: calls, with
    what Rust answered and what runs before Rust is entered and inside the
    protected call; the converter [copy_str] called from anywhere; errors, and
    catching them. *)
Inductive answer :=
  | AWait (hub : Z) (timeout : F64) (recv : option Z → option Event) (r : Registry)
  | AStatus (st : Status)
  | AHandle (st : Status) (id : Z)
  | AProtocol (p : WsStr).
Inductive lua :=
  | Idle
  | Raise
  | Seq (a b : lua)
  | Try (a : lua)
  | Converter (L : Z) (before after : lua)
  | Call (L : Z) (a : answer) (prep call : lua).
Definition binding (L : Z) (a : answer) (prep call : M lua_result) : M lua_result :=
  match a with
  | AWait hub timeout recv r =>
      match Native.ws_wait hub timeout recv r with
      | Ret (rc, ev, _, _) => l_wait L rc (if rc <? 0 then Some (bs "unknown hub") else None) ev prep call
      | _ => λ _, None
      end
  | AStatus st => l_status L st prep call
  | AHandle st id => l_handle L st id prep call
  | AProtocol p => l_protocol L p prep call
  end.
Fixpoint exec (p : lua) : M lua_result :=
  match p with
  | Idle => mret (Returned [])
  | Raise => mret Raised
  | Seq a b => r ← exec a; match r with Raised => mret Raised | Returned _ => exec b end
  | Try a => r ← exec a; mret (Returned [VBool (match r with Raised => false | _ => true end)])
  | Converter L before after => copy_str L (exec before) (exec after)
  | Call L a prep call => binding L a (exec prep) (exec call)
  end.

(** ** Ownership *)
(** What a string variable carries. *)
Definition carries (h : gmap Z bytes) (s : CStr) (d : option bytes) : Prop :=
  match d with
  | None => ptr s = 0
  | Some [] => ptr s ≠ 0 ∧ len s = 0
  | Some b => ptr s ≠ 0 ∧ len s = zlen b ∧ h !! ptr s = Some b
  end.
(** Every context in scope, the current one included, has its string in scope
    and allocated. *)
Record mem_ok (m : Mem) : Prop := {
  mo_current : ∀ a, COPY m = Some a → is_Some (copies m !! a);
  mo_owned : ∀ a c, copies m !! a = Some c → ∃ s d, cells m !! c_string c = Some s ∧ carries (heap m) s d
}.
(** What Lua code leaves as it was: everything except that contexts may have
    been entered. *)
Definition same_copy (c c' : Copy) : Prop :=
  c_lua c' = c_lua c ∧ c_string c' = c_string c ∧ c_previous c' = c_previous c ∧ (c_entered c = true → c_entered c' = true).
Record kept (m m' : Mem) : Prop := {
  ke_heap : heap m' = heap m; ke_cells : cells m' = cells m; ke_COPY : COPY m' = COPY m;
  ke_copies : map_relation (λ _, same_copy) (λ _ _, False) (λ _ _, False) (copies m) (copies m')
}.
Lemma kept_copy m m' a c : kept m m' → copies m !! a = Some c → ∃ c', copies m' !! a = Some c' ∧ same_copy c c'.
Proof. intros [_ _ _ Hc] E. specialize (Hc a). rewrite E in Hc. destruct (copies m' !! a); [eauto|done]. Qed.
Lemma kept_copy_inv m m' a c' : kept m m' → copies m' !! a = Some c' → ∃ c, copies m !! a = Some c ∧ same_copy c c'.
Proof. intros [_ _ _ Hc] E. specialize (Hc a). rewrite E in Hc. destruct (copies m !! a); [eauto|done]. Qed.
#[export] Instance kept_preorder : PreOrder kept.
Proof.
  split.
  - intros m. split; [done..|]. intros a. by destruct (copies m !! a).
  - intros m1 m2 m3 [A1 A2 A3 A4] [B1 B2 B3 B4]. split; [congruence..|]. intros a. specialize (A4 a). specialize (B4 a).
    destruct (copies m1 !! a), (copies m2 !! a), (copies m3 !! a); try done. destruct A4 as (? & ? & ? & ?), B4 as (? & ? & ? & ?).
    split_and!; try congruence. auto.
Qed.
Lemma kept_ok m m' : kept m m' → mem_ok m → mem_ok m'.
Proof.
  intros Hk [O1 O2]. split.
  - intros a E. rewrite (ke_COPY _ _ Hk) in E. destruct (O1 a E) as [c Ec]. destruct (kept_copy _ _ _ _ Hk Ec) as (c' & -> & _). eauto.
  - intros a c' E. destruct (kept_copy_inv _ _ _ _ Hk E) as (c & Ec & _ & Es & _).
    rewrite Es, (ke_cells _ _ Hk), (ke_heap _ _ Hk). eauto.
Qed.

(** A computation that is always defined and leaves the memory as it was. *)
Definition tidy (p : M lua_result) : Prop := ∀ m, mem_ok m → ∃ r m', p m = Some (r, m') ∧ kept m m'.
(** It can raise. *)
Definition raises (p : M lua_result) : Prop := ∃ m m', mem_ok m ∧ p m = Some (Raised, m').
(** It returned [vs], or raised for the reason [may]. *)
Definition returns (may : Prop) (vs : list value) (r : lua_result) : Prop := (may ∧ r = Raised) ∨ r = Returned vs.

Lemma bind_M {A B} (p : M A) (k : A → M B) m a m' : p m = Some (a, m') → (p ≫= k) m = k a m'.
Proof. unfold mbind, M_bind. by intros ->. Qed.
Lemma deref_M {A B} (f : Mem → option A) (k : A → M B) m a : f m = Some a → (deref f ≫= k) m = k a m.
Proof. intros E. apply bind_M. unfold deref. by rewrite E. Qed.

(** ** [copy_str] *)
Lemma carries_read h s d : carries h s d → ptr s ≠ 0 →
  ∃ b, d = Some b ∧ (if len s =? 0 then b = [] else
    (match h !! ptr s with Some b => if zlen b =? len s then Some b else None | None => None end) = Some b).
Proof.
  intros Hh Hp. destruct d as [[|x b]|]; simpl in Hh; [..|done].
  - destruct Hh as [_ El]. exists []. split; [done|]. by rewrite El.
  - destruct Hh as (_ & El & Eh). exists (x :: b). split; [done|].
    destruct (Z.eqb_spec (len s) 0) as [E0|_]; [by rewrite E0 in El|]. by rewrite Eh, El, Z.eqb_refl.
Qed.
(** The value made of a string. *)
Definition string_value (d : option bytes) : value := match d with Some b => VStr b | None => VNil end.
Lemma push_bytes_spec s d before after m :
  tidy before → tidy after → mem_ok m → carries (heap m) s d → ptr s ≠ 0 →
  ∃ r m', push_bytes s before after m = Some (r, m') ∧ kept m m' ∧ returns (raises before ∨ raises after) [string_value d] r.
Proof.
  intros Hb Ha Hm Hh Hp. destruct (Hb m Hm) as (r1 & m1 & E1 & K1). destruct (carries_read _ _ _ Hh Hp) as (b & -> & Hd).
  unfold push_bytes. rewrite (bind_M _ _ _ _ _ E1). destruct r1 as [|vs1].
  { exists Raised, m1. split; [done|]. split; [done|]. left. split; [|done]. left. by exists m, m1. }
  assert (mem_ok m1) as Hm1 by (by eapply kept_ok). destruct (Ha m1 Hm1) as (r2 & m2 & E2 & K2).
  exists (match r2 with Raised => Raised | Returned _ => Returned [VStr b] end), m2. split; [|split].
  - assert ((if len s =? 0 then mret [] else deref (λ m, match heap m !! ptr s with
        Some b => if zlen b =? len s then Some b else None | None => None end)) m1 = Some (b, m1)) as E.
    { destruct (len s =? 0); [by subst|]. unfold deref. by rewrite (ke_heap _ _ K1), Hd. }
    rewrite (bind_M _ _ _ _ _ E). by rewrite (bind_M _ _ _ _ _ E2).
  - by etrans.
  - destruct r2; [left|by right]. split; [|done]. right. by exists m1, m2.
Qed.
(** A context is marked; nothing else changes. *)
Lemma mark_kept m a c :
  copies m !! a = Some c →
  kept m (set_copies (<[a := {| c_lua := c_lua c; c_string := c_string c; c_previous := c_previous c; c_entered := true |}]> (copies m)) m).
Proof.
  intros Ec. split; [done..|]. intros b. simpl. destruct (decide (a = b)) as [<-|Hne].
  - rewrite Ec, lookup_insert_eq. by split_and!.
  - rewrite lookup_insert_ne by done. by destruct (copies m !! b).
Qed.
Lemma copy_str_spec L before after m :
  tidy before → tidy after → mem_ok m →
  ∃ r m', copy_str L before after m = Some (r, m') ∧ kept m m' ∧
    ∀ a c s d, COPY m = Some a → copies m !! a = Some c → c_lua c = L → c_entered c = false →
      cells m !! c_string c = Some s → carries (heap m) s d → returns (raises before ∨ raises after) [string_value d] r.
Proof.
  intros Hb Ha Hm. destruct (Hb m Hm) as (r1 & m1 & E1 & K1). unfold copy_str, ws_copy_context.
  rewrite (bind_M _ _ m (COPY m) m) by done.
  assert ((before ≫= λ _, mret Raised) m = Some (Raised, m1)) as Er by (by rewrite (bind_M _ _ _ _ _ E1)).
  destruct (COPY m) as [a|] eqn:Ea; [|by eexists _, _; eauto].
  destruct (mo_current m Hm a Ea) as [c Ec]. rewrite (deref_M _ _ _ c Ec).
  destruct (negb (c_lua c =? L) || c_entered c) eqn:Eb.
  { eexists _, _. split; [done|]. split; [done|]. intros a' c' s d [= <-] Ec' EL Ee. rewrite Ec in Ec'. injection Ec' as <-.
    by rewrite EL, Ee, Z.eqb_refl in Eb. }
  destruct (mo_owned m Hm a c Ec) as (s & d & Es & Hd). pose proof (mark_kept m a c Ec) as K0. set (m0 := set_copies _ m) in *.
  rewrite (bind_M _ _ m tt m0) by done. rewrite (deref_M _ _ m0 s Es).
  assert (∀ a' c' s' d', Some a = Some a' → copies m !! a' = Some c' → cells m !! c_string c' = Some s' → carries (heap m) s' d' →
    s' = s) as Hdet by (intros; simplify_eq; done).
  destruct (Z.eqb_spec (ptr s) 0) as [Ep|Hp].
  - eexists _, m0. split; [done|]. split; [done|]. intros a' c' s' d' E1' E2' _ _ E3' Hd'.
    rewrite (Hdet _ _ _ _ E1' E2' E3' Hd') in Hd'. right. destruct d' as [[|x b]|]; [by destruct Hd'..|done].
  - destruct (push_bytes_spec s d before after m0 Hb Ha) as (r & m' & E & K & Hv); [by eapply kept_ok|exact Hd|done|].
    eexists r, m'. split; [done|]. split; [by etrans|]. intros a' c' s' d' E1' E2' _ _ E3' Hd'.
    rewrite (Hdet _ _ _ _ E1' E2' E3' Hd') in Hd'. assert (d' = d) as ->; [|done].
    destruct (carries_read _ _ _ Hd Hp) as (b & -> & Hr), (carries_read _ _ _ Hd' Hp) as (b' & -> & Hr').
    destruct (len s =? 0); congruence.
Qed.

(** ** Handing one string over *)
(** [h'] is [h] with the allocation of the string, if it has one. *)
Definition owned (h : gmap Z bytes) (s : CStr) (h' : gmap Z bytes) : Prop :=
  (h' = h ∧ (ptr s = 0 ∨ len s = 0)) ∨
  (∃ b, ptr s ≠ 0 ∧ len s ≠ 0 ∧ h !! ptr s = None ∧ zlen b = len s ∧ h' = <[ptr s := b]> h).
Lemma owned_carries h s h' s0 d : owned h s h' → carries h s0 d → carries h' s0 d.
Proof.
  intros [[-> _]|(b & _ & _ & Hf & _ & ->)]; [done|]. destruct d as [[|x d]|]; [done| |done].
  intros (Hp & Hl & Eh). split_and!; [done..|]. rewrite lookup_insert_ne; [done|]. intros E. by rewrite E, Eh in Hf.
Qed.
Lemma out_spec b m :
  ∃ s h', out b m = Some (s, set_heap h' m) ∧ carries h' s (Some b) ∧ owned (heap m) s h'.
Proof.
  destruct b as [|x b]; simpl.
  - eexists _, (heap m). split; [by destruct m|]. split; [done|]. left. split; [done|by right].
  - eexists _, _. split; [done|]. simpl. pose proof (malloc_nonnull (heap m) (x :: b)) as Hp.
    split; [split_and!; [done|done|by rewrite lookup_insert_eq]|]. right. exists (x :: b).
    split_and!; [done|done|apply malloc_fresh|done|done].
Qed.
Lemma ws_free_spec h s m : owned h s (heap m) → ws_free s m = Some (tt, set_heap h m).
Proof.
  unfold ws_free. destruct (Z.eqb_spec (ptr s) 0) as [E|Hp].
  { intros [[Eh _]|(b & Hp & _)]; [rewrite <-Eh; by destruct m|done]. }
  destruct (Z.eqb_spec (len s) 0) as [E|Hl].
  { intros [[Eh _]|(b & _ & Hl & _)]; [rewrite <-Eh; by destruct m|done]. }
  intros [[_ [?|?]]|(b & _ & _ & Hf & Hb & Eh)]; [done..|]. rewrite Eh, lookup_insert_eq, Hb, Z.eqb_refl.
  by rewrite delete_insert_id.
Qed.
(** The protected call gives the string of the current context, or raises. *)
Definition faithful (L : Z) (may : Prop) (call : M lua_result) : Prop := ∀ m r m' a c s d,
  mem_ok m → call m = Some (r, m') → COPY m = Some a → copies m !! a = Some c → c_lua c = L → c_entered c = false →
  cells m !! c_string c = Some s → carries (heap m) s d → returns may [string_value d] r.
Lemma copy_str_faithful L (may : Prop) before after :
  tidy before → tidy after → (raises before ∨ raises after → may) → faithful L may (copy_str L before after).
Proof.
  intros Hb Ha Hmay m r m' a c s d Hm E E1 E2 E3 E4 E5 Hd. destruct (copy_str_spec L before after m Hb Ha Hm) as (r' & m1 & E' & _ & Hv).
  rewrite E in E'. injection E' as <- <-. destruct (Hv a c s d E1 E2 E3 E4 E5 Hd) as [[? ?]|?]; [left; auto|by right].
Qed.
Lemma copy_str_tidy L before after : tidy before → tidy after → tidy (copy_str L before after).
Proof. intros Hb Ha m Hm. destruct (copy_str_spec L before after m Hb Ha Hm) as (r & m' & E & K & _). eauto. Qed.

(** The frame of [push_str] after it entered its context. *)
Definition entered_frame (L : Z) (a copy : nat) (s : CStr) (h' : gmap Z bytes) (m : Mem) : Mem :=
  {| heap := h'; cells := <[a := s]> (cells m);
     copies := <[copy := {| c_lua := L; c_string := a; c_previous := COPY m; c_entered := false |}]> (copies m);
     COPY := Some copy; ERROR := ERROR m |}.
Lemma entered_ok L a copy s d h' m :
  mem_ok m → owned (heap m) s h' → carries h' s d → mem_ok (entered_frame L a copy s h' m).
Proof.
  intros [_ O2] Ho Hd. split; simpl.
  - intros ? [= <-]. by rewrite lookup_insert_eq.
  - intros b c [[<- <-]|[Hne Ec]]%lookup_insert_Some; simpl; [rewrite lookup_insert_eq; eauto|].
    destruct (O2 b c Ec) as (s0 & d0 & Es & Hd0). destruct (decide (a = c_string c)) as [->|Hn].
    + rewrite lookup_insert_eq. eauto.
    + rewrite lookup_insert_ne by done. exists s0, d0. split; [done|by eapply owned_carries].
Qed.
Lemma left_kept L a copy s h' m m2 h :
  cells m !! a = Some NONE → copies m !! copy = None → kept (entered_frame L a copy s h' m) m2 → h = heap m →
  kept m (set_copies (delete copy (copies m2)) (set_cstrs (<[a := NONE]> (cells m2)) (set_heap h (set_COPY (COPY m) m2)))).
Proof.
  intros Ea Ec [K1 K2 K3 K4] ->. simpl in *. split; simpl; [done| |done|].
  - by rewrite K2, insert_insert_eq, insert_id.
  - intros b. specialize (K4 b). destruct (decide (copy = b)) as [<-|Hne].
    + by rewrite Ec, lookup_delete_eq.
    + rewrite lookup_delete_ne by done. by rewrite lookup_insert_ne in K4 by done.
Qed.
Lemma push_str_spec L may a call s d h' m :
  mem_ok m → cells m !! a = Some NONE → tidy call → owned (heap m) s h' → carries h' s d →
  ∃ r m', push_str L a call (set_cstrs (<[a := s]> (cells m)) (set_heap h' m)) = Some (r, m') ∧ kept m m' ∧
    (faithful L may call → returns may [string_value d] r).
Proof.
  intros Hm Ea Hcall Ho Hd. set (copy := fresh (dom (copies m))).
  assert (copies m !! copy = None) as Hfr by (apply not_elem_of_dom, is_fresh).
  pose proof (entered_ok L a copy s d h' m Hm Ho Hd) as Hm1. set (m1 := entered_frame L a copy s h' m) in *.
  destruct (Hcall m1 Hm1) as (r & m2 & E & K).
  assert (copies m1 !! copy = Some {| c_lua := L; c_string := a; c_previous := COPY m; c_entered := false |}) as Ec
    by apply lookup_insert_eq.
  destruct (kept_copy _ _ _ _ K Ec) as (c2 & Ec2 & _ & _ & Ep & _). simpl in Ep.
  assert (cells m2 !! a = Some s) as Es by (rewrite (ke_cells _ _ K); apply lookup_insert_eq).
  set (m3 := set_COPY (COPY m) m2).
  assert (ws_free s m3 = Some (tt, set_heap (heap m) m3)) as Ef.
  { apply ws_free_spec. unfold m3. simpl. by rewrite (ke_heap _ _ K). }
  exists (match r with Raised => Raised | Returned vs => Returned [first_result vs] end),
    (set_copies (delete copy (copies m2)) (set_cstrs (<[a := NONE]> (cells m2)) (set_heap (heap m) m3))). split; [|split].
  - unfold push_str. erewrite bind_M by reflexivity. change (dom (copies (set_cstrs _ _))) with (dom (copies m)). fold copy.
    erewrite bind_M by reflexivity. erewrite bind_M by reflexivity.
    rewrite (bind_M _ _ _ _ _ E), (deref_M _ _ _ _ Ec2), Ep.
    erewrite bind_M by reflexivity. fold m3. rewrite (deref_M _ _ m3 s Es), (bind_M _ _ _ _ _ Ef).
    reflexivity.
  - by apply (left_kept L a copy s h').
  - intros Hf. destruct (Hf m1 r m2 copy _ s d Hm1 E eq_refl Ec) as [[? ->]| ->];
      [done|done|apply lookup_insert_eq|done|by left|by right].
Qed.

(** ** The calls *)
(** A computation that is defined in [m], leaves the memory as it was and
    whose result satisfies [Q]. *)
Definition gives (p : M lua_result) (Q : lua_result → Prop) (m : Mem) : Prop :=
  ∃ r m', p m = Some (r, m') ∧ kept m m' ∧ Q r.
(** With a converter that is not tampered with the result is [vs]. *)
Definition answers (L : Z) (may : Prop) (call : M lua_result) (vs : list value) (r : lua_result) : Prop :=
  faithful L may call → returns may vs r.
Lemma gives_ret vs Q m : Q (Returned vs) → gives (mret (Returned vs)) Q m.
Proof. intros HQ. by exists (Returned vs), m. Qed.
Lemma set_ERROR_kept e m : kept m (set_ERROR e m).
Proof. split; [done..|]. intros a. simpl. by destruct (copies m !! a). Qed.
Lemma gives_after {A} (p : M A) (k : A → M lua_result) Q m a m1 :
  p m = Some (a, m1) → kept m m1 → gives (k a) Q m1 → gives (p ≫= k) Q m.
Proof.
  intros E K (r & m' & E' & K' & HQ). exists r, m'. split; [by rewrite (bind_M _ _ _ _ _ E)|]. split; [by etrans|done].
Qed.
(** A string is made by Rust, stored and handed over. *)
Lemma handed (f : value → list value) L may a call b m :
  mem_ok m → cells m !! a = Some NONE → tidy call →
  gives (s ← out b; _ ← put (λ m, set_cstrs (<[a := s]> (cells m)) m); r ← push_str L a call;
         mret (match r with Raised => Raised | Returned vs => Returned (f (first_result vs)) end))
    (answers L may call (f (VStr b))) m.
Proof.
  intros Hm Ea Hc. destruct (out_spec b m) as (s & h' & Eo & Hd & Ho).
  destruct (push_str_spec L may a call s (Some b) h' m Hm Ea Hc Ho Hd) as (r & m' & E & K & Hv).
  exists (match r with Raised => Raised | Returned vs => Returned (f (first_result vs)) end), m'. split; [|split; [done|]].
  - rewrite (bind_M _ _ _ _ _ Eo). change (cells m) with (cells (set_heap h' m)) in E.
    by rewrite (bind_M _ _ _ tt (set_cstrs (<[a := s]> (cells (set_heap h' m))) (set_heap h' m)) eq_refl), (bind_M _ _ _ _ _ E).
  - intros Hf. destruct (Hv Hf) as [[? ->]| ->]; [by left|by right].
Qed.
Lemma glue_result_gives L may rc a call m :
  mem_ok m → cells m !! a = Some NONE → tidy call →
  gives (glue_result L rc a call)
    (answers L may call (if rc =? OK then [VBool true] else [VNil; VStr (ERROR m); VBool (rc =? FATAL)])) m.
Proof.
  intros Hm Ea Hc. unfold glue_result. destruct (rc =? OK); [apply gives_ret; by right|].
  destruct (handed (λ v, [VNil; v; VBool (rc =? FATAL)]) L may a call (ERROR m) (set_ERROR [] m)) as (r & m' & E & K & HQ);
    [by eapply kept_ok, Hm; apply set_ERROR_kept|done|done|].
  exists r, m'. split; [|split; [|done]]; [|etrans; [apply (set_ERROR_kept [])|exact K]]. rewrite <-E. unfold ws_error.
  unfold mbind, M_bind. simpl. by destruct (out (ERROR m) (set_ERROR [] m)) as [[]|].
Qed.
Lemma glue_handle_gives L may rc id a call m :
  mem_ok m → cells m !! a = Some NONE → tidy call →
  gives (glue_handle L rc id a call)
    (answers L may call (if rc =? OK then [VInt (to_i64 id)] else [VNil; VStr (ERROR m); VBool (rc =? FATAL)])) m.
Proof.
  intros Hm Ea Hc. unfold glue_handle. pose proof (glue_result_gives L may rc a call m Hm Ea Hc) as Hg.
  destruct (rc =? OK); [apply gives_ret; by right|done].
Qed.

(** The frame around it. *)
Lemma in_frame_gives prep rest Q m :
  tidy prep → mem_ok m → (raises prep → Q Raised) →
  (∀ a m, mem_ok m → cells m !! a = Some NONE → gives (rest a) Q m) → gives (in_frame prep rest) Q m.
Proof.
  intros Hp Hm HR Hrest. set (a := fresh (dom (cells m))).
  assert (cells m !! a = None) as Hfr by (apply not_elem_of_dom, is_fresh).
  set (m0 := set_cstrs (<[a := NONE]> (cells m)) m).
  assert (mem_ok m0) as Hm0.
  { destruct Hm as [O1 O2]. split; [done|]. intros b c Ec. destruct (O2 b c Ec) as (s & d & Es & Hd).
    exists s, d. split; [|done]. simpl. rewrite lookup_insert_ne; [done|]. intros E. by rewrite <-E, Hfr in Es. }
  destruct (Hp m0 Hm0) as (r1 & m1 & E1 & K1).
  assert (gives (match r1 with Raised => mret Raised | Returned _ => rest a end) Q m1) as (r2 & m2 & E2 & K2 & HQ).
  { destruct r1; [exists Raised, m1; split; [done|]; split; [done|]; apply HR; by exists m0, m1|]. apply Hrest; [by eapply kept_ok|].
    rewrite (ke_cells _ _ K1). apply lookup_insert_eq. }
  exists r2, (set_cstrs (delete a (cells m2)) m2). split; [|split; [|done]].
  - unfold in_frame. rewrite (bind_M _ _ m a m) by done. rewrite (bind_M _ _ m tt m0) by done.
    by rewrite (bind_M _ _ _ _ _ E1), (bind_M _ _ _ _ _ E2).
  - assert (kept m0 m2) as [K3 K4 K5 K6] by (by etrans). split; [done| |done|done]. simpl.
    rewrite K4. simpl. by rewrite delete_insert_id.
Qed.

(** What the calls return when the string arrives. *)
Definition status_values (st : Status) (vs : list value) : list value :=
  if st.1 =? OK then vs else [VNil; VStr (default [] st.2); VBool (st.1 =? FATAL)].
Definition expected (a : answer) : list value :=
  match a with
  | AWait hub timeout recv r =>
      match Native.ws_wait hub timeout recv r with
      | Ret (_, Some e, _, _) =>
          [VInt (e_kind e); VInt (to_i64 (e_id e)); VStr (e_data e); VInt (e_code e); VInt (to_i64 (e_server e))]
      | Ret (rc, None, _, _) => if rc <? 0 then [VNil; VStr (bs "unknown hub"); VBool true] else []
      | _ => []
      end
  | AStatus st => status_values st [VBool true]
  | AHandle st id => status_values st [VInt (to_i64 id)]
  | AProtocol p => [string_value p]
  end.
(** A call that fails says why. *)
Definition noted (st : Status) : Prop := st.1 ≠ OK → is_Some st.2.
Definition answer_ok (a : answer) : Prop := match a with AStatus st | AHandle st _ => noted st | _ => True end.
Lemma note_ERROR st m m' : noted st → note st.2 m = Some (tt, m') → st.1 ≠ OK → ERROR m' = default [] st.2.
Proof. intros Hn [= <-] Hne. simpl. by destruct (Hn Hne) as [x ->]. Qed.
Lemma status_gives (glue : Z → nat → M lua_result) L may call vs st a m :
  (∀ rc m, mem_ok m → cells m !! a = Some NONE →
     gives (glue rc a) (answers L may call (if rc =? OK then vs else [VNil; VStr (ERROR m); VBool (rc =? FATAL)])) m) →
  mem_ok m → cells m !! a = Some NONE →
  gives (_ ← note st.2; glue st.1 a) (λ r, noted st → answers L may call (status_values st vs) r) m.
Proof.
  intros Hg Hm Ea. set (m1 := set_ERROR (default (ERROR m) st.2) m).
  pose proof (set_ERROR_kept (default (ERROR m) st.2) m) as K. fold m1 in K.
  eapply (gives_after _ _ _ m tt m1); [done|done|]. destruct (Hg st.1 m1) as (r & m' & E & K' & HQ); [by eapply kept_ok|done|].
  exists r, m'. split; [done|]. split; [done|]. intros Hn. unfold status_values.
  destruct (Z.eqb_spec st.1 OK) as [|Hne]; [done|]. by rewrite <-(note_ERROR st m m1 Hn eq_refl Hne).
Qed.
Lemma wait_gives L (may : Prop) hub timeout recv r prep call m :
  (raises prep → may) → tidy prep → tidy call → mem_ok m →
  gives (binding L (AWait hub timeout recv r) prep call) (answers L may call (expected (AWait hub timeout recv r))) m.
Proof.
  intros Hmay Hp Hc Hm. unfold binding, expected, Native.ws_wait.
  destruct (wait_timeout_total timeout) as (t & -> & _). cbn [mbind outcome_bind].
  destruct (negb (bool_decide (hub ∈ hubs r))); [|destruct (recv t) as [event|]].
  - apply in_frame_gives; [done|done|left; by auto|]. clear m Hm. intros a m Hm Ea.
    eapply (gives_after _ _ _ m tt (set_ERROR (bs "unknown hub") m)); [done|apply set_ERROR_kept|].
    apply (glue_result_gives L may FATAL a call (set_ERROR (bs "unknown hub") m)); [|done|done].
    eapply kept_ok, Hm. apply set_ERROR_kept.
  - destruct (flatten hub event r) as [[e r'] took]. apply in_frame_gives; [done|done|left; by auto|]. clear m Hm. intros a m Hm Ea.
    destruct (handed (λ v, [VInt (e_kind e); VInt (to_i64 (e_id e)); v; VInt (e_code e); VInt (to_i64 (e_server e))])
      L may a call (e_data e) (set_ERROR (ERROR m) m)) as (x & m' & E & K & HQ);
      [by eapply kept_ok, Hm; apply set_ERROR_kept|done|done|].
    exists x, m'. split; [|split; [|done]]; [|etrans; [apply (set_ERROR_kept (ERROR m))|exact K]].
    rewrite <-E. unfold mbind, M_bind. simpl. by destruct (out (e_data e) _) as [[]|].
  - apply in_frame_gives; [done|done|left; by auto|]. clear m Hm. intros a m Hm Ea.
    eapply (gives_after _ _ _ m tt (set_ERROR (ERROR m) m)); [done|apply set_ERROR_kept|]. apply gives_ret. by right.
Qed.
Lemma binding_gives L (may : Prop) x prep call m :
  (raises prep → may) → tidy prep → tidy call → mem_ok m →
  gives (binding L x prep call) (λ r, answer_ok x → answers L may call (expected x) r) m.
Proof.
  intros Hmay Hp Hc Hm. destruct x as [hub timeout recv r|st|st id|p].
  - destruct (wait_gives L may hub timeout recv r prep call m Hmay Hp Hc Hm) as (r' & m' & E & K & HQ). by exists r', m'.
  - apply in_frame_gives; [done|done|left; by auto|]. intros a m1 Hm1 Ea. apply (status_gives (λ rc s, glue_result L rc s call)); [|done|done].
    intros rc m2 Hm2 Ea2. by apply glue_result_gives.
  - apply in_frame_gives; [done|done|left; by auto|]. intros a m1 Hm1 Ea.
    apply (status_gives (λ rc s, glue_handle L rc id s call)); [|done|done]. intros rc m2 Hm2 Ea2. by apply glue_handle_gives.
  - apply in_frame_gives; [done|done|left; by auto|]. intros a m1 Hm1 Ea. destruct p as [b|].
    + destruct (out_spec b m1) as (s & h' & Eo & Hd & Ho).
      destruct (push_str_spec L may a call s (Some b) h' m1 Hm1 Ea Hc Ho Hd) as (r & m' & E & K & Hv). exists r, m'. split; [|done].
      by rewrite (bind_M _ _ _ _ _ Eo).
    + destruct (push_str_spec L may a call NONE None (heap m1) m1 Hm1 Ea Hc) as (r & m' & E & K & Hv); [left; by auto|done|].
      exists r, m'. split; [|done]. rewrite <-E. by destruct m1.
Qed.

(** Any Lua code. *)
Lemma exec_tidy p : tidy (exec p).
Proof.
  induction p as [| |a IHa b IHb|a IHa|L b IHb a IHa|L x p IHp c IHc]; intros m Hm; cbn [exec].
  - by eexists _, m.
  - by eexists _, m.
  - destruct (IHa m Hm) as (r & m1 & E & K). rewrite (bind_M _ _ _ _ _ E). destruct r; [eauto|].
    destruct (IHb m1) as (r2 & m2 & E2 & K2); [by eapply kept_ok|]. exists r2, m2. split; [done|by etrans].
  - destruct (IHa m Hm) as (r & m1 & E & K). rewrite (bind_M _ _ _ _ _ E). by eexists _, m1.
  - by apply copy_str_tidy.
  - destruct (binding_gives L True x (exec p) (exec c) m (λ _, I) IHp IHc Hm) as (r & m' & E & K & _). eauto.
Qed.
Lemma mem_new_ok : mem_ok mem_new.
Proof. by split. Qed.

(** C29: Strings cross the boundary safely: whatever Lua code runs, however
    calls nest in finalizers and hooks, wherever errors jump out of them and
    whoever calls the converter, nothing is freed twice, nothing is read after
    it was freed and no frame is used after it was left; when the code is
    done every string Rust handed out has been given back, and the copy
    context is the one before. *)
Theorem strings_owned p :
  ∃ r m, exec p mem_new = Some (r, m) ∧ heap m = ∅ ∧ COPY m = None ∧ cells m = ∅ ∧ copies m = ∅.
Proof.
  destruct (exec_tidy p mem_new mem_new_ok) as (r & m & E & [K1 K2 K3 K4]). exists r, m. split_and!; try done.
  apply map_empty. intros a. specialize (K4 a). simpl in K4. rewrite lookup_empty in K4. by destruct (copies m !! a).
Qed.

(** C37: A call gives Lua what Rust answered: in any state between calls, also
    inside finalizers of other calls, a call whose converter Lua runs as it is
    returns the event, the subprotocol, the handle or the reason of the
    failure byte for byte; it raises only if the code that runs before the
    call or during the copy is able to raise, in some memory, and that code
    cannot change the string. *)
Theorem strings_delivered L x prep before after m :
  mem_ok m → answer_ok x →
  ∃ r m', exec (Call L x prep (Converter L before after)) m = Some (r, m') ∧
    (r = Returned (expected x) ∨
     r = Raised ∧ (raises (exec prep) ∨ raises (exec before) ∨ raises (exec after))).
Proof.
  intros Hm Hx. set (may := raises (exec prep) ∨ raises (exec before) ∨ raises (exec after)).
  destruct (binding_gives L may x (exec prep) (copy_str L (exec before) (exec after)) m) as (r & m' & E & _ & Hv);
    [unfold may; auto|apply exec_tidy|apply copy_str_tidy; apply exec_tidy|done|].
  exists r, m'. split; [done|]. destruct (Hv Hx) as [[? ?]| ->]; [|by right|by left].
  apply copy_str_faithful; [apply exec_tidy..|unfold may; auto].
Qed.
End Handoff.

(** ** The library's own answers

    Every failing call of the library notes its reason. *)
Definition errs_noted {A} (x : result A Status) : Prop := match x with Ok _ => True | Err st => noted st end.
Lemma noted_failed st m : noted (failed_with st m).
Proof. by eexists. Qed.
Lemma noted_ok : noted (OK, None).
Proof. by intros []. Qed.
Lemma str_text_noted s what : errs_noted (str_text s what).
Proof. unfold str_text. destruct s as [b|]; [|done]. destruct (is_utf8 b); [done|apply noted_failed]. Qed.
Lemma lines_noted s what : errs_noted (lines s what).
Proof. unfold lines. pose proof (str_text_noted s what). by destruct (str_text s what). Qed.
Lemma header_lines_noted ls : errs_noted (header_lines ls).
Proof.
  induction ls as [|l ls IH]; simpl; [done|]. destruct (split_once 58 l); [|apply noted_failed]. by destruct (header_lines ls).
Qed.
Section Answers.
Context `{Target} `{Tls} (tls_ca : bytes → result ClientConfig bytes) (tls_server : bytes → bytes → result unit bytes).
Lemma client_strings_noted protocols headers ca : errs_noted (client_strings tls_ca protocols headers ca).
Proof.
  unfold client_strings. pose proof (lines_noted protocols (bs "protocols")). destruct (lines protocols _); [|done]. simpl.
  pose proof (lines_noted headers (bs "headers")). destruct (lines headers _) as [hl|]; [|done]. simpl.
  pose proof (header_lines_noted hl). destruct (header_lines hl); [|done]. simpl.
  pose proof (str_text_noted ca (bs "tls.ca")). destruct (str_text ca _) as [[c|]|]; simpl; [|done..].
  destruct (tls_ca c); [done|apply noted_failed].
Qed.
Lemma ws_connect_noted now tok rt e hub_id url protocols headers ca timeout max buffer heartbeat c r :
  ∃ x, ws_connect tls_ca now tok rt e hub_id url protocols headers ca timeout max buffer heartbeat c r = Ret x ∧ noted x.1.1.1.
Proof.
  unfold ws_connect, hub. destruct (bool_decide _); [|eexists; split; [done|apply noted_failed]]. unfold connect_run.
  pose proof (str_text_noted url (bs "url")). destruct (str_text url _) as [u|]; [|by eexists]. simpl.
  pose proof (client_strings_noted protocols headers ca) as Hn.
  destruct (client_options_total tls_ca protocols headers ca timeout max buffer heartbeat) as ([opts|] & -> & Hx); simpl;
    (eexists; split; [done|]); [|by rewrite Hx in Hn].
  destruct (connect _ _ _ _ _ _ _); [apply noted_ok|apply noted_failed].
Qed.
Lemma server_tls_noted cert key : errs_noted (server_tls tls_server cert key).
Proof.
  unfold server_tls. pose proof (str_text_noted cert (bs "tls.cert")). destruct (str_text cert _) as [c|]; [|done]. simpl.
  pose proof (str_text_noted key (bs "tls.key")). destruct (str_text key _) as [k|]; [|done]. simpl.
  destruct c as [c|], k as [k|]; simpl; try apply noted_failed; [|done]. destruct (tls_server c k); [done|apply noted_failed].
Qed.
Lemma connection_limit_noted n : errs_noted (connection_limit n).
Proof. unfold connection_limit. destruct (0 <? n); [|done]. destruct (to_usize n); [done|apply noted_failed]. Qed.
Lemma ws_listen_noted rt bound hub_id host port cert key max buffer connections heartbeat c r :
  ∃ x, ws_listen tls_server rt bound hub_id host port cert key max buffer connections heartbeat c r = Ret x ∧ noted x.1.1.1.
Proof.
  unfold ws_listen, hub. destruct (bool_decide _); [|eexists; split; [done|apply noted_failed]]. unfold listen_run.
  pose proof (str_text_noted host (bs "host")) as Hh. pose proof (server_tls_noted cert key) as Ht.
  pose proof (connection_limit_noted connections) as Hc.
  destruct (server_options_total tls_server host port cert key max buffer connections heartbeat) as ([opts|st] & -> & Hx); simpl;
    (eexists; split; [done|]); [|by destruct Hx as [Hx|[Hx|Hx]]; rewrite Hx in *].
  destruct (listen _ _ _ _) as [[]|]; [apply noted_ok|apply noted_failed].
Qed.
Lemma ws_reply_noted tok status protocol r : noted (ws_reply tok status protocol r).1.1.
Proof.
  unfold ws_reply. destruct (replies r !! tok) as [[]|]; [|apply noted_ok].
  pose proof (str_text_noted protocol (bs "protocol")). destruct (str_text protocol _); [|done].
  destruct (status =? 0); [apply noted_ok|]. destruct (_ && _); [apply noted_ok|apply noted_failed].
Qed.
(** The calls on a connection. *)
Lemma with_conn_noted o i id (p : method (result unit bytes)) r w st w' j :
  run o i (with_conn id (x ← p; Done (sent_status x)) r) w = Some (st, w', j) → noted st.
Proof.
  unfold with_conn. destruct (bool_decide _); [|intros [= <- _ _]; apply noted_failed].
  rewrite run_bind. destruct (run o i p w) as [[[[x|x] w1] i1]|]; intros [= <- _ _]; [apply noted_ok|apply noted_failed].
Qed.
Lemma ws_send_noted o i tid id data binary r w st w' j :
  run o i (ws_send tid id data binary r) w = Some (st, w', j) → noted st.
Proof.
  unfold ws_send. destruct binary; [apply with_conn_noted|]. destruct (is_utf8 _); [apply with_conn_noted|].
  intros [= <- _ _]. apply noted_failed.
Qed.
Lemma ws_ping_noted o i tid id data r w st w' j :
  run o i (ws_ping tid id data r) w = Some (st, w', j) → noted st.
Proof.
  unfold ws_ping. destruct (125 <? _); [|apply with_conn_noted]. intros [= <- _ _]. apply noted_failed.
Qed.
Lemma ws_close_noted o i id code reason r w st w' j :
  run o i (ws_close id code reason r) w = Some (st, w', j) → noted st.
Proof.
  unfold ws_close. destruct (negb _); [intros [= <- _ _]; apply noted_failed|].
  pose proof (str_text_noted reason (bs "close reason")). destruct (str_text reason _) as [x|]; [|by intros [= <- _ _]].
  destruct (123 <? _); [intros [= <- _ _]; apply noted_failed|].
  destruct (bool_decide _); [|intros [= <- _ _]; apply noted_ok]. rewrite run_bind.
  destruct (run o i _ w) as [[[[y|y] w1] i1]|]; intros [= <- _ _]; [apply noted_ok|apply noted_failed].
Qed.
End Answers.

(** ** A session *)
#[local] Program Instance bump : Allocator := {| malloc h _ := fresh ({[0; DANGLING]} ∪ dom h) |}.
Next Obligation. intros h b. apply not_elem_of_dom. pose proof (is_fresh ({[0; DANGLING]} ∪ dom h)). set_solver. Qed.
Next Obligation. intros h b. pose proof (is_fresh ({[0; DANGLING]} ∪ dom h)) as Hf. intros E. rewrite E in Hf. set_solver. Qed.
(** A message arrives; while it is copied a finalizer fails to send, asks for
    a subprotocol and calls the converter itself. *)
Definition hub1 : Registry := set_hubs {[1]} registry_new.
Definition finalizer : lua :=
  Seq (Call 5 (AStatus (failed_with SOFT (bs "closed"))) Idle (Converter 5 Idle Idle))
    (Seq (Call 5 (AProtocol None) Idle Raise) (Converter 5 Idle Idle)).
Definition a_message : answer := AWait 1 (f_int 1) (λ _, Some (EvMessage 9 (bs "hello") false)) hub1.
Lemma strings_delivered_witness :
  ∃ m, exec (Call 5 a_message Idle (Converter 5 (Try finalizer) Idle)) mem_new =
    Some (Returned [VInt 2; VInt 9; VStr (bs "hello"); VInt 0; VInt 0], m).
Proof.
  destruct (strings_delivered 5 a_message Idle (Try finalizer) Idle mem_new mem_new_ok I) as (r & m & E & Hr).
  exists m. rewrite E. destruct Hr as [->|[-> _]]; [vm_compute; reflexivity|]. exfalso. vm_compute in E. discriminate E.
Defined.
