(* ===== verification/Args.v ===== *)
(** * The arguments of the binding's functions (native/values.c, calls.c, ws.c)

    Before it enters Rust, a C function of the binding reads its arguments from
    Lua's stack and raises if one does not fit: [None] here.  What happens to
    the strings Rust returns is in [Handoff]; this file is about what Rust
    gets, and what it makes of it. *)

From Stdlib Require Import QArith Qround.
From S2P Require Import Float Prelude Utf8 Str Http Frame Dial Events Prog Link Conn Client Serve Native NativeProps.
#[local] Open Scope Z_scope.

(** Lua's numbers, and its conversions of numbers and numeric strings to
    [lua_Integer], which has 64 bits, and to [lua_Number]. *)
Class LuaApi := {
  Numeral : Type;
  tointeger : Numeral + bytes → option Z;
  tonumber : Numeral + bytes → option F64;
  tointeger_i64 x n : tointeger x = Some n → - 2 ^ 63 <= n < 2 ^ 63
}.

Section Args.
Context `{LuaApi}.

(** ** Lua's stack *)
Inductive lvalue := LNil | LBool (b : bool) | LNumber (n : Numeral) | LString (s : bytes) | LOther.
(** The argument at index [i], counted from 1 as in C. *)
Definition arg (stack : list lvalue) (i : nat) : lvalue := default LNil (stack !! pred i).
Definition isnoneornil (v : lvalue) : bool := match v with LNil => true | _ => false end.
Definition toboolean (v : lvalue) : bool := match v with LNil | LBool false => false | _ => true end.
Definition integer_of (v : lvalue) : option Z :=
  match v with LNumber n => tointeger (inl n) | LString s => tointeger (inr s) | _ => None end.
Definition number_of (v : lvalue) : option F64 :=
  match v with LNumber n => tonumber (inl n) | LString s => tonumber (inr s) | _ => None end.
(** [luaL_optinteger], [luaL_optnumber] *)
Definition optinteger (v : lvalue) (d : Z) : option Z := if isnoneornil v then Some d else integer_of v.
Definition optnumber (v : lvalue) (d : F64) : option F64 := if isnoneornil v then Some d else number_of v.
(** [luaL_argcheck] *)
Definition argcheck (b : bool) : option unit := if b then Some tt else None.

(** ** values.c *)
Definition opt_str (v : lvalue) : option WsStr :=
  match v with LNil => Some None | LString s => Some (Some s) | _ => None end.
Definition check_id (v : lvalue) : option Z :=
  n ← integer_of v; _ ← argcheck (0 <? n); Some (u64 n).
(** [(uint64_t)n] of a number in range *)
Definition f_trunc (x : F64) : Z := match x with Fin q => Qfloor q | _ => 0 end.
Definition MAX_SIZE : Z := 2 ^ 53.
Definition opt_size (v : lvalue) : option Z :=
  n ← optnumber v (f_int 0);
  _ ← argcheck (f_le (f_int 0) n && f_le n (f_int MAX_SIZE));
  let size := f_trunc n in
  _ ← argcheck (f_eq (f_int size) n);
  Some size.
Definition opt_heartbeat (v : lvalue) : option F64 :=
  match v with
  | LNil => Some (f_int (-1))
  | LBool b => _ ← argcheck (negb b); Some (f_int 0)
  | _ =>
      n ← number_of v;
      _ ← argcheck (f_lt (f_int 0) n && f_le n MAX_SECONDS);
      Some n
  end.

(** ** The functions (calls.c, ws.c)

    The call each makes, with its arguments. *)
Inductive fn := FWait | FConnect | FListen | FPort | FUnlisten | FReply | FSend | FPing | FClose | FTerminate | FProtocol
  | FShutdown | FState | FBuffered.
Inductive entry :=
  | EWait (hub : Z) (timeout : F64)
  | EConnect (hub : Z) (url protocols headers ca : WsStr) (timeout : F64) (max buffer : Z) (heartbeat : F64)
  | EListen (hub : Z) (host : WsStr) (port : Z) (cert key : WsStr) (max buffer connections : Z) (heartbeat : F64)
  | EReply (token status : Z) (protocol : WsStr)
  | ESend (id : Z) (data : WsStr) (binary : bool)
  | EPing (id : Z) (data : WsStr)
  | EClose (id code : Z) (reason : WsStr)
  | EHandle (f : fn) (id : Z).
Definition wait_args (st : list lvalue) : option entry :=
  hub ← check_id (arg st 1); timeout ← optnumber (arg st 2) (f_int (-1)); Some (EWait hub timeout).
Definition connect_args (st : list lvalue) : option entry :=
  hub ← check_id (arg st 1);
  url ← opt_str (arg st 2); protocols ← opt_str (arg st 3); headers ← opt_str (arg st 4); ca ← opt_str (arg st 5);
  timeout ← optnumber (arg st 6) (f_int 0);
  max ← opt_size (arg st 7); buffer ← opt_size (arg st 8);
  heartbeat ← opt_heartbeat (arg st 9);
  Some (EConnect hub url protocols headers ca timeout max buffer heartbeat).
Definition listen_args (st : list lvalue) : option entry :=
  hub ← check_id (arg st 1);
  host ← opt_str (arg st 2); cert ← opt_str (arg st 4); key ← opt_str (arg st 5);
  port ← integer_of (arg st 3); _ ← argcheck ((0 <=? port) && (port <=? 65535));
  max ← opt_size (arg st 6); buffer ← opt_size (arg st 7); connections ← opt_size (arg st 8);
  heartbeat ← opt_heartbeat (arg st 9);
  Some (EListen hub host (u16 port) cert key max buffer connections heartbeat).
Definition reply_args (st : list lvalue) : option entry :=
  token ← check_id (arg st 1);
  status ← optinteger (arg st 2) 0; _ ← argcheck ((0 <=? status) && (status <=? 65535));
  protocol ← opt_str (arg st 3);
  Some (EReply token (u16 status) protocol).
Definition send_args (st : list lvalue) : option entry :=
  id ← check_id (arg st 1); data ← opt_str (arg st 2); Some (ESend id data (toboolean (arg st 3))).
Definition ping_args (st : list lvalue) : option entry :=
  id ← check_id (arg st 1); data ← opt_str (arg st 2); Some (EPing id data).
(** A code out of range becomes 0, which [ws_close] rejects. *)
Definition clamp_code (code : Z) : Z := if (code <? 0) || (65535 <? code) then 0 else code.
Definition close_args (st : list lvalue) : option entry :=
  id ← check_id (arg st 1);
  code ← optinteger (arg st 2) 1000;
  reason ← opt_str (arg st 3);
  Some (EClose id (clamp_code code) reason).
(** [l_port], [l_unlisten], [l_terminate], [l_protocol], [l_shutdown],
    [l_state], [l_buffered] *)
Definition id_args (f : fn) (st : list lvalue) : option entry := id ← check_id (arg st 1); Some (EHandle f id).
(** The function that Lua calls ([FUNCS]). *)
Definition enter (f : fn) (st : list lvalue) : option entry :=
  match f with
  | FWait => wait_args st
  | FConnect => connect_args st
  | FListen => listen_args st
  | FReply => reply_args st
  | FSend => send_args st
  | FPing => ping_args st
  | FClose => close_args st
  | _ => id_args f st
  end.

(** ** What Rust gets *)
(** The handle every function takes first. *)
Definition handle_is (st : list lvalue) (n : Z) : Prop := integer_of (arg st 1) = Some n ∧ 0 < n < 2 ^ 63.
(** A string argument: [nil] is none. *)
Definition string_is (v : lvalue) (s : WsStr) : Prop :=
  match v with LNil => s = None | LString b => s = Some b | _ => False end.
(** The text of such an argument, empty if there is none. *)
Definition text_of (v : lvalue) : bytes := match v with LString b => b | _ => [] end.
(** A limit: the default [d] when Lua gave none or zero, else what Lua said. *)
Definition limit_is (v : lvalue) (d n : Z) : Prop :=
  n = d ∧ (v = LNil ∨ ∃ q, number_of v = Some (Fin q) ∧ (q == 0)%Q) ∨
  0 < n <= MAX_SIZE ∧ ∃ q, number_of v = Some (Fin q) ∧ (q == inject_Z n)%Q.
(** A heartbeat: [nil] is the default, [false] none, a number of seconds its
    nearest number of nanoseconds. *)
Definition pause_is (v : lvalue) (d hb : option Z) : Prop :=
  match v with
  | LNil => hb = d
  | LBool b => b = false ∧ hb = None
  | _ => ∃ q, number_of v = Some (Fin q) ∧ (0 < q <= inject_Z 1000000)%Q ∧ hb = Some (round_even (q * inject_Z NANOS))
  end.
(** A timeout: the default unless it is positive, and at most a million
    seconds. *)
Definition timeout_is (v : lvalue) (d t : Z) : Prop :=
  match number_of v with
  | Some x => if f_lt (f_int 0) x then from_secs x = Ret t ∧ 0 <= t <= MAX_NANOS else t = d
  | None => v = LNil ∧ t = d
  end.

Lemma u64_small n : 0 <= n < 2 ^ 64 → u64 n = n.
Proof. intros. by apply Z.mod_small. Qed.
Lemma argcheck_true b : argcheck b = Some tt → b = true.
Proof. by destruct b. Qed.
Lemma integer_of_i64 v n : integer_of v = Some n → - 2 ^ 63 <= n < 2 ^ 63.
Proof. destruct v; simpl; try done; apply tointeger_i64. Qed.
Lemma check_id_handle st n : check_id (arg st 1) = Some n → handle_is st n.
Proof.
  unfold check_id, handle_is. destruct (integer_of (arg st 1)) as [k|] eqn:E; [|done]. apply integer_of_i64 in E. simpl.
  destruct (Z.ltb_spec 0 k); simpl; [|done]. intros [= <-]. rewrite u64_small by lia. split; [done|lia].
Qed.
Lemma opt_str_is v s : opt_str v = Some s → string_is v s ∧ default [] s = text_of v.
Proof. destruct v; simpl; by intros [= <-]. Qed.
Lemma f_eq_fin x y : f_eq (Fin x) (Fin y) = true → (x == y)%Q.
Proof. unfold f_eq, f_cmp. by destruct (Qcompare_spec x y). Qed.
Lemma f_le_fin x y : f_le (Fin x) (Fin y) = true → (x <= y)%Q.
Proof.
  unfold f_le, f_lt, f_eq, f_cmp. destruct (Qcompare_spec x y) as [E|E|E]; [|intros _; by apply Qlt_le_weak|done].
  intros _. rewrite E. apply Qle_refl.
Qed.
Lemma f_lt_fin x y : f_lt (Fin x) (Fin y) = true → (x < y)%Q.
Proof. unfold f_lt, f_cmp. by destruct (Qcompare_spec x y). Qed.
Lemma opt_size_means v n d : opt_size v = Some n → 0 <= n <= MAX_SIZE ∧ limit_is v d (size_from n d).
Proof.
  unfold opt_size. destruct (optnumber v (f_int 0)) as [x|] eqn:E; [|done]. simpl.
  destruct (argcheck (_ && _)) as [[]|] eqn:E1; [|done]. apply argcheck_true, andb_true_iff in E1 as [Hlo Hhi]. simpl.
  destruct (argcheck _) as [[]|] eqn:E2; [|done]. apply argcheck_true in E2. simpl. intros [= <-].
  destruct x as [q|[]|]; [|done..]. apply f_le_fin in Hlo, Hhi. apply f_eq_fin in E2. simpl in *.
  rewrite <-E2, <-Zle_Qle in Hlo, Hhi. split; [done|].
  unfold size_from. destruct (Z.eqb_spec (Qfloor q) 0) as [E0|Hne].
  - left. split; [done|]. unfold optnumber in E. destruct v as [|b|m|s|]; try (by left); right; exists q; (split; [done|]);
      rewrite <-E2, E0; reflexivity.
  - right. unfold to_usize, USIZE_MAX, MAX_SIZE in *. destruct (Z.leb_spec (Qfloor q) (2 ^ 64 - 1)); [|lia]. simpl default.
    split; [lia|]. exists q. split; [|by rewrite E2]. unfold optnumber in E. destruct v as [|b|m|s|]; try done.
    injection E as <-. by destruct Hne.
Qed.
Lemma opt_heartbeat_means v s d : opt_heartbeat v = Some s → ∃ hb, heartbeat_from s d = Ret hb ∧ pause_is v d hb.
Proof.
  assert (∀ x, argcheck (f_lt (f_int 0) x && f_le x MAX_SECONDS) = Some tt →
    ∃ q, x = Fin q ∧ (0 < q <= inject_Z 1000000)%Q ∧ heartbeat_from x d = Ret (Some (round_even (q * inject_Z NANOS)))) as Hnum.
  { intros x [Hlo Hhi]%argcheck_true%andb_true_iff. destruct x as [q|[]|]; [|done..]. exists q. split; [done|].
    apply f_lt_fin in Hlo. pose proof (f_le_fin _ _ Hhi) as Hq. split; [done|]. unfold heartbeat_from.
    destruct (from_secs_fin q) as (n & -> & _ & Hn); [by apply Qlt_le_weak|]. rewrite (Hn Hq).
    unfold f_lt, f_eq, f_int, f_cmp. destruct (Qcompare_spec q (inject_Z 0)) as [E|E|E]; [| |done].
    - rewrite E in Hlo. by apply Qlt_irrefl in Hlo.
    - exfalso. eapply Qlt_irrefl, Qlt_trans; [exact Hlo|exact E]. }
  unfold opt_heartbeat, pause_is. destruct v as [|[]|m|str|]; try done; simpl.
  - intros [= <-]. by eexists.
  - intros [= <-]. by eexists.
  - destruct (tonumber (inl m)) as [x|]; [|done]. simpl. destruct (argcheck _) as [[]|] eqn:E; [|done]. simpl. intros [= <-].
    destruct (Hnum x E) as (q & -> & Hq & Hhb). eauto 6.
  - destruct (tonumber (inr str)) as [x|]; [|done]. simpl. destruct (argcheck _) as [[]|] eqn:E; [|done]. simpl. intros [= <-].
    destruct (Hnum x E) as (q & -> & Hq & Hhb). eauto 6.
Qed.
Lemma timeout_means v x d : optnumber v (f_int 0) = Some x →
  ∃ t, (if f_lt (f_int 0) x then from_secs x else Ret d) = Ret t ∧ timeout_is v d t.
Proof.
  intros E. assert (∃ t, (if f_lt (f_int 0) x then from_secs x else Ret d) = Ret t ∧
    (if f_lt (f_int 0) x then from_secs x = Ret t ∧ 0 <= t <= MAX_NANOS else t = d)) as (t & Et & Ht).
  { destruct (f_lt (f_int 0) x) eqn:Ex; [|by eauto]. destruct (from_secs_total x) as (n & -> & ?); [|by eauto].
    apply f_le_ge. unfold f_le. by rewrite Ex. }
  exists t. split; [done|]. unfold timeout_is, optnumber in *. destruct v as [| |m|s|]; simpl in E; try done; cbn [number_of]; [|by rewrite E..].
  injection E as <-. by injection Et as <-.
Qed.

Section Ready.
Context `{Target} `{Tls} (tls_ca : bytes → result ClientConfig bytes) (tls_server : bytes → bytes → result unit bytes).
(** Rust gets values of its types and returns, and the settings are those
    that the values on the stack name. *)
Definition connect_settings (st : list lvalue) (o : ClientOptions) : Prop :=
  c_protocols o = text_lines (text_of (arg st 3)) ∧
  Forall2 (λ line h, line = h.1 ++ [58] ++ h.2 ∧ 58 ∉ h.1) (text_lines (text_of (arg st 4))) (c_headers o) ∧
  (match arg st 5 with LString ca => ∃ c, tls_ca ca = Ok c ∧ c_tls o = Some c | _ => c_tls o = None end) ∧
  timeout_is (arg st 6) (c_timeout client_default) (c_timeout o) ∧
  limit_is (arg st 7) (c_max_message client_default) (c_max_message o) ∧
  limit_is (arg st 8) (c_max_buffer client_default) (c_max_buffer o) ∧
  pause_is (arg st 9) (c_heartbeat client_default) (c_heartbeat o).
Definition listen_settings (st : list lvalue) (o : ServerOptions) : Prop :=
  v_host o = (match arg st 2 with LString h => h | _ => v_host server_default end) ∧
  integer_of (arg st 3) = Some (v_port o) ∧ 0 <= v_port o <= 65535 ∧
  (match arg st 4, arg st 5 with
   | LString cert, LString key => tls_server cert key = Ok tt ∧ v_tls o = true
   | LNil, LNil => v_tls o = false
   | _, _ => False
   end) ∧
  limit_is (arg st 6) (v_max_message server_default) (v_max_message o) ∧
  limit_is (arg st 7) (v_max_buffer server_default) (v_max_buffer o) ∧
  limit_is (arg st 8) (v_max_connections server_default) (v_max_connections o) ∧
  pause_is (arg st 9) (v_heartbeat server_default) (v_heartbeat o).
Definition ready (f : fn) (st : list lvalue) (e : entry) : Prop :=
  match f, e with
  | FWait, EWait hub timeout =>
      handle_is st hub ∧
      (if isnoneornil (arg st 2) then timeout = f_int (-1) else number_of (arg st 2) = Some timeout) ∧
      ∀ recv r, ∃ out, ws_wait hub timeout recv r = Ret out
  | FConnect, EConnect hub url ps hs ca timeout max buffer hb =>
      handle_is st hub ∧ string_is (arg st 2) url ∧ string_is (arg st 3) ps ∧ string_is (arg st 4) hs ∧
      string_is (arg st 5) ca ∧
      ∀ now tok rt ev c r, ∃ out,
        ws_connect tls_ca now tok rt ev hub url ps hs ca timeout max buffer hb c r = Ret out ∧
        ∀ s, out.1.1.2 = Some s →
          ∃ o, connect now tok rt ev c (text_of (arg st 2)) o = Ok s ∧ connect_settings st o
  | FListen, EListen hub host port cert key max buffer n hb =>
      handle_is st hub ∧ string_is (arg st 2) host ∧ string_is (arg st 4) cert ∧ string_is (arg st 5) key ∧
      ∀ rt bound c r, ∃ out,
        ws_listen tls_server rt bound hub host port cert key max buffer n hb c r = Ret out ∧
        ∀ s, out.1.1.2 = Some s → ∃ p o, listen rt bound c o = Ok (s, p) ∧ listen_settings st o
  | FReply, EReply token status protocol =>
      handle_is st token ∧ optinteger (arg st 2) 0 = Some status ∧ 0 <= status <= 65535 ∧ string_is (arg st 3) protocol
  | FClose, EClose id code reason =>
      handle_is st id ∧ 0 <= code <= 65535 ∧ string_is (arg st 3) reason ∧
      ∃ n, optinteger (arg st 2) 1000 = Some n ∧ ∀ r, ws_close id code reason r = ws_close id n reason r
  | FSend, ESend id data binary => handle_is st id ∧ string_is (arg st 2) data ∧ binary = toboolean (arg st 3)
  | FPing, EPing id data => handle_is st id ∧ string_is (arg st 2) data
  | (FPort | FUnlisten | FTerminate | FProtocol | FShutdown | FState | FBuffered), EHandle g id => g = f ∧ handle_is st id
  | _, _ => False
  end.

Lemma header_lines_are ls hs : header_lines ls = Ok hs → Forall2 (λ line h, line = h.1 ++ [58] ++ h.2 ∧ 58 ∉ h.1) ls hs.
Proof.
  revert hs. induction ls as [|l ls IH]; intros hs; cbn [header_lines]; [by intros [= <-]; constructor|].
  destruct (split_once 58 l) as [[n v]|] eqn:E; [|done]. apply split_once_Some in E as [-> Hn].
  destruct (header_lines ls) as [hs'|]; [|done]. simpl. intros [= <-]. constructor; [done|by apply IH].
Qed.
Lemma str_text_same s what t : str_text s what = Ok t → t = s.
Proof. unfold str_text. destruct s; [destruct (is_utf8 _)|]; by intros [= <-]. Qed.
Lemma lines_are v s what ls : opt_str v = Some s → lines s what = Ok ls → ls = text_lines (text_of v).
Proof.
  intros [_ E]%opt_str_is. unfold lines. destruct (str_text s what) as [t|] eqn:Et; [|done]. apply str_text_same in Et as ->.
  simpl. by intros [= <-]; rewrite E.
Qed.
Lemma client_strings_mean st ps hs ca ps' hs' tls' :
  opt_str (arg st 3) = Some ps → opt_str (arg st 4) = Some hs → opt_str (arg st 5) = Some ca →
  client_strings tls_ca ps hs ca = Ok (ps', hs', tls') →
  ps' = text_lines (text_of (arg st 3)) ∧
  Forall2 (λ line h, line = h.1 ++ [58] ++ h.2 ∧ 58 ∉ h.1) (text_lines (text_of (arg st 4))) hs' ∧
  (match arg st 5 with LString ca => ∃ c, tls_ca ca = Ok c ∧ tls' = Some c | _ => tls' = None end).
Proof.
  intros Ep Eh Ec. unfold client_strings.
  destruct (lines ps _) as [l1|] eqn:E1; [|done]. simpl. destruct (lines hs _) as [l2|] eqn:E2; [|done]. simpl.
  destruct (header_lines l2) as [l3|] eqn:E3; [|done]. simpl. destruct (str_text ca _) as [ca'|] eqn:E4; [|done]. simpl.
  apply (lines_are (arg st 3)) in E1 as ->; [|done]. apply (lines_are (arg st 4)) in E2 as ->; [|done].
  apply header_lines_are in E3. apply str_text_same in E4 as ->. apply opt_str_is in Ec as [Ec _].
  destruct ca as [ca|]; [destruct (tls_ca ca) as [c|] eqn:E5; [|done]|]; simpl; intros [= <- <- <-]; split_and!; try done;
    destruct (arg st 5); simplify_eq/=; try done. by exists c.
Qed.
Lemma client_options_mean st ps hs ca timeout max buffer hb :
  opt_str (arg st 3) = Some ps → opt_str (arg st 4) = Some hs → opt_str (arg st 5) = Some ca →
  optnumber (arg st 6) (f_int 0) = Some timeout → opt_size (arg st 7) = Some max → opt_size (arg st 8) = Some buffer →
  opt_heartbeat (arg st 9) = Some hb →
  ∃ x, client_options tls_ca ps hs ca timeout max buffer hb = Ret x ∧ ∀ o, x = Ok o → connect_settings st o.
Proof.
  intros Ep Eh Ec Et Em Eb Ehb. unfold client_options.
  destruct (client_strings _ _ _ _) as [[[ps' hs'] tls']|] eqn:Es; [|by eexists].
  destruct (client_strings_mean _ _ _ _ _ _ _ Ep Eh Ec Es) as (S1 & S2 & S3).
  destruct (timeout_means _ _ (c_timeout client_default) Et) as (t & -> & Ht). cbn [mbind outcome_bind].
  destruct (opt_heartbeat_means _ _ (c_heartbeat client_default) Ehb) as (n & -> & Hn). cbn [mbind outcome_bind].
  eexists. split; [done|]. intros o [= <-].
  split_and!; [exact S1|exact S2|exact S3|exact Ht|by apply opt_size_means|by apply opt_size_means|exact Hn].
Qed.
Lemma ws_connect_means now tok rt ev h st url ps hs ca timeout max buffer hb c r :
  opt_str (arg st 2) = Some url →
  (∃ x, client_options tls_ca ps hs ca timeout max buffer hb = Ret x ∧ ∀ o, x = Ok o → connect_settings st o) →
  ∃ out, ws_connect tls_ca now tok rt ev h url ps hs ca timeout max buffer hb c r = Ret out ∧
    ∀ s, out.1.1.2 = Some s → ∃ o, connect now tok rt ev c (text_of (arg st 2)) o = Ok s ∧ connect_settings st o.
Proof.
  intros [_ Eu]%opt_str_is (x & Ex & Hx). unfold ws_connect. destruct (Native.hub h r); [|by eexists]. unfold connect_run.
  destruct (str_text url _) as [u|] eqn:E; [|by eexists]. apply str_text_same in E as ->. rewrite Ex. cbn [mbind outcome_bind].
  destruct x as [o|]; [|by eexists]. unfold hub_connect, next_id. rewrite Eu.
  destruct (connect now tok rt ev c (text_of (arg st 2)) o) as [s|] eqn:Ec; (eexists; split; [done|]); [|done].
  intros s' [= <-]. exists o. split; [done|]. by apply Hx.
Qed.
Lemma connection_limit_means v n limit :
  opt_size v = Some n → connection_limit n = Ok limit → limit_is v (v_max_connections server_default) limit.
Proof.
  intros En. destruct (opt_size_means _ _ (v_max_connections server_default) En) as [Hn Hl]. revert Hl.
  unfold connection_limit, size_from, to_usize, MAX_SIZE, USIZE_MAX in *.
  destruct (Z.ltb_spec 0 n), (Z.eqb_spec n 0); try lia; [|by intros ? [= <-]].
  destruct (Z.leb_spec n (2 ^ 64 - 1)); [|lia]. by intros ? [= <-].
Qed.
Lemma server_tls_means st cert key b :
  opt_str (arg st 4) = Some cert → opt_str (arg st 5) = Some key → server_tls tls_server cert key = Ok b →
  match arg st 4, arg st 5 with
  | LString cert, LString key => tls_server cert key = Ok tt ∧ b = true
  | LNil, LNil => b = false
  | _, _ => False
  end.
Proof.
  intros [Ec _]%opt_str_is [Ek _]%opt_str_is. unfold server_tls.
  destruct (str_text cert _) as [c|] eqn:E1; [|done]. apply str_text_same in E1 as ->. simpl.
  destruct (str_text key _) as [k|] eqn:E2; [|done]. apply str_text_same in E2 as ->. simpl.
  destruct (arg st 4), (arg st 5); simplify_eq/=; try done; [by intros [= <-]|].
  destruct (tls_server _ _) as [[]|]; by intros [= <-].
Qed.
Lemma server_options_mean st host port cert key max buffer n hb :
  opt_str (arg st 2) = Some host → opt_str (arg st 4) = Some cert → opt_str (arg st 5) = Some key →
  integer_of (arg st 3) = Some port → 0 <= port <= 65535 → opt_size (arg st 6) = Some max → opt_size (arg st 7) = Some buffer →
  opt_size (arg st 8) = Some n → opt_heartbeat (arg st 9) = Some hb →
  ∃ x, server_options tls_server host port cert key max buffer n hb = Ret x ∧ ∀ o, x = Ok o → listen_settings st o.
Proof.
  intros Eh Ec Ek Ep Hp Em Eb En Ehb. unfold server_options.
  destruct (connection_limit n) as [limit|] eqn:El; [|by eexists].
  destruct (str_text host _) as [h|] eqn:Et; [|by eexists]. apply str_text_same in Et as ->.
  destruct (opt_heartbeat_means _ _ (v_heartbeat server_default) Ehb) as (m & -> & Hm). cbn [mbind outcome_bind].
  eexists. split; [done|]. intros o. destruct (server_tls _ _ _) as [b|] eqn:Es; [|done]. intros [= <-].
  pose proof (server_tls_means _ _ _ _ Ec Ek Es) as Htls. apply opt_str_is in Eh as [Eh _].
  split_and!; [|exact Ep|apply Hp|apply Hp|exact Htls|by apply opt_size_means|by apply opt_size_means| |exact Hm].
  - cbn [v_host]. destruct (arg st 2); simplify_eq/=; done.
  - by eapply connection_limit_means.
Qed.
Lemma ws_listen_means rt bound h st host port cert key max buffer n hb c r :
  (∃ x, server_options tls_server host port cert key max buffer n hb = Ret x ∧ ∀ o, x = Ok o → listen_settings st o) →
  ∃ out, ws_listen tls_server rt bound h host port cert key max buffer n hb c r = Ret out ∧
    ∀ s, out.1.1.2 = Some s → ∃ p o, listen rt bound c o = Ok (s, p) ∧ listen_settings st o.
Proof.
  intros (x & Ex & Hx). unfold ws_listen. destruct (Native.hub h r); [|by eexists]. unfold listen_run. rewrite Ex. cbn [mbind outcome_bind].
  destruct x as [o|]; [|by eexists]. unfold hub_listen, next_id.
  destruct (listen rt bound c o) as [[s p]|] eqn:El; (eexists; split; [done|]); [|done].
  intros s' [= <-]. exists p, o. split; [done|]. by apply Hx.
Qed.
Lemma clamp_close id n reason r : ws_close id (clamp_code n) reason r = ws_close id n reason r.
Proof.
  unfold clamp_code. destruct (Z.ltb_spec n 0), (Z.ltb_spec 65535 n); simpl; try done; unfold ws_close;
    destruct (Z.leb_spec 0 n), (Z.leb_spec n 65535); try lia; done.
Qed.
Lemma clamp_range n : 0 <= clamp_code n <= 65535.
Proof. unfold clamp_code. destruct (Z.ltb_spec n 0), (Z.ltb_spec 65535 n); simpl; lia. Qed.

(** Takes the arguments that were read off a successful call. *)
Ltac reads :=
  repeat match goal with
  | E : (?m ≫= _) = Some _ |- _ => destruct m as [?|] eqn:?; simpl in E; [|discriminate E]
  end.
(** C25: Whatever is on Lua's stack, a function of the binding raises before it
    enters Rust, or enters it with the values at its argument positions: the
    handle is the positive integer at the first, every string is the string at
    its own position or none for [nil], and sizes, ports, statuses and codes fit
    their types.  Rust then returns instead of panicking, even for infinite or
    undefined numbers of seconds.  A client or server that is started is the one
    of [connect] or [listen] with the URL and the settings the arguments name,
    or the defaults where there is none: subprotocols and headers line by line,
    certificates, host, port, timeouts, limits and heartbeat.  A close code out
    of range is refused as such. *)
Theorem arguments_ready f st e : enter f st = Some e → ready f st e.
Proof.
  assert (∀ g, id_args g st = Some e → ∃ id, e = EHandle g id ∧ handle_is st id) as Hid.
  { intros g. unfold id_args. destruct (check_id _) as [id|] eqn:E; [|done]. intros [= <-]. exists id.
    split; [done|by apply check_id_handle]. }
  destruct f; try (by intros (id & -> & ?)%Hid); cbn [enter]; clear Hid.
  - unfold wait_args. intros E. reads. injection E as <-. split; [by apply check_id_handle|]. split.
    + unfold optnumber in *. destruct (isnoneornil (arg st 2)); [congruence|done].
    + intros recv r. destruct (ws_wait_returns z f recv r) as (x & -> & _). by eexists.
  - unfold connect_args. intros E. reads. injection E as <-. split; [by apply check_id_handle|].
    do 4 (split; [by apply opt_str_is|]). intros. apply ws_connect_means; [done|by apply client_options_mean].
  - unfold listen_args. intros E. reads. injection E as <-.
    match goal with Ha : argcheck _ = Some ?u |- _ => destruct u; apply argcheck_true, andb_true_iff in Ha as [?%Z.leb_le ?%Z.leb_le] end.
    unfold u16. rewrite Z.mod_small by lia. split; [by apply check_id_handle|].
    do 3 (split; [by apply opt_str_is|]). intros. apply ws_listen_means. by apply server_options_mean.
  - unfold reply_args. intros E. reads. injection E as <-.
    match goal with Ha : argcheck _ = Some ?u |- _ => destruct u; apply argcheck_true, andb_true_iff in Ha as [?%Z.leb_le ?%Z.leb_le] end.
    unfold u16. rewrite Z.mod_small by lia. split_and!; [by apply check_id_handle|done|lia|lia|by apply opt_str_is].
  - unfold send_args. intros E. reads. injection E as <-. split; [by apply check_id_handle|]. split; [by apply opt_str_is|done].
  - unfold ping_args. intros E. reads. injection E as <-. split; [by apply check_id_handle|by apply opt_str_is].
  - unfold close_args. intros E. reads. injection E as <-. split; [by apply check_id_handle|].
    split; [apply clamp_range|]. split; [by apply opt_str_is|]. eexists. split; [done|]. intros r. apply clamp_close.
Qed.
End Ready.
End Args.

(** ** A call of [connect] *)
Module Witness.
Import NativeProps.Witness.
#[local] Existing Instances Pem.Witness.keyless tls0 le.
(** Integers below 2^53 as the only numbers; strings are not numeric. *)
Definition small_integer (x : Z + bytes) : option Z :=
  match x with inl n => if (0 <=? n) && (n <? MAX_SIZE) then Some n else None | _ => None end.
Definition small_number (x : Z + bytes) : option F64 := match x with inl n => Some (f_int n) | _ => None end.
Lemma small_integer_i64 x n : small_integer x = Some n → - 2 ^ 63 <= n < 2 ^ 63.
Proof.
  destruct x as [k|s]; simpl; [|done]. destruct (Z.leb_spec 0 k), (Z.ltb_spec k MAX_SIZE); simpl; try done.
  intros [= <-]. unfold MAX_SIZE in *. lia.
Qed.
#[local] Instance small : LuaApi :=
  {| Numeral := Z; tointeger := small_integer; tonumber := small_number; tointeger_i64 := small_integer_i64 |}.
Definition stack0 : list lvalue :=
  [LNumber 1; LString (bs "ws://host/"); LString (bs "chat"); LString (bs "X-A:b"); LNil; LNumber 5; LNumber 4096; LNil; LBool false].
Lemma arguments_ready_witness : ∃ e, enter FConnect stack0 = Some e ∧ ready ca0 server0 FConnect stack0 e.
Proof.
  eexists. split; [vm_compute; reflexivity|]. apply (arguments_ready ca0 server0 FConnect). vm_compute. reflexivity.
Defined.
End Witness.
