(* ===== verification/Build.v ===== *)
(** * The build script (native/build.rs)

    It tells cargo when to rerun, compiles the four C files of the Lua glue
    when asked to, and links what it compiled.  The environment and the C
    compiler are parameters; the result is what it printed and whether it
    panicked. *)

From S2P Require Import Prelude Str.

Section Build.
(** [env::var(v).ok()], the host's path separator, and running a command:
    whether it succeeded, or why it could not be run. *)
Context (env : bytes → option bytes) (sep : Z) (status : bytes → list bytes → result bool bytes).

(** [Path::join] with a plain file name. *)
Definition path_join (dir file : bytes) : bytes :=
  match last dir with
  | None => file
  | Some c => if c =? sep then dir ++ file else dir ++ [sep] ++ file
  end.
(** What was printed, and the message of a panic. *)
Definition printed : Type := list bytes * option bytes.
Definition println (l : bytes) (k : printed) : printed := (l :: k.1, k.2).
Definition printlns (ls : list bytes) (k : printed) : printed := (ls ++ k.1, k.2).
Definition panics (m : bytes) : printed := ([], Some m).

Definition is_var (v value : bytes) : bool := bool_decide (env v = Some value).
Definition arguments (windows : bool) (source object : bytes) : list bytes :=
  [bs "-c"; bs "-O2"; bs "-std=c99"; bs "-Wall"; bs "-Wextra"] ++
  (if is_var (bs "WS_WERROR") (bs "1") then [bs "-Werror"] else []) ++
  (if windows then [] else [bs "-fPIC"]) ++
  [source ++ bs ".c"; bs "-o"; object].
Definition object_of (out source : bytes) : bytes := path_join out (source ++ bs ".o").
Definition link_arg (a : bytes) : bytes := bs "cargo::rustc-link-arg=" ++ a.
(** The loop over the sources, then [k]. *)
Fixpoint compile (windows : bool) (cc out : bytes) (sources : list bytes) (k : printed) : printed :=
  match sources with
  | [] => k
  | source :: sources =>
      let object := object_of out source in
      match status cc (arguments windows source object) with
      | Err e => panics (bs "cannot run " ++ cc ++ bs ": " ++ e)
      | Ok false => panics (bs "compiling " ++ source ++ bs ".c failed")
      | Ok true => println (link_arg object) (compile windows cc out sources k)
      end
  end.
Definition SOURCES : list bytes := [bs "ws"; bs "calls"; bs "values"; bs "luaapi"].
Definition GLUE : bytes := bs "cargo::rustc-cfg=glue".
Definition reruns : list bytes :=
  map (λ p, bs "cargo::rerun-if-changed=" ++ p)
    [bs "ws.c"; bs "calls.c"; bs "values.c"; bs "luaapi.c"; bs "ws.h"; bs "glue.h"; bs "luaapi.h"] ++
  map (λ v, bs "cargo::rerun-if-env-changed=" ++ v) [bs "WS_GLUE"; bs "WS_WERROR"; bs "CC"] ++
  [bs "cargo::rustc-check-cfg=cfg(glue)"].
Definition main : printed :=
  printlns reruns
    (if negb (is_var (bs "WS_GLUE") (bs "1")) then ([], None) else
     let os := default [] (env (bs "CARGO_CFG_TARGET_OS")) in
     let windows := bool_decide (os = bs "windows") in
     let macos := bool_decide (os = bs "macos") in
     match env (bs "OUT_DIR") with
     | None => panics (bs "OUT_DIR")
     | Some out =>
         let cc := default (if windows then bs "gcc" else bs "cc") (env (bs "CC")) in
         compile windows cc out SOURCES
           (printlns (if macos then [link_arg (bs "-undefined"); link_arg (bs "dynamic_lookup")] else [])
             (printlns (if windows then [link_arg (bs "-lkernel32")] else [])
               (printlns (if bool_decide (os = bs "linux") then [link_arg (bs "-ldl")] else [])
                 ([GLUE], None))))
     end).

(** ** The glue is linked exactly when it was compiled *)
Lemma compile_ok windows cc out sources k :
  (compile windows cc out sources k).2 = None →
  (compile windows cc out sources k).1 = map (λ s, link_arg (object_of out s)) sources ++ k.1 ∧ k.2 = None ∧
  Forall (λ s, status cc (arguments windows s (object_of out s)) = Ok true) sources.
Proof.
  induction sources as [|s sources IH]; simpl; [by auto|].
  destruct (status cc _) as [[]|] eqn:E; [|done..]. simpl. intros Hn. destruct (IH Hn) as (-> & Hk & Hf). by auto.
Qed.
Lemma compile_panics windows cc out sources k x :
  (compile windows cc out sources k).2 = Some x → k.2 = None →
  ∀ l, l ∈ (compile windows cc out sources k).1 → ∃ a, l = link_arg a.
Proof.
  intros Hp Hk. induction sources as [|s sources IH]; simpl in *; [by rewrite Hk in Hp|].
  destruct (status cc _) as [[]|]; simpl in *; [|intros l Hl; by apply elem_of_nil in Hl..].
  intros l [->|Hl]%elem_of_cons; eauto.
Qed.
(** A build that does not panic announces the glue exactly when it was asked
    for, and then every C file was compiled and its object linked; a build
    that panics announces nothing. *)
Theorem glue_linked :
  (main.2 = None → GLUE ∈ main.1 → is_var (bs "WS_GLUE") (bs "1") = true ∧
     ∃ windows cc out, env (bs "OUT_DIR") = Some out ∧
       Forall (λ s, status cc (arguments windows s (object_of out s)) = Ok true) SOURCES ∧
       Forall (λ s, link_arg (object_of out s) ∈ main.1) SOURCES) ∧
  (main.2 = None → is_var (bs "WS_GLUE") (bs "1") = true → GLUE ∈ main.1) ∧
  (main.2 ≠ None → GLUE ∉ main.1).
Proof.
  assert (GLUE ∉ reruns) as Hr by (apply (bool_decide_unpack _); vm_compute; exact I).
  unfold main. set (os := default [] (env (bs "CARGO_CFG_TARGET_OS"))).
  destruct (is_var (bs "WS_GLUE") (bs "1")); cbn [negb].
  2: { unfold printlns, panics. cbn [fst snd]. rewrite app_nil_r. split_and!; [by intros _ Hin|done|done]. }
  destruct (env (bs "OUT_DIR")) as [out|].
  2: { unfold printlns, panics. cbn [fst snd]. rewrite app_nil_r. split_and!; [done|done|done]. }
  set (cc := default _ (env (bs "CC"))). set (windows := bool_decide (os = bs "windows")).
  set (k := printlns (if bool_decide (os = bs "macos") then _ else _) _). assert (GLUE ∈ k.1 ∧ k.2 = None) as [Hk1 Hk2].
  { split; [|done]. unfold k, printlns. cbn [fst snd]. rewrite !elem_of_app. do 3 right. by left. }
  set (c := compile windows cc out SOURCES k).
  change (printlns reruns c).1 with (reruns ++ c.1). change (printlns reruns c).2 with c.2. split_and!.
  - intros Hn _. split; [done|]. destruct (compile_ok windows cc out SOURCES k Hn) as (Ec & _ & Hf).
    exists windows, cc, out. split_and!; [done|done|]. apply Forall_forall. intros s Hs. apply elem_of_app. right.
    fold c in Ec. rewrite Ec. apply elem_of_app. left. apply list_elem_of_fmap. eauto.
  - intros Hn _. destruct (compile_ok windows cc out SOURCES k Hn) as (Ec & _ & _). fold c in Ec.
    rewrite Ec, !elem_of_app. by do 2 right.
  - intros Hp Hin. destruct c.2 as [x|] eqn:E; [|done]. apply elem_of_app in Hin as [Hin|Hin]; [done|].
    destruct (compile_panics windows cc out SOURCES k x E Hk2 GLUE Hin) as [a Ha]. by vm_compute in Ha.
Qed.
End Build.
